(* ===== verification/_CoqProject ===== *)
-Q . S2P
Prelude.v
Discard.v
Job.v
Worker.v
WorkerActor.v
Queues.v
Routing.v
RateLimit.v
Factory.v
FactoryFacts.v
ActorTypes.v
Admission.v
Pg.v
Actors.v
Lifecycle.v
Monitors.v
Waiting.v
NodeServer.v
Bytes.v
Serialization.v
Runtime.v
RuntimeFacts.v
TaskTheorems.v
ThreadLocal.v
Derive.v
OutputPort.v
Retry.v
Rpc.v
Timer.v
Frames.v
Connection.v
Listener.v
RemoteActor.v
Auth.v
NodeSession.v
Handshake.v
HandshakeNet.v
MacroSyntax.v
SelfRewrite.v
ActorMacro.v
ActorMacroFacts.v
Philosophers.v
