(* ===== verification/Prelude.v ===== *)
(** * Verification of ractor

    ractor is an actor framework with Erlang-style supervision.  The crate [ractor] has the actors, their
    registries, supervision, process groups and the factory, a pool of workers fed from a queue; the crate
    [ractor_cluster] connects nodes over the network, so that actors of one node can be called from
    another.  The crates [ractor_macros] and [ractor_cluster_derive] generate actors and the serialization of
    their messages.  This library translates the source of these crates into executable definitions and proves
    what their parts promise each other and their users.

    ** How the code is modelled

    Definitions keep the names of the source; where two functions of the source share a name, a prefix or
    the file tells them apart.  A structure is a record, an enumeration an inductive type, a [HashMap] a
    [gmap]; the order in which a hash map or set is iterated is arbitrary and is given by the classes
    [HashMapIter] and [HashSetIter].  Code that can fail or panic returns [res] and runs in the state monad
    [M] of this file; code that only updates a state is a function on the state.  What the code reads from
    its surroundings (clocks, random numbers, outcomes of sends and spawns, answers of user code and of
    other actors) comes from streams that the theorems quantify over, and what it does to its surroundings
    is appended to a log.  Integers are kept at their width where they can wrap or saturate.

    ** The factory (src/ractor/src/factory/)

    A factory receives jobs, asks its router for a worker, and keeps what cannot be routed in its queue;
    workers hold private queues and report completion, and the factory resizes, drains and repairs its
    pool.
    - Discard.v, Job.v: load-shedding settings (discard.rs), jobs with their time to live (job.rs) and the
      environment of the factory.
    - Worker.v: [WorkerProperties] (worker.rs).  The per-key counters are exact, no job is lost, jobs are
      delivered in order, the load-shedding limit holds.
    - Queues.v: the trait [Queue] with its laws, and its two implementations (queues.rs).  The priority
      queue is a stable sort by priority and sheds from the least important class.
    - Routing.v, RateLimit.v: the trait [Router] with its laws, the five routers (routing.rs) and the
      rate-limited one (ratelim.rs).  A key has all its pending jobs on one worker, round-robin is fair,
      the leaky bucket bounds what it lets through and keeps its schedule.
    - Factory.v, FactoryFacts.v: every handler of the factory (factoryimpl.rs), generic in router and queue
      and proved against their laws.  No job is lost or duplicated whatever happens, the pool stays
      complete, limits hold, and a draining factory ends only when it is empty.

    - WorkerActor.v: the actor that every worker is (worker.rs), composed with the properties that the
      factory keeps of it.  A living worker has exactly the job that the factory takes it to have, as long
      as no report of a dead worker is handled after its replacement; otherwise, as a theorem shows, the
      report frees the replacement while it has a job.
    - Retry.v: retriable messages (job.rs), whose destructor submits them again.  What is submitted and when,
      a bound on the deliveries, and that no payload is duplicated.  Drops nest at most once, so that a
      fuel of two is enough.

    ** Actors (src/ractor/src/actor/, registry, pg.rs)

    - ActorTypes.v: ids, statuses and handles.
    - Admission.v: sending and draining (actor_properties.rs) as atomic actions of concurrent threads; every
      interleaving is a sequence of [thread_step].  The drain marker is sent, and is the last message;
      accepted messages are delivered once; the packed counter never overflows into its flags; a call that
      runs alone ends within eleven actions, which is the fuel of [run_alone].
    - Pg.v: the process groups (pg.rs).  The four maps agree, the module refines sets of members, an actor
      whose shutdown has run never reappears, joins are announced once.
    - Actors.v, Lifecycle.v: creation, registries, supervision and clean-up (actor.rs, actor_cell.rs,
      supervision.rs, registry.rs, pid_registry.rs), calling Pg.v.  The supervision tree and the registry
      of pids are exact, and so is that of names unless a remote actor bears one; [terminate] ends and
      reaches exactly the subtree (its fuel is one more than the number of links, each round removes one),
      clean-up is complete, also after a failed start.  One theorem shows a defect: stopping a named
      remote actor unregisters a local actor of that name.

    - Monitors.v: monitors of an actor (supervision.rs), which hear what its supervisor hears.
    - Waiting.v: waiting for an actor or for all children of one (actor_cell.rs, actor_properties.rs,
      supervision.rs), as threads of atomic actions beside the task that ends.  A wait returns only when the
      actor has stopped, and no wake-up is lost; but stopping all children does not wait for those that were
      asked to stop before.  The [Notify] of tokio is a class with the documented behaviour as its laws.
    - Runtime.v, RuntimeFacts.v, TaskTheorems.v: the task of an actor (actor.rs, the ports of
      actor_cell.rs) in a monad of computations that return, unwind or never end, with a calculus of
      triples for it.  Messages arrive and user code returns as the environment decides.  RuntimeFacts.v
      has an abstract actor, a transition system over what is observable, and the proof that a task
      refines it; TaskTheorems.v derives the order in which messages are handled, that the event reported
      at the end is the one its history calls for, that a task which is told to stop, killed or drained
      ends, and, composed with Lifecycle.v, that the node forgets the actor.  The fuel of a task bounds
      the polls that are observed, and the liveness theorem says how many are enough.
    - ThreadLocal.v: the runtime of thread-local actors (thread_local.rs, thread_local/inner.rs), which
      refines the same abstract actor, and differs where a message cannot be decoded.
    - OutputPort.v: both output ports (port/output.rs).  With the feature output-port-v2, batches are dispatched
      as their messages would be one by one, and a subscriber receives all that its filter keeps; the default
      port keeps the order but may lose messages.  Every loop has the length of what it
      consumes as fuel.
    - Rpc.v: calls, multi-calls and forwarded calls (rpc.rs, rpc/call_result.rs, port.rs), for every fate of
      the reply ports.
    - Timer.v: the timers (time.rs) over an interface for interval timers, with the back-ends of the source as
      instances (concurrency/).  An interval sends its messages at least a period apart until its actor is gone,
      and does not drift where the back-end keeps exact deadlines, which is not assumed of the browser.

    ** The cluster (src/ractor_cluster/src/, src/ractor_cluster_derive/src/)

    The node server owns one session per connection.  A session authenticates its peer, synchronises actors
    and groups with it, and relays messages between remote actors and local ones; below it, messages are
    frames on a byte stream.
    - NodeServer.v (node.rs): both ends of a set of connections elect a common one, and only that one if the
      nonces differ; the sessions with a
      peer stay settled over any history in which sessions report in order; the answer given in a
      handshake predicts the election.
    - Bytes.v, Serialization.v (serialization.rs, message.rs, job.rs): the class [BytesConvertable] carries
      its round-trip law, discharged by each implementation; a job decodes to what was sent.
    - Derive.v: the macro that derives the serialization of a message (ractor_cluster_derive/src), as its
      validation of an enum and the behaviour of the code it generates.  What it accepts has the
      representation the generator relies on; messages survive the round trip, with their reply ports;
      decoding is total and exact on any bytes.
    - Frames.v (net/session.rs): the reader delivers what the writer sent for every batching and every
      fragmentation.  Reading [n] bytes takes at most [n] reads, since a read of no byte ends the stream;
      the reader needs one step per frame and one for the end.
    - Connection.v (net/session.rs, net.rs): both ends of a connection as a concurrent system, with the actors
      Session and SessionReader and the write task of either end over a stream that may be cut anywhere.  What
      one end receives is always a first part of what the other has sent; the parts of an end live and end
      together; everything has arrived when both ends are idle.  Two lemmas show what a closing connection
      drops.
    - Listener.v (net/listener.rs, node/client.rs): how connections come about.  Every accepted connection that
      works is opened, in order, and the announced port is that of the listener.  A socket that breaks after it
      was accepted ends the listener with its backlog, and a silent TLS peer blocks the rest.
    - RemoteActor.v (remote_actor.rs): calls are answered by their own replies; abandoned calls are
      reclaimed after a bounded number of messages.
    - Auth.v, NodeSession.v, Handshake.v (hash.rs, node/auth.rs, node/node_session.rs): nothing is done for
      a peer that has not proved that it knows the cookie; a session never panics and reports in the order
      NodeServer.v assumes; the handshake of two sessions ends, within five messages, in the state the
      names, the cookies and the node server call for - except that a connection reported as a duplicate
      hangs.  Of the task that pings the peer only whether it runs is modelled.
    - HandshakeNet.v: Handshake.v composed with Connection.v.  Two sessions at the ends of a connection,
      in every interleaving and with every failure, are always on the way to that same outcome, and over a
      reliable transport they reach it while both ends live.

    ** The attribute macro for actors (src/ractor_macros/src/)

    - MacroSyntax.v: syntax as the macro sees it, its options (config.rs), and the attributes for conditional
      compilation that it copies: handler, match arm and enum variant are compiled in the same configurations.
    - SelfRewrite.v: the visitor that moves types out of the implementation block is a substitution for [Self],
      with an error exactly where there is none.  Its recursion needs the depth of the two types as fuel.
    - ActorMacro.v, ActorMacroFacts.v: handlers, the generated message enum and the generated dispatch
      (expand.rs), and what the generated code does: every message reaches the method that declared it, with
      its fields by name and type; unhandled supervision events keep the default.

    ** An example (src/ractor/examples/philosophers.rs)

    - Philosophers.v: the dining philosophers, with forks and philosophers as actors.  In every interleaving
      philosophers who sit together do not eat at the same time; a schedule of the example's eleven philosophers
      leaves all of them hungry for ever.

    ** Parameters

    SHA-256 is a function from bytes to bytes; that different cookies are refused assumes that it tells
    them apart.  The protobuf code generated from src/ractor_cluster/src/protocol/ is an encoder and a
    decoder that inverts it.  Whether an actor's message type supports remoting, and the conversion of a
    protobuf timestamp, are functions.  User code (handlers, hooks, controllers, custom routers and hashes)
    is part of the environment, and so are the arrival of messages and signals at a task, the fates of reply
    ports, the delays of the scheduler and the browser's interval timer.  Conversions of field types to bytes
    are those of the user.  How [syn] parses tokens is a choice of syntax trees; the conditions of [cfg] are any
    assignment of truth values.

    ** Not modelled

    - The bindings to the asynchronous runtimes (concurrency/), but for their interval timers.  What the
      models use of a runtime is stated where it is used: the order of a biased [select!], a timeout that
      polls its future first, channels that keep their order.
    - Sockets and TLS: their calls have outcomes, and a stream has the bytes it hands out (Frames.v,
      Listener.v).
    - Memory ordering: atomics are sequentially consistent.
    - The text of some compile errors, and the spans of all of them.
    - Error types, typed wrappers, the macros over calls and the other demonstration programs: no state. *)

From stdpp Require Export base tactics list list_monad gmap sets strings.
From Stdlib Require Export ZArith Lia.

(** ** Notations and options *)

Declare Scope ractor_scope.
Delimit Scope ractor_scope with ractor.
Global Open Scope Z_scope.
Global Open Scope nat_scope.
Global Open Scope ractor_scope.
Global Set Default Goal Selector "!".
Global Generalizable All Variables.

(** ** Results of fallible code *)

(** The outcome of a Rust expression of type [Result<A, E>] that may also
    unwind: [Ok], [Err] (propagated by [?]) or [Panic]. *)
Inductive res (A : Type) : Type :=
| Ok (a : A)
| Err (e : string)
| Panic.
Arguments Ok {A} a.
Arguments Err {A} e.
Arguments Panic {A}.

Definition is_ok {A} (r : res A) : bool :=
  match r with Ok _ => true | _ => false end.

(** Fallible code without a state: [?] is the bind. *)
Global Instance res_ret : MRet res := λ A a, Ok a.
Global Instance res_bind : MBind res := λ A B k r,
  match r with Ok a => k a | Err e => Err e | Panic => Panic end.

Lemma res_bind_ok {A B} (r : res A) (k : A → res B) b : r ≫= k = Ok b ↔ ∃ a, r = Ok a ∧ k a = Ok b.
Proof. destruct r; simpl; naive_solver. Qed.

(** ** A state and error monad

    Handlers of the program are methods on [&mut self]: they mutate a state,
    read the environment, and may stop early with an error.  The state reached
    when an error is raised is kept, as it is in Rust. *)

Definition M (S A : Type) : Type := S → res A * S.

Global Instance M_ret {S} : MRet (M S) := λ A a s, (Ok a, s).
Global Instance M_bind {S} : MBind (M S) := λ A B k m s,
  match m s with
  | (Ok a, s') => k a s'
  | (Err e, s') => (Err e, s')
  | (Panic, s') => (Panic, s')
  end.

Definition get {S} : M S S := λ s, (Ok s, s).
Definition gets {S A} (f : S → A) : M S A := λ s, (Ok (f s), s).
Definition put {S} (s : S) : M S unit := λ _, (Ok tt, s).
Definition modify {S} (f : S → S) : M S unit := λ s, (Ok tt, f s).
Definition throw {S A} (e : string) : M S A := λ s, (Err e, s).
Definition panic {S A} : M S A := λ s, (Panic, s).
Definition when {S} (b : bool) (m : M S unit) : M S unit := if b then m else mret tt.

(** [for x in l { f(x)? }] *)
Fixpoint for_each {S A} (l : list A) (f : A → M S unit) : M S unit :=
  match l with
  | [] => mret tt
  | x :: l => f x ;; for_each l f
  end.

(** [zoom]: run a computation on a part of the state. *)
Definition zoom {S T A} (pr : S → T) (inj : T → S → S) (m : M T A) : M S A :=
  λ s, let '(r, t) := m (pr s) in (r, inj t s).

(** Equations for symbolic execution of the head of a computation. *)
Section run_rules.
Context {S : Type}.

Lemma bind_ok {A B} (m : M S A) (k : A → M S B) s a s' :
  m s = (Ok a, s') → (m ≫= k) s = k a s'.
Proof. unfold mbind, M_bind. by intros ->. Qed.

Lemma bind_gets {A B} (f : S → A) (k : A → M S B) s : (gets f ≫= k) s = k (f s) s.
Proof. done. Qed.

Lemma bind_modify {B} (f : S → S) (k : unit → M S B) s : (modify f ≫= k) s = k tt (f s).
Proof. done. Qed.

Lemma bind_ret {A B} (a : A) (k : A → M S B) s : ((mret a : M S A) ≫= k) s = k a s.
Proof. done. Qed.
End run_rules.

(** A computation that never ends with [Err]. *)
Definition errorless {S A} (m : M S A) : Prop := ∀ s e, (m s).1 ≠ Err e.

Lemma errorless_bind {S A B} (m : M S A) (k : A → M S B) :
  errorless m → (∀ a, errorless (k a)) → errorless (m ≫= k).
Proof.
  intros Hm Hk s e. unfold mbind, M_bind. specialize (Hm s).
  destruct (m s) as [[a|e'|] s']; simpl in *; [apply Hk|by destruct (Hm e')|done].
Qed.

Lemma errorless_zoom {S T A} (pr : S → T) inj (m : M T A) : errorless m → errorless (zoom pr inj m).
Proof. intros Hm s e. unfold zoom. specialize (Hm (pr s) e). by destruct (m (pr s)). Qed.

(** ** Invariants of computations

    [preserves I m]: whatever the result of [m], the invariant [I] is kept. *)
Definition preserves {S A} (I : S → Prop) (m : M S A) : Prop := ∀ s, I s → I (m s).2.

Section preserves.
Context {S : Type} (I : S → Prop).

Lemma preserves_ret {A} (a : A) : preserves I (mret a : M S A).
Proof. by intros s. Qed.

Lemma preserves_throw {A} e : preserves I (throw e : M S A).
Proof. by intros s. Qed.

Lemma preserves_panic {A} : preserves I (panic : M S A).
Proof. by intros s. Qed.

Lemma preserves_gets {A} (f : S → A) : preserves I (gets f).
Proof. by intros s. Qed.

Lemma preserves_modify (f : S → S) : (∀ s, I s → I (f s)) → preserves I (modify f).
Proof. by intros H s Hs; apply H. Qed.

Lemma preserves_bind {A B} (m : M S A) (k : A → M S B) :
  preserves I m → (∀ a, preserves I (k a)) → preserves I (m ≫= k).
Proof.
  intros Hm Hk s Hs. specialize (Hm s Hs). unfold mbind, M_bind.
  destruct (m s) as [[a|e|] s']; simpl in *; [by apply Hk|done|done].
Qed.

Lemma preserves_when b (m : M S unit) : preserves I m → preserves I (when b m).
Proof. destruct b; [done|intros _; apply preserves_ret]. Qed.

Lemma preserves_for_each {A} (l : list A) (f : A → M S unit) :
  (∀ x, x ∈ l → preserves I (f x)) → preserves I (for_each l f).
Proof.
  induction l as [|x l IH]; intros Hf; simpl; [apply preserves_ret|].
  apply preserves_bind; [apply Hf; set_solver|]. intros _. apply IH. set_solver.
Qed.
End preserves.

Create HintDb ractor discriminated.
Create Rewrite HintDb ractor.

(** Splits a [preserves] goal along the syntax of the program; what is known of a primitive is in the hint
    database. *)
Ltac preserves_step :=
  match goal with
  | |- preserves _ (mbind _ _) => apply preserves_bind; [|intros ?]
  | |- preserves _ (mret _) => apply preserves_ret
  | |- preserves _ (throw _) => apply preserves_throw
  | |- preserves _ panic => apply preserves_panic
  | |- preserves _ (gets _) => apply preserves_gets
  | |- preserves _ (when _ _) => apply preserves_when
  | |- preserves _ (for_each _ _) => apply preserves_for_each; intros ? ?
  | |- preserves _ (match ?x with _ => _ end) => destruct x eqn:?
  | |- preserves _ _ => solve [eauto with ractor]
  end.
Ltac solve_preserves := repeat preserves_step.

(** ** Machine integers *)

Definition usize_max : Z := 2 ^ 64 - 1.
Definition u64_max : Z := 2 ^ 64 - 1.
Definition isize_max : Z := 2 ^ 63 - 1.
Definition isize_min : Z := - 2 ^ 63.

(** [usize::saturating_add] and [usize::saturating_sub]. *)
Definition usize_sat_add (a b : Z) : Z := Z.min (a + b) usize_max.
Definition usize_sat_sub (a b : Z) : Z := Z.max (a - b) 0.

(** ** Counting the elements of a list that satisfy a boolean predicate *)

Fixpoint countb {A} (p : A → bool) (l : list A) : nat :=
  match l with
  | [] => 0
  | x :: l => (if p x then 1 else 0) + countb p l
  end.

Section countb.
Context {A : Type}.
Implicit Types (p : A → bool) (l : list A).

Lemma countb_app p l1 l2 : countb p (l1 ++ l2) = countb p l1 + countb p l2.
Proof. induction l1; simpl; lia. Qed.

Lemma countb_le_length p l : countb p l ≤ length l.
Proof. induction l; simpl; [lia|]. destruct (p a); lia. Qed.

Lemma countb_true l : countb (λ _, true) l = length l.
Proof. induction l; simpl; lia. Qed.

Lemma countb_permutation p l1 l2 : l1 ≡ₚ l2 → countb p l1 = countb p l2.
Proof. induction 1; simpl; lia. Qed.

Lemma countb_zero p l : countb p l = 0 ↔ ∀ x, x ∈ l → p x = false.
Proof.
  rewrite <-Forall_forall. induction l as [|y l IH]; simpl.
  - split; [by constructor|done].
  - rewrite Forall_cons, <-IH. destruct (p y); split; intros; destruct_and?; try done; lia.
Qed.

Lemma countb_ext p q l : (∀ x, x ∈ l → p x = q x) → countb p l = countb q l.
Proof.
  induction l as [|y l IH]; intros H; simpl; [done|].
  rewrite (H y), IH; [done|set_solver|set_solver].
Qed.

Lemma countb_insert p l i x y :
  l !! i = Some x →
  countb p (<[i := y]> l) + (if p x then 1 else 0) = countb p l + (if p y then 1 else 0).
Proof.
  revert i. induction l as [|z l IH]; intros [|i] Hi; simpl in *; simplify_eq; [lia|].
  specialize (IH i Hi). lia.
Qed.

Lemma countb_pos p l i x : l !! i = Some x → p x = true → 0 < countb p l.
Proof.
  intros Hi Hx. enough (countb p l ≠ 0) by lia. rewrite countb_zero. intros Hn.
  rewrite Hn in Hx; [done|]. by eapply list_elem_of_lookup_2.
Qed.
End countb.
#[export] Hint Rewrite @countb_app : ractor.

(** ** Lists *)

Lemma filter_fmap_list {A B} (f : A → B) (P : B → Prop) `{!∀ x, Decision (P x)} (l : list A) :
  filter P (f <$> l) = f <$> filter (λ x, P (f x)) l.
Proof.
  induction l as [|x l IH]; [done|]. rewrite fmap_cons. destruct (decide (P (f x))).
  - by rewrite !filter_cons_True, IH.
  - by rewrite !filter_cons_False, IH.
Qed.

Lemma filter_all {A} (P : A → Prop) `{!∀ x, Decision (P x)} (l : list A) :
  (∀ x, x ∈ l → P x) → filter P l = l.
Proof.
  induction l as [|x l IH]; intros Hl; [done|].
  rewrite filter_cons_True, IH; [done|intros y Hy; apply Hl; by right|apply Hl; by left].
Qed.

Lemma filter_none {A} (P : A → Prop) `{!∀ x, Decision (P x)} (l : list A) :
  (∀ x, x ∈ l → ¬ P x) → filter P l = [].
Proof.
  induction l as [|x l IH]; intros Hl; [done|].
  rewrite filter_cons_False, IH; [done|intros y Hy; apply Hl; by right|apply Hl; by left].
Qed.

Lemma fmap_subseteq_list {A B} (f : A → B) (l l' : list A) : l ⊆ l' → f <$> l ⊆ f <$> l'.
Proof. intros Hl y (x & -> & Hx)%list_elem_of_fmap. by apply list_elem_of_fmap_2, Hl. Qed.

Lemma NoDup_fmap_filter {A B} (f : A → B) (P : A → Prop) `{!∀ x, Decision (P x)} (l : list A) :
  NoDup (f <$> l) → NoDup (f <$> filter P l).
Proof.
  induction l as [|x l IH]; [done|]. rewrite fmap_cons, NoDup_cons. intros [Hx Hl].
  destruct (decide (P x)); [rewrite filter_cons_True by done|rewrite filter_cons_False by done; auto].
  rewrite fmap_cons, NoDup_cons. split; [|auto]. contradict Hx.
  apply list_elem_of_fmap in Hx as (y & -> & [_ Hy]%list_elem_of_filter). by apply list_elem_of_fmap_2.
Qed.

Lemma existsb_fmap {A B} (f : A → B) (p : B → bool) (l : list A) :
  existsb p (f <$> l) = existsb (λ x, p (f x)) l.
Proof. induction l as [|x l IH]; [done|]. cbn. by rewrite <-IH. Qed.

Lemma omap_fmap_list {A B C} (f : A → B) (g : B → option C) (l : list A) :
  omap g (f <$> l) = omap (λ x, g (f x)) l.
Proof. induction l as [|x l IH]; [done|]. cbn. destruct (g (f x)); cbn; by rewrite <-IH. Qed.

Lemma existsb_elem_of {A} (f : A → bool) (l : list A) : existsb f l = true ↔ ∃ x, x ∈ l ∧ f x = true.
Proof. rewrite existsb_exists. by setoid_rewrite list_elem_of_In. Qed.

Lemma forallb_elem_of {A} (f : A → bool) (l : list A) : forallb f l = true ↔ ∀ x, x ∈ l → f x = true.
Proof. rewrite forallb_forall. by setoid_rewrite list_elem_of_In. Qed.

Lemma existsb_permutation {A} (f : A → bool) (l l' : list A) : l ≡ₚ l' → existsb f l = existsb f l'.
Proof. intros Hl. apply eq_bool_prop_intro. rewrite !Is_true_true, !existsb_elem_of. by setoid_rewrite Hl. Qed.

Lemma forallb_permutation {A} (f : A → bool) (l l' : list A) : l ≡ₚ l' → forallb f l = forallb f l'.
Proof. intros Hl. apply eq_bool_prop_intro. rewrite !Is_true_true, !forallb_elem_of. by setoid_rewrite Hl. Qed.

(** A list without duplicates whose elements are all equal *)
Lemma NoDup_same {A} (l : list A) (x : A) : NoDup l → l ≠ [] → (∀ y, y ∈ l → y = x) → l = [x].
Proof.
  intros Hnd Hne H. destruct l as [|y l]; [done|]. apply NoDup_cons in Hnd as [Hy _].
  assert (y = x) as -> by (apply H; by left). destruct l as [|z l]; [done|]. exfalso. apply Hy.
  rewrite <-(H z); [by left|]. right. by left.
Qed.

Lemma NoDup_fmap_eq {A B} (f : A → B) (l : list A) x y :
  NoDup (f <$> l) → x ∈ l → y ∈ l → f x = f y → x = y.
Proof.
  intros Hnd [i Hi]%list_elem_of_lookup [j Hj]%list_elem_of_lookup Hf.
  assert (i = j) as ->; [|congruence].
  eapply NoDup_lookup; [exact Hnd|by rewrite list_lookup_fmap, Hi|].
  by rewrite list_lookup_fmap, Hj, Hf.
Qed.

(** ** Iteration over a hash map

    The order in which a [HashMap] is iterated is unspecified: it is a parameter,
    of which only the law below is known. *)
Class HashMapIter (V : Type) := {
  hm_iter : gmap nat V → list (nat * V);
  hm_iter_perm m : hm_iter m ≡ₚ map_to_list m
}.

(** One possible order, used to evaluate definitions on concrete inputs. *)
Definition map_to_list_iter (V : Type) : HashMapIter V :=
  {| hm_iter := map_to_list; hm_iter_perm _ := reflexivity _ |}.

(** [map.iter().find(|(_, v)| f(v)).map(|(k, _)| k)] *)
Definition hm_find `{HashMapIter V} (f : V → bool) (m : gmap nat V) : option nat :=
  fst <$> List.find (λ kv, f kv.2) (hm_iter m).

Section hash_map.
Context `{HashMapIter V}.

Lemma elem_of_hm_iter (m : gmap nat V) k v : (k, v) ∈ hm_iter m ↔ m !! k = Some v.
Proof. by rewrite hm_iter_perm, elem_of_map_to_list. Qed.

Lemma hm_find_some f (m : gmap nat V) k :
  hm_find f m = Some k → ∃ v, m !! k = Some v ∧ f v = true.
Proof.
  unfold hm_find. destruct (List.find _ _) as [[k' v]|] eqn:E; [|done].
  intros [= <-]. apply List.find_some in E as [Hin Hf].
  exists v. split; [|done]. by apply elem_of_hm_iter, list_elem_of_In.
Qed.

Lemma hm_find_none f (m : gmap nat V) k v :
  hm_find f m = None → m !! k = Some v → f v = false.
Proof.
  unfold hm_find. destruct (List.find _ _) as [[k' v']|] eqn:E; [done|].
  intros _ Hk. apply (List.find_none _ _ E (k, v)).
  by apply list_elem_of_In, elem_of_hm_iter.
Qed.
End hash_map.

(** The iteration order of a [HashSet] is unspecified too. *)
Class HashSetIter (K : Type) `{Countable K} := {
  hs_iter : gset K → list K;
  hs_iter_perm X : hs_iter X ≡ₚ elements X
}.

Definition elements_iter (K : Type) `{Countable K} : HashSetIter K :=
  {| hs_iter := elements; hs_iter_perm _ := reflexivity _ |}.

Lemma elem_of_hs_iter `{HashSetIter K} (X : gset K) k : k ∈ hs_iter X ↔ k ∈ X.
Proof. by rewrite hs_iter_perm, elem_of_elements. Qed.

Lemma length_hs_iter `{HashSetIter K} (X : gset K) : length (hs_iter X) = size X.
Proof. by rewrite hs_iter_perm. Qed.
