(* ===== verification/Discard.v ===== *)
(** Load-shedding settings of a factory and of its workers
    (src/ractor/src/factory/discard.rs).

    [DiscardSettings] is what the factory is configured with; a worker holds a
    [WorkerDiscardSettings], a copy whose limit the factory refreshes.  A dynamic
    controller is user code: it is kept as an opaque handle, its answers come
    from the environment (see [Job.World]). *)

From S2P Require Import Prelude.

(** [enum DiscardMode] *)
Inductive DiscardMode := Oldest | Newest.

(** [enum DiscardReason] *)
Inductive DiscardReason := TtlExpired | Loadshed | Shutdown | RateLimitedReason.

#[global] Instance DiscardMode_eq_dec : EqDecision DiscardMode.
Proof. solve_decision. Defined.
#[global] Instance DiscardReason_eq_dec : EqDecision DiscardReason.
Proof. solve_decision. Defined.

(** [enum WorkerDiscardSettings] *)
Inductive WorkerDiscardSettings :=
| WNone
| WStatic (limit : nat) (mode : DiscardMode).

(** [enum DiscardSettings] *)
Inductive DiscardSettings :=
| DNone
| DStatic (limit : nat) (mode : DiscardMode)
| DDynamic (limit : nat) (mode : DiscardMode) (updater : nat).

Definition update_worker_limit (new_limit : nat) (s : WorkerDiscardSettings)
    : WorkerDiscardSettings :=
  match s with
  | WStatic _ mode => WStatic new_limit mode
  | WNone => WNone
  end.

Definition worker_limit_and_mode (s : WorkerDiscardSettings) : option (nat * DiscardMode) :=
  match s with
  | WNone => None
  | WStatic limit mode => Some (limit, mode)
  end.

Definition get_worker_settings (s : DiscardSettings) : WorkerDiscardSettings :=
  match s with
  | DNone => WNone
  | DStatic limit mode => WStatic limit mode
  | DDynamic limit mode _ => WStatic limit mode
  end.

Definition get_limit_and_mode (s : DiscardSettings) : option (nat * DiscardMode) :=
  match s with
  | DNone => None
  | DStatic limit mode => Some (limit, mode)
  | DDynamic limit mode _ => Some (limit, mode)
  end.

(** A worker's copy agrees with the factory's settings when it is taken. *)
Lemma worker_settings_agree s :
  worker_limit_and_mode (get_worker_settings s) = get_limit_and_mode s.
Proof. by destruct s. Qed.
#[export] Hint Rewrite worker_settings_agree : ractor.
