(* ===== verification/Job.v ===== *)
(** Jobs (src/ractor/src/factory/job.rs) and the environment a factory runs in.

    The environment of the factory code is a [World]: streams of the values it
    reads (clocks, outcomes of sends and spawns, answers of user-provided
    controllers and hooks) and the log of the effects it performs.  Every theorem
    quantifies over the world, so over every behaviour of the environment. *)

From S2P Require Import Prelude Discard.

(** ** Data *)

(** [Instant], [SystemTime] and [Duration], in nanoseconds. *)
Abbreviation Instant := Z (only parsing).
Abbreviation SystemTime := Z (only parsing).
Abbreviation Duration := Z (only parsing).

Abbreviation ActorId := nat (only parsing).
Abbreviation WorkerId := nat (only parsing).

(** [struct TtlTimer] *)
Record TtlTimer := mkTtlTimer {
  started_at : Instant;
  remaining : Duration;
  already_expired : bool
}.

(** [struct JobOptions]; the tracing span carries no behaviour. *)
Record JobOptions := mkJobOptions {
  submit_time : SystemTime;
  factory_time : SystemTime;
  worker_time : SystemTime;
  ttl : option Duration;
  ttl_timer : option TtlTimer
}.

(** [struct Job]; the reply port of [accepted] is an opaque identifier. *)
Record Job (K Msg : Type) := mkJob {
  job_key : K;
  job_msg : Msg;
  job_options : JobOptions;
  job_accepted : option nat
}.
Arguments mkJob {K Msg}.
Arguments job_key {K Msg}.
Arguments job_msg {K Msg}.
Arguments job_options {K Msg}.
Arguments job_accepted {K Msg}.

(** [trait FactoryStatsLayer]: the calls the factory makes to it. *)
Inductive Stat :=
| FactoryPingReceived (sent : Instant)
| WorkerPingReceived (elapsed : Duration)
| NewJob
| JobCompleted (o : JobOptions)
| JobDiscarded
| JobRateLimited
| JobTtlExpired (n : nat)
| QueueDepth (n : nat)
| ProcessingMessagesCount (n : Z)
| InFlightMessagesCount (n : Z)
| WorkerCount (n : nat)
| QueueLimit (n : nat).

(** What [ActorRef::cast] answers: accepted, refused with the message handed
    back ([MessagingErr::SendErr]), or refused with the message consumed. *)
Inductive CastOutcome := CastOk | CastSendErr | CastConsumed.

(** The messages the factory sends to itself on a timer. *)
Inductive TimerMessage := TimerDoPings | TimerCalculate | TimerIdentifyStuck.

(** Lifecycle hooks a factory calls. *)
Inductive Hook := OnFactoryStarted | OnFactoryStopped | OnFactoryDraining.

(** The observable effects of the factory code, in order. *)
Inductive Event (K Msg : Type) :=
| EvReply (port : nat) (v : option (Job K Msg))
| EvDiscard (r : DiscardReason) (j : Job K Msg)
| EvDropped (j : Job K Msg)
| EvDispatch (a : ActorId) (j : Job K Msg)
| EvPing (a : ActorId) (sent : Instant)
| EvStat (h : nat) (factory : string) (s : Stat)
| EvStop (a : ActorId)
| EvKill (a : ActorId)
| EvTimer (period : Duration) (m : TimerMessage)
| EvTimerAbort
| EvReplyUsize (port : nat) (v : Z)
| EvHook (h : nat) (k : Hook).
Arguments EvReply {K Msg}.
Arguments EvDiscard {K Msg}.
Arguments EvDropped {K Msg}.
Arguments EvDispatch {K Msg}.
Arguments EvPing {K Msg}.
Arguments EvStat {K Msg}.
Arguments EvStop {K Msg}.
Arguments EvKill {K Msg}.
Arguments EvTimer {K Msg}.
Arguments EvTimerAbort {K Msg}.
Arguments EvReplyUsize {K Msg}.
Arguments EvHook {K Msg}.

(** The environment: what is still to be read of each stream, and the log. *)
Record World (K Msg : Type) := mkWorld {
  w_instant : nat → Instant;
  w_system : nat → SystemTime;
  w_cast : nat → CastOutcome;
  w_spawn : nat → option ActorId;
  w_usize : nat → nat;
  w_hook : nat → bool;
  w_log : list (Event K Msg)
}.
Arguments mkWorld {K Msg}.
Arguments w_instant {K Msg}.
Arguments w_system {K Msg}.
Arguments w_cast {K Msg}.
Arguments w_spawn {K Msg}.
Arguments w_usize {K Msg}.
Arguments w_hook {K Msg}.
Arguments w_log {K Msg}.

Definition stail {A} (s : nat → A) : nat → A := λ n, s (S n).

Section world.
Context {K Msg : Type}.
Abbreviation World := (World K Msg).
Abbreviation Job := (Job K Msg).

(** [Instant::now()] and [SystemTime::now()]: each call is a new reading. *)
Definition instant_now : M World Instant := λ w,
  (Ok (w_instant w 0),
   mkWorld (stail (w_instant w)) (w_system w) (w_cast w) (w_spawn w) (w_usize w) (w_hook w) (w_log w)).

Definition system_now : M World SystemTime := λ w,
  (Ok (w_system w 0),
   mkWorld (w_instant w) (stail (w_system w)) (w_cast w) (w_spawn w) (w_usize w) (w_hook w) (w_log w)).

(** The outcome of the next [cast]. *)
Definition cast_outcome : M World CastOutcome := λ w,
  (Ok (w_cast w 0),
   mkWorld (w_instant w) (w_system w) (stail (w_cast w)) (w_spawn w) (w_usize w) (w_hook w) (w_log w)).

(** The outcome of the next [Actor::spawn_linked]. *)
Definition spawn_outcome : M World (option ActorId) := λ w,
  (Ok (w_spawn w 0),
   mkWorld (w_instant w) (w_system w) (w_cast w) (stail (w_spawn w)) (w_usize w) (w_hook w) (w_log w)).

(** The next number computed by a user-provided controller. *)
Definition controller_answer : M World nat := λ w,
  (Ok (w_usize w 0),
   mkWorld (w_instant w) (w_system w) (w_cast w) (w_spawn w) (stail (w_usize w)) (w_hook w) (w_log w)).

(** Whether the next lifecycle hook returns [Ok]. *)
Definition hook_outcome : M World bool := λ w,
  (Ok (w_hook w 0),
   mkWorld (w_instant w) (w_system w) (w_cast w) (w_spawn w) (w_usize w) (stail (w_hook w)) (w_log w)).

Definition emit (e : Event K Msg) : M World unit := λ w,
  (Ok tt,
   mkWorld (w_instant w) (w_system w) (w_cast w) (w_spawn w) (w_usize w) (w_hook w) (w_log w ++ [e])).

(** Run a computation of the environment beside a component's own state. *)
Definition liftW {S A} (m : M World A) : M (S * World) A :=
  zoom snd (λ w s, (s.1, w)) m.

(** ** Time to live *)

Definition TtlTimer_new (remaining : Duration) : M World TtlTimer :=
  now ← instant_now;
  mret (mkTtlTimer now remaining false).

(** [SystemTime::duration_since(..).unwrap_or_default()] is zero when the
    submit time is ahead; [Duration::saturating_sub] stops at zero. *)
Definition TtlTimer_from_submit_time (submit_time : SystemTime) (ttl : Duration)
    : M World TtlTimer :=
  sys ← system_now;
  let elapsed := Z.max 0 (sys - submit_time) in
  now ← instant_now;
  mret (mkTtlTimer now (Z.max 0 (ttl - elapsed)) (bool_decide (ttl < elapsed)%Z)).

Definition TtlTimer_is_expired (t : TtlTimer) : M World bool :=
  if already_expired t then mret true else
  now ← instant_now;
  mret (bool_decide (remaining t < Z.max 0 (now - started_at t))%Z).

(** [JobOptions::new] *)
Definition JobOptions_new (ttl : option Duration) : M World JobOptions :=
  submit ← system_now;
  factory ← system_now;
  worker ← system_now;
  match ttl with
  | None => mret (mkJobOptions submit factory worker None None)
  | Some d =>
      t ← TtlTimer_new d;
      mret (mkJobOptions submit factory worker (Some d) (Some t))
  end.

(** [JobOptions::set_ttl], with [reset_ttl_timer]. *)
Definition reset_ttl_timer (o : JobOptions) : M World JobOptions :=
  match ttl o with
  | None => mret (mkJobOptions (submit_time o) (factory_time o) (worker_time o) None None)
  | Some d =>
      t ← TtlTimer_from_submit_time (submit_time o) d;
      mret (mkJobOptions (submit_time o) (factory_time o) (worker_time o) (Some d) (Some t))
  end.

Definition set_ttl (d : option Duration) (o : JobOptions) : M World JobOptions :=
  reset_ttl_timer (mkJobOptions (submit_time o) (factory_time o) (worker_time o) d (ttl_timer o)).

(** ** Jobs *)

(** [Job::with_options] *)
Definition with_options (key : K) (message : Msg) (options : JobOptions) : Job :=
  mkJob key message options None.

Definition Job_new (key : K) (message : Msg) : M World Job :=
  o ← JobOptions_new None;
  mret (with_options key message o).

Definition is_expired (j : Job) : M World bool :=
  match ttl_timer (job_options j) with
  | None => mret false
  | Some t => TtlTimer_is_expired t
  end.

Definition set_factory_time (j : Job) : M World Job :=
  now ← system_now;
  let o := job_options j in
  mret (mkJob (job_key j) (job_msg j)
          (mkJobOptions (submit_time o) now (worker_time o) (ttl o) (ttl_timer o)) (job_accepted j)).

Definition set_worker_time (j : Job) : M World Job :=
  now ← system_now;
  let o := job_options j in
  mret (mkJob (job_key j) (job_msg j)
          (mkJobOptions (submit_time o) (factory_time o) now (ttl o) (ttl_timer o)) (job_accepted j)).

(** [Option::take] on [accepted]. *)
Definition take_accepted (j : Job) : Job :=
  mkJob (job_key j) (job_msg j) (job_options j) None.

Definition accept (j : Job) : M World Job :=
  match job_accepted j with
  | Some port => emit (EvReply port None) ;; mret (take_accepted j)
  | None => mret j
  end.

(** [reject] consumes the job: it goes back to the submitter or is dropped. *)
Definition reject (j : Job) : M World unit :=
  match job_accepted j with
  | Some port => emit (EvReply port (Some (take_accepted j)))
  | None => emit (EvDropped j)
  end.

(** [trait DiscardHandler]: user code that may change the job it is shown. *)
Definition DiscardHandler : Type := DiscardReason → Job → Job.

Definition run_discard (h : option DiscardHandler) (r : DiscardReason) (j : Job) : M World Job :=
  match h with
  | Some f => emit (EvDiscard r j) ;; mret (f r j)
  | None => mret j
  end.

(** A call of the optional statistics layer. *)
Definition stat (h : option nat) (factory : string) (s : Stat) : M World unit :=
  match h with
  | Some i => emit (EvStat i factory s)
  | None => mret tt
  end.

End world.
Arguments DiscardHandler : clear implicits.

(** ** Accounting for jobs

    A job leaves the factory's custody in one of three ways: it is handed to a
    worker actor, returned to its submitter, or dropped.  [fated p w] counts, in
    the log of [w], the jobs satisfying [p] that have left. *)

Definition ev_fate {K Msg} (p : Job K Msg → bool) (e : Event K Msg) : bool :=
  match e with
  | EvReply _ (Some j) | EvDropped j | EvDispatch _ j => p j
  | _ => false
  end.

Definition fated {K Msg} (p : Job K Msg → bool) (w : World K Msg) : nat :=
  countb (ev_fate p) (w_log w).

(** The jobs handed to worker actors, in order, by key and message. *)
Definition job_ident {K Msg} (j : Job K Msg) : K * Msg := (job_key j, job_msg j).

Definition ev_dispatched {K Msg} (e : Event K Msg) : option (K * Msg) :=
  match e with EvDispatch _ j => Some (job_ident j) | _ => None end.

Definition dispatched {K Msg} (w : World K Msg) : list (K * Msg) :=
  omap ev_dispatched (w_log w).

(** [quiet w w']: between [w] and [w'] no job left the factory. *)
Definition ev_quiet {K Msg} (e : Event K Msg) : Prop :=
  match e with EvReply _ (Some _) | EvDropped _ | EvDispatch _ _ => False | _ => True end.

Definition quiet {K Msg} (w w' : World K Msg) : Prop :=
  ∃ evs, w_log w' = w_log w ++ evs ∧ Forall ev_quiet evs.

(** A class of jobs the factory's own bookkeeping cannot move a job in or out
    of: it depends on the key and the message only. *)
Definition stable {K Msg} (p : Job K Msg → bool) : Prop :=
  ∀ k m o a o' a', p (mkJob k m o a) = p (mkJob k m o' a').

(** The discard handler does not change the class of the job it is shown. *)
Definition handler_keeps {K Msg} (p : Job K Msg → bool) (h : option (DiscardHandler K Msg)) : Prop :=
  match h with Some f => ∀ r j, p (f r j) = p j | None => True end.

(** [b2n b] is 1 when [b] holds. *)
Abbreviation b2n b := (if b then 1 else 0) (only parsing).

Section job_facts.
Context {K Msg : Type}.
Implicit Types (p q : Job K Msg → bool) (j : Job K Msg) (w : World K Msg).

Lemma quiet_emit e w w' : w_log w' = w_log w ++ [e] → ev_quiet e → quiet w w'.
Proof. intros. exists [e]. by repeat constructor. Qed.

Lemma quiet_same_log w w' : w_log w' = w_log w → quiet w w'.
Proof. intros E. exists []. by rewrite app_nil_r. Qed.

Lemma quiet_trans w1 w2 w3 : quiet w1 w2 → quiet w2 w3 → quiet w1 w3.
Proof.
  intros (e1 & E1 & H1) (e2 & E2 & H2). exists (e1 ++ e2).
  by rewrite E2, E1, app_assoc, Forall_app.
Qed.

Lemma quiet_fated p w w' : quiet w w' → fated p w' = fated p w.
Proof.
  intros (evs & Hw & Hq). unfold fated. rewrite Hw, countb_app.
  enough (countb (ev_fate p) evs = 0) by lia. apply countb_zero. intros e He.
  rewrite Forall_forall in Hq. specialize (Hq e He). by destruct e as [? []| | | | | | | | | | |].
Qed.

Lemma quiet_dispatched w w' : quiet w w' → dispatched w' = dispatched w.
Proof.
  intros (evs & Hw & Hq). unfold dispatched. rewrite Hw, omap_app.
  enough (omap ev_dispatched evs = []) as -> by apply app_nil_r.
  clear Hw. induction Hq as [|e evs He Hq IH]; [done|]. destruct e; simpl in *; done.
Qed.

Lemma fated_emit p e w w' :
  w_log w' = w_log w ++ [e] → fated p w' = fated p w + b2n (ev_fate p e).
Proof. unfold fated. intros ->. rewrite countb_app. simpl. lia. Qed.

Lemma dispatched_emit e w w' :
  w_log w' = w_log w ++ [e] → dispatched w' = dispatched w ++ option_list (ev_dispatched e).
Proof. unfold dispatched. intros ->. rewrite omap_app. simpl. by destruct e. Qed.

Lemma stable_key_msg p j j' :
  stable p → job_key j = job_key j' → job_msg j = job_msg j' → p j = p j'.
Proof. destruct j, j'; simpl. intros Hs -> ->. apply Hs. Qed.

(** The specifications below give the result of each operation and what it
    does to the accounting; none of them fails. *)

Lemma is_expired_spec j w : ∃ b w', is_expired j w = (Ok b, w') ∧ quiet w w'.
Proof.
  unfold is_expired, TtlTimer_is_expired.
  repeat case_match; eexists _, _; (split; [done|]); by apply quiet_same_log.
Qed.

Lemma set_worker_time_spec j w :
  ∃ j' w', set_worker_time j w = (Ok j', w') ∧ quiet w w' ∧
    job_ident j' = job_ident j ∧ job_accepted j' = job_accepted j.
Proof. eexists _, _. split; [done|]. split; [by apply quiet_same_log|done]. Qed.

Lemma set_factory_time_spec j w :
  ∃ j' w', set_factory_time j w = (Ok j', w') ∧ quiet w w' ∧
    job_ident j' = job_ident j ∧ job_accepted j' = job_accepted j.
Proof. eexists _, _. split; [done|]. split; [by apply quiet_same_log|done]. Qed.

Lemma accept_spec j w :
  ∃ j' w', accept j w = (Ok j', w') ∧ quiet w w' ∧
    job_ident j' = job_ident j ∧ job_accepted j' = None.
Proof.
  unfold accept. destruct (job_accepted j) eqn:E; eexists _, _; (split; [done|]).
  - split; [by eapply quiet_emit|done].
  - split; [by apply quiet_same_log|done].
Qed.

Lemma reject_spec j w :
  ∃ w', reject j w = (Ok tt, w') ∧ dispatched w' = dispatched w ∧
    ∀ q, stable q → fated q w' = fated q w + b2n (q j).
Proof.
  unfold reject. destruct (job_accepted j) eqn:E; eexists; (split; [done|]).
  all: split; [etrans; [by eapply dispatched_emit|apply app_nil_r]|]; intros q Hq.
  - etrans; [by eapply fated_emit|]. simpl. by rewrite (stable_key_msg q _ j).
  - by apply (fated_emit q (EvDropped j)).
Qed.

Lemma drop_spec j w :
  ∃ w', emit (EvDropped j) w = (Ok tt, w') ∧ dispatched w' = dispatched w ∧
    ∀ q, fated q w' = fated q w + b2n (q j).
Proof.
  eexists. split; [done|].
  split; [etrans; [by eapply dispatched_emit|apply app_nil_r]|].
  intros q. by apply (fated_emit q (EvDropped j)).
Qed.

Lemma run_discard_spec h r j w :
  ∃ j' w', run_discard h r j w = (Ok j', w') ∧ quiet w w' ∧
    (∀ q, stable q → handler_keeps q h → q j' = q j).
Proof.
  unfold run_discard. destruct h as [f|]; eexists _, _; (split; [done|]).
  - split; [by eapply quiet_emit|]. intros q _ Hh. apply Hh.
  - split; [by apply quiet_same_log|done].
Qed.

Lemma stat_spec h f s w : ∃ w', stat h f s w = (Ok tt, w') ∧ quiet w w'.
Proof.
  unfold stat. destruct h; eexists; (split; [done|]).
  - by eapply quiet_emit.
  - by apply quiet_same_log.
Qed.
End job_facts.

Lemma bind_liftW {K Msg S A B} (m : M (World K Msg) A) (f : A → M (S * World K Msg) B) s w a w' :
  m w = (Ok a, w') → (liftW m ≫= f) (s, w) = f a (s, w').
Proof. intros E. apply bind_ok. unfold liftW, zoom. simpl. by rewrite E. Qed.

Lemma liftW_ok {K Msg S A} (m : M (World K Msg) A) (s : S) w a w' :
  m w = (Ok a, w') → liftW m (s, w) = (Ok a, (s, w')).
Proof. unfold liftW, zoom. simpl. by intros ->. Qed.

(** ** A sample environment, to evaluate definitions on concrete inputs

    Clocks stand still, every send succeeds, the [n]-th spawn yields actor
    [100 + n], controllers answer 2 and hooks succeed. *)
Definition sample_world {K Msg} : World K Msg :=
  mkWorld (λ _, 0%Z) (λ _, 0%Z) (λ _, CastOk) (λ n, Some (100 + n)) (λ _, 2) (λ _, true) [].

Definition sample_job {K Msg} (key : K) (msg : Msg) : Job K Msg :=
  mkJob key msg (mkJobOptions 0 0 0 None None) None.
