(* ===== verification/Worker.v ===== *)
(** The factory's view of one worker (src/ractor/src/factory/worker.rs):
    [WorkerProperties], its private queue, the jobs it is processing, the
    per-key counters used by key-persistent routing, and the heartbeat.

    Main results: the key counters are exact ([tracked]), a worker processes at
    most one job at a time, no job is lost or duplicated by any operation, and
    the load-shedding limit is enforced. *)

From S2P Require Import Prelude Discard Job.

(** [struct WorkerHeartbeat] *)
Record WorkerHeartbeat := mkHeartbeat { sent_at : option Instant }.

Definition is_pending (h : WorkerHeartbeat) : bool := bool_decide (is_Some (sent_at h)).
Definition heartbeat_sent (t : Instant) (h : WorkerHeartbeat) : WorkerHeartbeat := mkHeartbeat (Some t).
Definition heartbeat_clear (h : WorkerHeartbeat) : WorkerHeartbeat := mkHeartbeat None.
Definition is_stuck_at (h : WorkerHeartbeat) (now : Instant) (timeout : Duration) : bool :=
  match sent_at h with
  | Some t => bool_decide (timeout < Z.max 0 (now - t))%Z
  | None => false
  end.

(** [struct WorkerProperties] *)
Record WorkerProperties (K Msg : Type) `{Countable K} := mkWorker {
  wid : WorkerId;
  actor : ActorId;
  factory_name : string;
  handle : option nat;
  message_queue : list (Job K Msg);
  discard_settings : WorkerDiscardSettings;
  discard_handler : option (DiscardHandler K Msg);
  heartbeat : WorkerHeartbeat;
  stats : option nat;
  curr_jobs : gmap K JobOptions;
  pending_key_counts : gmap K nat;
  is_draining : bool
}.
Arguments mkWorker {K Msg _ _}.
Arguments wid {K Msg _ _}.
Arguments actor {K Msg _ _}.
Arguments factory_name {K Msg _ _}.
Arguments handle {K Msg _ _}.
Arguments message_queue {K Msg _ _}.
Arguments discard_settings {K Msg _ _}.
Arguments discard_handler {K Msg _ _}.
Arguments heartbeat {K Msg _ _}.
Arguments stats {K Msg _ _}.
Arguments curr_jobs {K Msg _ _}.
Arguments pending_key_counts {K Msg _ _}.
Arguments is_draining {K Msg _ _}.

Section worker.
Context {K Msg : Type} `{Countable K}.
Abbreviation World := (World K Msg).
Abbreviation Job := (Job K Msg).
Abbreviation WorkerProperties := (WorkerProperties K Msg).
Implicit Types (k : WorkerProperties).

(** Field updates. *)
Definition set_queue (q : list Job) k : WorkerProperties :=
  mkWorker (wid k) (actor k) (factory_name k) (handle k) q (discard_settings k)
    (discard_handler k) (heartbeat k) (stats k) (curr_jobs k) (pending_key_counts k) (is_draining k).
Definition set_curr (c : gmap K JobOptions) k : WorkerProperties :=
  mkWorker (wid k) (actor k) (factory_name k) (handle k) (message_queue k) (discard_settings k)
    (discard_handler k) (heartbeat k) (stats k) c (pending_key_counts k) (is_draining k).
Definition set_pending (c : gmap K nat) k : WorkerProperties :=
  mkWorker (wid k) (actor k) (factory_name k) (handle k) (message_queue k) (discard_settings k)
    (discard_handler k) (heartbeat k) (stats k) (curr_jobs k) c (is_draining k).
Definition set_heartbeat (h : WorkerHeartbeat) k : WorkerProperties :=
  mkWorker (wid k) (actor k) (factory_name k) (handle k) (message_queue k) (discard_settings k)
    (discard_handler k) h (stats k) (curr_jobs k) (pending_key_counts k) (is_draining k).
Definition set_actor (a : ActorId) (h : option nat) k : WorkerProperties :=
  mkWorker (wid k) a (factory_name k) h (message_queue k) (discard_settings k)
    (discard_handler k) (heartbeat k) (stats k) (curr_jobs k) (pending_key_counts k) (is_draining k).
Definition set_discard_settings (d : WorkerDiscardSettings) k : WorkerProperties :=
  mkWorker (wid k) (actor k) (factory_name k) (handle k) (message_queue k) d
    (discard_handler k) (heartbeat k) (stats k) (curr_jobs k) (pending_key_counts k) (is_draining k).
Definition set_discard_handler (d : option (DiscardHandler K Msg)) k : WorkerProperties :=
  mkWorker (wid k) (actor k) (factory_name k) (handle k) (message_queue k) (discard_settings k)
    d (heartbeat k) (stats k) (curr_jobs k) (pending_key_counts k) (is_draining k).
Definition set_draining (b : bool) k : WorkerProperties :=
  mkWorker (wid k) (actor k) (factory_name k) (handle k) (message_queue k) (discard_settings k)
    (discard_handler k) (heartbeat k) (stats k) (curr_jobs k) (pending_key_counts k) b.

(** ** Queries *)

Definition is_processing_key (key : K) k : bool := bool_decide (is_Some (curr_jobs k !! key)).
Definition is_available k : bool :=
  bool_decide (curr_jobs k = ∅) && bool_decide (message_queue k = []).
Definition is_working k : bool := negb (is_available k).
Definition queued_job_count k : nat := length (message_queue k).
Definition active_job_count k : nat := size (curr_jobs k).
Definition has_pending_key (key : K) k : bool :=
  bool_decide (is_Some (pending_key_counts k !! key)).

(** ** Operations *)

(** [WorkerProperties::new] *)
Definition Worker_new (name : string) (w : WorkerId) (a : ActorId) (d : WorkerDiscardSettings)
    (h : option (DiscardHandler K Msg)) (jh : nat) (st : option nat) : WorkerProperties :=
  mkWorker w a name (Some jh) [] d h (mkHeartbeat None) st ∅ ∅ false.

(** [get_join_handle]: [Option::take] on the handle. *)
Definition get_join_handle k : option nat * WorkerProperties :=
  (handle k, set_actor (actor k) None k).

Definition track_pending_key (key : K) k : WorkerProperties :=
  set_pending (<[key := S (default 0 (pending_key_counts k !! key))]> (pending_key_counts k)) k.

Definition untrack_pending_key (key : K) k : WorkerProperties :=
  match pending_key_counts k !! key with
  | Some 1 => set_pending (delete key (pending_key_counts k)) k
  | Some n => set_pending (<[key := n - 1]> (pending_key_counts k)) k
  | None => k
  end.

(** The loop of [get_next_non_expired_job], by recursion on the queue it pops. *)
Fixpoint get_next_loop (q : list Job) : M (WorkerProperties * World) (option Job) :=
  match q with
  | [] => modify (λ s, (set_queue [] s.1, s.2)) ;; mret None
  | job :: q' =>
      modify (λ s, (set_queue q' s.1, s.2)) ;;
      e ← liftW (is_expired job);
      if e : bool then
        modify (λ s, (untrack_pending_key (job_key job) s.1, s.2)) ;;
        h ← gets (λ s, discard_handler s.1);
        job' ← liftW (run_discard h TtlExpired job);
        st ← gets (λ s, (stats s.1, factory_name s.1));
        liftW (stat st.1 st.2 (JobTtlExpired 1)) ;;
        liftW (emit (EvDropped job')) ;;
        get_next_loop q'
      else mret (Some job)
  end.

Definition get_next_non_expired_job : M (WorkerProperties * World) (option Job) :=
  q ← gets (λ s, message_queue s.1);
  get_next_loop q.

Definition dispatch_job (job : Job) : M (WorkerProperties * World) unit :=
  job ← liftW (set_worker_time job);
  a ← gets (λ s, actor s.1);
  c ← liftW cast_outcome;
  match c with
  | CastOk =>
      liftW (emit (EvDispatch a job)) ;;
      modify (λ s, (set_curr (<[job_key job := job_options job]> (curr_jobs s.1)) s.1, s.2))
  | CastSendErr => modify (λ s, (set_queue (job :: message_queue s.1) s.1, s.2))
  | CastConsumed =>
      liftW (emit (EvDropped job)) ;;
      modify (λ s, (untrack_pending_key (job_key job) s.1, s.2))
  end.

(** The front-load shedding test of [enqueue_job]. *)
Definition sheds_newest k : bool :=
  match worker_limit_and_mode (discard_settings k) with
  | Some (limit, Newest) => negb (is_available k) && bool_decide (limit ≤ length (message_queue k))
  | _ => false
  end.

(** [while self.message_queue.len() > limit]: every turn pops at least one job,
    so the length of the queue is enough fuel ([shed_oldest_bound]). *)
Fixpoint shed_oldest (fuel limit : nat) : M (WorkerProperties * World) unit :=
  q ← gets (λ s, message_queue s.1);
  if bool_decide (limit < length q) then
    match fuel with
    | 0 => panic
    | S fuel =>
        o ← get_next_non_expired_job;
        match o with
        | Some discarded =>
            modify (λ s, (untrack_pending_key (job_key discarded) s.1, s.2)) ;;
            st ← gets (λ s, (stats s.1, factory_name s.1));
            liftW (stat st.1 st.2 JobDiscarded) ;;
            h ← gets (λ s, discard_handler s.1);
            discarded ← liftW (run_discard h Loadshed discarded);
            liftW (emit (EvDropped discarded))
        | None => mret tt
        end ;;
        shed_oldest fuel limit
    end
  else mret tt.

(** The two ways [enqueue_job] ends once the job is accepted and tracked: an idle
    worker gets its oldest job, a busy one queues the new job and sheds. *)
Definition enqueue_idle (job : Job) : M (WorkerProperties * World) unit :=
  o ← get_next_non_expired_job;
  match o with
  | Some older_job =>
      modify (λ s, (set_queue (message_queue s.1 ++ [job]) s.1, s.2)) ;;
      dispatch_job older_job
  | None => dispatch_job job
  end.

Definition enqueue_busy (job : Job) : M (WorkerProperties * World) unit :=
  modify (λ s, (set_queue (message_queue s.1 ++ [job]) s.1, s.2)) ;;
  d ← gets (λ s, worker_limit_and_mode (discard_settings s.1));
  match d with
  | Some (limit, Oldest) =>
      n ← gets (λ s, length (message_queue s.1));
      shed_oldest n limit
  | _ => mret tt
  end.

Definition enqueue_job (job : Job) : M (WorkerProperties * World) unit :=
  shed ← gets (λ s, sheds_newest s.1);
  if shed : bool then
    st ← gets (λ s, (stats s.1, factory_name s.1));
    liftW (stat st.1 st.2 JobDiscarded) ;;
    h ← gets (λ s, discard_handler s.1);
    job ← liftW (run_discard h Loadshed job);
    liftW (reject job)
  else
    job ← liftW (accept job);
    modify (λ s, (track_pending_key (job_key job) s.1, s.2)) ;;
    idle ← gets (λ s, bool_decide (curr_jobs s.1 = ∅));
    if idle : bool then enqueue_idle job else enqueue_busy job.

Definition replace_worker (nworker : ActorId) (jh : nat) : M (WorkerProperties * World) unit :=
  modify (λ s, (set_heartbeat (heartbeat_clear (heartbeat s.1)) s.1, s.2)) ;;
  abandoned ← gets (λ s, curr_jobs s.1);
  modify (λ s, (set_curr ∅ s.1, s.2)) ;;
  modify (λ s, (foldl (λ k key, untrack_pending_key key k) s.1 (map_to_list abandoned).*1, s.2)) ;;
  modify (λ s, (set_actor nworker (Some jh) s.1, s.2)) ;;
  o ← get_next_non_expired_job;
  match o with
  | Some job => dispatch_job job
  | None => mret tt
  end.

Definition worker_complete (key : K) : M (WorkerProperties * World) (option JobOptions) :=
  options ← gets (λ s, curr_jobs s.1 !! key);
  modify (λ s, (set_curr (delete key (curr_jobs s.1)) s.1, s.2)) ;;
  match options with
  | Some _ =>
      modify (λ s, (untrack_pending_key key s.1, s.2)) ;;
      o ← get_next_non_expired_job;
      match o with
      | Some job => dispatch_job job
      | None => mret tt
      end
  | None => mret tt
  end ;;
  mret options.

Definition is_stuck (duration : Duration) : M (WorkerProperties * World) bool :=
  now ← liftW instant_now;
  gets (λ s, is_stuck_at (heartbeat s.1) now duration).

Definition send_factory_ping : M (WorkerProperties * World) unit :=
  p ← gets (λ s, is_pending (heartbeat s.1));
  if p : bool then mret tt else
  t ← liftW instant_now;
  a ← gets (λ s, actor s.1);
  c ← liftW cast_outcome;
  match c with
  | CastOk =>
      liftW (emit (EvPing a t)) ;;
      modify (λ s, (set_heartbeat (heartbeat_sent t (heartbeat s.1)) s.1, s.2))
  | _ => mret tt
  end.

Definition ping_received (time : Duration) (discard_limit : nat) : M (WorkerProperties * World) unit :=
  modify (λ s, (set_discard_settings (update_worker_limit discard_limit (discard_settings s.1)) s.1, s.2)) ;;
  st ← gets (λ s, (stats s.1, factory_name s.1));
  liftW (stat st.1 st.2 (WorkerPingReceived time)) ;;
  modify (λ s, (set_heartbeat (heartbeat_clear (heartbeat s.1)) s.1, s.2)).

(** ** Bookkeeping invariants *)

(** The counter map stores [n] for a positive count and nothing for zero. *)
Definition as_count (n : nat) : option nat := match n with 0 => None | S _ => Some n end.

(** How many jobs with key [key] the worker is responsible for: queued, being
    processed, or ([extra]) in the hands of the operation under way. *)
Definition pending_of k (extra : list Job) (key : K) : nat :=
  countb (λ j, bool_decide (job_key j = key)) (extra ++ message_queue k) +
  b2n (is_processing_key key k).

Definition tracked k (extra : list Job) : Prop :=
  ∀ key, pending_key_counts k !! key = as_count (pending_of k extra key).

(** The invariant of a worker between operations. *)
Record worker_inv k : Prop := {
  inv_tracked : tracked k [];
  inv_one_job : size (curr_jobs k) ≤ 1
}.

Lemma untrack_lookup key x k n :
  pending_key_counts k !! key = as_count (S n) →
  pending_key_counts (untrack_pending_key key k) !! x =
    if decide (x = key) then as_count n else pending_key_counts k !! x.
Proof.
  unfold untrack_pending_key. intros E. rewrite E. simpl.
  destruct n as [|n]; simpl; case_decide; subst;
    by rewrite ?lookup_delete_eq, ?lookup_insert_eq, ?lookup_delete_ne, ?lookup_insert_ne.
Qed.

(** [untrack_pending_key] touches the counters only. *)
Lemma untrack_frame key k :
  untrack_pending_key key k = set_pending (pending_key_counts (untrack_pending_key key k)) k.
Proof. unfold untrack_pending_key. by destruct k; repeat case_match. Qed.

Lemma untrack_fields key k :
  message_queue (untrack_pending_key key k) = message_queue k ∧
  curr_jobs (untrack_pending_key key k) = curr_jobs k.
Proof. by rewrite untrack_frame. Qed.

Lemma untrack_pending key x k :
  has_pending_key x (untrack_pending_key key k) → has_pending_key x k.
Proof.
  unfold has_pending_key, untrack_pending_key. rewrite !bool_decide_spec.
  destruct (pending_key_counts k !! key) as [[|[|n]]|] eqn:E; simpl; [| | |done].
  all: destruct (decide (x = key)) as [->|Hne];
    rewrite ?lookup_insert_eq, ?lookup_delete_eq, ?lookup_insert_ne, ?lookup_delete_ne, ?E by done.
  all: eauto.
Qed.

Lemma tracked_untrack_job j extra k :
  tracked k (j :: extra) → tracked (untrack_pending_key (job_key j) k) extra.
Proof.
  intros Ht x. destruct (untrack_fields (job_key j) k) as [Hq Hc].
  erewrite untrack_lookup.
  2:{ rewrite Ht. unfold pending_of. simpl. by rewrite bool_decide_eq_true_2. }
  unfold tracked, pending_of, is_processing_key in *. rewrite Hq, Hc.
  case_decide as E; [by subst|]. rewrite Ht. simpl. by rewrite bool_decide_eq_false_2.
Qed.

Lemma track_pending key x k :
  has_pending_key x (track_pending_key key k) → has_pending_key x k ∨ x = key.
Proof.
  unfold has_pending_key, track_pending_key. rewrite !bool_decide_spec. simpl.
  destruct (decide (x = key)) as [->|Hne]; [by right|].
  rewrite lookup_insert_ne by done. by left.
Qed.

Lemma tracked_track_job j extra k :
  tracked k extra → tracked (track_pending_key (job_key j) k) (j :: extra).
Proof.
  intros Ht x. unfold track_pending_key, pending_of, is_processing_key. simpl.
  destruct (decide (x = job_key j)) as [->|E].
  - rewrite lookup_insert_eq, Ht, bool_decide_eq_true_2 by done. simpl.
    unfold pending_of, is_processing_key. by destruct (_ + _).
  - rewrite lookup_insert_ne, Ht, bool_decide_eq_false_2 by done. done.
Qed.

Lemma tracked_queue_perm k k' l l' :
  pending_key_counts k' = pending_key_counts k → curr_jobs k' = curr_jobs k →
  l ++ message_queue k ≡ₚ l' ++ message_queue k' →
  tracked k l → tracked k' l'.
Proof.
  intros Hp Hc Hl Ht x. rewrite Hp, Ht. unfold pending_of, is_processing_key.
  by rewrite Hc, (countb_permutation _ _ _ Hl).
Qed.

(** Rewording a job's timestamps does not change which key it is tracked under. *)
Lemma tracked_same_key k j j' l :
  job_key j' = job_key j → tracked k (j :: l) → tracked k (j' :: l).
Proof. intros E Ht x. rewrite Ht. unfold pending_of. simpl. by rewrite E. Qed.

(** ** What an operation does to the jobs it handles

    [wstep (k,w) pre post (k',w') pre' post']: in the middle of an operation
    [pre] are the jobs in hand that come before the queue and [post] those that
    come after it.  Whatever class [p] of jobs is looked at, none appears or
    disappears; the key counters stay exact; and the order of jobs is kept. *)

Definition in_order k (w : World) (pre post : list Job) : list (K * Msg) :=
  dispatched w ++ (job_ident <$> pre ++ message_queue k ++ post).

Definition only_jobs_changed k k' : Prop :=
  k' = set_pending (pending_key_counts k') (set_curr (curr_jobs k') (set_queue (message_queue k') k)).

Record wstep k (w : World) (pre post : list Job) k' (w' : World) (pre' post' : list Job) : Prop := {
  ws_ledger p : stable p → handler_keeps p (discard_handler k) →
    countb p (pre ++ message_queue k ++ post) + fated p w =
    countb p (pre' ++ message_queue k' ++ post') + fated p w';
  ws_tracked : tracked k (pre ++ post) → tracked k' (pre' ++ post');
  ws_order : in_order k' w' pre' post' `sublist_of` in_order k w pre post;
  ws_pending key : has_pending_key key k' → has_pending_key key k;
  ws_frame : only_jobs_changed k k'
}.

Lemma only_jobs_changed_trans k1 k2 k3 :
  only_jobs_changed k1 k2 → only_jobs_changed k2 k3 → only_jobs_changed k1 k3.
Proof. unfold only_jobs_changed. intros H1 H2. rewrite H2. by rewrite H1 at 1. Qed.

Lemma only_jobs_changed_handler k k' :
  only_jobs_changed k k' → discard_handler k' = discard_handler k.
Proof. by intros ->. Qed.

(** What the pool knows a worker by. *)
Definition role k : WorkerId * ActorId * bool := (wid k, actor k, is_draining k).

Lemma only_jobs_changed_role k k' : only_jobs_changed k k' → role k' = role k.
Proof. by intros ->. Qed.

Lemma wstep_role k w a b k' w' a' b' : wstep k w a b k' w' a' b' → role k' = role k.
Proof. intros [_ _ _ _ F]. by apply only_jobs_changed_role. Qed.

Lemma untrack_role key k : role (untrack_pending_key key k) = role k.
Proof. by rewrite untrack_frame. Qed.

Lemma wstep_trans k1 w1 a1 b1 k2 w2 a2 b2 k3 w3 a3 b3 :
  wstep k1 w1 a1 b1 k2 w2 a2 b2 → wstep k2 w2 a2 b2 k3 w3 a3 b3 →
  wstep k1 w1 a1 b1 k3 w3 a3 b3.
Proof.
  intros [L1 T1 O1 P1 F1] [L2 T2 O2 P2 F2]. split.
  - intros p Hp Hh. rewrite L1 by done. apply L2; [done|].
    by rewrite (only_jobs_changed_handler _ _ F1).
  - auto.
  - by etrans.
  - auto.
  - by eapply only_jobs_changed_trans.
Qed.

(** Only the world changed, and no job left. *)
Lemma wstep_quiet k w w' pre post : quiet w w' → wstep k w pre post k w' pre post.
Proof.
  intros Hq. split; [|done| |done|by destruct k].
  - intros p _ _. by rewrite (quiet_fated p _ _ Hq).
  - unfold in_order. by rewrite (quiet_dispatched _ _ Hq).
Qed.

(** Jobs moved between the hand and the queue, in order. *)
Lemma wstep_requeue k w pre post q' pre' post' :
  pre ++ message_queue k ++ post = pre' ++ q' ++ post' →
  wstep k w pre post (set_queue q' k) w pre' post'.
Proof.
  intros E. split; [| | |done|by destruct k].
  - intros p _ _. by rewrite E.
  - apply tracked_queue_perm; [done..|].
    rewrite <-!app_assoc, (Permutation_app_comm post), (Permutation_app_comm post').
    simpl. by rewrite E.
  - unfold in_order. simpl. by rewrite E.
Qed.

(** A job in hand before the queue is given up: untracked and dropped. *)
Lemma wstep_drop k w j j' post w2 w' :
  quiet w w2 → emit (EvDropped j') w2 = (Ok tt, w') →
  (∀ p, stable p → handler_keeps p (discard_handler k) → p j' = p j) →
  wstep k w [j] post (untrack_pending_key (job_key j) k) w' [] post.
Proof.
  intros Q Hd Hp. destruct (drop_spec j' w2) as (w3 & Hd' & Ho & Hf).
  rewrite Hd in Hd'. simplify_eq.
  destruct (untrack_fields (job_key j) k) as [Hq Hc]. split.
  - intros p Hs Hh. rewrite (Hf p), Hq, (quiet_fated p _ _ Q), (Hp p) by done. simpl. lia.
  - apply tracked_untrack_job.
  - unfold in_order.
    rewrite Ho, Hq, (quiet_dispatched _ _ Q). simpl. apply sublist_app; [done|].
    by apply sublist_cons.
  - intros key. apply untrack_pending.
  - rewrite untrack_frame. by destruct k.
Qed.

(** ** Specifications of the operations

    [get_next_non_expired_job] drops the expired jobs at the head of the queue
    and takes the first one that is not. *)

Lemma get_next_loop_spec q k w post :
  message_queue k = q →
  ∃ o k' w', get_next_loop q (k, w) = (Ok o, (k', w')) ∧
    wstep k w [] post k' w' (option_list o) post ∧
    curr_jobs k' = curr_jobs k ∧
    (∃ dropped, q = dropped ++ option_list o ++ message_queue k') ∧
    (o = None → message_queue k' = []).
Proof.
  revert k w. induction q as [|job q IH]; intros k w Hq; simpl.
  - exists None, (set_queue [] k), w. split; [done|]. split; [apply wstep_requeue; by rewrite Hq|].
    split; [done|]. split; [by exists []|done].
  - rewrite bind_modify. simpl.
    assert (wstep k w [] post (set_queue q k) w [job] post) as S0.
    { apply wstep_requeue. by rewrite Hq. }
    destruct (is_expired_spec job w) as (b & w1 & E1 & Q1).
    erewrite bind_liftW by exact E1. destruct b.
    + rewrite bind_modify, bind_gets. simpl.
      destruct (run_discard_spec (discard_handler k) TtlExpired job w1)
        as (j' & w2 & E2 & Q2 & Hj').
      rewrite untrack_frame. simpl.
      erewrite bind_liftW by exact E2. rewrite bind_gets. simpl.
      destruct (stat_spec (stats k) (factory_name k) (JobTtlExpired 1) w2) as (w3 & E3 & Q3).
      erewrite bind_liftW by exact E3. erewrite bind_liftW by done.
      rewrite <-untrack_frame.
      assert (wstep k w [] post (untrack_pending_key (job_key job) (set_queue q k))
                (emit (EvDropped j') w3).2 [] post) as S1.
      { eapply wstep_trans; [exact S0|]. eapply wstep_drop; [|done|done].
        eauto using quiet_trans. }
      edestruct (IH (untrack_pending_key (job_key job) (set_queue q k)))
        as (o & k' & w' & E4 & S4 & Hc & (dr & Hdr) & Hn); [by rewrite untrack_frame|].
      exists o, k', w'. split; [exact E4|]. split; [by eapply wstep_trans|].
      split; [rewrite Hc; by rewrite untrack_frame|].
      split; [|done]. exists (job :: dr). by rewrite Hdr at 1.
    + exists (Some job), (set_queue q k), w1. split; [done|].
      split; [eapply wstep_trans; [exact S0|by apply wstep_quiet]|].
      split; [done|]. split; [by exists []|done].
Qed.

Lemma get_next_spec k w post :
  ∃ o k' w', get_next_non_expired_job (k, w) = (Ok o, (k', w')) ∧
    wstep k w [] post k' w' (option_list o) post ∧
    curr_jobs k' = curr_jobs k ∧
    (∃ dropped, message_queue k = dropped ++ option_list o ++ message_queue k') ∧
    (o = None → message_queue k' = []).
Proof. unfold get_next_non_expired_job. rewrite bind_gets. by apply get_next_loop_spec. Qed.

Lemma set_worker_time_wstep k w w' j j' post :
  job_ident j' = job_ident j → quiet w w' → wstep k w [j] post k w' [j'] post.
Proof.
  intros Hi Hq. injection Hi as Hk Hm. split; [| | |done|by destruct k].
  - intros p Hp _. rewrite (quiet_fated p _ _ Hq). simpl. by rewrite (stable_key_msg p j' j).
  - by apply tracked_same_key.
  - unfold in_order. rewrite (quiet_dispatched _ _ Hq). simpl. unfold job_ident. by rewrite Hk, Hm.
Qed.

(** The job in hand is delivered to the worker's actor. *)
Lemma wstep_deliver k w j w' :
  curr_jobs k = ∅ → emit (EvDispatch (actor k) j) w = (Ok tt, w') →
  wstep k w [j] [] (set_curr (<[job_key j := job_options j]> (curr_jobs k)) k) w' [] [].
Proof.
  intros Hc Hw. assert (w_log w' = w_log w ++ [EvDispatch (actor k) j]) as Hl by by injection Hw as <-.
  split; [| | |done|by destruct k].
  - intros p _ _. rewrite (fated_emit p _ _ _ Hl). simpl. lia.
  - intros Ht x. simpl. rewrite Ht. unfold pending_of, is_processing_key. simpl.
    rewrite Hc, lookup_empty, (bool_decide_eq_false_2 (is_Some None)) by by intros [].
    destruct (decide (job_key j = x)) as [->|E].
    + rewrite lookup_insert_eq, !bool_decide_eq_true_2 by done. f_equal. lia.
    + rewrite lookup_insert_ne, lookup_empty, !bool_decide_eq_false_2 by (done || by intros []).
      done.
  - unfold in_order. rewrite (dispatched_emit _ _ _ Hl). simpl. by rewrite <-app_assoc.
Qed.

(** [dispatch_job] on an idle worker: the job is processed, put back at the head
    of the queue, or dropped; in every case it is accounted for. *)
Lemma dispatch_job_spec j k w :
  curr_jobs k = ∅ →
  ∃ k' w', dispatch_job j (k, w) = (Ok tt, (k', w')) ∧
    wstep k w [j] [] k' w' [] [] ∧ size (curr_jobs k') ≤ 1 ∧
    length (message_queue k') ≤ S (length (message_queue k)).
Proof.
  intros Hc. unfold dispatch_job.
  destruct (set_worker_time_spec j w) as (j1 & w1 & E1 & Q1 & Hi & _).
  erewrite bind_liftW by exact E1. rewrite bind_gets. simpl.
  erewrite bind_liftW by done.
  set (w2 := (cast_outcome w1).2 : World).
  assert (wstep k w [j] [] k w2 [j1] []) as S1.
  { apply set_worker_time_wstep; [done|]. eapply quiet_trans; [exact Q1|by apply quiet_same_log]. }
  destruct (w_cast w1 0).
  - eexists _, _. split; [done|]. split.
    { eapply wstep_trans; [exact S1|]. by apply wstep_deliver. }
    simpl. rewrite Hc, map_size_insert, lookup_empty. split; [done|lia].
  - eexists _, _. split; [done|]. split.
    { eapply wstep_trans; [exact S1|]. by apply wstep_requeue. }
    simpl. rewrite Hc, map_size_empty. split; lia.
  - exists (untrack_pending_key (job_key j1) k), (emit (EvDropped j1) w2).2. split; [done|]. split.
    { eapply wstep_trans; [exact S1|]. by eapply wstep_drop; [by apply quiet_same_log|..]. }
    rewrite untrack_frame. simpl. rewrite Hc, map_size_empty. split; lia.
Qed.

(** The common tail of [worker_complete] and [replace_worker]. *)
Lemma next_and_dispatch_spec k w :
  curr_jobs k = ∅ →
  ∃ k' w', (o ← get_next_non_expired_job;
            match o with Some job => dispatch_job job | None => mret tt end) (k, w)
           = (Ok tt, (k', w')) ∧
    wstep k w [] [] k' w' [] [] ∧ size (curr_jobs k') ≤ 1 ∧
    length (message_queue k') ≤ length (message_queue k).
Proof.
  intros Hc.
  destruct (get_next_spec k w []) as (o & k1 & w1 & E1 & S1 & Hc1 & (dr & Hdr) & Hn).
  erewrite bind_ok by exact E1. destruct o as [job|].
  - destruct (dispatch_job_spec job k1 w1) as (k2 & w2 & E2 & S2 & Hs & Hl); [by rewrite Hc1|].
    exists k2, w2. split; [done|]. split; [by eapply wstep_trans|].
    split; [done|]. rewrite Hdr, length_app. simpl. lia.
  - exists k1, w1. split; [done|]. split; [done|].
    rewrite Hc1, Hc, Hn, map_size_empty by done. split; simpl; lia.
Qed.

(** One turn of the shedding loop: the oldest live job is given up. *)
Lemma shed_one_spec j k w :
  ∃ k' w', (modify (λ s, (untrack_pending_key (job_key j) s.1, s.2)) ;;
            st ← gets (λ s, (stats s.1, factory_name s.1));
            liftW (stat st.1 st.2 JobDiscarded) ;;
            h ← gets (λ s, discard_handler s.1);
            discarded ← liftW (run_discard h Loadshed j);
            liftW (emit (EvDropped discarded))) (k, w) = (Ok tt, (k', w')) ∧
    wstep k w [j] [] k' w' [] [] ∧ curr_jobs k' = curr_jobs k ∧
    message_queue k' = message_queue k.
Proof.
  rewrite bind_modify, bind_gets. simpl.
  destruct (stat_spec (stats (untrack_pending_key (job_key j) k))
    (factory_name (untrack_pending_key (job_key j) k)) JobDiscarded w) as (w1 & E1 & Q1).
  erewrite bind_liftW by exact E1. rewrite bind_gets. simpl.
  destruct (run_discard_spec (discard_handler (untrack_pending_key (job_key j) k)) Loadshed j w1)
    as (j' & w2 & E2 & Q2 & Hj').
  erewrite bind_liftW by exact E2.
  eexists _, _. split; [by apply liftW_ok|]. split.
  - eapply wstep_drop; [by eapply quiet_trans|done|]. intros p Hp Hh. apply Hj'; [done|].
    by rewrite untrack_frame.
  - by destruct (untrack_fields (job_key j) k).
Qed.

(** The shedding loop terminates and leaves at most [limit] jobs queued. *)
Lemma shed_oldest_spec fuel limit k w :
  length (message_queue k) ≤ fuel →
  ∃ k' w', shed_oldest fuel limit (k, w) = (Ok tt, (k', w')) ∧
    wstep k w [] [] k' w' [] [] ∧ curr_jobs k' = curr_jobs k ∧
    length (message_queue k') ≤ Nat.min limit (length (message_queue k)).
Proof.
  revert k w. induction fuel as [|fuel IH]; intros k w Hf; simpl; rewrite bind_gets; simpl.
  - rewrite bool_decide_eq_false_2 by lia.
    exists k, w. split; [done|]. split; [by apply wstep_quiet, quiet_same_log|split; [done|lia]].
  - case_bool_decide as Hlim; cycle 1.
    { exists k, w. split; [done|]. split; [by apply wstep_quiet, quiet_same_log|split; [done|lia]]. }
    destruct (get_next_spec k w []) as (o & k1 & w1 & E1 & S1 & Hc1 & (dr & Hdr) & Hn).
    erewrite bind_ok by exact E1. rewrite Hdr, !length_app in *. destruct o as [j|]; simpl in *.
    + destruct (shed_one_spec j k1 w1) as (k2 & w2 & E2 & S2 & Hc2 & Hq2).
      erewrite bind_ok by exact E2.
      destruct (IH k2 w2) as (k3 & w3 & E3 & S3 & Hc3 & Hl); [rewrite Hq2; lia|].
      exists k3, w3. split; [done|]. split; [eauto using wstep_trans|].
      split; [by rewrite Hc3, Hc2|rewrite Hq2 in Hl; lia].
    + rewrite bind_ret. destruct (IH k1 w1) as (k3 & w3 & E3 & S3 & Hc3 & Hl).
      { rewrite Hn by done. simpl. lia. }
      exists k3, w3. split; [done|]. split; [eauto using wstep_trans|].
      split; [by rewrite Hc3|lia].
Qed.

Lemma enqueue_idle_spec job k w :
  curr_jobs k = ∅ →
  ∃ k' w', enqueue_idle job (k, w) = (Ok tt, (k', w')) ∧
    wstep k w [] [job] k' w' [] [] ∧ size (curr_jobs k') ≤ 1 ∧
    length (message_queue k') ≤ S (length (message_queue k)).
Proof.
  intros Hc. unfold enqueue_idle.
  destruct (get_next_spec k w [job]) as (o & k1 & w1 & E1 & S1 & Hc1 & (dr & Hdr) & Hn).
  erewrite bind_ok by exact E1. destruct o as [older|].
  - rewrite bind_modify. simpl.
    destruct (dispatch_job_spec older (set_queue (message_queue k1 ++ [job]) k1) w1)
      as (k2 & w2 & E2 & S2 & Hs2 & Hl); [by simpl; rewrite Hc1|].
    exists k2, w2. split; [done|]. split.
    { eapply wstep_trans; [exact S1|]. eapply wstep_trans; [|exact S2].
      apply wstep_requeue. simpl. by rewrite app_nil_r. }
    split; [done|]. rewrite Hdr. simpl in *. rewrite !length_app in *. simpl in *. lia.
  - destruct (dispatch_job_spec job k1 w1) as (k2 & w2 & E2 & S2 & Hs2 & Hl); [by rewrite Hc1|].
    exists k2, w2. split; [done|]. specialize (Hn eq_refl). split.
    { eapply wstep_trans; [exact S1|]. destruct S2 as [L2 T2 O2 P2 F2].
      unfold in_order in *. rewrite Hn in *. split; unfold in_order; rewrite ?Hn; auto. }
    split; [done|]. rewrite Hn in Hl. simpl in Hl. lia.
Qed.

Lemma enqueue_busy_spec job k w :
  ∃ k' w', enqueue_busy job (k, w) = (Ok tt, (k', w')) ∧
    wstep k w [] [job] k' w' [] [] ∧ curr_jobs k' = curr_jobs k ∧
    length (message_queue k') ≤ S (length (message_queue k)) ∧
    ∀ limit, worker_limit_and_mode (discard_settings k) = Some (limit, Oldest) →
      length (message_queue k') ≤ limit.
Proof.
  unfold enqueue_busy. rewrite bind_modify, bind_gets. simpl.
  set (k1 := set_queue (message_queue k ++ [job]) k).
  assert (wstep k w [] [job] k1 w [] []) as S1 by (apply wstep_requeue; simpl; by rewrite app_nil_r).
  assert (length (message_queue k1) = S (length (message_queue k))) as Hk1
    by (simpl; rewrite length_app; simpl; lia).
  destruct (worker_limit_and_mode (discard_settings k)) as [[limit []]|] eqn:Hd.
  - rewrite bind_gets.
    destruct (shed_oldest_spec (length (message_queue k1)) limit k1 w)
      as (k2 & w2 & E2 & S2 & Hc2 & Hl); [done|].
    exists k2, w2. split; [exact E2|]. split; [by eapply wstep_trans|]. split; [done|].
    split; [lia|]. intros ? [= <-]. lia.
  - exists k1, w. do 3 (split; [done|]). split; [lia|done].
  - exists k1, w. do 3 (split; [done|]). split; [lia|done].
Qed.

(** ** Whole operations

    [op_ok k w jobs k' w']: an operation that was given [jobs] took the worker
    from [k] to [k']; the invariant is re-established, every job is accounted
    for, and the order of the jobs is kept. *)
Record op_ok k (w : World) (jobs : list Job) k' (w' : World) : Prop := {
  op_ledger p : stable p → handler_keeps p (discard_handler k) →
    countb p (message_queue k ++ jobs) + fated p w = countb p (message_queue k') + fated p w';
  op_inv : worker_inv k';
  op_order : in_order k' w' [] [] `sublist_of` in_order k w [] jobs;
  op_pending key : has_pending_key key k' → has_pending_key key k ∨ key ∈ job_key <$> jobs;
  op_handler : discard_handler k' = discard_handler k
}.

Lemma op_ok_of_wstep k w jobs k' w' :
  wstep k w [] jobs k' w' [] [] → tracked k jobs → size (curr_jobs k') ≤ 1 →
  op_ok k w jobs k' w'.
Proof.
  intros [L T O P F] Ht Hs.
  split; [|by split; [apply T|]|done|auto|by apply only_jobs_changed_handler].
  intros p Hp Hh. specialize (L p Hp Hh). by rewrite app_nil_r in L.
Qed.

(** The same jobs and handler to start from. *)
Lemma op_ok_start k1 k w jobs k' w' :
  message_queue k1 = message_queue k → discard_handler k1 = discard_handler k →
  (∀ key, has_pending_key key k1 → has_pending_key key k) →
  op_ok k1 w jobs k' w' → op_ok k w jobs k' w'.
Proof.
  intros Eq Eh Hp [L I O P F]. unfold in_order in *. rewrite Eq, Eh in *. split; [done..| |done].
  intros key Hkey. destruct (P key Hkey); eauto.
Qed.

(** Front-load shedding leaves the worker as it was. *)
Lemma enqueue_shed_spec job k w :
  sheds_newest k = true →
  ∃ w', enqueue_job job (k, w) = (Ok tt, (k, w')) ∧ dispatched w' = dispatched w ∧
    ∀ p, stable p → handler_keeps p (discard_handler k) →
      fated p w' = fated p w + b2n (p job).
Proof.
  intros Hshed. unfold enqueue_job. rewrite bind_gets. simpl. rewrite Hshed, bind_gets. simpl.
  destruct (stat_spec (stats k) (factory_name k) JobDiscarded w) as (w1 & E1 & Q1).
  erewrite bind_liftW by exact E1. rewrite bind_gets. simpl.
  destruct (run_discard_spec (discard_handler k) Loadshed job w1) as (j' & w2 & E2 & Q2 & Hj').
  erewrite bind_liftW by exact E2.
  assert (quiet w w2) as Q by by eapply quiet_trans.
  destruct (reject_spec j' w2) as (w3 & E3 & Ho & Hf).
  exists w3. split; [by apply liftW_ok|]. split; [by rewrite Ho, (quiet_dispatched _ _ Q)|].
  intros p Hp Hh. by rewrite (Hf p), (quiet_fated p _ _ Q), Hj'.
Qed.

(** A job that is not shed is accepted, tracked, and handed to one of the two tails. *)
Lemma enqueue_accept_eq job k w :
  sheds_newest k = false →
  ∃ job' w1, quiet w w1 ∧ job_ident job' = job_ident job ∧
    enqueue_job job (k, w) =
      (if bool_decide (curr_jobs k = ∅) then enqueue_idle job' else enqueue_busy job')
        (track_pending_key (job_key job') k, w1).
Proof.
  intros Hshed. unfold enqueue_job. rewrite bind_gets. simpl. rewrite Hshed.
  destruct (accept_spec job w) as (job' & w1 & E1 & Q1 & Hi & _).
  exists job', w1. split; [done|]. split; [done|].
  erewrite bind_liftW by exact E1. by rewrite bind_modify, bind_gets.
Qed.

Lemma enqueue_job_ok job k w :
  worker_inv k →
  ∃ k' w', enqueue_job job (k, w) = (Ok tt, (k', w')) ∧ op_ok k w [job] k' w' ∧ role k' = role k.
Proof.
  intros [Ht Hs]. destruct (sheds_newest k) eqn:Hshed.
  - destruct (enqueue_shed_spec job k w Hshed) as (w' & E & Ho & Hf).
    exists k, w'. split; [done|]. split; [|done]. split; [|done| |auto|done].
    + intros p Hp Hh. rewrite (Hf p Hp Hh), countb_app. simpl. lia.
    + unfold in_order. rewrite Ho. simpl.
      apply sublist_app; [done|]. rewrite app_nil_r, fmap_app. by apply sublist_inserts_r.
  - destruct (enqueue_accept_eq job k w Hshed) as (job' & w1 & Q1 & Hi & E). rewrite E.
    set (k1 := track_pending_key (job_key job') k).
    assert (tracked k1 [job']) as Ht1 by by apply tracked_track_job.
    assert (∃ k' w', (if bool_decide (curr_jobs k = ∅) then enqueue_idle job' else enqueue_busy job')
        (k1, w1) = (Ok tt, (k', w')) ∧ op_ok k1 w1 [job'] k' w' ∧ role k' = role k1)
      as (k' & w' & E' & Hok & Hr).
    { case_bool_decide.
      - destruct (enqueue_idle_spec job' k1 w1) as (k' & w' & E1 & S & Hs' & _); [done|].
        exists k', w'. split; [done|]. split; [by apply op_ok_of_wstep|by eapply wstep_role].
      - destruct (enqueue_busy_spec job' k1 w1) as (k' & w' & E1 & S & Hc' & _).
        exists k', w'. split; [done|]. split; [|by eapply wstep_role].
        apply op_ok_of_wstep; [done..|by rewrite Hc']. }
    exists k', w'. split; [done|]. split; [|by rewrite Hr]. destruct Hok as [L I O P F].
    split; [|done| | |done].
    + intros p Hp Hh. rewrite <-L, (quiet_fated p _ _ Q1), !countb_app by done. simpl.
      injection Hi as Hk Hm. by rewrite (stable_key_msg p job' job).
    + etrans; [exact O|]. unfold in_order. rewrite (quiet_dispatched _ _ Q1). simpl.
      rewrite !fmap_app. simpl. by rewrite Hi.
    + intros key Hkey. injection Hi as Hk _. destruct (P key Hkey) as [Hp|Hp].
      * apply track_pending in Hp as [Hp| ->]; [by left|right; simpl; rewrite Hk; set_solver].
      * right. simpl in *. by rewrite <-Hk.
Qed.

(** The job being processed is released: its key is untracked. *)
Lemma tracked_release key o k :
  curr_jobs k !! key = Some o → tracked k [] →
  tracked (untrack_pending_key key (set_curr (delete key (curr_jobs k)) k)) [].
Proof.
  intros Hc Ht x. pose proof (untrack_fields key (set_curr (delete key (curr_jobs k)) k)) as [Eq Ec].
  erewrite untrack_lookup.
  2:{ simpl. rewrite Ht. unfold pending_of, is_processing_key.
      rewrite Hc, bool_decide_eq_true_2, Nat.add_1_r by done. done. }
  unfold pending_of, is_processing_key. rewrite Eq, Ec. simpl. case_decide as E.
  - subst x. rewrite lookup_delete_eq, bool_decide_eq_false_2 by by intros []. by rewrite Nat.add_0_r.
  - rewrite lookup_delete_ne by done. apply Ht.
Qed.

Lemma one_job_release key o (c : gmap K JobOptions) :
  size c ≤ 1 → c !! key = Some o → delete key c = ∅.
Proof.
  intros Hs Hk. apply map_size_empty_inv. rewrite map_size_delete, Hk. simpl. lia.
Qed.

Lemma worker_complete_ok key k w :
  worker_inv k →
  ∃ o k' w', worker_complete key (k, w) = (Ok o, (k', w')) ∧ op_ok k w [] k' w' ∧ role k' = role k.
Proof.
  intros [Ht Hs]. unfold worker_complete. rewrite bind_gets, bind_modify. simpl.
  destruct (curr_jobs k !! key) as [o|] eqn:Hk.
  - set (k1 := set_curr (delete key (curr_jobs k)) k).
    set (k2 := untrack_pending_key key k1).
    destruct (untrack_fields key k1) as [Eq Ec].
    destruct (next_and_dispatch_spec k2 w) as (k3 & w3 & E3 & S3 & Hs3 & _).
    { unfold k2. rewrite Ec. by eapply one_job_release. }
    exists (Some o), k3, w3. erewrite bind_ok by (rewrite bind_modify; exact E3). split; [done|].
    split; [|rewrite (wstep_role _ _ _ _ _ _ _ _ S3); apply (untrack_role key k1)].
    eapply (op_ok_start k2); [exact Eq|unfold k2; by rewrite untrack_frame| |].
    { intros x Hx. by apply untrack_pending in Hx. }
    apply op_ok_of_wstep; [done|by eapply tracked_release|done].
  - rewrite bind_ret. exists None, k, w. rewrite delete_id by done. split; [by destruct k|].
    split; [|done]. split; [|by split|done|auto|done]. intros. by rewrite app_nil_r.
Qed.

Lemma replace_worker_ok a jh k w :
  worker_inv k →
  ∃ k' w', replace_worker a jh (k, w) = (Ok tt, (k', w')) ∧ op_ok k w [] k' w' ∧
    role k' = (wid k, a, is_draining k).
Proof.
  intros [Ht Hs]. unfold replace_worker. rewrite bind_modify, bind_gets, !bind_modify. simpl.
  set (k1 := foldl _ _ _). set (k2 := set_actor a (Some jh) k1).
  assert (tracked k1 [] ∧ message_queue k1 = message_queue k ∧ curr_jobs k1 = ∅ ∧
    discard_handler k1 = discard_handler k ∧ role k1 = role k ∧
    ∀ key, has_pending_key key k1 → has_pending_key key k)
    as (Ht1 & Hq1 & Hc1 & Hh1 & Hr1 & Hp1).
  { rewrite <-length_map_to_list in Hs. unfold k1. clear k1 k2.
    set (k0 := set_heartbeat _ _).
    destruct (map_to_list (curr_jobs k)) as [|[key o] [|]] eqn:El; simpl in *; [| |lia].
    - apply map_to_list_empty_iff in El. split; [|done].
      eapply (tracked_queue_perm k); [done|by rewrite El|done|done].
    - assert (curr_jobs k = {[key := o]}) as Ek
        by (apply map_to_list_inj; rewrite El, map_to_list_singleton; done).
      assert (delete key (curr_jobs k) = ∅) as Ed by (rewrite Ek; apply delete_singleton_eq).
      split; [|split_and!; try by rewrite untrack_frame].
      2:{ intros x Hx. by apply untrack_pending in Hx. }
      rewrite <-Ed. apply (tracked_release key o k0); [|done].
      unfold k0. simpl. by rewrite Ek, lookup_singleton_eq. }
  destruct (next_and_dispatch_spec k2 w) as (k3 & w3 & E3 & S3 & Hs3 & _); [done|].
  exists k3, w3. split; [exact E3|]. split.
  - eapply (op_ok_start k2); [done|done|done|by apply op_ok_of_wstep].
  - rewrite (wstep_role _ _ _ _ _ _ _ _ S3). unfold role in *. simpl. congruence.
Qed.

(** Operations that leave the jobs alone. *)
Lemma op_ok_jobs_unchanged k w k' w' :
  worker_inv k → quiet w w' →
  message_queue k' = message_queue k → curr_jobs k' = curr_jobs k →
  pending_key_counts k' = pending_key_counts k → discard_handler k' = discard_handler k →
  op_ok k w [] k' w'.
Proof.
  intros [Ht Hs] Q Eq Ec Ep Eh. split; [| |unfold in_order| |done].
  - intros p _ _. by rewrite app_nil_r, Eq, (quiet_fated p _ _ Q).
  - split; [|by rewrite Ec]. eapply tracked_queue_perm; [..|exact Ht]; [done|done|by rewrite Eq].
  - by rewrite Eq, (quiet_dispatched _ _ Q).
  - intros key. unfold has_pending_key. rewrite Ep. auto.
Qed.

Lemma send_factory_ping_ok k w :
  worker_inv k →
  ∃ k' w', send_factory_ping (k, w) = (Ok tt, (k', w')) ∧ op_ok k w [] k' w' ∧ role k' = role k.
Proof.
  intros Hi. unfold send_factory_ping. rewrite bind_gets. simpl. destruct (is_pending _).
  { exists k, w. split; [done|]. split; [|done]. apply op_ok_jobs_unchanged; try done.
    by apply quiet_same_log. }
  erewrite bind_liftW by done. rewrite bind_gets. erewrite bind_liftW by done. simpl.
  destruct (w_cast w 0); eexists _, _; (split; [done|]); (split; [|done]); apply op_ok_jobs_unchanged; try done.
  2-3: by apply quiet_same_log.
  by eapply quiet_emit.
Qed.

Lemma ping_received_ok t lim k w :
  worker_inv k →
  ∃ k' w', ping_received t lim (k, w) = (Ok tt, (k', w')) ∧ op_ok k w [] k' w' ∧ role k' = role k.
Proof.
  intros Hi. unfold ping_received. rewrite bind_modify, bind_gets. simpl.
  destruct (stat_spec (stats k) (factory_name k) (WorkerPingReceived t) w) as (w1 & E1 & Q1).
  erewrite bind_liftW by exact E1. eexists _, _. split; [done|].
  split; [by apply op_ok_jobs_unchanged|done].
Qed.

(** ** Histories of a worker *)

(** The calls the factory makes on a worker it owns. *)
Inductive worker_call :=
| CallEnqueue (job : Job)
| CallComplete (key : K)
| CallReplace (nworker : ActorId) (jh : nat)
| CallPing
| CallPong (time : Duration) (discard_limit : nat)
| CallSetDraining (b : bool)
| CallIsStuck (timeout : Duration)
| CallTakeHandle.

Definition run_call (c : worker_call) : M (WorkerProperties * World) unit :=
  match c with
  | CallEnqueue job => enqueue_job job
  | CallComplete key => worker_complete key ;; mret tt
  | CallReplace a jh => replace_worker a jh
  | CallPing => send_factory_ping
  | CallPong t limit => ping_received t limit
  | CallSetDraining b => modify (λ s, (set_draining b s.1, s.2))
  | CallIsStuck t => is_stuck t ;; mret tt
  | CallTakeHandle => modify (λ s, ((get_join_handle s.1).2, s.2))
  end.

(** The jobs given to the worker by a sequence of calls. *)
Definition call_jobs (c : worker_call) : list Job :=
  match c with CallEnqueue job => [job] | _ => [] end.
Definition submitted (cs : list worker_call) : list Job := cs ≫= call_jobs.

Lemma run_call_ok c k w :
  worker_inv k → ∃ k' w', run_call c (k, w) = (Ok tt, (k', w')) ∧ op_ok k w (call_jobs c) k' w'.
Proof.
  intros Hi. destruct c; simpl.
  - destruct (enqueue_job_ok job k w Hi) as (? & ? & ? & ? & _). eauto.
  - destruct (worker_complete_ok key k w Hi) as (o & k' & w' & E & Hok & _).
    exists k', w'. by erewrite bind_ok by exact E.
  - destruct (replace_worker_ok nworker jh k w Hi) as (? & ? & ? & ? & _). eauto.
  - destruct (send_factory_ping_ok k w Hi) as (? & ? & ? & ? & _). eauto.
  - destruct (ping_received_ok time discard_limit k w Hi) as (? & ? & ? & ? & _). eauto.
  - eexists _, _. split; [done|]. apply op_ok_jobs_unchanged; try done. by apply quiet_same_log.
  - eexists _, _. split; [done|]. apply op_ok_jobs_unchanged; try done. by apply quiet_same_log.
  - eexists _, _. split; [done|]. apply op_ok_jobs_unchanged; try done. by apply quiet_same_log.
Qed.

Lemma op_ok_trans k1 w1 l1 k2 w2 l2 k3 w3 :
  op_ok k1 w1 l1 k2 w2 → op_ok k2 w2 l2 k3 w3 → op_ok k1 w1 (l1 ++ l2) k3 w3.
Proof.
  intros [L1 I1 O1 P1 F1] [L2 I2 O2 P2 F2]. split; [|done| | |by rewrite F2].
  - intros p Hp Hh. specialize (L1 p Hp Hh). rewrite <-F1 in Hh. specialize (L2 p Hp Hh).
    rewrite !countb_app in *. lia.
  - etrans; [exact O2|]. unfold in_order in *. simpl in *.
    rewrite !fmap_app, !app_nil_r, !app_assoc in *. by apply sublist_app.
  - intros key Hkey. rewrite fmap_app, elem_of_app. destruct (P2 key Hkey) as [Hk|Hk]; [|auto].
    destruct (P1 key Hk); auto.
Qed.

Lemma run_calls_ok cs k w :
  worker_inv k →
  ∃ k' w', for_each cs run_call (k, w) = (Ok tt, (k', w')) ∧ op_ok k w (submitted cs) k' w'.
Proof.
  revert k w. induction cs as [|c cs IH]; intros k w Hi; simpl.
  - exists k, w. split; [done|]. apply op_ok_jobs_unchanged; try done. by apply quiet_same_log.
  - destruct (run_call_ok c k w Hi) as (k1 & w1 & E1 & H1).
    destruct (IH k1 w1 (op_inv _ _ _ _ _ H1)) as (k2 & w2 & E2 & H2).
    exists k2, w2. erewrite bind_ok by exact E1. split; [done|]. by eapply op_ok_trans.
Qed.

Lemma worker_new_inv name w a d h jh st : worker_inv (Worker_new name w a d h jh st).
Proof.
  split; [|simpl; rewrite map_size_empty; lia].
  intros key. unfold pending_of, is_processing_key. simpl. by rewrite lookup_empty.
Qed.

End worker.

(** ** Properties *)

Section properties.
Context {K Msg : Type} `{Countable K}.
Implicit Types (w : World K Msg) (cs : list (@worker_call K Msg)).

(** Bookkeeping of a worker is exact.  Whatever the factory does with a
    worker, and whatever clocks and sends answer, no operation fails or panics;
    afterwards the worker is processing at most one job, and the counter that
    key-persistent routing consults is, for every key, the number of jobs with
    that key that are queued or being processed, with no entry for zero. *)
Theorem worker_bookkeeping_exact name i a d h jh st cs w :
  ∃ k w', for_each cs run_call (Worker_new name i a d h jh st, w) = (Ok tt, (k, w')) ∧
    size (curr_jobs k) ≤ 1 ∧
    ∀ key, pending_key_counts k !! key =
      as_count (countb (λ j, bool_decide (job_key j = key)) (message_queue k) +
                (if is_processing_key key k then 1 else 0)).
Proof.
  destruct (run_calls_ok cs _ w (worker_new_inv name i a d h jh st)) as (k & w' & E & [_ [Ht Hs] _ _ _]).
  exists k, w'. split; [done|]. split; [done|]. exact Ht.
Qed.

(** No job is lost or duplicated by a worker.  For every class of jobs that
    depends on key and message only, and that the discard handler respects, the
    jobs given to the worker are exactly those still queued plus those that left
    it, each by one of: delivery to the worker actor, return to the submitter,
    or being dropped. *)
Theorem worker_conserves_jobs (p : Job K Msg → bool) name i a d h jh st cs w :
  stable p → handler_keeps p h →
  ∃ k w', for_each cs run_call (Worker_new name i a d h jh st, w) = (Ok tt, (k, w')) ∧
    countb p (submitted cs) + fated p w = countb p (message_queue k) + fated p w'.
Proof.
  intros Hp Hh.
  destruct (run_calls_ok cs _ w (worker_new_inv name i a d h jh st)) as (k & w' & E & [L _ _ _ _]).
  exists k, w'. split; [done|]. by apply (L p Hp Hh).
Qed.

(** A worker's jobs are served in order.  The jobs delivered to the worker
    actor, followed by those still queued, are a subsequence of the jobs in the
    order they were given to the worker: jobs may be shed or expire, but a job
    never overtakes an earlier one, also across failed sends and replacement of
    the worker actor. *)
Theorem worker_fifo name i a d h jh st cs w :
  ∃ k w', for_each cs run_call (Worker_new name i a d h jh st, w) = (Ok tt, (k, w')) ∧
    (dispatched w' ++ (job_ident <$> message_queue k)) `sublist_of`
    (dispatched w ++ (job_ident <$> submitted cs)).
Proof.
  destruct (run_calls_ok cs _ w (worker_new_inv name i a d h jh st)) as (k & w' & E & [_ _ O _ _]).
  exists k, w'. split; [done|]. unfold in_order in O. simpl in O. by rewrite app_nil_r in O.
Qed.

(** The load-shedding limit of a worker.  Enqueueing a job on a worker whose
    mode is [Newest] never grows the queue beyond the limit (or beyond the one
    job an idle worker always takes), and on a busy worker whose mode is
    [Oldest] the queue holds at most [limit] jobs afterwards. *)
Theorem worker_queue_limit (job : Job K Msg) (k : WorkerProperties K Msg) w limit mode :
  worker_limit_and_mode (discard_settings k) = Some (limit, mode) →
  ∃ k' w', enqueue_job job (k, w) = (Ok tt, (k', w')) ∧
    match mode with
    | Newest => length (message_queue k') ≤ Nat.max (length (message_queue k)) (Nat.max limit 1)
    | Oldest => curr_jobs k ≠ ∅ → length (message_queue k') ≤ limit
    end.
Proof.
  intros Hd. destruct (sheds_newest k) eqn:Hshed.
  - destruct (enqueue_shed_spec job k w Hshed) as (w' & E & _ & _).
    exists k, w'. split; [done|]. unfold sheds_newest in Hshed. rewrite Hd in Hshed.
    destruct mode; [done|lia].
  - destruct (enqueue_accept_eq job k w Hshed) as (job' & w1 & _ & _ & ->).
    unfold sheds_newest, is_available in Hshed. rewrite Hd in Hshed.
    case_bool_decide as Hc.
    + destruct (enqueue_idle_spec job' (track_pending_key (job_key job') k) w1)
        as (k' & w' & E & _ & _ & Hl); [done|].
      exists k', w'. split; [done|]. destruct mode; [done|]. simpl in Hl, Hshed.
      repeat case_bool_decide; simpl in *; try done; lia || (destruct (message_queue k); simpl in *; [lia|done]).
    + destruct (enqueue_busy_spec job' (track_pending_key (job_key job') k) w1)
        as (k' & w' & E & _ & _ & Hl & Ho).
      exists k', w'. split; [done|]. destruct mode; [intros _; by apply Ho|].
      simpl in Hl, Hshed. repeat case_bool_decide; simpl in *; try done; lia.
Qed.

End properties.

(** ** Witnesses *)

(** Two jobs of key 1 are given to a worker, the first one completes. *)
Definition sample_calls : list (@worker_call nat nat) :=
  [CallEnqueue (sample_job 1 10); CallEnqueue (sample_job 1 11); CallComplete 1].

Lemma worker_conserves_jobs_witness :
  ∃ k w', for_each sample_calls run_call
      (Worker_new "f" 0 100 WNone None 100 None : WorkerProperties nat nat, sample_world) =
      (Ok tt, (k, w')) ∧
    countb (λ j, bool_decide (job_msg j = 11)) (submitted sample_calls) +
      fated (λ j, bool_decide (job_msg j = 11)) (@sample_world nat nat) =
    countb (λ j, bool_decide (job_msg j = 11)) (message_queue k) +
      fated (λ j, bool_decide (job_msg j = 11)) w'.
Proof. apply worker_conserves_jobs; done. Defined.

(** A busy worker with room for one queued job, in [Oldest] mode. *)
Definition sample_busy_worker : WorkerProperties nat nat :=
  mkWorker 0 100 "f" None [sample_job 1 10] (WStatic 1 Oldest) None (mkHeartbeat None) None
    {[1 := mkJobOptions 0 0 0 None None]} {[1 := 2]} false.

Lemma worker_queue_limit_witness :
  ∃ k' w', enqueue_job (sample_job 2 20) (sample_busy_worker, sample_world) = (Ok tt, (k', w')) ∧
    (curr_jobs sample_busy_worker ≠ ∅ → length (message_queue k') ≤ 1).
Proof. apply (worker_queue_limit (sample_job 2 20) sample_busy_worker sample_world 1 Oldest). done. Defined.
