(* ===== verification/WorkerActor.v ===== *)
(** The worker actor (src/ractor/src/factory/worker.rs, the [Actor] implementation of every [Worker]) and the
    link between it and the factory: the properties that the factory keeps of the worker ([Worker]), the
    mailbox of the worker and the messages on their way back to the factory.

    The methods of the user's [Worker] are parameters.  A step of the link is an operation of the factory
    on the properties, a message handled by the worker or by the factory, or the death or the
    replacement of the worker.  The supervision port of the factory has priority over its messages, so a
    dead worker may be replaced before the messages it sent are handled. *)

From S2P Require Import Prelude Discard Job Worker.

Section worker_actor.
Context {K Msg : Type} `{Countable K} {S A E : Type}.
#[local] Abbreviation Job := (Job K Msg).
#[local] Abbreviation World := (World K Msg).
#[local] Abbreviation Props := (WorkerProperties K Msg).

Inductive WorkerMessage := FactoryPing (sent : Instant) | Dispatch (job : Job).

(** [WorkerStartContext] and [WorkerState]; the reference of the factory is implicit *)
Record WorkerStartContext := mkStart { start_wid : WorkerId; custom_start : A }.
Record WorkerState := mkState { state_wid : WorkerId; inner : S }.

(** [trait Worker], with results as values and the state they leave *)
Record UserWorker := mkUser {
  u_pre_start : WorkerId → A → res S;
  u_post_start : WorkerId → S → res unit * S;
  u_post_stop : WorkerId → S → res unit * S;
  u_handle : WorkerId → Job → S → res K * S;
  u_handle_supervisor_evt : E → S → res unit * S
}.

(** What a worker casts to its factory *)
Inductive Report := Finished (w : WorkerId) (key : K) | WorkerPong (w : WorkerId) (time : Duration).

(** The environment of a handler: the clock, whether the factory accepts the cast, and the casts it made *)
Record Env := mkEnv { env_now : Instant; env_open : bool; env_casts : list Report }.

Definition cast_factory (r : Report) : M (WorkerState * Env) unit := λ s,
  if env_open s.2 then (Ok tt, (s.1, mkEnv (env_now s.2) (env_open s.2) (env_casts s.2 ++ [r])))
  else (Err "SendErr"%string, s).

(** A call of a method of the user on the inner state *)
Definition call_user {R} (f : WorkerId → S → res R * S) : M (WorkerState * Env) R := λ s,
  let '(r, st) := f (state_wid s.1) (inner s.1) in (r, (mkState (state_wid s.1) st, s.2)).

Section actor_impl.
Context (u : UserWorker).

Definition pre_start (ctx : WorkerStartContext) : res WorkerState :=
  match u_pre_start u (start_wid ctx) (custom_start ctx) with
  | Ok st => Ok (mkState (start_wid ctx) st)
  | Err e => Err e
  | Panic => Panic
  end.
Definition post_start : M (WorkerState * Env) unit := call_user (u_post_start u).
Definition post_stop : M (WorkerState * Env) unit := call_user (u_post_stop u).
Definition handle (m : WorkerMessage) : M (WorkerState * Env) unit :=
  match m with
  | FactoryPing t =>
      w ← gets (λ s, state_wid s.1);
      elapsed ← gets (λ s, Z.max 0 (env_now s.2 - t));
      cast_factory (WorkerPong w elapsed)
  | Dispatch job =>
      key ← call_user (λ w, u_handle u w job);
      w ← gets (λ s, state_wid s.1);
      cast_factory (Finished w key)
  end.
Definition handle_supervisor_evt (e : E) : M (WorkerState * Env) unit :=
  call_user (λ _, u_handle_supervisor_evt u e).
End actor_impl.

(** ** The link *)

(** The mailbox of the factory holds the reports with the worker actor that sent them, which the factory does
    not see. *)
Record Link := mkLink {
  props : Props;
  world : World;
  alive : option WorkerState;
  mailbox : list WorkerMessage;
  reports : list (ActorId * Report)
}.

(** What the events of the log send to an actor *)
Definition to_worker (a : ActorId) (e : Event K Msg) : option WorkerMessage :=
  match e with
  | EvDispatch b j => if decide (b = a) then Some (Dispatch j) else None
  | EvPing b t => if decide (b = a) then Some (FactoryPing t) else None
  | _ => None
  end.

(** An operation of the factory on the properties: what it casts reaches the mailbox of a worker that is alive *)
Definition factory_op {R} (m : M (Props * World) R) (l : Link) : Link :=
  let '(_, (k, w)) := m (props l, world l) in
  let sent := omap (to_worker (actor k)) (drop (length (w_log (world l))) (w_log w)) in
  mkLink k w (alive l) (match alive l with Some _ => mailbox l ++ sent | None => [] end) (reports l).

Inductive Step :=
| LEnqueue (job : Job)
| LPing
| LReport (discard_limit : nat)
| LWork (now : Instant) (open : bool)
| LDie
| LReplace (a : ActorId) (jh : nat) (st : S).

Definition step (u : UserWorker) (o : Step) (l : Link) : Link :=
  match o with
  | LEnqueue job => factory_op (enqueue_job job) l
  | LPing => factory_op send_factory_ping l
  | LReport lim =>
      match reports l with
      | [] => l
      | (_, r) :: rs =>
          let l := mkLink (props l) (world l) (alive l) (mailbox l) rs in
          match r with
          | Finished _ key => factory_op (worker_complete key) l
          | WorkerPong _ t => factory_op (ping_received t lim) l
          end
      end
  | LWork now open =>
      match alive l, mailbox l with
      | Some st, m :: ms =>
          match handle u m (st, mkEnv now open []) with
          | (Ok _, (st, env)) =>
              mkLink (props l) (world l) (Some st) ms (reports l ++ (pair (actor (props l)) <$> env_casts env))
          | (_, (_, env)) => mkLink (props l) (world l) None [] (reports l ++ (pair (actor (props l)) <$> env_casts env))
          end
      | _, _ => l
      end
  | LDie => mkLink (props l) (world l) None [] (reports l)
  | LReplace a jh st =>
      match alive l with
      | Some _ => l
      | None => factory_op (replace_worker a jh) (mkLink (props l) (world l) (Some (mkState (wid (props l)) st)) [] (reports l))
      end
  end.
Definition steps (u : UserWorker) (os : list Step) (l : Link) : Link := foldl (λ l o, step u o l) l os.

(** A new worker *)
Definition link_new (name : string) (w : WorkerId) (a : ActorId) d h jh stats (world : World) (st : S) : Link :=
  mkLink (Worker_new name w a d h jh stats) world (Some (mkState w st)) [] [].
End worker_actor.
Arguments UserWorker : clear implicits.
Arguments Link K Msg {_ _} S.
Arguments Step : clear implicits.
Arguments WorkerMessage : clear implicits.
Arguments Report : clear implicits.

(** ** What the operations of the factory send *)

Section sends.
Context {K Msg : Type} `{Countable K}.
#[local] Abbreviation Job := (Job K Msg).
#[local] Abbreviation World := (World K Msg).
#[local] Abbreviation Props := (WorkerProperties K Msg).

(** The keys of the jobs that events send to an actor *)
Definition dispatch_to (a : ActorId) (e : Event K Msg) : option K :=
  match e with EvDispatch b j => if decide (b = a) then Some (job_key j) else None | _ => None end.
Definition dispatch_key (m : WorkerMessage K Msg) : option K := match m with Dispatch j => Some (job_key j) | FactoryPing _ => None end.

Lemma dispatch_to_worker a (evs : list (Event K Msg)) : omap dispatch_key (omap (to_worker a) evs) = omap (dispatch_to a) evs.
Proof.
  induction evs as [|e evs IH]; [done|]. cbn. destruct e; cbn; try done; destruct (decide (_ = a)); cbn; by rewrite IH.
Qed.

(** Since the log was [L], the jobs with keys [D] have been sent to the actor [a], and those with keys in [C] are current. *)
Definition sent_inv (L : list (Event K Msg)) (a : ActorId) (C : gmap K JobOptions) (D : list K) (s : Props * World) : Prop :=
  curr_jobs s.1 = C ∧ actor s.1 = a ∧ ∃ evs, w_log s.2 = L ++ evs ∧ omap (dispatch_to a) evs = D.

Lemma sent_inv_props L a C D (g : Props → Props) : (∀ k, curr_jobs (g k) = curr_jobs k ∧ actor (g k) = actor k) →
  preserves (sent_inv L a C D) (modify (λ s, (g s.1, s.2))).
Proof. intros Hg [k w] (Hc & Ha & Hw). destruct (Hg k) as [Hgc Hga]. by split_and!; cbn; rewrite ?Hgc, ?Hga. Qed.

Lemma sent_inv_modify L a C D (f : Props * World → Props * World) :
  (∀ s, curr_jobs (f s).1 = curr_jobs s.1 ∧ actor (f s).1 = actor s.1 ∧ (f s).2 = s.2) → preserves (sent_inv L a C D) (modify f).
Proof. intros Hf s (Hc & Ha & Hw). destruct (Hf s) as (H1 & H2 & H3). by split_and!; cbn; rewrite ?H1, ?H2, ?H3. Qed.

Lemma sent_inv_emit L a C D e : dispatch_to a e = None → preserves (sent_inv L a C D) (liftW (emit e)).
Proof.
  intros He [k w] (Hc & Ha & evs & Hw & HD). split_and!; [done|done|]. exists (evs ++ [e]). cbn in *. rewrite Hw, <-app_assoc.
  split; [done|]. rewrite omap_app, HD. cbn. rewrite He. apply app_nil_r.
Qed.

Lemma sent_inv_world {R} L a C D (m : M World R) : (∀ w, w_log (m w).2 = w_log w) → preserves (sent_inv L a C D) (liftW m).
Proof.
  intros Hm [k w] (Hc & Ha & Hw). unfold liftW, zoom. cbn [fst snd]. pose proof (Hm w) as Hmw. destruct (m w) as [r w'].
  split_and!; [done|done|]. cbn in *. by rewrite Hmw.
Qed.

Lemma untrack_keeps key (k : Props) : curr_jobs (untrack_pending_key key k) = curr_jobs k ∧ actor (untrack_pending_key key k) = actor k.
Proof. unfold untrack_pending_key. by destruct (pending_key_counts k !! key) as [[|[|n]]|]. Qed.

Lemma sent_inv_stat L a C D h f x : preserves (sent_inv L a C D) (liftW (stat h f x)).
Proof. unfold stat. destruct h; [by apply sent_inv_emit|by apply sent_inv_world]. Qed.

Lemma sent_inv_discard L a C D h r j : preserves (sent_inv L a C D) (liftW (run_discard h r j)).
Proof.
  unfold run_discard. destruct h; [|by apply sent_inv_world]. intros s Hs.
  exact (sent_inv_emit L a C D (EvDiscard r j) eq_refl s Hs).
Qed.

Lemma sent_inv_expired L a C D (j : Job) : preserves (sent_inv L a C D) (liftW (is_expired j)).
Proof.
  apply sent_inv_world. intros w. unfold is_expired, TtlTimer_is_expired. destruct (ttl_timer (job_options j)) as [t|]; [|done].
  by destruct (already_expired t).
Qed.

Lemma sent_inv_accept L a C D (j : Job) : preserves (sent_inv L a C D) (liftW (accept j)).
Proof.
  unfold accept. destruct (job_accepted j) as [p|]; [|by apply sent_inv_world]. intros s Hs.
  exact (sent_inv_emit L a C D (EvReply p None) eq_refl s Hs).
Qed.

Lemma sent_inv_reject L a C D (j : Job) : preserves (sent_inv L a C D) (liftW (reject j)).
Proof. unfold reject. destruct (job_accepted j); by apply sent_inv_emit. Qed.
End sends.
#[export] Hint Resolve sent_inv_stat sent_inv_discard sent_inv_expired sent_inv_accept sent_inv_reject : ractor.
#[export] Hint Extern 1 (preserves (sent_inv _ _ _ _) (liftW (emit _))) => apply sent_inv_emit; reflexivity : ractor.
#[export] Hint Extern 1 (preserves (sent_inv _ _ _ _) (modify _)) =>
  apply sent_inv_modify; intros ?; cbn; split_and!; first [apply untrack_keeps | reflexivity] : ractor.

Section ops.
Context {K Msg : Type} `{Countable K}.
#[local] Abbreviation Job := (Job K Msg).
#[local] Abbreviation Props := (WorkerProperties K Msg).

Lemma get_next_sends L a C D q : preserves (sent_inv L a C D) (get_next_loop (q : list Job)).
Proof. induction q as [|j q IH]; cbn [get_next_loop]; solve_preserves. Qed.

Lemma get_next_job_sends L a C D : preserves (sent_inv L a C D) (get_next_non_expired_job (K := K) (Msg := Msg)).
Proof. unfold get_next_non_expired_job. solve_preserves. apply get_next_sends. Qed.

Lemma shed_sends L a C D fuel limit : preserves (sent_inv L a C D) (shed_oldest (K := K) (Msg := Msg) fuel limit).
Proof. induction fuel as [|fuel IH]; cbn [shed_oldest]; solve_preserves; apply get_next_job_sends. Qed.

(** Nothing more has been sent, or one job. *)
Definition may_send (L : list (Event K Msg)) (a : ActorId) (C : gmap K JobOptions) (D : list K) (s : Props * World K Msg) : Prop :=
  sent_inv L a C D s ∨ ∃ key o, sent_inv L a (<[key := o]> C) (D ++ [key]) s.

Lemma dispatch_sends L a C D (j : Job) s : sent_inv L a C D s → may_send L a C D (dispatch_job j s).2.
Proof.
  destruct s as [k w]. intros (Hc & Ha & evs & Hw & HD). cbn [fst snd] in *. unfold dispatch_job, liftW, zoom, set_worker_time, system_now, cast_outcome, gets, mbind, M_bind.
  cbn -[untrack_pending_key]. destruct (w_cast w 0); cbn -[untrack_pending_key].
  - right. exists (job_key j). eexists. split_and!; [cbn; by rewrite Hc|done|]. eexists. cbn. rewrite Hw, <-app_assoc. split; [done|].
    rewrite omap_app, HD. cbn. by rewrite decide_True.
  - left. split_and!; [done|done|]. by exists evs.
  - left. split_and!; [etransitivity; [apply untrack_keeps|done]..|].
    eexists. cbn. rewrite Hw, <-app_assoc. split; [done|]. rewrite omap_app, HD. apply app_nil_r.
Qed.

(** The next job of the queue, if there is one *)
Lemma next_sends L a C D s : sent_inv L a C D s →
  may_send L a C D ((o ← get_next_non_expired_job; match o with Some job => dispatch_job job | None => mret tt end) s).2.
Proof.
  intros Hs. unfold mbind, M_bind. pose proof (get_next_job_sends L a C D s Hs) as Hn.
  destruct (get_next_non_expired_job s) as [[[j|]| |] s']; [by apply dispatch_sends|by left..].
Qed.

Lemma enqueue_sends L a (job : Job) s D C : sent_inv L a C D s →
  let s' := (enqueue_job job s).2 in sent_inv L a C D s' ∨ C = ∅ ∧ may_send L a C D s'.
Proof.
  intros Hs. unfold enqueue_job. rewrite bind_gets. destruct (sheds_newest s.1).
  { left. revert s Hs. match goal with |- ∀ s, _ → sent_inv _ _ _ _ (?m s).2 => change (preserves (sent_inv L a C D) m) end. solve_preserves. }
  set (m := _ ≫= _). assert (∃ j s1, sent_inv L a C D s1 ∧
    m s = (idle ← gets (λ s, bool_decide (curr_jobs s.1 = ∅)); if idle : bool then enqueue_idle j else enqueue_busy j) s1) as (j & s1 & Hs1 & Hm).
  { unfold m. pose proof (sent_inv_accept L a C D job s Hs) as Ha. unfold mbind at 1, M_bind at 1.
    destruct (liftW (accept job) s) as [[j| |] s1] eqn:E; [|by unfold liftW, zoom, accept in E; destruct (job_accepted job)..].
    eexists j, _. split; [|reflexivity]. apply (sent_inv_props L a C D (track_pending_key (job_key j))); [done|done]. }
  rewrite Hm, bind_gets. clear m Hm. case_bool_decide as HC; destruct Hs1 as (Hc1 & Hs1).
  - right. assert (C = ∅) as -> by congruence. split; [done|]. unfold enqueue_idle, mbind, M_bind.
    pose proof (get_next_job_sends L a ∅ D s1 (conj Hc1 Hs1)) as Hn.
    destruct (get_next_non_expired_job s1) as [[[j'|]| |] s2]; [|by apply dispatch_sends|by left..]. apply dispatch_sends.
    by apply (sent_inv_props L a ∅ D (λ k, set_queue (message_queue k ++ [j]) k)).
  - left. revert s1 Hc1 Hs1 HC. intros s1 Hc1 Hs1 _. assert (preserves (sent_inv L a C D) (enqueue_busy j)) as Hp.
    { unfold enqueue_busy. solve_preserves. apply shed_sends. }
    by apply Hp.
Qed.

Lemma complete_sends L a key s C D : sent_inv L a C D s →
  let s' := (worker_complete key s).2 in
  match C !! key with Some _ => may_send L a (delete key C) D s' | None => sent_inv L a C D s' end.
Proof.
  intros (Hc & Ha & Hw). cbn zeta. set (s1 := (set_curr (delete key C) s.1, s.2)).
  assert (sent_inv L a (delete key C) D s1) as H1 by (by split_and!).
  destruct (C !! key) as [o|] eqn:E.
  - pose proof (sent_inv_props L a (delete key C) D (untrack_pending_key key) (untrack_keeps key) s1 H1) as H2.
    pose proof (next_sends L a (delete key C) D _ H2) as H3. unfold modify in H3. cbn [snd] in H3.
    assert ((worker_complete key s).2 = ((o ← get_next_non_expired_job; match o with Some job => dispatch_job job | None => mret tt end)
      (untrack_pending_key key s1.1, s1.2)).2) as ->; [|done].
    unfold worker_complete, modify, gets, mbind, M_bind. rewrite Hc, E. fold s1.
    destruct (get_next_non_expired_job _) as [[[j|]| |] s2]; [|done..]. by destruct (dispatch_job j s2) as [[| |] s3].
  - assert ((worker_complete key s).2 = s1) as ->.
    { unfold worker_complete, modify, gets, mbind, M_bind. by rewrite Hc, E. }
    by rewrite (delete_id C key E) in H1.
Qed.

Lemma replace_sends a jh s : may_send (w_log s.2) a ∅ [] (replace_worker a jh s).2.
Proof.
  unfold replace_worker. destruct s as [k w]. unfold modify, gets, mbind, M_bind. cbn [fst snd].
  set (k1 := foldl _ _ _). apply next_sends. split_and!; [|done|exists []; by rewrite app_nil_r].
  cbn. unfold k1. set (l := (map_to_list _).*1). assert (∀ l k, curr_jobs (foldl (λ k key, untrack_pending_key key k) k l) = curr_jobs k) as ->; [|done].
  clear. intros l. induction l as [|x l IH]; intros k; [done|]. cbn. rewrite IH. apply untrack_keeps.
Qed.

Lemma ping_sends L a C D : preserves (sent_inv L a C D) (send_factory_ping (K := K) (Msg := Msg)).
Proof.
  unfold send_factory_ping. solve_preserves; by apply sent_inv_world.
Qed.
Lemma pong_sends L a C D t lim : preserves (sent_inv L a C D) (ping_received (K := K) (Msg := Msg) t lim).
Proof. unfold ping_received. solve_preserves. Qed.
End ops.

(** ** The factory and its worker in step *)

Section link_facts.
Context {K Msg : Type} `{Countable K} {S A E : Type} (u : UserWorker K Msg S A E).
#[local] Abbreviation Link := (Link K Msg S).
#[local] Abbreviation Step := (Step K Msg S).

(** The keys of the jobs that are with the current worker actor: in its mailbox, or reported by it *)
Definition finished_from (a : ActorId) (r : ActorId * Report K) : option K :=
  match r.2 with Finished _ key => if decide (r.1 = a) then Some key else None | WorkerPong _ _ => None end.
Definition with_worker (l : Link) : list K :=
  omap dispatch_key (mailbox l) ++ omap (finished_from (actor (props l))) (reports l).

(** The factory knows of the job that the worker has, and of no other. *)
Definition in_step (l : Link) : Prop :=
  (curr_jobs (props l) = ∅ ∧ with_worker l = []) ∨
  ∃ key o, curr_jobs (props l) = {[key := o]} ∧ with_worker l = [key].

(** The factory has handled what a dead worker reported before the jobs of those keys are given to another, and
    actors have distinct identifiers. *)
Definition orderly_step (o : Step) (l : Link) : Prop :=
  match o with
  | LReport _ =>
      match reports l with
      | (b, Finished _ key) :: _ => b = actor (props l) ∨ curr_jobs (props l) !! key = None
      | _ => True
      end
  | LReplace a _ _ => a ∉ (reports l).*1
  | _ => True
  end.
Fixpoint orderly (os : list Step) (l : Link) : Prop :=
  match os with [] => True | o :: os => orderly_step o l ∧ orderly os (step u o l) end.

Lemma factory_op_sent {R} (m : M (WorkerProperties K Msg * World K Msg) R) (l : Link) a C D :
  sent_inv (w_log (world l)) a C D (m (props l, world l)).2 →
  let l' := factory_op m l in
  curr_jobs (props l') = C ∧ actor (props l') = a ∧ alive l' = alive l ∧ reports l' = reports l ∧
  (is_Some (alive l) → omap dispatch_key (mailbox l') = omap dispatch_key (mailbox l) ++ D).
Proof.
  unfold factory_op. destruct (m (props l, world l)) as [r [k w]]. cbn [fst snd]. intros (Hc & Ha & evs & Hw & HD). cbn [fst snd] in *.
  split_and!; [done|done|done|done|]. cbn [mailbox]. intros [st ->].
  rewrite omap_app, dispatch_to_worker, Ha, Hw, drop_app_length, HD. done.
Qed.

Lemma factory_op_same {R} (m : M (WorkerProperties K Msg * World K Msg) R) (l : Link) : is_Some (alive l) → in_step l →
  sent_inv (w_log (world l)) (actor (props l)) (curr_jobs (props l)) [] (m (props l, world l)).2 → in_step (factory_op m l).
Proof.
  intros Hal Hin (Hc & Ha & _ & Hr & Hm)%factory_op_sent. specialize (Hm Hal). unfold in_step, with_worker in *.
  rewrite Hc, Ha, Hr, Hm, app_nil_r. done.
Qed.

Lemma factory_op_send {R} (m : M (WorkerProperties K Msg * World K Msg) R) (l : Link) a : is_Some (alive l) →
  omap dispatch_key (mailbox l) = [] → omap (finished_from a) (reports l) = [] →
  may_send (w_log (world l)) a ∅ [] (m (props l, world l)).2 → in_step (factory_op m l).
Proof.
  intros Hal Hmb Hfin Hs. unfold in_step, with_worker. destruct Hs as [Hs|(key & o & Hs)];
    apply factory_op_sent in Hs as (Hc & Ha & _ & Hr & Hm); rewrite Hc, Ha, Hr, (Hm Hal), Hmb, Hfin; [by left|right].
  exists key, o. by rewrite insert_empty.
Qed.

Lemma start_sent (l : Link) : sent_inv (w_log (world l)) (actor (props l)) (curr_jobs (props l)) [] (props l, world l).
Proof. split_and!; [done|done|]. exists []. by rewrite app_nil_r. Qed.

Lemma enqueue_in_step job (l : Link) : is_Some (alive l) → in_step l → in_step (factory_op (enqueue_job job) l).
Proof.
  intros Hal Hin. destruct (enqueue_sends _ _ job _ _ _ (start_sent l)) as [Hs|[HC Hs]]; [by apply factory_op_same|].
  destruct Hin as [[_ Hw]|(key & o & Hc & _)]; [|rewrite Hc in HC; by apply map_non_empty_singleton in HC].
  unfold with_worker in Hw. apply app_nil in Hw as [Hmb Hfin]. rewrite HC in Hs. by apply (factory_op_send _ _ (actor (props l))).
Qed.

Lemma report_in_step b w key (l : Link) rs : is_Some (alive l) → in_step l → reports l = (b, Finished w key) :: rs →
  b = actor (props l) ∨ curr_jobs (props l) !! key = None →
  in_step (factory_op (worker_complete key) (mkLink (props l) (world l) (alive l) (mailbox l) rs)).
Proof.
  intros Hal Hin Hr Hord. set (l' := mkLink _ _ _ _ _).
  pose proof (complete_sends _ _ key _ _ _ (start_sent l')) as Hs. cbn zeta in Hs. cbn [props l' curr_jobs actor] in Hs.
  unfold in_step, with_worker in Hin. rewrite Hr in Hin. cbn [omap list_omap finished_from fst snd] in Hin.
  destruct (decide (b = actor (props l))) as [Hb|Hb].
  - destruct Hin as [[_ Hw]|(key' & o & Hc & Hw)]; [by destruct (omap dispatch_key (mailbox l))|].
    destruct (omap dispatch_key (mailbox l)) as [|x [|y mb]] eqn:Emb; [|cbn in Hw; discriminate Hw..].
    injection Hw as -> Hfin. rewrite Hc, lookup_singleton_eq, delete_singleton_eq in Hs.
    by apply (factory_op_send _ _ (actor (props l))).
  - destruct Hord as [?|Hn]; [done|]. rewrite Hn in Hs. apply factory_op_same; [done|done|exact Hs].
Qed.

Hypothesis returns_key : ∀ w job s key s', u_handle u w job s = (Ok key, s') → key = job_key job.

Lemma work_in_step st m ms now open (l : Link) : alive l = Some st → mailbox l = m :: ms → in_step l →
  match handle u m (st, mkEnv now open []) with
  | (Ok _, (st, env)) => in_step (mkLink (props l) (world l) (Some st) ms (reports l ++ (pair (actor (props l)) <$> env_casts env)))
  | _ => True
  end.
Proof.
  intros Hal Hmb Hin. destruct m as [t|j]; unfold handle, call_user, cast_factory, gets, mbind, M_bind; cbn [fst snd env_open].
  - destruct open; [|done]. cbn [env_casts app fmap list_fmap]. unfold in_step, with_worker in *. rewrite Hmb in Hin. cbn [props mailbox reports].
    rewrite omap_app. cbn in *. by rewrite app_nil_r.
  - destruct (u_handle u (state_wid st) j (inner st)) as [[key| |] s'] eqn:Eh; [|done|done]. apply returns_key in Eh as ->.
    cbn [fst snd env_open]. destruct open; [|done]. cbn [env_casts app fmap list_fmap].
    unfold in_step, with_worker in *. rewrite Hmb in Hin. cbn [props mailbox reports] in *. rewrite omap_app. cbn in *.
    rewrite decide_True by done. destruct Hin as [[_ Hw]|(key & o & Hc & Hw)]; [done|]. injection Hw as <- Hw.
    right. exists (job_key j), o. split; [done|]. rewrite app_assoc, Hw. done.
Qed.

Lemma step_in_step o (l : Link) : orderly_step o l → (is_Some (alive l) → in_step l) →
  is_Some (alive (step u o l)) → in_step (step u o l).
Proof.
  intros Hord Hin Hal. destruct o as [job| |lim|now open| |a jh st]; cbn [step orderly_step] in *.
  - assert (is_Some (alive l)) as Hal' by (unfold factory_op in Hal; by destruct (enqueue_job job _) as [? [? ?]]).
    by apply enqueue_in_step; [|apply Hin].
  - assert (is_Some (alive l)) as Hal' by (unfold factory_op in Hal; by destruct (send_factory_ping _) as [? [? ?]]).
    apply factory_op_same; [done|by apply Hin|]. apply ping_sends, start_sent.
  - destruct (reports l) as [|[b r] rs] eqn:Er; [by apply Hin|]. destruct r as [w key|w t].
    + assert (is_Some (alive l)) as Hal' by (unfold factory_op in Hal; by destruct (worker_complete key _) as [? [? ?]]).
      by apply (report_in_step b w); [|apply Hin|..].
    + assert (is_Some (alive l)) as Hal' by (unfold factory_op in Hal; by destruct (ping_received t lim _) as [? [? ?]]).
      apply factory_op_same; [done| |apply pong_sends, (start_sent (mkLink _ _ _ _ _))].
      specialize (Hin Hal'). unfold in_step, with_worker in *. by rewrite Er in Hin.
  - destruct (alive l) as [st|] eqn:Ea; [|rewrite Ea in Hal; by destruct Hal]. destruct (mailbox l) as [|m ms] eqn:Em; [by apply Hin|].
    pose proof (work_in_step st m ms now open l Ea Em (Hin ltac:(eauto))) as Hw.
    destruct (handle u m (st, mkEnv now open [])) as [[x| |] [st' env]]; [done|by destruct Hal..].
  - by destruct Hal.
  - destruct (alive l) as [st'|] eqn:Ea; [by apply Hin|]. apply (factory_op_send _ _ a); [by eexists|done| |apply replace_sends].
    cbn [reports]. clear -Hord. induction (reports l) as [|[b r] rs IH]; [done|]. cbn in *. apply not_elem_of_cons in Hord as [Hne Hrs].
    unfold finished_from at 1. cbn. destruct r; [rewrite decide_False by congruence|]; by apply IH.
Qed.


Lemma steps_in_step os (l : Link) : orderly os l → (is_Some (alive l) → in_step l) →
  is_Some (alive (steps u os l)) → in_step (steps u os l).
Proof.
  revert l. induction os as [|o os IH]; intros l Hord Hin; [done|]. destruct Hord as [Ho Hos]. cbn.
  apply IH; [done|]. by apply step_in_step.
Qed.
End link_facts.

(** ** Theorems *)

(** C11: whatever jobs are given to a worker, and however the worker, the factory and their mailboxes interleave,
    dies and is replaced, a living worker has at most one job, in its mailbox or reported, and it is
    exactly the job that the factory takes it to have.  This supposes that the user's handler returns the
    key of its job, and that no report of a dead worker is taken for one of its replacement. *)
Theorem worker_in_step {K Msg} `{Countable K} {S A E} (u : UserWorker K Msg S A E) name w a d h jh stats world st os :
  (∀ w job s key s', u_handle u w job s = (Ok key, s') → key = job_key job) →
  let l0 := link_new name w a d h jh stats world st in
  orderly u os l0 → is_Some (alive (steps u os l0)) → in_step (steps u os l0).
Proof. intros Hu l0 Hord. apply steps_in_step; [done|done|]. intros _. by left. Qed.


(** ** Samples *)

Definition echo : UserWorker nat nat unit unit unit :=
  mkUser (λ _ _, Ok tt) (λ _ s, (Ok tt, s)) (λ _ s, (Ok tt, s)) (λ _ j s, (Ok (job_key j), s)) (λ _ s, (Ok tt, s)).
Definition echo_world : World nat nat := mkWorld (λ _, 0%Z) (λ _, 0%Z) (λ _, CastOk) (λ _, None) (λ _, 0) (λ _, true) [].
Definition echo_link : Link nat nat unit := link_new "f" 0 100 WNone None 1 None echo_world tt.
Definition echo_job (n : nat) : Job nat nat := mkJob 7 n (mkJobOptions 0 0 0 None None) None.

(** A worker that dies between two jobs; the factory handles its report first *)
Definition echo_steps : list (Step nat nat unit) :=
  [LEnqueue (echo_job 1); LEnqueue (echo_job 2); LPing; LWork 0 true; LReport 0; LDie; LReplace 101 2 tt; LWork 0 true].

Lemma worker_in_step_witness : in_step (steps echo echo_steps echo_link).
Proof.
  apply (worker_in_step echo "f" 0 100 WNone None 1 None echo_world tt echo_steps).
  - intros w job s key s'. cbn. congruence.
  - vm_compute. repeat split; try (left; reflexivity). intros Hin. by apply not_elem_of_nil in Hin.
  - vm_compute. by eexists.
Defined.


