(* ===== verification/Queues.v ===== *)
(** The factory's backlog (src/ractor/src/factory/queues.rs).

    [Queue] is the trait, as a class of operations; [QueueLaws] is what the
    factory relies on: the queue is a list [q_jobs] in serving order, from whose
    head jobs are popped, into which a job is inserted and from which one job is
    discarded.  [DefaultQueue] and [PriorityQueue] are the two implementations of
    the crate; both satisfy the laws, and [PriorityQueue] in addition serves the
    most important class first and sheds the least important one. *)

From S2P Require Import Prelude Discard Job.

(** ** [trait Queue] *)
Class Queue (K Msg Q : Type) := {
  q_len : Q → nat;
  q_is_empty : Q → bool;
  q_pop_front : Q → option (Job K Msg) * Q;
  q_discard_oldest : Q → option (Job K Msg) * Q;
  q_peek : Q → option (Job K Msg);
  (** [None]: the call panics. *)
  q_push_back : Job K Msg → Q → option Q;
  q_remove_expired : option (DiscardHandler K Msg) → M (Q * World K Msg) nat;
  q_is_job_discardable : Q → K → bool
}.

(** The two-way list update performed by a discard. *)
Definition removes_one {A} (x : A) (l l' : list A) : Prop :=
  ∃ l1 l2, l = l1 ++ x :: l2 ∧ l' = l1 ++ l2.

(** ** What the factory relies on *)
Class QueueLaws (K Msg Q : Type) `{Queue K Msg Q} := {
  q_jobs : Q → list (Job K Msg);
  (** The representation invariant. *)
  q_wf : Q → Prop;
  (** The keys that can be pushed without a panic. *)
  q_admits : Q → K → Prop;
  q_len_law q : q_wf q → q_len q = length (q_jobs q);
  q_empty_law q : q_wf q → q_is_empty q = true ↔ q_jobs q = [];
  q_peek_law q : q_wf q → q_peek q = head (q_jobs q);
  q_pop_law q : q_wf q →
    match q_jobs q with
    | [] => q_pop_front q = (None, q)
    | j :: l => ∃ q', q_pop_front q = (Some j, q') ∧ q_jobs q' = l ∧ q_wf q' ∧
                      ∀ k, q_admits q k → q_admits q' k
    end;
  q_discard_law q : q_wf q →
    match q_jobs q with
    | [] => q_discard_oldest q = (None, q)
    | _ => ∃ j q', q_discard_oldest q = (Some j, q') ∧ removes_one j (q_jobs q) (q_jobs q') ∧
                   q_wf q' ∧ ∀ k, q_admits q k → q_admits q' k
    end;
  q_push_law j q : q_wf q → q_admits q (job_key j) →
    ∃ q', q_push_back j q = Some q' ∧ removes_one j (q_jobs q') (q_jobs q) ∧
          q_wf q' ∧ ∀ k, q_admits q k → q_admits q' k;
  q_expire_law h q w : q_wf q →
    ∃ n q' w', q_remove_expired h (q, w) = (Ok n, (q', w')) ∧
      length (q_jobs q) = n + length (q_jobs q') ∧
      sublist (q_jobs q') (q_jobs q) ∧
      dispatched w' = dispatched w ∧
      (∀ p, stable p → handler_keeps p h →
        countb p (q_jobs q) + fated p w = countb p (q_jobs q') + fated p w') ∧
      q_wf q' ∧ ∀ k, q_admits q k → q_admits q' k
}.

Lemma countb_removes_one {A} (p : A → bool) x l l' :
  removes_one x l l' → countb p l = countb p l' + (if p x then 1 else 0).
Proof. intros (l1 & l2 & -> & ->). rewrite !countb_app. simpl. lia. Qed.

Lemma length_removes_one {A} (x : A) l l' : removes_one x l l' → length l = S (length l').
Proof. intros (l1 & l2 & -> & ->). rewrite !length_app. simpl. lia. Qed.

(** ** [VecDeque::retain_mut] with the expiry test

    The closure is run on the elements in order; the removed elements are
    dropped when the scan is over. *)
Section retain.
Context {K Msg : Type}.
Abbreviation World := (World K Msg).
Abbreviation Job := (Job K Msg).

Fixpoint retain_scan (h : option (DiscardHandler K Msg)) (q : list Job)
    : M World (list Job * list Job) :=
  match q with
  | [] => mret ([], [])
  | item :: q =>
      e ← is_expired item;
      if e : bool then
        item ← run_discard h TtlExpired item;
        kr ← retain_scan h q;
        mret (kr.1, item :: kr.2)
      else
        kr ← retain_scan h q;
        mret (item :: kr.1, kr.2)
  end.

(** Returns what is kept and the number of elements removed. *)
Definition retain_unexpired (h : option (DiscardHandler K Msg)) (q : list Job)
    : M World (list Job * nat) :=
  kr ← retain_scan h q;
  for_each kr.2 (λ j, emit (EvDropped j)) ;;
  mret (kr.1, length kr.2).

Lemma retain_scan_spec h q w :
  ∃ kept removed w', retain_scan h q w = (Ok (kept, removed), w') ∧ quiet w w' ∧
    sublist kept q ∧ length q = length removed + length kept ∧
    ∀ p, stable p → handler_keeps p h → countb p q = countb p kept + countb p removed.
Proof.
  revert w. induction q as [|item q IH]; intros w; simpl.
  { exists [], [], w. split; [done|]. split; [by apply quiet_same_log|done]. }
  destruct (is_expired_spec item w) as (b & w1 & E1 & Q1). erewrite bind_ok by exact E1.
  destruct b.
  - destruct (run_discard_spec h TtlExpired item w1) as (j' & w2 & E2 & Q2 & Hj).
    erewrite bind_ok by exact E2.
    destruct (IH w2) as (kept & removed & w3 & E3 & Q3 & Hs & Hl & Hp).
    erewrite bind_ok by exact E3. exists kept, (j' :: removed), w3. split; [done|].
    split; [eauto using quiet_trans|]. split; [by apply sublist_cons|]. split; [simpl; lia|].
    intros p Hst Hh. rewrite (Hp p Hst Hh). simpl. rewrite (Hj p Hst Hh). lia.
  - destruct (IH w1) as (kept & removed & w3 & E3 & Q3 & Hs & Hl & Hp).
    erewrite bind_ok by exact E3. exists (item :: kept), removed, w3. split; [done|].
    split; [eauto using quiet_trans|]. split; [by apply sublist_skip|]. split; [simpl; lia|].
    intros p Hst Hh. rewrite (Hp p Hst Hh). simpl. lia.
Qed.

Lemma drop_all_spec l w :
  ∃ w', for_each l (λ j, emit (EvDropped j)) w = (Ok tt, w') ∧ dispatched w' = dispatched w ∧
    ∀ p : Job → bool, fated p w' = fated p w + countb p l.
Proof.
  revert w. induction l as [|j l IH]; intros w; simpl.
  { exists w. split; [done|]. split; [done|]. intros p. lia. }
  destruct (drop_spec j w) as (w1 & E1 & Hd1 & Hp1). erewrite bind_ok by exact E1.
  destruct (IH w1) as (w2 & E2 & Hd2 & Hp2). exists w2. split; [done|].
  split; [by rewrite Hd2|]. intros p. rewrite (Hp2 p), (Hp1 p). lia.
Qed.

Lemma retain_unexpired_spec h q w :
  ∃ kept n w', retain_unexpired h q w = (Ok (kept, n), w') ∧ dispatched w' = dispatched w ∧
    sublist kept q ∧ length q = n + length kept ∧
    ∀ p, stable p → handler_keeps p h →
      countb p q + fated p w = countb p kept + fated p w'.
Proof.
  unfold retain_unexpired.
  destruct (retain_scan_spec h q w) as (kept & removed & w1 & E1 & Q1 & Hs & Hl & Hp).
  erewrite bind_ok by exact E1. simpl.
  destruct (drop_all_spec removed w1) as (w2 & E2 & Hd & Hf). erewrite bind_ok by exact E2.
  exists kept, (length removed), w2. split; [done|].
  split; [by rewrite Hd, (quiet_dispatched _ _ Q1)|]. do 2 (split; [done|]).
  intros p Hst Hh. rewrite (Hf p), (quiet_fated p _ _ Q1), (Hp p Hst Hh). lia.
Qed.
End retain.

(** ** [DefaultQueue] *)
Record DefaultQueue (K Msg : Type) := mkDefaultQueue { dq : list (Job K Msg) }.
Arguments mkDefaultQueue {K Msg}.
Arguments dq {K Msg}.

Section default_queue.
Context {K Msg : Type}.
Abbreviation World := (World K Msg).
Abbreviation Job := (Job K Msg).
Abbreviation DefaultQueue := (DefaultQueue K Msg).

Definition dq_pop_front (q : DefaultQueue) : option Job * DefaultQueue :=
  match dq q with
  | [] => (None, q)
  | j :: l => (Some j, mkDefaultQueue l)
  end.

Definition dq_remove_expired (h : option (DiscardHandler K Msg)) : M (DefaultQueue * World) nat :=
  before ← gets (λ s, length (dq s.1));
  q ← gets (λ s, dq s.1);
  kn ← liftW (retain_unexpired h q);
  modify (λ s, (mkDefaultQueue kn.1, s.2)) ;;
  mret (before - length kn.1).

#[global] Instance DefaultQueue_Queue : Queue K Msg DefaultQueue := {|
  q_len q := length (dq q);
  q_is_empty q := bool_decide (length (dq q) = 0);
  q_pop_front := dq_pop_front;
  q_discard_oldest := dq_pop_front;
  q_peek q := head (dq q);
  q_push_back j q := Some (mkDefaultQueue (dq q ++ [j]));
  q_remove_expired := dq_remove_expired;
  q_is_job_discardable _ _ := true
|}.

#[global] Program Instance DefaultQueue_laws : QueueLaws K Msg DefaultQueue := {|
  q_jobs := dq;
  q_wf _ := True;
  q_admits _ _ := True
|}.
Next Obligation. done. Qed.
Next Obligation.
  intros q _. simpl. rewrite bool_decide_eq_true. destruct (dq q); simpl; split; done || lia.
Qed.
Next Obligation. done. Qed.
Next Obligation.
  intros q _. simpl. unfold dq_pop_front. destruct (dq q); [done|]. by eexists.
Qed.
Next Obligation.
  intros q _. simpl. unfold dq_pop_front. destruct (dq q) as [|j l]; [done|].
  exists j, (mkDefaultQueue l). split; [done|]. split; [by exists [], l|done].
Qed.
Next Obligation.
  intros j q _ _. simpl. eexists. split; [done|]. split; [|done].
  exists (dq q), []. by rewrite app_nil_r.
Qed.
Next Obligation.
  intros h q w _. simpl. unfold dq_remove_expired. rewrite !bind_gets. simpl.
  destruct (retain_unexpired_spec h (dq q) w) as (kept & n & w' & E & Hd & Hs & Hl & Hp).
  erewrite bind_liftW by exact E. rewrite bind_modify. simpl.
  eexists _, _, _. split; [done|]. simpl. split; [lia|]. by repeat split.
Qed.
End default_queue.

(** ** Priorities *)

(** [enum StandardPriority] *)
Inductive StandardPriority := Highest | High | Important | Normal | BestEffort.

#[global] Instance StandardPriority_eq_dec : EqDecision StandardPriority.
Proof. solve_decision. Defined.

(** [trait Priority]: [Default], [From<usize>] and [get_index]. *)
Class Priority (P : Type) := {
  p_default : P;
  p_from : nat → P;
  get_index : P → nat
}.

Definition StandardPriority_from_repr (n : nat) : option StandardPriority :=
  match n with
  | 0 => Some Highest | 1 => Some High | 2 => Some Important | 3 => Some Normal
  | 4 => Some BestEffort | _ => None
  end.

Definition StandardPriority_size : nat := 5.

#[global] Instance StandardPriority_Priority : Priority StandardPriority := {|
  p_default := Normal;
  p_from n := default Normal (StandardPriority_from_repr n);
  get_index p := match p with Highest => 0 | High => 1 | Important => 2 | Normal => 3 | BestEffort => 4 end
|}.

(** [trait PriorityManager]: user code, read only. *)
Record PriorityManager (K P : Type) := mkPriorityManager {
  pm_is_discardable : K → bool;
  pm_get_priority : K → option P
}.
Arguments mkPriorityManager {K P}.
Arguments pm_is_discardable {K P}.
Arguments pm_get_priority {K P}.

(** ** [PriorityQueue]; [N] is the const generic [NUM_PRIORITIES] *)
Record PriorityQueue (K Msg P : Type) (N : nat) := mkPriorityQueue {
  queues : list (list (Job K Msg));
  priority_manager : PriorityManager K P
}.
Arguments mkPriorityQueue {K Msg P N}.
Arguments queues {K Msg P N}.
Arguments priority_manager {K Msg P N}.

Section priority_queue.
Context {K Msg P : Type} `{Priority P} {NUM_PRIORITIES : nat}.
Abbreviation World := (World K Msg).
Abbreviation Job := (Job K Msg).
Abbreviation PriorityQueue := (PriorityQueue K Msg P NUM_PRIORITIES).
Implicit Types (q : PriorityQueue).

Definition PriorityQueue_new (pm : PriorityManager K P) : PriorityQueue :=
  mkPriorityQueue (replicate NUM_PRIORITIES []) pm.

(** [for i in idx { if let Some(r) = self.queues[i].pop_front() { return Some(r) } }] *)
Fixpoint pop_scan (idx : list nat) (qs : list (list Job)) : option Job * list (list Job) :=
  match idx with
  | [] => (None, qs)
  | i :: idx =>
      match qs !! i with
      | Some (r :: rest) => (Some r, <[i := rest]> qs)
      | _ => pop_scan idx qs
      end
  end.

Definition pq_pop_front q : option Job * PriorityQueue :=
  let '(o, qs) := pop_scan (seq 0 NUM_PRIORITIES) (queues q) in
  (o, mkPriorityQueue qs (priority_manager q)).

Definition pq_discard_oldest q : option Job * PriorityQueue :=
  let '(o, qs) := pop_scan (reverse (seq 0 NUM_PRIORITIES)) (queues q) in
  (o, mkPriorityQueue qs (priority_manager q)).

Fixpoint peek_scan (idx : list nat) (qs : list (list Job)) : option Job :=
  match idx with
  | [] => None
  | i :: idx =>
      match qs !! i with
      | Some (r :: _) => Some r
      | _ => peek_scan idx qs
      end
  end.

Definition pq_peek q : option Job := peek_scan (seq 0 NUM_PRIORITIES) (queues q).

Definition pq_index q (key : K) : nat :=
  get_index (default p_default (pm_get_priority (priority_manager q) key)).

(** Indexing [self.queues[idx]] panics out of range. *)
Definition pq_push_back (job : Job) q : option PriorityQueue :=
  let idx := pq_index q (job_key job) in
  match queues q !! idx with
  | Some sub => Some (mkPriorityQueue (<[idx := sub ++ [job]]> (queues q)) (priority_manager q))
  | None => None
  end.

Fixpoint pq_expire_scan (h : option (DiscardHandler K Msg)) (qs : list (list Job))
    : M World (list (list Job) * nat) :=
  match qs with
  | [] => mret ([], 0)
  | sub :: qs =>
      kn ← retain_unexpired h sub;
      rest ← pq_expire_scan h qs;
      mret (kn.1 :: rest.1, kn.2 + rest.2)
  end.

Definition pq_remove_expired (h : option (DiscardHandler K Msg)) : M (PriorityQueue * World) nat :=
  qs ← gets (λ s, queues s.1);
  r ← liftW (pq_expire_scan h qs);
  modify (λ s, (mkPriorityQueue r.1 (priority_manager s.1), s.2)) ;;
  mret r.2.

#[global] Instance PriorityQueue_Queue : Queue K Msg PriorityQueue := {|
  q_len q := sum_list (length <$> queues q);
  q_is_empty q := forallb (λ sub, bool_decide (length sub = 0)) (queues q);
  q_pop_front := pq_pop_front;
  q_discard_oldest := pq_discard_oldest;
  q_peek := pq_peek;
  q_push_back := pq_push_back;
  q_remove_expired := pq_remove_expired;
  q_is_job_discardable q key := pm_is_discardable (priority_manager q) key
|}.

(** *** The scans *)

Definition empty_at (qs : list (list Job)) (i : nat) : Prop := ∀ sub, qs !! i = Some sub → sub = [].

Lemma pop_scan_none idx qs qs' :
  pop_scan idx qs = (None, qs') → qs' = qs ∧ ∀ i, i ∈ idx → empty_at qs i.
Proof.
  induction idx as [|i idx IH]; simpl; intros E; [simplify_eq; set_solver|].
  destruct (qs !! i) as [[|r rest]|] eqn:Ei; [|done|].
  all: destruct (IH E) as [-> Hi]; split; [done|].
  all: intros i' [->|Hi']%elem_of_cons; [|by apply Hi]; intros sub Hsub; congruence.
Qed.

Lemma pop_scan_some idx qs r qs' :
  pop_scan idx qs = (Some r, qs') →
  ∃ idx1 i idx2 rest, idx = idx1 ++ i :: idx2 ∧ qs !! i = Some (r :: rest) ∧
    qs' = <[i := rest]> qs ∧ ∀ i', i' ∈ idx1 → empty_at qs i'.
Proof.
  induction idx as [|i idx IH]; simpl; intros E; [done|].
  destruct (qs !! i) as [[|r' rest]|] eqn:Ei; simplify_eq.
  2:{ exists [], i, idx, rest. set_solver. }
  all: destruct (IH E) as (idx1 & i' & idx2 & rest & -> & Hi' & -> & He).
  all: exists (i :: idx1), i', idx2, rest; do 3 (split; [done|]).
  all: intros x [->|Hx]%elem_of_cons; [|by apply He]; intros sub Hsub; congruence.
Qed.

Lemma peek_scan_pop idx qs : peek_scan idx qs = (pop_scan idx qs).1.
Proof. induction idx as [|i idx IH]; simpl; [done|]. by destruct (qs !! i) as [[|]|]. Qed.

Lemma concat_split (qs : list (list Job)) i sub :
  qs !! i = Some sub → concat qs = concat (take i qs) ++ sub ++ concat (drop (S i) qs).
Proof.
  intros Hi. rewrite <-(take_drop_middle qs i sub Hi) at 1. by rewrite concat_app.
Qed.

Lemma concat_insert (qs : list (list Job)) i sub :
  i < length qs →
  concat (<[i := sub]> qs) = concat (take i qs) ++ sub ++ concat (drop (S i) qs).
Proof. intros Hi. by rewrite insert_take_drop, concat_app. Qed.

Lemma concat_empty (qs : list (list Job)) : (∀ i, i < length qs → empty_at qs i) → concat qs = [].
Proof.
  intros He. induction qs as [|sub qs IH]; [done|]. simpl.
  rewrite (He 0 ltac:(simpl; lia) sub eq_refl), IH; [done|].
  intros i Hi sub' Hs. by apply (He (S i) ltac:(simpl; lia)).
Qed.

Lemma seq_split_at n idx1 i idx2 : seq 0 n = idx1 ++ i :: idx2 → idx1 = seq 0 i ∧ i < n.
Proof.
  intros E. assert (length idx1 = i) as Hl.
  { assert (seq 0 n !! length idx1 = Some i) as Hi by (rewrite E; by apply list_lookup_middle).
    apply lookup_seq in Hi. lia. }
  assert (i < n) as Hn.
  { apply (f_equal length) in E. rewrite length_seq, length_app in E. simpl in E. lia. }
  split; [|done]. apply (f_equal (take i)) in E.
  rewrite <-Hl, take_app_length, Hl in E. rewrite <-E.
  replace n with (i + (n - i)) by lia. rewrite seq_app, take_app_length'; [done|by rewrite length_seq].
Qed.

(** *** The laws *)

Definition pq_wf q : Prop := length (queues q) = NUM_PRIORITIES.

Lemma pq_scan_exhausted q idx qs' :
  pq_wf q → (∀ i, i < NUM_PRIORITIES → i ∈ idx) →
  pop_scan idx (queues q) = (None, qs') → concat (queues q) = [].
Proof.
  intros Hwf Hall E. destruct (pop_scan_none _ _ _ E) as [_ He].
  apply concat_empty. intros i Hi. apply He, Hall. by rewrite <-Hwf.
Qed.

Lemma pop_scan_removes q idx r qs' :
  pq_wf q → pop_scan idx (queues q) = (Some r, qs') →
  removes_one r (concat (queues q)) (concat qs') ∧ length qs' = NUM_PRIORITIES.
Proof.
  intros Hwf E. destruct (pop_scan_some _ _ _ _ E) as (idx1 & i & idx2 & rest & _ & Hi & -> & _).
  split; [|by rewrite length_insert].
  exists (concat (take i (queues q))), (rest ++ concat (drop (S i) (queues q))).
  rewrite concat_insert by by eapply lookup_lt_Some. by rewrite (concat_split _ _ _ Hi).
Qed.

Lemma pop_front_head q r qs' :
  pq_wf q → pop_scan (seq 0 NUM_PRIORITIES) (queues q) = (Some r, qs') →
  concat (queues q) = r :: concat qs'.
Proof.
  intros Hwf E. destruct (pop_scan_some _ _ _ _ E) as (idx1 & i & idx2 & rest & Hidx & Hi & -> & He).
  destruct (seq_split_at _ _ _ _ Hidx) as [-> Hn].
  rewrite concat_insert by by eapply lookup_lt_Some. rewrite (concat_split _ _ _ Hi).
  rewrite concat_empty; [done|]. intros i' Hi'. rewrite length_take in Hi'.
  intros sub Hs. rewrite lookup_take_lt in Hs by lia. apply (He i'); [|done].
  apply elem_of_seq. lia.
Qed.

Lemma pq_expire_spec h qs w :
  ∃ qs' n w', pq_expire_scan h qs w = (Ok (qs', n), w') ∧ dispatched w' = dispatched w ∧
    sublist (concat qs') (concat qs) ∧ length (concat qs) = n + length (concat qs') ∧
    length qs' = length qs ∧
    ∀ p, stable p → handler_keeps p h →
      countb p (concat qs) + fated p w = countb p (concat qs') + fated p w'.
Proof.
  revert w. induction qs as [|sub qs IH]; intros w; simpl; [by exists [], 0, w|].
  destruct (retain_unexpired_spec h sub w) as (kept & n & w1 & E1 & Hd1 & Hs1 & Hl1 & Hp1).
  erewrite bind_ok by exact E1.
  destruct (IH w1) as (qs' & n' & w2 & E2 & Hd2 & Hs2 & Hl2 & Hq & Hp2).
  erewrite bind_ok by exact E2. eexists _, _, w2. split; [done|]. simpl.
  split; [by rewrite Hd2|]. split; [by apply sublist_app|].
  rewrite !length_app. split; [lia|]. split; [lia|].
  intros p Hst Hh. specialize (Hp1 p Hst Hh). specialize (Hp2 p Hst Hh).
  rewrite !countb_app. lia.
Qed.

#[global] Program Instance PriorityQueue_laws : QueueLaws K Msg PriorityQueue := {|
  q_jobs q := concat (queues q);
  q_wf := pq_wf;
  q_admits q key := pq_index q key < NUM_PRIORITIES
|}.
Next Obligation.
  intros q _. simpl. induction (queues q) as [|sub qs IH]; [done|].
  simpl. by rewrite length_app, <-IH.
Qed.
Next Obligation.
  intros q _. simpl. induction (queues q) as [|[|] qs IH]; simpl; done.
Qed.
Next Obligation.
  intros q Hwf. simpl. unfold pq_peek. rewrite peek_scan_pop.
  destruct (pop_scan _ _) as [[r|] qs'] eqn:E; simpl.
  - by rewrite (pop_front_head _ _ _ Hwf E).
  - rewrite (pq_scan_exhausted q (seq 0 NUM_PRIORITIES) qs'); [done|done| |done].
    intros i Hi. apply elem_of_seq. lia.
Qed.
Next Obligation.
  intros q Hwf. simpl. unfold pq_pop_front. destruct (pop_scan _ _) as [[r|] qs'] eqn:E.
  - rewrite (pop_front_head _ _ _ Hwf E). destruct (pop_scan_removes _ _ _ _ Hwf E) as [_ Hl].
    eexists. split; [done|]. by repeat split.
  - rewrite (pq_scan_exhausted q (seq 0 NUM_PRIORITIES) qs'); [|done| |done].
    + apply pop_scan_none in E as [-> _]. by destruct q.
    + intros i Hi. apply elem_of_seq. lia.
Qed.
Next Obligation.
  intros q Hwf. simpl. unfold pq_discard_oldest. destruct (pop_scan _ _) as [[r|] qs'] eqn:E.
  - destruct (pop_scan_removes _ _ _ _ Hwf E) as [Hr Hl].
    destruct (concat (queues q)); [by destruct Hr as ([] & ? & ? & ?)|].
    eexists _, _. split; [done|]. by repeat split.
  - rewrite (pq_scan_exhausted q (reverse (seq 0 NUM_PRIORITIES)) qs'); [|done| |done].
    + apply pop_scan_none in E as [-> _]. by destruct q.
    + intros i Hi. apply elem_of_reverse, elem_of_seq. lia.
Qed.
Next Obligation.
  intros j q Hwf Ha. simpl. unfold pq_push_back.
  destruct (lookup_lt_is_Some_2 (queues q) (pq_index q (job_key j))) as [sub Hs]; [by rewrite Hwf|].
  rewrite Hs. eexists. split; [done|]. simpl. split; [|split; [|done]].
  - exists (concat (take (pq_index q (job_key j)) (queues q)) ++ sub),
      (concat (drop (S (pq_index q (job_key j))) (queues q))).
    rewrite concat_insert by by eapply lookup_lt_Some. rewrite (concat_split _ _ _ Hs).
    by rewrite <-!app_assoc.
  - unfold pq_wf. simpl. by rewrite length_insert.
Qed.
Next Obligation.
  intros h q w Hwf. simpl. unfold pq_remove_expired. rewrite bind_gets. simpl.
  destruct (pq_expire_spec h (queues q) w) as (qs' & n & w' & E & Hd & Hs & Hl & Hq & Hp).
  erewrite bind_liftW by exact E. rewrite bind_modify. simpl.
  eexists n, _, _. split; [done|]. do 4 (split; [done|]). split; [by unfold pq_wf in *; simpl; congruence|done].
Qed.

End priority_queue.

(** ** Histories of a queue *)

Section histories.
Context {K Msg Q : Type} `{QueueLaws K Msg Q}.

Fixpoint push_all (js : list (Job K Msg)) (q : Q) : option Q :=
  match js with
  | [] => Some q
  | j :: js => match q_push_back j q with Some q' => push_all js q' | None => None end
  end.

Fixpoint pop_n (n : nat) (q : Q) : list (Job K Msg) :=
  match n with
  | 0 => []
  | S n => match q_pop_front q with (Some j, q') => j :: pop_n n q' | (None, _) => [] end
  end.

(** Popping everything serves [q_jobs] in order. *)
Lemma pop_n_all n q : q_wf q → length (q_jobs q) ≤ n → pop_n n q = q_jobs q.
Proof.
  revert q. induction n as [|n IH]; intros q Hwf Hl; simpl.
  - apply Nat.le_0_r, length_zero_iff_nil in Hl. by rewrite Hl.
  - pose proof (q_pop_law q Hwf) as Hp. destruct (q_jobs q) as [|j l] eqn:E.
    + by rewrite Hp.
    + destruct Hp as (q' & -> & Hq' & Hwf' & _). rewrite IH; [by rewrite Hq'|done|].
      rewrite Hq'. simpl in Hl. lia.
Qed.
End histories.

(** *** A priority queue sorts its jobs, stably *)

Section priority_facts.
Context {K Msg P : Type} `{Priority P} {N : nat}.
Abbreviation PriorityQueue := (PriorityQueue K Msg P N).
Implicit Types (q : PriorityQueue) (js : list (Job K Msg)).

(** The jobs of [js] in class [i]. *)
Definition class_of q (i : nat) js : list (Job K Msg) :=
  filter (λ j, pq_index q (job_key j) = i) js.

Lemma push_back_classes j q q' i :
  pq_push_back j q = Some q' →
  priority_manager q' = priority_manager q ∧
  queues q' !! i = (λ sub, sub ++ class_of q i [j]) <$> queues q !! i.
Proof.
  unfold pq_push_back, class_of. intros E.
  destruct (queues q !! pq_index q (job_key j)) as [sub|] eqn:Hs; simplify_eq. simpl.
  split; [done|]. rewrite filter_cons, filter_nil.
  destruct (decide (pq_index q (job_key j) = i)) as [<-|Hne].
  - rewrite list_lookup_insert_eq by by eapply lookup_lt_Some. by rewrite Hs.
  - rewrite list_lookup_insert_ne by done.
    destruct (queues q !! i); simpl; [by rewrite app_nil_r|done].
Qed.

Lemma push_all_classes js q q' :
  push_all js q = Some q' →
  priority_manager q' = priority_manager q ∧
  ∀ i, queues q' !! i = (λ sub, sub ++ class_of q i js) <$> queues q !! i.
Proof.
  revert q. induction js as [|j js IH]; intros q E; simpl in E.
  - simplify_eq. split; [done|]. intros i. unfold class_of. rewrite filter_nil.
    destruct (queues q' !! i); simpl; [by rewrite app_nil_r|done].
  - destruct (pq_push_back j q) as [q1|] eqn:E1; [|done].
    destruct (IH _ E) as [Hm Hc]. destruct (push_back_classes _ _ _ 0 E1) as [Hm1 _].
    split; [congruence|]. intros i. rewrite Hc. destruct (push_back_classes _ _ _ i E1) as [_ ->].
    destruct (queues q !! i) as [sub|]; simpl; [|done].
    f_equal. rewrite <-app_assoc. f_equal. unfold class_of, pq_index. rewrite Hm1.
    by rewrite <-filter_app.
Qed.

Lemma push_all_ok js q :
  pq_wf q → (∀ j, j ∈ js → pq_index q (job_key j) < N) →
  ∃ q', push_all js q = Some q' ∧ pq_wf q' ∧
    length (q_jobs q') = length js + length (q_jobs q).
Proof.
  revert q. induction js as [|j js IH]; intros q Hwf Ha; simpl; [by exists q|].
  destruct (q_push_law (QueueLaws := PriorityQueue_laws) j q Hwf (Ha j ltac:(set_solver)))
    as (q1 & E1 & Hr & Hwf1 & Hk).
  simpl in E1. rewrite E1. destruct (IH q1 Hwf1) as (q' & E' & Hwf' & Hl).
  - intros j' Hj'. apply Hk, Ha. set_solver.
  - exists q'. split; [done|]. split; [done|]. rewrite (length_removes_one _ _ _ Hr) in Hl.
    simpl in *. lia.
Qed.

Lemma concat_by_lookup n (qs : list (list (Job K Msg))) (f : nat → list (Job K Msg)) :
  length qs = n → (∀ i, i < n → qs !! i = Some (f i)) → concat qs = seq 0 n ≫= f.
Proof.
  intros <- Hf. assert (qs = f <$> seq 0 (length qs)) as Hqs.
  { apply list_eq. intros i. rewrite list_lookup_fmap.
    destruct (decide (i < length qs)) as [Hi|Hi].
    - rewrite Hf by done. rewrite lookup_seq_lt by done. done.
    - rewrite !lookup_ge_None_2; [done|rewrite length_seq; lia|lia]. }
  rewrite Hqs at 1. clear. induction (seq 0 (length qs)) as [|i l IH]; [done|].
  csimpl. by rewrite IH.
Qed.

Lemma concat_replicate_nil n : concat (replicate n ([] : list (Job K Msg))) = [].
Proof. by induction n. Qed.

(** C8: A priority queue is a stable sort by priority.  Pushing any sequence of
    jobs whose priorities have a class into an empty queue succeeds, and popping
    the queue until it is empty returns the jobs of class 0 in the order they
    were pushed, then those of class 1, and so on. *)
Theorem priority_queue_stable_sort pm js :
  (∀ j, j ∈ js → pq_index (PriorityQueue_new pm : PriorityQueue) (job_key j) < N) →
  ∃ q, push_all js (PriorityQueue_new pm : PriorityQueue) = Some q ∧
    pop_n (length js) q = seq 0 N ≫= λ i, class_of (PriorityQueue_new pm : PriorityQueue) i js.
Proof.
  intros Ha. set (q0 := PriorityQueue_new pm : PriorityQueue) in *.
  assert (pq_wf q0) as Hwf0 by apply length_replicate.
  destruct (push_all_ok js q0 Hwf0 Ha) as (q & E & Hwf & Hl). exists q. split; [done|].
  destruct (push_all_classes _ _ _ E) as [_ Hc].
  assert (q_jobs q = seq 0 N ≫= λ i, class_of q0 i js) as Hq.
  { apply concat_by_lookup; [done|]. intros i Hi.
    rewrite Hc. simpl. by rewrite lookup_replicate_2. }
  rewrite <-Hq. apply pop_n_all; [done|]. rewrite Hl.
  simpl. rewrite concat_replicate_nil. simpl. lia.
Qed.

Lemma reverse_seq_split_at n idx1 i idx2 :
  reverse (seq 0 n) = idx1 ++ i :: idx2 → i < n ∧ ∀ i', i < i' → i' < n → i' ∈ idx1.
Proof.
  intros E. apply (f_equal reverse) in E.
  rewrite reverse_involutive, reverse_app, reverse_cons, <-app_assoc in E. simpl in E.
  destruct (seq_split_at _ _ _ _ E) as [Hr Hn]. split; [done|]. intros i' Hlt Hn'.
  assert (i' ∈ seq 0 n) as Hi' by (apply elem_of_seq; lia).
  rewrite E, Hr, elem_of_app, elem_of_cons, elem_of_reverse, elem_of_seq in Hi'.
  destruct Hi' as [?|[?|?]]; [lia|lia|done].
Qed.

(** A priority queue sheds the least important job.  After any pushes whose
    priorities have a class, the job [discard_oldest] gives up is the first one
    pushed of its class, and no job pushed is of a less important class. *)
Theorem priority_queue_sheds_least pm js q j q' :
  (∀ j, j ∈ js → pq_index (PriorityQueue_new pm : PriorityQueue) (job_key j) < N) →
  push_all js (PriorityQueue_new pm : PriorityQueue) = Some q →
  q_discard_oldest q = (Some j, q') →
  let index x := pq_index (PriorityQueue_new pm : PriorityQueue) (job_key x) in
  head (class_of (PriorityQueue_new pm : PriorityQueue) (index j) js) = Some j ∧
  ∀ j', j' ∈ js → index j' ≤ index j.
Proof.
  intros Ha E Ed index. set (q0 := PriorityQueue_new pm : PriorityQueue) in *.
  destruct (push_all_classes _ _ _ E) as [_ Hc].
  assert (∀ i, i < N → queues q !! i = Some (class_of q0 i js)) as Hq.
  { intros i Hi. rewrite Hc. simpl. by rewrite lookup_replicate_2. }
  simpl in Ed. unfold pq_discard_oldest in Ed.
  destruct (pop_scan _ _) as [o qs'] eqn:Es. injection Ed as -> <-.
  destruct (pop_scan_some _ _ _ _ Es) as (idx1 & i & idx2 & rest & Hidx & Hi & _ & He).
  destruct (reverse_seq_split_at _ _ _ _ Hidx) as [Hn Hgt].
  rewrite Hq in Hi by done. injection Hi as Hi.
  assert (j ∈ class_of q0 i js) as Hj by (rewrite Hi; set_solver).
  unfold class_of in Hj. apply list_elem_of_filter in Hj as [Hji Hj].
  unfold index at 1. rewrite Hji, Hi. split; [done|]. intros j' Hj'. unfold index.
  rewrite Hji. apply Nat.nlt_ge. intros Hlt. specialize (Hgt _ Hlt (Ha j' Hj')).
  pose proof (He _ Hgt _ (Hq _ (Ha j' Hj'))) as Hnil.
  assert (j' ∈ class_of q0 (pq_index q0 (job_key j')) js) as Hin
    by (unfold class_of; by apply list_elem_of_filter).
  rewrite Hnil in Hin. set_solver.
Qed.

End priority_facts.

(** ** Witnesses *)

(** Even keys are [High], odd keys have no priority of their own. *)
Definition sample_manager : PriorityManager nat StandardPriority :=
  mkPriorityManager (λ _, true) (λ k, if Nat.even k then Some High else None).

Definition sample_jobs : list (Job nat nat) := [sample_job 1 10; sample_job 2 20; sample_job 3 30].

Lemma priority_queue_stable_sort_witness :
  ∃ q, push_all sample_jobs (PriorityQueue_new sample_manager : PriorityQueue nat nat StandardPriority 5) = Some q ∧
    pop_n (length sample_jobs) q =
      seq 0 5 ≫= λ i, class_of (PriorityQueue_new sample_manager : PriorityQueue nat nat StandardPriority 5) i sample_jobs.
Proof.
  apply priority_queue_stable_sort. intros j Hj.
  unfold pq_index. simpl. destruct (Nat.even _); simpl; lia.
Defined.

Lemma priority_queue_sheds_least_witness :
  let q0 : PriorityQueue nat nat StandardPriority 5 := PriorityQueue_new sample_manager in
  head (class_of q0 (pq_index q0 1) sample_jobs) = Some (sample_job 1 10) ∧
  ∀ j', j' ∈ sample_jobs → pq_index q0 (job_key j') ≤ pq_index q0 1.
Proof.
  apply (priority_queue_sheds_least (N := 5) sample_manager sample_jobs
    (mkPriorityQueue [[]; [sample_job 2 20]; []; [sample_job 1 10; sample_job 3 30]; []] sample_manager)
    (sample_job 1 10)
    (mkPriorityQueue [[]; [sample_job 2 20]; []; [sample_job 3 30]; []] sample_manager)).
  - intros j Hj. unfold pq_index. simpl. destruct (Nat.even _); simpl; lia.
  - reflexivity.
  - reflexivity.
Defined.
