(* ===== verification/Routing.v ===== *)
(** Job routing (src/ractor/src/factory/routing.rs, hash.rs).

    [Router] is the trait as a class of operations, [RouterLaws] what the factory
    relies on; the five routers of the crate are instances of both. *)

From S2P Require Import Prelude Discard Job Worker.

(** [enum RouteResult] *)
Inductive RouteResult (K Msg : Type) :=
| Handled
| Backlog (job : Job K Msg)
| RateLimited (job : Job K Msg).
Arguments Handled {K Msg}.
Arguments Backlog {K Msg}.
Arguments RateLimited {K Msg}.

(** ** [trait Router] *)
Class Router (K Msg : Type) `{Countable K} (R : Type) := {
  route_message : Job K Msg → nat → option WorkerId →
    M ((R * gmap WorkerId (WorkerProperties K Msg)) * World K Msg) (RouteResult K Msg);
  choose_target_worker : Job K Msg → nat → option WorkerId →
    gmap WorkerId (WorkerProperties K Msg) → R → option WorkerId * R;
  is_factory_queueing : R → bool;
  on_worker_availability_change : WorkerId → bool → R → R
}.

(** The hash of a key, [DefaultHasher] run on it: a 64-bit number. *)
Class KeyHash (K : Type) := key_hash : K → N.

(** [hash_with_max] *)
Definition hash_with_max `{KeyHash K} (key : K) (excluded_max : nat) : nat :=
  N.to_nat (key_hash key mod N.of_nat excluded_max).

Lemma hash_with_max_lt `{KeyHash K} (key : K) n : 0 < n → hash_with_max key n < n.
Proof.
  intros Hn. unfold hash_with_max.
  pose proof (N.mod_lt (key_hash key) (N.of_nat n) ltac:(lia)). lia.
Qed.

Section routing.
Context {K Msg : Type} `{Countable K} `{!HashMapIter (WorkerProperties K Msg)}.
Abbreviation World := (World K Msg).
Abbreviation Job := (Job K Msg).
Abbreviation Worker := (WorkerProperties K Msg).
Abbreviation Pool := (gmap WorkerId Worker).

(** Run an operation of a worker that is in the pool. *)
Definition on_worker {R A} (i : WorkerId) (k : Worker) (m : M (Worker * World) A)
    : M ((R * Pool) * World) A :=
  λ s, let '(r, (k', w')) := m (k, s.2) in (r, ((s.1.1, <[i := k']> s.1.2), w')).

(** The body of [route_message] shared by all routers that are not rate limited. *)
Definition route_chosen {R} (choose : Job → nat → option WorkerId → Pool → R → option WorkerId * R)
    (job : Job) (pool_size : nat) (hint : option WorkerId)
    : M ((R * Pool) * World) (RouteResult K Msg) :=
  s ← get;
  let '(o, r') := choose job pool_size hint s.1.2 s.1.1 in
  modify (λ s, ((r', s.1.2), s.2)) ;;
  match o with
  | Some i =>
      match s.1.2 !! i with
      | Some k => on_worker i k (enqueue_job job) ;; mret Handled
      | None => mret (Backlog job)
      end
  | None => mret (Backlog job)
  end.

(** ** Key-persistent routing *)
Inductive KeyPersistentRouting := mkKeyPersistent.

Definition kp_choose `{KeyHash K} (job : Job) (pool_size : nat) (hint : option WorkerId)
    (pool : Pool) (r : KeyPersistentRouting) : option WorkerId * KeyPersistentRouting :=
  match hm_find (has_pending_key (job_key job)) pool with
  | Some i => (Some i, r)
  | None =>
      let target :=
        match hint with
        | Some h =>
            if bool_decide (is_Some (pool !! h)) then Some h
            else if bool_decide (pool_size = 0) then None
            else Some (hash_with_max (job_key job) pool_size)
        | None =>
            if bool_decide (pool_size = 0) then None
            else Some (hash_with_max (job_key job) pool_size)
        end in
      match target with
      | Some i => (if bool_decide (is_Some (pool !! i)) then Some i else None, r)
      | None => (None, r)
      end
  end.

#[global] Instance KeyPersistent_Router `{KeyHash K} : Router K Msg KeyPersistentRouting := {|
  route_message := route_chosen kp_choose;
  choose_target_worker := kp_choose;
  is_factory_queueing _ := false;
  on_worker_availability_change _ _ r := r
|}.

(** ** Queuer routing *)
Record QueuerRouting := mkQueuer {
  available_workers : list WorkerId;
  worker_in_queue : list bool
}.

Definition hint_available (hint : option WorkerId) (pool : Pool) : bool :=
  match hint ≫= (λ i, pool !! i) with
  | Some k => is_available k
  | None => false
  end.

(** The loop that pops the deque, skipping stale entries; [Vec] indexing is
    guarded by the length test in the source. *)
Fixpoint pop_available (pool : Pool) (avail : list WorkerId) (flags : list bool)
    : option WorkerId * QueuerRouting :=
  match avail with
  | [] => (None, mkQueuer [] flags)
  | i :: avail =>
      let flags := if bool_decide (i < length flags) then <[i := false]> flags else flags in
      match pool !! i with
      | Some k => if is_available k then (Some i, mkQueuer avail flags)
                  else pop_available pool avail flags
      | None => pop_available pool avail flags
      end
  end.

Definition queuer_choose (job : Job) (pool_size : nat) (hint : option WorkerId)
    (pool : Pool) (r : QueuerRouting) : option WorkerId * QueuerRouting :=
  if hint_available hint pool then (hint, r)
  else pop_available pool (available_workers r) (worker_in_queue r).

(** [Vec::resize] to [i + 1], only ever growing. *)
Definition grow_flags (i : nat) (flags : list bool) : list bool :=
  if bool_decide (length flags ≤ i) then resize (i + 1) false flags else flags.

Definition queuer_availability (i : WorkerId) (available : bool) (r : QueuerRouting) : QueuerRouting :=
  let flags := grow_flags i (worker_in_queue r) in
  if available then
    if default false (flags !! i) then mkQueuer (available_workers r) flags
    else mkQueuer (available_workers r ++ [i]) (<[i := true]> flags)
  else mkQueuer (available_workers r) (<[i := false]> flags).

#[global] Instance Queuer_Router : Router K Msg QueuerRouting := {|
  route_message := route_chosen queuer_choose;
  choose_target_worker := queuer_choose;
  is_factory_queueing _ := true;
  on_worker_availability_change := queuer_availability
|}.

(** ** Sticky queuer routing: the same fields, in a type of its own *)
Record StickyQueuerRouting := mkSticky { sticky_queue : QueuerRouting }.

Definition sticky_choose (job : Job) (pool_size : nat) (hint : option WorkerId)
    (pool : Pool) (r : StickyQueuerRouting) : option WorkerId * StickyQueuerRouting :=
  let hint_sticky :=
    match hint ≫= (λ i, pool !! i) with
    | Some k => is_processing_key (job_key job) k
    | None => false
    end in
  if hint_sticky then (hint, r)
  else match hm_find (is_processing_key (job_key job)) pool with
  | Some i => (Some i, r)
  | None =>
      if hint_available hint pool then (hint, r)
      else
        let '(o, q) := pop_available pool (available_workers (sticky_queue r))
                         (worker_in_queue (sticky_queue r)) in
        (o, mkSticky q)
  end.

#[global] Instance Sticky_Router : Router K Msg StickyQueuerRouting := {|
  route_message := route_chosen sticky_choose;
  choose_target_worker := sticky_choose;
  is_factory_queueing _ := true;
  on_worker_availability_change i b r := mkSticky (queuer_availability i b (sticky_queue r))
|}.

(** ** Round-robin routing *)
Record RoundRobinRouting := mkRoundRobin { last_worker : WorkerId }.

(** [let mut key = self.last_worker + 1; if key >= pool_size { key = 0; }] *)
Definition rr_next (pool_size : nat) (r : RoundRobinRouting) : WorkerId :=
  let key := last_worker r + 1 in
  if bool_decide (pool_size ≤ key) then 0 else key.

Definition rr_choose (job : Job) (pool_size : nat) (hint : option WorkerId)
    (pool : Pool) (r : RoundRobinRouting) : option WorkerId * RoundRobinRouting :=
  if bool_decide (pool_size = 0) then (None, r)
  else if hint_available hint pool then (hint, r)
  else
    let key := rr_next pool_size r in
    (if bool_decide (is_Some (pool !! key)) then Some key else None, mkRoundRobin key).

#[global] Instance RoundRobin_Router : Router K Msg RoundRobinRouting := {|
  route_message := route_chosen rr_choose;
  choose_target_worker := rr_choose;
  is_factory_queueing _ := false;
  on_worker_availability_change _ _ r := r
|}.

(** ** Custom routing, over a user-provided hash function *)
Record CustomRouting := mkCustom { hasher : K → nat → nat }.

Definition custom_choose (job : Job) (pool_size : nat) (hint : option WorkerId)
    (pool : Pool) (r : CustomRouting) : option WorkerId * CustomRouting :=
  if bool_decide (pool_size = 0) then (None, r)
  else
    let key := hasher r (job_key job) pool_size mod pool_size in
    (if bool_decide (is_Some (pool !! key)) then Some key else None, r).

#[global] Instance Custom_Router : Router K Msg CustomRouting := {|
  route_message := route_chosen custom_choose;
  choose_target_worker := custom_choose;
  is_factory_queueing _ := false;
  on_worker_availability_change _ _ r := r
|}.
End routing.
Arguments CustomRouting : clear implicits.

(** ** What the factory relies on *)

Section laws.
Context {K Msg : Type} `{Countable K}.
Abbreviation World := (World K Msg).
Abbreviation Job := (Job K Msg).
Abbreviation Worker := (WorkerProperties K Msg).
Abbreviation Pool := (gmap WorkerId Worker).

(** Every worker of the pool satisfies the invariant of a worker. *)
Definition pool_inv (pool : Pool) : Prop := ∀ i k, pool !! i = Some k → worker_inv k.

(** The workers [0 .. n-1] are all in the pool. *)
Definition pool_complete (n : nat) (pool : Pool) : Prop := ∀ i, i < n → is_Some (pool !! i).

(** The effect of routing a job: it was given to one worker of the pool, or it
    is handed back and nothing changed. *)
Definition route_effect (job : Job) (pool : Pool) (w : World) (out : RouteResult K Msg)
    (pool' : Pool) (w' : World) : Prop :=
  match out with
  | Handled => ∃ i k k' w0, pool !! i = Some k ∧ pool' = <[i := k']> pool ∧ quiet w w0 ∧
      enqueue_job job (k, w0) = (Ok tt, (k', w')) ∧ op_ok k w0 [job] k' w' ∧ role k' = role k
  | Backlog j | RateLimited j => j = job ∧ pool' = pool ∧ quiet w w'
  end.
End laws.

Class RouterLaws (K Msg : Type) `{Countable K} (R : Type) `{!Router K Msg R} := {
  (** Routing never fails. *)
  route_law job n hint r pool w : pool_inv pool →
    ∃ out r' pool' w', route_message job n hint ((r, pool), w) = (Ok out, ((r', pool'), w')) ∧
      route_effect job pool w out pool' w';
  (** A job routed with the worker just chosen for it as a hint is never handed
      back as backlog. *)
  choose_route_law job n hint r pool w i r' : pool_complete n pool →
    choose_target_worker job n hint pool r = (Some i, r') →
    ∀ j s, route_message job n (Some i) ((r', pool), w) ≠ (Ok (Backlog j), s)
}.

Section instances.
Context {K Msg : Type} `{Countable K} `{!HashMapIter (WorkerProperties K Msg)}.
Abbreviation World := (World K Msg).
Abbreviation Job := (Job K Msg).
Abbreviation Worker := (WorkerProperties K Msg).
Abbreviation Pool := (gmap WorkerId Worker).
Implicit Types (pool : Pool) (job : Job) (w : World).

Lemma route_chosen_law {R} (choose : Job → nat → option WorkerId → Pool → R → option WorkerId * R)
    job n hint r pool w :
  pool_inv pool →
  ∃ out r' pool' w', route_chosen choose job n hint ((r, pool), w) = (Ok out, ((r', pool'), w')) ∧
    route_effect job pool w out pool' w'.
Proof.
  intros Hp. unfold route_chosen. erewrite bind_ok by done. simpl.
  destruct (choose job n hint pool r) as [[i|] r'].
  2:{ exists (Backlog job), r', pool, w. split; [done|]. by repeat split; apply quiet_same_log. }
  rewrite bind_modify. simpl. destruct (pool !! i) as [k|] eqn:Hi.
  2:{ exists (Backlog job), r', pool, w. split; [done|]. by repeat split; apply quiet_same_log. }
  destruct (enqueue_job_ok job k w (Hp _ _ Hi)) as (k' & w' & E & Hok & Hr).
  exists Handled, r', (<[i := k']> pool), w'. split.
  - erewrite bind_ok; [done|]. unfold on_worker. simpl. by rewrite E.
  - exists i, k, k', w. do 2 (split; [done|]). split; [by apply quiet_same_log|done].
Qed.

(** When the router, asked again, chooses a worker of the pool, there is no backlog. *)
Lemma route_chosen_no_backlog {R} (choose : Job → nat → option WorkerId → Pool → R → option WorkerId * R)
    job n hint r pool w i r' j s :
  choose job n hint pool r = (Some i, r') → is_Some (pool !! i) →
  route_chosen choose job n hint ((r, pool), w) ≠ (Ok (Backlog j), s).
Proof.
  intros Hc [k Hk]. unfold route_chosen. erewrite bind_ok by done. simpl. rewrite Hc.
  rewrite bind_modify. simpl. rewrite Hk. unfold mbind, M_bind, on_worker. simpl.
  by destruct (enqueue_job job (k, w)) as [[] []].
Qed.

Lemma hint_available_in_pool hint pool :
  hint_available hint pool = true → ∃ i k, hint = Some i ∧ pool !! i = Some k ∧ is_available k = true.
Proof.
  unfold hint_available. destruct hint as [i|]; simpl; [|done].
  destruct (pool !! i) as [k|] eqn:E; [|done]. eauto.
Qed.

Lemma hint_available_intro i k pool :
  pool !! i = Some k → is_available k = true → hint_available (Some i) pool = true.
Proof. unfold hint_available. simpl. by intros ->. Qed.

Lemma pop_available_some pool avail flags i r :
  pop_available pool avail flags = (Some i, r) → ∃ k, pool !! i = Some k ∧ is_available k = true.
Proof.
  revert flags. induction avail as [|x avail IH]; intros flags; simpl; [done|].
  destruct (pool !! x) as [k|] eqn:E; [|by apply IH].
  destruct (is_available k) eqn:Ea; [|by apply IH]. intros [= <- _]. eauto.
Qed.

#[global] Program Instance KeyPersistent_laws `{KeyHash K} : RouterLaws K Msg KeyPersistentRouting.
Next Obligation. intros. by apply route_chosen_law. Qed.
Next Obligation.
  intros Hh job n hint r pool w i r' Hc E j s. simpl in *.
  assert (is_Some (pool !! i)) as Hi.
  { unfold kp_choose in E. destruct (hm_find _ _) as [i'|] eqn:Ef.
    - apply hm_find_some in Ef as (k & Hk & _). by simplify_eq.
    - repeat case_match; simplify_eq; by case_bool_decide; simplify_eq. }
  destruct (kp_choose job n (Some i) pool r') as [o r''] eqn:E2.
  assert (∃ i', o = Some i' ∧ is_Some (pool !! i')) as (i' & -> & Hi').
  { unfold kp_choose in E2. destruct (hm_find _ _) as [i'|] eqn:Ef.
    - apply hm_find_some in Ef as (k & Hk & _). simplify_eq. eauto.
    - rewrite !bool_decide_eq_true_2 in E2 by done. simplify_eq. eauto. }
  by eapply route_chosen_no_backlog.
Qed.

#[global] Program Instance Queuer_laws : RouterLaws K Msg QueuerRouting.
Next Obligation. intros. by apply route_chosen_law. Qed.
Next Obligation.
  intros job n hint r pool w i r' Hc E j s. simpl in *.
  assert (∃ k, pool !! i = Some k ∧ is_available k = true) as (k & Hk & Ha).
  { unfold queuer_choose in E. destruct (hint_available hint pool) eqn:Eh.
    - apply hint_available_in_pool in Eh as (? & k & ? & ? & ?). simplify_eq. eauto.
    - by eapply pop_available_some. }
  eapply route_chosen_no_backlog; [|by exists k]. unfold queuer_choose.
  by rewrite (hint_available_intro i k).
Qed.

Lemma sticky_choose_some job n hint pool r i r' :
  sticky_choose job n hint pool r = (Some i, r') →
  ∃ k, pool !! i = Some k ∧ (is_processing_key (job_key job) k = true ∨ is_available k = true).
Proof.
  unfold sticky_choose. intros E.
  destruct (match hint ≫= _ with Some _ => _ | None => _ end) eqn:Es.
  { destruct hint as [h|]; simpl in *; [|done]. simplify_eq.
    destruct (pool !! i) as [k|]; [|done]. eauto. }
  destruct (hm_find _ _) as [i'|] eqn:Ef.
  { apply hm_find_some in Ef as (k & Hk & Hp). simplify_eq. eauto. }
  destruct (hint_available hint pool) eqn:Eh.
  { apply hint_available_in_pool in Eh as (? & k & ? & ? & ?). simplify_eq. eauto. }
  destruct (pop_available _ _ _) as [o q] eqn:Ep. simplify_eq.
  apply pop_available_some in Ep as (k & ? & ?). eauto.
Qed.

#[global] Program Instance Sticky_laws : RouterLaws K Msg StickyQueuerRouting.
Next Obligation. intros. by apply route_chosen_law. Qed.
Next Obligation.
  intros job n hint r pool w i r' Hc E j s. simpl in *.
  apply sticky_choose_some in E as (k & Hk & Hor).
  destruct (sticky_choose job n (Some i) pool r') as [o r''] eqn:E2.
  assert (∃ i', o = Some i' ∧ is_Some (pool !! i')) as (i' & -> & Hi').
  { unfold sticky_choose in E2. simpl in E2. rewrite Hk in E2.
    destruct (is_processing_key _ k) eqn:Ep; [simplify_eq; eauto|].
    destruct (hm_find _ _) as [i'|] eqn:Ef.
    - apply hm_find_some in Ef as (k' & Hk' & _). simplify_eq. eauto.
    - rewrite (hint_available_intro i k) in E2; [simplify_eq; eauto|done|by destruct Hor]. }
  by eapply route_chosen_no_backlog.
Qed.

Lemma rr_next_lt n r : n ≠ 0 → rr_next n r < n.
Proof. intros Hn. unfold rr_next. case_bool_decide; lia. Qed.

#[global] Program Instance RoundRobin_laws : RouterLaws K Msg RoundRobinRouting.
Next Obligation. intros. by apply route_chosen_law. Qed.
Next Obligation.
  intros job n hint r pool w i r' Hc E j s. simpl in *.
  destruct (rr_choose job n (Some i) pool r') as [o r''] eqn:E2.
  assert (∃ i', o = Some i' ∧ is_Some (pool !! i')) as (i' & -> & Hi').
  { unfold rr_choose in E. case_bool_decide as Hn; [done|].
    unfold rr_choose in E2. rewrite bool_decide_eq_false_2 in E2 by done.
    destruct (hint_available (Some i) pool) eqn:Eh.
    - apply hint_available_in_pool in Eh as (? & k & ? & ? & ?). simplify_eq. eauto.
    - assert (is_Some (pool !! rr_next n r')) as Hin by by apply Hc, rr_next_lt.
      rewrite bool_decide_eq_true_2 in E2 by done. simplify_eq. eauto. }
  by eapply route_chosen_no_backlog.
Qed.

#[global] Program Instance Custom_laws : RouterLaws K Msg (CustomRouting K).
Next Obligation. intros. by apply route_chosen_law. Qed.
Next Obligation.
  intros job n hint r pool w i r' Hc E j s. simpl in *.
  unfold custom_choose in E. case_bool_decide as Hn; [done|].
  case_bool_decide as Hi; simplify_eq.
  eapply route_chosen_no_backlog; [|exact Hi].
  unfold custom_choose. by rewrite bool_decide_eq_false_2, bool_decide_eq_true_2.
Qed.
End instances.

(** ** Properties of the routers *)

Section properties.
Context {K Msg : Type} `{Countable K} `{!HashMapIter (WorkerProperties K Msg)}.
Abbreviation World := (World K Msg).
Abbreviation Job := (Job K Msg).
Abbreviation Worker := (WorkerProperties K Msg).
Abbreviation Pool := (gmap WorkerId Worker).
Implicit Types (pool : Pool) (job : Job) (w : World).

(** *** Key affinity *)

(** What can happen to a pool whose jobs are routed by key: a job is routed with
    any pool size and hint, any other operation is performed on a worker, a
    worker is added, a worker is removed. *)
Inductive kp_step `{KeyHash K} : Pool * World → Pool * World → Prop :=
| kp_route job n hint r pool w out r' pool' w' :
    route_message job n hint ((r : KeyPersistentRouting, pool), w) = (Ok out, ((r', pool'), w')) →
    kp_step (pool, w) (pool', w')
| kp_call i k c pool w k' w' :
    pool !! i = Some k → call_jobs c = [] → run_call c (k, w) = (Ok tt, (k', w')) →
    kp_step (pool, w) (<[i := k']> pool, w')
| kp_add i name a d h jh st pool w :
    pool !! i = None → kp_step (pool, w) (<[i := Worker_new name i a d h jh st]> pool, w)
| kp_remove i pool w : kp_step (pool, w) (delete i pool, w).

(** No key is pending on two workers. *)
Definition affine pool : Prop :=
  ∀ key i j ki kj, pool !! i = Some ki → pool !! j = Some kj →
    has_pending_key key ki → has_pending_key key kj → i = j.

Lemma affine_update pool i k' :
  affine pool →
  (∀ key, has_pending_key key k' → ∀ j kj, pool !! j = Some kj → has_pending_key key kj → j = i) →
  affine (<[i := k']> pool).
Proof.
  intros Ha Hi key x y kx ky Hx Hy Px Py.
  destruct (decide (x = i)) as [->|], (decide (y = i)) as [->|]; [done|..];
    rewrite ?lookup_insert_eq in *; rewrite ?lookup_insert_ne in * by done; simplify_eq.
  - symmetry. by eapply Hi.
  - by eapply Hi.
  - by eapply Ha.
Qed.

Lemma pool_inv_update pool i k' : pool_inv pool → worker_inv k' → pool_inv (<[i := k']> pool).
Proof.
  intros Hp Hk x k. destruct (decide (x = i)) as [->|];
    rewrite ?lookup_insert_eq, ?lookup_insert_ne by done; [by intros [= <-]|apply Hp].
Qed.

Lemma kp_route_affine `{KeyHash K} job n hint r pool w out r' pool' w' :
  pool_inv pool → affine pool →
  route_message job n hint ((r : KeyPersistentRouting, pool), w) = (Ok out, ((r', pool'), w')) →
  pool_inv pool' ∧ affine pool'.
Proof.
  intros Hp Ha E. simpl in E. unfold route_chosen in E. erewrite bind_ok in E by done. simpl in E.
  destruct (kp_choose job n hint pool r) as [[i|] r1] eqn:Ec;
    rewrite bind_modify in E; simpl in E; [|by injection E as <- <- <-].
  destruct (pool !! i) as [k|] eqn:Hi; [|by injection E as <- <- <-].
  destruct (enqueue_job_ok job k w (Hp _ _ Hi)) as (k' & w1 & Ek & Hok & _).
  erewrite bind_ok in E by (unfold on_worker; simpl; by rewrite Ek).
  injection E as <- <- <-. split; [apply pool_inv_update; [done|apply Hok]|].
  apply affine_update; [done|]. intros key Hkey j kj Hj Pj.
  destruct (op_pending _ _ _ _ _ Hok key Hkey) as [Hk|Hk]; [by eapply Ha|].
  simpl in Hk. apply list_elem_of_singleton in Hk as ->.
  unfold kp_choose in Ec. destruct (hm_find _ pool) as [i'|] eqn:Ef.
  - injection Ec as ->. apply hm_find_some in Ef as (k2 & Hk2 & P2).
    eapply Ha; [exact Hj|exact Hk2|exact Pj|by rewrite P2].
  - by rewrite (hm_find_none _ _ _ _ Ef Hj) in Pj.
Qed.

Lemma kp_step_affine `{KeyHash K} s s' :
  kp_step s s' → pool_inv s.1 → affine s.1 → pool_inv s'.1 ∧ affine s'.1.
Proof.
  intros Hs Hp Ha. destruct Hs as [job n hint r pool w out r' pool' w' E|
    i k c pool w k' w' Hi Hc E|i name a d h jh st pool w Hi|i pool w]; simpl in *.
  - by eapply kp_route_affine.
  - destruct (run_call_ok c k w (Hp _ _ Hi)) as (k1 & w1 & E1 & Hok). rewrite E in E1. simplify_eq.
    split; [apply pool_inv_update; [done|apply Hok]|]. apply affine_update; [done|].
    intros key Hkey j kj Hj Pj. destruct (op_pending _ _ _ _ _ Hok key Hkey) as [Hk|Hk].
    + by eapply Ha.
    + rewrite Hc in Hk. set_solver.
  - split; [apply pool_inv_update; [done|apply worker_new_inv]|]. apply affine_update; [done|].
    intros key Hkey. unfold has_pending_key in Hkey. simpl in Hkey. by rewrite lookup_empty in Hkey.
  - split.
    + intros x k Hx. apply lookup_delete_Some in Hx as [_ Hx]. by eapply Hp.
    + intros key x y kx ky Hx Hy. apply lookup_delete_Some in Hx as [_ Hx], Hy as [_ Hy].
      by eapply Ha.
Qed.

(** C9: Key-persistent routing keeps the jobs of a key together.  In every pool
    reachable by routing jobs (with any hint and while the pool is resized),
    completing them, replacing, adding and removing workers, no key has queued or
    running jobs on two different workers. *)
Theorem key_persistent_affinity `{KeyHash K} w pool w' key i j ki kj :
  rtc kp_step (∅, w) (pool, w') →
  pool !! i = Some ki → pool !! j = Some kj →
  has_pending_key key ki = true → has_pending_key key kj = true → i = j.
Proof.
  intros Hr Hi Hj Pi Pj.
  assert (∀ s s' : Pool * World, rtc kp_step s s' → pool_inv s.1 → affine s.1 → affine s'.1) as Hinv.
  { clear. intros s s' Hr. induction Hr as [|s1 s2 s3 Hs _ IH]; intros Hp Ha; [done|].
    destruct (kp_step_affine _ _ Hs Hp Ha). by apply IH. }
  eapply (Hinv _ _ Hr); [by intros ? ?|by intros ? ? ? ? ?|exact Hi|exact Hj| |].
  all: by apply Is_true_true.
Qed.

(** *** Round robin *)

(** The workers chosen for a sequence of jobs routed without a hint. *)
Fixpoint rr_choices (jobs : list Job) (n : nat) pool (r : RoundRobinRouting) : list (option WorkerId) :=
  match jobs with
  | [] => []
  | job :: jobs =>
      let '(o, r') := rr_choose job n None pool r in o :: rr_choices jobs n pool r'
  end.

(** Round-robin routing is fair.  On a complete pool of [n] workers, the
    [m]-th job routed after worker [l] goes to worker [(l + 1 + m) mod n]: every
    run of [n] consecutive jobs uses each worker exactly once. *)
Theorem round_robin_fair (jobs : list Job) n pool r m :
  pool_complete n pool → last_worker r < n → m < length jobs →
  rr_choices jobs n pool r !! m = Some (Some ((last_worker r + 1 + m) mod n)).
Proof.
  intros Hc. revert r m. induction jobs as [|job jobs IH]; intros r m Hl Hm; simpl in *; [lia|].
  unfold rr_choose. rewrite bool_decide_eq_false_2 by lia. simpl.
  assert (rr_next n r < n) as Hn by (apply rr_next_lt; lia).
  rewrite bool_decide_eq_true_2 by by apply Hc.
  assert (rr_next n r = (last_worker r + 1) mod n) as Hnext.
  { unfold rr_next. case_bool_decide; [|by rewrite Nat.mod_small by lia].
    replace (last_worker r + 1) with n by lia. by rewrite Nat.Div0.mod_same. }
  destruct m as [|m]; simpl; [by rewrite Nat.add_0_r, Hnext|].
  rewrite IH; [|simpl; lia..]. simpl. do 2 f_equal. rewrite Hnext.
  rewrite <-Nat.add_assoc, Nat.Div0.add_mod_idemp_l. f_equal; lia.
Qed.

End properties.

(** ** Witnesses *)

#[local] Instance sample_iter : HashMapIter (WorkerProperties nat nat) := map_to_list_iter _.
#[local] Instance sample_hash : KeyHash nat := N.of_nat.

Definition sample_worker (i : nat) : WorkerProperties nat nat :=
  Worker_new "f" i (100 + i) WNone None (100 + i) None.

Definition sample_pool : gmap nat (WorkerProperties nat nat) :=
  {[0 := sample_worker 0; 1 := sample_worker 1]}.

(** Two workers are added and a job of key 7 is routed. *)
Definition sample_routed : gmap nat (WorkerProperties nat nat) * World nat nat :=
  let s := (route_message (sample_job 7 70) 2 None ((mkKeyPersistent, sample_pool), sample_world)).2 in
  (s.1.2, s.2).

Definition sample_routed_worker : WorkerProperties nat nat :=
  default (sample_worker 1) (sample_routed.1 !! 1).

Lemma key_persistent_affinity_witness :
  sample_routed.1 !! 1 = Some sample_routed_worker ∧ has_pending_key 7 sample_routed_worker = true ∧
  1 = 1.
Proof.
  assert (sample_routed.1 !! 1 = Some sample_routed_worker) as Hl by (vm_compute; reflexivity).
  assert (has_pending_key 7 sample_routed_worker = true) as Hk by (vm_compute; reflexivity).
  split; [exact Hl|]. split; [exact Hk|].
  apply (key_persistent_affinity sample_world sample_routed.1 sample_routed.2 7 1 1
    sample_routed_worker sample_routed_worker); [|exact Hl|exact Hl|exact Hk|exact Hk].
  eapply rtc_l; [eapply (kp_add 1 "f" 101 WNone None 101 None); apply lookup_empty|].
  eapply rtc_l; [eapply (kp_add 0 "f" 100 WNone None 100 None); by rewrite lookup_insert_ne, lookup_empty|].
  eapply rtc_once. eapply (kp_route (sample_job 7 70) 2 None mkKeyPersistent). vm_compute. reflexivity.
Defined.

Lemma round_robin_fair_witness :
  rr_choices [sample_job 1 10; sample_job 2 20; sample_job 3 30] 2 sample_pool (mkRoundRobin 0) !! 2 =
  Some (Some ((0 + 1 + 2) mod 2)).
Proof.
  apply (round_robin_fair [sample_job 1 10; sample_job 2 20; sample_job 3 30] 2 sample_pool (mkRoundRobin 0) 2).
  - intros i Hi. destruct i as [|[|]]; [by eexists|by eexists|lia].
  - simpl. lia.
  - simpl. lia.
Defined.
