(* ===== verification/RateLimit.v ===== *)
(** Rate limiting (src/ractor/src/factory/ratelim.rs): the leaky bucket and the
    router that wraps another router with a rate limiter.

    Balances are [usize] and durations nanoseconds; every saturating or checked
    operation of the source is written out. *)

From S2P Require Import Prelude Discard Job Worker Routing.

Local Open Scope Z_scope.

Definition MAX_LB_BALANCE : Z := isize_max.
Definition u32_max : Z := 2 ^ 32 - 1.
Definition u128_max : Z := 2 ^ 128 - 1.
Definition nanos_per_sec : Z := 1000000000.

(** [struct LeakyBucketRateLimiter] *)
Record LeakyBucket := mkBucket {
  refill : Z;
  interval : Duration;
  max_balance : Z;
  balance : Z;
  deadline : option Instant
}.

(** [Instant::checked_add]: the clock has a last representable instant. *)
Class InstantRange := instant_max : Z.

Definition checked_add `{InstantRange} (t : Instant) (d : Duration) : option Instant :=
  if bool_decide (t + d <= instant_max) then Some (t + d) else None.

Section bucket.
Context `{InstantRange}.
Implicit Types (b : LeakyBucket).

Definition LeakyBucket_new (now : Instant) (refill interval max : Z) (initial : option Z) : LeakyBucket :=
  mkBucket refill interval max (Z.min (default max initial) max) (checked_add now interval).

(** [usize::saturating_mul] *)
Definition usize_sat_mul (a b : Z) : Z := Z.min (a * b) usize_max.

(** The number of refill periods elapsed (saturating in [u128], then capped to
    [usize]) and the tokens they are worth. *)
Definition periods_since (since i : Z) : Z := Z.min (Z.min (since / i + 1) u128_max) usize_max.
Definition tokens_for (periods r : Z) : Z := Z.min (usize_sat_mul periods r) MAX_LB_BALANCE.

Definition refresh (now : Instant) b : LeakyBucket :=
  match deadline b with
  | None => b
  | Some d =>
      if bool_decide (now < d) then b
      else if bool_decide (interval b = 0) then
        mkBucket (refill b) (interval b) (max_balance b)
          (Z.min (usize_sat_add (balance b) (refill b)) (max_balance b)) (Some now)
      else
        let since_nanos := Z.max 0 (now - d) in
        let periods := periods_since since_nanos (interval b) in
        let tokens := tokens_for periods (refill b) in
        let nanos_since_last_period := since_nanos mod interval b in
        let seconds := Z.min (nanos_since_last_period / nanos_per_sec) u64_max in
        let subsec_nanos := Z.min (nanos_since_last_period mod nanos_per_sec) u32_max in
        mkBucket (refill b) (interval b) (max_balance b)
          (Z.min (usize_sat_add (balance b) tokens) (max_balance b))
          (checked_add now (Z.max 0 (interval b - (seconds * nanos_per_sec + subsec_nanos))))
  end.

(** [check] at a given reading of the clock. *)
Definition check_at (now : Instant) b : bool * LeakyBucket :=
  let b' := refresh now b in (bool_decide (0 < balance b'), b').

Definition bump b : LeakyBucket :=
  if bool_decide (0 < balance b) then
    mkBucket (refill b) (interval b) (max_balance b) (balance b - 1) (deadline b)
  else b.

(** The fields are machine integers and the balance is within the maximum.  The
    seconds of a [Duration] are 64-bit. *)
Record bucket_wf b : Prop := {
  wf_refill : 0 <= refill b <= usize_max;
  wf_interval : 0 <= interval b <= u64_max * nanos_per_sec;
  wf_balance : 0 <= balance b <= max_balance b;
  wf_max : max_balance b <= usize_max
}.

Lemma refresh_params now b :
  refill (refresh now b) = refill b ∧ interval (refresh now b) = interval b ∧
  max_balance (refresh now b) = max_balance b.
Proof. unfold refresh. by repeat case_match. Qed.

Lemma periods_since_bounds since i :
  0 <= since → 0 <= i → 0 <= periods_since since i <= since / i + 1.
Proof.
  intros Hs Hi. unfold periods_since, u128_max, usize_max.
  destruct (decide (i = 0)) as [->|]; [rewrite Z.div_0_r; lia|].
  pose proof (Z.div_pos since i). lia.
Qed.

Lemma tokens_for_bounds periods r : 0 <= periods → 0 <= r → 0 <= tokens_for periods r <= periods * r.
Proof. unfold tokens_for, usize_sat_mul, MAX_LB_BALANCE, isize_max, usize_max. nia. Qed.

Lemma credit_bounds bal tok m :
  0 <= bal <= m → 0 <= tok → 0 <= Z.min (usize_sat_add bal tok) m <= Z.min (bal + tok) m.
Proof. unfold usize_sat_add, usize_max. lia. Qed.

Lemma refresh_wf now b : bucket_wf b → bucket_wf (refresh now b).
Proof.
  intros [Hr Hi Hb Hm]. destruct (refresh_params now b) as (E1 & E2 & E3).
  split; rewrite ?E1, ?E2, ?E3; [done..| |done].
  unfold refresh. destruct (deadline b) as [d|]; [|done]. case_bool_decide; [done|].
  case_bool_decide; simpl.
  - pose proof (credit_bounds (balance b) (refill b) (max_balance b)). lia.
  - pose proof (periods_since_bounds (Z.max 0 (now - d)) (interval b) ltac:(lia) ltac:(lia)) as Hp.
    pose proof (tokens_for_bounds _ (refill b) (proj1 Hp) ltac:(lia)) as Ht.
    pose proof (credit_bounds (balance b) _ (max_balance b) Hb (proj1 Ht)). lia.
Qed.

Lemma bump_wf b : bucket_wf b → bucket_wf (bump b).
Proof.
  intros [Hr Hi Hb Hm]. unfold bump. case_bool_decide; [|by split].
  split; simpl; [done|done|lia|done].
Qed.

(** The deadline after a refill stays on the schedule of the old one. *)
Lemma refresh_deadline now b d :
  bucket_wf b → deadline b = Some d → d <= now → 0 < interval b →
  deadline (refresh now b) = checked_add d ((((now - d) / interval b) + 1) * interval b).
Proof.
  intros [Hr Hi Hb Hm] Hd Hle Hpos. unfold refresh. rewrite Hd.
  rewrite !bool_decide_eq_false_2 by lia. simpl.
  rewrite (Z.max_r 0 (now - d)) by lia. set (s := now - d).
  pose proof (Z.mod_pos_bound s (interval b) Hpos) as Hmod.
  set (r := s mod interval b) in *.
  assert (0 <= r / nanos_per_sec <= u64_max) as Hsec.
  { split; [apply Z.div_pos; [lia|unfold nanos_per_sec; lia]|].
    apply Z.lt_succ_r. apply Z.div_lt_upper_bound; unfold nanos_per_sec, u64_max in *; lia. }
  pose proof (Z.mod_pos_bound r nanos_per_sec ltac:(unfold nanos_per_sec; lia)) as Hsub.
  rewrite (Z.min_l (r / nanos_per_sec)) by lia.
  rewrite (Z.min_l (r mod nanos_per_sec)) by (unfold u32_max, nanos_per_sec in *; lia).
  pose proof (Z.div_mod r nanos_per_sec ltac:(unfold nanos_per_sec; lia)) as Hr0.
  pose proof (Z.div_mod s (interval b) ltac:(lia)) as Hs0. fold r in Hs0.
  unfold checked_add. rewrite Z.max_r by lia.
  replace (now + (interval b - (r / nanos_per_sec * nanos_per_sec + r mod nanos_per_sec)))
    with (d + (s / interval b + 1) * interval b) by (unfold s in *; lia).
  done.
Qed.

(** The tokens added by a refill, when the sum fits. *)
Lemma refresh_balance now b d :
  bucket_wf b → deadline b = Some d → d <= now → 0 < interval b →
  ((now - d) / interval b + 1) * refill b <= MAX_LB_BALANCE - balance b →
  (now - d) / interval b + 1 <= usize_max →
  balance (refresh now b) =
    Z.min (balance b + ((now - d) / interval b + 1) * refill b) (max_balance b).
Proof.
  intros [Hr Hi Hb Hm] Hd Hle Hpos Hfit Hper. unfold refresh. rewrite Hd.
  rewrite !bool_decide_eq_false_2 by lia. simpl. rewrite (Z.max_r 0 (now - d)) by lia.
  assert (0 <= (now - d) / interval b) by (apply Z.div_pos; lia).
  unfold periods_since. rewrite (Z.min_l _ u128_max) by (unfold u128_max, usize_max in *; lia).
  rewrite (Z.min_l _ usize_max) by lia.
  unfold tokens_for, usize_sat_mul, usize_sat_add, MAX_LB_BALANCE, isize_max, usize_max in *.
  rewrite (Z.min_l (_ * _)) by lia. rewrite (Z.min_l (_ * _)) by lia.
  rewrite (Z.min_l (balance b + _)) by lia. done.
Qed.

(** ** Histories of a limiter

    One event per routing attempt: the instant [check] read, and whether the
    wrapped router then handled the job.  The result is the number of jobs
    handled and the limiter. *)
Fixpoint run_limiter (evs : list (Instant * bool)) b : Z * LeakyBucket :=
  match evs with
  | [] => (0, b)
  | (now, handled) :: evs =>
      let '(ok, b1) := check_at now b in
      let hit := ok && handled in
      let '(n, b2) := run_limiter evs (if hit then bump b1 else b1) in
      ((if hit then 1 else 0) + n, b2)
  end.

(** After a history that started with balance [bal] and deadline [d] and handled
    [c] jobs, [n] refills were credited, the last one due by [T]. *)
Definition credited (bal d i r T : Z) b (c n : Z) : Prop :=
  bucket_wf b ∧ refill b = r ∧ interval b = i ∧ 0 <= n ∧
  (deadline b = Some (d + n * i) ∨ deadline b = None) ∧
  balance b + c <= bal + n * r ∧ (n = 0 ∨ d + (n - 1) * i <= T).

Lemma refresh_credited bal d i r T b c n now :
  0 < i → now <= T → credited bal d i r T b c n → ∃ n', credited bal d i r T (refresh now b) c n'.
Proof.
  intros Hi Hnow (Hwf & Er & Ei & Hn & Hd & Hb & Hlast).
  destruct (refresh_params now b) as (E1 & E2 & _). pose proof (refresh_wf now b Hwf) as Hwf'.
  destruct Hd as [Hd|Hd].
  2:{ exists n. assert (refresh now b = b) as -> by (unfold refresh; by rewrite Hd).
      split_and!; auto. }
  destruct (decide (now < d + n * i)) as [Hlt|Hge].
  { exists n. assert (refresh now b = b) as ->
      by (unfold refresh; rewrite Hd; by rewrite bool_decide_eq_true_2).
    split_and!; auto. }
  set (m := (now - (d + n * i)) / i).
  assert (0 <= m) as Hm by (apply Z.div_pos; lia).
  assert (m * i <= now - (d + n * i)) as Hmi by (unfold m; pose proof (Z.mul_div_le (now - (d + n * i)) i Hi); lia).
  exists (n + m + 1). split_and!; [done|congruence|congruence|lia| | |right; nia].
  - rewrite (refresh_deadline now b (d + n * i)); [|done|done|lia|lia].
    rewrite Ei. fold m. unfold checked_add. case_bool_decide; [left|by right]. f_equal. nia.
  - destruct Hwf as [Hr _ Hbal Hmax]. unfold refresh. rewrite Hd.
    rewrite !bool_decide_eq_false_2 by lia. simpl. rewrite (Z.max_r 0 (now - _)) by lia.
    pose proof (periods_since_bounds (now - (d + n * i)) i ltac:(lia) ltac:(lia)) as Hp.
    rewrite Ei, Er. fold m in Hp.
    pose proof (tokens_for_bounds _ r (proj1 Hp) ltac:(lia)) as Ht.
    pose proof (credit_bounds (balance b) _ (max_balance b) Hbal (proj1 Ht)) as Hc. nia.
Qed.

Lemma bump_credited bal d i r T b c n :
  0 < balance b → credited bal d i r T b c n → credited bal d i r T (bump b) (c + 1) n.
Proof.
  intros Hpos (Hwf & Er & Ei & Hn & Hd & Hb & Hlast). pose proof (bump_wf b Hwf).
  unfold bump in *. rewrite bool_decide_eq_true_2 in * by done.
  split_and!; simpl; auto. lia.
Qed.

Lemma run_limiter_credited bal d i r T evs b c n :
  0 < i → (∀ e, e ∈ evs → e.1 <= T) → credited bal d i r T b c n →
  ∃ n', credited bal d i r T (run_limiter evs b).2 (c + (run_limiter evs b).1) n'.
Proof.
  intros Hi. revert b c n. induction evs as [|[now handled] evs IH]; intros b c n HT Hc; simpl.
  { exists n. by rewrite Z.add_0_r. }
  destruct (refresh_credited bal d i r T b c n now Hi) as [n1 Hc1];
    [apply (HT (now, handled)); set_solver|done|].
  destruct (bool_decide (0 < balance (refresh now b)) && handled) eqn:Ehit.
  - apply andb_prop in Ehit as [Hpos _]. apply bool_decide_eq_true in Hpos.
    destruct (IH _ _ _ ltac:(set_solver) (bump_credited _ _ _ _ _ _ _ _ Hpos Hc1)) as [n2 Hc2].
    exists n2. destruct (run_limiter evs (bump (refresh now b))). simpl in *.
    by rewrite Z.add_assoc.
  - destruct (IH _ _ _ ltac:(set_solver) Hc1) as [n2 Hc2].
    exists n2. by destruct (run_limiter evs (refresh now b)).
Qed.

(** The leaky bucket bounds the rate.  Whatever the sequence of routing
    attempts, in whatever order the clock is read, the number of jobs handled by
    time [T] is at most the initial balance plus [refill] for each refill
    deadline that lies at or before [T]. *)
Theorem leaky_bucket_rate_bound b d evs T :
  bucket_wf b → 0 < interval b → deadline b = Some d → (∀ e, e ∈ evs → e.1 <= T) →
  (run_limiter evs b).1 <=
    balance b + refill b * (if bool_decide (T < d) then 0 else (T - d) / interval b + 1).
Proof.
  intros Hwf Hi Hd HT.
  destruct (run_limiter_credited (balance b) d (interval b) (refill b) T evs b 0 0 Hi HT)
    as [n (Hwf' & _ & _ & Hn & _ & Hb & Hlast)].
  { split_and!; [done|done|done|lia| |lia|by left]. left. rewrite Hd. f_equal. lia. }
  destruct Hwf as [Hr _ _ _], Hwf' as [_ _ Hb' _].
  assert (n <= if bool_decide (T < d) then 0 else (T - d) / interval b + 1) as Hle; [|nia].
  case_bool_decide; destruct Hlast as [->|Hlast]; [lia|nia|..].
  - assert (0 <= (T - d) / interval b) by (apply Z.div_pos; lia). lia.
  - assert (n - 1 <= (T - d) / interval b); [|lia]. apply Z.div_le_lower_bound; lia.
Qed.

(** A refill reopens the limiter and keeps its schedule.  At or after the
    deadline, a limiter with a positive refill and maximum admits a job; the next
    deadline is strictly in the future, at most one interval away, and a whole
    number of intervals after the old one. *)
Theorem leaky_bucket_refill b d now :
  bucket_wf b → 0 < refill b → 0 < max_balance b → 0 < interval b →
  deadline b = Some d → d <= now →
  (check_at now b).1 = true ∧
  ∀ d', deadline (check_at now b).2 = Some d' →
    now < d' <= now + interval b ∧ ∃ n, 0 < n ∧ d' = d + n * interval b.
Proof.
  intros Hwf Hr Hm Hi Hd Hle. simpl. split.
  - apply bool_decide_eq_true. destruct Hwf as [Hr' Hi' Hb Hmax]. unfold refresh. rewrite Hd.
    rewrite !bool_decide_eq_false_2 by lia. simpl.
    assert (1 <= periods_since (Z.max 0 (now - d)) (interval b)) as Hp.
    { unfold periods_since, u128_max, usize_max.
      pose proof (Z.div_pos (Z.max 0 (now - d)) (interval b)). lia. }
    unfold tokens_for, usize_sat_mul, usize_sat_add, MAX_LB_BALANCE, isize_max, usize_max in *. nia.
  - intros d'. rewrite (refresh_deadline now b d) by done.
    unfold checked_add. case_bool_decide; [|done]. intros [= <-].
    pose proof (Z.mul_div_le (now - d) (interval b) Hi).
    pose proof (Z.mul_succ_div_gt (now - d) (interval b) Hi).
    pose proof (Z.div_pos (now - d) (interval b) ltac:(lia) Hi).
    split; [nia|]. exists ((now - d) / interval b + 1). split; [lia|done].
Qed.

End bucket.

(** ** [trait RateLimiter] and [RateLimitedRouter] *)

Class RateLimiter (K Msg L : Type) := {
  rl_check : M (L * World K Msg) bool;
  rl_bump : L → L
}.

(** What the wrapping router relies on: checking does not fail. *)
Class RateLimiterLaws (K Msg L : Type) `{!RateLimiter K Msg L} := {
  rl_check_law l w : ∃ b l' w', rl_check (l, w) = (Ok b, (l', w')) ∧ quiet w w'
}.

#[global] Instance LeakyBucket_RateLimiter {K Msg} `{InstantRange} : RateLimiter K Msg LeakyBucket := {|
  rl_check :=
    now ← liftW instant_now;
    b ← gets fst;
    modify (λ s, ((check_at now b).2, s.2)) ;;
    mret (check_at now b).1;
  rl_bump := bump
|}.

#[global] Instance LeakyBucket_laws {K Msg} `{InstantRange} : RateLimiterLaws K Msg LeakyBucket.
Proof.
  split. intros l w. eexists _, _, _. split; [done|]. by apply quiet_same_log.
Qed.

(** [struct RateLimitedRouter] *)
Record RateLimitedRouter (R L : Type) := mkRateLimited { rl_router : R; rate_limiter : L }.
Arguments mkRateLimited {R L}.
Arguments rl_router {R L}.
Arguments rate_limiter {R L}.

Section rate_limited.
Context {K Msg : Type} `{Countable K} {R L : Type} `{!Router K Msg R} `{!RateLimiter K Msg L}.
Abbreviation World := (World K Msg).
Abbreviation Job := (Job K Msg).
Abbreviation Pool := (gmap WorkerId (WorkerProperties K Msg)).
Abbreviation RLR := (RateLimitedRouter R L).

(** Run the limiter, respectively the wrapped router, on its part of the state. *)
Definition on_limiter {A} (m : M (L * World) A) : M ((RLR * Pool) * World) A :=
  λ s, let '(a, (l, w)) := m (rate_limiter s.1.1, s.2) in
       (a, ((mkRateLimited (rl_router s.1.1) l, s.1.2), w)).
Definition on_router {A} (m : M ((R * Pool) * World) A) : M ((RLR * Pool) * World) A :=
  λ s, let '(a, ((r, p), w)) := m ((rl_router s.1.1, s.1.2), s.2) in
       (a, ((mkRateLimited r (rate_limiter s.1.1), p), w)).

Definition rl_route_message (job : Job) (pool_size : nat) (hint : option WorkerId)
    : M ((RLR * Pool) * World) (RouteResult K Msg) :=
  ok ← on_limiter rl_check;
  if ok : bool then
    result ← on_router (route_message job pool_size hint);
    match result with
    | Handled =>
        modify (λ s, ((mkRateLimited (rl_router s.1.1) (rl_bump (rate_limiter s.1.1)), s.1.2), s.2)) ;;
        mret Handled
    | _ => mret result
    end
  else
    pool ← gets (λ s, s.1.2);
    match hint with
    | Some i =>
        when (hint_available (Some i) pool)
          (modify (λ s, ((mkRateLimited (on_worker_availability_change i true (rl_router s.1.1))
                            (rate_limiter s.1.1), s.1.2), s.2)))
    | None => mret tt
    end ;;
    mret (RateLimited job).

#[global] Instance RateLimited_Router : Router K Msg RLR := {|
  route_message := rl_route_message;
  choose_target_worker job n hint pool r :=
    let '(o, r') := choose_target_worker job n hint pool (rl_router r) in
    (o, mkRateLimited r' (rate_limiter r));
  is_factory_queueing r := is_factory_queueing (rl_router r);
  on_worker_availability_change i b r :=
    mkRateLimited (on_worker_availability_change i b (rl_router r)) (rate_limiter r)
|}.

Context `{!RouterLaws K Msg R} `{!RateLimiterLaws K Msg L}.

Lemma on_limiter_check r pool w :
  ∃ b l w', on_limiter rl_check ((r, pool), w) = (Ok b, ((mkRateLimited (rl_router r) l, pool), w')) ∧
    quiet w w'.
Proof.
  destruct (rl_check_law (rate_limiter r) w) as (b & l & w' & E & Q).
  exists b, l, w'. split; [|done]. unfold on_limiter. simpl. by rewrite E.
Qed.

Lemma route_effect_quiet (job : Job) pool w0 w out pool' w' :
  quiet w0 w → route_effect job pool w out pool' w' → route_effect job pool w0 out pool' w'.
Proof.
  intros Q. destruct out; simpl.
  - intros (i & k & k' & w1 & ? & ? & ? & ?). exists i, k, k', w1. eauto 6 using quiet_trans.
  - intros (? & ? & ?). eauto using quiet_trans.
  - intros (? & ? & ?). eauto using quiet_trans.
Qed.

(** A rejected job is handed back with the pool untouched. *)
Lemma rl_reject_eq job n hint r pool w l w1 :
  on_limiter rl_check ((r, pool), w) = (Ok false, ((mkRateLimited (rl_router r) l, pool), w1)) →
  ∃ r', rl_route_message job n hint ((r, pool), w) = (Ok (RateLimited job), ((r', pool), w1)).
Proof.
  intros E. unfold rl_route_message. erewrite bind_ok by exact E. cbv iota beta.
  rewrite bind_gets. simpl.
  destruct hint as [i|]; [|by eexists]. destruct (hint_available (Some i) pool); by eexists.
Qed.

#[global] Program Instance RateLimited_laws : RouterLaws K Msg RLR.
Next Obligation.
  intros job n hint r pool w Hp. simpl.
  destruct (on_limiter_check r pool w) as ([] & l & w1 & E1 & Q1).
  2:{ destruct (rl_reject_eq job n hint r pool w l w1 E1) as [r' E].
      exists (RateLimited job), r', pool, w1. by split. }
  unfold rl_route_message. erewrite bind_ok by exact E1.
  destruct (route_law job n hint (rl_router r) pool w1 Hp) as (out & r2 & pool2 & w2 & E2 & Heff).
  erewrite bind_ok by (unfold on_router; simpl; by rewrite E2).
  apply (route_effect_quiet _ _ w) in Heff; [|done].
  destruct out; eexists _, _, _, _; (split; [done|done]).
Qed.
Next Obligation.
  intros job n hint r pool w i r' Hc E j s. simpl in *.
  destruct (choose_target_worker job n hint pool (rl_router r)) as [o r1] eqn:Ec. simplify_eq.
  destruct (on_limiter_check (mkRateLimited r1 (rate_limiter r)) pool w) as ([] & l & w1 & E1 & _).
  2:{ destruct (rl_reject_eq job n (Some i) _ pool w l w1 E1) as [r' ->]. done. }
  unfold rl_route_message. erewrite bind_ok by exact E1. simpl.
  pose proof (choose_route_law job n hint (rl_router r) pool w1 i r1 Hc Ec) as Hnb.
  destruct (route_message job n (Some i) ((r1, pool), w1)) as [a [[r2 p2] w2]] eqn:E2.
  unfold mbind, M_bind, on_router. simpl. rewrite E2.
  destruct a as [[]| |]; try done. intros [= <- _]. by eapply Hnb.
Qed.
End rate_limited.

(** ** Witnesses *)

#[local] Instance sample_range : InstantRange := 2 ^ 63 - 1.

(** Two tokens every 10 ns, at most 5, one left. *)
Definition sample_bucket : LeakyBucket := mkBucket 2 10 5 1 (Some 10).

Lemma sample_bucket_wf : bucket_wf sample_bucket.
Proof. split; unfold usize_max, u64_max, nanos_per_sec; simpl; lia. Qed.

Lemma leaky_bucket_rate_bound_witness :
  (run_limiter [(3, true); (4, true); (25, true); (25, true)] sample_bucket).1 <=
  balance sample_bucket + refill sample_bucket *
    (if bool_decide (25 < 10) then 0 else (25 - 10) / interval sample_bucket + 1).
Proof.
  apply (leaky_bucket_rate_bound sample_bucket 10 _ 25 sample_bucket_wf); [done|done|].
  intros e He. repeat (apply elem_of_cons in He as [->|He]; [simpl; lia|]). by apply not_elem_of_nil in He.
Defined.

Lemma leaky_bucket_refill_witness :
  (check_at 25 sample_bucket).1 = true ∧
  ∀ d', deadline (check_at 25 sample_bucket).2 = Some d' →
    25 < d' <= 25 + interval sample_bucket ∧ ∃ n, 0 < n ∧ d' = 10 + n * interval sample_bucket.
Proof. apply (leaky_bucket_refill sample_bucket 10 25 sample_bucket_wf); done. Defined.
