(* ===== verification/Factory.v ===== *)
(** The factory (src/ractor/src/factory/factoryimpl.rs): an actor that owns a
    pool of workers, a router and a backlog queue.

    [FactoryState] is the actor's state; every handler is a computation over the
    state and the [World].  The factory is generic in its router and queue, as in
    the source: definitions use the classes [Router] and [Queue] only, and the
    theorems of FactoryFacts.v use their laws only. *)

From S2P Require Import Prelude Discard Job Worker Queues Routing.

Definition GLOBAL_WORKER_POOL_MAXIMUM : nat := N.to_nat 1000000.
Definition PING_FREQUENCY : Duration := (10000 * 1000000)%Z.
Definition CALCULATE_FREQUENCY : Duration := (100 * 1000000)%Z.

(** [enum DrainState] *)
Inductive DrainState := NotDraining | Draining | Drained.

#[global] Instance DrainState_eq_dec : EqDecision DrainState.
Proof. solve_decision. Defined.

(** [struct DeadMansSwitchConfiguration] *)
Record DeadMansSwitch := mkDeadMansSwitch {
  detection_timeout : Duration;
  kill_worker : bool
}.

(** [struct FactoryState].  The worker builder is user code without state here;
    the pending dead-man's check is only known to be armed or not. *)
Record FactoryState (K Msg : Type) `{Countable K} (R Q : Type) := mkFactory {
  f_name : string;
  pool_size : nat;
  pool : gmap WorkerId (WorkerProperties K Msg);
  worker_by_actor : gmap ActorId WorkerId;
  f_stats : option nat;
  router : R;
  queue : Q;
  f_discard_handler : option (DiscardHandler K Msg);
  f_discard_settings : DiscardSettings;
  drain_state : DrainState;
  dead_mans_switch : option DeadMansSwitch;
  dead_mans_check : bool;
  capacity_controller : option nat;
  lifecycle_hooks : option nat
}.
Arguments mkFactory {K Msg _ _ R Q}.
Arguments f_name {K Msg _ _ R Q}.
Arguments pool_size {K Msg _ _ R Q}.
Arguments pool {K Msg _ _ R Q}.
Arguments worker_by_actor {K Msg _ _ R Q}.
Arguments f_stats {K Msg _ _ R Q}.
Arguments router {K Msg _ _ R Q}.
Arguments queue {K Msg _ _ R Q}.
Arguments f_discard_handler {K Msg _ _ R Q}.
Arguments f_discard_settings {K Msg _ _ R Q}.
Arguments drain_state {K Msg _ _ R Q}.
Arguments dead_mans_switch {K Msg _ _ R Q}.
Arguments dead_mans_check {K Msg _ _ R Q}.
Arguments capacity_controller {K Msg _ _ R Q}.
Arguments lifecycle_hooks {K Msg _ _ R Q}.

(** [enum FactoryMessage] and [struct UpdateSettingsRequest]. *)
Record UpdateSettingsRequest (K Msg : Type) := mkUpdateSettings {
  us_discard_handler : option (option (DiscardHandler K Msg));
  us_discard_settings : option DiscardSettings;
  us_dead_mans_switch : option (option DeadMansSwitch);
  us_capacity_controller : option (option nat);
  us_lifecycle_hooks : option (option nat);
  us_stats : option (option nat);
  us_worker_count : option nat
}.
Arguments mkUpdateSettings {K Msg}.
Arguments us_discard_handler {K Msg}.
Arguments us_discard_settings {K Msg}.
Arguments us_dead_mans_switch {K Msg}.
Arguments us_capacity_controller {K Msg}.
Arguments us_lifecycle_hooks {K Msg}.
Arguments us_stats {K Msg}.
Arguments us_worker_count {K Msg}.

Inductive FactoryMessage (K Msg : Type) :=
| Dispatch (job : Job K Msg)
| Finished (who : WorkerId) (key : K)
| DoPings (when_ : Instant)
| Calculate
| WorkerPong (i : WorkerId) (time : Duration)
| IdentifyStuckWorkers
| GetQueueDepth (reply : nat)
| AdjustWorkerPool (n : nat)
| GetAvailableCapacity (reply : nat)
| GetNumActiveWorkers (reply : nat)
| DrainRequests
| UpdateSettings (req : UpdateSettingsRequest K Msg).
Arguments Dispatch {K Msg}.
Arguments Finished {K Msg}.
Arguments DoPings {K Msg}.
Arguments Calculate {K Msg}.
Arguments WorkerPong {K Msg}.
Arguments IdentifyStuckWorkers {K Msg}.
Arguments GetQueueDepth {K Msg}.
Arguments AdjustWorkerPool {K Msg}.
Arguments GetAvailableCapacity {K Msg}.
Arguments GetNumActiveWorkers {K Msg}.
Arguments DrainRequests {K Msg}.
Arguments UpdateSettings {K Msg}.

(** The supervision events the factory distinguishes. *)
Inductive FactorySupervisionEvent :=
| WorkerTerminated (who : ActorId)
| WorkerFailed (who : ActorId)
| OtherSupervisionEvent.

(** [struct FactoryArguments] *)
Record FactoryArguments (K Msg R Q : Type) := mkArguments {
  a_num_initial_workers : nat;
  a_router : R;
  a_queue : Q;
  a_discard_handler : option (DiscardHandler K Msg);
  a_discard_settings : DiscardSettings;
  a_dead_mans_switch : option DeadMansSwitch;
  a_capacity_controller : option nat;
  a_lifecycle_hooks : option nat;
  a_stats : option nat
}.
Arguments mkArguments {K Msg R Q}.
Arguments a_num_initial_workers {K Msg R Q}.
Arguments a_router {K Msg R Q}.
Arguments a_queue {K Msg R Q}.
Arguments a_discard_handler {K Msg R Q}.
Arguments a_discard_settings {K Msg R Q}.
Arguments a_dead_mans_switch {K Msg R Q}.
Arguments a_capacity_controller {K Msg R Q}.
Arguments a_lifecycle_hooks {K Msg R Q}.
Arguments a_stats {K Msg R Q}.

Section factory.
Context {K Msg : Type} `{Countable K} {R Q : Type}.
Context `{!HashMapIter (WorkerProperties K Msg)} `{!Router K Msg R} `{!Queue K Msg Q}.
(** The factory's own actor. *)
Context (myself : ActorId).
Abbreviation World := (World K Msg).
Abbreviation Job := (Job K Msg).
Abbreviation Worker := (WorkerProperties K Msg).
Abbreviation Pool := (gmap WorkerId Worker).
Abbreviation Factory := (FactoryState K Msg R Q).
Abbreviation FM := (M (Factory * World)).
Implicit Types (f : Factory).

(** Field updates. *)
Definition set_pool_size (v : nat) f : Factory :=
  mkFactory (f_name f) v (pool f) (worker_by_actor f) (f_stats f) (router f) (queue f) (f_discard_handler f) (f_discard_settings f) (drain_state f) (dead_mans_switch f) (dead_mans_check f) (capacity_controller f) (lifecycle_hooks f).
Definition set_pool (v : Pool) f : Factory :=
  mkFactory (f_name f) (pool_size f) v (worker_by_actor f) (f_stats f) (router f) (queue f) (f_discard_handler f) (f_discard_settings f) (drain_state f) (dead_mans_switch f) (dead_mans_check f) (capacity_controller f) (lifecycle_hooks f).
Definition set_worker_by_actor (v : gmap ActorId WorkerId) f : Factory :=
  mkFactory (f_name f) (pool_size f) (pool f) v (f_stats f) (router f) (queue f) (f_discard_handler f) (f_discard_settings f) (drain_state f) (dead_mans_switch f) (dead_mans_check f) (capacity_controller f) (lifecycle_hooks f).
Definition set_fstats (v : option nat) f : Factory :=
  mkFactory (f_name f) (pool_size f) (pool f) (worker_by_actor f) v (router f) (queue f) (f_discard_handler f) (f_discard_settings f) (drain_state f) (dead_mans_switch f) (dead_mans_check f) (capacity_controller f) (lifecycle_hooks f).
Definition set_router (v : R) f : Factory :=
  mkFactory (f_name f) (pool_size f) (pool f) (worker_by_actor f) (f_stats f) v (queue f) (f_discard_handler f) (f_discard_settings f) (drain_state f) (dead_mans_switch f) (dead_mans_check f) (capacity_controller f) (lifecycle_hooks f).
Definition set_backlog (v : Q) f : Factory :=
  mkFactory (f_name f) (pool_size f) (pool f) (worker_by_actor f) (f_stats f) (router f) v (f_discard_handler f) (f_discard_settings f) (drain_state f) (dead_mans_switch f) (dead_mans_check f) (capacity_controller f) (lifecycle_hooks f).
Definition set_fdiscard_handler (v : option (DiscardHandler K Msg)) f : Factory :=
  mkFactory (f_name f) (pool_size f) (pool f) (worker_by_actor f) (f_stats f) (router f) (queue f) v (f_discard_settings f) (drain_state f) (dead_mans_switch f) (dead_mans_check f) (capacity_controller f) (lifecycle_hooks f).
Definition set_fdiscard_settings (v : DiscardSettings) f : Factory :=
  mkFactory (f_name f) (pool_size f) (pool f) (worker_by_actor f) (f_stats f) (router f) (queue f) (f_discard_handler f) v (drain_state f) (dead_mans_switch f) (dead_mans_check f) (capacity_controller f) (lifecycle_hooks f).
Definition set_drain_state (v : DrainState) f : Factory :=
  mkFactory (f_name f) (pool_size f) (pool f) (worker_by_actor f) (f_stats f) (router f) (queue f) (f_discard_handler f) (f_discard_settings f) v (dead_mans_switch f) (dead_mans_check f) (capacity_controller f) (lifecycle_hooks f).
Definition set_dead_mans_switch (v : option DeadMansSwitch) f : Factory :=
  mkFactory (f_name f) (pool_size f) (pool f) (worker_by_actor f) (f_stats f) (router f) (queue f) (f_discard_handler f) (f_discard_settings f) (drain_state f) v (dead_mans_check f) (capacity_controller f) (lifecycle_hooks f).
Definition set_dead_mans_check (v : bool) f : Factory :=
  mkFactory (f_name f) (pool_size f) (pool f) (worker_by_actor f) (f_stats f) (router f) (queue f) (f_discard_handler f) (f_discard_settings f) (drain_state f) (dead_mans_switch f) v (capacity_controller f) (lifecycle_hooks f).
Definition set_capacity_controller (v : option nat) f : Factory :=
  mkFactory (f_name f) (pool_size f) (pool f) (worker_by_actor f) (f_stats f) (router f) (queue f) (f_discard_handler f) (f_discard_settings f) (drain_state f) (dead_mans_switch f) (dead_mans_check f) v (lifecycle_hooks f).
Definition set_lifecycle_hooks (v : option nat) f : Factory :=
  mkFactory (f_name f) (pool_size f) (pool f) (worker_by_actor f) (f_stats f) (router f) (queue f) (f_discard_handler f) (f_discard_settings f) (drain_state f) (dead_mans_switch f) (dead_mans_check f) (capacity_controller f) v.

(** ** Running the parts of the factory *)

Definition upd (g : Factory → Factory) : FM unit := modify (λ s, (g s.1, s.2)).
Definition reads {A} (g : Factory → A) : FM A := gets (λ s, g s.1).

Definition on_routing {A} (m : M ((R * Pool) * World) A) : FM A :=
  λ s, let '(a, ((r, p), w)) := m ((router s.1, pool s.1), s.2) in
       (a, (set_router r (set_pool p s.1), w)).

Definition on_queue {A} (m : M (Q * World) A) : FM A :=
  λ s, let '(a, (q, w)) := m (queue s.1, s.2) in (a, (set_backlog q s.1, w)).

(** An operation of a worker that is in the pool under [i]. *)
Definition on_pool_worker {A} (i : WorkerId) (k : Worker) (m : M (Worker * World) A) : FM A :=
  λ s, let '(a, (k', w)) := m (k, s.2) in (a, (set_pool (<[i := k']> (pool s.1)) s.1, w)).

Definition fstat (x : Stat) : FM unit :=
  h ← reads (λ f, (f_stats f, f_name f));
  liftW (stat h.1 h.2 x).

(** [if let Some(handler) = .. { handler.discard(reason, &mut job) } job.reject()] *)
Definition discard_and_reject (reason : DiscardReason) (job : Job) : FM unit :=
  h ← reads f_discard_handler;
  job ← liftW (run_discard h reason job);
  liftW (reject job).

(** ** Routing from the backlog *)

(** The loop that drops expired jobs at the head.  Every turn pops one job: the
    length of the queue is enough fuel. *)
Fixpoint expire_head (fuel : nat) : FM unit :=
  o ← reads (λ f, q_peek (queue f));
  match o with
  | None => mret tt
  | Some m =>
      e ← liftW (is_expired m);
      if e : bool then
        match fuel with
        | 0 => panic
        | S fuel =>
            p ← reads (λ f, q_pop_front (queue f));
            upd (set_backlog p.2) ;;
            match p.1 with
            | Some job =>
                fstat (JobTtlExpired 1) ;;
                discard_and_reject TtlExpired job ;;
                expire_head fuel
            | None => mret tt
            end
        end
      else mret tt
  end.

(** The routing loop, ended by a job that was handled, an empty backlog or a
    router that has no worker. *)
Fixpoint route_loop (fuel : nat) (hint : option WorkerId) : FM unit :=
  o ← reads (λ f, q_peek (queue f));
  match o with
  | None => mret tt
  | Some head =>
      c ← reads (λ f, choose_target_worker head (pool_size f) hint (pool f) (router f));
      upd (set_router c.2) ;;
      match c.1 with
      | None => mret tt
      | Some worker =>
          match fuel with
          | 0 => panic
          | S fuel =>
              p ← reads (λ f, q_pop_front (queue f));
              upd (set_backlog p.2) ;;
              match p.1 with
              | Some job =>
                  n ← reads pool_size;
                  res ← on_routing (route_message job n (Some worker));
                  match res with
                  | Handled => mret tt
                  | RateLimited job =>
                      fstat JobRateLimited ;;
                      discard_and_reject RateLimitedReason job ;;
                      route_loop fuel hint
                  | Backlog _ => panic
                  end
              | None => route_loop fuel hint
              end
          end
      end
  end.

Definition try_route_next_active_job (hint : option WorkerId) : FM unit :=
  n ← reads (λ f, q_len (queue f));
  expire_head n ;;
  n ← reads (λ f, q_len (queue f));
  route_loop n hint.

(** ** Enqueueing and load shedding *)

Definition push_backlog (job : Job) : FM unit :=
  o ← reads (λ f, q_push_back job (queue f));
  match o with
  | Some q => upd (set_backlog q)
  | None => panic
  end.

Fixpoint shed_backlog (fuel limit : nat) : FM unit :=
  n ← reads (λ f, q_len (queue f));
  if bool_decide (limit < n) then
    match fuel with
    | 0 => panic
    | S fuel =>
        p ← reads (λ f, q_discard_oldest (queue f));
        upd (set_backlog p.2) ;;
        match p.1 with
        | Some msg =>
            fstat JobDiscarded ;;
            h ← reads f_discard_handler;
            msg ← liftW (run_discard h Loadshed msg);
            liftW (emit (EvDropped msg))
        | None => mret tt
        end ;;
        shed_backlog fuel limit
    end
  else mret tt.

Definition maybe_enqueue (job : Job) : FM unit :=
  is_discardable ← reads (λ f, q_is_job_discardable (queue f) (job_key job));
  limit_and_mode ← reads (λ f, get_limit_and_mode (f_discard_settings f));
  match limit_and_mode with
  | Some (limit, Newest) =>
      n ← reads (λ f, q_len (queue f));
      if (is_discardable && bool_decide (limit ≤ n)) : bool then
        fstat JobDiscarded ;;
        discard_and_reject Loadshed job
      else
        job ← liftW (accept job);
        push_backlog job
  | Some (limit, Oldest) =>
      job ← liftW (accept job);
      push_backlog job ;;
      n ← reads (λ f, q_len (queue f));
      shed_backlog n limit
  | None =>
      job ← liftW (accept job);
      push_backlog job
  end.

(** ** Heartbeats *)

Definition ping_worker (i : WorkerId) : FM unit :=
  o ← reads (λ f, pool f !! i);
  match o with
  | Some k => on_pool_worker i k send_factory_ping
  | None => mret tt
  end.

Definition ping_workers : FM unit :=
  ids ← reads (λ f, (hm_iter (pool f)).*1);
  for_each ids ping_worker.

Definition cancel_dead_mans_check : FM unit :=
  armed ← reads dead_mans_check;
  when armed (liftW (emit EvTimerAbort)) ;;
  upd (set_dead_mans_check false).

Definition reschedule_dead_mans_check : FM unit :=
  cancel_dead_mans_check ;;
  d ← reads dead_mans_switch;
  match d with
  | Some dmd =>
      liftW (emit (EvTimer (detection_timeout dmd) TimerIdentifyStuck)) ;;
      upd (set_dead_mans_check true)
  | None => mret tt
  end.

Definition check_worker (dmd : DeadMansSwitch) (i : WorkerId) : FM unit :=
  o ← reads (λ f, pool f !! i);
  match o with
  | Some k =>
      stuck ← on_pool_worker i k (is_stuck (detection_timeout dmd));
      if (stuck && kill_worker dmd) : bool then
        liftW (emit (EvKill (actor k))) ;;
        upd (λ f, set_pool (<[i := (get_join_handle k).2]> (pool f)) f)
      else mret tt
  | None => mret tt
  end.

(** Waiting for the killed workers to exit does not change the state. *)
Definition identify_stuck_workers : FM unit :=
  cancel_dead_mans_check ;;
  d ← reads dead_mans_switch;
  match d with
  | Some dmd =>
      ids ← reads (λ f, (hm_iter (pool f)).*1);
      for_each ids (check_worker dmd) ;;
      reschedule_dead_mans_check
  | None => mret tt
  end.

(** ** Resizing the pool *)

(** The properties of a worker spawned under [i]. *)
Definition new_worker f (i : WorkerId) (a : ActorId) : Worker :=
  let d := if is_factory_queueing (router f) then WNone
           else get_worker_settings (f_discard_settings f) in
  Worker_new (f_name f) i a d (f_discard_handler f) a (f_stats f).

(** Spawn a worker under [i] and enter it in the pool. *)
Definition spawn_worker (i : WorkerId) : FM unit :=
  o ← liftW spawn_outcome;
  match o with
  | None => throw "SpawnErr"
  | Some a =>
      upd (λ f, set_pool (<[i := new_worker f i a]> (pool f)) f) ;;
      upd (λ f, set_worker_by_actor (<[a := i]> (worker_by_actor f)) f) ;;
      upd (λ f, set_router (on_worker_availability_change i true (router f)) f)
  end.

Definition grow_one (i : WorkerId) : FM unit :=
  o ← reads (λ f, pool f !! i);
  match o with
  | Some k =>
      upd (λ f, set_pool (<[i := set_draining false k]> (pool f)) f) ;;
      when (is_available k) (upd (λ f, set_router (on_worker_availability_change i true (router f)) f))
  | None => spawn_worker i
  end.

Definition grow_pool (to_add : nat) : FM unit :=
  curr_size ← reads pool_size;
  for_each (seq curr_size to_add) grow_one ;;
  d ← reads dead_mans_switch;
  when (bool_decide (is_Some d)) ping_workers.

Definition shrink_one (i : WorkerId) : FM unit :=
  o ← reads (λ f, pool f !! i);
  match o with
  | Some k =>
      if is_working k then upd (λ f, set_pool (<[i := set_draining true k]> (pool f)) f)
      else
        upd (λ f, set_router (on_worker_availability_change i false (router f)) f) ;;
        liftW (emit (EvStop (actor k))) ;;
        upd (λ f, set_pool (delete i (pool f)) f) ;;
        upd (λ f, set_worker_by_actor (delete (actor k) (worker_by_actor f)) f)
  | None => mret tt
  end.

Definition shrink_pool (to_remove : nat) : FM unit :=
  curr_size ← reads pool_size;
  for_each (seq (curr_size - to_remove) to_remove) shrink_one.

(** [for _ in 0..n { if self.queue.peek().is_none() { break; } .. }] *)
Fixpoint route_backlog (n : nat) : FM unit :=
  match n with
  | 0 => mret tt
  | S n =>
      o ← reads (λ f, q_peek (queue f));
      match o with
      | None => mret tt
      | Some _ => try_route_next_active_job None ;; route_backlog n
      end
  end.

Definition resize_pool (requested_pool_size : nat) : FM unit :=
  if bool_decide (requested_pool_size = 0) then mret tt else
  curr_size ← reads pool_size;
  let new_pool_size := Nat.min GLOBAL_WORKER_POOL_MAXIMUM requested_pool_size in
  (if bool_decide (curr_size < new_pool_size) then grow_pool (new_pool_size - curr_size)
   else if bool_decide (new_pool_size < curr_size) then shrink_pool (curr_size - new_pool_size)
   else mret tt) ;;
  upd (set_pool_size new_pool_size) ;;
  when (bool_decide (curr_size < new_pool_size)) (route_backlog new_pool_size).

(** ** Message handlers *)

Definition pool_values (p : Pool) : list Worker := (hm_iter p).*2.

Definition is_drained : FM bool :=
  d ← reads drain_state;
  match d with
  | NotDraining => mret false
  | Drained => mret true
  | Draining =>
      idle ← reads (λ f, forallb is_available (pool_values (pool f)) && bool_decide (q_len (queue f) = 0));
      if idle : bool then upd (set_drain_state Drained) ;; mret true else mret false
  end.

Definition dispatch (job : Job) : FM unit :=
  job ← liftW (set_factory_time job);
  fstat NewJob ;;
  e ← liftW (is_expired job);
  if e : bool then
    fstat (JobTtlExpired 1) ;;
    discard_and_reject TtlExpired job
  else
    d ← reads drain_state;
    if bool_decide (d = NotDraining) then
      n ← reads pool_size;
      res ← on_routing (route_message job n None);
      match res with
      | Handled => mret tt
      | RateLimited job =>
          fstat JobRateLimited ;;
          discard_and_reject RateLimitedReason job
      | Backlog busy_job => maybe_enqueue busy_job
      end
    else discard_and_reject Shutdown job.

(** [if matches!(self.pool.get(&who), Some(w) if w.is_available()) { .. }] *)
Definition announce_if_available (who : WorkerId) : FM unit :=
  avail ← reads (λ f, match pool f !! who with Some k => is_available k | None => false end);
  when avail (upd (λ f, set_router (on_worker_availability_change who true (router f)) f)).

(** The first half of [worker_finished_job]: whether the worker is draining, and
    whether it can be dropped. *)
Definition complete_worker (who : WorkerId) (key : K) : FM (bool * bool) :=
  o ← reads (λ f, pool f !! who);
  match o with
  | Some k =>
      opt ← on_pool_worker who k (worker_complete key);
      match opt with
      | Some job_options => fstat (JobCompleted job_options)
      | None => mret tt
      end ;;
      reads (λ f, match pool f !! who with
                  | Some k' => (is_draining k', is_draining k' && negb (is_working k'))
                  | None => (false, false)
                  end)
  | None => mret (false, false)
  end.

(** [self.pool.remove(&who)] and what follows it. *)
Definition drop_worker (who : WorkerId) : FM unit :=
  o ← reads (λ f, pool f !! who);
  upd (λ f, set_pool (delete who (pool f)) f) ;;
  match o with
  | Some k =>
      upd (λ f, set_worker_by_actor (delete (actor k) (worker_by_actor f)) f) ;;
      liftW (emit (EvStop (actor k)))
  | None => mret tt
  end.

Definition worker_finished_job (who : WorkerId) (key : K) : FM unit :=
  ds ← complete_worker who key;
  if snd ds : bool then drop_worker who
  else if fst ds : bool then mret tt
  else
    try_route_next_active_job (Some who) ;;
    announce_if_available who.

Definition discard_limit f : nat :=
  match get_limit_and_mode (f_discard_settings f) with Some (l, _) => l | None => 0 end.

Definition worker_pong (i : WorkerId) (time : Duration) : FM unit :=
  limit ← reads discard_limit;
  o ← reads (λ f, pool f !! i);
  match o with
  | Some k => on_pool_worker i k (ping_received time limit)
  | None => mret tt
  end.

Definition sat_sum (l : list nat) : Z := foldl (λ acc n, usize_sat_add acc (Z.of_nat n)) 0%Z l.

Definition calculate_metrics : FM unit :=
  limit ← reads discard_limit;
  fstat (QueueLimit limit) ;;
  cc ← reads capacity_controller;
  match cc with
  | Some _ =>
      new_capacity ← liftW controller_answer;
      n ← reads pool_size;
      when (bool_decide (n ≠ new_capacity)) (resize_pool new_capacity)
  | None => mret tt
  end ;;
  qlen ← reads (λ f, q_len (queue f));
  processing ← reads (λ f, sat_sum (active_job_count <$> pool_values (pool f)));
  worker_queued ← reads (λ f, sat_sum (queued_job_count <$> pool_values (pool f)));
  fstat (QueueDepth qlen) ;;
  fstat (ProcessingMessagesCount processing) ;;
  fstat (InFlightMessagesCount (usize_sat_add (usize_sat_add processing worker_queued) (Z.of_nat qlen))) ;;
  n ← reads pool_size;
  fstat (WorkerCount n) ;;
  queueing ← reads (λ f, is_factory_queueing (router f));
  (if queueing : bool then
     h ← reads f_discard_handler;
     num_removed ← on_queue (q_remove_expired h);
     fstat (JobTtlExpired num_removed)
   else mret tt) ;;
  liftW (emit (EvTimer CALCULATE_FREQUENCY TimerCalculate)).

Definition send_pings (when_ : Instant) : FM unit :=
  fstat (FactoryPingReceived when_) ;;
  d ← reads f_discard_settings;
  match d with
  | DDynamic limit mode updater =>
      limit' ← liftW controller_answer;
      upd (set_fdiscard_settings (DDynamic limit' mode updater))
  | _ => mret tt
  end ;;
  ping_workers ;;
  liftW (emit (EvTimer PING_FREQUENCY TimerDoPings)).

(** A call of the optional lifecycle hooks; an error is propagated by [?]. *)
Definition call_hook (k : Hook) : FM unit :=
  h ← reads lifecycle_hooks;
  match h with
  | Some i =>
      liftW (emit (EvHook i k)) ;;
      ok ← liftW hook_outcome;
      if ok : bool then mret tt else throw "lifecycle hook failed"
  | None => mret tt
  end.

Definition drain_requests : FM unit :=
  upd (set_drain_state Draining) ;;
  call_hook OnFactoryDraining.

(** [for worker in self.pool.values_mut() { .. }] with a pure update. *)
Definition update_pool (g : Worker → Worker) : FM unit := upd (λ f, set_pool (g <$> pool f) f).

Definition update_settings (req : UpdateSettingsRequest K Msg) : FM unit :=
  match us_discard_handler req with
  | Some h => update_pool (set_discard_handler h) ;; upd (set_fdiscard_handler h)
  | None => mret tt
  end ;;
  match us_discard_settings req with
  | Some d =>
      queueing ← reads (λ f, is_factory_queueing (router f));
      update_pool (Worker.set_discard_settings (if queueing : bool then WNone else get_worker_settings d)) ;;
      upd (set_fdiscard_settings d)
  | None => mret tt
  end ;;
  match us_dead_mans_switch req with
  | Some d =>
      upd (set_dead_mans_switch d) ;;
      when (bool_decide (is_Some d)) ping_workers ;;
      reschedule_dead_mans_check
  | None => mret tt
  end ;;
  match us_capacity_controller req with
  | Some c => upd (set_capacity_controller c)
  | None => mret tt
  end ;;
  match us_lifecycle_hooks req with
  | Some h => upd (set_lifecycle_hooks h)
  | None => mret tt
  end ;;
  match us_stats req with
  | Some s => upd (set_fstats s)
  | None => mret tt
  end ;;
  match us_worker_count req with
  | Some n => resize_pool n
  | None => mret tt
  end.

Definition available_capacity f : Z :=
  let active := List.filter (λ k, negb (is_draining k)) (pool_values (pool f)) in
  let worker_availability := Z.of_nat (length (List.filter is_available active)) in
  match get_limit_and_mode (f_discard_settings f) with
  | Some (limit, _) =>
      let queue_capacity :=
        if is_factory_queueing (router f) then Z.of_nat (limit - q_len (queue f))
        else sat_sum ((λ k, limit - queued_job_count k) <$> active) in
      usize_sat_add worker_availability queue_capacity
  | None => worker_availability
  end.

Definition reply_with_available_capacity (reply : nat) : FM unit :=
  n ← reads available_capacity;
  liftW (emit (EvReplyUsize reply n)).

Definition reply_with_num_active_workers (reply : nat) : FM unit :=
  n ← reads (λ f, length (List.filter is_working (pool_values (pool f))));
  liftW (emit (EvReplyUsize reply (Z.of_nat n))).

(** [Actor::handle] *)
Definition handle_message (m : FactoryMessage K Msg) : FM unit :=
  match m with
  | Dispatch job => dispatch job
  | Finished who key => worker_finished_job who key
  | WorkerPong i time => worker_pong i time
  | Calculate => calculate_metrics
  | DoPings when_ => send_pings when_
  | IdentifyStuckWorkers => identify_stuck_workers
  | GetQueueDepth reply =>
      n ← reads (λ f, q_len (queue f));
      liftW (emit (EvReplyUsize reply (Z.of_nat n)))
  | AdjustWorkerPool n => resize_pool n
  | GetAvailableCapacity reply => reply_with_available_capacity reply
  | GetNumActiveWorkers reply => reply_with_num_active_workers reply
  | DrainRequests => drain_requests
  | UpdateSettings req => update_settings req
  end ;;
  drained ← is_drained;
  when drained (liftW (emit (EvStop myself))).

(** [Actor::handle_supervisor_evt]: the two arms of the source are the same. *)
Definition replace_terminated (who : ActorId) : FM unit :=
  should_ping ← reads (λ f, bool_decide (is_Some (dead_mans_switch f)));
  worker_id ← reads (λ f, worker_by_actor f !! who);
  o ← reads (λ f, worker_id ≫= λ i, k ← pool f !! i; Some (i, k));
  match o with
  | Some (i, k) =>
      s ← liftW spawn_outcome;
      match s with
      | None => throw "SpawnErr"
      | Some a =>
          on_pool_worker i k (replace_worker a a ;; when should_ping send_factory_ping) ;;
          upd (λ f, set_worker_by_actor (<[a := Worker.wid k]> (delete who (worker_by_actor f))) f) ;;
          try_route_next_active_job (Some (Worker.wid k)) ;;
          announce_if_available (Worker.wid k)
      end
  | None => mret tt
  end.

Definition handle_supervisor_evt (e : FactorySupervisionEvent) : FM unit :=
  match e with
  | WorkerTerminated who | WorkerFailed who => replace_terminated who
  | OtherSupervisionEvent => mret tt
  end.

(** [Actor::pre_start]: the state is built around an empty pool that the loop fills. *)
Definition initial_state (name : string) (a : FactoryArguments K Msg R Q) : Factory :=
  mkFactory name (a_num_initial_workers a) ∅ ∅ (a_stats a) (a_router a) (a_queue a)
    (a_discard_handler a) (a_discard_settings a) NotDraining (a_dead_mans_switch a) false
    (a_capacity_controller a) (a_lifecycle_hooks a).

Definition pre_start : FM unit :=
  n ← reads pool_size;
  for_each (seq 0 n) spawn_worker ;;
  d ← reads dead_mans_switch;
  when (bool_decide (is_Some d)) ping_workers ;;
  liftW (emit (EvTimer PING_FREQUENCY TimerDoPings)) ;;
  liftW (emit (EvTimer CALCULATE_FREQUENCY TimerCalculate)) ;;
  match d with
  | Some dmd =>
      liftW (emit (EvTimer (detection_timeout dmd) TimerIdentifyStuck)) ;;
      upd (set_dead_mans_check true)
  | None => mret tt
  end.

Definition post_start : FM unit := call_hook OnFactoryStarted.

Fixpoint discard_backlog (fuel : nat) (h : DiscardHandler K Msg) : FM unit :=
  p ← reads (λ f, q_pop_front (queue f));
  upd (set_backlog p.2) ;;
  match p.1 with
  | Some msg =>
      msg ← liftW (run_discard (Some h) Shutdown msg);
      liftW (emit (EvDropped msg)) ;;
      match fuel with
      | 0 => panic
      | S fuel => discard_backlog fuel h
      end
  | None => mret tt
  end.

Definition post_stop : FM unit :=
  cancel_dead_mans_check ;;
  h ← reads f_discard_handler;
  match h with
  | Some h =>
      n ← reads (λ f, q_len (queue f));
      discard_backlog n h
  | None => mret tt
  end ;;
  actors ← reads (λ f, actor <$> pool_values (pool f));
  for_each actors (λ a, liftW (emit (EvStop a))) ;;
  update_pool (λ k, (get_join_handle k).2) ;;
  call_hook OnFactoryStopped.

End factory.
