(* ===== verification/FactoryFacts.v ===== *)
(** Correctness of the factory, against the laws of its router and queue.

    [Inv sz act f] is the invariant of a factory whose active workers are those
    satisfying [act]; [FInv] instantiates [act] with the workers below the pool
    size.  [cons_at] is a weakest-precondition style judgement that combines
    "does not panic", "re-establishes an invariant" and "accounts for every job". *)

From S2P Require Import Prelude Discard Job Worker Queues Routing Factory.

Section facts.
Context {K Msg : Type} `{Countable K} {R Q : Type}.
Context `{!HashMapIter (WorkerProperties K Msg)} `{!Router K Msg R} `{!Queue K Msg Q}.
Context `{!RouterLaws K Msg R} `{!QueueLaws K Msg Q}.
Context (myself : ActorId).
Abbreviation World := (World K Msg).
Abbreviation Job := (Job K Msg).
Abbreviation Worker := (WorkerProperties K Msg).
Abbreviation Pool := (gmap WorkerId Worker).
Abbreviation Factory := (FactoryState K Msg R Q).
Abbreviation FM := (M (Factory * World)).
(** The class of jobs that is counted. *)
Context (p : Job → bool) (Hp : stable p).
Implicit Types (f : Factory) (w : World).

(** ** The jobs in the factory's custody *)

(** The jobs in the private queues of the workers. *)
Definition pool_jobs (pl : Pool) : list Job := (map_to_list pl).*2 ≫= message_queue.

Definition custody f w : nat :=
  countb p (pool_jobs (pool f)) + countb p (q_jobs (queue f)) + fated p w.

Lemma pool_jobs_insert_new pl i k :
  pl !! i = None → countb p (pool_jobs (<[i := k]> pl)) =
    countb p (message_queue k) + countb p (pool_jobs pl).
Proof.
  intros Hi. unfold pool_jobs.
  rewrite (countb_permutation p _ ((((i, k) :: map_to_list pl).*2) ≫= message_queue)).
  - csimpl. apply countb_app.
  - by rewrite map_to_list_insert.
Qed.

Lemma pool_jobs_delete pl i k :
  pl !! i = Some k → countb p (pool_jobs pl) =
    countb p (message_queue k) + countb p (pool_jobs (delete i pl)).
Proof.
  intros Hi. rewrite <-(pool_jobs_insert_new (delete i pl) i k) by apply lookup_delete_eq.
  by rewrite insert_delete_id.
Qed.

Lemma pool_jobs_update pl i k k' :
  pl !! i = Some k → countb p (pool_jobs (<[i := k']> pl)) + countb p (message_queue k) =
    countb p (pool_jobs pl) + countb p (message_queue k').
Proof.
  intros Hi. rewrite <-insert_delete_eq, pool_jobs_insert_new by apply lookup_delete_eq.
  rewrite (pool_jobs_delete pl i k Hi). lia.
Qed.

Lemma pool_jobs_same_queues (g : Worker → Worker) pl :
  (∀ k, message_queue (g k) = message_queue k) →
  countb p (pool_jobs (g <$> pl)) = countb p (pool_jobs pl).
Proof.
  intros Hg. unfold pool_jobs. rewrite map_to_list_fmap.
  f_equal. induction (map_to_list pl) as [|[i k] l IH]; [done|]. csimpl. by rewrite IH, Hg.
Qed.

Lemma pool_jobs_empty : pool_jobs ∅ = [].
Proof. unfold pool_jobs. by rewrite map_to_list_empty. Qed.

(** ** The invariant *)

Record Inv (sz : nat) (act : WorkerId → Prop) f : Prop := {
  inv_size : pool_size f = sz;
  inv_pool : pool_inv (pool f);
  inv_present i : act i → is_Some (pool f !! i);
  inv_role i k : pool f !! i = Some k → Worker.wid k = i ∧ (is_draining k = true ↔ ¬ act i);
  inv_handler i k : pool f !! i = Some k → discard_handler k = f_discard_handler f;
  inv_keeps : handler_keeps p (f_discard_handler f);
  inv_queue : q_wf (queue f);
  inv_admits k : q_admits (queue f) k
}.

Definition FInv f : Prop := Inv (pool_size f) (λ i, i < pool_size f) f.

Lemma FInv_intro sz f : Inv sz (λ i, i < sz) f → FInv f.
Proof. intros HI. unfold FInv. by rewrite (inv_size _ _ _ HI). Qed.

(** Updates that the invariant does not see. *)
Lemma Inv_same sz act f f' :
  pool_size f' = pool_size f → pool f' = pool f → queue f' = queue f → f_discard_handler f' = f_discard_handler f →
  Inv sz act f → Inv sz act f'.
Proof. intros E0 E1 E2 E3 []. split; rewrite ?E0, ?E1, ?E2, ?E3; auto. Qed.

Lemma Inv_queue sz act f q' :
  q_wf q' → (∀ k, q_admits (queue f) k → q_admits q' k) → Inv sz act f → Inv sz act (set_backlog q' f).
Proof. intros Hwf Ha []. split; simpl; auto. Qed.

(** A worker of the pool was operated on. *)
Lemma Inv_worker sz act f i k k' :
  pool f !! i = Some k → worker_inv k' → Worker.wid k' = Worker.wid k →
  is_draining k' = is_draining k → discard_handler k' = discard_handler k →
  Inv sz act f → Inv sz act (set_pool (<[i := k']> (pool f)) f).
Proof.
  intros Hi Hk Hw Hd Hh [Is Ip Ipr Ir Ih Ik Iq Ia]. split; simpl; auto.
  - by apply pool_inv_update.
  - intros x Hx. destruct (decide (x = i)) as [->|];
      rewrite ?lookup_insert_eq, ?lookup_insert_ne by done; eauto.
  - intros x kx. destruct (decide (x = i)) as [->|];
      rewrite ?lookup_insert_eq, ?lookup_insert_ne by done; [|by apply Ir].
    intros [= <-]. rewrite Hw, Hd. by apply Ir.
  - intros x kx. destruct (decide (x = i)) as [->|];
      rewrite ?lookup_insert_eq, ?lookup_insert_ne by done; [|by apply Ih].
    intros [= <-]. rewrite Hh. by eapply Ih.
Qed.

(** A worker that is not active was removed. *)
Lemma Inv_remove sz (act : WorkerId → Prop) f i :
  ¬ act i → Inv sz act f → Inv sz act (set_pool (delete i (pool f)) f).
Proof.
  intros Hn [Is Ip Ipr Ir Ih Ik Iq Ia]. split; simpl; auto.
  - intros x k [_ Hx]%lookup_delete_Some. by eapply Ip.
  - intros x Hx. rewrite lookup_delete_ne by (intros ->; done). by apply Ipr.
  - intros x k [_ Hx]%lookup_delete_Some. by apply Ir.
  - intros x k [_ Hx]%lookup_delete_Some. by eapply Ih.
Qed.

(** ** The judgement *)

(** From [(f, w)] with the jobs [pre] in hand, [m] does not panic; if it returns
    [a] then [J] holds, the jobs [post a] are in hand and all jobs are accounted
    for; if it fails, all jobs are accounted for. *)
Definition cons_at {A} (J : Factory → Prop) f w (pre : list Job) (m : FM A) (post : A → list Job) : Prop :=
  ∃ r f' w', m (f, w) = (r, (f', w')) ∧
    match r with
    | Ok a => J f' ∧ custody f' w' + countb p (post a) = custody f w + countb p pre
    | Err _ => custody f' w' = custody f w + countb p pre
    | Panic => False
    end.

Abbreviation none := (λ _, [] : list Job).

Lemma cons_ret {A} J f w pre (a : A) post :
  J f → countb p (post a) = countb p pre → cons_at J f w pre (mret a) post.
Proof. intros HJ E. exists (Ok a), f, w. split; [done|]. split; [done|]. lia. Qed.

Lemma cons_bind {A B} J J' f w pre (m : FM A) (k : A → FM B) mid post :
  cons_at J f w pre m mid →
  (∀ a f' w', m (f, w) = (Ok a, (f', w')) → J f' → cons_at J' f' w' (mid a) (k a) post) →
  cons_at J' f w pre (m ≫= k) post.
Proof.
  intros (r & f1 & w1 & E & Hr) Hk. unfold cons_at, mbind, M_bind. rewrite E.
  destruct r as [a|e|]; [|exists (Err e), f1, w1; done|done].
  destruct Hr as [HJ Hc]. destruct (Hk a f1 w1 E HJ) as (r2 & f2 & w2 & E2 & Hr2).
  exists r2, f2, w2. split; [done|]. destruct r2; [|lia|done]. destruct Hr2. split; [done|lia].
Qed.

(** The invariant only, when nothing is in hand. *)
Lemma cons_seq {A B} J J' f w (m : FM A) (k : A → FM B) post :
  cons_at J f w [] m none →
  (∀ a f' w', J f' → cons_at J' f' w' [] (k a) post) →
  cons_at J' f w [] (m ≫= k) post.
Proof. intros Hm Hk. eapply cons_bind; [exact Hm|]. intros a f' w' _. apply Hk. Qed.

Lemma cons_reads {A B} J f w pre (g : Factory → A) (k : A → FM B) post :
  cons_at J f w pre (k (g f)) post → cons_at J f w pre (reads g ≫= k) post.
Proof. done. Qed.

Lemma cons_upd {B} J f w pre pre' (g : Factory → Factory) (k : unit → FM B) post :
  custody (g f) w + countb p pre' = custody f w + countb p pre →
  cons_at J (g f) w pre' (k tt) post → cons_at J f w pre (upd g ≫= k) post.
Proof.
  intros Hc (r & f' & w' & E & Hr). exists r, f', w'. split; [exact E|].
  destruct r; [|lia|done]. destruct Hr. split; [done|lia].
Qed.

Lemma cons_upd_last J f w pre (g : Factory → Factory) :
  custody (g f) w = custody f w + countb p pre → J (g f) → cons_at J f w pre (upd g) none.
Proof. intros Hc HJ. exists (Ok tt), (g f), w. split; [done|]. split; [done|]. simpl. lia. Qed.

(** A step that only touches the world. *)
Lemma cons_world {A B} J f w pre pre' (m : FM A) (k : A → FM B) post a w' :
  m (f, w) = (Ok a, (f, w')) → fated p w' + countb p pre' = fated p w + countb p pre →
  cons_at J f w' pre' (k a) post → cons_at J f w pre (m ≫= k) post.
Proof.
  intros E Hc (r & f2 & w2 & E2 & Hr). exists r, f2, w2. split; [by erewrite bind_ok by exact E|].
  unfold custody in *. destruct r; [|lia|done]. destruct Hr. split; [done|lia].
Qed.

Lemma cons_world_last {A} (J : Factory → Prop) f w pre (m : FM A) a w' post :
  m (f, w) = (Ok a, (f, w')) → fated p w' + countb p (post a) = fated p w + countb p pre →
  J f → cons_at J f w pre m post.
Proof.
  intros E Hc HJ. exists (Ok a), f, w'. split; [done|]. split; [done|]. unfold custody. lia.
Qed.

Lemma cons_when J f w b (m : FM unit) :
  J f → cons_at J f w [] m none → cons_at J f w [] (when b m) none.
Proof. intros HJ Hm. destruct b; [done|]. by apply cons_ret. Qed.

Lemma cons_for_each {A} J f w (l : list A) (g : A → FM unit) :
  (∀ x f' w', J f' → cons_at J f' w' [] (g x) none) →
  J f → cons_at J f w [] (for_each l g) none.
Proof.
  intros Hg. revert f w. induction l as [|x l IH]; intros f w HJ; simpl; [by apply cons_ret|].
  eapply cons_seq; [by apply Hg|]. intros [] f' w'. apply IH.
Qed.

Lemma cons_weaken {A} (J J' : Factory → Prop) f w pre (m : FM A) post :
  (∀ f, J f → J' f) → cons_at J f w pre m post → cons_at J' f w pre m post.
Proof.
  intros HJ (r & f' & w' & E & Hr). exists r, f', w'. split; [done|].
  destruct r; [|done|done]. destruct Hr. auto.
Qed.

(** ** World-only steps of the factory *)

Lemma fstat_spec x f w : ∃ w', fstat x (f, w) = (Ok tt, (f, w')) ∧ fated p w' = fated p w.
Proof.
  destruct (stat_spec (f_stats f) (f_name f) x w) as (w' & E & Q0). exists w'.
  split; [|by apply quiet_fated]. unfold fstat, reads. rewrite bind_gets. by apply liftW_ok.
Qed.

Lemma discard_and_reject_spec reason job f w :
  handler_keeps p (f_discard_handler f) →
  ∃ w', discard_and_reject reason job (f, w) = (Ok tt, (f, w')) ∧
    fated p w' = fated p w + b2n (p job).
Proof.
  intros Hh. unfold discard_and_reject, reads. rewrite bind_gets. simpl.
  destruct (run_discard_spec (f_discard_handler f) reason job w) as (j' & w1 & E1 & Q1 & Hj).
  erewrite bind_liftW by exact E1.
  destruct (reject_spec j' w1) as (w2 & E2 & _ & Hf). exists w2.
  split; [by apply liftW_ok|]. by rewrite (Hf p Hp), (quiet_fated p _ _ Q1), (Hj p Hp Hh).
Qed.

Lemma cons_fstat {B} J x f w pre (k : unit → FM B) post :
  (∀ w', fated p w' = fated p w → cons_at J f w' pre (k tt) post) →
  cons_at J f w pre (fstat x ≫= k) post.
Proof.
  intros Hk. destruct (fstat_spec x f w) as (w' & E & Hf).
  eapply cons_world; [exact E| |by apply Hk]. lia.
Qed.

Lemma cons_fstat_last (J : Factory → Prop) x f w : J f → cons_at J f w [] (fstat x) none.
Proof.
  intros HJ. destruct (fstat_spec x f w) as (w' & E & Hf).
  eapply cons_world_last; [exact E| |done]. simpl. lia.
Qed.

Lemma cons_reject (J : Factory → Prop) reason job f w :
  handler_keeps p (f_discard_handler f) → J f →
  cons_at J f w [job] (discard_and_reject reason job) none.
Proof.
  intros Hh HJ. destruct (discard_and_reject_spec reason job f w Hh) as (w' & E & Hf).
  eapply cons_world_last; [exact E| |done]. simpl. lia.
Qed.

Lemma cons_emit (J : Factory → Prop) e f w :
  ev_quiet e → J f → cons_at J f w [] (liftW (emit e)) none.
Proof.
  intros He HJ. eapply cons_world_last; [by apply liftW_ok| |done].
  rewrite (quiet_fated p w); [done|]. by eapply quiet_emit.
Qed.

(** ** The backlog *)

(** Popping takes the head of the backlog in hand. *)
Lemma pop_cases f :
  FInv f → match q_jobs (queue f) with
  | [] => q_peek (queue f) = None
  | j :: l => q_peek (queue f) = Some j ∧ ∃ q', q_pop_front (queue f) = (Some j, q') ∧
      q_jobs q' = l ∧ FInv (set_backlog q' f) ∧
      ∀ w, custody (set_backlog q' f) w + b2n (p j) = custody f w
  end.
Proof.
  intros HI. pose proof (inv_queue _ _ _ HI) as Hq.
  pose proof (q_peek_law _ Hq) as Hpeek. pose proof (q_pop_law _ Hq) as Hpop.
  destruct (q_jobs (queue f)) as [|j l] eqn:Ej; [done|]. split; [done|].
  destruct Hpop as (q' & E & Hl & Hwf & Ha). exists q'. do 2 (split; [done|]).
  split; [by apply Inv_queue|]. intros w. unfold custody. simpl. rewrite Hl, Ej. simpl. lia.
Qed.

Lemma expire_head_cons fuel f w :
  FInv f → length (q_jobs (queue f)) ≤ fuel → cons_at FInv f w [] (expire_head fuel) none.
Proof.
  revert f w. induction fuel as [|fuel IH]; intros f w HI Hl; pose proof (pop_cases f HI) as Hc;
    simpl; apply cons_reads; destruct (q_jobs (queue f)) as [|j l] eqn:Ej; simpl in Hl.
  1,3: rewrite Hc; by apply cons_ret.
  { lia. }
  destruct Hc as [-> (q' & Epop & Hq' & HI' & Hcust)].
  destruct (is_expired_spec j w) as (e & w1 & E1 & Q1).
  eapply cons_world; [by apply liftW_ok; exact E1|by rewrite (quiet_fated p _ _ Q1)|].
  destruct e; [|by apply cons_ret]. apply cons_reads. rewrite Epop. simpl.
  eapply (cons_upd _ _ _ _ [j]); [rewrite <-(Hcust w1); simpl; lia|].
  apply cons_fstat. intros w2 _.
  destruct (discard_and_reject_spec TtlExpired j (set_backlog q' f) w2) as (w3 & E3 & Hf3);
    [apply HI'|].
  eapply (cons_world _ _ _ _ []); [exact E3|simpl; rewrite Hf3; lia|].
  apply IH; [done|]. simpl. rewrite Hq'. lia.
Qed.

(** What routing leaves in hand. *)
Definition route_rest (out : RouteResult K Msg) : list Job :=
  match out with Handled => [] | Backlog j | RateLimited j => [j] end.

(** The state after a worker of the pool was operated on by [op_ok]. *)
Lemma custody_op sz act f w i k k' w' jobs :
  Inv sz act f → pool f !! i = Some k → op_ok k w jobs k' w' →
  custody (set_pool (<[i := k']> (pool f)) f) w' = custody f w + countb p jobs.
Proof.
  intros HI Hi [L _ _ _ _]. unfold custody. simpl.
  assert (handler_keeps p (discard_handler k)) as Hh by (erewrite inv_handler by eauto; apply HI).
  specialize (L p Hp Hh). pose proof (pool_jobs_update (pool f) i k k' Hi).
  rewrite countb_app in L. lia.
Qed.

Lemma on_routing_cons job n hint f w :
  FInv f → cons_at FInv f w [job] (on_routing (route_message job n hint)) route_rest.
Proof.
  intros HI.
  destruct (route_law job n hint (router f) (pool f) w (inv_pool _ _ _ HI))
    as (out & r' & pool' & w' & E & Heff).
  exists (Ok out), (set_router r' (set_pool pool' f)), w'.
  split; [unfold on_routing; simpl; by rewrite E|].
  destruct out as [|j|j]; simpl in Heff.
  - destruct Heff as (i & k & k' & w0 & Hi & -> & Q0 & _ & Hok & Hr). injection Hr as Hw _ Hd.
    split.
    + eapply (Inv_same _ _ (set_pool (<[i := k']> (pool f)) f)); [done..|].
      eapply Inv_worker; [done|apply Hok|done|done|apply Hok|exact HI].
    + pose proof (custody_op _ _ f w0 i k k' w' _ HI Hi Hok) as Hc. unfold custody in *. simpl in *.
      rewrite (quiet_fated p _ _ Q0) in Hc. lia.
  - destruct Heff as (-> & -> & Q0). split; [by apply (Inv_same _ _ f)|].
    unfold custody. simpl. rewrite (quiet_fated p _ _ Q0). done.
  - destruct Heff as (-> & -> & Q0). split; [by apply (Inv_same _ _ f)|].
    unfold custody. simpl. rewrite (quiet_fated p _ _ Q0). done.
Qed.

Lemma on_routing_queue {A} (m : M ((R * Pool) * World) A) f w r f' w' :
  on_routing m (f, w) = (r, (f', w')) → queue f' = queue f.
Proof. unfold on_routing. destruct (m _) as [? [[? ?] ?]]. by intros [= <- <- <-]. Qed.

(** The worker chosen for the head of the backlog takes it: never a backlog again. *)
Lemma chosen_no_backlog job hint f w i r' n :
  FInv f → n = pool_size f →
  choose_target_worker job n hint (pool f) (router f) = (Some i, r') →
  ∀ j s, on_routing (route_message job n (Some i)) (set_router r' f, w) ≠ (Ok (Backlog j), s).
Proof.
  intros HI -> Ec j s E. unfold on_routing in E. simpl in E.
  destruct (route_message job (pool_size f) (Some i) ((r', pool f), w)) as [r [[r1 p1] w1]] eqn:Er.
  injection E as -> _. eapply choose_route_law; [|exact Ec|exact Er].
  intros x Hx. by eapply (inv_present _ _ _ HI).
Qed.

Lemma route_loop_cons fuel hint f w :
  FInv f → length (q_jobs (queue f)) ≤ fuel → cons_at FInv f w [] (route_loop fuel hint) none.
Proof.
  revert f w. induction fuel as [|fuel IH]; intros f w HI Hl; pose proof (pop_cases f HI) as Hc;
    simpl; apply cons_reads; destruct (q_jobs (queue f)) as [|j l] eqn:Ej; simpl in Hl.
  1,3: rewrite Hc; by apply cons_ret.
  { lia. }
  destruct Hc as [-> (q' & Epop & Hq' & HI' & Hcust)]. apply cons_reads.
  destruct (choose_target_worker _ _ _ _ _) as [o r'] eqn:Ec. simpl.
  apply (cons_upd _ _ _ _ []); [done|]. simpl.
  destruct o as [i|]; [|apply cons_ret; [by apply (Inv_same _ _ f)|done]].
  apply cons_reads. simpl. rewrite Epop.
  apply (cons_upd _ _ _ _ [j]); [specialize (Hcust w); unfold custody in *; simpl in *; lia|].
  simpl. apply cons_reads.
  set (f1 := set_backlog q' (set_router r' f)).
  assert (FInv f1) as HI1 by (eapply Inv_same; [..|exact HI']; done).
  eapply cons_bind; [by apply on_routing_cons|]. intros out f2 w2 E2 HI2.
  pose proof (on_routing_queue _ _ _ _ _ _ E2) as Hq2.
  destruct out as [|jb|jr]; simpl.
  - by apply cons_ret.
  - exfalso. eapply (chosen_no_backlog j hint (set_backlog q' f) w); [done|done|exact Ec|exact E2].
  - apply cons_fstat. intros w3 _.
    destruct (discard_and_reject_spec RateLimitedReason jr f2 w3) as (w4 & E4 & Hf4); [apply HI2|].
    eapply (cons_world _ _ _ _ []); [exact E4|simpl; rewrite Hf4; lia|].
    apply IH; [done|]. rewrite Hq2. simpl. rewrite Hq'. lia.
Qed.

Lemma try_route_cons hint f w :
  FInv f → cons_at FInv f w [] (try_route_next_active_job hint) none.
Proof.
  intros HI. unfold try_route_next_active_job. apply cons_reads.
  eapply cons_seq.
  { apply expire_head_cons; [done|]. rewrite q_len_law; [done|apply HI]. }
  intros [] f' w' HI'. apply cons_reads. apply route_loop_cons; [done|].
  rewrite q_len_law; [done|apply HI'].
Qed.

Lemma push_backlog_cons job f w :
  FInv f → cons_at (λ f', FInv f' ∧ length (q_jobs (queue f')) = S (length (q_jobs (queue f))))
    f w [job] (push_backlog job) none.
Proof.
  intros HI. unfold push_backlog. apply cons_reads.
  destruct (q_push_law job (queue f) (inv_queue _ _ _ HI) (inv_admits _ _ _ HI _))
    as (q' & -> & Hr & Hwf & Ha).
  apply cons_upd_last.
  - unfold custody. simpl. rewrite (countb_removes_one p _ _ _ Hr). lia.
  - split; [by apply Inv_queue|]. simpl. by apply length_removes_one in Hr.
Qed.

(** The shedding loop ends with at most [limit] jobs in the backlog. *)
Lemma shed_backlog_cons fuel limit f w :
  FInv f → length (q_jobs (queue f)) ≤ fuel →
  cons_at (λ f', FInv f' ∧ length (q_jobs (queue f')) ≤ limit) f w [] (shed_backlog fuel limit) none.
Proof.
  revert f w. induction fuel as [|fuel IH]; intros f w HI Hl; simpl; apply cons_reads;
    pose proof (inv_queue _ _ _ HI) as Hwf; rewrite q_len_law by done; case_bool_decide as Hlim.
  2,4: apply cons_ret; [split; [done|lia]|done].
  { lia. }
  apply cons_reads. pose proof (q_discard_law _ Hwf) as Hd.
  destruct (q_jobs (queue f)) as [|j0 l] eqn:Ej; [simpl in Hlim; lia|].
  destruct Hd as (j & q' & -> & Hr & Hwf' & Ha). simpl. rewrite <-Ej in *.
  assert (FInv (set_backlog q' f)) as HI' by by apply Inv_queue.
  apply (cons_upd _ _ _ _ [j]).
  { unfold custody. simpl. rewrite (countb_removes_one p _ _ _ Hr). lia. }
  eapply (cons_bind (λ f', f' = set_backlog q' f) _ _ _ _ _ _ none).
  - apply cons_fstat. intros w1 _. apply cons_reads. simpl.
    destruct (run_discard_spec (f_discard_handler f) Loadshed j w1) as (j' & w2 & E2 & Q2 & Hj).
    eapply (cons_world _ _ _ _ [j']); [by apply liftW_ok; exact E2| |].
    { simpl. by rewrite (quiet_fated p _ _ Q2), (Hj p Hp (inv_keeps _ _ _ HI)). }
    destruct (drop_spec j' w2) as (w3 & E3 & _ & Hf3).
    eapply cons_world_last; [by apply liftW_ok; exact E3| |done]. simpl. rewrite (Hf3 p). lia.
  - intros [] f2 w2 _ ->. apply IH; [done|]. simpl.
    apply length_removes_one in Hr. lia.
Qed.

Lemma cons_accept {B} J job f w (k : Job → FM B) post :
  (∀ job' w', job_key job' = job_key job → p job' = p job →
    cons_at J f w' [job'] (k job') post) →
  cons_at J f w [job] (liftW (accept job) ≫= k) post.
Proof.
  intros Hk. destruct (accept_spec job w) as (job' & w1 & E1 & Q1 & Hi & _).
  injection Hi as Hkey Hmsg. assert (p job' = p job) as Hpj by by apply stable_key_msg.
  eapply (cons_world _ _ _ _ [job']); [by apply liftW_ok; exact E1| |by apply Hk].
  simpl. by rewrite (quiet_fated p _ _ Q1), Hpj.
Qed.

(** The backlog after an arrival, per mode; the load-shedding contract. *)
Definition backlog_bound (f : Factory) (job : Job) (n : nat) (f' : Factory) : Prop :=
  match get_limit_and_mode (f_discard_settings f) with
  | Some (limit, Newest) =>
      length (q_jobs (queue f')) ≤
        (if q_is_job_discardable (queue f) (job_key job) then Nat.max n limit else S n)
  | Some (limit, Oldest) => length (q_jobs (queue f')) ≤ limit
  | None => length (q_jobs (queue f')) = S n
  end.

Lemma maybe_enqueue_cons job f w :
  FInv f → cons_at (λ f', FInv f' ∧ backlog_bound f job (length (q_jobs (queue f))) f') f w
    [job] (maybe_enqueue job) none.
Proof.
  intros HI. unfold maybe_enqueue, backlog_bound. do 2 apply cons_reads.
  destruct (get_limit_and_mode (f_discard_settings f)) as [[limit []]|].
  - apply cons_accept. intros job' w' _ _.
    eapply cons_bind; [by apply push_backlog_cons|]. intros [] f1 w1 _ [HI1 Hl1].
    apply cons_reads. apply shed_backlog_cons; [done|]. rewrite q_len_law; [done|apply HI1].
  - apply cons_reads. rewrite q_len_law by apply HI.
    destruct (q_is_job_discardable (queue f) (job_key job)) eqn:Ed; simpl.
    + case_bool_decide.
      * apply cons_fstat. intros w' _. apply cons_reject; [apply HI|]. split; [done|lia].
      * apply cons_accept. intros job' w' _ _. eapply cons_weaken; [|by apply push_backlog_cons].
        intros f' [HI' Hl]. split; [done|lia].
    + apply cons_accept. intros job' w' _ _. eapply cons_weaken; [|by apply push_backlog_cons].
      intros f' [HI' Hl]. split; [done|lia].
  - apply cons_accept. intros job' w' _ _. eapply cons_weaken; [|by apply push_backlog_cons].
    intros f' [HI' Hl]. done.
Qed.

Lemma dispatch_cons job f w : FInv f → cons_at FInv f w [job] (dispatch job) none.
Proof.
  intros HI. unfold dispatch.
  destruct (set_factory_time_spec job w) as (job1 & w1 & E1 & Q1 & Hi & _).
  injection Hi as Hkey Hmsg. assert (p job1 = p job) as Hpj by by apply stable_key_msg.
  eapply (cons_world _ _ _ _ [job1]); [by apply liftW_ok; exact E1| |].
  { simpl. by rewrite (quiet_fated p _ _ Q1), Hpj. }
  apply cons_fstat. intros w2 _. destruct (is_expired_spec job1 w2) as (e & w3 & E3 & Q3).
  eapply cons_world; [by apply liftW_ok; exact E3|by rewrite (quiet_fated p _ _ Q3)|].
  destruct e; [apply cons_fstat; intros w4 _; apply cons_reject; [apply HI|done]|].
  apply cons_reads. case_bool_decide; [|apply cons_reject; [apply HI|done]].
  apply cons_reads. eapply cons_bind; [by apply on_routing_cons|].
  intros out f5 w5 _ HI5. destruct out as [|jb|jr]; simpl.
  - by apply cons_ret.
  - eapply cons_weaken; [|by apply maybe_enqueue_cons]. by intros f' [].
  - apply cons_fstat. intros w6 _. apply cons_reject; [apply HI5|done].
Qed.

(** ** Operations on the workers of the pool *)

Lemma on_pool_worker_cons {A} sz act i k (m : M (Worker * World) A) a k' w' f w :
  Inv sz act f → pool f !! i = Some k → m (k, w) = (Ok a, (k', w')) → op_ok k w [] k' w' →
  Worker.wid k' = Worker.wid k → is_draining k' = is_draining k →
  cons_at (λ f', Inv sz act f' ∧ f' = set_pool (<[i := k']> (pool f)) f) f w []
    (on_pool_worker i k m) none.
Proof.
  intros HI Hi E Hok Hw Hd. exists (Ok a), (set_pool (<[i := k']> (pool f)) f), w'.
  split; [unfold on_pool_worker; simpl; by rewrite E|]. split.
  - split; [|done]. eapply Inv_worker; [done|apply Hok|done|done|apply Hok|done].
  - rewrite (custody_op sz act f w i k k' w' []) by done. done.
Qed.

Lemma ping_worker_cons sz act i f w : Inv sz act f → cons_at (Inv sz act) f w [] (ping_worker i) none.
Proof.
  intros HI. unfold ping_worker. apply cons_reads. destruct (pool f !! i) as [k|] eqn:Hi;
    [|by apply cons_ret].
  destruct (send_factory_ping_ok k w (inv_pool _ _ _ HI _ _ Hi)) as (k' & w' & E & Hok & Hr).
  injection Hr as Hw _ Hd. eapply cons_weaken; [|by eapply on_pool_worker_cons]. by intros f' [].
Qed.

Lemma ping_workers_cons sz act f w : Inv sz act f → cons_at (Inv sz act) f w [] ping_workers none.
Proof.
  intros HI. unfold ping_workers. apply cons_reads. apply cons_for_each; [|done].
  intros i f' w'. apply ping_worker_cons.
Qed.

(** Updates of fields that hold no jobs. *)
Lemma cons_upd_field sz act g f w :
  pool_size (g f) = pool_size f → pool (g f) = pool f → queue (g f) = queue f → f_discard_handler (g f) = f_discard_handler f →
  Inv sz act f → cons_at (Inv sz act) f w [] (upd g) none.
Proof.
  intros E0 E1 E2 E3 HI. apply cons_upd_last; [|by eapply Inv_same].
  unfold custody. simpl. rewrite E1, E2. lia.
Qed.

Lemma cancel_check_cons sz act f w : Inv sz act f → cons_at (Inv sz act) f w [] cancel_dead_mans_check none.
Proof.
  intros HI. unfold cancel_dead_mans_check. apply cons_reads.
  eapply cons_seq; [apply cons_when; [done|by apply cons_emit]|].
  intros [] f' w' HI'. by apply cons_upd_field.
Qed.

Lemma reschedule_check_cons sz act f w :
  Inv sz act f → cons_at (Inv sz act) f w [] reschedule_dead_mans_check none.
Proof.
  intros HI. unfold reschedule_dead_mans_check. eapply cons_seq; [by apply cancel_check_cons|].
  intros [] f1 w1 HI1. apply cons_reads. destruct (dead_mans_switch f1); [|by apply cons_ret].
  eapply cons_seq; [by apply cons_emit|]. intros [] f2 w2 HI2. by apply cons_upd_field.
Qed.

Lemma check_worker_cons sz act dmd i f w : Inv sz act f → cons_at (Inv sz act) f w [] (check_worker dmd i) none.
Proof.
  intros HI. unfold check_worker. apply cons_reads. destruct (pool f !! i) as [k|] eqn:Hi;
    [|by apply cons_ret].
  pose proof (inv_pool _ _ _ HI _ _ Hi) as Hk.
  eapply cons_bind.
  { eapply (on_pool_worker_cons sz act i k _ _ k); [done|done|done| |done|done].
    apply op_ok_jobs_unchanged; try done. by apply quiet_same_log. }
  intros stuck f1 w1 _ [HI1 ->]. destruct (stuck && kill_worker dmd); [|by apply cons_ret].
  eapply (cons_bind (λ f', f' = set_pool (<[i := k]> (pool f)) f)); [by apply cons_emit|].
  intros [] f2 w2 _ ->. assert (<[i := k]> (pool f) !! i = Some k) as Hi1 by apply lookup_insert_eq.
  apply cons_upd_last.
  - unfold custody. simpl. pose proof (pool_jobs_update _ i k (get_join_handle k).2 Hi1) as Hu.
    simpl in Hu. lia.
  - eapply (Inv_worker _ _ _ i k); try done. by destruct Hk.
Qed.

Lemma identify_stuck_cons sz act f w : Inv sz act f → cons_at (Inv sz act) f w [] identify_stuck_workers none.
Proof.
  intros HI. unfold identify_stuck_workers. eapply cons_seq; [by apply cancel_check_cons|].
  intros [] f1 w1 HI1. apply cons_reads. destruct (dead_mans_switch f1); [|by apply cons_ret].
  apply cons_reads. eapply cons_seq.
  { apply cons_for_each; [|exact HI1]. intros i f' w'. apply check_worker_cons. }
  intros [] f2 w2. apply reschedule_check_cons.
Qed.

(** ** Resizing *)

Lemma Inv_ext sz act act' f : (∀ i, act i ↔ act' i) → Inv sz act f → Inv sz act' f.
Proof.
  intros He [Is Ip Ipr Ir Ih Ik Iq Ia]. split; auto.
  - intros i Hi. apply Ipr, He, Hi.
  - intros i k Hi. destruct (Ir i k Hi) as [Hw Hd]. by rewrite <-He.
Qed.

Lemma Inv_insert sz (act : WorkerId → Prop) f i k :
  worker_inv k → Worker.wid k = i → is_draining k = false →
  discard_handler k = f_discard_handler f →
  Inv sz act f → Inv sz (λ x, act x ∨ x = i) (set_pool (<[i := k]> (pool f)) f).
Proof.
  intros Hk Hw Hd Hh [Is Ip Ipr Ir Ih Ik Iq Ia]. split; simpl; auto.
  - by apply pool_inv_update.
  - intros x Hx. destruct (decide (x = i)) as [->|];
      rewrite ?lookup_insert_eq, ?lookup_insert_ne by done; [done|]. apply Ipr. by destruct Hx.
  - intros x kx. destruct (decide (x = i)) as [->|];
      rewrite ?lookup_insert_eq, ?lookup_insert_ne by done.
    + intros [= <-]. split; [done|]. rewrite Hd. split; [done|]. intros Hn. exfalso. apply Hn. by right.
    + intros Hx. destruct (Ir x kx Hx) as [Hwx Hdx]. split; [done|]. rewrite Hdx. tauto.
  - intros x kx. destruct (decide (x = i)) as [->|];
      rewrite ?lookup_insert_eq, ?lookup_insert_ne by done; [by intros [= <-]|apply Ih].
Qed.

Lemma spawn_worker_cons sz act i f w :
  Inv sz act f → pool f !! i = None →
  cons_at (Inv sz (λ x, act x ∨ x = i)) f w [] (spawn_worker i) none.
Proof.
  intros HI Hi. unfold spawn_worker.
  eapply (cons_world _ _ _ _ []); [by apply liftW_ok|done|].
  destruct (w_spawn w 0) as [a|].
  2:{ eexists (Err _), _, _. split; [done|]. unfold custody, fated. simpl. lia. }
  apply (cons_upd _ _ _ _ []).
  { unfold custody. simpl. rewrite pool_jobs_insert_new by done. simpl. lia. }
  apply (cons_upd _ _ _ _ []); [done|].
  apply cons_upd_last; [done|].
  apply (Inv_same _ _ (set_pool (<[i := new_worker f i a]> (pool f)) f)); [done..|].
  apply Inv_insert; [apply worker_new_inv|done..].
Qed.

Lemma grow_one_cons sz act i f w :
  Inv sz act f → cons_at (Inv sz (λ x, act x ∨ x = i)) f w [] (grow_one i) none.
Proof.
  intros HI. unfold grow_one. apply cons_reads. destruct (pool f !! i) as [k|] eqn:Hi;
    [|by apply spawn_worker_cons].
  apply (cons_upd _ _ _ _ []).
  { unfold custody. simpl. pose proof (pool_jobs_update _ i k (set_draining false k) Hi) as Hu.
    simpl in Hu. lia. }
  assert (Inv sz (λ x, act x ∨ x = i) (set_pool (<[i := set_draining false k]> (pool f)) f)) as HI'.
  { apply Inv_insert; [|exact (proj1 (inv_role _ _ _ HI _ _ Hi))|done|exact (inv_handler _ _ _ HI _ _ Hi)|done].
    by destruct (inv_pool _ _ _ HI _ _ Hi). }
  apply cons_when; [done|]. by apply cons_upd_field.
Qed.

Lemma grow_loop_cons n m f w sz act :
  Inv sz act f → cons_at (Inv sz (λ x, act x ∨ n ≤ x < n + m)) f w [] (for_each (seq n m) grow_one) none.
Proof.
  revert n f w sz act. induction m as [|m IH]; intros n f w sz act HI; simpl.
  - apply cons_ret; [|done]. eapply Inv_ext; [|exact HI]. intros i. split; [by left|]. intros [?|?]; [done|lia].
  - eapply cons_seq; [by apply grow_one_cons|]. intros [] f1 w1 HI1.
    eapply cons_weaken; [|apply (IH (S n)); exact HI1].
    intros f2. apply Inv_ext. intros i. destruct (decide (i = n)); intuition lia.
Qed.

Lemma Inv_deactivate sz (act : WorkerId → Prop) f i k :
  pool f !! i = Some k → Inv sz act f →
  Inv sz (λ x, act x ∧ x ≠ i) (set_pool (<[i := set_draining true k]> (pool f)) f).
Proof.
  intros Hi [Is Ip Ipr Ir Ih Ik Iq Ia]. split; simpl; auto.
  - apply pool_inv_update; [done|]. by destruct (Ip _ _ Hi).
  - intros x [Hx Hne]. rewrite lookup_insert_ne by done. by apply Ipr.
  - intros x kx. destruct (decide (x = i)) as [->|];
      rewrite ?lookup_insert_eq, ?lookup_insert_ne by done.
    + intros [= <-]. split; [exact (proj1 (Ir _ _ Hi))|]. simpl. tauto.
    + intros Hx. destruct (Ir x kx Hx) as [Hwx Hdx]. split; [done|]. rewrite Hdx. tauto.
  - intros x kx. destruct (decide (x = i)) as [->|];
      rewrite ?lookup_insert_eq, ?lookup_insert_ne by done; [intros [= <-]; exact (Ih _ _ Hi)|apply Ih].
Qed.

Lemma Inv_drop sz (act : WorkerId → Prop) f i :
  Inv sz act f → Inv sz (λ x, act x ∧ x ≠ i) (set_pool (delete i (pool f)) f).
Proof.
  intros [Is Ip Ipr Ir Ih Ik Iq Ia]. split; simpl; auto.
  - intros x k [_ Hx]%lookup_delete_Some. by eapply Ip.
  - intros x [Hx Hne]. rewrite lookup_delete_ne by done. by apply Ipr.
  - intros x k [Hne Hx]%lookup_delete_Some. destruct (Ir _ _ Hx) as [Hw Hd].
    split; [done|]. rewrite Hd. intuition.
  - intros x k [_ Hx]%lookup_delete_Some. by eapply Ih.
Qed.

Lemma not_working_empty (k : Worker) : is_working k = false → message_queue k = [].
Proof.
  unfold is_working, is_available. rewrite negb_false_iff, andb_true_iff.
  intros [_ Hq]. by apply bool_decide_eq_true in Hq.
Qed.

(** An idle worker that leaves the pool takes no job with it. *)
Lemma custody_remove_idle f w i k :
  pool f !! i = Some k → is_working k = false →
  custody (set_pool (delete i (pool f)) f) w = custody f w.
Proof.
  intros Hi Hk. unfold custody. simpl. rewrite (pool_jobs_delete _ _ _ Hi).
  by rewrite (not_working_empty k Hk).
Qed.

Lemma shrink_one_cons sz act i f w :
  Inv sz act f → cons_at (Inv sz (λ x, act x ∧ x ≠ i)) f w [] (shrink_one i) none.
Proof.
  intros HI. unfold shrink_one. apply cons_reads. destruct (pool f !! i) as [k|] eqn:Hi.
  2:{ apply cons_ret; [|done]. apply (Inv_same _ _ (set_pool (delete i (pool f)) f));
        [done|simpl; by rewrite delete_id|done|done|by apply Inv_drop]. }
  destruct (is_working k) eqn:Hk.
  - apply cons_upd_last; [|by apply Inv_deactivate].
    unfold custody. simpl. pose proof (pool_jobs_update _ i k (set_draining true k) Hi) as Hu.
    simpl in Hu. lia.
  - apply (cons_upd _ _ _ _ []); [done|].
    set (f1 := set_router (on_worker_availability_change i false (router f)) f).
    eapply (cons_bind (λ f', f' = f1)); [by apply cons_emit|]. intros [] f2 w2 _ ->.
    apply (cons_upd _ _ _ _ []); [by rewrite (custody_remove_idle f1 w2 i k)|].
    apply cons_upd_last; [unfold custody; simpl; lia|].
    apply (Inv_same _ _ (set_pool (delete i (pool f)) f)); [done..|by apply Inv_drop].
Qed.

Lemma shrink_loop_cons n m f w sz act :
  Inv sz act f →
  cons_at (Inv sz (λ x, act x ∧ ¬ (n ≤ x < n + m))) f w [] (for_each (seq n m) shrink_one) none.
Proof.
  revert n f w sz act. induction m as [|m IH]; intros n f w sz act HI; simpl.
  - apply cons_ret; [|done]. eapply Inv_ext; [|exact HI]. intros i. intuition lia.
  - eapply cons_seq; [by apply shrink_one_cons|]. intros [] f1 w1 HI1.
    eapply cons_weaken; [|apply (IH (S n)); exact HI1].
    intros f2. apply Inv_ext. intros i. destruct (decide (i = n)); intuition lia.
Qed.

Lemma route_backlog_cons n f w : FInv f → cons_at FInv f w [] (route_backlog n) none.
Proof.
  revert f w. induction n as [|n IH]; intros f w HI; simpl; [by apply cons_ret|].
  apply cons_reads. destruct (q_peek (queue f)); [|by apply cons_ret].
  eapply cons_seq; [by apply try_route_cons|]. intros [] f' w'. apply IH.
Qed.

(** Growing and shrinking only add and remove the workers between the two sizes. *)
Lemma resize_workers_cons n f w :
  FInv f →
  cons_at (Inv (pool_size f) (λ i, i < n)) f w []
    (if bool_decide (pool_size f < n) then grow_pool (n - pool_size f)
     else if bool_decide (n < pool_size f) then shrink_pool (pool_size f - n)
     else mret tt) none.
Proof.
  intros HI. case_bool_decide.
  { unfold grow_pool. apply cons_reads. eapply cons_seq; [apply grow_loop_cons; exact HI|].
    intros [] f1 w1 HI1. apply cons_reads.
    assert (Inv (pool_size f) (λ i, i < n) f1) as HI2 by (eapply Inv_ext; [|exact HI1]; intros i; simpl; lia).
    apply cons_when; [done|]. by apply ping_workers_cons. }
  case_bool_decide.
  - unfold shrink_pool. apply cons_reads.
    eapply cons_weaken; [|apply shrink_loop_cons; exact HI].
    intros f1. apply Inv_ext. intros i. lia.
  - apply cons_ret; [|done]. eapply Inv_ext; [|exact HI]. intros i. simpl. lia.
Qed.

Lemma resize_pool_cons n f w : FInv f → cons_at FInv f w [] (resize_pool n) none.
Proof.
  intros HI. unfold resize_pool. case_bool_decide; [by apply cons_ret|]. apply cons_reads.
  eapply cons_seq; [by apply resize_workers_cons|]. intros [] f1 w1 HI1.
  apply (cons_upd _ _ _ _ []); [done|].
  assert (FInv (set_pool_size (GLOBAL_WORKER_POOL_MAXIMUM `min` n) f1)) as HI2
    by (destruct HI1; by split).
  apply cons_when; [done|]. by apply route_backlog_cons.
Qed.

(** ** The message handlers *)

(** The operations above, seen from the factory's own invariant. *)
Lemma cons_FInv {A} f w pre (m : FM A) post :
  cons_at (Inv (pool_size f) (λ i, i < pool_size f)) f w pre m post → cons_at FInv f w pre m post.
Proof. apply cons_weaken. intros f'. apply FInv_intro. Qed.

Lemma announce_cons sz act who f w :
  Inv sz act f → cons_at (Inv sz act) f w [] (announce_if_available who) none.
Proof.
  intros HI. unfold announce_if_available. apply cons_reads. apply cons_when; [done|].
  by apply cons_upd_field.
Qed.

(** A step whose result is known. *)
Lemma cons_step {A B} J f w pre (m : FM A) (k : A → FM B) post a f' w' :
  m (f, w) = (Ok a, (f', w')) → custody f' w' = custody f w →
  cons_at J f' w' pre (k a) post → cons_at J f w pre (m ≫= k) post.
Proof.
  intros E Hc (r & f2 & w2 & E2 & Hr). exists r, f2, w2. split; [by erewrite bind_ok by exact E|].
  destruct r; [|lia|done]. destruct Hr. split; [done|lia].
Qed.

Lemma complete_worker_spec who key f w :
  FInv f → ∃ ds f' w', complete_worker who key (f, w) = (Ok ds, (f', w')) ∧
    FInv f' ∧ custody f' w' = custody f w ∧
    (ds.2 = true → ∃ k, pool f' !! who = Some k ∧ is_draining k = true ∧ is_working k = false).
Proof.
  intros HI. unfold complete_worker, reads. rewrite bind_gets. simpl.
  destruct (pool f !! who) as [k|] eqn:Hk; [|by exists (false, false), f, w].
  destruct (worker_complete_ok key k w (inv_pool _ _ _ HI _ _ Hk)) as (o & k' & w1 & E & Hok & Hr).
  injection Hr as Hw _ Hd.
  set (f1 := set_pool (<[who := k']> (pool f)) f).
  assert (FInv f1) as HI1 by (eapply Inv_worker; [done|apply Hok|done|done|apply Hok|done]).
  assert (custody f1 w1 = custody f w) as Hc1
    by (unfold f1; rewrite (custody_op _ _ f w who k k' w1 []) by done; simpl; lia).
  assert (on_pool_worker who k (worker_complete key) (f, w) = (Ok o, (f1, w1))) as E1
    by (unfold on_pool_worker; simpl; by rewrite E).
  erewrite bind_ok by exact E1.
  assert (∃ w2, (match o with Some job_options => fstat (JobCompleted job_options)
    | None => mret tt end : FM unit) (f1, w1) = (Ok tt, (f1, w2)) ∧ fated p w2 = fated p w1)
    as (w2 & E2 & Hf2) by (destruct o; [apply fstat_spec|by eexists]).
  erewrite bind_ok by exact E2.
  eexists _, f1, w2. split; [done|]. split; [done|]. split; [unfold custody in *; lia|].
  simpl. rewrite lookup_insert_eq. simpl. rewrite andb_true_iff, negb_true_iff.
  intros [? ?]. by exists k'.
Qed.

Lemma drop_worker_cons who k f w :
  FInv f → pool f !! who = Some k → is_draining k = true → is_working k = false →
  cons_at FInv f w [] (drop_worker who) none.
Proof.
  intros HI Hk Hdr Hw. unfold drop_worker. apply cons_reads. rewrite Hk.
  apply (cons_upd _ _ _ _ []); [by rewrite (custody_remove_idle _ _ who k)|].
  apply (cons_upd _ _ _ _ []); [done|]. apply cons_emit; [done|].
  apply (Inv_same _ _ (set_pool (delete who (pool f)) f)); [done..|].
  apply Inv_remove; [|done]. by apply (inv_role _ _ _ HI _ _ Hk).
Qed.

Lemma worker_finished_cons who key f w :
  FInv f → cons_at FInv f w [] (worker_finished_job who key) none.
Proof.
  intros HI. unfold worker_finished_job.
  destruct (complete_worker_spec who key f w HI) as ([d s] & f1 & w1 & E1 & HI1 & Hc1 & Hs).
  eapply cons_step; [exact E1|done|]. simpl in *. destruct s.
  - destruct (Hs eq_refl) as (k & Hk & Hd & Hw). by eapply drop_worker_cons.
  - destruct d; [by apply cons_ret|]. eapply cons_seq; [by apply try_route_cons|].
    intros [] f' w' HI'. by apply cons_FInv, announce_cons.
Qed.

Lemma worker_pong_cons i t f w : FInv f → cons_at FInv f w [] (worker_pong i t) none.
Proof.
  intros HI. unfold worker_pong. do 2 apply cons_reads.
  destruct (pool f !! i) as [k|] eqn:Hi; [|by apply cons_ret].
  destruct (ping_received_ok t (discard_limit f) k w (inv_pool _ _ _ HI _ _ Hi))
    as (k' & w' & E & Hok & Hr). injection Hr as Hw _ Hd.
  apply cons_FInv. eapply cons_weaken; [|by eapply on_pool_worker_cons]. by intros f' [].
Qed.

Lemma expire_backlog_cons f w :
  FInv f → cons_at FInv f w []
    (h ← reads f_discard_handler;
     num_removed ← on_queue (q_remove_expired h);
     fstat (JobTtlExpired num_removed)) none.
Proof.
  intros HI. apply cons_reads.
  destruct (q_expire_law (f_discard_handler f) (queue f) w (inv_queue _ _ _ HI))
    as (n & q' & w' & E & _ & _ & _ & Hc & Hwf & Ha).
  eapply cons_step.
  - unfold on_queue. simpl. by rewrite E.
  - unfold custody. simpl. pose proof (Hc p Hp (inv_keeps _ _ _ HI)). lia.
  - apply cons_fstat_last. by apply Inv_queue.
Qed.

Lemma calculate_metrics_cons f w : FInv f → cons_at FInv f w [] calculate_metrics none.
Proof.
  intros HI. unfold calculate_metrics. apply cons_reads. apply cons_fstat. intros w1 _.
  apply cons_reads. eapply (cons_seq FInv).
  { destruct (capacity_controller f); [|by apply cons_ret].
    eapply (cons_world _ _ _ _ []); [by apply liftW_ok|done|]. apply cons_reads.
    apply cons_when; [done|]. by apply resize_pool_cons. }
  intros [] f2 w2 HI2. do 3 apply cons_reads.
  do 3 (apply cons_fstat; intros ? _). apply cons_reads. apply cons_fstat. intros w3 _.
  apply cons_reads. eapply (cons_seq FInv).
  - destruct (is_factory_queueing (router f2)); [by apply expire_backlog_cons|by apply cons_ret].
  - intros [] f4 w4 HI4. by apply cons_emit.
Qed.

Lemma send_pings_cons t f w : FInv f → cons_at FInv f w [] (send_pings t) none.
Proof.
  intros HI. unfold send_pings. apply cons_fstat. intros w1 _. apply cons_reads.
  eapply (cons_seq FInv).
  { destruct (f_discard_settings f); try by apply cons_ret.
    eapply (cons_world _ _ _ _ []); [by apply liftW_ok|done|].
    apply cons_upd_last; [done|by apply (Inv_same _ _ f)]. }
  intros [] f2 w2 HI2. eapply cons_seq; [by apply cons_FInv, ping_workers_cons|].
  intros [] f3 w3 HI3. by apply cons_emit.
Qed.

Lemma call_hook_cons sz act h f w : Inv sz act f → cons_at (Inv sz act) f w [] (call_hook h) none.
Proof.
  intros HI. unfold call_hook. apply cons_reads. destruct (lifecycle_hooks f); [|by apply cons_ret].
  eapply cons_seq; [by apply cons_emit|]. intros [] f1 w1 HI1.
  eapply (cons_world _ _ _ _ []); [by apply liftW_ok|done|].
  destruct (w_hook w1 0); [by apply cons_ret|].
  eexists (Err _), f1, _. split; [done|]. simpl. lia.
Qed.

Lemma drain_requests_cons f w : FInv f → cons_at FInv f w [] drain_requests none.
Proof.
  intros HI. unfold drain_requests. apply (cons_upd _ _ _ _ []); [done|].
  apply cons_FInv, call_hook_cons. by apply (Inv_same _ _ f).
Qed.

(** An update of every worker that leaves its jobs and its role alone. *)
Lemma Inv_update_pool sz act (g : Worker → Worker) f :
  (∀ k, message_queue (g k) = message_queue k ∧ curr_jobs (g k) = curr_jobs k ∧
        pending_key_counts (g k) = pending_key_counts k ∧ role (g k) = role k) →
  (∀ k, discard_handler k = f_discard_handler f → discard_handler (g k) = f_discard_handler f) →
  Inv sz act f → Inv sz act (set_pool (g <$> pool f) f).
Proof.
  intros Hg Hh [Is Ip Ipr Ir Ih Ik Iq Ia]. split; simpl; auto.
  - intros i k Hi. rewrite lookup_fmap in Hi. destruct (pool f !! i) as [k0|] eqn:E; [|done].
    injection Hi as <-. destruct (Hg k0) as (Eq & Ec & Ep & _), (Ip _ _ E) as [Ht Hs].
    split; [|by rewrite Ec]. eapply tracked_queue_perm; [exact Ep|exact Ec|by rewrite Eq|done].
  - intros i Hi. rewrite lookup_fmap. destruct (Ipr i Hi) as [k ->]. by eexists.
  - intros i k Hi. rewrite lookup_fmap in Hi. destruct (pool f !! i) as [k0|] eqn:E; [|done].
    injection Hi as <-. destruct (Hg k0) as (_ & _ & _ & Er). injection Er as Ew _ Ed.
    rewrite Ew, Ed. by apply Ir.
  - intros i k Hi. rewrite lookup_fmap in Hi. destruct (pool f !! i) as [k0|] eqn:E; [|done].
    injection Hi as <-. apply Hh. by eapply Ih.
Qed.

Lemma update_pool_cons sz act (g : Worker → Worker) f w :
  (∀ k, message_queue (g k) = message_queue k ∧ curr_jobs (g k) = curr_jobs k ∧
        pending_key_counts (g k) = pending_key_counts k ∧ role (g k) = role k) →
  (∀ k, discard_handler k = f_discard_handler f → discard_handler (g k) = f_discard_handler f) →
  Inv sz act f → cons_at (Inv sz act) f w [] (update_pool g) none.
Proof.
  intros Hg Hh HI. apply cons_upd_last; [|by apply Inv_update_pool].
  unfold custody. simpl. rewrite pool_jobs_same_queues; [lia|]. intros k. apply Hg.
Qed.

Lemma update_handler_cons h f w :
  handler_keeps p h → FInv f →
  cons_at FInv f w [] (update_pool (set_discard_handler h) ;; upd (set_fdiscard_handler h)) none.
Proof.
  intros Hh HI. apply (cons_upd _ _ _ _ []).
  { unfold custody. simpl. by rewrite pool_jobs_same_queues. }
  apply cons_upd_last; [done|].
  destruct HI as [Is Ip Ipr Ir Ih Ik Iq Ia]. split; simpl; auto.
  - intros i k Hi. rewrite lookup_fmap in Hi. destruct (pool f !! i) as [k0|] eqn:E; [|done].
    injection Hi as <-. by destruct (Ip _ _ E).
  - intros i Hi. rewrite lookup_fmap. destruct (Ipr i Hi) as [k ->]. by eexists.
  - intros i k Hi. rewrite lookup_fmap in Hi. destruct (pool f !! i) as [k0|] eqn:E; [|done].
    injection Hi as <-. exact (Ir _ _ E).
  - intros i k Hi. rewrite lookup_fmap in Hi. destruct (pool f !! i) as [k0|] eqn:E; [|done].
    by injection Hi as <-.
Qed.

Definition settings_keep (req : UpdateSettingsRequest K Msg) : Prop :=
  match us_discard_handler req with Some h => handler_keeps p h | None => True end.

Lemma update_settings_cons req f w :
  settings_keep req → FInv f → cons_at FInv f w [] (update_settings req) none.
Proof.
  intros Hk HI. unfold update_settings, settings_keep in *.
  eapply (cons_seq FInv).
  { destruct (us_discard_handler req); [by apply update_handler_cons|by apply cons_ret]. }
  intros [] f1 w1 HI1. eapply (cons_seq FInv).
  { destruct (us_discard_settings req) as [d|]; [|by apply cons_ret]. apply cons_reads.
    eapply cons_seq; [by apply cons_FInv, update_pool_cons|]. intros [] f' w' HI'.
    by apply cons_FInv, cons_upd_field. }
  intros [] f2 w2 HI2. eapply (cons_seq FInv).
  { destruct (us_dead_mans_switch req) as [d|]; [|by apply cons_ret].
    apply (cons_upd _ _ _ _ []); [done|].
    assert (FInv (set_dead_mans_switch d f2)) as HI' by by apply (Inv_same _ _ f2).
    eapply (cons_seq FInv); [apply cons_when; [done|by apply cons_FInv, ping_workers_cons]|].
    intros [] f' w' HI''. by apply cons_FInv, reschedule_check_cons. }
  intros [] f3 w3 HI3. eapply (cons_seq FInv).
  { destruct (us_capacity_controller req); [by apply cons_FInv, cons_upd_field|by apply cons_ret]. }
  intros [] f4 w4 HI4. eapply (cons_seq FInv).
  { destruct (us_lifecycle_hooks req); [by apply cons_FInv, cons_upd_field|by apply cons_ret]. }
  intros [] f5 w5 HI5. eapply (cons_seq FInv).
  { destruct (us_stats req); [by apply cons_FInv, cons_upd_field|by apply cons_ret]. }
  intros [] f6 w6 HI6.
  destruct (us_worker_count req); [by apply resize_pool_cons|by apply cons_ret].
Qed.

Lemma is_drained_cons f w : FInv f → cons_at FInv f w [] is_drained none.
Proof.
  intros HI. unfold is_drained. apply cons_reads. destruct (drain_state f); try by apply cons_ret.
  apply cons_reads. destruct (_ && _); [|by apply cons_ret].
  apply (cons_upd _ _ _ _ []); [done|]. apply cons_ret; [by apply (Inv_same _ _ f)|done].
Qed.

(** The jobs a message brings in, and the handlers it may install. *)
Definition message_jobs (m : FactoryMessage K Msg) : list Job :=
  match m with Dispatch job => [job] | _ => [] end.

Definition message_keeps (m : FactoryMessage K Msg) : Prop :=
  match m with UpdateSettings req => settings_keep req | _ => True end.

Lemma handle_message_cons m f w :
  message_keeps m → FInv f → cons_at FInv f w (message_jobs m) (handle_message myself m) none.
Proof.
  intros Hm HI. unfold handle_message. eapply (cons_bind FInv _ _ _ _ _ _ none).
  { destruct m; simpl in *.
    - by apply dispatch_cons.
    - by apply worker_finished_cons.
    - by apply send_pings_cons.
    - by apply calculate_metrics_cons.
    - by apply worker_pong_cons.
    - by apply cons_FInv, identify_stuck_cons.
    - apply cons_reads. by apply cons_emit.
    - by apply resize_pool_cons.
    - apply cons_reads. by apply cons_emit.
    - apply cons_reads. by apply cons_emit.
    - by apply drain_requests_cons.
    - by apply update_settings_cons. }
  intros [] f1 w1 _ HI1. eapply cons_seq; [by apply is_drained_cons|].
  intros d f2 w2 HI2. apply cons_when; [done|by apply cons_emit].
Qed.

(** ** Supervision *)

Lemma replace_and_ping_ok a (b : bool) (k : Worker) w :
  worker_inv k →
  ∃ k' w', (replace_worker a a ;; when b send_factory_ping) (k, w) = (Ok tt, (k', w')) ∧
    op_ok k w [] k' w' ∧ Worker.wid k' = Worker.wid k ∧ is_draining k' = is_draining k.
Proof.
  intros Hk. destruct (replace_worker_ok a a k w Hk) as (k1 & w1 & E1 & Hok1 & Hr1).
  injection Hr1 as Hw1 Ha1 Hd1. destruct b; simpl.
  - destruct (send_factory_ping_ok k1 w1 (op_inv _ _ _ _ _ Hok1)) as (k2 & w2 & E2 & Hok2 & Hr2).
    injection Hr2 as Hw2 Ha2 Hd2. exists k2, w2. erewrite bind_ok by exact E1. split; [done|].
    split; [by apply (op_ok_trans _ _ [] _ _ [] _ _ Hok1 Hok2)|]. split; congruence.
  - exists k1, w1. erewrite bind_ok by exact E1. by split.
Qed.

Lemma replace_terminated_cons who f w : FInv f → cons_at FInv f w [] (replace_terminated who) none.
Proof.
  intros HI. unfold replace_terminated. do 3 apply cons_reads.
  destruct (worker_by_actor f !! who) as [i|]; simpl; [|by apply cons_ret].
  destruct (pool f !! i) as [k|] eqn:Hi; simpl; [|by apply cons_ret].
  eapply (cons_world _ _ _ _ []); [by apply liftW_ok|done|].
  destruct (w_spawn w 0) as [a|].
  2:{ eexists (Err _), f, _. split; [done|]. simpl. lia. }
  set (w1 := (spawn_outcome w).2 : World).
  destruct (replace_and_ping_ok a (bool_decide (is_Some (dead_mans_switch f))) k w1
    (inv_pool _ _ _ HI _ _ Hi)) as (k' & w' & E & Hok & Hw & Hd).
  eapply (cons_bind FInv _ _ _ _ _ _ none).
  { apply cons_FInv. eapply cons_weaken; [|by eapply on_pool_worker_cons]. by intros f' []. }
  intros [] f1 w2 _ HI1. apply (cons_upd _ _ _ _ []); [done|].
  eapply cons_seq; [apply try_route_cons; by apply (Inv_same _ _ f1)|].
  intros [] f2 w3 HI2. by apply cons_FInv, announce_cons.
Qed.

Lemma supervisor_evt_cons e f w : FInv f → cons_at FInv f w [] (handle_supervisor_evt e) none.
Proof.
  intros HI. destruct e; [by apply replace_terminated_cons..|by apply cons_ret].
Qed.

(** ** Starting and stopping *)

Lemma initial_inv name a :
  q_wf (a_queue a) → (∀ k, q_admits (a_queue a) k) → handler_keeps p (a_discard_handler a) →
  Inv (a_num_initial_workers a) (λ _, False) (initial_state name a).
Proof.
  intros Hq Ha Hh. by split; simpl; [|intros i k; rewrite lookup_empty|
    |intros i k; rewrite lookup_empty|intros i k; rewrite lookup_empty|..].
Qed.

Lemma start_loop_cons n m f w sz :
  Inv sz (λ i, i < n) f → (∀ i, n ≤ i → pool f !! i = None) →
  cons_at (Inv sz (λ i, i < n + m)) f w [] (for_each (seq n m) spawn_worker) none.
Proof.
  revert n f w. induction m as [|m IH]; intros n f w HI Hn; simpl.
  - apply cons_ret; [|done]. by rewrite Nat.add_0_r.
  - eapply (cons_bind (λ f', Inv sz (λ i, i < S n) f' ∧ ∀ i, S n ≤ i → pool f' !! i = None)
      _ _ _ _ _ _ none).
    + destruct (spawn_worker_cons sz _ n f w HI (Hn n ltac:(lia))) as (r & f' & w' & E & Hr).
      exists r, f', w'. split; [done|]. destruct r; [|done|done]. destruct Hr as [HI' Hc].
      split; [|done]. split; [eapply Inv_ext; [|exact HI']; intros i; simpl; lia|].
      intros i Hi. unfold spawn_worker in E. erewrite bind_liftW in E by done.
      destruct (w_spawn w 0); [|done]. injection E as <- <- <-. simpl.
      rewrite lookup_insert_ne by lia. apply Hn. lia.
    + intros [] f' w' _ [HI' Hn']. rewrite <-Nat.add_succ_comm. by apply IH.
Qed.

Lemma pre_start_cons name a w :
  q_wf (a_queue a) → (∀ k, q_admits (a_queue a) k) → handler_keeps p (a_discard_handler a) →
  cons_at FInv (initial_state name a) w [] pre_start none.
Proof.
  intros Hq Ha Hh. unfold pre_start. apply cons_reads.
  eapply (cons_seq FInv).
  { apply cons_FInv. apply (start_loop_cons 0); [|intros i _; apply lookup_empty].
    eapply Inv_ext; [|by apply initial_inv]. intros i. simpl. lia. }
  intros [] f1 w1 HI1. apply cons_reads.
  eapply (cons_seq FInv); [apply cons_when; [done|by apply cons_FInv, ping_workers_cons]|].
  intros [] f2 w2 HI2. eapply cons_seq; [by apply cons_emit|].
  intros [] f3 w3 HI3. eapply cons_seq; [by apply cons_emit|].
  intros [] f4 w4 HI4. destruct (dead_mans_switch f1); [|by apply cons_ret].
  eapply cons_seq; [by apply cons_emit|]. intros [] f5 w5 HI5. by apply cons_FInv, cons_upd_field.
Qed.

Lemma discard_backlog_cons fuel h f w :
  FInv f → f_discard_handler f = Some h → length (q_jobs (queue f)) ≤ fuel →
  cons_at (λ f', FInv f' ∧ q_jobs (queue f') = []) f w [] (discard_backlog fuel h) none.
Proof.
  intros HI Hh. assert (handler_keeps p (Some h)) as Hk by (rewrite <-Hh; apply HI).
  clear Hh. revert f w HI. induction fuel as [|fuel IH]; intros f w HI Hl;
    pose proof (pop_cases f HI) as Hc; simpl; apply cons_reads;
    destruct (q_jobs (queue f)) as [|j l] eqn:Ej; simpl in Hl.
  1,3: pose proof (q_pop_law _ (inv_queue _ _ _ HI)) as Hpop; rewrite Ej in Hpop; rewrite Hpop;
       apply (cons_upd _ _ _ _ []); [done|]; apply cons_ret; [|done];
       split; [by apply (Inv_same _ _ f)|done].
  { lia. }
  destruct Hc as [_ (q' & Epop & Hq' & HI' & Hcust)]. rewrite Epop. simpl.
  apply (cons_upd _ _ _ _ [j]); [specialize (Hcust w); simpl; lia|].
  eapply (cons_world _ _ _ _ [h Shutdown j]); [by apply liftW_ok| |].
  { simpl. rewrite (quiet_fated p w); [|by eapply quiet_emit]. by rewrite (Hk Shutdown j). }
  destruct (drop_spec (h Shutdown j) (emit (EvDiscard Shutdown j) w).2) as (w2 & E2 & _ & Hf2).
  eapply (cons_world _ _ _ _ []); [by apply liftW_ok; exact E2|simpl; rewrite (Hf2 p); simpl; lia|].
  apply IH; [done|]. simpl. rewrite Hq'. lia.
Qed.

Lemma post_stop_cons f w : FInv f → cons_at FInv f w [] post_stop none.
Proof.
  intros HI. unfold post_stop. eapply cons_seq; [by apply cons_FInv, cancel_check_cons|].
  intros [] f1 w1 HI1. apply cons_reads. eapply (cons_seq FInv).
  { destruct (f_discard_handler f1) eqn:Eh; [|by apply cons_ret]. apply cons_reads.
    eapply cons_weaken; [|apply discard_backlog_cons; [done|done|]]; [by intros f' []|].
    rewrite q_len_law; [done|apply HI1]. }
  intros [] f2 w2 HI2. apply cons_reads. eapply (cons_seq FInv).
  { apply cons_for_each; [|done]. intros x f' w' HI'. by apply cons_emit. }
  intros [] f3 w3 HI3. eapply cons_seq; [by apply cons_FInv, update_pool_cons|].
  intros [] f4 w4 HI4. by apply cons_FInv, call_hook_cons.
Qed.

(** ** Histories of a factory *)

(** The runtime delivers messages and supervision events one at a time, until a
    handler fails. *)
Inductive factory_event :=
| EventMessage (m : FactoryMessage K Msg)
| EventSupervision (e : FactorySupervisionEvent).

Definition run_event (e : factory_event) : FM unit :=
  match e with
  | EventMessage m => handle_message myself m
  | EventSupervision e => handle_supervisor_evt e
  end.

Definition factory_run (evs : list factory_event) : FM unit :=
  pre_start ;; post_start ;; for_each evs run_event.

Definition event_jobs (e : factory_event) : list Job :=
  match e with EventMessage m => message_jobs m | EventSupervision _ => [] end.

Definition event_keeps (e : factory_event) : Prop :=
  match e with EventMessage m => message_keeps m | EventSupervision _ => True end.

Lemma run_event_cons e f w :
  event_keeps e → FInv f → cons_at FInv f w (event_jobs e) (run_event e) none.
Proof. destruct e; simpl; intros He HI; [by apply handle_message_cons|by apply supervisor_evt_cons]. Qed.

(** The events that were run account for the jobs. *)
Lemma run_events_spec evs f w :
  Forall event_keeps evs → FInv f →
  ∃ r f' w' done_ rest, for_each evs run_event (f, w) = (r, (f', w')) ∧ evs = done_ ++ rest ∧
    custody f' w' = custody f w + countb p (done_ ≫= event_jobs) ∧
    match r with Ok _ => rest = [] ∧ FInv f' | Err _ => True | Panic => False end.
Proof.
  intros Hk. revert f w. induction Hk as [|e evs He Hk IH]; intros f w HI; simpl.
  { exists (Ok tt), f, w, [], []. split; [done|]. split; [done|]. simpl. split; [lia|done]. }
  destruct (run_event_cons e f w He HI) as (r & f1 & w1 & E1 & Hr). destruct r as [[]|err|]; [| |done].
  - destruct Hr as [HI1 Hc1]. destruct (IH f1 w1 HI1) as (r & f2 & w2 & dn & rest & E2 & -> & Hc2 & Hr2).
    exists r, f2, w2, (e :: dn), rest. erewrite bind_ok by exact E1. split; [done|]. split; [done|].
    split; [|done]. csimpl. rewrite countb_app. simpl in Hc1. lia.
  - exists (Err err), f1, w1, [e], evs. split; [unfold mbind, M_bind; by rewrite E1|].
    split; [done|]. split; [|done]. csimpl. by rewrite app_nil_r.
Qed.

End facts.

Arguments factory_event : clear implicits.

(** ** Properties *)

Section properties.
Context {K Msg : Type} `{Countable K} {R Q : Type}.
Context `{!HashMapIter (WorkerProperties K Msg)} `{!Router K Msg R} `{!Queue K Msg Q}.
Context `{!RouterLaws K Msg R} `{!QueueLaws K Msg Q}.
Implicit Types (w : World K Msg) (a : FactoryArguments K Msg R Q) (f : FactoryState K Msg R Q).

(** The queue a factory is started with is well formed and accepts every key. *)
Definition arguments_ok a : Prop := q_wf (a_queue a) ∧ ∀ k, q_admits (a_queue a) k.

(** Starting a factory and running a history, in one judgement. *)
Lemma factory_run_spec p myself name a evs w :
  stable p → arguments_ok a → handler_keeps p (a_discard_handler a) → Forall (event_keeps p) evs →
  ∃ r f w' done_ rest, factory_run myself evs (initial_state name a, w) = (r, (f, w')) ∧
    evs = done_ ++ rest ∧
    custody p f w' = custody p (initial_state name a) w + countb p (done_ ≫= event_jobs) ∧
    match r with Ok _ => rest = [] ∧ FInv p f | Err _ => True | Panic => False end.
Proof.
  intros Hp [Hq Ha] Hh Hk. unfold factory_run.
  destruct (pre_start_cons p Hp name a w Hq Ha Hh) as (r & f1 & w1 & E1 & Hr).
  destruct r as [[]|err|]; [destruct Hr as [HI1 Hc1]| |done].
  2:{ exists (Err err), f1, w1, [], evs. split; [unfold mbind, M_bind; by rewrite E1|].
      split; [done|]. simpl. simpl in Hr. split; [lia|done]. }
  erewrite bind_ok by exact E1.
  destruct (call_hook_cons p (pool_size f1) _ OnFactoryStarted f1 w1 HI1) as (r & f2 & w2 & E2 & Hr).
  unfold post_start. destruct r as [[]|err|]; [destruct Hr as [HI2 Hc2]| |done].
  2:{ exists (Err err), f2, w2, [], evs. split; [unfold mbind, M_bind; by rewrite E2|].
      split; [done|]. simpl in *. split; [lia|done]. }
  erewrite bind_ok by exact E2.
  destruct (run_events_spec myself p Hp evs f2 w2 Hk (FInv_intro _ _ _ HI2))
    as (r & f3 & w3 & dn & rest & E3 & -> & Hc3 & Hr3).
  exists r, f3, w3, dn, rest. split; [done|]. split; [done|]. simpl in *. split; [lia|done].
Qed.

(** Enqueueing does not return an error. *)
Lemma fstat_errorless x : errorless (fstat x : M (FactoryState K Msg R Q * World K Msg) unit).
Proof.
  unfold fstat, reads, stat. apply errorless_bind; [done|]. intros [[h|] n]; apply errorless_zoom; done.
Qed.

Lemma push_backlog_errorless job :
  errorless (push_backlog job : M (FactoryState K Msg R Q * World K Msg) unit).
Proof. unfold push_backlog. apply errorless_bind; [done|]. by intros []. Qed.

Lemma shed_backlog_errorless fuel limit :
  errorless (shed_backlog fuel limit : M (FactoryState K Msg R Q * World K Msg) unit).
Proof.
  induction fuel as [|fuel IH]; simpl; (apply errorless_bind; [done|]); intros n;
    case_bool_decide; try done.
  apply errorless_bind; [done|]. intros [o q]. apply errorless_bind; [done|]. intros _.
  apply errorless_bind; [|done]. destruct o; [|done]. simpl.
  apply errorless_bind; [apply fstat_errorless|]. intros _. apply errorless_bind; [done|].
  intros [h|]; (apply errorless_bind; [by apply errorless_zoom|]); intros j'; by apply errorless_zoom.
Qed.

Lemma maybe_enqueue_errorless job :
  errorless (maybe_enqueue job : M (FactoryState K Msg R Q * World K Msg) unit).
Proof.
  assert (errorless (accept job)) as Ha by (unfold accept; by case_match).
  unfold maybe_enqueue. apply errorless_bind; [done|]. intros d. apply errorless_bind; [done|].
  intros [[limit []]|].
  - apply errorless_bind; [by apply errorless_zoom|]. intros j.
    apply errorless_bind; [apply push_backlog_errorless|]. intros _.
    apply errorless_bind; [done|]. intros n. apply shed_backlog_errorless.
  - apply errorless_bind; [done|]. intros n. destruct (d && _).
    + apply errorless_bind; [apply fstat_errorless|]. intros _. unfold discard_and_reject.
      apply errorless_bind; [done|]. intros h. apply errorless_bind.
      * apply errorless_zoom. unfold run_discard. by destruct h.
      * intros j. apply errorless_zoom. unfold reject. by destruct (job_accepted j).
    + apply errorless_bind; [by apply errorless_zoom|]. intros j. apply push_backlog_errorless.
  - apply errorless_bind; [by apply errorless_zoom|]. intros j. apply push_backlog_errorless.
Qed.

(** C6: A factory loses and duplicates no job.  Start a factory with any router
    and queue that satisfy their laws and deliver any sequence of messages and
    supervision events, in any environment; for every class of jobs that depends
    on key and message only and that all discard handlers respect, the jobs
    initially queued plus those dispatched by the events that were run are exactly
    those in the workers' queues, those in the backlog, and those that left the
    factory by delivery to a worker actor, return to the submitter or drop.  This
    holds also when a handler fails half-way. *)
Theorem factory_conserves_jobs p myself name a evs w :
  stable p → arguments_ok a → handler_keeps p (a_discard_handler a) → Forall (event_keeps p) evs →
  ∃ r f w' done_ rest, factory_run myself evs (initial_state name a, w) = (r, (f, w')) ∧
    evs = done_ ++ rest ∧ (is_ok r = true → rest = []) ∧
    countb p (q_jobs (a_queue a)) + countb p (done_ ≫= event_jobs) + fated p w =
    countb p (pool_jobs (pool f)) + countb p (q_jobs (queue f)) + fated p w'.
Proof.
  intros Hp Ha Hh Hk.
  destruct (factory_run_spec p myself name a evs w Hp Ha Hh Hk) as (r & f & w' & dn & rest & E & Ee & Hc & Hr).
  exists r, f, w', dn, rest. split; [done|]. split; [done|].
  split; [by destruct r as [| |]; [destruct Hr|..]|]. unfold custody in Hc. simpl in Hc.
  rewrite pool_jobs_empty in Hc. simpl in Hc. lia.
Qed.

(** C7: A factory does not panic and keeps its pool in order.  In particular the
    panic of [try_route_next_active_job] (a job handed back although a worker was
    chosen for it) is unreachable.  After any history that was not cut short by
    an error of the environment, the workers below the pool size are exactly the
    ones not draining and are all present, every worker has its own id, and the
    bookkeeping of every worker is exact. *)
Theorem factory_pool_in_order myself name a evs w :
  arguments_ok a →
  ∃ r f w', factory_run myself evs (initial_state name a, w) = (r, (f, w')) ∧
    match r with
    | Panic => False
    | Err _ => True
    | Ok _ => (∀ i, i < pool_size f → is_Some (pool f !! i)) ∧
        ∀ i k, pool f !! i = Some k →
          Worker.wid k = i ∧ (is_draining k = true ↔ pool_size f ≤ i) ∧ worker_inv k
    end.
Proof.
  intros Ha. assert (∀ h, handler_keeps (λ _ : Job K Msg, true) h) as Hh by by intros [].
  destruct (factory_run_spec (λ _, true) myself name a evs w ltac:(done) Ha (Hh _))
    as (r & f & w' & dn & rest & E & _ & _ & Hr).
  { apply Forall_forall. intros [[]|] _; try done. simpl. unfold settings_keep. by case_match. }
  exists r, f, w'. split; [done|]. destruct r as [[]| |]; [|done|done].
  destruct Hr as [_ [Is Ip Ipr Ir Ih Ik Iq Iadm]]. split; [done|]. intros i k Hi.
  destruct (Ir i k Hi) as [Hw Hd]. split; [done|]. split; [rewrite Hd; lia|by eapply Ip].
Qed.

(** The backlog respects the load-shedding limit.  When a job that finds all
    workers busy is enqueued, the backlog afterwards holds at most [limit] jobs in
    [Oldest] mode; in [Newest] mode it does not grow beyond the limit unless the
    job is one the queue calls non-discardable; without a limit it grows by one. *)
Theorem factory_backlog_limit job f w :
  FInv (λ _ : Job K Msg, true) f →
  ∃ f' w', maybe_enqueue job (f, w) = (Ok tt, (f', w')) ∧
    backlog_bound f job (length (q_jobs (queue f))) f'.
Proof.
  intros HI. destruct (maybe_enqueue_cons (λ _, true) ltac:(done) job f w HI)
    as (r & f' & w' & E & Hr). pose proof (maybe_enqueue_errorless job (f, w)) as He.
  rewrite E in He. destruct r as [[]|e|]; [|by destruct (He e)|done].
  exists f', w'. split; [done|]. apply Hr.
Qed.

(** C10: A draining factory takes no new work, and reports itself drained only
    when there is none left.  A job dispatched while draining changes neither the
    pool nor the backlog and leaves at once; and the factory moves to [Drained]
    only in a state where the backlog is empty and every worker is idle. *)
Theorem factory_drains p f w :
  FInv p f → stable p → drain_state f = Draining →
  (∀ job, ∃ w', dispatch job (f, w) = (Ok tt, (f, w')) ∧
     fated p w' = fated p w + (if p job then 1 else 0)) ∧
  (∀ f' w', is_drained (f, w) = (Ok true, (f', w')) →
     drain_state f' = Drained ∧ q_jobs (queue f') = [] ∧
     ∀ i k, pool f' !! i = Some k → curr_jobs k = ∅ ∧ message_queue k = []).
Proof.
  intros HI Hp Hd. split.
  - intros job. unfold dispatch.
    destruct (set_factory_time_spec job w) as (job1 & w1 & E1 & Q1 & Hi & _).
    injection Hi as Hkey Hmsg. erewrite bind_liftW by exact E1.
    destruct (fstat_spec p NewJob f w1) as (w2 & E2 & Hf2). erewrite bind_ok by exact E2.
    destruct (is_expired_spec job1 w2) as (e & w3 & E3 & Q3). erewrite bind_liftW by exact E3.
    rewrite <-(stable_key_msg p job1 job Hp Hkey Hmsg), <-(quiet_fated p _ _ Q1), <-Hf2,
      <-(quiet_fated p _ _ Q3). destruct e; cbv iota beta.
    + destruct (fstat_spec p (JobTtlExpired 1) f w3) as (w4 & E4 & Hf4).
      erewrite bind_ok by exact E4. rewrite <-Hf4.
      apply discard_and_reject_spec; [done|apply HI].
    + unfold reads. rewrite bind_gets. simpl. rewrite Hd.
      apply discard_and_reject_spec; [done|apply HI].
  - intros f' w' E. unfold is_drained, reads in E. rewrite bind_gets in E. simpl in E.
    rewrite Hd, bind_gets in E. simpl in E. destruct (_ && _) eqn:Eb; [|done].
    injection E as <- <-. apply andb_true_iff in Eb as [Hall Hq].
    apply bool_decide_eq_true in Hq. rewrite q_len_law in Hq by apply HI. simpl.
    split; [done|]. split; [by apply length_zero_iff_nil|]. intros i k Hk.
    rewrite forallb_forall in Hall. specialize (Hall k).
    assert (is_available k = true) as Hav.
    { apply Hall, list_elem_of_In. unfold pool_values. apply list_elem_of_fmap. exists (i, k).
      split; [done|]. by apply elem_of_hm_iter. }
    unfold is_available in Hav. apply andb_true_iff in Hav as [H1 H2].
    by apply bool_decide_eq_true in H1, H2.
Qed.

End properties.

(** ** Witnesses *)

#[local] Instance sample_worker_iter : HashMapIter (WorkerProperties nat nat) := map_to_list_iter _.

(** A queueing factory with two workers, a backlog limit of one and statistics. *)
Definition sample_args : FactoryArguments nat nat QueuerRouting (DefaultQueue nat nat) :=
  mkArguments 2 (mkQueuer [] []) (mkDefaultQueue []) None (DStatic 1 Oldest) None None None (Some 1).

Lemma sample_args_ok : arguments_ok sample_args.
Proof. by split. Qed.

(** Four jobs are dispatched, one finishes, a worker fails. *)
Definition sample_history : list (factory_event nat nat) :=
  [EventMessage (Dispatch (sample_job 1 10)); EventMessage (Dispatch (sample_job 2 20));
   EventMessage (Dispatch (sample_job 3 30)); EventMessage (Dispatch (sample_job 4 40));
   EventMessage (Finished 0 1); EventSupervision (WorkerFailed 101)].

Definition is_job_30 (j : Job nat nat) : bool := bool_decide (job_msg j = 30).

Lemma factory_conserves_jobs_witness :
  ∃ r f w' done_ rest,
    factory_run 7 sample_history (initial_state "f" sample_args, sample_world) = (r, (f, w')) ∧
    sample_history = done_ ++ rest ∧ (is_ok r = true → rest = []) ∧
    countb is_job_30 (q_jobs (a_queue sample_args)) +
      countb is_job_30 (done_ ≫= event_jobs) +
      fated is_job_30 sample_world =
    countb is_job_30 (pool_jobs (pool f)) +
      countb is_job_30 (q_jobs (queue f)) +
      fated is_job_30 w'.
Proof.
  apply factory_conserves_jobs; [done|exact sample_args_ok|done|].
  repeat constructor.
Defined.

Lemma factory_pool_in_order_witness :
  ∃ r f w', factory_run 7 sample_history (initial_state "f" sample_args, sample_world) = (r, (f, w')) ∧
    match r with
    | Panic => False
    | Err _ => True
    | Ok _ => (∀ i, i < pool_size f → is_Some (pool f !! i)) ∧
        ∀ i k, pool f !! i = Some k →
          Worker.wid k = i ∧ (is_draining k = true ↔ pool_size f ≤ i) ∧ worker_inv k
    end.
Proof. apply factory_pool_in_order. exact sample_args_ok. Defined.

(** A factory without workers that is draining. *)
Definition sample_idle : FactoryState nat nat QueuerRouting (DefaultQueue nat nat) :=
  mkFactory "f" 0 ∅ ∅ None (mkQueuer [] []) (mkDefaultQueue []) None (DStatic 1 Oldest) Draining
    None false None None.

Lemma sample_idle_inv p : FInv p sample_idle.
Proof.
  assert (∀ i k, pool sample_idle !! i = Some k → False) as Hn
    by (intros i k; simpl; by rewrite lookup_empty).
  split; try done; try (intros i k Hk; by destruct (Hn i k Hk)).
  intros i Hi. simpl in Hi. lia.
Qed.

Lemma factory_backlog_limit_witness :
  ∃ f' w', maybe_enqueue (sample_job 1 10) (sample_idle, sample_world) = (Ok tt, (f', w')) ∧
    backlog_bound sample_idle (sample_job 1 10) 0 f'.
Proof. apply (factory_backlog_limit (sample_job 1 10) sample_idle sample_world). apply sample_idle_inv. Defined.

Lemma factory_drains_witness :
  (∀ job : Job nat nat, ∃ w', dispatch job (sample_idle, sample_world) = (Ok tt, (sample_idle, w')) ∧
     fated (λ _, true) w' = fated (λ _, true) (@sample_world nat nat) + 1) ∧
  (∀ f' w', is_drained (sample_idle, @sample_world nat nat) = (Ok true, (f', w')) →
     drain_state f' = Drained ∧ q_jobs (queue f') = [] ∧
     ∀ i k, pool f' !! i = Some k → curr_jobs k = ∅ ∧ message_queue k = []).
Proof.
  apply (factory_drains (λ _ : Job nat nat, true) sample_idle sample_world); [apply sample_idle_inv|done|done].
Defined.
