(* ===== verification/ActorTypes.v ===== *)
(** Identity and status of actors: [ActorId] (src/ractor/src/actor/actor_id.rs), [ActorStatus] and the
    handle [ActorCell] (src/ractor/src/actor/actor_cell.rs). *)

From S2P Require Import Prelude.

Local Open Scope Z_scope.

(** [enum ActorId]; the fields are [u64] *)
Inductive ActorId :=
| Local (pid : N)
| Remote (node_id pid : N).

#[global] Instance ActorId_eq_dec : EqDecision ActorId.
Proof. solve_decision. Defined.

#[global] Instance ActorId_countable : Countable ActorId.
Proof.
  refine (inj_countable' (λ a, match a with Local p => inl p | Remote n p => inr (n, p) end)
    (λ s, match s with inl p => Local p | inr (n, p) => Remote n p end) _).
  by intros [].
Defined.

Definition is_local (a : ActorId) : bool := match a with Local _ => true | Remote _ _ => false end.
Definition pid (a : ActorId) : N := match a with Local p => p | Remote _ p => p end.
Definition node (a : ActorId) : N := match a with Local _ => 0%N | Remote n _ => n end.

(** [enum ActorStatus], [repr(u8)] *)
Inductive ActorStatus := Unstarted | Starting | Running | Upgrading | Draining | Stopping | Stopped.

#[global] Instance ActorStatus_eq_dec : EqDecision ActorStatus.
Proof. solve_decision. Defined.

Definition status_code (s : ActorStatus) : Z :=
  match s with
  | Unstarted => 0 | Starting => 1 | Running => 2 | Upgrading => 3 | Draining => 4
  | Stopping => 5 | Stopped => 6
  end.

Definition status_from_u8 (n : Z) : ActorStatus :=
  match n with
  | 0 => Unstarted | 1 => Starting | 2 => Running | 3 => Upgrading | 4 => Draining
  | 5 => Stopping | _ => Stopped
  end.

(** [ActorStatus]'s derived order is that of the discriminants. *)
Definition status_le (s t : ActorStatus) : bool := status_code s <=? status_code t.

Lemma status_from_code s : status_from_u8 (status_code s) = s.
Proof. by destruct s. Qed.

Lemma status_le_trans s t u : status_le s t = true → status_le t u = true → status_le s u = true.
Proof. unfold status_le. rewrite !Z.leb_le. lia. Qed.

Lemma not_draining_stopping s : status_le s Draining = negb (status_le Stopping s).
Proof. by destruct s. Qed.

(** An [ActorCell] is a shared handle ([Arc<ActorProperties>]) with an immutable id and name;
    [cell_ref] is the identity of the allocation, so that two handles with the same id (a remote actor
    that was created again) are different cells. *)
Record ActorCell := mkCell { get_id : ActorId; get_name : option string; cell_ref : nat }.

#[global] Instance ActorCell_eq_dec : EqDecision ActorCell.
Proof. solve_decision. Defined.
