(* ===== verification/Admission.v ===== *)
(** Message admission and draining of an actor
    (src/ractor/src/actor/actor_properties.rs).

    Any number of threads send messages to an actor, drain it and advance its
    status, concurrently.  A thread is a program counter; [thread_step] is one
    atomic action of a thread on the shared words ([status], [message_admission])
    and on the message channel, so that every interleaving of the atomic actions
    of the source is a sequence of steps.  Atomics are sequentially consistent
    here, and the channel is linearizable.

    [message_admission] is a 64-bit word: bit 63 closes admission, bit 62 records
    that the drain marker was sent, the rest counts the senders that were admitted
    and have not finished. *)

From S2P Require Import Prelude ActorTypes.

Local Open Scope Z_scope.

(** [enum MuxedMessage] *)
Inductive MuxedMessage := Drain | Message (m : nat).

#[global] Instance MuxedMessage_eq_dec : EqDecision MuxedMessage.
Proof. solve_decision. Defined.

Definition MESSAGE_ADMISSION_CLOSED : Z := 2 ^ 63.
Definition DRAIN_MARKER_SENT : Z := 2 ^ 62.
Definition MESSAGE_ADMISSION_COUNT_MASK : Z := DRAIN_MARKER_SENT - 1.

(** A flag of the word is set; the count field. *)
Definition has_flag (word flag : Z) : bool := negb (Z.land word flag =? 0).
Definition count_of (word : Z) : Z := Z.land word MESSAGE_ADMISSION_COUNT_MASK.

(** What the threads share: the part of [ActorProperties] the protocol uses, and
    the channel, as everything that was ever sent on it; [rx_open] is false once
    the receiver was dropped. *)
Record Shared := mkShared {
  status : Z;
  message_admission : Z;
  channel : list MuxedMessage;
  rx_open : bool
}.

Definition set_admission (word : Z) (s : Shared) : Shared :=
  mkShared (status s) word (channel s) (rx_open s).
Definition push (m : MuxedMessage) (s : Shared) : Shared :=
  mkShared (status s) (message_admission s) (channel s ++ [m]) (rx_open s).
(** [AtomicU8::fetch_max] *)
Definition advance_status (code : Z) (s : Shared) : Shared :=
  mkShared (Z.max (status s) code) (message_admission s) (channel s) (rx_open s).

(** What a call returned. *)
Inductive outcome :=
| Sent (m : nat)
| Refused (m : nat)
| InvalidActorType (m : nat)
| DrainOk
| DrainErr
| StatusWas (s : ActorStatus).

(** Where a thread is.  [Send..]: [send_message_unchecked] and [try_admit_message],
    ending with the drop of the admission guard ([SendRelease]); [Mark..]:
    [send_drain_marker], called from the drop or from [drain]; [Drain..]: [drain];
    [SetStatus]: [set_status]. *)
Inductive pc :=
| SendStart (m : nat)
| SendLoad (m : nat)
| SendCas (m : nat) (state : Z)
| SendBox (m : nat)
| SendPush (m : nat)
| SendRelease (r : outcome)
| MarkLoad (r : outcome)
| MarkCas (r : outcome) (state : Z)
| MarkPush (r : outcome)
| DrainClose
| DrainStatus
| SetStatus (s : ActorStatus)
| Done (r : outcome).

(** One atomic action.  The choice [ch] resolves what the thread does not decide:
    whether a weak compare-exchange that could succeed does, and whether
    [box_message] succeeds.  [None]: the thread has returned. *)
Definition thread_step (ch : bool) (s : Shared) (p : pc) : option (Shared * pc) :=
  match p with
  | SendStart m =>
      if status_code Draining <=? status s then Some (s, Done (Refused m)) else Some (s, SendLoad m)
  | SendLoad m => Some (s, SendCas m (message_admission s))
  | SendCas m state =>
      if has_flag state MESSAGE_ADMISSION_CLOSED then Some (s, Done (Refused m))
      else if ch && (message_admission s =? state) then
        Some (set_admission ((state + 1) mod 2 ^ 64) s, SendBox m)
      else Some (s, SendCas m (message_admission s))
  | SendBox m => Some (s, if ch then SendPush m else SendRelease (InvalidActorType m))
  | SendPush m =>
      if rx_open s then Some (push (Message m) s, SendRelease (Sent m))
      else Some (s, SendRelease (Refused m))
  | SendRelease r =>
      let previous := message_admission s in
      Some (set_admission ((previous - 1) mod 2 ^ 64) s,
            if has_flag previous MESSAGE_ADMISSION_CLOSED && (count_of previous =? 1)
            then MarkLoad r else Done r)
  | MarkLoad r => Some (s, MarkCas r (message_admission s))
  | MarkCas r state =>
      if negb (has_flag state MESSAGE_ADMISSION_CLOSED) || negb (count_of state =? 0)
         || has_flag state DRAIN_MARKER_SENT
      then Some (s, Done r)
      else if ch && (message_admission s =? state) then
        Some (set_admission (Z.lor state DRAIN_MARKER_SENT) s, MarkPush r)
      else Some (s, MarkCas r (message_admission s))
  | MarkPush r =>
      if rx_open s then Some (push Drain s, Done r)
      else Some (s, Done (match r with DrainOk => DrainErr | _ => r end))
  | DrainClose =>
      Some (set_admission (Z.lor (message_admission s) MESSAGE_ADMISSION_CLOSED) s, DrainStatus)
  | DrainStatus => Some (advance_status (status_code Draining) s, MarkLoad DrainOk)
  | SetStatus st => Some (advance_status (status_code st) s, Done (StatusWas (status_from_u8 (status s))))
  | Done _ => None
  end.

(** ** The system: shared state and threads *)

Record System := mkSystem { shared : Shared; threads : list pc }.

(** One step of the system: a thread acts, or the receiver is dropped. *)
Definition sys_step (who : nat) (ch : bool) (y : System) : option System :=
  match threads y !! who with
  | Some p =>
      match thread_step ch (shared y) p with
      | Some (s', p') => Some (mkSystem s' (<[who := p']> (threads y)))
      | None => None
      end
  | None => None
  end.

Definition drop_receiver (y : System) : System :=
  mkSystem (mkShared (status (shared y)) (message_admission (shared y)) (channel (shared y)) false)
    (threads y).

Inductive step : System → System → Prop :=
| step_thread who ch y y' : sys_step who ch y = Some y' → step y y'
| step_drop y : step y (drop_receiver y).

(** Calls that have not begun: sends, drains, status changes. *)
Definition is_call (p : pc) : Prop :=
  match p with SendStart _ | DrainClose | SetStatus _ => True | _ => False end.

(** [ActorProperties::new]: status unstarted, nothing admitted, an open channel. *)
Definition initial (calls : list pc) : System :=
  mkSystem (mkShared (status_code Unstarted) 0 [] true) calls.

(** Fewer calls than the count field can hold. *)
Definition calls_ok (calls : list pc) : Prop :=
  Forall is_call calls ∧ Z.of_nat (length calls) < MESSAGE_ADMISSION_COUNT_MASK.

Definition reachable (calls : list pc) (y : System) : Prop := rtc step (initial calls) y.

(** ** The admission word *)

Definition enc (c m : bool) (n : Z) : Z :=
  (if c then 2 ^ 63 else 0) + (if m then 2 ^ 62 else 0) + n.

Lemma land_pow2 x k : 0 <= k → Z.land x (2 ^ k) = if Z.testbit x k then 2 ^ k else 0.
Proof.
  intros Hk. apply Z.bits_inj'. intros i Hi. rewrite Z.land_spec, Z.pow2_bits_eqb by done.
  destruct (Z.eqb_spec k i) as [->|Hne].
  - destruct (Z.testbit x i); [by rewrite Z.pow2_bits_true|by rewrite Z.bits_0].
  - rewrite andb_false_r. destruct (Z.testbit x k); [by rewrite Z.pow2_bits_false|by rewrite Z.bits_0].
Qed.

Lemma lor_pow2 x k : 0 <= k → Z.lor x (2 ^ k) = if Z.testbit x k then x else x + 2 ^ k.
Proof.
  intros Hk. pose proof (Z.add_lor_land x (2 ^ k)) as Ha. rewrite (land_pow2 x k Hk) in Ha.
  destruct (Z.testbit x k); lia.
Qed.

Section enc.
Context (c m : bool) (n : Z) (Hn : 0 <= n < 2 ^ 62).

Lemma enc_bit63 : Z.testbit (enc c m n) 63 = c.
Proof.
  apply (Z.testbit_unique _ _ _ ((if m then 2 ^ 62 else 0) + n) 0).
  - destruct m; lia.
  - unfold enc. destruct c; simpl Z.b2z; lia.
Qed.

Lemma enc_bit62 : Z.testbit (enc c m n) 62 = m.
Proof.
  apply (Z.testbit_unique _ _ _ n (if c then 1 else 0)); [lia|].
  unfold enc. destruct c, m; simpl Z.b2z; lia.
Qed.

Lemma enc_closed : has_flag (enc c m n) MESSAGE_ADMISSION_CLOSED = c.
Proof.
  unfold has_flag, MESSAGE_ADMISSION_CLOSED. rewrite land_pow2, enc_bit63 by lia. by destruct c.
Qed.

Lemma enc_marked : has_flag (enc c m n) DRAIN_MARKER_SENT = m.
Proof.
  unfold has_flag, DRAIN_MARKER_SENT. rewrite land_pow2, enc_bit62 by lia. by destruct m.
Qed.

Lemma enc_count : count_of (enc c m n) = n.
Proof.
  unfold count_of, MESSAGE_ADMISSION_COUNT_MASK, DRAIN_MARKER_SENT.
  replace (2 ^ 62 - 1) with (Z.ones 62) by done. rewrite Z.land_ones by lia. unfold enc.
  replace ((if c then 2 ^ 63 else 0) + (if m then 2 ^ 62 else 0) + n)
    with (n + ((if c then 2 else 0) + (if m then 1 else 0)) * 2 ^ 62) by (destruct c, m; lia).
  rewrite Z.mod_add by lia. by apply Z.mod_small.
Qed.

Lemma enc_close : Z.lor (enc c m n) MESSAGE_ADMISSION_CLOSED = enc true m n.
Proof.
  unfold MESSAGE_ADMISSION_CLOSED. rewrite lor_pow2, enc_bit63 by lia. unfold enc. destruct c; lia.
Qed.

Lemma enc_mark : Z.lor (enc c m n) DRAIN_MARKER_SENT = enc c true n.
Proof.
  unfold DRAIN_MARKER_SENT. rewrite lor_pow2, enc_bit62 by lia. unfold enc. destruct m; lia.
Qed.

Lemma enc_admit : n + 1 < 2 ^ 62 → (enc c m n + 1) mod 2 ^ 64 = enc c m (n + 1).
Proof. intros. unfold enc. rewrite Z.mod_small; destruct c, m; lia. Qed.

Lemma enc_release : 1 <= n → (enc c m n - 1) mod 2 ^ 64 = enc c m (n - 1).
Proof. intros. unfold enc. rewrite Z.mod_small; destruct c, m; lia. Qed.
End enc.

(** ** The invariant *)

Definition holder (p : pc) : bool :=
  match p with SendBox _ | SendPush _ | SendRelease _ => true | _ => false end.

Definition marking (p : pc) : bool := match p with MarkPush _ => true | _ => false end.

Definition is_drain (m : MuxedMessage) : bool := match m with Drain => true | _ => false end.

Definition is_message (x : nat) (m : MuxedMessage) : bool := bool_decide (m = Message x).

(** The thread has put message [x] on the channel. *)
Definition sent_by (x : nat) (p : pc) : bool :=
  match p with
  | SendRelease (Sent m) | MarkLoad (Sent m) | MarkCas (Sent m) _ | MarkPush (Sent m) | Done (Sent m) => x =? m
  | _ => false
  end%nat.

(** The count field of a word read in [try_admit_message]'s loop leaves room for one more. *)
Definition room (p : pc) : bool :=
  match p with SendCas _ st => count_of st <? MESSAGE_ADMISSION_COUNT_MASK | _ => true end.

(** Admission is closed when a thread is here. *)
Definition past_close (p : pc) : bool :=
  match p with
  | DrainStatus | MarkLoad _ | MarkCas _ _ | MarkPush _ => true
  | SendRelease DrainOk | SendRelease DrainErr | Done DrainOk | Done DrainErr => true
  | _ => false
  end.

(** A thread here is going to send the marker, unless another one does. *)
Definition responsible (p : pc) : bool :=
  match p with
  | DrainStatus | MarkLoad _ => true
  | MarkCas _ st => st =? enc true false 0
  | _ => false
  end.

Abbreviation holders ts := (countb holder ts).
Abbreviation markings ts := (countb marking ts).
Abbreviation drains l := (countb is_drain l).

Record inv (c m : bool) (y : System) : Prop := {
  i_len : Z.of_nat (length (threads y)) < MESSAGE_ADMISSION_COUNT_MASK;
  i_word : message_admission (shared y) = enc c m (Z.of_nat (holders (threads y)));
  i_marked : m = true → c = true ∧ holders (threads y) = 0%nat;
  i_marker : (markings (threads y) + drains (channel (shared y)) ≤ if m then 1 else 0)%nat;
  i_marker_open : rx_open (shared y) = true →
    (markings (threads y) + drains (channel (shared y)) = if m then 1 else 0)%nat;
  i_last : ∃ ms, channel (shared y) = Message <$> ms ∨ channel (shared y) = (Message <$> ms) ++ [Drain];
  i_sent x : countb (is_message x) (channel (shared y)) = countb (sent_by x) (threads y);
  i_room p : p ∈ threads y → room p = true;
  i_closed p : p ∈ threads y → past_close p = true → c = true;
  i_resp : c = true → m = false → holders (threads y) = 0%nat →
    ∃ p, p ∈ threads y ∧ responsible p = true
}.

Lemma elem_of_updated (ts : list pc) who p p' q :
  ts !! who = Some p → q ∈ <[who := p']> ts → q = p' ∨ q ∈ ts.
Proof.
  intros Hw [i Hi]%list_elem_of_lookup. apply list_lookup_insert_Some in Hi.
  destruct Hi as [(_ & -> & _)|[_ Hi]]; [by left|right]. by eapply list_elem_of_lookup_2.
Qed.

Lemma elem_of_kept (ts : list pc) who p p' q :
  ts !! who = Some p → q ∈ ts → q ≠ p → q ∈ <[who := p']> ts.
Proof.
  intros Hw [i Hi]%list_elem_of_lookup Hne. apply (list_elem_of_lookup_2 _ i).
  rewrite list_lookup_insert_ne; [done|]. intros ->. congruence.
Qed.

Lemma elem_of_inserted (ts : list pc) who p p' : ts !! who = Some p → p' ∈ <[who := p']> ts.
Proof.
  intros Hw. apply (list_elem_of_lookup_2 _ who), list_lookup_insert_eq. by eapply lookup_lt_Some.
Qed.

(** What an action of a thread owes to the invariant: the fields that speak about all threads are
    reduced to the thread that moved. *)
Lemma inv_update c m y who p s' p' c' m' :
  inv c m y → threads y !! who = Some p →
  let ts' := <[who := p']> (threads y) in
  message_admission s' = enc c' m' (Z.of_nat (holders ts')) →
  (m' = true → c' = true ∧ holders ts' = 0%nat) →
  (markings ts' + drains (channel s') ≤ if m' then 1 else 0)%nat →
  (rx_open s' = true → (markings ts' + drains (channel s') = if m' then 1 else 0)%nat) →
  (∃ ms, channel s' = Message <$> ms ∨ channel s' = (Message <$> ms) ++ [Drain]) →
  (∀ x, (countb (is_message x) (channel s') + (if sent_by x p then 1 else 0))%nat =
        (countb (is_message x) (channel (shared y)) + (if sent_by x p' then 1 else 0))%nat) →
  room p' = true →
  (c = true → c' = true) → (past_close p' = true → c' = true) →
  (c' = true → m' = false → holders ts' = 0%nat →
     responsible p' = true ∨ (c = true ∧ m = false ∧ holders (threads y) = 0%nat ∧ responsible p = false)) →
  inv c' m' (mkSystem s' ts').
Proof.
  intros [Hlen Hword Hmk Hm Hmo Hl Hs Hro Hc Hr] Hw ts' Hword' Hmk' Hm' Hmo' Hl' Hs' Hro' Hcc Hc' Hr'.
  split; simpl; try done.
  - subst ts'. by rewrite length_insert.
  - intros x. pose proof (countb_insert (sent_by x) _ _ _ p' Hw) as Hx. specialize (Hs' x).
    specialize (Hs x). subst ts'. lia.
  - intros q Hq. destruct (elem_of_updated _ _ _ _ _ Hw Hq) as [->|Hq']; [done|by apply Hro].
  - intros q Hq Hx. destruct (elem_of_updated _ _ _ _ _ Hw Hq) as [->|Hq']; [by apply Hc'|].
    by eapply Hcc, Hc.
  - intros Hct Hmf Hz. destruct (Hr' Hct Hmf Hz) as [Hp'|(Hc0 & Hm0 & Hz0 & Hp)].
    + exists p'. split; [by eapply elem_of_inserted|done].
    + destruct (Hr Hc0 Hm0 Hz0) as (q & Hq & Hqr). exists q. split; [|done].
      eapply elem_of_kept; [done..|]. congruence.
Qed.

Lemma holders_bound c m y : inv c m y → 0 <= Z.of_nat (holders (threads y)) < 2 ^ 62 - 1.
Proof.
  intros Hi. pose proof (i_len _ _ _ Hi) as Hl. unfold MESSAGE_ADMISSION_COUNT_MASK, DRAIN_MARKER_SENT in Hl.
  pose proof (countb_le_length holder (threads y)). lia.
Qed.

Lemma word_room c m y x : inv c m y → room (SendCas x (message_admission (shared y))) = true.
Proof.
  intros Hi. simpl. rewrite (i_word _ _ _ Hi). pose proof (holders_bound _ _ _ Hi).
  rewrite enc_count by lia. apply Z.ltb_lt. pose proof (i_len _ _ _ Hi).
  pose proof (countb_le_length holder (threads y)). lia.
Qed.

(** How the counts change when thread [who] moves from [p] to [p']. *)
Ltac counts Hw p' :=
  let H1 := fresh "Hh" in let H2 := fresh "Hk" in
  pose proof (countb_insert holder _ _ _ p' Hw) as H1;
  pose proof (countb_insert marking _ _ _ p' Hw) as H2;
  simpl in H1, H2.

(** An action that leaves the admission word and the channel alone. *)
Lemma inv_local c m y who p s' p' :
  inv c m y → threads y !! who = Some p →
  message_admission s' = message_admission (shared y) →
  channel s' = channel (shared y) → (rx_open s' = true → rx_open (shared y) = true) →
  holder p' = holder p → (marking p' = marking p ∨ marking p = true ∧ rx_open (shared y) = false ∧ marking p' = false) →
  (∀ x, sent_by x p' = sent_by x p) → room p' = true →
  (past_close p' = true → past_close p = true ∨ c = true) →
  (c = true → m = false → holders (threads y) = 0%nat → responsible p = true → responsible p' = true) →
  inv c m (mkSystem s' (<[who := p']> (threads y))).
Proof.
  intros Hi Hw Hadm Hch Hrx Hh Hk Hsent Hroom Hpast Hresp.
  pose proof (list_elem_of_lookup_2 _ _ _ Hw) as Hin.
  pose proof (countb_insert holder _ _ _ p' Hw) as Hhn. rewrite Hh in Hhn.
  assert (holders (<[who:=p']> (threads y)) = holders (threads y)) as Hheq by lia.
  pose proof (countb_insert marking _ _ _ p' Hw) as Hkn.
  destruct Hi as [Hlen Hword Hmk Hm Hmo Hl Hs Hro Hc Hr] eqn:HI.
  eapply inv_update; [exact Hi|exact Hw|..]; rewrite ?Hheq, ?Hch, ?Hadm; try done.
  - destruct Hk as [Hk|(Hk & _ & Hk')]; rewrite Hk in Hkn; [lia|]. rewrite Hk' in Hkn. lia.
  - intros Ho. specialize (Hrx Ho). destruct Hk as [Hk|(_ & Hf & _)]; [|congruence].
    rewrite Hk in Hkn. rewrite <- (Hmo Hrx). lia.
  - intros x. by rewrite Hsent.
  - intros Hx. destruct (Hpast Hx) as [?|?]; eauto.
  - intros Hct Hmf Hz. destruct (responsible p) eqn:Hp; [left; by apply Hresp|by right].
Qed.

Section moves.
Context (c m : bool) (y : System) (who : nat) (Hi : inv c m y).

Abbreviation upd p' := (<[who := p']> (threads y)).

Lemma holder_moving p : threads y !! who = Some p → holder p = true → (1 ≤ holders (threads y))%nat.
Proof using. intros Hw Hp. pose proof (countb_pos holder _ _ _ Hw Hp). lia. Qed.

(** While a sender is admitted the marker was not sent: it is neither in the channel nor on its way. *)
Lemma unmarked_moving p :
  threads y !! who = Some p → holder p = true →
  m = false ∧ markings (threads y) = 0%nat ∧ drains (channel (shared y)) = 0%nat.
Proof using Hi.
  intros Hw Hp. pose proof (holder_moving p Hw Hp). destruct m eqn:Em.
  - destruct (i_marked _ _ _ Hi); [done|lia].
  - pose proof (i_marker _ _ _ Hi) as Hm. simpl in Hm. lia.
Qed.

Lemma inv_admit x st :
  threads y !! who = Some (SendCas x st) → message_admission (shared y) = st →
  has_flag st MESSAGE_ADMISSION_CLOSED = false →
  inv c m (mkSystem (set_admission ((st + 1) mod 2 ^ 64) (shared y)) (upd (SendBox x))).
Proof using Hi.
  intros Hw <- Hf. pose proof (holders_bound _ _ _ Hi). pose proof (i_word _ _ _ Hi) as Hword.
  rewrite Hword in Hf |- *. rewrite enc_closed in Hf by lia. rewrite enc_admit by lia. subst c.
  destruct m eqn:Em; [by destruct (i_marked _ _ _ Hi)|].
  counts Hw (SendBox x). eapply inv_update; [exact Hi|exact Hw|..]; simpl; try done.
  - f_equal. lia.
  - pose proof (i_marker _ _ _ Hi). simpl in *. lia.
  - intros Ho. pose proof (i_marker_open _ _ _ Hi Ho). simpl in *. lia.
  - apply (i_last _ _ _ Hi).
Qed.

Lemma inv_push_message x :
  threads y !! who = Some (SendPush x) →
  inv c m (mkSystem (push (Message x) (shared y)) (upd (SendRelease (Sent x)))).
Proof using Hi.
  intros Hw. destruct (unmarked_moving _ Hw eq_refl) as (-> & Hk0 & Hd0).
  pose proof (holder_moving _ Hw eq_refl).
  counts Hw (SendRelease (Sent x)).
  assert (drains (channel (shared y) ++ [Message x]) = 0%nat) as Hd by (rewrite countb_app; simpl; lia).
  eapply inv_update; [exact Hi|exact Hw|..]; simpl; try done.
  - rewrite (i_word _ _ _ Hi). f_equal. lia.
  - lia.
  - intros _. lia.
  - destruct (i_last _ _ _ Hi) as [ms [Hms|Hms]].
    + exists (ms ++ [x]). left. by rewrite Hms, fmap_app.
    + rewrite Hms, countb_app in Hd0. simpl in Hd0. lia.
  - intros x'. rewrite countb_app. simpl. unfold is_message at 2.
    destruct (Nat.eqb_spec x' x) as [->|Hne]; [by rewrite bool_decide_true by done; lia|].
    rewrite bool_decide_false by congruence. lia.
  - intros. lia.
Qed.

Lemma inv_release r :
  threads y !! who = Some (SendRelease r) →
  let previous := message_admission (shared y) in
  inv c m (mkSystem (set_admission ((previous - 1) mod 2 ^ 64) (shared y))
    (upd (if has_flag previous MESSAGE_ADMISSION_CLOSED && (count_of previous =? 1) then MarkLoad r else Done r))).
Proof using Hi.
  intros Hw previous. subst previous. destruct (unmarked_moving _ Hw eq_refl) as (-> & Hk0 & Hd0).
  pose proof (holder_moving _ Hw eq_refl). pose proof (holders_bound _ _ _ Hi).
  rewrite (i_word _ _ _ Hi), enc_closed, enc_count by lia.
  rewrite enc_release by lia.
  set (p' := if c && (Z.of_nat (holders (threads y)) =? 1) then MarkLoad r else Done r).
  assert (holder p' = false ∧ marking p' = false ∧ (∀ x, sent_by x p' = sent_by x (SendRelease r)) ∧ room p' = true ∧
          (past_close p' = true → past_close (SendRelease r) = true ∨ c = true)) as (Hp1 & Hp2 & Hp3 & Hpr & Hp4).
  { subst p'. destruct c; simpl; [destruct (_ =? 1)|]; destruct r; simpl; split_and!; auto. }
  pose proof (countb_insert holder _ _ _ p' Hw) as Hh. pose proof (countb_insert marking _ _ _ p' Hw) as Hk.
  rewrite Hp1 in Hh. rewrite Hp2 in Hk. simpl in Hh, Hk. pose proof (list_elem_of_lookup_2 _ _ _ Hw) as Hin.
  eapply inv_update; [exact Hi|exact Hw|..]; simpl; try done.
  - f_equal. lia.
  - lia.
  - intros _. lia.
  - apply (i_last _ _ _ Hi).
  - intros x. by rewrite Hp3.
  - intros Hx. destruct (Hp4 Hx) as [?|?]; [by apply (i_closed _ _ _ Hi _ Hin)|done].
  - intros -> _ Hz. left. subst p'. simpl in *. by rewrite (proj2 (Z.eqb_eq _ _)) by lia.
Qed.

Lemma inv_mark r st :
  threads y !! who = Some (MarkCas r st) → message_admission (shared y) = st →
  has_flag st MESSAGE_ADMISSION_CLOSED = true → count_of st = 0 → has_flag st DRAIN_MARKER_SENT = false →
  inv c true (mkSystem (set_admission (Z.lor st DRAIN_MARKER_SENT) (shared y)) (upd (MarkPush r))).
Proof using Hi.
  intros Hw <- Hf Hn Hm. pose proof (holders_bound _ _ _ Hi). rewrite (i_word _ _ _ Hi) in Hf, Hn, Hm |- *.
  rewrite enc_closed in Hf by lia. rewrite enc_count in Hn by lia. rewrite enc_marked in Hm by lia. subst c m.
  rewrite enc_mark by lia. pose proof (list_elem_of_lookup_2 _ _ _ Hw) as Hin.
  pose proof (i_marker _ _ _ Hi) as Hmk. simpl in Hmk.
  counts Hw (MarkPush r). eapply inv_update; [exact Hi|exact Hw|..]; simpl; try done.
  - f_equal. lia.
  - intros _. split; [done|lia].
  - lia.
  - intros _. lia.
  - apply (i_last _ _ _ Hi).
Qed.

Lemma inv_push_marker r :
  threads y !! who = Some (MarkPush r) →
  inv c m (mkSystem (push Drain (shared y)) (upd (Done r))).
Proof using Hi.
  intros Hw. pose proof (countb_pos marking _ _ _ Hw eq_refl) as Hpos.
  pose proof (i_marker _ _ _ Hi) as Hmk. destruct m; [|lia].
  pose proof (list_elem_of_lookup_2 _ _ _ Hw) as Hin.
  counts Hw (Done r). eapply inv_update; [exact Hi|exact Hw|..]; simpl; rewrite ?countb_app; simpl; try done.
  - rewrite (i_word _ _ _ Hi). f_equal. lia.
  - intros _. destruct (i_marked _ _ _ Hi eq_refl). split; [done|lia].
  - lia.
  - intros Ho. pose proof (i_marker_open _ _ _ Hi Ho). lia.
  - destruct (i_last _ _ _ Hi) as [ms [Hms|Hms]]; [exists ms; right; by rewrite Hms|].
    rewrite Hms, countb_app in Hmk. simpl in Hmk. lia.
  - intros x. rewrite countb_app. simpl. destruct r; simpl; lia.
  - intros _. by apply (i_closed _ _ _ Hi _ Hin).
Qed.

Lemma inv_close :
  threads y !! who = Some DrainClose →
  inv true m (mkSystem (set_admission (Z.lor (message_admission (shared y)) MESSAGE_ADMISSION_CLOSED) (shared y))
    (upd DrainStatus)).
Proof using Hi.
  intros Hw. pose proof (holders_bound _ _ _ Hi). rewrite (i_word _ _ _ Hi), enc_close by lia.
  counts Hw DrainStatus. eapply inv_update; [exact Hi|exact Hw|..]; simpl; try done.
  - f_equal. lia.
  - intros Hm. destruct (i_marked _ _ _ Hi Hm). split; [done|lia].
  - pose proof (i_marker _ _ _ Hi). lia.
  - intros Ho. rewrite <- (i_marker_open _ _ _ Hi Ho). lia.
  - apply (i_last _ _ _ Hi).
  - by left.
Qed.
End moves.

(** A state in the middle of [send_drain_marker]'s loop which tells it to return is not the state of
    a closed, quiescent, unmarked word. *)
Lemma mark_returns_not_responsible r st :
  negb (has_flag st MESSAGE_ADMISSION_CLOSED) || negb (count_of st =? 0) || has_flag st DRAIN_MARKER_SENT = true →
  responsible (MarkCas r st) = false.
Proof. intros Hst. simpl. apply Z.eqb_neq. intros ->. by vm_compute in Hst. Qed.

Ltac inv_local_step Hi Hw := eapply inv_local; [exact Hi|exact Hw|simpl..]; auto; try done.

Lemma inv_thread_step c m y who ch y' :
  inv c m y → sys_step who ch y = Some y' →
  ∃ c' m', inv c' m' y' ∧ (c = true → c' = true) ∧ (m = true → m' = true).
Proof.
  intros Hi Hst. unfold sys_step in Hst. destruct (threads y !! who) as [p|] eqn:Hw; [|done].
  destruct p as [x|x|x st|x|x|r|r|r st|r| | |st|r]; simpl in Hst.
  - exists c, m. repeat case_match; simplify_eq; (split; [inv_local_step Hi Hw|done]).
  - exists c, m. simplify_eq. split; [inv_local_step Hi Hw; by apply (word_room c m y x)|done].
  - exists c, m. destruct (has_flag st _) eqn:Hf; [simplify_eq; split; [inv_local_step Hi Hw|done]|].
    destruct (ch && _) eqn:Hcas; simplify_eq; (split; [|done]); [|inv_local_step Hi Hw; by apply (word_room c m y x)].
    apply andb_true_iff in Hcas as [_ Heq%Z.eqb_eq]. by eapply inv_admit.
  - exists c, m. simplify_eq. split; [destruct ch; inv_local_step Hi Hw|done].
  - exists c, m. split; [|done]. destruct (rx_open _) eqn:Ho; simplify_eq; [by eapply inv_push_message|].
    inv_local_step Hi Hw.
  - exists c, m. simplify_eq. split; [by apply inv_release|done].
  - exists c, m. simplify_eq. split; [|done]. inv_local_step Hi Hw.
    intros -> -> Hz _. by rewrite (i_word _ _ _ Hi), Hz.
  - destruct (_ || _) eqn:Hret.
    { exists c, m. simplify_eq. split; [|done]. pose proof (mark_returns_not_responsible r _ Hret) as Hr.
      simpl in Hr. inv_local_step Hi Hw. congruence. }
    destruct (ch && _) eqn:Hcas; simplify_eq.
    + apply andb_true_iff in Hcas as [_ Heq%Z.eqb_eq]. exists c, true. split; [|done].
      apply orb_false_iff in Hret as [[Hf Hn]%orb_false_iff Hm].
      apply negb_false_iff in Hf, Hn. apply Z.eqb_eq in Hn. by apply (inv_mark c m y who Hi).
    + exists c, m. split; [|done]. inv_local_step Hi Hw.
      intros -> -> Hz _. by rewrite (i_word _ _ _ Hi), Hz.
  - exists c, m. split; [|done]. destruct (rx_open _) eqn:Ho; simplify_eq; [by eapply inv_push_marker|].
    inv_local_step Hi Hw; by destruct r.
  - exists true, m. simplify_eq. split; [by eapply inv_close|done].
  - exists c, m. simplify_eq. split; [|done]. inv_local_step Hi Hw.
  - exists c, m. simplify_eq. split; [|done]. inv_local_step Hi Hw.
  - done.
Qed.

Lemma inv_step c m y y' :
  inv c m y → step y y' → ∃ c' m', inv c' m' y' ∧ (c = true → c' = true) ∧ (m = true → m' = true).
Proof.
  intros Hi Hs. destruct Hs as [who ch y y' Hs|y]; [by eapply inv_thread_step|].
  exists c, m. split; [|done]. destruct Hi. by split.
Qed.

Lemma inv_initial calls : calls_ok calls → inv false false (initial calls).
Proof.
  intros [Hcalls Hlen]. rewrite Forall_forall in Hcalls.
  assert (holders calls = 0%nat) as Hh.
  { apply countb_zero. intros p Hp%Hcalls. by destruct p. }
  assert (markings calls = 0%nat) as Hm.
  { apply countb_zero. intros p Hp%Hcalls. by destruct p. }
  split; simpl; rewrite ?Hh, ?Hm; try done.
  - exists []. by left.
  - intros x. symmetry. apply countb_zero. intros p Hp%Hcalls. by destruct p.
  - intros p Hp%Hcalls. by destruct p.
  - intros p Hp%Hcalls. by destruct p.
Qed.

Lemma inv_steps c m y y' : inv c m y → rtc step y y' → ∃ c' m', inv c' m' y' ∧ (c = true → c' = true) ∧ (m = true → m' = true).
Proof.
  intros Hi Hr. revert c m Hi. induction Hr as [y|y y1 y2 Hs _ IH]; intros c m Hi; [eauto|].
  destruct (inv_step _ _ _ _ Hi Hs) as (c1 & m1 & Hi1 & Hc1 & Hm1).
  destruct (IH _ _ Hi1) as (c2 & m2 & Hi2 & Hc2 & Hm2). eauto 10.
Qed.

Lemma inv_reachable calls y : calls_ok calls → reachable calls y → ∃ c m, inv c m y.
Proof.
  intros Hc Hr. destruct (inv_steps _ _ _ _ (inv_initial _ Hc) Hr) as (c & m & Hi & _). eauto.
Qed.

(** ** What only grows *)

Lemma step_mono y y' :
  step y y' →
  channel (shared y) `prefix_of` channel (shared y') ∧ status (shared y) <= status (shared y').
Proof.
  intros [who ch z z' Hs|z]; [|done]. unfold sys_step in Hs.
  destruct (threads z !! who) as [p|]; [|done]. destruct p; simpl in Hs; repeat case_match; simplify_eq; simpl;
    (split; [first [done|by apply prefix_app_r]|lia]).
Qed.

Lemma steps_mono y y' :
  rtc step y y' →
  channel (shared y) `prefix_of` channel (shared y') ∧ status (shared y) <= status (shared y').
Proof.
  induction 1 as [y|y y1 y2 Hs _ [IHc IHs]]; [done|].
  destruct (step_mono _ _ Hs). split; [by etrans|lia].
Qed.

Lemma reachable_steps calls y y' : reachable calls y → rtc step y y' → reachable calls y'.
Proof. unfold reachable. intros. by etrans. Qed.

(** A thread that starts to send once admission is closed stays on the way to a refusal. *)
Definition to_refuse (x : nat) (p : pc) : Prop :=
  match p with
  | SendStart x' | SendLoad x' | Done (Refused x') => x' = x
  | SendCas x' st => x' = x ∧ has_flag st MESSAGE_ADMISSION_CLOSED = true
  | _ => False
  end.

Lemma to_refuse_step c m y y' i p x :
  inv c m y → c = true → step y y' → threads y !! i = Some p → to_refuse x p →
  ∃ p', threads y' !! i = Some p' ∧ to_refuse x p'.
Proof.
  intros Hi -> Hs Hp Hx. destruct Hs as [who ch y y' Hs|y]; [|by exists p].
  unfold sys_step in Hs. destruct (threads y !! who) as [q|] eqn:Hq; [|done].
  destruct (thread_step ch (shared y) q) as [[s' q']|] eqn:Hst; [|done]. simplify_eq. simpl.
  destruct (decide (who = i)) as [->|Hne].
  2: { exists p. by rewrite list_lookup_insert_ne. }
  exists q'. split; [apply list_lookup_insert_eq; by eapply lookup_lt_Some|].
  rewrite Hp in Hq. injection Hq as <-. pose proof (holders_bound _ _ _ Hi).
  destruct p; simpl in Hx; try done; simpl in Hst; repeat case_match; destruct_and?; simplify_eq; simpl; try done.
  split; [done|]. rewrite (i_word _ _ _ Hi). apply enc_closed. lia.
Qed.

Lemma to_refuse_steps c m y y' i p x :
  inv c m y → c = true → rtc step y y' → threads y !! i = Some p → to_refuse x p →
  ∃ p', threads y' !! i = Some p' ∧ to_refuse x p'.
Proof.
  intros Hi Hc Hr. revert c m p Hi Hc. induction Hr as [y|y y1 y2 Hs _ IH]; intros c m p Hi Hc Hp Hx; [eauto|].
  destruct (to_refuse_step _ _ _ _ _ _ _ Hi Hc Hs Hp Hx) as (p1 & Hp1 & Hx1).
  destruct (inv_step _ _ _ _ Hi Hs) as (c1 & m1 & Hi1 & Hc1 & _). eauto.
Qed.

(** ** A call that runs alone returns *)

(** How many actions a thread still needs when nobody interferes. *)
Definition rank (s : Shared) (p : pc) : nat :=
  match p with
  | Done _ => 0
  | SetStatus _ | MarkPush _ => 1
  | MarkCas _ st => if message_admission s =? st then 2 else 3
  | MarkLoad _ => 4
  | SendRelease _ | DrainStatus => 5
  | SendPush _ | DrainClose => 6
  | SendBox _ => 7
  | SendCas _ st => if message_admission s =? st then 8 else 9
  | SendLoad _ => 10
  | SendStart _ => 11
  end.

(** Thread [who] acts [n] times in a row, its compare-exchanges failing only when the word changed. *)
Fixpoint run_alone (n : nat) (who : nat) (y : System) : System :=
  match n with
  | 0 => y
  | S n' => match sys_step who true y with Some y' => run_alone n' who y' | None => y end
  end%nat.

Lemma thread_step_rank s p :
  (∃ r, p = Done r) ∨
  ∃ s' p', thread_step true s p = Some (s', p') ∧ (rank s' p' < rank s p)%nat.
Proof.
  destruct p as [x|x|x st|x|x|r|r|r st|r| | |st|r]; [right..|by left; eexists]; simpl;
    repeat case_match; do 2 eexists; (split; [done|]); simpl;
    rewrite ?Z.eqb_refl; repeat case_match; lia.
Qed.

Lemma run_alone_done n who y p :
  threads y !! who = Some p → (rank (shared y) p ≤ n)%nat →
  rtc step y (run_alone n who y) ∧ ∃ r, threads (run_alone n who y) !! who = Some (Done r).
Proof.
  revert y p. induction n as [|n IH]; intros y p Hp Hn; destruct (thread_step_rank (shared y) p) as [[r ->]|(s' & p' & Hs & Hr)].
  - split; [done|by exists r].
  - lia.
  - simpl. unfold sys_step. rewrite Hp. simpl. split; [done|by exists r].
  - simpl. assert (sys_step who true y = Some (mkSystem s' (<[who := p']> (threads y)))) as Hst.
    { unfold sys_step. by rewrite Hp, Hs. }
    rewrite Hst. edestruct (IH (mkSystem s' (<[who := p']> (threads y)))) as [Hrtc Hd].
    + apply list_lookup_insert_eq. by eapply lookup_lt_Some.
    + simpl. lia.
    + split; [|done]. eapply rtc_l; [|exact Hrtc]. by econstructor.
Qed.

(** A schedule: which thread acts, and how its choice is resolved. *)
Fixpoint exec (sched : list (nat * bool)) (y : System) : option System :=
  match sched with
  | [] => Some y
  | (who, ch) :: sched' => sys_step who ch y ≫= exec sched'
  end.

Lemma exec_steps sched y y' : exec sched y = Some y' → rtc step y y'.
Proof.
  revert y. induction sched as [|[who ch] sched IH]; intros y Hy; simpl in Hy; [by simplify_eq|].
  destruct (sys_step who ch y) as [y1|] eqn:Hs; [|done]. eapply rtc_l; [by econstructor|by apply IH].
Qed.

(** Two senders and a drain: sender 0 is admitted, the drain closes admission and returns, sender 1 is
    refused, sender 0 delivers and, being the last, sends the marker. *)
Definition sample_calls : list pc := [SendStart 7; SendStart 8; DrainClose].
Definition sample_open : list (nat * bool) :=
  [(0, true); (0, true); (0, false); (0, true); (2, true); (2, true); (2, true); (2, true)]%nat.
Definition sample_rest : list (nat * bool) :=
  [(1, true); (0, true); (0, true); (0, true); (0, true); (0, true); (0, true)]%nat.
Definition run_sched (sched : list (nat * bool)) : System :=
  default (initial sample_calls) (exec sched (initial sample_calls)).

Lemma sample_calls_ok : calls_ok sample_calls.
Proof. split; [by repeat constructor|done]. Qed.

Lemma sample_reachable sched : reachable sample_calls (run_sched sched).
Proof.
  unfold run_sched, reachable. destruct (exec _ _) eqn:He; simpl; [by eapply exec_steps|done].
Qed.

(** ** The theorems *)

(** C14: the drain marker is the last thing an actor's message channel ever carries.  For any number of
    concurrent sends, drains and status changes, in every interleaving: once the marker is in the channel
    nothing is put on the channel any more, whatever the threads do afterwards, and everything before the
    marker is a message; so there is at most one marker, and no message is behind it. *)
Theorem drain_marker_final (calls : list pc) (y y' : System) :
  calls_ok calls → reachable calls y → Drain ∈ channel (shared y) → rtc step y y' →
  channel (shared y') = channel (shared y) ∧ ∃ ms, channel (shared y) = (Message <$> ms) ++ [Drain].
Proof.
  intros Hc Hr Hd Hs. pose proof (reachable_steps _ _ _ Hr Hs) as Hr'.
  destruct (inv_reachable _ _ Hc Hr) as (c & m & Hi). destruct (inv_reachable _ _ Hc Hr') as (c' & m' & Hi').
  destruct (i_last _ _ _ Hi) as [ms [Hms|Hms]].
  { rewrite Hms in Hd. apply list_elem_of_fmap in Hd as (x & ? & _). done. }
  split; [|by exists ms]. destruct (steps_mono _ _ Hs) as [[k Hk] _]. rewrite Hms in Hk |- *.
  pose proof (i_marker _ _ _ Hi') as Hm. destruct (i_last _ _ _ Hi') as [ms' [Hms'|Hms']].
  - exfalso. assert (Drain ∈ channel (shared y')) as Hin by (rewrite Hk; set_solver).
    rewrite Hms' in Hin. apply list_elem_of_fmap in Hin as (x & ? & _). done.
  - rewrite Hk in Hms'. destruct k as [|a k] using rev_ind; [by rewrite app_nil_r in Hk|].
    rewrite app_assoc in Hms'. apply app_inj_tail in Hms' as [_ ->]. exfalso.
    rewrite Hk, !countb_app in Hm. simpl in Hm. destruct m'; lia.
Qed.

Lemma drain_marker_final_witness :
  let y := run_sched (sample_open ++ sample_rest) in
  channel (shared y) = [Message 7; Drain] ∧ ∃ ms, channel (shared y) = (Message <$> ms) ++ [Drain].
Proof.
  split; [by vm_compute|].
  apply (drain_marker_final sample_calls _ (run_sched (sample_open ++ sample_rest)) sample_calls_ok).
  - apply sample_reachable.
  - vm_compute. set_solver.
  - done.
Defined.

(** C15: a send reports success exactly when its message was put on the channel, once: in every reachable
    state the channel carries message [x] as many times as there are calls that sent [x] successfully
    (returned, or about to).  In particular no accepted message is lost to a concurrent drain, and no
    refused message is delivered. *)
Theorem accepted_messages_delivered (calls : list pc) (y : System) (x : nat) :
  calls_ok calls → reachable calls y →
  countb (is_message x) (channel (shared y)) = countb (sent_by x) (threads y).
Proof.
  intros Hc Hr. destruct (inv_reachable _ _ Hc Hr) as (c & m & Hi). apply (i_sent _ _ _ Hi).
Qed.

Lemma accepted_messages_delivered_witness :
  let y := run_sched (sample_open ++ sample_rest) in
  threads y = [Done (Sent 7); Done (Refused 8); Done DrainOk] ∧
  countb (is_message 7) (channel (shared y)) = countb (sent_by 7) (threads y).
Proof.
  split; [by vm_compute|].
  apply (accepted_messages_delivered sample_calls); [apply sample_calls_ok|apply sample_reachable].
Defined.

(** A drain always takes effect.  When every call has returned, one of them was a drain and the actor
    still holds its receiver, the marker is in the channel: whichever of the drain and the last admitted
    sender had to send it, one of them did. *)
Theorem drain_marker_sent (calls : list pc) (y : System) :
  calls_ok calls → reachable calls y →
  (∀ p, p ∈ threads y → ∃ r, p = Done r) → Done DrainOk ∈ threads y ∨ Done DrainErr ∈ threads y →
  rx_open (shared y) = true →
  Drain ∈ channel (shared y).
Proof.
  intros Hc Hr Hdone Hdrain Ho. destruct (inv_reachable _ _ Hc Hr) as (c & m & Hi).
  assert (c = true) as Hct by (destruct Hdrain as [Hd|Hd]; by apply (i_closed _ _ _ Hi _ Hd)). subst c.
  assert (holders (threads y) = 0%nat) as Hh.
  { apply countb_zero. intros p [r ->]%Hdone. done. }
  assert (markings (threads y) = 0%nat) as Hmk.
  { apply countb_zero. intros p [r ->]%Hdone. done. }
  destruct m.
  - pose proof (i_marker_open _ _ _ Hi Ho) as Hm. rewrite Hmk in Hm.
    destruct (i_last _ _ _ Hi) as [ms [Hms|Hms]]; rewrite Hms in Hm |- *; [|set_solver].
    assert (drains (Message <$> ms) = 0%nat) as Hz.
    { apply countb_zero. intros z (x & -> & _)%list_elem_of_fmap. done. }
    simpl in Hm. lia.
  - destruct (i_resp _ _ _ Hi eq_refl eq_refl Hh) as (p & [r ->]%Hdone & Hres). done.
Qed.

Lemma drain_marker_sent_witness :
  let y := run_sched (sample_open ++ sample_rest) in
  countb is_drain (channel (shared (run_sched sample_open))) = 0%nat ∧ Drain ∈ channel (shared y).
Proof.
  split; [by vm_compute|]. apply (drain_marker_sent sample_calls).
  - apply sample_calls_ok.
  - apply sample_reachable.
  - intros p Hp. assert (p ∈ [Done (Sent 7); Done (Refused 8); Done DrainOk]) as Hp' by exact Hp.
    do 3 (apply elem_of_cons in Hp' as [->|Hp']; [by eexists|]). by apply not_elem_of_nil in Hp'.
  - left. assert (Done DrainOk ∈ [Done (Sent 7); Done (Refused 8); Done DrainOk]) as Hp by set_solver. exact Hp.
  - by vm_compute.
Defined.

(** A send that starts after a drain closed admission is refused, whatever status changes run
    concurrently, and the status of the actor never moves back. *)
Theorem drain_refuses_later_sends (calls : list pc) (y y' : System) (i x : nat) (r : outcome) :
  calls_ok calls → reachable calls y →
  has_flag (message_admission (shared y)) MESSAGE_ADMISSION_CLOSED = true →
  threads y !! i = Some (SendStart x) → rtc step y y' → threads y' !! i = Some (Done r) →
  r = Refused x ∧ status (shared y) <= status (shared y').
Proof.
  intros Hc Hr Hf Hi0 Hs Hi1. destruct (inv_reachable _ _ Hc Hr) as (c & m & Hi).
  pose proof (holders_bound _ _ _ Hi). rewrite (i_word _ _ _ Hi), enc_closed in Hf by lia.
  destruct (to_refuse_steps _ _ _ _ _ _ x Hi Hf Hs Hi0) as (p & Hp & Hx); [done|].
  rewrite Hi1 in Hp. injection Hp as <-. destruct r; try done. simpl in Hx. subst. split; [done|]. by apply steps_mono.
Qed.

Lemma drain_refuses_later_sends_witness :
  let y := run_sched sample_open in let y' := run_sched (sample_open ++ sample_rest) in
  Refused 8 = Refused 8 ∧ status (shared y) <= status (shared y').
Proof.
  intros y y'. apply (drain_refuses_later_sends sample_calls y y' 1 8 (Refused 8)).
  - apply sample_calls_ok.
  - apply sample_reachable.
  - by vm_compute.
  - by vm_compute.
  - apply (exec_steps sample_rest). by vm_compute.
  - by vm_compute.
Defined.

(** The admission word is exact and its assertions hold.  In every reachable state the count field is
    the number of admitted senders that have not finished; a sender that gives its admission back finds
    the field non-zero (the assertion of the guard's drop), and the word a sender is about to increment
    leaves room (the assertion of [try_admit_message]), so the count never spills into the flags. *)
Theorem admission_count_exact (calls : list pc) (y : System) :
  calls_ok calls → reachable calls y →
  count_of (message_admission (shared y)) = Z.of_nat (holders (threads y)) ∧
  (∀ r, SendRelease r ∈ threads y → count_of (message_admission (shared y)) ≠ 0) ∧
  (∀ x st, SendCas x st ∈ threads y → count_of st < MESSAGE_ADMISSION_COUNT_MASK) ∧
  (Drain ∈ channel (shared y) → holders (threads y) = 0%nat).
Proof.
  intros Hc Hr. destruct (inv_reachable _ _ Hc Hr) as (c & m & Hi). pose proof (holders_bound _ _ _ Hi).
  rewrite (i_word _ _ _ Hi), enc_count by lia. split_and!.
  - done.
  - intros r [i Hr']%list_elem_of_lookup. pose proof (countb_pos holder _ _ _ Hr' eq_refl). lia.
  - intros x st Hx. by apply Z.ltb_lt, (i_room _ _ _ Hi _ Hx).
  - intros [i Hd]%list_elem_of_lookup. pose proof (countb_pos is_drain _ _ _ Hd eq_refl).
    pose proof (i_marker _ _ _ Hi). destruct m; [|lia]. by apply (i_marked _ _ _ Hi).
Qed.

Lemma admission_count_exact_witness :
  let y := run_sched sample_open in
  message_admission (shared y) = 2 ^ 63 + 1 ∧ count_of (message_admission (shared y)) = Z.of_nat (holders (threads y)).
Proof.
  split; [by vm_compute|].
  apply (admission_count_exact sample_calls); [apply sample_calls_ok|apply sample_reachable].
Defined.

(** No call waits for another: from any state whatsoever, a send, drain or status change that runs
    alone returns within eleven atomic actions, whatever the other threads were in the middle of. *)
Theorem calls_obstruction_free (y : System) (who : nat) (p : pc) :
  threads y !! who = Some p →
  rtc step y (run_alone 11 who y) ∧ ∃ r, threads (run_alone 11 who y) !! who = Some (Done r).
Proof.
  intros Hp. apply (run_alone_done _ _ _ p Hp). destruct p; simpl; repeat case_match; lia.
Qed.

Lemma calls_obstruction_free_witness :
  let y := run_sched sample_open in
  rtc step y (run_alone 11 0 y) ∧ ∃ r, threads (run_alone 11 0 y) !! 0%nat = Some (Done r).
Proof. intros y. apply (calls_obstruction_free y 0 (SendBox 7)). by vm_compute. Defined.
