(* ===== verification/Pg.v ===== *)
(** Process groups (src/ractor/src/pg.rs).

    The groups, their index by scope, the scope and world listeners and the reverse index of the
    relationships each actor owns are one state, [PgState]; every operation of the module is a function
    on it.  An actor's status is not the module's: it is read at each call of [get_status] from an
    arbitrary function of time, [status_at], so the theorems cover status changes that race with an
    operation.  Notifications are appended to the log [sent]; they are best-effort in the source (the
    result of the send is ignored). *)

From stdpp Require Import sorting.
From S2P Require Import Prelude ActorTypes.

Abbreviation ScopeName := string.
Abbreviation GroupName := string.

Definition DEFAULT_SCOPE : ScopeName := "__default_scope__"%string.
Definition ALL_SCOPES_NOTIFICATION : ScopeName := "__world_scope__"%string.
Definition ALL_GROUPS_NOTIFICATION : GroupName := "__world_group_"%string.

Record ScopeGroupKey := mkKey { scope : ScopeName; group : GroupName }.

#[global] Instance ScopeGroupKey_eq_dec : EqDecision ScopeGroupKey.
Proof. solve_decision. Defined.

#[global] Instance ScopeGroupKey_countable : Countable ScopeGroupKey.
Proof.
  refine (inj_countable' (λ k, (scope k, group k)) (λ p, mkKey p.1 p.2) _). by intros [].
Defined.

Inductive GroupChangeMessage :=
| Join (s : ScopeName) (g : GroupName) (actors : list ActorCell)
| Leave (s : ScopeName) (g : GroupName) (actors : list ActorCell).

(** [struct GroupState] *)
Record GroupState := mkGroup { members : gmap ActorId ActorCell; listeners : list ActorCell }.

Definition group_default : GroupState := mkGroup ∅ [].
Definition is_vacant (g : GroupState) : bool :=
  bool_decide (members g = ∅) && bool_decide (listeners g = []).

(** [struct ActorRelations] *)
Record ActorRelations := mkRelations {
  memberships : gset ScopeGroupKey;
  group_monitors : gset ScopeGroupKey;
  world_monitors : gset ScopeGroupKey
}.

Definition relations_default : ActorRelations := mkRelations ∅ ∅ ∅.
Definition relations_is_empty (r : ActorRelations) : bool :=
  bool_decide (memberships r = ∅) && bool_decide (group_monitors r = ∅) && bool_decide (world_monitors r = ∅).

(** [struct PgState], with the notifications sent so far and the number of status reads so far. *)
Record PgState := mkPg {
  map : gmap ScopeGroupKey GroupState;
  index : gmap ScopeName (gset GroupName);
  world_listeners : gmap ScopeGroupKey (list ActorCell);
  actor_relations : gmap ActorId ActorRelations;
  sent : list (ActorId * GroupChangeMessage);
  clock : nat
}.

Definition pg_init : PgState := mkPg ∅ ∅ ∅ ∅ [] 0.

Definition with_map (f : gmap ScopeGroupKey GroupState → gmap ScopeGroupKey GroupState) (s : PgState) :=
  mkPg (f (map s)) (index s) (world_listeners s) (actor_relations s) (sent s) (clock s).
Definition with_index (f : gmap ScopeName (gset GroupName) → gmap ScopeName (gset GroupName)) (s : PgState) :=
  mkPg (map s) (f (index s)) (world_listeners s) (actor_relations s) (sent s) (clock s).
Definition with_world (f : gmap ScopeGroupKey (list ActorCell) → gmap ScopeGroupKey (list ActorCell)) (s : PgState) :=
  mkPg (map s) (index s) (f (world_listeners s)) (actor_relations s) (sent s) (clock s).
Definition with_relations (f : gmap ActorId ActorRelations → gmap ActorId ActorRelations) (s : PgState) :=
  mkPg (map s) (index s) (world_listeners s) (f (actor_relations s)) (sent s) (clock s).
Definition with_sent (l : list (ActorId * GroupChangeMessage)) (s : PgState) :=
  mkPg (map s) (index s) (world_listeners s) (actor_relations s) (sent s ++ l) (clock s).

(** [relations.f.insert/remove/take] under the actor's lock *)
Definition upd_memberships (f : gset ScopeGroupKey → gset ScopeGroupKey) (r : ActorRelations) :=
  mkRelations (f (memberships r)) (group_monitors r) (world_monitors r).
Definition upd_group_monitors (f : gset ScopeGroupKey → gset ScopeGroupKey) (r : ActorRelations) :=
  mkRelations (memberships r) (f (group_monitors r)) (world_monitors r).
Definition upd_world_monitors (f : gset ScopeGroupKey → gset ScopeGroupKey) (r : ActorRelations) :=
  mkRelations (memberships r) (group_monitors r) (f (world_monitors r)).

Section pg.
Context (status_at : nat → ActorId → ActorStatus).
Context `{!HashSetIter ScopeGroupKey}.

(** [actor.get_status()] *)
Definition get_status (a : ActorId) (s : PgState) : ActorStatus * PgState :=
  (status_at (clock s) a,
   mkPg (map s) (index s) (world_listeners s) (actor_relations s) (sent s) (S (clock s))).

Definition get_or_create_actor_relations (a : ActorId) (s : PgState) : PgState :=
  match actor_relations s !! a with
  | Some _ => s
  | None => with_relations <[a := relations_default]> s
  end.

(** The relations are shared by reference: an update through any handle is seen through the map. *)
Definition update_relations (f : ActorRelations → ActorRelations) (a : ActorId) : PgState → PgState :=
  with_relations (alter f a).

Definition remove_empty_actor_relations (a : ActorId) (s : PgState) : PgState :=
  match actor_relations s !! a with
  | Some r => if relations_is_empty r then with_relations (delete a) s else s
  | None => s
  end.

Definition add_group_to_index (key : ScopeGroupKey) (s : PgState) : PgState :=
  with_index (λ ix, <[scope key := {[group key]} ∪ default ∅ (ix !! scope key)]> ix) s.

Definition remove_group_from_index (key : ScopeGroupKey) (s : PgState) : PgState :=
  match index s !! scope key with
  | Some groups =>
      let groups' := groups ∖ {[group key]} in
      with_index (λ ix, if bool_decide (groups' = ∅) then delete (scope key) ix
                        else <[scope key := groups']> ix) s
  | None => s
  end.

(** Drop the entry of a group that has neither members nor listeners. *)
Definition remove_vacant_group (key : ScopeGroupKey) (s : PgState) : PgState :=
  match map s !! key with
  | Some g => if is_vacant g then with_map (delete key) s else s
  | None => s
  end.

Definition notify (targets : list ActorCell) (change : GroupChangeMessage) (s : PgState) : PgState :=
  with_sent ((λ c, (get_id c, change)) <$> targets) s.

Definition notify_world_listeners (sc : ScopeName) (g : GroupName) (actors : list ActorCell) (is_join : bool)
    (s : PgState) : PgState :=
  let change := if is_join then Join sc g actors else Leave sc g actors in
  let s := notify (default [] (world_listeners s !! mkKey sc ALL_GROUPS_NOTIFICATION)) change s in
  notify (default [] (world_listeners s !! mkKey ALL_SCOPES_NOTIFICATION ALL_GROUPS_NOTIFICATION)) change s.

(** ** Joining *)

(** [actors.into_iter().filter(|actor| actor.get_status() <= Draining)] *)
Fixpoint retain_live (actors : list ActorCell) (s : PgState) : list ActorCell * PgState :=
  match actors with
  | [] => ([], s)
  | a :: rest =>
      let '(st, s) := get_status (get_id a) s in
      let '(kept, s) := retain_live rest s in
      (if status_le st Draining then a :: kept else kept, s)
  end.

Record JoinLoop := mkLoop {
  processed : gset ActorId;
  accepted : gset ActorId;
  stopped_relations : list ActorId
}.

(** The body of [for actor in &actors] *)
Definition join_one (key : ScopeGroupKey) (a : ActorCell) (st : JoinLoop * PgState) : JoinLoop * PgState :=
  let '(l, s) := st in
  let id := get_id a in
  if bool_decide (id ∈ processed l) then (l, s) else
  let l := mkLoop ({[id]} ∪ processed l) (accepted l) (stopped_relations l) in
  let s := get_or_create_actor_relations id s in
  let '(status, s) := get_status id s in
  if status_le status Draining then
    (mkLoop (processed l) ({[id]} ∪ accepted l) (stopped_relations l),
     update_relations (upd_memberships (union {[key]})) id s)
  else if relations_is_empty (default relations_default (actor_relations s !! id)) then
    (mkLoop (processed l) (accepted l) (stopped_relations l ++ [id]), s)
  else (l, s).

Definition join_loop (key : ScopeGroupKey) (actors : list ActorCell) (s : PgState) : JoinLoop * PgState :=
  foldl (λ st a, join_one key a st) (mkLoop ∅ ∅ [], s) actors.

Definition insert_members (joined : list ActorCell) (m : gmap ActorId ActorCell) : gmap ActorId ActorCell :=
  foldl (λ m c, <[get_id c := c]> m) m joined.

(** [join_scoped] for the actors that passed the first status check *)
Definition join_live (sc : ScopeName) (g : GroupName) (actors : list ActorCell) (s : PgState) : PgState :=
  let key := mkKey sc g in
  let gs := default group_default (map s !! key) in
  let '(l, s) := join_loop key actors s in
  let joined := filter (λ c, get_id c ∈ accepted l) actors in
  let s := with_map <[key := mkGroup (insert_members joined (members gs)) (listeners gs)]> s in
  let s := match joined with [] => s | _ => add_group_to_index key s end in
  let s := foldl (λ s a, remove_empty_actor_relations a s) s (stopped_relations l) in
  match joined with
  | [] => remove_vacant_group key s
  | _ => notify_world_listeners sc g joined true (notify (listeners gs) (Join sc g joined) s)
  end.

Definition join_scoped (sc : ScopeName) (g : GroupName) (actors : list ActorCell) (s : PgState) : PgState :=
  let '(actors, s) := retain_live actors s in
  match actors with
  | [] => s
  | _ => join_live sc g actors s
  end.

Definition join (g : GroupName) (actors : list ActorCell) : PgState → PgState :=
  join_scoped DEFAULT_SCOPE g actors.

(** ** Leaving *)

Definition remove_members (actors : list ActorCell) (m : gmap ActorId ActorCell) : gmap ActorId ActorCell :=
  foldl (λ m c, delete (get_id c) m) m actors.

(** Write a group's members back; the last member to go takes the group off the index and, when nobody
    monitors it, drops the entry. *)
Definition store_members (key : ScopeGroupKey) (m : gmap ActorId ActorCell) (ls : list ActorCell) (s : PgState) : PgState :=
  if bool_decide (m = ∅) then
    let s := remove_group_from_index key s in
    match ls with
    | [] => with_map (delete key) s
    | _ => with_map <[key := mkGroup m ls]> s
    end
  else with_map <[key := mkGroup m ls]> s.

Definition leave_scoped (sc : ScopeName) (g : GroupName) (actors : list ActorCell) (s : PgState) : PgState :=
  let key := mkKey sc g in
  match map s !! key with
  | None => s
  | Some gs =>
      let s := foldl (λ s c, update_relations (upd_memberships (λ ks, ks ∖ {[key]})) (get_id c) s) s actors in
      let s := store_members key (remove_members actors (members gs)) (listeners gs) s in
      notify_world_listeners sc g actors false (notify (listeners gs) (Leave sc g actors) s)
  end.

Definition leave (g : GroupName) (actors : list ActorCell) : PgState → PgState :=
  leave_scoped DEFAULT_SCOPE g actors.

Record RemovalEvent := mkRemoval { r_key : ScopeGroupKey; r_cell : ActorCell; r_listeners : list ActorCell }.

(** The body of [for key in memberships] *)
Definition leave_one (a : ActorId) (st : list RemovalEvent * PgState) (key : ScopeGroupKey) : list RemovalEvent * PgState :=
  let '(evs, s) := st in
  match map s !! key with
  | Some gs =>
      match members gs !! a with
      | Some cell => (evs ++ [mkRemoval key cell (listeners gs)], store_members key (delete a (members gs)) (listeners gs) s)
      | None => (evs, s)
      end
  | None => (evs, s)
  end.

Definition notify_removal (s : PgState) (e : RemovalEvent) : PgState :=
  let '(mkRemoval key cell ls) := e in
  notify_world_listeners (scope key) (group key) [cell] false
    (notify ls (Leave (scope key) (group key) [cell]) s).

Definition leave_all (a : ActorId) (s : PgState) : PgState :=
  match actor_relations s !! a with
  | None => s
  | Some r =>
      let s := update_relations (upd_memberships (λ _, ∅)) a s in
      let '(evs, s) := foldl (leave_one a) ([], s) (hs_iter (memberships r)) in
      let s := remove_empty_actor_relations a s in
      foldl notify_removal s evs
  end.

(** ** Reading *)

Definition get_scoped_members (sc : ScopeName) (g : GroupName) (s : PgState) : list ActorCell :=
  match map s !! mkKey sc g with
  | Some gs => (map_to_list (members gs)).*2
  | None => []
  end.

Definition get_members (g : GroupName) (s : PgState) : list ActorCell := get_scoped_members DEFAULT_SCOPE g s.

Definition get_scoped_local_members (sc : ScopeName) (g : GroupName) (s : PgState) : list ActorCell :=
  match map s !! mkKey sc g with
  | Some gs => filter (λ c, is_local (get_id c) = true) (map_to_list (members gs)).*2
  | None => []
  end.

Definition get_local_members (g : GroupName) (s : PgState) : list ActorCell :=
  get_scoped_local_members DEFAULT_SCOPE g s.

Definition which_scopes_and_groups (s : PgState) : list ScopeGroupKey :=
  (filter (λ kv, members kv.2 ≠ ∅) (map_to_list (map s))).*1.

(** [sort_unstable] then [dedup] *)
Fixpoint dedup (l : list string) : list string :=
  match l with
  | x :: ((y :: _) as rest) => if bool_decide (x = y) then dedup rest else x :: dedup rest
  | _ => l
  end.

Definition sort_dedup (l : list string) : list string := dedup (merge_sort String.le l).

Definition which_groups (s : PgState) : list GroupName := sort_dedup (group <$> which_scopes_and_groups s).
Definition which_scopes (s : PgState) : list ScopeName := sort_dedup (scope <$> which_scopes_and_groups s).

Definition which_scoped_groups (sc : ScopeName) (s : PgState) : list GroupName :=
  match index s !! sc with
  | Some groups => elements groups
  | None => []
  end.

(** ** Monitoring *)

(** Push a listener unless one with its id is there. *)
Definition push_listener (c : ActorCell) (ls : list ActorCell) : list ActorCell :=
  if existsb (λ l, bool_decide (get_id l = get_id c)) ls then ls else ls ++ [c].

Definition remove_vacant_world (key : ScopeGroupKey) (s : PgState) : PgState :=
  match world_listeners s !! key with
  | Some [] => with_world (delete key) s
  | _ => s
  end.

Definition monitor (g : GroupName) (c : ActorCell) (s : PgState) : PgState :=
  let key := mkKey DEFAULT_SCOPE g in
  let id := get_id c in
  let s := get_or_create_actor_relations id s in
  let gs := default group_default (map s !! key) in
  let s := with_map <[key := gs]> s in
  let '(st, s) := get_status id s in
  let s :=
    if status_le st Draining then
      update_relations (upd_group_monitors (union {[key]})) id
        (with_map <[key := mkGroup (members gs) (push_listener c (listeners gs))]> s)
    else s in
  let '(st, s) := get_status id s in
  if status_le Stopping st then remove_empty_actor_relations id (remove_vacant_group key s) else s.

Definition monitor_scope (sc : ScopeName) (c : ActorCell) (s : PgState) : PgState :=
  let key := mkKey sc ALL_GROUPS_NOTIFICATION in
  let id := get_id c in
  let s := get_or_create_actor_relations id s in
  let ls := default [] (world_listeners s !! key) in
  let s := with_world <[key := ls]> s in
  let '(st, s) := get_status id s in
  let s :=
    if status_le st Draining then
      update_relations (upd_world_monitors (union {[key]})) id (with_world <[key := push_listener c ls]> s)
    else s in
  let '(st, s) := get_status id s in
  if status_le Stopping st then remove_empty_actor_relations id (remove_vacant_world key s) else s.

(** [listeners.retain(|listener| listener.get_id() != actor)] *)
Definition without (a : ActorId) (ls : list ActorCell) : list ActorCell := filter (λ c, get_id c ≠ a) ls.

(** Take an actor off the listeners of a group's entry, dropping the entry when nothing is left. *)
Definition drop_group_listener (a : ActorId) (key : ScopeGroupKey) (s : PgState) : PgState :=
  match map s !! key with
  | Some gs => remove_vacant_group key (with_map <[key := mkGroup (members gs) (without a (listeners gs))]> s)
  | None => s
  end.

Definition drop_world_listener (a : ActorId) (key : ScopeGroupKey) (s : PgState) : PgState :=
  match world_listeners s !! key with
  | Some ls => remove_vacant_world key (with_world <[key := without a ls]> s)
  | None => s
  end.

Definition demonitor (g : GroupName) (a : ActorId) (s : PgState) : PgState :=
  let key := mkKey DEFAULT_SCOPE g in
  update_relations (upd_group_monitors (λ ks, ks ∖ {[key]})) a (drop_group_listener a key s).

Definition demonitor_scope (sc : ScopeName) (a : ActorId) (s : PgState) : PgState :=
  let key := mkKey sc ALL_GROUPS_NOTIFICATION in
  update_relations (upd_world_monitors (λ ks, ks ∖ {[key]})) a (drop_world_listener a key s).

Definition demonitor_all (a : ActorId) (s : PgState) : PgState :=
  match actor_relations s !! a with
  | None => s
  | Some r =>
      let s := update_relations (λ r, upd_world_monitors (λ _, ∅) (upd_group_monitors (λ _, ∅) r)) a s in
      let s := foldl (λ s key, drop_group_listener a key s) s (hs_iter (group_monitors r)) in
      foldl (λ s key, drop_world_listener a key s) s (hs_iter (world_monitors r))
  end.

(** [ActorCell::set_status] calls both, in this order, when the actor starts to stop. *)
Definition shutdown (a : ActorId) (s : PgState) : PgState := leave_all a (demonitor_all a s).

(** ** The invariant *)

Definition members_of (s : PgState) (k : ScopeGroupKey) : gmap ActorId ActorCell :=
  default ∅ (members <$> map s !! k).
Definition listeners_of (s : PgState) (k : ScopeGroupKey) : list ActorCell :=
  default [] (listeners <$> map s !! k).
Definition world_of (s : PgState) (k : ScopeGroupKey) : list ActorCell :=
  default [] (world_listeners s !! k).
Definition relations_of (s : PgState) (a : ActorId) : ActorRelations :=
  default relations_default (actor_relations s !! a).
Definition index_of (s : PgState) (sc : ScopeName) : gset GroupName := default ∅ (index s !! sc).

(** The forward maps and the two indexes agree; *)
Record view_inv (s : PgState) : Prop := {
  v_member k a : k ∈ memberships (relations_of s a) ↔ is_Some (members_of s k !! a);
  v_cell k a c : members_of s k !! a = Some c → get_id c = a;
  v_monitor k a : k ∈ group_monitors (relations_of s a) ↔ a ∈ get_id <$> listeners_of s k;
  v_monitor_once k : NoDup (get_id <$> listeners_of s k);
  v_world k a : k ∈ world_monitors (relations_of s a) ↔ a ∈ get_id <$> world_of s k;
  v_world_once k : NoDup (get_id <$> world_of s k);
  v_index sc g : g ∈ index_of s sc ↔ members_of s (mkKey sc g) ≠ ∅
}.

(** and no entry is kept that holds nothing. *)
Record tidy (s : PgState) : Prop := {
  t_group k gs : map s !! k = Some gs → is_vacant gs = false;
  t_world k ls : world_listeners s !! k = Some ls → ls ≠ [];
  t_index sc gs : index s !! sc = Some gs → gs ≠ ∅
}.

Definition pg_inv (s : PgState) : Prop := view_inv s ∧ tidy s.

(** ** What the operations leave alone *)

(** Two states that differ in vacant entries, notifications and time only. *)
Record same_view (s s' : PgState) : Prop := {
  s_members k : members_of s' k = members_of s k;
  s_listeners k : listeners_of s' k = listeners_of s k;
  s_world k : world_of s' k = world_of s k;
  s_relations a : relations_of s' a = relations_of s a;
  s_index sc : index_of s' sc = index_of s sc
}.

#[local] Instance same_view_preorder : PreOrder same_view.
Proof using.
  split; [done|]. intros x y z [A1 A2 A3 A4 A5] [B1 B2 B3 B4 B5].
  split; intros; by rewrite ?B1, ?B2, ?B3, ?B4, ?B5, ?A1, ?A2, ?A3, ?A4, ?A5.
Qed.

Lemma view_inv_same s s' : same_view s s' → view_inv s → view_inv s'.
Proof using.
  intros [A1 A2 A3 A4 A5] [B1 B2 B3 B4 B5 B6 B7].
  split; intros *; rewrite ?A1, ?A2, ?A3, ?A4, ?A5; eauto.
Qed.

Lemma same_get_status a s : same_view s (get_status a s).2.
Proof using. done. Qed.

Lemma same_with_sent l s : same_view s (with_sent l s).
Proof using. done. Qed.

Lemma relations_of_get_or_create a s b : relations_of (get_or_create_actor_relations a s) b = relations_of s b.
Proof using.
  unfold relations_of, get_or_create_actor_relations. destruct (actor_relations s !! a) eqn:Ha; [done|]. simpl.
  destruct (decide (a = b)) as [->|Hne]; [by rewrite lookup_insert_eq, Ha|by rewrite lookup_insert_ne].
Qed.

Lemma same_get_or_create a s : same_view s (get_or_create_actor_relations a s).
Proof using.
  split; [..|by intros b; apply relations_of_get_or_create|];
    intros ?; unfold get_or_create_actor_relations; by case_match.
Qed.

Lemma get_or_create_present a s : is_Some (actor_relations (get_or_create_actor_relations a s) !! a).
Proof using.
  unfold get_or_create_actor_relations. destruct (actor_relations s !! a) eqn:Ha; [done|].
  simpl. by rewrite lookup_insert_eq.
Qed.

Lemma relations_is_empty_default r : relations_is_empty r = true → r = relations_default.
Proof using.
  unfold relations_is_empty. destruct r as [m gm wm]. simpl. rewrite !andb_true_iff, !bool_decide_eq_true.
  by intros [[-> ->] ->].
Qed.

Lemma same_remove_empty a s : same_view s (remove_empty_actor_relations a s).
Proof using.
  unfold remove_empty_actor_relations. destruct (actor_relations s !! a) as [r|] eqn:Ha; [|done].
  destruct (relations_is_empty r) eqn:Hr; [|done]. apply relations_is_empty_default in Hr as ->.
  split; try done. intros b. unfold relations_of. simpl.
  destruct (decide (a = b)) as [->|Hne]; [by rewrite lookup_delete_eq, Ha|by rewrite lookup_delete_ne].
Qed.

Lemma members_of_with_map f s k : members_of (with_map f s) k = default ∅ (members <$> f (map s) !! k).
Proof using. done. Qed.

Lemma same_remove_vacant_group key s : same_view s (remove_vacant_group key s).
Proof using.
  unfold remove_vacant_group. destruct (map s !! key) as [g|] eqn:Hk; [|done].
  destruct (is_vacant g) eqn:Hv; [|done]. unfold is_vacant in Hv.
  rewrite andb_true_iff, !bool_decide_eq_true in Hv. destruct Hv as [Hm Hl].
  split; try done; intros k; unfold members_of, listeners_of; simpl;
    (destruct (decide (key = k)) as [->|Hne]; [rewrite lookup_delete_eq, Hk|by rewrite lookup_delete_ne]);
    simpl; by rewrite ?Hm, ?Hl.
Qed.

Lemma same_remove_vacant_world key s : same_view s (remove_vacant_world key s).
Proof using.
  unfold remove_vacant_world. destruct (world_listeners s !! key) as [[|]|] eqn:Hk; [|done..].
  split; try done. intros k. unfold world_of. simpl.
  destruct (decide (key = k)) as [->|Hne]; [by rewrite lookup_delete_eq, Hk|by rewrite lookup_delete_ne].
Qed.

Lemma same_foldl {A} (f : PgState → A → PgState) l s :
  (∀ s x, same_view s (f s x)) → same_view s (foldl f s l).
Proof using.
  intros Hf. revert s. induction l as [|x l IH]; intros s; simpl; [done|]. by etrans; [apply (Hf s x)|].
Qed.

(** ** The index and the members of one group *)

Definition index_ok (s : PgState) : Prop :=
  ∀ sc g, g ∈ index_of s sc ↔ members_of s (mkKey sc g) ≠ ∅.

(** [s'] differs from [s] in the members of [key], which are [m], and in the index. *)
Record members_set (key : ScopeGroupKey) (m : gmap ActorId ActorCell) (s s' : PgState) : Prop := {
  m_members k : members_of s' k = if decide (k = key) then m else members_of s k;
  m_listeners k : listeners_of s' k = listeners_of s k;
  m_world k : world_listeners s' !! k = world_listeners s !! k;
  m_relations : actor_relations s' = actor_relations s;
  m_index : index_ok s → index_ok s';
  m_tidy : tidy s → tidy s';
  m_clock : clock s' = clock s
}.

Lemma index_of_remove key s sc g :
  g ∈ index_of (remove_group_from_index key s) sc ↔ g ∈ index_of s sc ∧ mkKey sc g ≠ key.
Proof using.
  unfold index_of, remove_group_from_index. destruct key as [sc0 g0]. simpl.
  assert (mkKey sc g ≠ mkKey sc0 g0 ↔ sc ≠ sc0 ∨ g ≠ g0) as ->.
  { destruct (decide (sc = sc0)) as [->|], (decide (g = g0)) as [->|]; naive_solver. }
  destruct (index s !! sc0) as [gs|] eqn:Hi; simpl.
  2: { destruct (decide (sc = sc0)) as [->|]; [rewrite Hi; set_solver|naive_solver]. }
  destruct (decide (sc = sc0)) as [->|Hne].
  - rewrite Hi. simpl. case_bool_decide as Hb; rewrite ?lookup_delete_eq, ?lookup_insert_eq; simpl; set_solver.
  - case_bool_decide; rewrite ?lookup_delete_ne, ?lookup_insert_ne by done; naive_solver.
Qed.

Lemma remove_index_others key s :
  map (remove_group_from_index key s) = map s ∧
  world_listeners (remove_group_from_index key s) = world_listeners s ∧
  actor_relations (remove_group_from_index key s) = actor_relations s ∧
  clock (remove_group_from_index key s) = clock s.
Proof using. unfold remove_group_from_index. by case_match. Qed.

Lemma remove_index_tidy key s sc gs :
  (∀ sc gs, index s !! sc = Some gs → gs ≠ ∅) →
  index (remove_group_from_index key s) !! sc = Some gs → gs ≠ ∅.
Proof using.
  intros Ht. unfold remove_group_from_index. destruct (index s !! scope key) as [gs0|] eqn:Hi; [|by apply Ht].
  simpl. case_bool_decide as Hb; [intros [_ ?]%lookup_delete_Some; by eapply Ht|].
  intros [[_ <-]|[_ ?]]%lookup_insert_Some; [done|by eapply Ht].
Qed.

Lemma is_vacant_false m ls : is_vacant (mkGroup m ls) = false ↔ m ≠ ∅ ∨ ls ≠ [].
Proof using.
  unfold is_vacant. simpl. rewrite andb_false_iff, !bool_decide_eq_false. done.
Qed.

Lemma members_of_insert key gs s k :
  members_of (with_map <[key := gs]> s) k = if decide (k = key) then members gs else members_of s k.
Proof using.
  unfold members_of. simpl. destruct (decide (k = key)) as [->|];
    [by rewrite lookup_insert_eq|by rewrite lookup_insert_ne].
Qed.

Lemma listeners_of_insert key gs s k :
  listeners_of (with_map <[key := gs]> s) k = if decide (k = key) then listeners gs else listeners_of s k.
Proof using.
  unfold listeners_of. simpl. destruct (decide (k = key)) as [->|];
    [by rewrite lookup_insert_eq|by rewrite lookup_insert_ne].
Qed.

(** Storing a group whose listeners do not change. *)
Lemma insert_group_members_set key m ls s :
  listeners_of s key = ls → m ≠ ∅ →
  members_set key m s (add_group_to_index key (with_map <[key := mkGroup m ls]> s)).
Proof using.
  intros Hls Hm. split; try done.
  - intros k. apply members_of_insert.
  - intros k. transitivity (listeners_of (with_map <[key := mkGroup m ls]> s) k); [done|].
    rewrite listeners_of_insert. case_decide; [by subst|done].
  - intros Hi sc g. specialize (Hi sc g).
    transitivity (if decide (mkKey sc g = key) then True else g ∈ index_of s sc).
    + unfold index_of, add_group_to_index. destruct key as [sc0 g0]. simpl.
      destruct (decide (sc = sc0)) as [->|Hne].
      * rewrite lookup_insert_eq. simpl. case_decide; set_solver.
      * rewrite lookup_insert_ne by done. rewrite decide_False by congruence. done.
    + assert (members_of (add_group_to_index key (with_map <[key := mkGroup m ls]> s)) (mkKey sc g) =
              members_of (with_map <[key := mkGroup m ls]> s) (mkKey sc g)) as -> by done.
      rewrite members_of_insert. case_decide; naive_solver.
  - intros [T1 T2 T3]. split; simpl.
    + intros k gs [[_ <-]|[_ ?]]%lookup_insert_Some; [|by eapply T1]. apply is_vacant_false. by left.
    + done.
    + intros sc gs [[_ <-]|[_ ?]]%lookup_insert_Some; [set_solver|by eapply T3].
Qed.

Lemma store_members_set key m ls s :
  listeners_of s key = ls → (members_of s key = ∅ → m = ∅) →
  members_set key m s (store_members key m ls s).
Proof using.
  intros Hls Hm0. unfold store_members. destruct (remove_index_others key s) as (R1 & R2 & R3 & R4).
  case_bool_decide as Hm.
  - subst m.
    set (s1 := remove_group_from_index key s) in *.
    set (s' := match ls with [] => with_map (delete key) s1 | _ => with_map <[key := mkGroup ∅ ls]> s1 end).
    assert (world_listeners s' = world_listeners s ∧ actor_relations s' = actor_relations s ∧
            index s' = index s1 ∧ clock s' = clock s ∧
            (∀ k, members_of s' k = if decide (k = key) then ∅ else members_of s k) ∧
            (∀ k, listeners_of s' k = listeners_of s k) ∧
            ∀ k gs, map s' !! k = Some gs → k ≠ key ∧ map s !! k = Some gs ∨ is_vacant gs = false)
      as (W & A & I & C & Mm & Ml & Mt).
    { subst s'. unfold members_of, listeners_of in *. destruct ls as [|l ls]; simpl; rewrite ?R1; (split_and!; try done).
      - intros k. case_decide; [subst; by rewrite lookup_delete_eq|by rewrite lookup_delete_ne].
      - intros k. destruct (decide (k = key)) as [->|];
          [by rewrite lookup_delete_eq, Hls|by rewrite lookup_delete_ne].
      - intros k gs [? ?]%lookup_delete_Some. by left.
      - intros k. case_decide; [subst; by rewrite lookup_insert_eq|by rewrite lookup_insert_ne].
      - intros k. destruct (decide (k = key)) as [->|];
          [by rewrite lookup_insert_eq, Hls|by rewrite lookup_insert_ne].
      - intros k gs [[_ <-]|[? ?]]%lookup_insert_Some; [|by left]. right. apply is_vacant_false. by right. }
    split; try done.
    + intros k. by rewrite W.
    + intros Hi sc g. unfold index_of. rewrite I. fold (index_of s1 sc). subst s1.
      rewrite index_of_remove, (Hi sc g), Mm. case_decide; naive_solver.
    + intros [T1 T2 T3]. split.
      * intros k gs [[_ ?]|?]%Mt; [by eapply T1|done].
      * intros k l0. rewrite W. apply T2.
      * intros sc gs. rewrite I. by apply remove_index_tidy.
  - split; try done.
    + intros k. apply members_of_insert.
    + intros k. rewrite listeners_of_insert. case_decide; [by subst|done].
    + intros Hi sc g. specialize (Hi sc g). rewrite members_of_insert. case_decide; [|done]. subst. naive_solver.
    + intros [T1 T2 T3]. split; try done. simpl.
      intros k gs [[_ <-]|[_ ?]]%lookup_insert_Some; [|by eapply T1]. apply is_vacant_false. by left.
Qed.

(** Setting the members of [key] keeps the invariant when the reverse index follows. *)
Lemma members_set_inv key m s s1 s' :
  view_inv s → members_set key m s1 s' →
  (∀ k, members_of s1 k = members_of s k) → (∀ k, listeners_of s1 k = listeners_of s k) →
  world_listeners s1 = world_listeners s → index s1 = index s →
  (∀ a, group_monitors (relations_of s1 a) = group_monitors (relations_of s a) ∧
        world_monitors (relations_of s1 a) = world_monitors (relations_of s a)) →
  (∀ k a, k ∈ memberships (relations_of s1 a) ↔
     if decide (k = key) then is_Some (m !! a) else k ∈ memberships (relations_of s a)) →
  (∀ a c, m !! a = Some c → get_id c = a) →
  view_inv s'.
Proof using.
  intros [V1 V2 V3 V4 V5 V6 V7] [M1 M2 M3 M4 M5 _ _] Em El Ew Ei Er Ek Hc.
  assert (∀ a, relations_of s' a = relations_of s1 a) as Rel by (intros a; unfold relations_of; by rewrite M4).
  split.
  - intros k a. rewrite Rel, Ek, M1. case_decide; [done|]. by rewrite V1, Em.
  - intros k a c. rewrite M1. case_decide; [apply Hc|rewrite Em; apply V2].
  - intros k a. rewrite Rel, M2, El. destruct (Er a) as [-> _]. apply V3.
  - intros k. rewrite M2, El. apply V4.
  - intros k a. unfold world_of. rewrite Rel, M3, Ew. destruct (Er a) as [_ ->]. apply V5.
  - intros k. unfold world_of. rewrite M3, Ew. apply V6.
  - intros sc g. apply M5. intros sc' g'. unfold index_of. rewrite Ei, Em. apply V7.
Qed.

Lemma relations_of_update f a s b :
  is_Some (actor_relations s !! a) ∨ f relations_default = relations_default →
  relations_of (update_relations f a s) b = if decide (b = a) then f (relations_of s a) else relations_of s b.
Proof using.
  intros Hf. unfold relations_of, update_relations. simpl. case_decide as Hab.
  - subst b. rewrite lookup_alter_eq. destruct (actor_relations s !! a) eqn:Ha; [done|]. simpl.
    destruct Hf as [[? ?]|Hf]; [done|by rewrite Hf].
  - by rewrite lookup_alter_ne.
Qed.

(** ** Joining *)

(** The loop of [join_scoped], started in [s0]: it changes the reverse index only, by the actors it
    accepted, each of which it saw alive. *)
Record loop_inv (key : ScopeGroupKey) (ids : list ActorId) (s0 : PgState) (l : JoinLoop) (s : PgState) : Prop := {
  l_map : map s = map s0;
  l_index : index s = index s0;
  l_world : world_listeners s = world_listeners s0;
  l_sent : sent s = sent s0;
  l_clock : clock s0 ≤ clock s;
  l_untouched a : a ∉ ids → actor_relations s !! a = actor_relations s0 !! a;
  l_processed a : a ∈ processed l ↔ a ∈ ids;
  l_accepted a : a ∈ accepted l → a ∈ ids ∧ ∃ t, clock s0 ≤ t ∧ t < clock s ∧ status_le (status_at t a) Draining = true;
  l_alive a : a ∈ ids → (∀ t, clock s0 ≤ t → status_le (status_at t a) Draining = true) → a ∈ accepted l;
  l_monitors a : group_monitors (relations_of s a) = group_monitors (relations_of s0 a) ∧
                 world_monitors (relations_of s a) = world_monitors (relations_of s0 a);
  l_members k a : k ∈ memberships (relations_of s a) ↔ k ∈ memberships (relations_of s0 a) ∨ k = key ∧ a ∈ accepted l
}.

Lemma get_or_create_same a s :
  map (get_or_create_actor_relations a s) = map s ∧ index (get_or_create_actor_relations a s) = index s ∧
  world_listeners (get_or_create_actor_relations a s) = world_listeners s ∧
  sent (get_or_create_actor_relations a s) = sent s ∧
  clock (get_or_create_actor_relations a s) = clock s.
Proof using. unfold get_or_create_actor_relations. by case_match. Qed.

Lemma get_or_create_other a s b :
  b ≠ a → actor_relations (get_or_create_actor_relations a s) !! b = actor_relations s !! b.
Proof using.
  intros Hb. unfold get_or_create_actor_relations. case_match; [done|]. simpl. by apply lookup_insert_ne.
Qed.

Lemma join_one_inv key ids s0 l s c :
  loop_inv key ids s0 l s → let '(l', s') := join_one key c (l, s) in loop_inv key (ids ++ [get_id c]) s0 l' s'.
Proof using.
  intros [H1 H2 H3 Hs H4 Hu H5 H6 H7 H8 H9]. unfold join_one. case_bool_decide as Hp.
  { split; try done; [set_solver|set_solver| |].
    - intros a Ha. destruct (H6 a Ha) as [? ?]. split; [set_solver|done].
    - intros a Ha. apply H7. apply H5 in Hp. set_solver. }
  destruct (get_or_create_same (get_id c) s) as (G1 & G2 & G3 & Gs & G4).
  pose proof (relations_of_get_or_create (get_id c) s) as G5.
  pose proof (get_or_create_present (get_id c) s) as G6.
  set (s1 := get_or_create_actor_relations (get_id c) s) in *. simpl.
  set (s2 := mkPg (map s1) (index s1) (world_listeners s1) (actor_relations s1) (sent s1) (S (clock s1))).
  assert (∀ b, relations_of s2 b = relations_of s b) as G7 by exact G5.
  destruct (status_le (status_at (clock s1) (get_id c)) Draining) eqn:Hst.
  - assert (∀ b, relations_of (update_relations (upd_memberships (union {[key]})) (get_id c) s2) b =
      if decide (b = get_id c) then upd_memberships (union {[key]}) (relations_of s b) else relations_of s b) as G8.
    { intros b. rewrite relations_of_update by (by left). case_decide; subst; by rewrite G7. }
    split; simpl; try congruence; [lia| |set_solver| | | |].
    + intros a Ha. rewrite lookup_alter_ne by set_solver. unfold s1. rewrite get_or_create_other by set_solver. set_solver.
    + intros a [->%elem_of_singleton|Ha]%elem_of_union.
      * split; [set_solver|]. exists (clock s1). split_and!; [lia|lia|done].
      * destruct (H6 a Ha) as (? & t & ? & ? & ?). split; [set_solver|]. exists t. split_and!; [done|lia|done].
    + intros a [Ha| ->%list_elem_of_singleton]%elem_of_app Hal; [|set_solver]. set_solver.
    + intros a. rewrite G8. case_decide; apply H8.
    + intros k a. rewrite G8. case_decide as Ha; [subst a|].
      * simpl. rewrite elem_of_union, H9. set_solver.
      * rewrite H9. set_solver.
  - assert (∀ l', processed l' = {[get_id c]} ∪ processed l → accepted l' = accepted l →
      loop_inv key (ids ++ [get_id c]) s0 l' s2) as Hl'.
    { intros l' Hpr Hac. split; simpl; try congruence; rewrite ?Hpr, ?Hac; [lia| |set_solver| | | |].
      - intros a Ha. unfold s1. rewrite get_or_create_other by set_solver. set_solver.
      - intros a Ha. destruct (H6 a Ha) as (? & t & ? & ? & ?). split; [set_solver|]. exists t. split_and!; [done|lia|done].
      - intros a [Ha| ->%list_elem_of_singleton]%elem_of_app Hal; [by apply H7|].
        rewrite Hal in Hst; [done|lia].
      - intros a. rewrite G7. apply H8.
      - intros k a. rewrite G7. apply H9. }
    destruct (relations_is_empty _); by apply Hl'.
Qed.

Lemma join_loop_inv key actors s :
  let '(l, s') := join_loop key actors s in loop_inv key (get_id <$> actors) s l s'.
Proof using.
  unfold join_loop.
  assert (∀ ids l s1, loop_inv key ids s l s1 →
    let '(l', s') := foldl (λ st a, join_one key a st) (l, s1) actors in
    loop_inv key (ids ++ (get_id <$> actors)) s l' s') as Hgen.
  { induction actors as [|c actors IH]; intros ids l s1 Hl; cbn [foldl]; [by rewrite app_nil_r|].
    pose proof (join_one_inv _ _ _ _ _ c Hl) as Hc. destruct (join_one key c (l, s1)) as [l' s'].
    specialize (IH _ _ _ Hc). destruct (foldl _ _ _) as [l2 s2]. rewrite <- app_assoc in IH. exact IH. }
  apply (Hgen []). split; simpl; try done.
  - intros a. by rewrite elem_of_empty, elem_of_nil.
  - intros a. by rewrite elem_of_nil.
  - intros k a. rewrite elem_of_empty. naive_solver.
Qed.

Lemma retain_live_spec actors s :
  let '(kept, s') := retain_live actors s in
  s' = mkPg (map s) (index s) (world_listeners s) (actor_relations s) (sent s) (clock s + length actors) ∧
  (∀ c, c ∈ kept → c ∈ actors ∧ ∃ t, clock s ≤ t ∧ status_le (status_at t (get_id c)) Draining = true) ∧
  (∀ c, c ∈ actors → (∀ t, clock s ≤ t → status_le (status_at t (get_id c)) Draining = true) → c ∈ kept).
Proof using.
  revert s. induction actors as [|c actors IH]; intros s.
  { simpl. split_and!; [destruct s; simpl; by rewrite Nat.add_0_r|set_solver|set_solver]. }
  simpl. specialize (IH (get_status (get_id c) s).2). simpl in IH.
  destruct (retain_live actors _) as [kept s']. destruct IH as (-> & IH1 & IH2). split_and!.
  - simpl. f_equal. lia.
  - intros x Hx. assert (x ∈ kept ∨ x = c ∧ status_le (status_at (clock s) (get_id c)) Draining = true) as [Hk|[-> Hl]].
    { destruct (status_le _ _); set_solver. }
    + destruct (IH1 x Hk) as (? & t & ? & ?). split; [set_solver|]. exists t. split; [lia|done].
    + split; [set_solver|]. eauto.
  - intros x [->|Hx]%elem_of_cons Hal.
    + rewrite Hal by done. set_solver.
    + assert (x ∈ kept) by (apply IH2; [done|]; intros t Ht; apply Hal; lia). destruct (status_le _ _); set_solver.
Qed.

Lemma insert_members_lookup joined m a :
  is_Some (insert_members joined m !! a) ↔ is_Some (m !! a) ∨ a ∈ get_id <$> joined.
Proof using.
  revert m. induction joined as [|c joined IH]; intros m; simpl; [set_solver|].
  rewrite IH. destruct (decide (a = get_id c)) as [->|Hne].
  - rewrite lookup_insert_eq. set_solver.
  - rewrite lookup_insert_ne by done. set_solver.
Qed.

Lemma insert_members_cells joined m a c :
  (∀ a c, m !! a = Some c → get_id c = a) → insert_members joined m !! a = Some c → get_id c = a.
Proof using.
  revert m. induction joined as [|j joined IH]; intros m Hm; simpl; [apply Hm|].
  apply IH. intros b d [[<- <-]|[_ ?]]%lookup_insert_Some; eauto.
Qed.

Lemma insert_members_nonempty joined m : joined ≠ [] → insert_members joined m ≠ ∅.
Proof using.
  destruct joined as [|c joined]; [done|]. intros _ He.
  assert (is_Some (insert_members (c :: joined) m !! get_id c)) as [x Hx].
  { apply insert_members_lookup. set_solver. }
  by rewrite He in Hx.
Qed.

(** Every listener that a change of [key] is announced to. *)
Definition announced (s : PgState) (key : ScopeGroupKey) : list ActorId :=
  get_id <$> (listeners_of s key ++ world_of s (mkKey (scope key) ALL_GROUPS_NOTIFICATION) ++
              world_of s (mkKey ALL_SCOPES_NOTIFICATION ALL_GROUPS_NOTIFICATION)).

Lemma announce_spec s sc g actors is_join ls :
  ls = listeners_of s (mkKey sc g) →
  let change := if is_join : bool then Join sc g actors else Leave sc g actors in
  notify_world_listeners sc g actors is_join (notify ls change s) =
  with_sent ((λ a, (a, change)) <$> announced s (mkKey sc g)) s.
Proof using.
  intros -> change. unfold notify_world_listeners, notify, announced, with_sent, world_of. simpl.
  f_equal. rewrite !fmap_app, <- !list_fmap_compose, <- !app_assoc. done.
Qed.

Lemma tidy_same s s' : map s' = map s → world_listeners s' = world_listeners s → index s' = index s → tidy s → tidy s'.
Proof using. intros E1 E2 E3 [T1 T2 T3]. split; intros *; rewrite ?E1, ?E2, ?E3; eauto. Qed.

Lemma remove_empty_same a s :
  map (remove_empty_actor_relations a s) = map s ∧ index (remove_empty_actor_relations a s) = index s ∧
  world_listeners (remove_empty_actor_relations a s) = world_listeners s ∧
  sent (remove_empty_actor_relations a s) = sent s ∧ clock (remove_empty_actor_relations a s) = clock s.
Proof using. unfold remove_empty_actor_relations. repeat case_match; done. Qed.

Lemma remove_empties_same l s :
  let s' := foldl (λ s a, remove_empty_actor_relations a s) s l in
  same_view s s' ∧ map s' = map s ∧ index s' = index s ∧ world_listeners s' = world_listeners s ∧
  sent s' = sent s ∧ clock s' = clock s.
Proof using.
  simpl. revert s. induction l as [|a l IH]; intros s; simpl; [done|].
  destruct (IH (remove_empty_actor_relations a s)) as (V & A & B & C & D & E).
  destruct (remove_empty_same a s) as (A' & B' & C' & D' & E').
  split_and!; [etrans; [apply same_remove_empty|exact V]|congruence..].
Qed.

(** Dropping a vacant entry tidies up a state that is tidy elsewhere. *)
Lemma tidy_remove_vacant_group key s :
  (∀ k gs, k ≠ key → map s !! k = Some gs → is_vacant gs = false) →
  (∀ k ls, world_listeners s !! k = Some ls → ls ≠ []) → (∀ sc gs, index s !! sc = Some gs → gs ≠ ∅) →
  tidy (remove_vacant_group key s).
Proof using.
  intros T1 T2 T3. unfold remove_vacant_group. destruct (map s !! key) as [g|] eqn:Hk.
  2: { split; try done. intros k gs Hgs. apply (T1 k gs); [congruence|done]. }
  destruct (is_vacant g) eqn:Hv; split; try done; simpl.
  - intros k gs [? ?]%lookup_delete_Some. eapply T1; [|done]. congruence.
  - intros k gs Hgs. destruct (decide (k = key)) as [->|Hne]; [congruence|by apply (T1 k)].
Qed.

Lemma tidy_remove_vacant_world key s :
  (∀ k gs, map s !! k = Some gs → is_vacant gs = false) →
  (∀ k ls, k ≠ key → world_listeners s !! k = Some ls → ls ≠ []) → (∀ sc gs, index s !! sc = Some gs → gs ≠ ∅) →
  tidy (remove_vacant_world key s).
Proof using.
  intros T1 T2 T3. unfold remove_vacant_world. destruct (world_listeners s !! key) as [[|l ls]|] eqn:Hk; split; try done; simpl.
  - intros k gs [? ?]%lookup_delete_Some. eapply T2; [|done]. congruence.
  - intros k gs Hgs. destruct (decide (k = key)) as [->|Hne]; [congruence|by apply (T2 k)].
  - intros k gs Hgs. apply (T2 k gs); [congruence|done].
Qed.

Lemma remove_vacant_group_same key s :
  world_listeners (remove_vacant_group key s) = world_listeners s ∧ index (remove_vacant_group key s) = index s ∧
  actor_relations (remove_vacant_group key s) = actor_relations s ∧
  sent (remove_vacant_group key s) = sent s ∧ clock (remove_vacant_group key s) = clock s.
Proof using. unfold remove_vacant_group. by repeat case_match. Qed.

Lemma remove_vacant_world_same key s :
  map (remove_vacant_world key s) = map s ∧ index (remove_vacant_world key s) = index s ∧
  actor_relations (remove_vacant_world key s) = actor_relations s ∧
  sent (remove_vacant_world key s) = sent s ∧ clock (remove_vacant_world key s) = clock s.
Proof using. unfold remove_vacant_world. by repeat case_match. Qed.

(** What a change of a group's membership does to the rest of the state. *)
Record regrouped (key : ScopeGroupKey) (m : gmap ActorId ActorCell) (s s' : PgState) : Prop := {
  g_inv : pg_inv s';
  g_members k : members_of s' k = if decide (k = key) then m else members_of s k;
  g_listeners k : listeners_of s' k = listeners_of s k;
  g_world k : world_of s' k = world_of s k;
  g_clock : clock s ≤ clock s'
}.

Lemma regrouped_with_sent key m s s' l : regrouped key m s s' → regrouped key m s (with_sent l s').
Proof using.
  intros [[V T] R2 R3 R4 R5]. split; try done. split; [|by apply (tidy_same s')].
  eapply view_inv_same; [|done]. apply same_with_sent.
Qed.

(** No member joined: the entry that was created for nothing goes away. *)
Lemma join_nobody key s l s1 ids :
  pg_inv s → loop_inv key ids s l s1 → (∀ a, a ∉ accepted l) →
  let gs := default group_default (map s !! key) in
  let s2 := foldl (λ s a, remove_empty_actor_relations a s) (with_map <[key := gs]> s1) (stopped_relations l) in
  let s' := remove_vacant_group key s2 in
  regrouped key (members_of s key) s s' ∧ sent s' = sent s1.
Proof using.
  intros [V T] L Hno gs s2 s'. set (si := with_map <[key := gs]> s1) in *.
  destruct (remove_empties_same (stopped_relations l) si) as (Vs & E1 & E2 & E3 & E4 & E5). fold s2 in Vs, E1, E2, E3, E4, E5.
  assert (same_view s si) as Vi.
  { split.
    - intros k. unfold si. rewrite members_of_insert. unfold members_of. rewrite (l_map _ _ _ _ _ L).
      case_decide; [subst k|done]. unfold gs. by destruct (map s !! key).
    - intros k. unfold si. rewrite listeners_of_insert. unfold listeners_of. rewrite (l_map _ _ _ _ _ L).
      case_decide; [subst k|done]. unfold gs. by destruct (map s !! key).
    - intros k. unfold world_of. simpl. by rewrite (l_world _ _ _ _ _ L).
    - intros a. transitivity (relations_of s1 a); [done|]. destruct (l_monitors _ _ _ _ _ L a) as [Hg Hw].
      destruct (relations_of s1 a) as [m1 g1 w1] eqn:R1, (relations_of s a) as [m0 g0 w0] eqn:R0. simpl in *. subst.
      f_equal. apply set_eq. intros k. pose proof (l_members _ _ _ _ _ L k a) as Hm.
      rewrite R1, R0 in Hm. simpl in Hm. rewrite Hm. specialize (Hno a). naive_solver.
    - intros sc. unfold index_of. simpl. by rewrite (l_index _ _ _ _ _ L). }
  assert (same_view s s') as Vs'.
  { etrans; [exact Vi|]. etrans; [exact Vs|]. apply same_remove_vacant_group. }
  destruct (remove_vacant_group_same key s2) as (_ & _ & _ & Sn & Ck). fold s' in Sn, Ck.
  split; [|by rewrite Sn, E4]. destruct T as [T1 T2 T3]. split.
  - split; [by eapply view_inv_same|]. apply tidy_remove_vacant_group.
    + intros k g0 Hne. rewrite E1. simpl. rewrite lookup_insert_ne, (l_map _ _ _ _ _ L) by done. apply T1.
    + intros k ls. rewrite E3. simpl. rewrite (l_world _ _ _ _ _ L). apply T2.
    + intros sc gs'. rewrite E2. simpl. rewrite (l_index _ _ _ _ _ L). apply T3.
  - intros k. rewrite (s_members _ _ Vs'). by case_decide; subst.
  - apply (s_listeners _ _ Vs').
  - apply (s_world _ _ Vs').
  - rewrite Ck, E5. apply (l_clock _ _ _ _ _ L).
Qed.

Lemma join_somebody key actors joined s l s1 :
  pg_inv s → loop_inv key (get_id <$> actors) s l s1 →
  joined ≠ [] → (∀ a, a ∈ accepted l ↔ a ∈ get_id <$> joined) →
  let gs := default group_default (map s !! key) in
  let m := insert_members joined (members gs) in
  let s2 := add_group_to_index key (with_map <[key := mkGroup m (listeners gs)]> s1) in
  let s' := foldl (λ s a, remove_empty_actor_relations a s) s2 (stopped_relations l) in
  regrouped key m s s' ∧ sent s' = sent s1 ∧ world_listeners s' = world_listeners s.
Proof using.
  intros [V T] L Hj Hacc gs m s2 s'.
  destruct (remove_empties_same (stopped_relations l) s2) as (Vs & E1 & E2 & E3 & E4 & E5).
  fold s' in Vs, E1, E2, E3, E4, E5.
  assert (members gs = members_of s key ∧ listeners gs = listeners_of s key) as [Gm Gl].
  { unfold gs, members_of, listeners_of. by destruct (map s !! key). }
  assert ((∀ k, members_of s1 k = members_of s k) ∧ (∀ k, listeners_of s1 k = listeners_of s k)) as [Lm Ll].
  { unfold members_of, listeners_of. by rewrite (l_map _ _ _ _ _ L). }
  assert (members_set key m s1 s2) as MS.
  { apply insert_group_members_set; [by rewrite Ll|by apply insert_members_nonempty]. }
  assert (view_inv s2) as V2.
  { eapply (members_set_inv key m s s1); [done..|apply (l_world _ _ _ _ _ L)|apply (l_index _ _ _ _ _ L)| | |].
    - apply (l_monitors _ _ _ _ _ L).
    - intros k a. rewrite (l_members _ _ _ _ _ L), Hacc. case_decide as Hk; [subst k|naive_solver].
      unfold m. rewrite insert_members_lookup, Gm, (v_member _ V). naive_solver.
    - intros a c. apply insert_members_cells. intros b d. rewrite Gm. apply (v_cell _ V). }
  assert (tidy s1) as T1.
  { apply (tidy_same s); [apply (l_map _ _ _ _ _ L)|apply (l_world _ _ _ _ _ L)|apply (l_index _ _ _ _ _ L)|done]. }
  split_and!; [|done|by rewrite E3; apply (l_world _ _ _ _ _ L)]. split.
  - split; [by eapply view_inv_same|]. by apply (tidy_same s2), (m_tidy _ _ _ _ MS).
  - intros k. by rewrite (s_members _ _ Vs), (m_members _ _ _ _ MS), Lm.
  - intros k. by rewrite (s_listeners _ _ Vs), (m_listeners _ _ _ _ MS).
  - intros k. unfold world_of. by rewrite E3, (m_world _ _ _ _ MS), (l_world _ _ _ _ _ L).
  - rewrite E5, (m_clock _ _ _ _ MS). apply (l_clock _ _ _ _ _ L).
Qed.

Definition join_notice (sc : ScopeName) (g : GroupName) (joined : list ActorCell) (s : PgState) :
    list (ActorId * GroupChangeMessage) :=
  match joined with [] => [] | _ => (λ a, (a, Join sc g joined)) <$> announced s (mkKey sc g) end.

(** The outcome of a join: which actors joined, and what the state became. *)
Record join_outcome (sc : ScopeName) (g : GroupName) (actors joined : list ActorCell) (s s' : PgState) : Prop := {
  j_regrouped : regrouped (mkKey sc g) (insert_members joined (members_of s (mkKey sc g))) s s';
  j_joined c : c ∈ joined → c ∈ actors ∧ ∃ t, clock s ≤ t ∧ status_le (status_at t (get_id c)) Draining = true;
  j_alive c : c ∈ actors → (∀ t, clock s ≤ t → status_le (status_at t (get_id c)) Draining = true) → c ∈ joined;
  j_sent : sent s' = sent s ++ join_notice sc g joined s
}.

Lemma join_live_effect sc g actors s :
  pg_inv s → ∃ joined, join_outcome sc g actors joined s (join_live sc g actors s).
Proof using.
  intros HI. unfold join_live. pose proof (join_loop_inv (mkKey sc g) actors s) as L.
  destruct (join_loop (mkKey sc g) actors s) as [l s1].
  set (joined := filter (λ c, get_id c ∈ accepted l) actors). exists joined.
  assert (∀ a, a ∈ accepted l ↔ a ∈ get_id <$> joined) as Hacc.
  { intros a. unfold joined. rewrite list_elem_of_fmap. setoid_rewrite list_elem_of_filter. split; [|naive_solver].
    intros Ha. destruct (l_accepted _ _ _ _ _ L a Ha) as [(c & -> & Hc)%list_elem_of_fmap _]. eauto. }
  assert (∀ c, c ∈ joined → c ∈ actors ∧ ∃ t, clock s ≤ t ∧ status_le (status_at t (get_id c)) Draining = true) as Hj1.
  { intros c [Hc Hin]%list_elem_of_filter. split; [done|].
    destruct (l_accepted _ _ _ _ _ L _ Hc) as (_ & t & ? & _ & ?). eauto. }
  assert (∀ c, c ∈ actors → (∀ t, clock s ≤ t → status_le (status_at t (get_id c)) Draining = true) → c ∈ joined) as Hj2.
  { intros c Hc Hal. apply list_elem_of_filter. split; [|done]. apply (l_alive _ _ _ _ _ L); [by apply list_elem_of_fmap_2|done]. }
  assert (members (default group_default (map s !! mkKey sc g)) = members_of s (mkKey sc g)) as Gm.
  { unfold members_of. by destruct (map s !! mkKey sc g). }
  destruct joined as [|j joined'] eqn:Ej.
  - destruct (join_nobody (mkKey sc g) s l s1 _ HI L) as [R Hs]; [intros a Ha; by apply Hacc, not_elem_of_nil in Ha|].
    split; [|done..|]; simpl in *.
    + by destruct (default group_default (map s !! mkKey sc g)).
    + rewrite app_nil_r, <- (l_sent _ _ _ _ _ L). by destruct (default group_default (map s !! mkKey sc g)).
  - destruct (join_somebody (mkKey sc g) actors (j :: joined') s l s1 HI L) as (R & Hs & Hw); [done..|].
    rewrite Gm in *. rewrite (announce_spec _ sc g (j :: joined') true).
    2: { rewrite (g_listeners _ _ _ _ R). unfold listeners_of. by destruct (map s !! mkKey sc g). }
    split; [by apply regrouped_with_sent|done..|]. cbn [with_sent sent]. rewrite Hs, (l_sent _ _ _ _ _ L). do 2 f_equal.
    unfold announced. by rewrite (g_listeners _ _ _ _ R), !(g_world _ _ _ _ R).
Qed.

Lemma join_scoped_effect sc g actors s :
  pg_inv s → ∃ joined, join_outcome sc g actors joined s (join_scoped sc g actors s).
Proof using.
  intros HI. pose proof (retain_live_spec actors s) as HR. unfold join_scoped.
  destruct (retain_live actors s) as [kept s0]. destruct HR as (Hs0 & Hk1 & Hk2).
  assert (pg_inv s0) as HI0.
  { destruct HI. subst s0. split; [by apply (view_inv_same s)|by apply (tidy_same s)]. }
  assert (∀ k, members_of s0 k = members_of s k ∧ listeners_of s0 k = listeners_of s k ∧ world_of s0 k = world_of s k)
    as Hsame by (by subst s0).
  assert (clock s ≤ clock s0) as Hck by (subst s0; simpl; lia).
  assert (∀ m s', regrouped (mkKey sc g) m s0 s' → regrouped (mkKey sc g) m s s') as Hreg.
  { intros m s' [R1 R2 R3 R4 R5]. split; try done; [..|lia];
      intros k; destruct (Hsame k) as (A & B & C); by rewrite ?R2, ?R3, ?R4, ?A, ?B, ?C. }
  destruct (Hsame (mkKey sc g)) as (Hm0 & Hl0 & _). assert (sent s0 = sent s) as Hsent by (by subst s0).
  destruct kept as [|c0 kept].
  { exists []. split; [|set_solver|by apply Hk2|].
    - apply Hreg. rewrite <- Hm0. split; try done. intros k. by case_decide; subst.
    - simpl. by rewrite app_nil_r. }
  destruct (join_live_effect sc g (c0 :: kept) s0 HI0) as [joined [J1 J2 J3 J4]]. exists joined. split.
  - rewrite <- Hm0. by apply Hreg.
  - intros c Hc. destruct (J2 c Hc) as (Hin & t & ? & ?). split; [by apply Hk1|]. exists t. split; [lia|done].
  - intros c Hc Hal. apply J3; [by apply Hk2|]. intros t Ht. apply Hal. lia.
  - rewrite J4, Hsent. f_equal. unfold join_notice, announced. by subst s0.
Qed.

(** ** Leaving *)

Lemma remove_members_lookup actors m a :
  remove_members actors m !! a = if bool_decide (a ∈ get_id <$> actors) then None else m !! a.
Proof using.
  revert m. induction actors as [|c actors IH]; intros m; [done|].
  unfold remove_members in *. cbn [foldl]. rewrite IH. repeat case_bool_decide; try done; try set_solver.
  - destruct (decide (a = get_id c)) as [->|Hne]; [by rewrite lookup_delete_eq|]. set_solver.
  - rewrite lookup_delete_ne; [done|]. set_solver.
Qed.

Lemma remove_members_empty actors m : m = ∅ → remove_members actors m = ∅.
Proof using.
  intros ->. apply map_eq. intros a. rewrite remove_members_lookup. by case_bool_decide.
Qed.

(** Forgetting a membership through a list of actors. *)
Lemma forget_members key actors s :
  let s' := foldl (λ s c, update_relations (upd_memberships (λ ks, ks ∖ {[key]})) (get_id c) s) s actors in
  map s' = map s ∧ index s' = index s ∧ world_listeners s' = world_listeners s ∧ sent s' = sent s ∧ clock s' = clock s ∧
  (∀ a, is_Some (actor_relations s' !! a) ↔ is_Some (actor_relations s !! a)) ∧
  ∀ a, relations_of s' a =
    if bool_decide (a ∈ get_id <$> actors) then upd_memberships (λ ks, ks ∖ {[key]}) (relations_of s a) else relations_of s a.
Proof using.
  simpl. revert s. induction actors as [|c actors IH]; intros s; [by repeat split|].
  cbn [foldl]. destruct (IH (update_relations (upd_memberships (λ ks, ks ∖ {[key]})) (get_id c) s))
    as (A & B & C & D & E & F & G).
  split_and!; [by rewrite ?A, ?B, ?C, ?D, ?E..| |].
  - intros a. rewrite F. unfold update_relations. simpl. by rewrite lookup_alter_is_Some.
  - intros a. rewrite G, !relations_of_update by (right; unfold upd_memberships; simpl; f_equal; set_solver).
    rewrite fmap_cons. destruct (decide (a = get_id c)) as [->|Hne].
    + rewrite (bool_decide_true (_ ∈ _ :: _)) by set_solver. case_bool_decide; [|done].
      unfold upd_memberships. simpl. f_equal. set_solver.
    + assert (bool_decide (a ∈ get_id c :: (get_id <$> actors)) = bool_decide (a ∈ get_id <$> actors)) as ->; [|done].
      apply bool_decide_ext. set_solver.
Qed.

Definition leave_notice (sc : ScopeName) (g : GroupName) (actors : list ActorCell) (s : PgState) :
    list (ActorId * GroupChangeMessage) :=
  match map s !! mkKey sc g with
  | Some _ => (λ a, (a, Leave sc g actors)) <$> announced s (mkKey sc g)
  | None => []
  end.

Lemma leave_scoped_effect sc g actors s :
  pg_inv s →
  let s' := leave_scoped sc g actors s in
  regrouped (mkKey sc g) (remove_members actors (members_of s (mkKey sc g))) s s' ∧
  sent s' = sent s ++ leave_notice sc g actors s.
Proof using.
  intros [V T] s'. subst s'. unfold leave_scoped, leave_notice. set (key := mkKey sc g) in *.
  destruct (map s !! key) as [gs|] eqn:Hk.
  2: { rewrite app_nil_r. split; [|done]. split; try done. intros k. case_decide; [subst k|done].
       rewrite remove_members_empty; [|]; unfold members_of; by rewrite Hk. }
  assert (members gs = members_of s key ∧ listeners gs = listeners_of s key) as [Gm Gl].
  { unfold members_of, listeners_of. by rewrite Hk. }
  destruct (forget_members key actors s) as (A & B & C & D & E & F & G).
  set (s1 := foldl _ s actors) in *. set (m := remove_members actors (members gs)).
  assert (∀ k, members_of s1 k = members_of s k ∧ listeners_of s1 k = listeners_of s k) as Hs1.
  { intros k. unfold members_of, listeners_of. by rewrite A. }
  assert (members_set key m s1 (store_members key m (listeners gs) s1)) as MS.
  { apply store_members_set; [by rewrite (proj2 (Hs1 key))|]. rewrite (proj1 (Hs1 key)), <- Gm. apply remove_members_empty. }
  set (s2 := store_members key m (listeners gs) s1) in *.
  assert (sent s2 = sent s1) as Hs2.
  { unfold s2, store_members, remove_group_from_index. repeat case_match; done. }
  assert (regrouped key m s s2) as R.
  { split.
    - split; [|by apply (m_tidy _ _ _ _ MS), (tidy_same s)].
      eapply (members_set_inv key m s s1); [done|done|apply Hs1|apply Hs1|done|done|..].
      + intros a. rewrite G. by case_bool_decide.
      + intros k a. rewrite G. unfold m. rewrite remove_members_lookup, Gm. case_decide as Hkk; [subst k|].
        * case_bool_decide; simpl; [rewrite <- not_eq_None_Some; set_solver|apply (v_member _ V)].
        * case_bool_decide; simpl; [set_solver|done].
      + intros a c. unfold m. rewrite remove_members_lookup, Gm. case_bool_decide; [done|apply (v_cell _ V)].
    - intros k. by rewrite (m_members _ _ _ _ MS), (proj1 (Hs1 k)).
    - intros k. by rewrite (m_listeners _ _ _ _ MS), (proj2 (Hs1 k)).
    - intros k. unfold world_of. by rewrite (m_world _ _ _ _ MS), C.
    - rewrite (m_clock _ _ _ _ MS). lia. }
  rewrite (announce_spec _ sc g actors false) by (by rewrite Gl, (g_listeners _ _ _ _ R)).
  unfold m in R. rewrite Gm in R. split; [by apply regrouped_with_sent|]. cbn [with_sent sent]. rewrite Hs2, D.
  do 2 f_equal. unfold announced. by rewrite (g_listeners _ _ _ _ R), !(g_world _ _ _ _ R).
Qed.

(** The loop of [leave_all] after the groups [ks]. *)
Record leave_inv (a : ActorId) (ks : list ScopeGroupKey) (s0 s : PgState) : Prop := {
  e_members k : members_of s k = if bool_decide (k ∈ ks) then delete a (members_of s0 k) else members_of s0 k;
  e_listeners k : listeners_of s k = listeners_of s0 k;
  e_world k : world_listeners s !! k = world_listeners s0 !! k;
  e_relations : actor_relations s = actor_relations s0;
  e_index : index_ok s;
  e_tidy : tidy s;
  e_clock : clock s = clock s0
}.

Lemma leave_one_inv a ks s0 evs s key :
  leave_inv a ks s0 s → leave_inv a (ks ++ [key]) s0 (leave_one a (evs, s) key).2.
Proof using.
  intros [L1 L2 L3 L4 L5 L6 L7].
  assert (∀ s', members_set key (delete a (members_of s key)) s s' → leave_inv a (ks ++ [key]) s0 s') as Hset.
  { intros s' [M1 M2 M3 M4 M5 M6 M7]. split; try congruence; eauto.
    intros k. rewrite M1, !L1. case_decide as Hk; [subst k|].
    - rewrite (bool_decide_true (key ∈ ks ++ [key])) by set_solver. case_bool_decide; [by rewrite delete_delete_eq|done].
    - replace (bool_decide (k ∈ ks ++ [key])) with (bool_decide (k ∈ ks)); [done|]. apply bool_decide_ext. set_solver. }
  assert (members_of s key !! a = None → leave_inv a (ks ++ [key]) s0 s) as Hnone.
  { intros Hn. apply Hset. split; try done. intros k. case_decide; [subst k|done]. by rewrite delete_id. }
  unfold leave_one. unfold members_of at 1 in Hnone. destruct (map s !! key) as [gs|] eqn:Hk; [|by apply Hnone].
  simpl in Hnone. destruct (members gs !! a) as [c|] eqn:Ha; [|by apply Hnone].
  simpl. apply Hset. assert (members_of s key = members gs) as -> by (unfold members_of; by rewrite Hk).
  apply store_members_set; [unfold listeners_of; by rewrite Hk|]. unfold members_of. rewrite Hk. simpl.
  intros He. by rewrite He in Ha.
Qed.

Lemma leave_loop_inv a l ks s0 evs s :
  leave_inv a ks s0 s → leave_inv a (ks ++ l) s0 (foldl (leave_one a) (evs, s) l).2.
Proof using.
  revert ks evs s. induction l as [|k l IH]; intros ks evs s Hl; cbn [foldl]; [by rewrite app_nil_r|].
  pose proof (leave_one_inv _ _ _ evs _ k Hl) as Hk. destruct (leave_one a (evs, s) k) as [evs' s'].
  specialize (IH _ evs' s' Hk). by rewrite <- app_assoc in IH.
Qed.

Lemma notify_removals evs s :
  let s' := foldl notify_removal s evs in
  same_view s s' ∧ map s' = map s ∧ index s' = index s ∧ world_listeners s' = world_listeners s ∧
  actor_relations s' = actor_relations s ∧ clock s' = clock s.
Proof using.
  simpl. revert s. induction evs as [|[key c ls] evs IH]; intros s; [done|]. cbn [foldl].
  destruct (IH (notify_removal s (mkRemoval key c ls))) as (V & A & B & C & D & E).
  split_and!; [|by rewrite ?A, ?B, ?C, ?D, ?E..]. by etrans; [|exact V].
Qed.

(** An actor that leaves all groups is taken out of every group; when it monitors nothing its entry in
    the reverse index goes too. *)
Record left_all (a : ActorId) (s s' : PgState) : Prop := {
  la_inv : pg_inv s';
  la_members k : members_of s' k = delete a (members_of s k);
  la_listeners k : listeners_of s' k = listeners_of s k;
  la_world k : world_of s' k = world_of s k;
  la_clock : clock s ≤ clock s';
  la_relations b : b ≠ a → actor_relations s' !! b = actor_relations s !! b;
  la_gone : group_monitors (relations_of s a) = ∅ → world_monitors (relations_of s a) = ∅ → actor_relations s' !! a = None
}.

Lemma leave_all_effect a s : pg_inv s → left_all a s (leave_all a s).
Proof using.
  intros [V T]. unfold leave_all. destruct (actor_relations s !! a) as [r|] eqn:Ha.
  2: { split; try done. intros k. rewrite delete_id; [done|]. apply eq_None_not_Some. rewrite <- (v_member _ V).
       unfold relations_of. rewrite Ha. simpl. set_solver. }
  assert (relations_of s a = r) as Hr by (unfold relations_of; by rewrite Ha).
  set (s1 := update_relations (upd_memberships (λ _, ∅)) a s).
  assert (leave_inv a [] s1 s1) as L0.
  { split; try done; [exact (v_index _ V)|by apply (tidy_same s)]. }
  pose proof (leave_loop_inv a (hs_iter (memberships r)) [] s1 [] s1 L0) as L. simpl in L.
  destruct (foldl (leave_one a) ([], s1) (hs_iter (memberships r))) as [evs s2]. simpl in L.
  destruct L as [L1 L2 L3 L4 L5 L6 L7].
  destruct (notify_removals evs (remove_empty_actor_relations a s2)) as (Vn & N1 & N2 & N3 & N4 & N5).
  pose proof (same_remove_empty a s2) as Ve. destruct (remove_empty_same a s2) as (E1 & E2 & E3 & E4 & E5).
  set (s3 := remove_empty_actor_relations a s2) in *. set (s' := foldl notify_removal s3 evs) in *.
  assert (same_view s2 s') as Vs by (by etrans).
  assert (∀ k, members_of s2 k = delete a (members_of s k)) as Hm.
  { intros k. rewrite L1. case_bool_decide as Hk; [done|]. rewrite delete_id; [done|].
    apply eq_None_not_Some. rewrite elem_of_hs_iter, <- Hr, (v_member _ V) in Hk. done. }
  assert (∀ b, relations_of s2 b = if decide (b = a) then upd_memberships (λ _, ∅) r else relations_of s b) as Hrel.
  { intros b. unfold relations_of at 1. rewrite L4. fold (relations_of s1 b). unfold s1.
    rewrite relations_of_update by (left; by rewrite Ha). by rewrite Hr. }
  split.
  - split; [|apply (tidy_same s2); [congruence..|done]]. eapply view_inv_same; [exact Vs|]. split.
    + intros k b. rewrite Hrel, Hm. case_decide; [subst b|].
      * rewrite lookup_delete_eq. simpl. rewrite <- not_eq_None_Some. set_solver.
      * rewrite lookup_delete_ne by done. apply (v_member _ V).
    + intros k b c. rewrite Hm. intros [_ ?]%lookup_delete_Some. by eapply (v_cell _ V).
    + intros k b. rewrite Hrel, L2. rewrite <- Hr. case_decide; subst; apply (v_monitor _ V).
    + intros k. rewrite L2. apply (v_monitor_once _ V).
    + intros k b. unfold world_of. rewrite Hrel, L3, <- Hr. case_decide; subst; apply (v_world _ V).
    + intros k. unfold world_of. rewrite L3. apply (v_world_once _ V).
    + done.
  - intros k. by rewrite (s_members _ _ Vs).
  - intros k. by rewrite (s_listeners _ _ Vs).
  - intros k. rewrite (s_world _ _ Vs). unfold world_of. by rewrite L3.
  - rewrite N5, E5, L7. done.
  - intros b Hb. rewrite N4. unfold s3, remove_empty_actor_relations.
    transitivity (actor_relations s2 !! b); [repeat case_match; try done; by apply lookup_delete_ne|].
    rewrite L4. unfold s1. simpl. by apply lookup_alter_ne.
  - intros Hg Hw. rewrite N4. unfold s3, remove_empty_actor_relations. rewrite L4. unfold s1. simpl.
    rewrite lookup_alter_eq, Ha. simpl. rewrite Hr in Hg, Hw. unfold relations_is_empty. simpl. rewrite Hg, Hw.
    rewrite !bool_decide_true by done. simpl. by rewrite lookup_delete_eq.
Qed.

(** ** Monitoring *)

Lemma push_listener_ids c ls a : a ∈ get_id <$> push_listener c ls ↔ a ∈ get_id <$> ls ∨ a = get_id c.
Proof using.
  unfold push_listener. destruct (existsb _ ls) eqn:He.
  - apply existsb_exists in He as (l & Hl%list_elem_of_In & Hid%bool_decide_eq_true).
    split; [by left|]. intros [?| ->]; [done|]. rewrite <- Hid. by apply list_elem_of_fmap_2.
  - rewrite fmap_app, elem_of_app. set_solver.
Qed.

Lemma push_listener_once c ls : NoDup (get_id <$> ls) → NoDup (get_id <$> push_listener c ls).
Proof using.
  intros Hn. unfold push_listener. destruct (existsb _ ls) eqn:He; [done|].
  rewrite fmap_app. apply NoDup_app. split_and!; [done| |apply NoDup_singleton].
  intros a (l & -> & Hl)%list_elem_of_fmap Ha%list_elem_of_singleton.
  assert (existsb (λ l, bool_decide (get_id l = get_id c)) ls = true) as Ht; [|congruence].
  apply existsb_exists. exists l. split; [by apply list_elem_of_In|by apply bool_decide_eq_true].
Qed.

Lemma push_listener_nonempty c ls : push_listener c ls ≠ [].
Proof using. unfold push_listener. destruct ls; simpl; [done|]. by case_match. Qed.

Lemma without_ids a ls b : b ∈ get_id <$> without a ls ↔ b ∈ get_id <$> ls ∧ b ≠ a.
Proof using.
  unfold without. rewrite !list_elem_of_fmap. setoid_rewrite list_elem_of_filter. naive_solver.
Qed.

Lemma without_once a ls : NoDup (get_id <$> ls) → NoDup (get_id <$> without a ls).
Proof using.
  intros Hn. induction ls as [|c ls IH]; [done|]. rewrite fmap_cons, NoDup_cons in Hn. destruct Hn as [Hc Hn].
  unfold without. rewrite filter_cons. case_decide; [|by apply IH]. rewrite fmap_cons, NoDup_cons.
  split; [|by apply IH]. intros Hin. apply Hc. by apply (without_ids a ls) in Hin as [? _].
Qed.

(** [s'] differs from [s] in the listeners of the group [key] and in who is recorded as monitoring it. *)
Record relisted (key : ScopeGroupKey) (ls : list ActorCell) (s s' : PgState) : Prop := {
  rl_members k : members_of s' k = members_of s k;
  rl_listeners k : listeners_of s' k = if decide (k = key) then ls else listeners_of s k;
  rl_world k : world_of s' k = world_of s k;
  rl_index sc : index_of s' sc = index_of s sc;
  rl_relations a : memberships (relations_of s' a) = memberships (relations_of s a) ∧
                   world_monitors (relations_of s' a) = world_monitors (relations_of s a);
  rl_monitors k a : k ∈ group_monitors (relations_of s' a) ↔
    if decide (k = key) then a ∈ get_id <$> ls else k ∈ group_monitors (relations_of s a)
}.

Lemma relisted_inv key ls s s' : view_inv s → relisted key ls s s' → NoDup (get_id <$> ls) → view_inv s'.
Proof using.
  intros [V1 V2 V3 V4 V5 V6 V7] [R1 R2 R3 R4 R5 R6] Hn. split.
  - intros k a. destruct (R5 a) as [-> _]. by rewrite R1.
  - intros k a c. rewrite R1. apply V2.
  - intros k a. rewrite R6, R2. by case_decide.
  - intros k. rewrite R2. by case_decide.
  - intros k a. destruct (R5 a) as [_ ->]. by rewrite R3.
  - intros k. rewrite R3. apply V6.
  - intros sc g. by rewrite R4, R1.
Qed.

Lemma relisted_same key ls s s1 s' : relisted key ls s s1 → same_view s1 s' → relisted key ls s s'.
Proof using.
  intros [R1 R2 R3 R4 R5 R6] [A1 A2 A3 A4 A5]. split; intros *; rewrite ?A1, ?A2, ?A3, ?A4, ?A5; eauto.
Qed.

(** The same for the listeners of a scope or of the world. *)
Record reworlded (key : ScopeGroupKey) (ls : list ActorCell) (s s' : PgState) : Prop := {
  rw_members k : members_of s' k = members_of s k;
  rw_listeners k : listeners_of s' k = listeners_of s k;
  rw_world k : world_of s' k = if decide (k = key) then ls else world_of s k;
  rw_index sc : index_of s' sc = index_of s sc;
  rw_relations a : memberships (relations_of s' a) = memberships (relations_of s a) ∧
                   group_monitors (relations_of s' a) = group_monitors (relations_of s a);
  rw_monitors k a : k ∈ world_monitors (relations_of s' a) ↔
    if decide (k = key) then a ∈ get_id <$> ls else k ∈ world_monitors (relations_of s a)
}.

Lemma reworlded_inv key ls s s' : view_inv s → reworlded key ls s s' → NoDup (get_id <$> ls) → view_inv s'.
Proof using.
  intros [V1 V2 V3 V4 V5 V6 V7] [R1 R2 R3 R4 R5 R6] Hn. split.
  - intros k a. destruct (R5 a) as [-> _]. by rewrite R1.
  - intros k a c. rewrite R1. apply V2.
  - intros k a. destruct (R5 a) as [_ ->]. by rewrite R2.
  - intros k. rewrite R2. apply V4.
  - intros k a. rewrite R6, R3. by case_decide.
  - intros k. rewrite R3. by case_decide.
  - intros sc g. by rewrite R4, R1.
Qed.

Lemma reworlded_same key ls s s1 s' : reworlded key ls s s1 → same_view s1 s' → reworlded key ls s s'.
Proof using.
  intros [R1 R2 R3 R4 R5 R6] [A1 A2 A3 A4 A5]. split; intros *; rewrite ?A1, ?A2, ?A3, ?A4, ?A5; eauto.
Qed.

Lemma world_of_insert key ls s k :
  world_of (with_world <[key := ls]> s) k = if decide (k = key) then ls else world_of s k.
Proof using.
  unfold world_of. simpl. destruct (decide (k = key)) as [->|];
    [by rewrite lookup_insert_eq|by rewrite lookup_insert_ne].
Qed.

(** Taking an actor off the listeners, and forgetting that it monitors the group. *)
Lemma drop_group_listener_effect a key s :
  let s' := drop_group_listener a key s in
  (∀ k, members_of s' k = members_of s k) ∧
  (∀ k, listeners_of s' k = if decide (k = key) then without a (listeners_of s key) else listeners_of s k) ∧
  (∀ k, world_of s' k = world_of s k) ∧ index s' = index s ∧ actor_relations s' = actor_relations s ∧
  clock s' = clock s ∧ (tidy s → tidy s').
Proof using.
  simpl. unfold drop_group_listener. destruct (map s !! key) as [gs|] eqn:Hk.
  2: { split_and!; try done. intros k. case_decide; [subst k|done]. unfold listeners_of. by rewrite Hk. }
  set (s1 := with_map _ s). destruct (remove_vacant_group_same key s1) as (A & B & C & _ & E).
  pose proof (same_remove_vacant_group key s1) as Vs.
  split_and!; try done.
  - intros k. rewrite (s_members _ _ Vs). unfold s1. rewrite members_of_insert. case_decide; [subst k|done].
    unfold members_of. by rewrite Hk.
  - intros k. rewrite (s_listeners _ _ Vs). unfold s1. rewrite listeners_of_insert. case_decide; [subst k|done].
    unfold listeners_of. by rewrite Hk.
  - intros k. by rewrite (s_world _ _ Vs).
  - intros [T1 T2 T3]. apply tidy_remove_vacant_group; [|done..]. intros k g0 Hne. simpl.
    rewrite lookup_insert_ne by done. apply T1.
Qed.

Lemma drop_world_listener_effect a key s :
  let s' := drop_world_listener a key s in
  (∀ k, members_of s' k = members_of s k) ∧ (∀ k, listeners_of s' k = listeners_of s k) ∧
  (∀ k, world_of s' k = if decide (k = key) then without a (world_of s key) else world_of s k) ∧
  index s' = index s ∧ actor_relations s' = actor_relations s ∧ clock s' = clock s ∧ (tidy s → tidy s').
Proof using.
  simpl. unfold drop_world_listener. destruct (world_listeners s !! key) as [ls|] eqn:Hk.
  2: { split_and!; try done. intros k. case_decide; [subst k|done]. unfold world_of. by rewrite Hk. }
  set (s1 := with_world _ s). destruct (remove_vacant_world_same key s1) as (A & B & C & _ & E).
  pose proof (same_remove_vacant_world key s1) as Vs.
  split_and!; try done.
  - intros k. by rewrite (s_members _ _ Vs).
  - intros k. by rewrite (s_listeners _ _ Vs).
  - intros k. rewrite (s_world _ _ Vs). unfold s1. rewrite world_of_insert. case_decide; [subst k|done].
    unfold world_of. by rewrite Hk.
  - intros [T1 T2 T3]. apply tidy_remove_vacant_world; [done| |done]. intros k g0 Hne. simpl.
    rewrite lookup_insert_ne by done. apply T2.
Qed.

Lemma demonitor_effect g a s :
  pg_inv s →
  let s' := demonitor g a s in let key := mkKey DEFAULT_SCOPE g in
  relisted key (without a (listeners_of s key)) s s' ∧ pg_inv s' ∧ clock s ≤ clock s' ∧
  (∀ b, is_Some (actor_relations s' !! b) ↔ is_Some (actor_relations s !! b)).
Proof using.
  intros [V T] s' key. destruct (drop_group_listener_effect a key s) as (A & B & C & D & E & F & G).
  set (s1 := drop_group_listener a key s) in *.
  assert (∀ b, relations_of s' b = if decide (b = a) then upd_group_monitors (λ ks, ks ∖ {[key]}) (relations_of s a) else relations_of s b) as Hr.
  { intros b. unfold s', demonitor. fold key s1. rewrite relations_of_update by (right; unfold upd_group_monitors; simpl; f_equal; set_solver).
    unfold relations_of. by rewrite E. }
  assert (relisted key (without a (listeners_of s key)) s s') as R.
  { split; try done.
    - intros sc. unfold index_of. unfold s', demonitor. fold key s1. simpl. by rewrite D.
    - intros b. rewrite Hr. by case_decide; subst.
    - intros k b. rewrite Hr. destruct (decide (k = key)) as [->|Hk];
        [rewrite without_ids, <- (v_monitor _ V)|]; case_decide; subst; simpl; set_solver. }
  split_and!; [done|split| |].
  - eapply relisted_inv; [done|done|apply without_once, (v_monitor_once _ V)].
  - apply (tidy_same s1); [done..|by apply G].
  - unfold s', demonitor. fold key s1. simpl. lia.
  - intros b. unfold s', demonitor. fold key s1. simpl. by rewrite lookup_alter_is_Some, E.
Qed.

Lemma demonitor_scope_effect sc a s :
  pg_inv s →
  let s' := demonitor_scope sc a s in let key := mkKey sc ALL_GROUPS_NOTIFICATION in
  reworlded key (without a (world_of s key)) s s' ∧ pg_inv s' ∧ clock s ≤ clock s' ∧
  (∀ b, is_Some (actor_relations s' !! b) ↔ is_Some (actor_relations s !! b)).
Proof using.
  intros [V T] s' key. destruct (drop_world_listener_effect a key s) as (A & B & C & D & E & F & G).
  set (s1 := drop_world_listener a key s) in *.
  assert (∀ b, relations_of s' b = if decide (b = a) then upd_world_monitors (λ ks, ks ∖ {[key]}) (relations_of s a) else relations_of s b) as Hr.
  { intros b. unfold s', demonitor_scope. fold key s1. rewrite relations_of_update by (right; unfold upd_world_monitors; simpl; f_equal; set_solver).
    unfold relations_of. by rewrite E. }
  assert (reworlded key (without a (world_of s key)) s s') as R.
  { split; try done.
    - intros sc'. unfold index_of. unfold s', demonitor_scope. fold key s1. simpl. by rewrite D.
    - intros b. rewrite Hr. by case_decide; subst.
    - intros k b. rewrite Hr. destruct (decide (k = key)) as [->|Hk];
        [rewrite without_ids, <- (v_world _ V)|]; case_decide; subst; simpl; set_solver. }
  split_and!; [done|split| |].
  - eapply reworlded_inv; [done|done|apply without_once, (v_world_once _ V)].
  - apply (tidy_same s1); [done..|by apply G].
  - unfold s', demonitor_scope. fold key s1. simpl. lia.
  - intros b. unfold s', demonitor_scope. fold key s1. simpl. by rewrite lookup_alter_is_Some, E.
Qed.

Lemma demonitor_groups a l s :
  let s' := foldl (λ s key, drop_group_listener a key s) s l in
  (∀ k, members_of s' k = members_of s k) ∧
  (∀ k, listeners_of s' k = if bool_decide (k ∈ l) then without a (listeners_of s k) else listeners_of s k) ∧
  (∀ k, world_of s' k = world_of s k) ∧ index s' = index s ∧ actor_relations s' = actor_relations s ∧
  clock s' = clock s ∧ (tidy s → tidy s').
Proof using.
  simpl. revert s. induction l as [|k l IH]; intros s; [done|]. cbn [foldl].
  destruct (IH (drop_group_listener a k s)) as (A & B & C & D & E & F & G).
  destruct (drop_group_listener_effect a k s) as (A' & B' & C' & D' & E' & F' & G').
  split_and!; [intros k'; by rewrite A|intros k'|intros k'; by rewrite C|by rewrite D|by rewrite E|by rewrite F|auto].
  rewrite B, B'. destruct (decide (k' = k)) as [->|Hne].
  - rewrite (bool_decide_true (k ∈ k :: l)) by set_solver. case_bool_decide; [|done].
    unfold without. rewrite list_filter_filter. apply list_filter_iff. naive_solver.
  - replace (bool_decide (k' ∈ k :: l)) with (bool_decide (k' ∈ l)); [done|]. apply bool_decide_ext. set_solver.
Qed.

Lemma demonitor_worlds a l s :
  let s' := foldl (λ s key, drop_world_listener a key s) s l in
  (∀ k, members_of s' k = members_of s k) ∧ (∀ k, listeners_of s' k = listeners_of s k) ∧
  (∀ k, world_of s' k = if bool_decide (k ∈ l) then without a (world_of s k) else world_of s k) ∧
  index s' = index s ∧ actor_relations s' = actor_relations s ∧ clock s' = clock s ∧ (tidy s → tidy s').
Proof using.
  simpl. revert s. induction l as [|k l IH]; intros s; [done|]. cbn [foldl].
  destruct (IH (drop_world_listener a k s)) as (A & B & C & D & E & F & G).
  destruct (drop_world_listener_effect a k s) as (A' & B' & C' & D' & E' & F' & G').
  split_and!; [intros k'; by rewrite A|intros k'; by rewrite B|intros k'|by rewrite D|by rewrite E|by rewrite F|auto].
  rewrite C, C'. destruct (decide (k' = k)) as [->|Hne].
  - rewrite (bool_decide_true (k ∈ k :: l)) by set_solver. case_bool_decide; [|done].
    unfold without. rewrite list_filter_filter. apply list_filter_iff. naive_solver.
  - replace (bool_decide (k' ∈ k :: l)) with (bool_decide (k' ∈ l)); [done|]. apply bool_decide_ext. set_solver.
Qed.

Lemma without_absent a ls : a ∉ get_id <$> ls → without a ls = ls.
Proof using.
  unfold without. induction ls as [|c ls IH]; intros Ha; [done|]. rewrite fmap_cons, not_elem_of_cons in Ha.
  destruct Ha as [Hc Ha]. rewrite filter_cons, decide_True by done. by rewrite IH.
Qed.

(** An actor that stops monitoring is taken off every list of listeners. *)
Record demonitored (a : ActorId) (s s' : PgState) : Prop := {
  dm_inv : pg_inv s';
  dm_members k : members_of s' k = members_of s k;
  dm_listeners k : listeners_of s' k = without a (listeners_of s k);
  dm_world k : world_of s' k = without a (world_of s k);
  dm_clock : clock s ≤ clock s';
  dm_present b : is_Some (actor_relations s' !! b) ↔ is_Some (actor_relations s !! b);
  dm_none : group_monitors (relations_of s' a) = ∅ ∧ world_monitors (relations_of s' a) = ∅
}.

Lemma demonitor_all_effect a s : pg_inv s → demonitored a s (demonitor_all a s).
Proof using.
  intros [V T]. unfold demonitor_all. destruct (actor_relations s !! a) as [r|] eqn:Ha.
  2: { assert (relations_of s a = relations_default) as Hr by (unfold relations_of; by rewrite Ha).
       split; try done; [| |by rewrite Hr]; intros k; rewrite without_absent; try done.
       - rewrite <- (v_monitor _ V), Hr. set_solver.
       - rewrite <- (v_world _ V), Hr. set_solver. }
  assert (relations_of s a = r) as Hr by (unfold relations_of; by rewrite Ha).
  set (s1 := update_relations _ a s).
  destruct (demonitor_groups a (hs_iter (group_monitors r)) s1) as (A & B & C & D & E & F & G).
  set (s2 := foldl (λ s key, drop_group_listener a key s) s1 _) in *.
  destruct (demonitor_worlds a (hs_iter (world_monitors r)) s2) as (A' & B' & C' & D' & E' & F' & G').
  set (s' := foldl _ s2 _) in *.
  assert (∀ b, relations_of s' b =
    if decide (b = a) then upd_world_monitors (λ _, ∅) (upd_group_monitors (λ _, ∅) r) else relations_of s b) as Hrel.
  { intros b. unfold relations_of at 1. rewrite E', E. fold (relations_of s1 b). unfold s1.
    rewrite relations_of_update by (left; by rewrite Ha). by rewrite Hr. }
  assert (∀ k, listeners_of s' k = without a (listeners_of s k)) as Hl.
  { intros k. rewrite B', B. case_bool_decide as Hk; [done|]. symmetry. apply without_absent.
    by rewrite elem_of_hs_iter, <- Hr, (v_monitor _ V) in Hk. }
  assert (∀ k, world_of s' k = without a (world_of s k)) as Hw.
  { intros k. rewrite C', C. case_bool_decide as Hk; [done|]. symmetry. apply without_absent.
    by rewrite elem_of_hs_iter, <- Hr, (v_world _ V) in Hk. }
  assert (∀ k, members_of s' k = members_of s k) as Hm by (intros k; by rewrite A', A).
  split; try done.
  - split; [|by apply G', G, (tidy_same s)]. split.
    + intros k b. rewrite Hrel, Hm, <- (v_member _ V), <- Hr. by case_decide; subst.
    + intros k b c. rewrite Hm. apply (v_cell _ V).
    + intros k b. rewrite Hrel, Hl, without_ids, <- (v_monitor _ V). case_decide; subst; simpl; set_solver.
    + intros k. rewrite Hl. apply without_once, (v_monitor_once _ V).
    + intros k b. rewrite Hrel, Hw, without_ids, <- (v_world _ V). case_decide; subst; simpl; set_solver.
    + intros k. rewrite Hw. apply without_once, (v_world_once _ V).
    + intros sc g. unfold index_of. rewrite D', D, Hm. apply (v_index _ V).
  - by rewrite F', F.
  - intros b. rewrite E', E. unfold s1. simpl. by rewrite lookup_alter_is_Some.
  - rewrite Hrel, decide_True by done. done.
Qed.

Lemma remove_empty_other a s b :
  b ≠ a → actor_relations (remove_empty_actor_relations a s) !! b = actor_relations s !! b.
Proof using.
  intros Hb. unfold remove_empty_actor_relations. repeat case_match; try done. simpl. by apply lookup_delete_ne.
Qed.

(** A relations entry created for an actor that had none goes when it is still empty. *)
Lemma remove_created a s s1 :
  actor_relations s !! a = None → actor_relations s1 = actor_relations (get_or_create_actor_relations a s) →
  actor_relations (remove_empty_actor_relations a s1) !! a = None.
Proof using.
  intros Hn Hs. unfold get_or_create_actor_relations in Hs. rewrite Hn in Hs. simpl in Hs.
  unfold remove_empty_actor_relations. rewrite Hs, lookup_insert_eq. unfold relations_is_empty. simpl.
  rewrite bool_decide_true by done. simpl. by rewrite Hs, lookup_delete_eq.
Qed.

Context (status_mono : ∀ t t' a, t ≤ t' → status_le (status_at t a) (status_at t' a) = true).

Lemma stopping_later t t' a : t ≤ t' → status_le (status_at t a) Draining = false → status_le Stopping (status_at t' a) = true.
Proof using status_mono.
  rewrite not_draining_stopping, negb_false_iff. intros Ht Hs. eapply status_le_trans; [exact Hs|by apply status_mono].
Qed.

(** What a registration as listener does: it takes effect when the first status read finds the actor
    alive, and leaves no trace otherwise. *)
Definition listening (c : ActorCell) (done : PgState → PgState → Prop) (s s' : PgState) : Prop :=
  pg_inv s' ∧ clock s ≤ clock s' ∧
  (∀ b, b ≠ get_id c → actor_relations s' !! b = actor_relations s !! b) ∧
  if status_le (status_at (clock s) (get_id c)) Draining then done s s'
  else same_view s s' ∧ (actor_relations s !! get_id c = None → actor_relations s' !! get_id c = None).

(** The end of [monitor] and [monitor_scope], after a registration. *)
Lemma finish_registration (c : ActorCell) (R : PgState → PgState → Prop) (rm : PgState → PgState) s s2 :
  (∀ s s1 s', R s s1 → same_view s1 s' → R s s') → (∀ s, same_view s (rm s)) → (∀ s, tidy s → tidy (rm s)) →
  (∀ s, actor_relations (rm s) = actor_relations s ∧ clock (rm s) = clock s) →
  R s s2 → pg_inv s2 → clock s ≤ clock s2 →
  (∀ b, b ≠ get_id c → actor_relations s2 !! b = actor_relations s !! b) →
  status_le (status_at (clock s) (get_id c)) Draining = true →
  listening c R s (let '(st, s) := get_status (get_id c) s2 in
    if status_le Stopping st then remove_empty_actor_relations (get_id c) (rm s) else s).
Proof using.
  intros HR Hv Ht Hrm R2 [V2 T2] Hck Hoth Hst. unfold listening, get_status. rewrite Hst.
  set (s3 := mkPg _ _ _ _ _ _). assert (same_view s2 s3) as V3 by done.
  assert (tidy s3) as T3 by (by apply (tidy_same s2)).
  destruct (status_le Stopping _).
  - destruct (remove_empty_same (get_id c) (rm s3)) as (E1 & E2 & E3 & E4 & E5). destruct (Hrm s3) as [F1 F2].
    assert (same_view s2 (remove_empty_actor_relations (get_id c) (rm s3))) as Vs.
    { etrans; [exact V3|]. etrans; [apply Hv|]. apply same_remove_empty. }
    split_and!; [split; [by eapply view_inv_same|apply (tidy_same (rm s3)); auto]| | |by eapply HR].
    + rewrite E5, F2. simpl. lia.
    + intros b Hb. rewrite remove_empty_other, F1 by done. by apply Hoth.
  - split_and!; [split; [by eapply view_inv_same|done]|simpl; lia|done|by eapply HR].
Qed.

(** Their end when the actor was found stopping: what was created for it goes away. *)
Lemma refuse_registration (c : ActorCell) (R : PgState → PgState → Prop) (rm : PgState → PgState) s s3 :
  pg_inv s → same_view s s3 → (∀ s, same_view s (rm s)) → tidy (rm s3) →
  (∀ s, actor_relations (rm s) = actor_relations s ∧ clock (rm s) = clock s) → clock s ≤ clock s3 →
  actor_relations s3 = actor_relations (get_or_create_actor_relations (get_id c) s) →
  status_le (status_at (clock s) (get_id c)) Draining = false →
  listening c R s (remove_empty_actor_relations (get_id c) (rm s3)).
Proof using.
  intros [V T] Vs Hv Ht Hrm Hck Hrel Hst. unfold listening. rewrite Hst.
  destruct (remove_empty_same (get_id c) (rm s3)) as (E1 & E2 & E3 & E4 & E5). destruct (Hrm s3) as [F1 F2].
  assert (same_view s (remove_empty_actor_relations (get_id c) (rm s3))) as Vs'.
  { etrans; [exact Vs|]. etrans; [apply Hv|]. apply same_remove_empty. }
  split_and!; [split; [by eapply view_inv_same|by apply (tidy_same (rm s3))]| | |done|].
  - rewrite E5, F2. done.
  - intros b Hb. rewrite remove_empty_other, F1, Hrel by done. by apply get_or_create_other.
  - intros Hn. eapply remove_created; [exact Hn|]. by rewrite F1.
Qed.

Lemma tidy_rm_group key s : tidy s → tidy (remove_vacant_group key s).
Proof using. intros [T1 T2 T3]. apply tidy_remove_vacant_group; eauto. Qed.

Lemma tidy_rm_world key s : tidy s → tidy (remove_vacant_world key s).
Proof using. intros [T1 T2 T3]. apply tidy_remove_vacant_world; eauto. Qed.

Lemma monitor_effect g c s :
  pg_inv s →
  let key := mkKey DEFAULT_SCOPE g in
  listening c (relisted key (push_listener c (listeners_of s key))) s (monitor g c s).
Proof using status_mono.
  intros [V T] key. unfold monitor. fold key.
  destruct (get_or_create_same (get_id c) s) as (A & B & C & D & E).
  pose proof (relations_of_get_or_create (get_id c) s) as Rel. pose proof (get_or_create_present (get_id c) s) as Pr.
  pose proof (get_or_create_other (get_id c) s) as Oth.
  set (s1 := get_or_create_actor_relations (get_id c) s) in *.
  set (gs := default group_default (map s1 !! key)).
  assert (members gs = members_of s key ∧ listeners gs = listeners_of s key) as [Gm Gl].
  { unfold gs, members_of, listeners_of. rewrite A. by destruct (map s !! key). }
  destruct T as [T1 T2 T3]. unfold listening. rewrite <- E. unfold get_status. cbn [fst snd with_map clock].
  destruct (status_le (status_at (clock s1) (get_id c)) Draining) eqn:Hst.
  - set (s2 := update_relations _ _ _).
    assert (relisted key (push_listener c (listeners_of s key)) s s2) as R.
    { assert (∀ b, relations_of s2 b = if decide (b = get_id c)
        then upd_group_monitors (union {[key]}) (relations_of s b) else relations_of s b) as Hr.
      { intros b. unfold s2. rewrite relations_of_update by (by left). rewrite <- Rel. by case_decide; subst. }
      split.
      - intros k. unfold s2, members_of. simpl. rewrite insert_insert_eq. rewrite A. destruct (decide (k = key)) as [->|];
          [by rewrite lookup_insert_eq|by rewrite lookup_insert_ne].
      - intros k. unfold s2, listeners_of. simpl. rewrite insert_insert_eq, A. case_decide; [subst k|by rewrite lookup_insert_ne].
        rewrite lookup_insert_eq. simpl. by rewrite Gl.
      - intros k. unfold s2, world_of. simpl. by rewrite C.
      - intros sc. unfold s2, index_of. simpl. by rewrite B.
      - intros a. rewrite Hr. by case_decide.
      - intros k a. rewrite Hr. destruct (decide (k = key)) as [->|Hk].
        + rewrite push_listener_ids, <- (v_monitor _ V). case_decide; simpl; set_solver.
        + case_decide; simpl; set_solver. }
    assert (tidy s2) as Ts2.
    { split; simpl; rewrite ?B, ?C; try done. intros k g0. rewrite insert_insert_eq, A.
      intros [[_ <-]|[_ ?]]%lookup_insert_Some; [|by eapply T1]. apply is_vacant_false. right. apply push_listener_nonempty. }
    assert (∀ b, b ≠ get_id c → actor_relations s2 !! b = actor_relations s !! b) as Hoth.
    { intros b Hb. unfold s2. simpl. rewrite lookup_alter_ne by done. by apply Oth. }
    assert (view_inv s2) as V2.
    { eapply relisted_inv; [exact V|exact R|]. apply push_listener_once, (v_monitor_once _ V). }
    pose proof (finish_registration c (relisted key (push_listener c (listeners_of s key))) (remove_vacant_group key) s s2) as Hf.
    unfold listening, get_status in Hf. rewrite <- E, Hst in Hf. apply Hf; try done.
    + intros ?????. by eapply relisted_same.
    + apply same_remove_vacant_group.
    + apply tidy_rm_group.
    + intros s0. by destruct (remove_vacant_group_same key s0) as (_ & _ & ? & _ & ?).
    + simpl. lia.
  - rewrite (stopping_later (clock s1)) by (done || simpl; lia).
    set (s3 := mkPg _ _ _ _ _ _).
    pose proof (refuse_registration c (relisted key (push_listener c (listeners_of s key))) (remove_vacant_group key) s s3) as Hf.
    unfold listening in Hf. rewrite <- E, Hst in Hf. apply Hf; try done.
    + split; [..|exact Rel|]; intros k; unfold members_of, listeners_of, world_of, index_of; simpl; rewrite ?A, ?B, ?C; try done;
        (destruct (decide (k = key)) as [->|]; [rewrite lookup_insert_eq|by rewrite lookup_insert_ne]); simpl;
        rewrite ?Gm, ?Gl; unfold members_of, listeners_of; by destruct (map s !! key).
    + apply same_remove_vacant_group.
    + apply tidy_remove_vacant_group; simpl; rewrite ?B, ?C; try done.
      intros k g0 Hne. rewrite lookup_insert_ne, A by done. apply T1.
    + intros s0. by destruct (remove_vacant_group_same key s0) as (_ & _ & ? & _ & ?).
    + simpl. lia.
Qed.

Lemma monitor_scope_effect sc c s :
  pg_inv s →
  let key := mkKey sc ALL_GROUPS_NOTIFICATION in
  listening c (reworlded key (push_listener c (world_of s key))) s (monitor_scope sc c s).
Proof using status_mono.
  intros [V T] key. unfold monitor_scope. fold key.
  destruct (get_or_create_same (get_id c) s) as (A & B & C & D & E).
  pose proof (relations_of_get_or_create (get_id c) s) as Rel. pose proof (get_or_create_present (get_id c) s) as Pr.
  pose proof (get_or_create_other (get_id c) s) as Oth.
  set (s1 := get_or_create_actor_relations (get_id c) s) in *.
  assert (default [] (world_listeners s1 !! key) = world_of s key) as Gl by (unfold world_of; by rewrite C).
  rewrite Gl. set (ls := world_of s key) in *.
  destruct T as [T1 T2 T3]. unfold listening. rewrite <- E. unfold get_status. cbn [fst snd with_world clock].
  destruct (status_le (status_at (clock s1) (get_id c)) Draining) eqn:Hst.
  - set (s2 := update_relations _ _ _).
    assert (reworlded key (push_listener c ls) s s2) as R.
    { assert (∀ b, relations_of s2 b = if decide (b = get_id c)
        then upd_world_monitors (union {[key]}) (relations_of s b) else relations_of s b) as Hr.
      { intros b. unfold s2. rewrite relations_of_update by (by left). rewrite <- Rel. by case_decide; subst. }
      split.
      - intros k. unfold s2, members_of. simpl. by rewrite A.
      - intros k. unfold s2, listeners_of. simpl. by rewrite A.
      - intros k. unfold s2, world_of. simpl. rewrite insert_insert_eq, C. case_decide; [subst k|by rewrite lookup_insert_ne].
        by rewrite lookup_insert_eq.
      - intros sc'. unfold s2, index_of. simpl. by rewrite B.
      - intros a. rewrite Hr. by case_decide.
      - intros k a. rewrite Hr. destruct (decide (k = key)) as [->|Hk].
        + rewrite push_listener_ids. unfold ls. rewrite <- (v_world _ V). case_decide; simpl; set_solver.
        + case_decide; simpl; set_solver. }
    assert (tidy s2) as Ts2.
    { split; simpl; rewrite ?A, ?B; try done. intros k g0. rewrite insert_insert_eq, C.
      intros [[_ <-]|[_ ?]]%lookup_insert_Some; [apply push_listener_nonempty|by eapply T2]. }
    assert (∀ b, b ≠ get_id c → actor_relations s2 !! b = actor_relations s !! b) as Hoth.
    { intros b Hb. unfold s2. simpl. rewrite lookup_alter_ne by done. by apply Oth. }
    assert (view_inv s2) as V2.
    { eapply reworlded_inv; [exact V|exact R|]. apply push_listener_once, (v_world_once _ V). }
    pose proof (finish_registration c (reworlded key (push_listener c ls)) (remove_vacant_world key) s s2) as Hf.
    unfold listening, get_status in Hf. rewrite <- E, Hst in Hf. apply Hf; try done.
    + intros ?????. by eapply reworlded_same.
    + apply same_remove_vacant_world.
    + apply tidy_rm_world.
    + intros s0. by destruct (remove_vacant_world_same key s0) as (_ & _ & ? & _ & ?).
    + simpl. lia.
  - rewrite (stopping_later (clock s1)) by (done || simpl; lia).
    set (s3 := mkPg _ _ _ _ _ _).
    pose proof (refuse_registration c (reworlded key (push_listener c ls)) (remove_vacant_world key) s s3) as Hf.
    unfold listening in Hf. rewrite <- E, Hst in Hf. apply Hf; try done.
    + split; [..|exact Rel|]; intros k; unfold members_of, listeners_of, world_of, index_of; simpl; rewrite ?A, ?B, ?C; try done.
      destruct (decide (k = key)) as [->|]; [by rewrite lookup_insert_eq|by rewrite lookup_insert_ne].
    + apply same_remove_vacant_world.
    + apply tidy_remove_vacant_world; simpl; rewrite ?A, ?B; try done.
      intros k g0 Hne. rewrite lookup_insert_ne, C by done. apply T2.
    + intros s0. by destruct (remove_vacant_world_same key s0) as (_ & _ & ? & _ & ?).
    + simpl. lia.
Qed.

(** ** Histories *)

(** The calls of the module, by their arguments; [OpShutdown] is what an actor that starts to stop runs. *)
Inductive pg_op :=
| OpJoin (sc : ScopeName) (g : GroupName) (actors : list ActorCell)
| OpLeave (sc : ScopeName) (g : GroupName) (actors : list ActorCell)
| OpMonitor (g : GroupName) (c : ActorCell)
| OpMonitorScope (sc : ScopeName) (c : ActorCell)
| OpDemonitor (g : GroupName) (a : ActorId)
| OpDemonitorScope (sc : ScopeName) (a : ActorId)
| OpShutdown (a : ActorId).

Definition run_op (s : PgState) (o : pg_op) : PgState :=
  match o with
  | OpJoin sc g actors => join_scoped sc g actors s
  | OpLeave sc g actors => leave_scoped sc g actors s
  | OpMonitor g c => monitor g c s
  | OpMonitorScope sc c => monitor_scope sc c s
  | OpDemonitor g a => demonitor g a s
  | OpDemonitorScope sc a => demonitor_scope sc a s
  | OpShutdown a => shutdown a s
  end.

Definition run (s : PgState) (ops : list pg_op) : PgState := foldl run_op s ops.

Lemma shutdown_effect a s : pg_inv s → pg_inv (shutdown a s) ∧ clock s ≤ clock (shutdown a s) ∧
  actor_relations (shutdown a s) !! a = None.
Proof using.
  intros HI. unfold shutdown. destruct (demonitor_all_effect a s HI) as [D1 _ _ _ D5 _ [D7 D8]].
  destruct (leave_all_effect a _ D1) as [L1 _ _ _ L5 _ L7]. split_and!; [done|lia|by apply L7].
Qed.

Lemma run_op_inv s o : pg_inv s → pg_inv (run_op s o) ∧ clock s ≤ clock (run_op s o).
Proof using status_mono.
  intros HI. destruct o as [sc g l|sc g l|g c|sc c|g a|sc a|a]; simpl.
  - destruct (join_scoped_effect sc g l s HI) as [j [R _ _ _]]. split; [apply (g_inv _ _ _ _ R)|apply (g_clock _ _ _ _ R)].
  - destruct (leave_scoped_effect sc g l s HI) as [R _]. split; [apply (g_inv _ _ _ _ R)|apply (g_clock _ _ _ _ R)].
  - by destruct (monitor_effect g c s HI) as (? & ? & _).
  - by destruct (monitor_scope_effect sc c s HI) as (? & ? & _).
  - by destruct (demonitor_effect g a s HI) as (_ & ? & ? & _).
  - by destruct (demonitor_scope_effect sc a s HI) as (_ & ? & ? & _).
  - by destruct (shutdown_effect a s HI) as (? & ? & _).
Qed.

Lemma run_inv ops s : pg_inv s → pg_inv (run s ops) ∧ clock s ≤ clock (run s ops).
Proof using status_mono.
  revert s. induction ops as [|o ops IH]; intros s HI; [done|]. simpl.
  destruct (run_op_inv s o HI) as [HI' Hc]. destruct (IH _ HI') as [? ?]. split; [done|]. unfold run in *. lia.
Qed.

Lemma pg_init_inv : pg_inv pg_init.
Proof using.
  split; split.
  - intros k a. split; [by intros ?%elem_of_empty|by intros [? ?]].
  - done.
  - intros k a. split; [by intros ?%elem_of_empty|by intros ?%not_elem_of_nil].
  - intros k. apply NoDup_nil_2.
  - intros k a. split; [by intros ?%elem_of_empty|by intros ?%not_elem_of_nil].
  - intros k. apply NoDup_nil_2.
  - intros sc g. split; [by intros ?%elem_of_empty|done].
  - done.
  - done.
  - done.
Qed.

Lemma remove_empties_none l s a :
  actor_relations s !! a = None → actor_relations (foldl (λ s a, remove_empty_actor_relations a s) s l) !! a = None.
Proof using.
  revert s. induction l as [|b l IH]; intros s Hn; [done|]. cbn [foldl]. apply IH.
  unfold remove_empty_actor_relations. repeat case_match; try done. simpl. rewrite lookup_delete_None. by right.
Qed.

Lemma join_stopped sc g actors s a :
  (∀ t, clock s ≤ t → status_le (status_at t a) Draining = false) →
  actor_relations s !! a = None → actor_relations (join_scoped sc g actors s) !! a = None.
Proof using.
  intros Hd Hn. unfold join_scoped. pose proof (retain_live_spec actors s) as HR.
  destruct (retain_live actors s) as [kept s0]. destruct HR as (Hs0 & Hk1 & _).
  assert (actor_relations s0 !! a = None) as Hn0 by (by subst s0).
  assert (a ∉ get_id <$> kept) as Hk.
  { intros (c & -> & Hc)%list_elem_of_fmap. destruct (Hk1 c Hc) as (_ & t & Ht & Hl). by rewrite Hd in Hl. }
  destruct kept as [|c0 kept]; [done|]. unfold join_live. pose proof (join_loop_inv (mkKey sc g) (c0 :: kept) s0) as L.
  destruct (join_loop (mkKey sc g) (c0 :: kept) s0) as [l s1]. rewrite <- (l_untouched _ _ _ _ _ L a Hk) in Hn0.
  destruct (filter _ _) as [|j joined].
  - destruct (remove_vacant_group_same (mkKey sc g)
      (foldl (λ s a, remove_empty_actor_relations a s)
         (with_map <[mkKey sc g := mkGroup (insert_members [] (members (default group_default (map s0 !! mkKey sc g))))
            (listeners (default group_default (map s0 !! mkKey sc g)))]> s1) (stopped_relations l))) as (_ & _ & -> & _).
    by apply remove_empties_none.
  - unfold notify_world_listeners, notify. simpl. by apply remove_empties_none.
Qed.

Lemma store_members_relations key m ls s : actor_relations (store_members key m ls s) = actor_relations s.
Proof using. unfold store_members, remove_group_from_index. by repeat case_match. Qed.

Lemma leave_stopped sc g actors s a :
  actor_relations s !! a = None → actor_relations (leave_scoped sc g actors s) !! a = None.
Proof using.
  intros Hn. unfold leave_scoped. destruct (map s !! _); [|done]. unfold notify_world_listeners, notify. simpl.
  rewrite store_members_relations. destruct (forget_members (mkKey sc g) actors s) as (_ & _ & _ & _ & _ & F & _).
  by rewrite eq_None_not_Some, F, <- eq_None_not_Some.
Qed.

(** An actor that keeps stopping leaves no trace once it has none. *)
Lemma run_op_stopped a s o :
  pg_inv s → (∀ t, clock s ≤ t → status_le Stopping (status_at t a) = true) →
  actor_relations s !! a = None → actor_relations (run_op s o) !! a = None.
Proof using status_mono.
  intros HI Hst Hn. assert (∀ t, clock s ≤ t → status_le (status_at t a) Draining = false) as Hd.
  { intros t Ht. by rewrite not_draining_stopping, Hst. }
  destruct o as [sc g l|sc g l|g c|sc c|g b|sc b|b]; simpl.
  - by apply join_stopped.
  - by apply leave_stopped.
  - destruct (monitor_effect g c s HI) as (_ & _ & Ho & Hc). destruct (decide (a = get_id c)) as [->|Hne];
      [|by rewrite Ho]. rewrite Hd in Hc by done. by apply Hc.
  - destruct (monitor_scope_effect sc c s HI) as (_ & _ & Ho & Hc). destruct (decide (a = get_id c)) as [->|Hne];
      [|by rewrite Ho]. rewrite Hd in Hc by done. by apply Hc.
  - destruct (demonitor_effect g b s HI) as (_ & _ & _ & Hp). by rewrite eq_None_not_Some, Hp, <- eq_None_not_Some.
  - destruct (demonitor_scope_effect sc b s HI) as (_ & _ & _ & Hp). by rewrite eq_None_not_Some, Hp, <- eq_None_not_Some.
  - destruct (decide (a = b)) as [->|Hne]; [by apply shutdown_effect|]. unfold shutdown.
    destruct (demonitor_all_effect b s HI) as [D1 _ _ _ _ D6 _]. rewrite (la_relations _ _ _ (leave_all_effect b _ D1)) by done.
    by rewrite eq_None_not_Some, D6, <- eq_None_not_Some.
Qed.

Lemma run_stopped a ops s :
  pg_inv s → (∀ t, clock s ≤ t → status_le Stopping (status_at t a) = true) →
  actor_relations s !! a = None → actor_relations (run s ops) !! a = None.
Proof using status_mono.
  revert s. induction ops as [|o ops IH]; intros s HI Hst Hn; [done|]. simpl. destruct (run_op_inv s o HI) as [HI' Hc].
  apply IH; [done| |by apply run_op_stopped]. intros t Ht. apply Hst. lia.
Qed.

(** No entry in the reverse index: the actor is in no group and on no list of listeners. *)
Lemma no_relations a s :
  pg_inv s → actor_relations s !! a = None →
  ∀ k, members_of s k !! a = None ∧ ¬ (a ∈ get_id <$> listeners_of s k) ∧ ¬ (a ∈ get_id <$> world_of s k).
Proof using.
  intros [V _] Hn k. assert (relations_of s a = relations_default) as Hr by (unfold relations_of; by rewrite Hn).
  split_and!.
  - apply eq_None_not_Some. rewrite <- (v_member _ V), Hr. apply not_elem_of_empty.
  - rewrite <- (v_monitor _ V), Hr. apply not_elem_of_empty.
  - rewrite <- (v_world _ V), Hr. apply not_elem_of_empty.
Qed.

(** ** The abstract view: who is a member of what *)

Definition member (s : PgState) (k : ScopeGroupKey) (a : ActorId) : Prop := is_Some (members_of s k !! a).

(** What an operation started at time [t0] promises about membership. *)
Definition abs_step (o : pg_op) (t0 : nat) (before after : ScopeGroupKey → ActorId → Prop) : Prop :=
  match o with
  | OpJoin sc g actors =>
      ∃ joined : gset ActorId,
        (∀ k a, after k a ↔ before k a ∨ k = mkKey sc g ∧ a ∈ joined) ∧
        (∀ a, a ∈ joined → (a ∈ get_id <$> actors) ∧ ∃ t, t0 ≤ t ∧ status_le (status_at t a) Draining = true) ∧
        (∀ a, a ∈ get_id <$> actors → (∀ t, t0 ≤ t → status_le (status_at t a) Draining = true) → a ∈ joined)
  | OpLeave sc g actors => ∀ k a, after k a ↔ before k a ∧ ¬ (k = mkKey sc g ∧ a ∈ get_id <$> actors)
  | OpShutdown b => ∀ k a, after k a ↔ before k a ∧ a ≠ b
  | _ => ∀ k a, after k a ↔ before k a
  end.

Lemma same_members s s' o t :
  (∀ k, members_of s' k = members_of s k) →
  match o with OpJoin _ _ _ | OpLeave _ _ _ | OpShutdown _ => False | _ => True end → abs_step o t (member s) (member s').
Proof using. intros Hm Ho. unfold member. destruct o; try done; intros k b; by rewrite Hm. Qed.

Lemma run_op_refines s o : pg_inv s → abs_step o (clock s) (member s) (member (run_op s o)).
Proof using status_mono.
  intros HI. destruct o as [sc g l|sc g l|g c|sc c|g a|sc a|a].
  - destruct (join_scoped_effect sc g l s HI) as [joined [R J1 J2 _]]. exists (list_to_set (get_id <$> joined)).
    setoid_rewrite elem_of_list_to_set. split_and!.
    + intros k a. unfold member, run_op. rewrite (g_members _ _ _ _ R). case_decide as Hk; [subst k|naive_solver].
      rewrite insert_members_lookup. naive_solver.
    + intros a (c & -> & Hc)%list_elem_of_fmap. destruct (J1 c Hc). split; [by apply list_elem_of_fmap_2|done].
    + intros a (c & -> & Hc)%list_elem_of_fmap Hal. apply list_elem_of_fmap_2. by apply J2.
  - destruct (leave_scoped_effect sc g l s HI) as [R _]. intros k a. unfold member, run_op. rewrite (g_members _ _ _ _ R).
    case_decide as Hk; [subst k|naive_solver]. rewrite remove_members_lookup. case_bool_decide; [|naive_solver].
    split; [by intros [? ?]|naive_solver].
  - apply same_members; [|done]. destruct (monitor_effect g c s HI) as (_ & _ & _ & He). simpl.
    destruct (status_le _ _); [apply (rl_members _ _ _ _ He)|apply (s_members _ _ (proj1 He))].
  - apply same_members; [|done]. destruct (monitor_scope_effect sc c s HI) as (_ & _ & _ & He). simpl.
    destruct (status_le _ _); [apply (rw_members _ _ _ _ He)|apply (s_members _ _ (proj1 He))].
  - apply same_members; [|done]. destruct (demonitor_effect g a s HI) as (R & _). apply (rl_members _ _ _ _ R).
  - apply same_members; [|done]. destruct (demonitor_scope_effect sc a s HI) as (R & _). apply (rw_members _ _ _ _ R).
  - destruct (demonitor_all_effect a s HI) as [D1 D2 _ _ _ _ _]. intros k b. unfold member, run_op, shutdown.
    rewrite (la_members _ _ _ (leave_all_effect a _ D1)), D2, lookup_delete_is_Some. naive_solver.
Qed.

Lemma get_scoped_members_spec s sc g a :
  pg_inv s → a ∈ get_id <$> get_scoped_members sc g s ↔ member s (mkKey sc g) a.
Proof using.
  intros [V _]. pose proof (v_cell _ V (mkKey sc g)) as Hc. unfold get_scoped_members, member, members_of in *.
  destruct (map s !! mkKey sc g) as [gs|]; simpl in *.
  2: { split; [by intros ?%not_elem_of_nil|by intros [? ?]]. }
  split.
  - intros (c & -> & ([b c'] & -> & Hin%elem_of_map_to_list)%list_elem_of_fmap)%list_elem_of_fmap.
    simpl. exists c'. by rewrite (Hc _ _ Hin).
  - intros [c Hin]. rewrite <- (Hc _ _ Hin). apply list_elem_of_fmap_2. apply list_elem_of_fmap.
    exists (a, c). split; [done|]. by apply elem_of_map_to_list.
Qed.

Lemma which_scopes_and_groups_spec s k : k ∈ which_scopes_and_groups s ↔ members_of s k ≠ ∅.
Proof using.
  unfold which_scopes_and_groups, members_of. rewrite list_elem_of_fmap. split.
  - intros ([k' gs] & -> & [Hm Hin%elem_of_map_to_list]%list_elem_of_filter). simpl in *. by rewrite Hin.
  - intros Hm. destruct (map s !! k) as [gs|] eqn:Hk; [|done]. exists (k, gs). split; [done|].
    apply list_elem_of_filter. split; [done|]. by apply elem_of_map_to_list.
Qed.

Lemma which_scoped_groups_spec s sc g : pg_inv s → g ∈ which_scoped_groups sc s ↔ members_of s (mkKey sc g) ≠ ∅.
Proof using.
  intros [V _]. rewrite <- (v_index _ V). unfold which_scoped_groups, index_of.
  destruct (index s !! sc) as [gs|]; simpl; [by rewrite elem_of_elements|].
  split; [by intros ?%not_elem_of_nil|by intros ?%elem_of_empty].
Qed.
End pg.

(** ** Sorting and removing duplicates *)

Lemma dedup_cons x y l : dedup (x :: y :: l) = if bool_decide (x = y) then dedup (y :: l) else x :: dedup (y :: l).
Proof. done. Qed.

Lemma elem_of_dedup l x : x ∈ dedup l ↔ x ∈ l.
Proof.
  induction l as [|a [|b l] IH]; [done..|]. rewrite dedup_cons. case_bool_decide as Hab; [subst|].
  - rewrite IH. rewrite !elem_of_cons. naive_solver.
  - by rewrite elem_of_cons, IH, !elem_of_cons.
Qed.

Lemma dedup_once l : StronglySorted String.le l → NoDup (dedup l).
Proof.
  induction l as [|a [|b l] IH]; intros Hs; [apply NoDup_nil_2|apply NoDup_singleton|].
  apply StronglySorted_inv in Hs as [Hs Ha]. rewrite dedup_cons. case_bool_decide as Hab; [by apply IH|].
  apply NoDup_cons. split; [|by apply IH]. rewrite elem_of_dedup. intros Hin. apply Hab.
  rewrite Forall_forall in Ha. apply StronglySorted_inv in Hs as [_ Hb]. rewrite Forall_forall in Hb.
  apply elem_of_cons in Hin as [->|Hin]; [done|]. apply (anti_symm String.le); [apply Ha; by left|by apply Hb].
Qed.

Lemma dedup_sorted l : StronglySorted String.le l → StronglySorted String.le (dedup l).
Proof.
  induction l as [|a [|b l] IH]; intros Hs; [done..|]. apply StronglySorted_inv in Hs as [Hs Ha].
  rewrite dedup_cons. case_bool_decide; [by apply IH|]. constructor; [by apply IH|].
  rewrite Forall_forall in Ha |- *. intros x Hx. apply Ha. by apply elem_of_dedup.
Qed.

Lemma sort_dedup_spec l :
  StronglySorted String.le (sort_dedup l) ∧ NoDup (sort_dedup l) ∧ ∀ x, x ∈ sort_dedup l ↔ x ∈ l.
Proof.
  pose proof (StronglySorted_merge_sort String.le l) as Hs. unfold sort_dedup.
  split_and!; [by apply dedup_sorted|by apply dedup_once|]. intros x. by rewrite elem_of_dedup, merge_sort_Permutation.
Qed.

(** ** The theorems *)

(** Statuses only move forward; a concrete actor system: actor 3 stops at time 6. *)
Definition status_forward (status_at : nat → ActorId → ActorStatus) : Prop :=
  ∀ t t' a, t ≤ t' → status_le (status_at t a) (status_at t' a) = true.

Definition sample_status (t : nat) (a : ActorId) : ActorStatus :=
  if bool_decide (a = Local 3) && (6 <=? t) then Stopping else Running.

Lemma sample_status_forward : status_forward sample_status.
Proof.
  intros t t' a Ht. unfold sample_status. destruct (bool_decide (a = Local 3)); [|done]. cbn [andb].
  destruct (Nat.leb_spec 6 t), (Nat.leb_spec 6 t'); done || lia.
Qed.

Definition sample_cell (n : N) : ActorCell := mkCell (Local n) None (N.to_nat n).

Definition sample_ops : list pg_op :=
  [OpMonitor "g" (sample_cell 1); OpJoin DEFAULT_SCOPE "g" [sample_cell 2; sample_cell 3]]%string.

#[local] Instance sample_iter : HashSetIter ScopeGroupKey := elements_iter ScopeGroupKey.

(** The four maps of the process groups always agree, whatever calls are made and whatever the
    actors' statuses do meanwhile: an actor is a member of a group exactly when its own record says so;
    it is on a group's, scope's or the world's listeners exactly when its record says so, and once; a
    group is in its scope's index exactly when it has members, so the listing by index and the listing
    by scan agree; and no entry is kept that holds neither members nor listeners. *)
Theorem pg_maps_consistent `{!HashSetIter ScopeGroupKey} (status_at : nat → ActorId → ActorStatus) (ops : list pg_op) :
  status_forward status_at →
  let s := run status_at pg_init ops in
  pg_inv s ∧
  (∀ sc g, g ∈ which_scoped_groups sc s ↔ mkKey sc g ∈ which_scopes_and_groups s) ∧
  (∀ g, g ∈ which_groups s ↔ ∃ sc, mkKey sc g ∈ which_scopes_and_groups s) ∧ NoDup (which_groups s).
Proof.
  intros Hf s. destruct (run_inv status_at Hf ops pg_init pg_init_inv) as [HI _]. fold s in HI.
  destruct (sort_dedup_spec (group <$> which_scopes_and_groups s)) as (_ & Hn & Hin).
  split_and!; [done| | |done].
  - intros sc g. by rewrite which_scoped_groups_spec, which_scopes_and_groups_spec.
  - intros g. unfold which_groups. rewrite Hin, list_elem_of_fmap. split.
    + intros ([sc g'] & -> & Hk). by exists sc.
    + intros [sc Hk]. by exists (mkKey sc g).
Qed.

Lemma pg_maps_consistent_witness :
  let s := run sample_status pg_init (sample_ops ++ [OpShutdown (Local 2)]) in
  pg_inv s ∧
  (∀ sc g, g ∈ which_scoped_groups sc s ↔ mkKey sc g ∈ which_scopes_and_groups s) ∧
  (∀ g, g ∈ which_groups s ↔ ∃ sc, mkKey sc g ∈ which_scopes_and_groups s) ∧ NoDup (which_groups s).
Proof. exact (pg_maps_consistent sample_status (sample_ops ++ [OpShutdown (Local 2)]) sample_status_forward). Defined.

(** C16: the module implements sets of members.  After any history, each call changes who is a member of
    what exactly as announced: a join adds the given actors to that one group, all those that stay alive
    and none that is stopping throughout; a leave removes exactly the given actors from that group; an
    actor's shutdown removes it from every group; monitoring changes no membership.  [get_scoped_members]
    lists exactly the members. *)
Theorem pg_membership_refines `{!HashSetIter ScopeGroupKey} (status_at : nat → ActorId → ActorStatus) (ops : list pg_op) (o : pg_op) :
  status_forward status_at →
  let s := run status_at pg_init ops in let s' := run_op status_at s o in
  abs_step status_at o (clock s) (member s) (member s') ∧
  ∀ sc g a, a ∈ get_id <$> get_scoped_members sc g s' ↔ member s' (mkKey sc g) a.
Proof.
  intros Hf s s'. destruct (run_inv status_at Hf ops pg_init pg_init_inv) as [HI _]. fold s in HI.
  split; [by apply run_op_refines|]. intros sc g a. apply get_scoped_members_spec. by apply (run_op_inv status_at Hf).
Qed.

Lemma pg_membership_refines_witness :
  let s := run sample_status pg_init sample_ops in
  let s' := run_op sample_status s (OpLeave DEFAULT_SCOPE "g" [sample_cell 2]) in
  get_members "g" s' = [sample_cell 3] ∧
  ∀ sc g a, a ∈ get_id <$> get_scoped_members sc g s' ↔ member s' (mkKey sc g) a.
Proof.
  split; [by vm_compute|].
  exact (proj2 (pg_membership_refines sample_status sample_ops (OpLeave DEFAULT_SCOPE "g" [sample_cell 2]) sample_status_forward)).
Defined.

(** An actor that stops is gone for good.  Once an actor is stopping and its shutdown has run, no
    later call - a join or a monitor request that races with it included - makes it a member of a group
    or a listener again, and the reverse index keeps nothing about it. *)
Theorem pg_shutdown_final `{!HashSetIter ScopeGroupKey} (status_at : nat → ActorId → ActorStatus) (before after : list pg_op) (a : ActorId) :
  status_forward status_at →
  let s := run status_at pg_init before in
  status_le Stopping (status_at (clock s) a) = true →
  let s' := run status_at (run_op status_at s (OpShutdown a)) after in
  actor_relations s' !! a = None ∧
  ∀ k, members_of s' k !! a = None ∧ ¬ (a ∈ get_id <$> listeners_of s' k) ∧ ¬ (a ∈ get_id <$> world_of s' k).
Proof.
  intros Hf s Hst s'. destruct (run_inv status_at Hf before pg_init pg_init_inv) as [HI _]. fold s in HI.
  destruct (shutdown_effect a s HI) as (HI1 & Hc & Hn).
  assert (actor_relations s' !! a = None) as Hn'.
  { apply (run_stopped status_at Hf); [done| |done]. intros t Ht. eapply status_le_trans; [exact Hst|].
    apply Hf. simpl in Ht. lia. }
  split; [done|]. apply no_relations; [|done]. by apply (run_inv status_at Hf).
Qed.

Lemma pg_shutdown_final_witness :
  let s := run sample_status pg_init (sample_ops ++ [OpMonitor "g" (sample_cell 4)]) in
  let s' := run sample_status (run_op sample_status s (OpShutdown (Local 3)))
    [OpJoin DEFAULT_SCOPE "g" [sample_cell 3]; OpMonitor "h" (sample_cell 3)] in
  get_members "g" s = [sample_cell 2; sample_cell 3] ∧ actor_relations s' !! Local 3 = None ∧
  ∀ k, members_of s' k !! Local 3 = None ∧ ¬ (Local 3 ∈ get_id <$> listeners_of s' k) ∧ ¬ (Local 3 ∈ get_id <$> world_of s' k).
Proof.
  split; [by vm_compute|].
  exact (pg_shutdown_final sample_status (sample_ops ++ [OpMonitor "g" (sample_cell 4)])
    [OpJoin DEFAULT_SCOPE "g" [sample_cell 3]; OpMonitor "h" (sample_cell 3)] (Local 3) sample_status_forward
    (eq_refl true <: status_le Stopping (sample_status (clock
      (run sample_status pg_init (sample_ops ++ [OpMonitor "g" (sample_cell 4)]))) (Local 3)) = true)).
Defined.

(** How many ways an actor hears about a change of group [k]: as listener of the group, of its scope, and
    of the whole world. *)
Definition subscriptions (s : PgState) (k : ScopeGroupKey) (b : ActorId) : nat :=
  (if bool_decide (b ∈ get_id <$> listeners_of s k) then 1 else 0) +
  (if bool_decide (b ∈ get_id <$> world_of s (mkKey (scope k) ALL_GROUPS_NOTIFICATION)) then 1 else 0) +
  (if bool_decide (b ∈ get_id <$> world_of s (mkKey ALL_SCOPES_NOTIFICATION ALL_GROUPS_NOTIFICATION)) then 1 else 0).

Definition addressed_to (b : ActorId) (e : ActorId * GroupChangeMessage) : bool := bool_decide (e.1 = b).

Lemma countb_once (l : list ActorId) (b : ActorId) (x : GroupChangeMessage) :
  NoDup l → countb (addressed_to b) ((λ a, (a, x)) <$> l) = if bool_decide (b ∈ l) then 1 else 0.
Proof.
  induction l as [|a l IH]; intros Hn; [by rewrite bool_decide_false by apply not_elem_of_nil|].
  apply NoDup_cons in Hn as [Ha Hn]. rewrite fmap_cons. simpl. rewrite (IH Hn). unfold addressed_to. simpl.
  destruct (decide (a = b)) as [->|Hne].
  - rewrite (bool_decide_true (b = b)), (bool_decide_false (b ∈ l)), (bool_decide_true (b ∈ b :: l)) by (done || by left). done.
  - rewrite (bool_decide_false (a = b)) by done. simpl.
    by rewrite (bool_decide_ext (b ∈ a :: l) (b ∈ l)) by (rewrite elem_of_cons; naive_solver).
Qed.

Lemma announced_once s k b x :
  pg_inv s → countb (addressed_to b) ((λ a, (a, x)) <$> announced s k) = subscriptions s k b.
Proof.
  intros [V _]. unfold announced, subscriptions. rewrite !fmap_app, !countb_app.
  rewrite !countb_once by (apply (v_monitor_once _ V) || apply (v_world_once _ V)). lia.
Qed.

(** A change of a group is announced once per subscription.  When actors join a group, every actor
    that monitors the group, its scope or the world at that moment gets exactly one [Join] event for each
    of these subscriptions and nobody else gets any; the event names the actors that joined, and no event
    is sent when none did. *)
Theorem pg_join_announced `{!HashSetIter ScopeGroupKey} (status_at : nat → ActorId → ActorStatus) (ops : list pg_op)
    (sc : ScopeName) (g : GroupName) (actors : list ActorCell) :
  status_forward status_at →
  let s := run status_at pg_init ops in let s' := run_op status_at s (OpJoin sc g actors) in
  ∃ joined news,
    members_of s' (mkKey sc g) = insert_members joined (members_of s (mkKey sc g)) ∧
    sent s' = sent s ++ news ∧ (∀ e, e ∈ news → e.2 = Join sc g joined) ∧
    ∀ b, countb (addressed_to b) news = if bool_decide (joined = []) then 0 else subscriptions s (mkKey sc g) b.
Proof.
  intros Hf s s'. destruct (run_inv status_at Hf ops pg_init pg_init_inv) as [HI _]. fold s in HI.
  destruct (join_scoped_effect status_at sc g actors s HI) as [joined [R _ _ J]].
  exists joined, (join_notice sc g joined s). split_and!; [|done| |].
  - unfold s', run_op. by rewrite (g_members _ _ _ _ R), decide_True.
  - intros e. unfold join_notice. destruct joined; [by intros ?%not_elem_of_nil|].
    by intros (b & -> & _)%list_elem_of_fmap.
  - intros b. unfold join_notice. destruct joined; [done|]. rewrite bool_decide_false by done. by apply announced_once.
Qed.

Lemma pg_join_announced_witness :
  let s := run sample_status pg_init [OpMonitor "g" (sample_cell 1)] in
  let s' := run_op sample_status s (OpJoin DEFAULT_SCOPE "g" [sample_cell 2]) in
  ∃ joined news,
    members_of s' (mkKey DEFAULT_SCOPE "g") = insert_members joined (members_of s (mkKey DEFAULT_SCOPE "g")) ∧
    sent s' = sent s ++ news ∧ (∀ e, e ∈ news → e.2 = Join DEFAULT_SCOPE "g" joined) ∧
    ∀ b, countb (addressed_to b) news = if bool_decide (joined = []) then 0 else subscriptions s (mkKey DEFAULT_SCOPE "g") b.
Proof.
  exact (pg_join_announced sample_status [OpMonitor "g" (sample_cell 1)] DEFAULT_SCOPE "g" [sample_cell 2] sample_status_forward).
Defined.
