(* ===== verification/Actors.v ===== *)
(** Actors of a node: creation, the name and pid registries, supervision, and clean-up.

    Models src/ractor/src/actor/supervision.rs, src/ractor/src/registry.rs,
    src/ractor/src/registry/pid_registry.rs, the lifecycle of src/ractor/src/actor/actor_cell.rs
    ([new], [new_remote], [set_status], [terminate]) and of src/ractor/src/actor.rs ([start], the
    lifecycle guard).  The whole node is one state, [Sys]; an operation of the source that holds its
    locks for its whole duration is one function on it, and a history is any sequence of operations,
    whichever task runs them.  Cells are identified by their ids; the process groups are those of Pg.v,
    whose status reads see the statuses kept here.  Monitors are in Monitors.v, waiting is in Waiting.v. *)

From S2P Require Import Prelude ActorTypes Pg.

(** [struct SupervisionTree]: [None] children means that the set is closed for good. *)
Record SupervisionTree := mkTree {
  children : option (gset ActorId);
  supervisor : option ActorId
}.

Definition tree_default : SupervisionTree := mkTree (Some ∅) None.

(** The part of [struct ActorProperties] used here: [signal] tells that the sender half of the one-shot
    signal port is still there, [signalled] that the kill signal was sent on it. *)
Record Actor := mkActor {
  name : option string;
  status : ActorStatus;
  signal : bool;
  signalled : bool;
  tree : SupervisionTree
}.

(** [ActorProperties::new_remote] *)
Definition actor_new (n : option string) : Actor := mkActor n Unstarted true false tree_default.

(** [enum SupervisionEvent], the events that concern one actor; [PidSpawn] and [PidTerminate] are the two
    pid lifecycle events. *)
Inductive SupervisionEvent :=
| ActorStarted (a : ActorId)
| ActorTerminated (a : ActorId) (reason : option string)
| ActorFailed (a : ActorId) (err : string)
| PidSpawn (a : ActorId)
| PidTerminate (a : ActorId).

#[global] Instance SupervisionEvent_eq_dec : EqDecision SupervisionEvent.
Proof. solve_decision. Defined.

(** The node.  [events]: supervision events sent, with their target; [woken]: the actors whose stop
    listeners were notified; [guards]: the armed lifecycle guards, with [notify_on_cancel]. *)
Record Sys := mkSys {
  heap : gmap ActorId Actor;
  next_id : N;
  names : gmap string ActorId;
  pids : gset ActorId;
  pid_listeners : gset ActorId;
  pg : PgState;
  guards : gmap ActorId bool;
  events : list (ActorId * SupervisionEvent);
  woken : list ActorId
}.

Definition sys_init : Sys := mkSys ∅ 0 ∅ ∅ ∅ pg_init ∅ [] [].

Definition with_heap (f : gmap ActorId Actor → gmap ActorId Actor) (s : Sys) : Sys :=
  mkSys (f (heap s)) (next_id s) (names s) (pids s) (pid_listeners s) (pg s) (guards s) (events s) (woken s).
Definition with_names (f : gmap string ActorId → gmap string ActorId) (s : Sys) : Sys :=
  mkSys (heap s) (next_id s) (f (names s)) (pids s) (pid_listeners s) (pg s) (guards s) (events s) (woken s).
Definition with_pids (f : gset ActorId → gset ActorId) (s : Sys) : Sys :=
  mkSys (heap s) (next_id s) (names s) (f (pids s)) (pid_listeners s) (pg s) (guards s) (events s) (woken s).
Definition with_pid_listeners (f : gset ActorId → gset ActorId) (s : Sys) : Sys :=
  mkSys (heap s) (next_id s) (names s) (pids s) (f (pid_listeners s)) (pg s) (guards s) (events s) (woken s).
Definition with_pg (f : PgState → PgState) (s : Sys) : Sys :=
  mkSys (heap s) (next_id s) (names s) (pids s) (pid_listeners s) (f (pg s)) (guards s) (events s) (woken s).
Definition with_guards (f : gmap ActorId bool → gmap ActorId bool) (s : Sys) : Sys :=
  mkSys (heap s) (next_id s) (names s) (pids s) (pid_listeners s) (pg s) (f (guards s)) (events s) (woken s).
Definition emit (l : list (ActorId * SupervisionEvent)) (s : Sys) : Sys :=
  mkSys (heap s) (next_id s) (names s) (pids s) (pid_listeners s) (pg s) (guards s) (events s ++ l) (woken s).
Definition wake (a : ActorId) (s : Sys) : Sys :=
  mkSys (heap s) (next_id s) (names s) (pids s) (pid_listeners s) (pg s) (guards s) (events s) (woken s ++ [a]).

Definition set_actor_status (st : ActorStatus) (x : Actor) : Actor :=
  mkActor (name x) st (signal x) (signalled x) (tree x).
Definition set_tree (t : SupervisionTree) (x : Actor) : Actor :=
  mkActor (name x) (status x) (signal x) (signalled x) t.
Definition set_children (cs : option (gset ActorId)) (x : Actor) : Actor :=
  set_tree (mkTree cs (supervisor (tree x))) x.
Definition set_supervisor (p : option ActorId) (x : Actor) : Actor :=
  set_tree (mkTree (children (tree x)) p) x.

(** A cell that is not on the heap was never handed out. *)
Definition actor (s : Sys) (a : ActorId) : Actor := default (mkActor None Stopped false false (mkTree None None)) (heap s !! a).
Definition get_status (s : Sys) (a : ActorId) : ActorStatus := status (actor s a).
Definition children_of (s : Sys) (a : ActorId) : option (gset ActorId) := children (tree (actor s a)).
Definition supervisor_of (s : Sys) (a : ActorId) : option ActorId := supervisor (tree (actor s a)).
Definition update (f : Actor → Actor) (a : ActorId) : Sys → Sys := with_heap (alter f a).

(** ** The registries *)

(** [registry::register]: the error is the name that is taken *)
Definition register (n : string) (a : ActorId) (s : Sys) : option Sys :=
  match names s !! n with
  | Some _ => None
  | None => Some (with_names <[n := a]> s)
  end.

Definition unregister (n : string) : Sys → Sys := with_names (delete n).

Definition where_is (n : string) (s : Sys) : option ActorId := names s !! n.

Section sys.
Context `{!HashSetIter ActorId} `{!HashSetIter ScopeGroupKey}.

Definition notify_pid_listeners (e : SupervisionEvent) (s : Sys) : Sys :=
  emit ((λ l, (l, e)) <$> hs_iter (pid_listeners s)) s.

Definition register_pid (a : ActorId) (s : Sys) : option Sys :=
  if is_local a then
    if bool_decide (a ∈ pids s) then None
    else Some (notify_pid_listeners (PidSpawn a) (with_pids (union {[a]}) s))
  else Some s.

Definition unregister_pid (a : ActorId) (s : Sys) : Sys :=
  if is_local a && bool_decide (a ∈ pids s) then
    notify_pid_listeners (PidTerminate a) (with_pids (λ ps, ps ∖ {[a]}) s)
  else s.

Definition where_is_pid (a : ActorId) (s : Sys) : option ActorId :=
  if is_local a && bool_decide (a ∈ pids s) then Some a else None.

Definition pid_monitor (a : ActorId) : Sys → Sys := with_pid_listeners (union {[a]}).
Definition pid_demonitor (a : ActorId) : Sys → Sys := with_pid_listeners (λ ls, ls ∖ {[a]}).

(** ** Creation *)

(** [get_new_local_id] *)
Definition get_new_local_id (s : Sys) : ActorId * Sys :=
  (Local (next_id s),
   mkSys (heap s) (N.succ (next_id s)) (names s) (pids s) (pid_listeners s) (pg s) (guards s) (events s) (woken s)).

(** [ActorCell::new] and the guard of [ActorRuntime::new]; an error drops the cell. *)
Definition new (n : option string) (s : Sys) : option ActorId * Sys :=
  let '(a, s) := get_new_local_id s in
  match match n with Some nm => register nm a s | None => Some s end with
  | None => (None, s)
  | Some s1 =>
      match register_pid a s1 with
      | None => (None, match n with Some nm => unregister nm s1 | None => s1 end)
      | Some s2 => (Some a, with_guards <[a := false]> (with_heap <[a := actor_new n]> s2))
      end
  end.

(** [ActorCell::new_remote] and the guard of [spawn_linked_remote] *)
Definition new_remote (n : option string) (a : ActorId) (s : Sys) : option ActorId * Sys :=
  if is_local a then (None, s)
  else (Some a, with_guards <[a := false]> (with_heap <[a := actor_new n]> s)).

(** ** Supervision *)

(** [SupervisionTree::link] *)
Definition link (child sup : ActorId) (s : Sys) : bool * Sys :=
  if status_le Draining (get_status s child) || status_le Draining (get_status s sup) then (false, s)
  else match children_of s sup with
  | None => (false, s)
  | Some cs =>
      let s1 := update (set_children (Some ({[child]} ∪ cs))) sup s in
      if bool_decide (supervisor_of s1 child = Some sup) then (true, s1)
      else
        let previous := supervisor_of s1 child in
        let s2 := update (set_supervisor (Some sup)) child s1 in
        match previous with
        | None => (true, s2)
        | Some p =>
            match children_of s2 p with
            | Some pcs => (true, update (set_children (Some (pcs ∖ {[child]}))) p s2)
            | None => (true, s2)
            end
        end
  end.

(** [SupervisionTree::unlink] *)
Definition unlink (child sup : ActorId) (s : Sys) : Sys :=
  if bool_decide (supervisor_of s child = Some sup) then
    let s1 := match children_of s sup with
              | Some cs => update (set_children (Some (cs ∖ {[child]}))) sup s
              | None => s
              end in
    update (set_supervisor None) child s1
  else s.

(** [SupervisionTree::take_children] *)
Definition detach (p : ActorId) (s : Sys) (c : ActorId) : Sys :=
  if bool_decide (supervisor_of s c = Some p) then update (set_supervisor None) c s else s.

Definition take_children (p : ActorId) (s : Sys) : list ActorId * Sys :=
  let cells := match children_of s p with Some cs => hs_iter cs | None => [] end in
  (cells, foldl (detach p) (update (set_children None) p s) cells).

Definition get_children (p : ActorId) (s : Sys) : list ActorId :=
  match children_of s p with Some cs => hs_iter cs | None => [] end.

(** [send_signal(Kill)]: the sender half can be used once. *)
Definition kill (a : ActorId) : Sys → Sys :=
  update (λ x, if signal x then mkActor (name x) (status x) false true (tree x) else x) a.

(** The worklist of [ActorCell::terminate]: the head is the top of the stack. *)
Fixpoint terminate_loop (fuel : nat) (pending : list ActorId) (s : Sys) : option Sys :=
  match pending with
  | [] => Some s
  | a :: rest =>
      match fuel with
      | 0 => None
      | S fuel' =>
          let s1 := if status_le (get_status s a) Upgrading then kill a s else s in
          let '(cells, s2) := take_children a s1 in
          terminate_loop fuel' (cells ++ rest) s2
      end
  end.

(** How many children are linked: each is popped at most once. *)
Definition child_count (x : Actor) : nat := match children (tree x) with Some cs => size cs | None => 0 end.
Definition link_count (s : Sys) : nat := map_fold (λ _ x n, child_count x + n) 0 (heap s).

Definition terminate (a : ActorId) (s : Sys) : Sys :=
  default s (terminate_loop (1 + link_count s) [a] s).

Definition notify_supervisor (a : ActorId) (e : SupervisionEvent) (s : Sys) : Sys :=
  match supervisor_of s a with Some p => emit [(p, e)] s | None => s end.

(** ** Status *)

(** [ActorCell::set_status] *)
Definition max_status (s t : ActorStatus) : ActorStatus := if status_le s t then t else s.

Definition set_status (a : ActorId) (st : ActorStatus) (s : Sys) : ActorStatus * Sys :=
  let previous := get_status s a in
  let s := update (λ x, set_actor_status (max_status (status x) st) x) a s in
  let s :=
    if status_le Stopping st && negb (status_le Stopping previous) then
      let s := unregister_pid a (pid_demonitor a s) in
      let s := match name (actor s a) with Some n => unregister n s | None => s end in
      with_pg (shutdown a) s
    else s in
  let s := if bool_decide (st = Stopped) && negb (status_le Stopped previous) then wake a s else s in
  (previous, s).

(** The status part of [ActorProperties::drain]; the message channel is Admission.v's. *)
Definition drain_status (a : ActorId) : Sys → Sys :=
  update (λ x, set_actor_status (max_status (status x) Draining) x) a.

(** ** The lifecycle guard and [start] *)

(** [ActorLifecycleGuard::cleanup] *)
Definition cleanup (a : ActorId) (event : option SupervisionEvent) (s : Sys) : Sys :=
  match guards s !! a with
  | None => s
  | Some _ =>
      let s := (set_status a Stopping s).2 in
      let s := terminate a s in
      let s := match event with Some e => notify_supervisor a e s | None => s end in
      let s := match supervisor_of s a with Some p => unlink a p s | None => s end in
      let s := (set_status a Stopped s).2 in
      with_guards (delete a) s
  end.

(** [ActorLifecycleGuard::drop]: the task was cancelled, or [start] failed *)
Definition guard_drop (a : ActorId) (s : Sys) : Sys :=
  match guards s !! a with
  | Some true => cleanup a (Some (ActorTerminated a (Some "actor_task_cancelled"%string))) s
  | _ => cleanup a None s
  end.

(** What [pre_start], run beside the signal port, came to. *)
Inductive PreStart := PreOk | PreFailed | PreKilled.

(** [start], up to the call of [pre_start] *)
Definition start_begin (a : ActorId) (s : Sys) : bool * Sys :=
  if bool_decide (get_status s a = Unstarted) then (true, (set_status a Starting s).2)
  else (false, guard_drop a s).

(** [start], from the return of [pre_start] to the spawn of the processing loop *)
Definition start_end (a : ActorId) (sup : option ActorId) (r : PreStart) (s : Sys) : bool * Sys :=
  match r with
  | PreFailed => (false, guard_drop a s)
  | PreKilled => (false, guard_drop a (terminate a s))
  | PreOk =>
      let '(linked, s) := match sup with Some p => link a p s | None => (true, s) end in
      if linked then (true, with_guards <[a := true]> s) else (false, guard_drop a s)
  end.

(** [processing_loop]: after [post_start], and when the message loop is over *)
Definition loop_running (a : ActorId) (s : Sys) : Sys :=
  notify_supervisor a (ActorStarted a) (set_status a Running s).2.
Definition loop_stopping (a : ActorId) (s : Sys) : Sys := (set_status a Stopping s).2.

(** ** Histories *)

Inductive sys_op :=
| ONew (n : option string)
| ONewRemote (n : option string) (a : ActorId)
| OStartBegin (a : ActorId)
| OStartEnd (a : ActorId) (sup : option ActorId) (r : PreStart)
| ORunning (a : ActorId)
| OStopping (a : ActorId)
| OFinish (a : ActorId) (e : SupervisionEvent)
| OCancel (a : ActorId)
| OLink (child sup : ActorId)
| OUnlink (child sup : ActorId)
| OTerminate (a : ActorId)
| ODrain (a : ActorId)
| OPidMonitor (a : ActorId)
| OPidDemonitor (a : ActorId)
| OPg (o : pg_op).

(** [finish] consumes the guard, and [OTerminate] is what the kill signal makes the actor do; process
    groups read the statuses of this node. *)
Definition sys_step (s : Sys) (o : sys_op) : Sys :=
  match o with
  | ONew n => (new n s).2
  | ONewRemote n a => (new_remote n a s).2
  | OStartBegin a => (start_begin a s).2
  | OStartEnd a sup r => (start_end a sup r s).2
  | ORunning a => loop_running a s
  | OStopping a => loop_stopping a s
  | OFinish a e => cleanup a (Some e) s
  | OCancel a => guard_drop a s
  | OLink c p => (link c p s).2
  | OUnlink c p => unlink c p s
  | OTerminate a => terminate a s
  | ODrain a => drain_status a s
  | OPidMonitor a => pid_monitor a s
  | OPidDemonitor a => pid_demonitor a s
  | OPg o => with_pg (λ g, run_op (λ _, get_status s) g o) s
  end.

(** The operations of a runtime: [start] runs while its guard is armed, and the id of a remote actor is
    not used again. *)
Definition op_valid (s : Sys) (o : sys_op) : Prop :=
  match o with
  | ONewRemote _ a => heap s !! a = None
  | OStartBegin a | OStartEnd a _ _ | ORunning a | OStopping a => is_Some (guards s !! a)
  | _ => True
  end.

Fixpoint valid_history (s : Sys) (ops : list sys_op) : Prop :=
  match ops with
  | [] => True
  | o :: rest => op_valid s o ∧ valid_history (sys_step s o) rest
  end.

Definition run_sys (s : Sys) (ops : list sys_op) : Sys := foldl sys_step s ops.

(** ** Updates of one actor *)

Definition exists_in (s : Sys) (a : ActorId) : Prop := is_Some (heap s !! a).

Lemma actor_update f a s b :
  actor (update f a s) b = if decide (b = a ∧ exists_in s a) then f (actor s a) else actor s b.
Proof using.
  unfold actor, update, exists_in. simpl. destruct (decide (b = a)) as [->|Hne].
  - rewrite lookup_alter_eq. destruct (heap s !! a) as [x|] eqn:Hx; simpl.
    + by rewrite decide_True.
    + rewrite decide_False; [done|]. by intros [_ [? ?]].
  - rewrite lookup_alter_ne by done. rewrite decide_False by naive_solver. done.
Qed.

Lemma exists_update f a s b : exists_in (update f a s) b ↔ exists_in s b.
Proof using. unfold exists_in, update. simpl. apply lookup_alter_is_Some. Qed.

Lemma status_exists s a : get_status s a ≠ Stopped → exists_in s a.
Proof using.
  unfold get_status, actor, exists_in. destruct (heap s !! a); [by eexists|]. done.
Qed.

Lemma children_exists s a cs : children_of s a = Some cs → exists_in s a.
Proof using. unfold children_of, actor, exists_in. destruct (heap s !! a); [by eexists|]. done. Qed.

Lemma supervisor_exists s a p : supervisor_of s a = Some p → exists_in s a.
Proof using. unfold supervisor_of, actor, exists_in. destruct (heap s !! a); [by eexists|]. done. Qed.

(** Only the supervision tree and the signal ports differ. *)
Record same_but_tree (s s' : Sys) : Prop := {
  b_exists a : exists_in s' a ↔ exists_in s a;
  b_name a : name (actor s' a) = name (actor s a);
  b_status a : get_status s' a = get_status s a;
  b_next : next_id s' = next_id s;
  b_names : names s' = names s;
  b_pids : pids s' = pids s;
  b_listeners : pid_listeners s' = pid_listeners s;
  b_pg : pg s' = pg s;
  b_guards : guards s' = guards s;
  b_events : events s' = events s;
  b_woken : woken s' = woken s
}.

#[local] Instance same_but_tree_preorder : PreOrder same_but_tree.
Proof using.
  split; [done|]. intros x y z [A1 A2 A3 A4 A5 A6 A7 A8 A9 A10 A11] [B1 B2 B3 B4 B5 B6 B7 B8 B9 B10 B11].
  split; [intros a; by rewrite B1|intros a; by rewrite B2|intros a; by rewrite B3|congruence..].
Qed.

Lemma same_but_tree_update f a s :
  (∀ x, name (f x) = name x ∧ status (f x) = status x) → same_but_tree s (update f a s).
Proof using.
  intros Hf. split; try done; intros b; [apply exists_update|..];
    unfold get_status; rewrite actor_update; case_decide as Hd; try done; destruct Hd as [-> _]; apply Hf.
Qed.

Lemma children_update f a s b :
  exists_in s a →
  children_of (update f a s) b = if decide (b = a) then children (tree (f (actor s a))) else children_of s b.
Proof using.
  intros Ha. unfold children_of. rewrite actor_update. destruct (decide (b = a)) as [->|Hne].
  - by rewrite decide_True.
  - by rewrite decide_False by naive_solver.
Qed.

Lemma supervisor_update f a s b :
  exists_in s a →
  supervisor_of (update f a s) b = if decide (b = a) then supervisor (tree (f (actor s a))) else supervisor_of s b.
Proof using.
  intros Ha. unfold supervisor_of. rewrite actor_update. destruct (decide (b = a)) as [->|Hne].
  - by rewrite decide_True.
  - by rewrite decide_False by naive_solver.
Qed.

Lemma set_children_effect cs a s :
  exists_in s a →
  (∀ b, children_of (update (set_children cs) a s) b = if decide (b = a) then cs else children_of s b) ∧
  (∀ b, supervisor_of (update (set_children cs) a s) b = supervisor_of s b).
Proof using.
  intros Ha. split; intros b; [by rewrite children_update|]. rewrite supervisor_update by done. simpl.
  case_decide; by subst.
Qed.

Lemma set_supervisor_effect p a s :
  exists_in s a →
  (∀ b, supervisor_of (update (set_supervisor p) a s) b = if decide (b = a) then p else supervisor_of s b) ∧
  (∀ b, children_of (update (set_supervisor p) a s) b = children_of s b).
Proof using.
  intros Ha. split; intros b; [by rewrite supervisor_update|]. rewrite children_update by done. simpl.
  case_decide; by subst.
Qed.

(** ** The supervision tree *)

Definition is_child (s : Sys) (p c : ActorId) : Prop := ∃ cs, children_of s p = Some cs ∧ c ∈ cs.

(** The children sets and the supervisor links are inverse of each other. *)
Definition tree_ok (s : Sys) : Prop := ∀ c p, supervisor_of s c = Some p ↔ is_child s p c.

Lemma is_child_set cs a s q d :
  exists_in s a →
  is_child (update (set_children (Some cs)) a s) q d ↔ (q = a ∧ d ∈ cs) ∨ (q ≠ a ∧ is_child s q d).
Proof using.
  intros Ha. destruct (set_children_effect (Some cs) a s Ha) as [C _]. unfold is_child. setoid_rewrite C.
  destruct (decide (q = a)); naive_solver.
Qed.

Lemma is_child_of s a cs d : children_of s a = Some cs → d ∈ cs ↔ is_child s a d.
Proof using. unfold is_child. naive_solver. Qed.

Lemma link_same c p s : same_but_tree s (link c p s).2.
Proof using.
  unfold link. destruct (_ || _); [done|]. destruct (children_of s p) as [cs|]; [|done].
  assert (same_but_tree s (update (set_children (Some ({[c]} ∪ cs))) p s)) as H1 by (by apply same_but_tree_update).
  case_bool_decide; [done|]. set (s1 := update _ p s) in *.
  assert (same_but_tree s (update (set_supervisor (Some p)) c s1)) as H2 by (etrans; [exact H1|by apply same_but_tree_update]).
  destruct (supervisor_of s1 c) as [q|]; [|done]. destruct (children_of _ q); [|done].
  etrans; [exact H2|]. by apply same_but_tree_update.
Qed.

Lemma unlink_same c p s : same_but_tree s (unlink c p s).
Proof using.
  unfold unlink. case_bool_decide; [|done]. etrans; [|by apply same_but_tree_update].
  destruct (children_of s p); [by apply same_but_tree_update|done].
Qed.

Lemma unlink_ok c p s : tree_ok s → tree_ok (unlink c p s).
Proof using.
  unfold tree_ok. intros Ht. unfold unlink. case_bool_decide as Hs; [|done].
  pose proof (supervisor_exists _ _ _ Hs) as Hc. destruct (proj1 (Ht c p) Hs) as (cs & Hcs & Hin).
  rewrite Hcs. pose proof (children_exists _ _ _ Hcs) as Hp.
  pose proof (is_child_set (cs ∖ {[c]}) p s) as C1. destruct (set_children_effect (Some (cs ∖ {[c]})) p s Hp) as [_ S1].
  set (s1 := update _ p s) in *. assert (exists_in s1 c) as Hc1 by (by apply exists_update).
  destruct (set_supervisor_effect None c s1 Hc1) as [S2 C2].
  intros d q. unfold is_child. setoid_rewrite C2. fold (is_child s1 q d).
  rewrite S2, C1, S1, elem_of_difference, elem_of_singleton, (is_child_of _ _ _ _ Hcs), <- !Ht by done.
  destruct (decide (d = c)) as [->|Hdc].
  - rewrite Hs. split; [done|]. intros [(_ & _ & ?)|(? & ?)]; congruence.
  - destruct (decide (q = p)) as [->|Hqp]; split; [by left| |by right|]; intros [(? & ? & ?)|(? & ?)]; congruence.
Qed.

Lemma link_ok c p s : tree_ok s → tree_ok (link c p s).2.
Proof using.
  unfold tree_ok. intros Ht. unfold link. destruct (_ || _) eqn:Hst; [done|]. apply orb_false_iff in Hst as [Hst _].
  assert (exists_in s c) as Hc by (apply status_exists; intros He; by rewrite He in Hst).
  destruct (children_of s p) as [cs|] eqn:Hcs; [|done]. pose proof (children_exists _ _ _ Hcs) as Hp.
  pose proof (is_child_set ({[c]} ∪ cs) p s) as C1. destruct (set_children_effect (Some ({[c]} ∪ cs)) p s Hp) as [D1 S1].
  set (s1 := update _ p s) in *. assert (exists_in s1 c) as Hc1 by (by apply exists_update).
  assert (∀ q d, is_child s1 q d ↔ is_child s q d ∨ q = p ∧ d = c) as C1'.
  { intros q d. rewrite C1, elem_of_union, elem_of_singleton, (is_child_of _ _ _ _ Hcs) by done.
    destruct (decide (q = p)) as [->|Hqp]; split.
    - intros [(_ & [->|?])|(? & _)]; [by right|by left|done].
    - intros [?|(_ & ->)]; left; split; auto.
    - intros [(? & _)|(_ & ?)]; [done|by left].
    - intros [?|(? & _)]; [by right|done]. }
  case_bool_decide as Hsup.
  { intros d q. cbn [snd]. rewrite S1 in *. rewrite C1', Ht. apply Ht in Hsup. split; [by left|].
    by intros [?|[-> ->]]. }
  destruct (set_supervisor_effect (Some p) c s1 Hc1) as [S2 C2]. set (s2 := update _ c s1) in *. rewrite S1 in Hsup |- *.
  assert (∀ q d, is_child s2 q d ↔ is_child s1 q d) as C2' by (intros q d; unfold is_child; by setoid_rewrite C2).
  destruct (supervisor_of s c) as [r|] eqn:Hr.
  - destruct (proj1 (Ht c r) Hr) as (rs & Hrs & Hin). assert (r ≠ p) as Hrp by congruence.
    assert (children_of s2 r = Some rs) as Hrs2 by (by rewrite C2, D1, decide_False).
    rewrite Hrs2. pose proof (children_exists _ _ _ Hrs2) as Hre.
    destruct (set_children_effect (Some (rs ∖ {[c]})) r s2 Hre) as [_ S3].
    intros d q. cbn [snd]. rewrite S3, S2, S1, is_child_set, elem_of_difference, elem_of_singleton by done.
    rewrite (is_child_of _ _ _ _ Hrs2), !C2', !C1', <- !Ht. destruct (decide (d = c)) as [->|Hdc].
    + rewrite Hr. split; [intros [= <-]; right; split; [done|by right]|].
      intros [(_ & _ & ?)|(? & [[= ?]|(-> & _)])]; congruence.
    + destruct (decide (q = r)) as [->|Hqr].
      * split; [intros ?; left; auto|]. intros [(_ & [?|[? _]] & _)|(? & _)]; congruence.
      * split; [intros ?; right; auto|]. intros [(? & _)|(_ & [?|(_ & ?)])]; congruence.
  - intros d q. cbn [snd]. rewrite S2, C2', C1', S1, <- Ht. destruct (decide (d = c)) as [->|Hdc].
    + rewrite Hr. split; [intros [= <-]; by right|]. intros [?|(-> & _)]; [done|done].
    + split; [by left|]. intros [?|(_ & ?)]; congruence.
Qed.

(** ** Termination of a subtree *)

(** The signal port of an actor: its sender half, and what was sent. *)
Definition port (s : Sys) (a : ActorId) : bool * bool := (signal (actor s a), signalled (actor s a)).

Lemma link_count_update f a s x :
  heap s !! a = Some x → link_count (update f a s) + child_count x = link_count s + child_count (f x).
Proof using.
  intros Hx. unfold link_count, update. simpl.
  rewrite (map_fold_delete_L (λ _ x n, child_count x + n) 0 a x (heap s)) by (done || (intros; lia)).
  rewrite (map_fold_delete_L (λ _ x n, child_count x + n) 0 a (f x) (alter f a (heap s)));
    [|intros; lia|by rewrite lookup_alter_eq, Hx].
  replace (delete a (alter f a (heap s))) with (delete a (heap s)); [lia|].
  apply map_eq. intros b. destruct (decide (b = a)) as [->|Hne]; [by rewrite !lookup_delete_eq|].
  by rewrite !lookup_delete_ne, lookup_alter_ne.
Qed.

Lemma link_count_none f a s : heap s !! a = None → link_count (update f a s) = link_count s.
Proof using.
  intros Ha. unfold link_count, update. simpl. f_equal. apply map_eq. intros b.
  destruct (decide (b = a)) as [->|]; [by rewrite lookup_alter_eq, Ha|by rewrite lookup_alter_ne].
Qed.

Lemma link_count_same f a s : (∀ x, child_count (f x) = child_count x) → link_count (update f a s) = link_count s.
Proof using.
  intros Hf. destruct (heap s !! a) as [x|] eqn:Hx; [|by apply link_count_none].
  pose proof (link_count_update f a s x Hx). rewrite Hf in *. lia.
Qed.

Lemma detach_effect p cells s :
  let s' := foldl (detach p) s cells in
  same_but_tree s s' ∧ link_count s' = link_count s ∧ (∀ a, port s' a = port s a) ∧
  (∀ q, children_of s' q = children_of s q) ∧
  ∀ c, supervisor_of s' c = if bool_decide (c ∈ cells ∧ supervisor_of s c = Some p) then None else supervisor_of s c.
Proof using.
  simpl. revert s. induction cells as [|x cells IH]; intros s.
  { by split_and!. }
  cbn [foldl]. destruct (IH (detach p s x)) as (A & B & C & D & E).
  assert (same_but_tree s (detach p s x) ∧ link_count (detach p s x) = link_count s ∧
    (∀ a, port (detach p s x) a = port s a) ∧ (∀ q, children_of (detach p s x) q = children_of s q) ∧
    (∀ c, supervisor_of (detach p s x) c = if bool_decide (c = x ∧ supervisor_of s c = Some p) then None else supervisor_of s c))
    as (A' & B' & C' & D' & E').
  { unfold detach. case_bool_decide as Hs.
    - pose proof (supervisor_exists _ _ _ Hs) as Hx. destruct (set_supervisor_effect None x s Hx) as [S1 C1].
      split_and!; [by apply same_but_tree_update|by apply link_count_same| |done|].
      + intros a. unfold port. rewrite actor_update. case_decide as Ha; [destruct Ha as [-> _]|]; done.
      + intros c. rewrite S1. destruct (decide (c = x)) as [->|]; [by rewrite bool_decide_true|].
        by rewrite bool_decide_false by naive_solver.
    - split_and!; try done. intros c. rewrite bool_decide_false; [done|]. intros [-> ?]. done. }
  split_and!; [by etrans|congruence|intros a; by rewrite C|intros q; by rewrite D|].
  intros c. rewrite E, E'. destruct (decide (supervisor_of s c = Some p)) as [Hs|Hs].
  - rewrite Hs. destruct (decide (c = x)) as [->|Hne].
    + rewrite (bool_decide_true (x = x ∧ _)) by done. rewrite (bool_decide_true (x ∈ x :: cells ∧ _)) by (split; [by left|done]).
      by case_bool_decide.
    + rewrite (bool_decide_false (c = x ∧ _)) by naive_solver.
      rewrite (bool_decide_ext (c ∈ x :: cells ∧ Some p = Some p) (c ∈ cells ∧ Some p = Some p)) by (rewrite elem_of_cons; naive_solver).
      done.
  - rewrite (bool_decide_false (c = x ∧ _)) by naive_solver. rewrite !bool_decide_false by naive_solver. done.
Qed.

Record taken (p : ActorId) (s : Sys) (cells : list ActorId) (s' : Sys) : Prop := {
  k_same : same_but_tree s s';
  k_tree : tree_ok s → tree_ok s';
  k_cells c : c ∈ cells ↔ is_child s p c;
  k_children q : children_of s' q = if decide (q = p) then None else children_of s q;
  k_supervisor c : supervisor_of s' c = if bool_decide (c ∈ cells ∧ supervisor_of s c = Some p) then None else supervisor_of s c;
  k_port a : port s' a = port s a;
  k_links : link_count s = length cells + link_count s'
}.

Lemma take_children_effect p s : let '(cells, s') := take_children p s in taken p s cells s'.
Proof using.
  unfold take_children. set (cells := match children_of s p with Some cs => hs_iter cs | None => [] end).
  assert (∀ c, c ∈ cells ↔ is_child s p c) as Hcells.
  { intros c. unfold cells, is_child. destruct (children_of s p) as [cs|].
    - rewrite elem_of_hs_iter. naive_solver.
    - split; [by intros ?%not_elem_of_nil|naive_solver]. }
  destruct (detach_effect p cells (update (set_children None) p s)) as (A & B & C & D & E).
  set (s1 := update (set_children None) p s) in *. set (s' := foldl (detach p) s1 cells) in *.
  assert (∀ q, children_of s1 q = if decide (q = p) then None else children_of s q) as C1.
  { intros q. destruct (decide (exists_in s p)) as [Hp|Hp]; [by apply set_children_effect|].
    unfold s1, children_of. rewrite actor_update, decide_False by naive_solver. case_decide; [subst q|done].
    destruct (children (tree (actor s p))) eqn:He; [|done]. exfalso. by apply Hp, (children_exists _ _ g). }
  assert (∀ c, supervisor_of s1 c = supervisor_of s c) as S1.
  { intros c. unfold s1, supervisor_of. rewrite actor_update. case_decide as Hd; [by destruct Hd as [-> _]|done]. }
  split; [|..|done| | | |].
  - transitivity s1; [by apply same_but_tree_update|exact A].
  - unfold tree_ok. intros Ht c q. rewrite E, S1. unfold is_child. setoid_rewrite D. setoid_rewrite C1.
    fold (is_child s q c). destruct (decide (q = p)) as [->|Hqp].
    + split; [|naive_solver]. case_bool_decide as Hb; [done|]. intros Hs. exfalso. apply Hb. split; [|done]. by apply Hcells, Ht.
    + rewrite <- (Ht c q). case_bool_decide as Hb; [|done]. destruct Hb as [_ Hb]. split; [done|congruence].
  - intros q. by rewrite D.
  - intros c. by rewrite E, S1.
  - intros a. rewrite C. unfold port, s1. rewrite actor_update. case_decide as Hd; [by destruct Hd as [-> _]|done].
  - rewrite B. unfold s1, cells. unfold children_of, actor. destruct (heap s !! p) as [x|] eqn:Hx; simpl.
    + pose proof (link_count_update (set_children None) p s x Hx) as Hl.
      assert (child_count (set_children None x) = 0) as H0 by done. rewrite H0 in Hl. unfold child_count in Hl.
      destruct (children (tree x)) as [cs|]; simpl; [rewrite length_hs_iter|]; lia.
    + symmetry. by apply link_count_none.
Qed.

Lemma kill_effect a s :
  same_but_tree s (kill a s) ∧ link_count (kill a s) = link_count s ∧
  (∀ q, children_of (kill a s) q = children_of s q) ∧ (∀ c, supervisor_of (kill a s) c = supervisor_of s c) ∧
  ∀ b, port (kill a s) b = if decide (b = a) then (false, signal (actor s a) || signalled (actor s a)) else port s b.
Proof using.
  unfold kill. split_and!.
  - apply same_but_tree_update. intros x. by destruct (signal x).
  - apply link_count_same. intros x. by destruct (signal x).
  - intros q. unfold children_of. rewrite actor_update. case_decide as Hd; [destruct Hd as [-> _]|done]. by destruct (signal _).
  - intros q. unfold supervisor_of. rewrite actor_update. case_decide as Hd; [destruct Hd as [-> _]|done]. by destruct (signal _).
  - intros b. unfold port. rewrite actor_update. destruct (decide (b = a)) as [->|Hne].
    + destruct (decide (exists_in s a)) as [He|He].
      * rewrite decide_True by done. by destruct (signal (actor s a)) eqn:Hs; rewrite ?Hs.
      * rewrite decide_False by naive_solver. unfold actor. destruct (heap s !! a) eqn:Hx; [|done]. exfalso. apply He. by eexists.
    + by rewrite decide_False by naive_solver.
Qed.

(** Actors below [a], itself included. *)
Definition below (s : Sys) (a : ActorId) : ActorId → Prop := rtc (is_child s) a.

(** The loop of [terminate], started at [a] in [s0], after the actors [D]. *)
Record term_inv (a : ActorId) (s0 : Sys) (D : gset ActorId) (pending : list ActorId) (s : Sys) : Prop := {
  w_same : same_but_tree s0 s;
  w_tree : tree_ok s;
  w_children q : children_of s q = if decide (q ∈ D) then None else children_of s0 q;
  w_supervisor c : supervisor_of s c = match supervisor_of s0 c with
                                       | Some p => if decide (p ∈ D) then None else Some p
                                       | None => None
                                       end;
  w_port b : port s b = if decide (b ∈ D ∧ status_le (get_status s0 b) Upgrading = true)
                        then (false, signal (actor s0 b) || signalled (actor s0 b)) else port s0 b;
  w_start : a ∈ D ∨ a ∈ pending;
  w_closed d c : d ∈ D → is_child s0 d c → c ∈ D ∨ c ∈ pending;
  w_below d : d ∈ D ∨ d ∈ pending → below s0 a d
}.

Lemma term_inv_step a s0 D b rest s :
  tree_ok s0 → term_inv a s0 D (b :: rest) s →
  let s1 := if status_le (get_status s b) Upgrading then kill b s else s in
  let '(cells, s2) := take_children b s1 in
  term_inv a s0 ({[b]} ∪ D) (cells ++ rest) s2 ∧ link_count s = length cells + link_count s2.
Proof using.
  intros Ht0 [W1 W2 W3 W4 W5 W6 W7 W8] s1.
  assert (same_but_tree s s1 ∧ link_count s1 = link_count s ∧ (∀ q, children_of s1 q = children_of s q) ∧
    (∀ c, supervisor_of s1 c = supervisor_of s c) ∧
    ∀ d, port s1 d = if decide (d = b ∧ status_le (get_status s0 b) Upgrading = true)
                     then (false, signal (actor s b) || signalled (actor s b)) else port s d)
    as (K1 & K2 & K3 & K4 & K5).
  { unfold s1. rewrite (b_status _ _ W1). destruct (status_le (get_status s0 b) Upgrading).
    - destruct (kill_effect b s) as (A & B & C & D' & E). split_and!; try done. intros d. rewrite E.
      destruct (decide (d = b)); [by rewrite decide_True|by rewrite decide_False by naive_solver].
    - split_and!; try done. intros d. by rewrite decide_False by naive_solver. }
  assert (tree_ok s1) as Ht1.
  { unfold tree_ok, is_child. intros c q. rewrite K4. setoid_rewrite K3. apply W2. }
  pose proof (take_children_effect b s1) as HT. destruct (take_children b s1) as [cells s2].
  destruct HT as [T1 T2 T3 T4 T5 T6 T7]. split; [|lia]. specialize (T2 Ht1).
  assert (∀ c, c ∈ cells ↔ ¬ (b ∈ D) ∧ is_child s0 b c) as Hcells.
  { intros c. rewrite T3. unfold is_child. setoid_rewrite K3. setoid_rewrite W3. destruct (decide (b ∈ D)); naive_solver. }
  split.
  - etrans; [exact W1|]. by etrans.
  - done.
  - intros q. rewrite T4, K3, W3. destruct (decide (q = b)) as [->|Hq].
    + by rewrite decide_True by set_solver.
    + destruct (decide (q ∈ D)); [by rewrite decide_True by set_solver|by rewrite decide_False by set_solver].
  - intros c. rewrite T5, K4, W4. destruct (supervisor_of s0 c) as [p|] eqn:Hp; [|by case_bool_decide].
    destruct (decide (p ∈ D)) as [Hpd|Hpd]; [rewrite decide_True by set_solver; by case_bool_decide|].
    destruct (decide (p = b)) as [->|Hpb].
    + rewrite decide_True by set_solver. rewrite bool_decide_true; [done|]. split; [|done]. apply Hcells. split; [done|by apply Ht0].
    + rewrite decide_False by set_solver. rewrite bool_decide_false; [done|]. intros [_ [= ?]]. done.
  - intros d. rewrite T6, K5. pose proof (W5 b) as Wb. destruct (decide (d = b)) as [->|Hdb].
    + destruct (status_le (get_status s0 b) Upgrading) eqn:Hst.
      * rewrite decide_True, (decide_True (P := b ∈ {[b]} ∪ D ∧ true = true)) by (done || set_solver).
        destruct (decide (b ∈ D)); [rewrite decide_True in Wb by done|rewrite decide_False in Wb by (by intros [? _])];
          unfold port in Wb; injection Wb as Wb1 Wb2; by rewrite Wb1, Wb2.
      * rewrite (W5 b), Hst. rewrite !decide_False by (by intros [_ ?]). done.
    + rewrite decide_False by (by intros [? _]). rewrite W5. destruct (decide (d ∈ D ∧ status_le (get_status s0 d) Upgrading = true)) as [[? ?]|Hn].
      * rewrite decide_True; [done|]. split; [set_solver|done].
      * rewrite decide_False; [done|]. intros [? ?]. apply Hn. split; [set_solver|done].
  - set_solver.
  - intros d c Hd Hc. destruct (decide (d ∈ D)) as [HdD|HdD].
    + destruct (W7 d c HdD Hc); [set_solver|]. set_solver.
    + assert (d = b) as -> by set_solver. right. apply elem_of_app. left. apply Hcells. done.
  - intros d Hd. assert (is_child s0 b d ∨ (d ∈ D ∨ d ∈ b :: rest)) as [Hc|Ho].
    { destruct Hd as [Hd|[[_ Hd]%Hcells|Hd]%elem_of_app]; set_solver. }
    + eapply rtc_r; [apply W8; right; by left|done].
    + by apply W8.
Qed.

(** The worklist runs dry within one step per pending actor and per linked child. *)
Lemma terminate_loop_inv a s0 fuel D pending s :
  tree_ok s0 → term_inv a s0 D pending s → length pending + link_count s ≤ fuel →
  ∃ D' s', terminate_loop fuel pending s = Some s' ∧ term_inv a s0 D' [] s'.
Proof using.
  intros Ht0. revert D pending s. induction fuel as [|fuel IH]; intros D [|b rest] s Hw Hf;
    cbn [terminate_loop length] in *; eauto; [lia|].
  pose proof (term_inv_step a s0 D b rest s Ht0 Hw) as Hs. cbv zeta in Hs.
  destruct (take_children b _) as [cells s2]. destruct Hs as [Hw' Hl]. eapply IH; [exact Hw'|]. rewrite length_app. lia.
Qed.

Record terminated (a : ActorId) (s s' : Sys) : Prop := {
  x_same : same_but_tree s s';
  x_tree : tree_ok s';
  x_below d : below s a d → children_of s' d = None ∧
    (status_le (get_status s d) Upgrading = true → port s' d = (false, signal (actor s d) || signalled (actor s d)));
  x_other d : ¬ below s a d → children_of s' d = children_of s d ∧ port s' d = port s d;
  x_supervisor c : supervisor_of s' c = None ∧ (∀ p, supervisor_of s c = Some p → below s a p) ∨
                   supervisor_of s' c = supervisor_of s c ∧ (∀ p, supervisor_of s c = Some p → ¬ below s a p)
}.

Lemma terminate_effect a s :
  tree_ok s → terminate_loop (1 + link_count s) [a] s = Some (terminate a s) ∧ terminated a s (terminate a s).
Proof using.
  intros Ht. assert (term_inv a s ∅ [a] s) as W0.
  { split; [done|done|..].
    - intros q. rewrite decide_False; [done|]. apply not_elem_of_empty.
    - intros c. destruct (supervisor_of s c) as [p|]; [|done]. rewrite decide_False; [done|]. apply not_elem_of_empty.
    - intros b. rewrite decide_False; [done|]. by intros [?%elem_of_empty _].
    - right. by left.
    - by intros d c ?%elem_of_empty.
    - intros d [?%elem_of_empty| ->%list_elem_of_singleton]; [done|]. apply rtc_refl. }
  destruct (terminate_loop_inv a s (1 + link_count s) ∅ [a] s Ht W0) as (D & s' & Hl & W); [simpl; lia|].
  assert (terminate a s = s') as -> by (unfold terminate; by rewrite Hl). split; [done|].
  destruct W as [W1 W2 W3 W4 W5 W6 W7 W8].
  assert (∀ d, d ∈ D ↔ below s a d) as HD.
  { intros d. split; [intros ?; apply W8; by left|]. revert d. apply (rtc_ind_r (λ d, d ∈ D)).
    - destruct W6 as [?|?%not_elem_of_nil]; done.
    - intros d e _ Hc IH. destruct (W7 d e IH Hc) as [?|?%not_elem_of_nil]; done. }
  split; try done.
  - intros d Hd%HD. rewrite W3, decide_True by done. split; [done|]. intros Hst. by rewrite W5, decide_True.
  - intros d Hd. rewrite <- HD in Hd. rewrite W3, W5, !decide_False by naive_solver. done.
  - intros c. rewrite W4. destruct (supervisor_of s c) as [p|]; [|by left].
    destruct (decide (p ∈ D)) as [Hp|Hp]; [left|right]; (split; [done|]); intros q [= <-]; by rewrite <- HD.
Qed.
End sys.
