(* ===== verification/Lifecycle.v ===== *)
(** The lifecycle of actors on a node: invariants of every history of Actors.v, and what they give for
    the registries, the supervision tree, termination and clean-up. *)

From S2P Require Import Prelude ActorTypes Pg Actors.

Definition live (s : Sys) (a : ActorId) : Prop := status_le Stopping (get_status s a) = false.

Lemma live_exists s a : live s a → exists_in s a.
Proof. intros Hl. apply status_exists. intros He. unfold live in Hl. by rewrite He in Hl. Qed.

Lemma not_live s a : ¬ live s a → status_le Stopping (get_status s a) = true.
Proof. unfold live. by destruct (status_le _ _). Qed.

Section lifecycle.
Context `{!HashSetIter ActorId} `{!HashSetIter ScopeGroupKey}.

(** The registries, the process groups and the tree agree with the actors.  [anon]: no remote actor was
    given a name. *)
Record core (anon : bool) (s : Sys) : Prop := {
  r_name n a : names s !! n = Some a → name (actor s a) = Some n ∧ is_local a = true ∧ live s a;
  r_named a n : anon = true → is_local a = true → live s a → name (actor s a) = Some n → names s !! n = Some a;
  r_pid a : a ∈ pids s ↔ is_local a = true ∧ live s a;
  r_pg : pg_inv (pg s);
  r_gone a : ¬ live s a → actor_relations (pg s) !! a = None;
  r_fresh n : exists_in s (Local n) → (n < next_id s)%N;
  r_remote a : anon = true → is_local a = false → name (actor s a) = None;
  r_tree : tree_ok s
}.

(** What [core] depends on. *)
Lemma core_ext anon s s' :
  (∀ a, exists_in s' a ↔ exists_in s a) → (∀ a, name (actor s' a) = name (actor s a)) →
  (∀ a, live s' a ↔ live s a) → names s' = names s → pids s' = pids s → pg s' = pg s → next_id s' = next_id s →
  tree_ok s' → core anon s → core anon s'.
Proof using.
  intros E1 E2 E3 E4 E5 E6 E7 Ht [C1 C2 C3 C4 C5 C6 C7 C8].
  split; intros *; rewrite ?E1, ?E2, ?E3, ?E4, ?E5, ?E6, ?E7; eauto.
Qed.

Lemma core_same anon s s' : same_but_tree s s' → tree_ok s' → core anon s → core anon s'.
Proof using.
  intros [B1 B2 B3 B4 B5 B6 B7 B8 B9 B10 B11] Ht. apply core_ext; try done. intros a. unfold live. by rewrite B3.
Qed.

(** Every field that matters is the same. *)
Lemma core_heap anon s s' :
  heap s' = heap s → names s' = names s → pids s' = pids s → pg s' = pg s → next_id s' = next_id s →
  core anon s → core anon s'.
Proof using.
  intros Eh En Ep Eg Ei Hc.
  assert (∀ a, actor s' a = actor s a) as Ea by (intros a; unfold actor; by rewrite Eh).
  apply (core_ext anon s); try done.
  - intros a. unfold exists_in. by rewrite Eh.
  - intros a. by rewrite Ea.
  - intros a. unfold live, get_status. by rewrite Ea.
  - unfold tree_ok, is_child, supervisor_of, children_of. setoid_rewrite Ea. apply (r_tree _ _ Hc).
Qed.

(** ** Status changes *)

Definition crossing (previous st : ActorStatus) : bool := status_le Stopping st && negb (status_le Stopping previous).

(** What [set_status] does. *)
Record status_set (a : ActorId) (st : ActorStatus) (s s' : Sys) : Prop := {
  h_actor b : actor s' b = if decide (b = a ∧ exists_in s a) then set_actor_status (max_status (get_status s a) st) (actor s a) else actor s b;
  h_exists b : exists_in s' b ↔ exists_in s b;
  h_names : names s' = match name (actor s a) with
                       | Some n => if crossing (get_status s a) st then delete n (names s) else names s
                       | None => names s
                       end;
  h_pids b : b ∈ pids s' ↔ b ∈ pids s ∧ ¬ (b = a ∧ is_local a = true ∧ crossing (get_status s a) st = true);
  h_pg : pg s' = if crossing (get_status s a) st then shutdown a (pg s) else pg s;
  h_guards : guards s' = guards s;
  h_next : next_id s' = next_id s;
  h_woken : woken s' = woken s ++ (if bool_decide (st = Stopped) && negb (status_le Stopped (get_status s a)) then [a] else []);
  h_listeners : pid_listeners s' = if crossing (get_status s a) st then pid_listeners s ∖ {[a]} else pid_listeners s;
  h_events : events s' = events s ++ (if crossing (get_status s a) st && is_local a && bool_decide (a ∈ pids s)
                                      then (λ l, (l, PidTerminate a)) <$> hs_iter (pid_listeners s ∖ {[a]}) else [])
}.

Lemma set_status_effect a st s : status_set a st s (set_status a st s).2.
Proof using.
  unfold set_status. set (s1 := update _ a s).
  assert (∀ b, actor s1 b = if decide (b = a ∧ exists_in s a) then set_actor_status (max_status (get_status s a) st) (actor s a) else actor s b) as A1.
  { intros b. unfold s1. by rewrite actor_update. }
  assert (name (actor s1 a) = name (actor s a)) as N1 by (rewrite A1; by case_decide).
  assert (∀ b, exists_in s1 b ↔ exists_in s b) as X1 by (intros b; apply exists_update).
  fold (crossing (get_status s a) st). simpl.
  set (s2 := if crossing (get_status s a) st then _ else s1).
  set (s3 := if bool_decide (st = Stopped) && negb (status_le Stopped (get_status s a)) then wake a s2 else s2).
  assert (heap s2 = heap s1) as Hh2.
  { unfold s2. destruct (crossing _ _); [|done]. unfold unregister_pid. simpl. repeat case_match; done. }
  assert (heap s3 = heap s1) as Hh3 by (unfold s3; case_match; by rewrite <- Hh2).
  assert (∀ b, actor s3 b = actor s1 b) as A3 by (intros b; unfold actor; by rewrite Hh3).
  assert (names s3 = names s2 ∧ pids s3 = pids s2 ∧ pg s3 = pg s2 ∧ guards s3 = guards s2 ∧ next_id s3 = next_id s2 ∧
          pid_listeners s3 = pid_listeners s2 ∧ events s3 = events s2) as (E1 & E2 & E3 & E4 & E5 & E6 & E7).
  { unfold s3. by case_match. }
  assert (name (actor (unregister_pid a (pid_demonitor a s1)) a) = name (actor s a)) as N2.
  { rewrite <- N1. unfold unregister_pid. by case_match. }
  split.
  - intros b. by rewrite A3.
  - intros b. unfold exists_in. rewrite Hh3. apply X1.
  - rewrite E1. unfold s2. destruct (crossing _ _); [|by destruct (name (actor s a))]. rewrite N2. unfold unregister_pid.
    destruct (name (actor s a)); by repeat case_match.
  - intros b. rewrite E2. unfold s2. destruct (crossing _ _); [|naive_solver]. rewrite N2.
    transitivity (b ∈ pids (unregister_pid a (pid_demonitor a s1))); [by destruct (name (actor s a))|].
    unfold unregister_pid. simpl. destruct (is_local a); simpl; [|naive_solver].
    case_bool_decide as Hp; simpl; [set_solver|]. split; [|naive_solver]. intros Hb. split; [done|]. intros [-> _]. done.
  - rewrite E3. unfold s2. destruct (crossing _ _); [|done]. simpl. unfold unregister_pid. by repeat case_match.
  - rewrite E4. unfold s2. destruct (crossing _ _); [|done]. simpl. unfold unregister_pid. by repeat case_match.
  - rewrite E5. unfold s2. destruct (crossing _ _); [|done]. simpl. unfold unregister_pid. by repeat case_match.
  - assert (woken s2 = woken s) as W2.
    { unfold s2. destruct (crossing _ _); [|done]. simpl. unfold unregister_pid. by repeat case_match. }
    unfold s3. case_match; simpl; rewrite W2; [done|by rewrite app_nil_r].
  - rewrite E6. unfold s2. destruct (crossing _ _); [|done]. simpl. unfold unregister_pid. by repeat case_match.
  - rewrite E7. unfold s2. destruct (crossing _ _); simpl; [|by rewrite app_nil_r]. rewrite N2.
    transitivity (events (unregister_pid a (pid_demonitor a s1))); [by destruct (name (actor s a))|].
    unfold unregister_pid. simpl. destruct (is_local a); simpl; [|by rewrite app_nil_r].
    case_bool_decide; simpl; [done|by rewrite app_nil_r].
Qed.

Lemma status_after a st s s' b :
  status_set a st s s' → get_status s' b = if decide (b = a ∧ exists_in s a) then max_status (get_status s a) st else get_status s b.
Proof using. intros H. unfold get_status at 1. rewrite (h_actor _ _ _ _ H). by case_decide. Qed.

Lemma tree_after a st s s' : status_set a st s s' →
  (∀ b, children_of s' b = children_of s b) ∧ (∀ b, supervisor_of s' b = supervisor_of s b) ∧ (∀ b, name (actor s' b) = name (actor s b)).
Proof using.
  intros H. split_and!; intros b; unfold children_of, supervisor_of; rewrite (h_actor _ _ _ _ H);
    (case_decide as Hd; [destruct Hd as [-> _]|]; done).
Qed.

Lemma tree_ok_same s s' :
  (∀ b, children_of s' b = children_of s b) → (∀ b, supervisor_of s' b = supervisor_of s b) → tree_ok s → tree_ok s'.
Proof using. intros E1 E2 Ht c p. unfold is_child. rewrite E2. setoid_rewrite E1. apply Ht. Qed.

Lemma live_after a st s s' b :
  status_set a st s s' → live s' b ↔ live s b ∧ ¬ (b = a ∧ crossing (get_status s a) st = true).
Proof using.
  intros H. unfold live. rewrite (status_after _ _ _ _ b H). case_decide as Hd.
  - destruct Hd as [-> _]. unfold crossing, max_status. destruct (get_status s a), st; vm_compute; naive_solver.
  - split; [|naive_solver]. intros Hl. split; [done|]. intros [-> _]. apply Hd. split; [done|by apply live_exists].
Qed.

(** A status function that does not move is one that moves forward only. *)
Lemma constant_forward (f : ActorId → ActorStatus) : status_forward (λ _, f).
Proof using. intros t t' a _. unfold status_le. apply Z.leb_le. lia. Qed.

Lemma shutdown_gone (f : ActorId → ActorStatus) a b g :
  pg_inv g → status_le Stopping (f b) = true → actor_relations g !! b = None → actor_relations (shutdown a g) !! b = None.
Proof using.
  intros Hg Hb Hn. apply (run_op_stopped (λ _, f) (constant_forward f) b g (OpShutdown a)); [done|by intros|done].
Qed.

Lemma core_set_status anon a st s : core anon s → core anon (set_status a st s).2.
Proof using.
  intros [C1 C2 C3 C4 C5 C6 C7 C8]. pose proof (set_status_effect a st s) as H. set (s' := (set_status a st s).2) in *.
  destruct (tree_after _ _ _ _ H) as (T1 & T2 & T3). pose proof (λ b, live_after _ _ _ _ b H) as Hl.
  destruct (crossing (get_status s a) st) eqn:Hcr.
  - assert (live s a) as Ha.
    { unfold crossing in Hcr. unfold live. apply andb_true_iff in Hcr as [_ Hcr]. by apply negb_true_iff in Hcr. }
    pose proof (h_names _ _ _ _ H) as Hn. pose proof (h_pg _ _ _ _ H) as Hg. rewrite Hcr in Hn, Hg.
    destruct (shutdown_effect a (pg s) C4) as (G1 & _ & G3). split.
    + intros n b Hb. assert (names s !! n = Some b ∧ name (actor s a) ≠ Some n) as [Hb' Hna].
      { rewrite Hn in Hb. destruct (name (actor s a)) as [m|]; [|done].
        apply lookup_delete_Some in Hb as [? ?]. split; [done|congruence]. }
      destruct (C1 n b Hb') as (? & ? & ?). rewrite T3, Hl. split_and!; try done. intros [-> _]. done.
    + intros b n Han Hloc [Hlb Hba]%Hl Hnm. rewrite T3 in Hnm. pose proof (C2 b n Han Hloc Hlb Hnm) as Hb.
      rewrite Hn. destruct (name (actor s a)) as [m|] eqn:Hm; [|done]. apply lookup_delete_Some. split; [|done]. intros ->.
      destruct (is_local a) eqn:Hla; [|by rewrite C7 in Hm]. pose proof (C2 a n Han Hla Ha Hm). apply Hba. split; congruence.
    + intros b. rewrite (h_pids _ _ _ _ H), C3, Hl, Hcr. destruct (decide (b = a)) as [->|]; naive_solver.
    + by rewrite Hg.
    + intros b Hb. rewrite Hg. destruct (decide (b = a)) as [->|Hne]; [done|].
      assert (¬ live s b) as Hb'. { intros ?. apply Hb, Hl. split; [done|]. by intros [? _]. }
      apply (shutdown_gone (get_status s)); [done|by apply not_live|by apply C5].
    + intros n. rewrite (h_exists _ _ _ _ H), (h_next _ _ _ _ H). apply C6.
    + intros b Han Hloc. rewrite T3. by apply C7.
    + by apply (tree_ok_same s).
  - pose proof (h_names _ _ _ _ H) as Hn. pose proof (h_pg _ _ _ _ H) as Hg. rewrite Hcr in Hn, Hg.
    assert (∀ b, live s' b ↔ live s b) as Hl' by (intros b; rewrite Hl; naive_solver).
    assert (names s' = names s) as Hn' by (rewrite Hn; by destruct (name (actor s a))). split.
    + intros n b. rewrite Hn', T3, Hl'. apply C1.
    + intros b n. rewrite Hn', T3, Hl'. apply C2.
    + intros b. rewrite (h_pids _ _ _ _ H), Hl', C3, Hcr. naive_solver.
    + by rewrite Hg.
    + intros b. rewrite Hg, Hl'. apply C5.
    + intros n. rewrite (h_exists _ _ _ _ H), (h_next _ _ _ _ H). apply C6.
    + intros b Han Hloc. rewrite T3. by apply C7.
    + by apply (tree_ok_same s).
Qed.

(** ** Operations on the tree never open a closed set *)

(** [s'] has no more open sets and no more supervised actors than [s], stopped actors at least. *)
Record no_reopen (s s' : Sys) : Prop := {
  n_children a : children_of s a = None → children_of s' a = None;
  n_supervisor a : get_status s a = Stopped → supervisor_of s a = None → supervisor_of s' a = None
}.

Lemma link_no_reopen c p s : no_reopen s (link c p s).2.
Proof using.
  unfold link. destruct (_ || _) eqn:Hst; [done|]. apply orb_false_iff in Hst as [Hst _].
  assert (get_status s c ≠ Stopped) as Hcs by (intros He; by rewrite He in Hst). pose proof (status_exists _ _ Hcs) as Hc.
  destruct (children_of s p) as [cs|] eqn:Hp; [|done]. pose proof (children_exists _ _ _ Hp) as Hpe.
  destruct (set_children_effect (Some ({[c]} ∪ cs)) p s Hpe) as [C1 S1]. set (s1 := update _ p s) in *.
  assert (∀ a, children_of s a = None → children_of s1 a = None) as N1.
  { intros a Ha. rewrite C1. case_decide; [congruence|done]. }
  case_bool_decide; [split; [done|]; intros a _; by rewrite S1|].
  assert (exists_in s1 c) as Hc1 by (by apply exists_update).
  destruct (set_supervisor_effect (Some p) c s1 Hc1) as [S2 C2]. set (s2 := update _ c s1) in *.
  assert (no_reopen s s2) as N2.
  { split; [intros a; rewrite C2; apply N1|]. intros a Ha. rewrite S2, S1. case_decide; [congruence|done]. }
  destruct (supervisor_of s1 c) as [q|]; [|done]. destruct (children_of s2 q) as [qs|] eqn:Hq; [|done].
  destruct (set_children_effect (Some (qs ∖ {[c]})) q s2 (children_exists _ _ _ Hq)) as [C3 S3].
  destruct N2 as [N2 N3]. split; intros a; cbn [snd]; rewrite ?C3, ?S3; [|apply N3].
  intros Ha. apply N2 in Ha. case_decide; [congruence|done].
Qed.

Lemma unlink_no_reopen c p s : no_reopen s (unlink c p s) ∧ (∀ a, supervisor_of s a = None → supervisor_of (unlink c p s) a = None).
Proof using.
  unfold unlink. case_bool_decide as Hs; [|done]. pose proof (supervisor_exists _ _ _ Hs) as Hc.
  set (s1 := match children_of s p with Some cs => _ | None => s end).
  assert ((∀ a, children_of s a = None → children_of s1 a = None) ∧ (∀ a, supervisor_of s1 a = supervisor_of s a) ∧ exists_in s1 c)
    as (N1 & S1 & Hc1).
  { unfold s1. destruct (children_of s p) as [cs|] eqn:Hp; [|done].
    destruct (set_children_effect (Some (cs ∖ {[c]})) p s (children_exists _ _ _ Hp)) as [C1 S1].
    split_and!; [|done|by apply exists_update]. intros a Ha. rewrite C1. case_decide; [congruence|done]. }
  destruct (set_supervisor_effect None c s1 Hc1) as [S2 C2]. split; [split|]; intros a.
  - rewrite C2. apply N1.
  - intros _. rewrite S2, S1. by case_decide.
  - rewrite S2, S1. by case_decide.
Qed.

Lemma unlink_clears c p s : supervisor_of s c = Some p → supervisor_of (unlink c p s) c = None.
Proof using.
  intros Hs. unfold unlink. rewrite bool_decide_true by done.
  set (s1 := match children_of s p with Some cs => _ | None => s end).
  assert (exists_in s1 c) as Hc1.
  { unfold s1. destruct (children_of s p); [apply exists_update|]; by eapply supervisor_exists. }
  destruct (set_supervisor_effect None c s1 Hc1) as [S2 _]. by rewrite S2, decide_True.
Qed.

Lemma terminate_no_reopen a s : tree_ok s →
  no_reopen s (terminate a s) ∧ (∀ b, supervisor_of s b = None → supervisor_of (terminate a s) b = None) ∧ children_of (terminate a s) a = None.
Proof using.
  intros Ht. destruct (terminate_effect a s Ht) as [_ [X1 X2 X3 X4 X5]].
  assert (∀ b, supervisor_of s b = None → supervisor_of (terminate a s) b = None) as Hs.
  { intros b Hb. destruct (X5 b) as [[? _]|[-> _]]; done. }
  split_and!; [split; [|auto]|done|apply X3, rtc_refl].
  intros b Hb. destruct (decide (children_of (terminate a s) b = None)) as [|Hn]; [done|].
  exfalso. assert (¬ below s a b) as Hnb by (intros [? _]%X3; done). destruct (X4 b Hnb) as [He _]. congruence.
Qed.

(** ** Clean-up *)

Record cleaned (a : ActorId) (event : option SupervisionEvent) (s s' : Sys) : Prop := {
  cl_status b : get_status s' b = if decide (b = a) then Stopped else get_status s b;
  cl_exists b : exists_in s' b ↔ exists_in s b;
  cl_closed : children_of s' a = None ∧ supervisor_of s' a = None;
  cl_reopen : no_reopen s s';
  cl_guards : guards s' = delete a (guards s);
  cl_woken : woken s' = woken s ++ [a];
  cl_names : names s' = match name (actor s a) with
                        | Some n => if crossing (get_status s a) Stopping then delete n (names s) else names s
                        | None => names s
                        end;
  cl_events : ∃ pids_told, events s' = events s ++ ((λ l, (l, PidTerminate a)) <$> pids_told) ++
    match event, supervisor_of (terminate a (set_status a Stopping s).2) a with
    | Some e, Some p => [(p, e)]
    | _, _ => []
    end
}.

Lemma core_emit anon l s : core anon s → core anon (emit l s).
Proof using. by apply core_heap. Qed.

(** The end of [cleanup]: give up the supervisor. *)
Lemma release_effect anon a s :
  core anon s → let s' := match supervisor_of s a with Some p => unlink a p s | None => s end in
  core anon s' ∧ same_but_tree s s' ∧ no_reopen s s' ∧ (∀ b, supervisor_of s b = None → supervisor_of s' b = None) ∧
  supervisor_of s' a = None.
Proof using.
  intros Hc. simpl. destruct (supervisor_of s a) as [p|] eqn:Hp; [|done]. destruct (unlink_no_reopen a p s) as [N1 N2].
  split_and!; [|apply unlink_same|done|done|by apply unlink_clears].
  eapply core_same; [apply unlink_same|apply unlink_ok, (r_tree _ _ Hc)|done].
Qed.

Lemma cleanup_effect anon a event s :
  core anon s → is_Some (guards s !! a) → exists_in s a → get_status s a ≠ Stopped →
  core anon (cleanup a event s) ∧ cleaned a event s (cleanup a event s).
Proof using.
  intros Hc [g Hg] Ha Hst. unfold cleanup. rewrite Hg.
  pose proof (set_status_effect a Stopping s) as H1. pose proof (core_set_status anon a Stopping s Hc) as Hc1.
  set (s1 := (set_status a Stopping s).2) in *. destruct (tree_after _ _ _ _ H1) as (T1 & U1 & _).
  pose proof (λ b, status_after _ _ _ _ b H1) as St1.
  destruct (terminate_effect a s1 (r_tree _ _ Hc1)) as [_ X]. destruct (terminate_no_reopen a s1 (r_tree _ _ Hc1)) as (R2 & S2 & K2).
  set (s2 := terminate a s1) in *. pose proof (core_same _ _ _ (x_same _ _ _ X) (x_tree _ _ _ X) Hc1) as Hc2.
  set (s3 := match event with Some e => notify_supervisor a e s2 | None => s2 end).
  assert (heap s3 = heap s2 ∧ guards s3 = guards s2 ∧ woken s3 = woken s2 ∧ events s3 = events s2 ++
    match event, supervisor_of s2 a with Some e, Some p => [(p, e)] | _, _ => [] end) as (N1 & N2 & N3 & N4).
  { unfold s3, notify_supervisor. destruct event; [destruct (supervisor_of s2 a)|]; simpl; by rewrite ?app_nil_r. }
  assert (core anon s3) as Hc3.
  { unfold s3, notify_supervisor. repeat case_match; [by apply core_emit|done|done]. }
  assert (∀ b, actor s3 b = actor s2 b) as A3 by (intros b; unfold actor; by rewrite N1).
  destruct (release_effect anon a s3 Hc3) as (Hc4 & B4 & R4 & S4 & Z4).
  set (s4 := match supervisor_of s3 a with Some p => unlink a p s3 | None => s3 end) in *.
  pose proof (set_status_effect a Stopped s4) as H5. pose proof (core_set_status anon a Stopped s4 Hc4) as Hc5.
  set (s5 := (set_status a Stopped s4).2) in *. destruct (tree_after _ _ _ _ H5) as (T5 & U5 & _).
  pose proof (λ b, status_after _ _ _ _ b H5) as St5.
  assert (∀ b, exists_in s4 b ↔ exists_in s b) as E4.
  { intros b. rewrite (b_exists _ _ B4). unfold exists_in at 1. rewrite N1. fold (exists_in s2 b).
    by rewrite (b_exists _ _ (x_same _ _ _ X)), (h_exists _ _ _ _ H1). }
  assert (∀ b, get_status s4 b = get_status s1 b) as G4.
  { intros b. rewrite (b_status _ _ B4). unfold get_status at 1. rewrite A3. apply (b_status _ _ (x_same _ _ _ X)). }
  assert (get_status s4 a = Stopping) as Ha4.
  { rewrite G4, St1, decide_True by done. unfold max_status. by destruct (get_status s a). }
  split; [by apply (core_heap anon s5)|]. split.
  - intros b. transitivity (get_status s5 b); [done|]. rewrite St5, Ha4, G4, St1. destruct (decide (b = a)) as [->|Hne].
    + by rewrite decide_True by (split; [done|by apply E4]).
    + by rewrite !decide_False by (by intros [? _]).
  - intros b. transitivity (exists_in s5 b); [done|]. by rewrite (h_exists _ _ _ _ H5), E4.
  - split; [transitivity (children_of s5 a); [done|]|transitivity (supervisor_of s5 a); [done|]].
    + rewrite T5. apply (n_children _ _ R4). unfold children_of. rewrite A3. apply K2.
    + by rewrite U5.
  - split; intros b Hb.
    + transitivity (children_of s5 b); [done|]. rewrite T5. apply (n_children _ _ R4). unfold children_of. rewrite A3.
      apply (n_children _ _ R2). by rewrite T1.
    + intros Hs. transitivity (supervisor_of s5 b); [done|]. rewrite U5. apply S4. unfold supervisor_of. rewrite A3.
      apply S2. by rewrite U1.
  - cbn [guards with_guards]. by rewrite (h_guards _ _ _ _ H5), (b_guards _ _ B4), N2, (b_guards _ _ (x_same _ _ _ X)), (h_guards _ _ _ _ H1).
  - cbn [woken with_guards]. rewrite (h_woken _ _ _ _ H5), Ha4, (b_woken _ _ B4), N3, (b_woken _ _ (x_same _ _ _ X)), (h_woken _ _ _ _ H1).
    simpl. by rewrite app_nil_r.
  - cbn [names with_guards]. rewrite (h_names _ _ _ _ H5), Ha4. change (crossing Stopping Stopped) with false.
    transitivity (names s4); [by destruct (name (actor s4 a))|]. rewrite (b_names _ _ B4), <- (h_names _ _ _ _ H1).
    rewrite <- (b_names _ _ (x_same _ _ _ X)). unfold s3, notify_supervisor. by repeat case_match.
  - cbn [events with_guards]. rewrite (h_events _ _ _ _ H5), Ha4, (b_events _ _ B4), N4, (b_events _ _ (x_same _ _ _ X)), (h_events _ _ _ _ H1).
    exists (if crossing (get_status s a) Stopping && is_local a && bool_decide (a ∈ pids s) then hs_iter (pid_listeners s ∖ {[a]}) else []).
    change (crossing Stopping Stopped) with false. cbn [andb]. rewrite app_nil_r, <- app_assoc. f_equal. f_equal.
    by destruct (crossing _ _ && _ && _).
Qed.

(** ** Creation *)

(** A new cell at an id that was not in use. *)
Record created (a : ActorId) (n : option string) (s s' : Sys) : Prop := {
  c_fresh : heap s !! a = None;
  c_heap : heap s' = <[a := actor_new n]> (heap s);
  c_pg : pg s' = pg s;
  c_next : (next_id s ≤ next_id s')%N;
  c_id : match a with Local m => (m < next_id s')%N | Remote _ _ => True end;
  c_names m b : names s' !! m = Some b ↔ names s !! m = Some b ∨ (b = a ∧ is_local a = true ∧ n = Some m);
  c_pids b : b ∈ pids s' ↔ b ∈ pids s ∨ (b = a ∧ is_local a = true)
}.

Lemma created_actor a n s s' b : created a n s s' → actor s' b = if decide (b = a) then actor_new n else actor s b.
Proof using.
  intros H. unfold actor. rewrite (c_heap _ _ _ _ H). destruct (decide (b = a)) as [->|];
    [by rewrite lookup_insert_eq|by rewrite lookup_insert_ne].
Qed.

Lemma created_exists a n s s' b : created a n s s' → exists_in s' b ↔ b = a ∨ exists_in s b.
Proof using.
  intros H. unfold exists_in. rewrite (c_heap _ _ _ _ H). destruct (decide (b = a)) as [->|];
    [rewrite lookup_insert_eq|rewrite lookup_insert_ne by done]; naive_solver.
Qed.

Lemma created_core anon a n s s' :
  created a n s s' → (anon = true → is_local a = false → n = None) → core anon s → core anon s'.
Proof using.
  intros H Hanon [C1 C2 C3 C4 C5 C6 C7 C8]. pose proof (λ b, created_actor _ _ _ _ b H) as Ha.
  assert (¬ exists_in s a) as Hna by (unfold exists_in; rewrite (c_fresh _ _ _ _ H); by intros [? ?]).
  assert (∀ b, live s' b ↔ b = a ∨ live s b) as Hl.
  { intros b. unfold live, get_status. rewrite Ha. destruct (decide (b = a)) as [->|]; naive_solver. }
  assert (∀ b, live s b → b ≠ a) as Hne by (intros b Hb ->; by apply Hna, live_exists).
  split.
  - intros m b [Hb|(-> & Hloc & ->)]%(c_names _ _ _ _ H).
    + destruct (C1 m b Hb) as (? & ? & Hlb). rewrite Ha, decide_False by (by apply Hne). split_and!; try done. apply Hl. by right.
    + rewrite Ha, decide_True by done. split_and!; try done. apply Hl. by left.
  - intros b m Han Hloc Hlb Hnm. rewrite Ha in Hnm. apply (c_names _ _ _ _ H). apply Hl in Hlb as [->|Hlb].
    + rewrite decide_True in Hnm by done. by right.
    + rewrite decide_False in Hnm by (by apply Hne). left. by apply C2.
  - intros b. rewrite (c_pids _ _ _ _ H), C3, Hl. destruct (decide (b = a)) as [->|]; naive_solver.
  - by rewrite (c_pg _ _ _ _ H).
  - intros b Hb. rewrite (c_pg _ _ _ _ H). apply C5. intros ?. apply Hb, Hl. by right.
  - intros m [<-|Hm]%(created_exists _ _ _ _ _ H); [apply (c_id _ _ _ _ H)|]. pose proof (C6 m Hm). pose proof (c_next _ _ _ _ H). lia.
  - intros b Han Hloc. rewrite Ha. case_decide; [subst b; simpl; auto|auto].
  - unfold tree_ok in *. intros c p. specialize (C8 c p). unfold supervisor_of, is_child, children_of in *. setoid_rewrite Ha.
    assert (supervisor (tree (actor s a)) = None ∧ children (tree (actor s a)) = None) as [Hs0 Hc0].
    { unfold actor. by rewrite (c_fresh _ _ _ _ H). }
    destruct (decide (c = a)) as [->|], (decide (p = a)) as [->|]; simpl in *.
    + split; [done|]. intros (cs & [= <-] & ?). set_solver.
    + by rewrite <- C8, Hs0.
    + rewrite C8, Hc0. split; [naive_solver|]. intros (cs & [= <-] & ?). set_solver.
    + done.
Qed.

Lemma new_effect anon n s :
  core anon s →
  (created (Local (next_id s)) n s (new n s).2 ∧ guards (new n s).2 = <[Local (next_id s) := false]> (guards s) ∧ woken (new n s).2 = woken s) ∨
  (core anon (new n s).2 ∧ heap (new n s).2 = heap s ∧ guards (new n s).2 = guards s ∧ woken (new n s).2 = woken s).
Proof using.
  intros Hc. set (a := Local (next_id s)). unfold new. simpl. fold a.
  set (s0 := mkSys (heap s) (N.succ (next_id s)) _ _ _ _ _ _ _).
  assert (heap s !! a = None) as Hfresh.
  { apply eq_None_not_Some. intros Hx. pose proof (r_fresh _ _ Hc (next_id s) Hx). lia. }
  assert (a ∉ pids s) as Hpid.
  { rewrite (r_pid _ _ Hc). intros [_ [x Hx]%live_exists]. congruence. }
  destruct (match n with Some nm => register nm a s0 | None => Some s0 end) as [s1|] eqn:Hr.
  - assert (heap s1 = heap s ∧ next_id s1 = N.succ (next_id s) ∧ pids s1 = pids s ∧ pg s1 = pg s ∧ guards s1 = guards s ∧ woken s1 = woken s ∧
      ∀ m b, names s1 !! m = Some b ↔ names s !! m = Some b ∨ (b = a ∧ is_local a = true ∧ n = Some m)) as (E1 & E2 & E3 & E4 & E5 & E6 & E7).
    { destruct n as [nm|]; [unfold register in Hr; destruct (names s0 !! nm) eqn:Hn; [done|]|]; simplify_eq; split_and!; try done.
      - intros m b. simpl. rewrite lookup_insert_Some. simpl in Hn. split.
        + intros [[-> <-]|[_ ?]]; [by right|by left].
        + intros [Hb|(-> & _ & [= ->])]; [|by left]. right. split; [congruence|done].
      - intros m b. naive_solver. }
    unfold register_pid. replace (is_local a) with true in * by done. rewrite bool_decide_false by (by rewrite E3).
    left. simpl. split_and!; [|by rewrite E5|by rewrite E6]. split; simpl; try done.
    + by rewrite E1.
    + rewrite E2. lia.
    + rewrite E2. lia.
    + intros b. rewrite elem_of_union, E3. set_solver.
  - right. split_and!; try done. destruct Hc as [C1 C2 C3 C4 C5 C6 C7 C8]. split; try done.
    intros m Hm. pose proof (C6 m Hm). simpl. lia.
Qed.

(** ** The invariant of a node *)

(** An actor whose guard has run is stopped and detached, its waiters were woken, once; an actor whose
    guard is armed is not stopped. *)
Record guarded (s : Sys) : Prop := {
  g_disarmed a : guards s !! a = None → get_status s a = Stopped ∧ children_of s a = None ∧ supervisor_of s a = None;
  g_armed a : is_Some (guards s !! a) → exists_in s a ∧ get_status s a ≠ Stopped;
  g_woken a : a ∈ woken s ↔ exists_in s a ∧ guards s !! a = None;
  g_once : NoDup (woken s)
}.

Definition sys_inv (anon : bool) (s : Sys) : Prop := core anon s ∧ guarded s.

Lemma guarded_ext s s' :
  (∀ a, exists_in s' a ↔ exists_in s a) → (∀ a, get_status s' a = Stopped ↔ get_status s a = Stopped) →
  guards s' = guards s → woken s' = woken s → no_reopen s s' → guarded s → guarded s'.
Proof using.
  intros E1 E2 E3 E4 [N1 N2] [G1 G2 G3 G4]. split.
  - intros a Ha. rewrite E3 in Ha. destruct (G1 a Ha) as (? & ? & ?). split_and!; [by apply E2|by apply N1|by apply N2].
  - intros a Ha. rewrite E3 in Ha. destruct (G2 a Ha). split; [by apply E1|by rewrite E2].
  - intros a. rewrite E4, E3, E1. apply G3.
  - by rewrite E4.
Qed.

Lemma guarded_heap s s' : heap s' = heap s → guards s' = guards s → woken s' = woken s → guarded s → guarded s'.
Proof using.
  intros Eh Eg Ew. assert (∀ a, actor s' a = actor s a) as Ea by (intros a; unfold actor; by rewrite Eh).
  apply guarded_ext; try done.
  - intros a. unfold exists_in. by rewrite Eh.
  - intros a. unfold get_status. by rewrite Ea.
  - split; intros a; unfold children_of, supervisor_of; by rewrite Ea.
Qed.

Lemma inv_same anon s s' : same_but_tree s s' → tree_ok s' → no_reopen s s' → sys_inv anon s → sys_inv anon s'.
Proof using.
  intros B Ht Hn [Hc Hg]. split; [by eapply core_same|]. eapply guarded_ext; [apply B| |apply B|apply B|done|done].
  intros a. by rewrite (b_status _ _ B).
Qed.

Lemma inv_heap anon s s' :
  heap s' = heap s → names s' = names s → pids s' = pids s → pg s' = pg s → next_id s' = next_id s →
  guards s' = guards s → woken s' = woken s → sys_inv anon s → sys_inv anon s'.
Proof using. intros ??????? [Hc Hg]. split; [by eapply core_heap|by eapply guarded_heap]. Qed.

(** A status below [Stopped] keeps the guards' part. *)
Lemma inv_set_status anon a st s : st ≠ Stopped → sys_inv anon s → sys_inv anon (set_status a st s).2.
Proof using.
  intros Hst [Hc Hg]. split; [by apply core_set_status|]. pose proof (set_status_effect a st s) as H.
  destruct (tree_after _ _ _ _ H) as (T1 & T2 & _). eapply guarded_ext; [..|exact Hg].
  - apply (h_exists _ _ _ _ H).
  - intros b. rewrite (status_after _ _ _ _ b H). case_decide as Hd; [|done]. destruct Hd as [-> _].
    unfold max_status. destruct (get_status s a), st; vm_compute; naive_solver.
  - apply (h_guards _ _ _ _ H).
  - rewrite (h_woken _ _ _ _ H), bool_decide_false by done. simpl. by rewrite app_nil_r.
  - split; intros b; by rewrite ?T1, ?T2.
Qed.

Lemma inv_cleanup anon a event s : sys_inv anon s → sys_inv anon (cleanup a event s).
Proof using.
  intros [Hc Hg]. destruct (guards s !! a) as [g|] eqn:Ha; [|unfold cleanup; rewrite Ha; done].
  assert (is_Some (guards s !! a)) as HaS by (by eexists). destruct (g_armed _ Hg a HaS) as [He Hst].
  destruct (cleanup_effect anon a event s Hc HaS He Hst) as [Hc' [L1 L2 [L3 L3'] [L4 L5] L6 L7 _ _]]. split; [done|].
  destruct Hg as [G1 G2 G3 G4]. split.
  - intros b Hb. rewrite L1. destruct (decide (b = a)) as [->|Hne]; [done|]. rewrite L6, lookup_delete_ne in Hb by done.
    destruct (G1 b Hb) as (? & ? & ?). split_and!; [done|by apply L4|by apply L5].
  - intros b Hb. rewrite L6 in Hb. apply lookup_delete_is_Some in Hb as [Hne Hb]. rewrite L1, decide_False by done.
    destruct (G2 b Hb). split; [by apply L2|done].
  - intros b. rewrite L7, elem_of_app, list_elem_of_singleton, G3, L2, L6. destruct (decide (b = a)) as [->|Hne].
    + rewrite lookup_delete_eq. naive_solver.
    + rewrite lookup_delete_ne by done. naive_solver.
  - rewrite L7. apply NoDup_app. split_and!; [done| |apply NoDup_singleton].
    intros b [_ Hb]%G3 ->%list_elem_of_singleton. congruence.
Qed.

Lemma inv_guard_drop anon a s : sys_inv anon s → sys_inv anon (guard_drop a s).
Proof using. intros Hi. unfold guard_drop. repeat case_match; by apply inv_cleanup. Qed.

Lemma inv_created anon a n s s' :
  created a n s s' → (anon = true → is_local a = false → n = None) →
  guards s' = <[a := false]> (guards s) → woken s' = woken s → sys_inv anon s → sys_inv anon s'.
Proof using.
  intros H Hn Eg Ew [Hc [G1 G2 G3 G4]]. split; [by eapply created_core|].
  pose proof (λ b, created_actor _ _ _ _ b H) as Ha. pose proof (λ b, created_exists _ _ _ _ b H) as Hx.
  assert (¬ exists_in s a) as Hna by (unfold exists_in; rewrite (c_fresh _ _ _ _ H); by intros [? ?]).
  split.
  - intros b Hb. rewrite Eg in Hb. apply lookup_insert_None in Hb as [Hb Hne]. destruct (G1 b Hb) as (K1 & K2 & K3).
    unfold get_status, children_of, supervisor_of. rewrite Ha, decide_False by done. done.
  - intros b Hb. rewrite Eg in Hb. unfold get_status. rewrite Ha, Hx. case_decide as Hba; [split; [by left|done]|].
    rewrite lookup_insert_ne in Hb by done. destruct (G2 b Hb). by split; [right|].
  - intros b. rewrite Ew, G3, Hx, Eg, lookup_insert_None. destruct (decide (b = a)) as [->|]; naive_solver.
  - by rewrite Ew.
Qed.

Lemma inv_terminate anon a s : sys_inv anon s → sys_inv anon (terminate a s).
Proof using.
  intros Hi. destruct Hi as [Hc Hg] eqn:HI. destruct (terminate_effect a s (r_tree _ _ Hc)) as [_ X].
  destruct (terminate_no_reopen a s (r_tree _ _ Hc)) as (R & _ & _). by eapply inv_same; [apply X|apply X|exact R|].
Qed.

Lemma inv_link anon c p s : sys_inv anon s → sys_inv anon (link c p s).2.
Proof using.
  intros Hi. apply (inv_same anon s); [apply link_same|apply link_ok, (r_tree _ _ (proj1 Hi))|apply link_no_reopen|done].
Qed.

Lemma inv_unlink anon c p s : sys_inv anon s → sys_inv anon (unlink c p s).
Proof using.
  intros Hi. apply (inv_same anon s); [apply unlink_same|apply unlink_ok, (r_tree _ _ (proj1 Hi))|apply unlink_no_reopen|done].
Qed.

Lemma inv_drain anon a s : sys_inv anon s → sys_inv anon (drain_status a s).
Proof using.
  intros [Hc Hg].
  assert (∀ b, actor (drain_status a s) b = if decide (b = a ∧ exists_in s a)
    then set_actor_status (max_status (get_status s a) Draining) (actor s a) else actor s b) as Ha by (intros b; unfold drain_status; by rewrite actor_update).
  assert (∀ b, children_of (drain_status a s) b = children_of s b ∧ supervisor_of (drain_status a s) b = supervisor_of s b ∧
    name (actor (drain_status a s) b) = name (actor s b)) as Ht.
  { intros b. unfold children_of, supervisor_of. rewrite Ha. case_decide as Hd; [destruct Hd as [-> _]|]; done. }
  assert (∀ b, (live (drain_status a s) b ↔ live s b) ∧ (get_status (drain_status a s) b = Stopped ↔ get_status s b = Stopped)) as Hs.
  { intros b. unfold live, get_status. rewrite Ha. case_decide as Hd; [destruct Hd as [-> _]|done]. simpl. unfold max_status, get_status.
    destruct (status (actor s a)); vm_compute; naive_solver. }
  split.
  - apply (core_ext anon s); try done; [intros b; apply exists_update|intros b; apply Ht|intros b; apply Hs|].
    apply (tree_ok_same s); [intros b; apply Ht|intros b; apply Ht|apply (r_tree _ _ Hc)].
  - apply (guarded_ext s); try done; [intros b; apply exists_update|intros b; apply Hs|].
    split; intros b; destruct (Ht b) as (E1 & E2 & _); by rewrite ?E1, ?E2.
Qed.

Lemma inv_pg anon o s : sys_inv anon s → sys_inv anon (with_pg (λ g, run_op (λ _, get_status s) g o) s).
Proof using.
  intros [[C1 C2 C3 C4 C5 C6 C7 C8] Hg]. split; [|by apply (guarded_heap s)]. split; try done.
  - by apply (run_op_inv (λ _, get_status s) (constant_forward (get_status s))).
  - intros a Ha. apply (run_op_stopped (λ _, get_status s) (constant_forward (get_status s))); [done| |by apply C5].
    intros _ _. by apply not_live.
Qed.

Lemma inv_arm anon a s : is_Some (guards s !! a) → sys_inv anon s → sys_inv anon (with_guards <[a := true]> s).
Proof using.
  intros Ha [Hc [G1 G2 G3 G4]]. split; [by apply (core_heap anon s)|].
  assert (∀ b, <[a := true]> (guards s) !! b = None ↔ guards s !! b = None) as Hn.
  { intros b. rewrite lookup_insert_None. destruct (decide (a = b)) as [<-|]; [|naive_solver].
    split; [naive_solver|]. intros Hx. rewrite Hx in Ha. by destruct Ha. }
  split; simpl; try done.
  - intros b Hb%Hn. by apply G1.
  - intros b Hb. apply G2. rewrite <- not_eq_None_Some in Hb |- *. by rewrite <- Hn.
  - intros b. rewrite Hn. apply G3.
Qed.

(** The names given to remote actors. *)
Definition names_remote (o : sys_op) : bool := match o with ONewRemote (Some _) _ => true | _ => false end.

Lemma inv_start_end anon a sup r s : is_Some (guards s !! a) → sys_inv anon s → sys_inv anon (start_end a sup r s).2.
Proof using.
  intros Ha Hi. unfold start_end. destruct r; [|by apply inv_guard_drop|by apply inv_guard_drop, inv_terminate].
  destruct sup as [p|]; [|by apply inv_arm]. pose proof (inv_link anon a p s Hi) as Hl. pose proof (link_same a p s) as B.
  destruct (link a p s) as [[] s1]; cbn [snd] in *; [|by apply inv_guard_drop]. apply inv_arm; [by rewrite (b_guards _ _ B)|done].
Qed.

Lemma sys_inv_step anon s o :
  op_valid s o → (anon = true → names_remote o = false) → sys_inv anon s → sys_inv anon (sys_step s o).
Proof using.
  intros Hv Hn Hi. destruct o as [n|n a|a|a sup r|a|a|a e|a|c p|c p|a|a|a|a|o]; cbn [sys_step op_valid] in *.
  - destruct (new_effect anon n s (proj1 Hi)) as [(Hc & Hg & Hw)|(Hc & Hh & Hg & Hw)].
    + by eapply inv_created.
    + split; [done|]. eapply guarded_heap; [done..|apply Hi].
  - unfold new_remote. destruct (is_local a) eqn:Hl; [done|]. cbn [snd].
    eapply (inv_created anon a n s); [|intros Han _; specialize (Hn Han); by destruct n|done|done|done].
    split; try done; [by destruct a|intros m b; rewrite Hl; naive_solver|intros b; rewrite Hl; naive_solver].
  - unfold start_begin. case_bool_decide; cbn [snd]; [by apply inv_set_status|by apply inv_guard_drop].
  - by apply inv_start_end.
  - unfold loop_running, notify_supervisor. pose proof (inv_set_status anon a Running s) as H1.
    case_match; [apply (inv_heap anon (set_status a Running s).2)|]; auto.
  - by apply inv_set_status.
  - by apply inv_cleanup.
  - by apply inv_guard_drop.
  - by apply inv_link.
  - by apply inv_unlink.
  - by apply inv_terminate.
  - by apply inv_drain.
  - by apply (inv_heap anon s).
  - by apply (inv_heap anon s).
  - by apply inv_pg.
Qed.

Lemma inv_run anon ops s :
  valid_history s ops → (anon = true → forallb (λ o, negb (names_remote o)) ops = true) →
  sys_inv anon s → sys_inv anon (run_sys s ops).
Proof using.
  revert s. induction ops as [|o ops IH]; intros s Hv Hn Hi; [done|]. destruct Hv as [Hv Hvs]. cbn [run_sys foldl].
  apply IH; [done| |].
  - intros Han. specialize (Hn Han). cbn [forallb] in Hn. by apply andb_true_iff in Hn as [_ ?].
  - apply sys_inv_step; [done| |done]. intros Han. specialize (Hn Han). cbn [forallb] in Hn.
    apply andb_true_iff in Hn as [Hn _]. by apply negb_true_iff in Hn.
Qed.

Lemma inv_init anon : sys_inv anon sys_init.
Proof using.
  split; split; try done.
  - intros a. split; [by intros ?%elem_of_empty|by intros [_ ?]].
  - apply pg_init_inv.
  - by intros n [? ?].
  - intros c p. split; [done|]. by intros (cs & ? & _).
  - by intros a [? ?].
  - intros a. split; [by intros ?%not_elem_of_nil|by intros [[? ?] _]].
  - apply NoDup_nil_2.
Qed.

(** ** A guard that has run stays run *)

Definition disarmed (a : ActorId) (s : Sys) : Prop := exists_in s a ∧ guards s !! a = None.

Lemma disarmed_same a s s' : same_but_tree s s' → disarmed a s → disarmed a s'.
Proof using. intros B [H1 H2]. split; [by apply (b_exists _ _ B)|by rewrite (b_guards _ _ B)]. Qed.

Lemma disarmed_set_status a b st s : disarmed a s → disarmed a (set_status b st s).2.
Proof using.
  intros [H1 H2]. pose proof (set_status_effect b st s) as H.
  split; [by apply (h_exists _ _ _ _ H)|by rewrite (h_guards _ _ _ _ H)].
Qed.

Lemma disarmed_cleanup anon a b event s : sys_inv anon s → disarmed a s → disarmed a (cleanup b event s).
Proof using.
  intros [Hc Hg] [H1 H2]. destruct (guards s !! b) as [g|] eqn:Hb; [|unfold cleanup; by rewrite Hb].
  assert (is_Some (guards s !! b)) as HbS by (by eexists). destruct (g_armed _ Hg b HbS) as [He Hst].
  destruct (cleanup_effect anon b event s Hc HbS He Hst) as [_ L]. split; [by apply (cl_exists _ _ _ _ L)|].
  rewrite (cl_guards _ _ _ _ L), lookup_delete_None. by right.
Qed.

Lemma disarmed_guard_drop anon a b s : sys_inv anon s → disarmed a s → disarmed a (guard_drop b s).
Proof using. intros Hi Hd. unfold guard_drop. repeat case_match; by eapply disarmed_cleanup. Qed.

Lemma disarmed_created a b n s s' :
  created b n s s' → guards s' = <[b := false]> (guards s) → disarmed a s → disarmed a s'.
Proof using.
  intros H Hg [H1 H2]. split; [apply (created_exists _ _ _ _ _ H); by right|]. rewrite Hg, lookup_insert_ne; [done|].
  intros ->. unfold exists_in in H1. rewrite (c_fresh _ _ _ _ H) in H1. by destruct H1.
Qed.

Lemma disarmed_step anon a s o : op_valid s o → sys_inv anon s → disarmed a s → disarmed a (sys_step s o).
Proof using.
  intros Hv Hi Hd. pose proof (r_tree _ _ (proj1 Hi)) as Ht.
  destruct o as [n|n b|b|b sup r|b|b|b e|b|c p|c p|b|b|b|b|o]; cbn [sys_step op_valid] in *.
  - destruct (new_effect anon n s (proj1 Hi)) as [(Hc & Hg & _)|(_ & Hh & Hg & _)]; [by eapply disarmed_created|].
    destruct Hd. split; [unfold exists_in; by rewrite Hh|by rewrite Hg].
  - unfold new_remote. destruct (is_local b) eqn:Hl; [done|]. cbn [snd]. eapply (disarmed_created a b n s); [|done|done].
    split; try done; [by destruct b|intros m x; rewrite Hl; naive_solver|intros x; rewrite Hl; naive_solver].
  - unfold start_begin. case_bool_decide; [by apply disarmed_set_status|by eapply disarmed_guard_drop].
  - assert (a ≠ b) as Hne. { intros ->. destruct Hd as [_ Hd]. rewrite Hd in Hv. by destruct Hv. }
    destruct r; cbn [start_end snd].
    + destruct sup as [p|].
      * pose proof (disarmed_same _ _ _ (link_same b p s) Hd) as Hd'. pose proof (inv_link anon b p s Hi) as Hi'.
        destruct (link b p s) as [[] s1]; cbn [snd] in *; [|by eapply disarmed_guard_drop].
        destruct Hd'. split; [done|]. simpl. by rewrite lookup_insert_ne.
      * destruct Hd. split; [done|]. simpl. by rewrite lookup_insert_ne.
    + by eapply disarmed_guard_drop.
    + eapply disarmed_guard_drop; [by apply inv_terminate|]. eapply disarmed_same; [|done]. by apply terminate_effect.
  - unfold loop_running, notify_supervisor. pose proof (disarmed_set_status a b Running s Hd). by case_match.
  - by apply disarmed_set_status.
  - by eapply disarmed_cleanup.
  - by eapply disarmed_guard_drop.
  - eapply disarmed_same; [apply link_same|done].
  - eapply disarmed_same; [apply unlink_same|done].
  - eapply disarmed_same; [by apply terminate_effect|done].
  - destruct Hd. split; [by apply exists_update|done].
  - done.
  - done.
  - done.
Qed.

Lemma disarmed_run a ops s : valid_history s ops → sys_inv false s → disarmed a s → disarmed a (run_sys s ops).
Proof using.
  revert s. induction ops as [|o ops IH]; intros s Hv Hi Hd; [done|]. destruct Hv as [Hv Hvs]. cbn [run_sys foldl].
  apply IH; [done|by apply sys_inv_step|by eapply disarmed_step].
Qed.

(** ** Actors stay in the heap *)

Lemma exists_set_status a b st s : exists_in (set_status b st s).2 a ↔ exists_in s a.
Proof using. apply (h_exists _ _ _ _ (set_status_effect b st s)). Qed.

Lemma exists_cleanup anon a b event s : sys_inv anon s → exists_in s a → exists_in (cleanup b event s) a.
Proof using.
  intros [Hc Hg] Ha. destruct (guards s !! b) as [g|] eqn:Hb; [|unfold cleanup; by rewrite Hb].
  assert (is_Some (guards s !! b)) as HbS by (by eexists). destruct (g_armed _ Hg b HbS) as [He Hst].
  destruct (cleanup_effect anon b event s Hc HbS He Hst) as [_ L]. by apply (cl_exists _ _ _ _ L).
Qed.

Lemma exists_guard_drop anon a b s : sys_inv anon s → exists_in s a → exists_in (guard_drop b s) a.
Proof using. intros Hi Ha. unfold guard_drop. repeat case_match; by eapply exists_cleanup. Qed.

Lemma exists_step anon a s o : op_valid s o → sys_inv anon s → exists_in s a → exists_in (sys_step s o) a.
Proof using.
  intros Hv Hi Ha. pose proof (r_tree _ _ (proj1 Hi)) as Ht.
  destruct o as [n|n b|b|b sup r|b|b|b e|b|c p|c p|b|b|b|b|o]; cbn [sys_step op_valid] in *.
  - destruct (new_effect anon n s (proj1 Hi)) as [(Hc & _)|(_ & Hh & _)].
    + apply (created_exists _ _ _ _ _ Hc). by right.
    + unfold exists_in. by rewrite Hh.
  - unfold new_remote, exists_in. destruct (is_local b); [done|]. cbn.
    destruct (decide (a = b)) as [->|]; [by rewrite lookup_insert_eq|by rewrite lookup_insert_ne].
  - unfold start_begin. case_bool_decide; cbn [snd]; [by apply exists_set_status|by eapply exists_guard_drop].
  - destruct r; cbn [start_end snd]; [|by eapply exists_guard_drop|].
    + destruct sup as [p|]; [|done]. pose proof (inv_link anon b p s Hi) as Hl. pose proof (link_same b p s) as B.
      destruct (link b p s) as [[] s1]; cbn [snd] in *; [|eapply exists_guard_drop; [done|]]; by apply (b_exists _ _ B).
    + eapply exists_guard_drop; [by apply inv_terminate|]. by apply b_exists with (s := s); [apply terminate_effect|].
  - unfold loop_running, notify_supervisor. case_match; [change (exists_in (set_status b Running s).2 a)|]; by apply exists_set_status.
  - by apply exists_set_status.
  - by eapply exists_cleanup.
  - by eapply exists_guard_drop.
  - by apply (b_exists _ _ (link_same c p s)).
  - by apply (b_exists _ _ (unlink_same c p s)).
  - by apply b_exists with (s := s); [apply terminate_effect|].
  - by apply exists_update.
  - done.
  - done.
  - done.
Qed.

Lemma exists_run anon a ops s : valid_history s ops → (anon = true → forallb (λ o, negb (names_remote o)) ops = true) →
  sys_inv anon s → exists_in s a → exists_in (run_sys s ops) a.
Proof using.
  revert s. induction ops as [|o ops IH]; intros s Hv Hn Hi Ha; [done|]. destruct Hv as [Hv Hvs]. cbn [run_sys foldl].
  cbn [forallb] in Hn. apply IH; [done| | |by eapply exists_step].
  - intros Han. by apply andb_true_iff in Hn as [_ ?].
  - apply sys_inv_step; [done| |done]. intros Han. by apply andb_true_iff in Hn as [?%negb_true_iff _].
Qed.

(** ** A guard stays armed until its actor is finished with *)

(** The operations that may run the guard of an actor *)
Definition releases (a : ActorId) (o : sys_op) : bool :=
  match o with
  | OStartBegin b | OStartEnd b _ _ | OFinish b _ | OCancel b => bool_decide (a = b)
  | _ => false
  end.

Lemma guards_set_status b st s : guards (set_status b st s).2 = guards s.
Proof using. apply (h_guards _ _ _ _ (set_status_effect b st s)). Qed.

Lemma guards_terminate b s : tree_ok s → guards (terminate b s) = guards s.
Proof using. intros Ht. apply b_guards, terminate_effect, Ht. Qed.

Lemma guards_cleanup anon b event s : sys_inv anon s → guards (cleanup b event s) = delete b (guards s).
Proof using.
  intros [Hc Hg]. destruct (guards s !! b) as [g|] eqn:Hb; [|unfold cleanup; by rewrite Hb, delete_id].
  assert (is_Some (guards s !! b)) as HbS by (by eexists). destruct (g_armed _ Hg b HbS) as [He Hst].
  destruct (cleanup_effect anon b event s Hc HbS He Hst) as [_ L]. apply (cl_guards _ _ _ _ L).
Qed.

Lemma guards_guard_drop anon b s : sys_inv anon s → guards (guard_drop b s) = delete b (guards s).
Proof using. intros Hi. unfold guard_drop. repeat case_match; by eapply guards_cleanup. Qed.

Lemma armed_step anon a s o :
  op_valid s o → sys_inv anon s → releases a o = false → is_Some (guards s !! a) → is_Some (guards (sys_step s o) !! a).
Proof using.
  intros Hv Hi Hr Ha. pose proof (r_tree _ _ (proj1 Hi)) as Ht.
  destruct o as [n|n b|b|b sup r|b|b|b e|b|c p|c p|b|b|b|b|o]; cbn [sys_step op_valid releases] in *;
    try (apply bool_decide_eq_false_1 in Hr).
  - destruct (new_effect anon n s (proj1 Hi)) as [(_ & -> & _)|(_ & _ & -> & _)]; [|done].
    destruct (decide (a = Local (next_id s))) as [->|]; [by rewrite lookup_insert_eq|by rewrite lookup_insert_ne].
  - unfold new_remote. destruct (is_local b); [done|]. cbn. destruct (decide (a = b)) as [->|];
      [by rewrite lookup_insert_eq|by rewrite lookup_insert_ne].
  - unfold start_begin. case_bool_decide; cbn [snd]; [by rewrite guards_set_status|].
    by rewrite (guards_guard_drop anon), lookup_delete_ne.
  - destruct r; cbn [start_end snd].
    + destruct sup as [p|]; [|cbn; by rewrite lookup_insert_ne].
      pose proof (inv_link anon b p s Hi) as Hl. pose proof (link_same b p s) as B.
      destruct (link b p s) as [[] s1]; cbn [snd] in *.
      * cbn. by rewrite lookup_insert_ne, (b_guards _ _ B).
      * by rewrite (guards_guard_drop anon), lookup_delete_ne, (b_guards _ _ B).
    + by rewrite (guards_guard_drop anon), lookup_delete_ne.
    + by rewrite (guards_guard_drop anon), lookup_delete_ne, guards_terminate by (try apply inv_terminate; done).
  - unfold loop_running, notify_supervisor. case_match;
      [change (is_Some (guards (set_status b Running s).2 !! a))|]; by rewrite guards_set_status.
  - unfold loop_stopping. by rewrite guards_set_status.
  - by rewrite (guards_cleanup anon), lookup_delete_ne.
  - by rewrite (guards_guard_drop anon), lookup_delete_ne.
  - by rewrite (b_guards _ _ (link_same c p s)).
  - by rewrite (b_guards _ _ (unlink_same c p s)).
  - by rewrite guards_terminate.
  - done.
  - done.
  - done.
  - done.
Qed.

(** Nothing on the node refers to the actor. *)
Definition forgotten (a : ActorId) (s : Sys) : Prop :=
  get_status s a = Stopped ∧ (∀ n, where_is n s ≠ Some a) ∧ where_is_pid a s = None ∧
  children_of s a = None ∧ supervisor_of s a = None ∧ (∀ p, a ∉ get_children p s) ∧
  (∀ k, members_of (pg s) k !! a = None ∧ ¬ (a ∈ get_id <$> listeners_of (pg s) k) ∧ ¬ (a ∈ get_id <$> world_of (pg s) k)).

Lemma get_children_spec s p c : c ∈ get_children p s ↔ is_child s p c.
Proof using.
  unfold get_children, is_child. destruct (children_of s p) as [cs|].
  - rewrite elem_of_hs_iter. naive_solver.
  - split; [by intros ?%not_elem_of_nil|]. by intros (? & ? & _).
Qed.

Lemma disarmed_forgotten anon a s : sys_inv anon s → disarmed a s → forgotten a s.
Proof using.
  intros [Hc Hg] [He Hd]. destruct (g_disarmed _ Hg a Hd) as (K1 & K2 & K3).
  assert (¬ live s a) as Hl by (unfold live; by rewrite K1). split_and!; try done.
  - intros n (_ & _ & ?)%(r_name _ _ Hc). done.
  - unfold where_is_pid. destruct (is_local a) eqn:Hloc; [|done]. rewrite bool_decide_false; [done|].
    intros [_ ?]%(r_pid _ _ Hc). done.
  - intros p. rewrite get_children_spec. intros Hch. apply (r_tree _ _ Hc) in Hch. congruence.
  - apply no_relations; [apply (r_pg _ _ Hc)|by apply (r_gone _ _ Hc)].
Qed.
End lifecycle.

(** ** The theorems *)

#[local] Instance sample_actor_iter : HashSetIter ActorId := elements_iter ActorId.
#[local] Instance sample_key_iter : HashSetIter ScopeGroupKey := elements_iter ScopeGroupKey.

(** A supervisor "root", a child "db" that joins a group, and a grandchild; all running. *)
Definition sample_history : list sys_op :=
  [ONew (Some "root"); OStartBegin (Local 0); OStartEnd (Local 0) None PreOk; ORunning (Local 0);
   ONew (Some "db"); OStartBegin (Local 1); OStartEnd (Local 1) (Some (Local 0)) PreOk; ORunning (Local 1);
   ONew None; OStartBegin (Local 2); OStartEnd (Local 2) (Some (Local 1)) PreOk; ORunning (Local 2);
   OPg (OpJoin DEFAULT_SCOPE "g" [mkCell (Local 1) (Some "db") 1])]%string.

Lemma sample_valid : valid_history sys_init sample_history.
Proof. vm_compute. repeat split; by eexists. Qed.

Abbreviation sample_sys := (run_sys sys_init sample_history).

(** C17: the two registries.  After any history, a pid resolves exactly to the local actors that have not
    begun to stop, and a name resolves only to a local actor that bears it and has not begun to stop - so a
    name belongs to one actor at most and becomes free as soon as its owner stops.  If moreover no remote
    actor of the history bears a name, every such local actor is found by its name. *)
Theorem registries_exact `{!HashSetIter ActorId} `{!HashSetIter ScopeGroupKey} (ops : list sys_op) :
  valid_history sys_init ops →
  let s := run_sys sys_init ops in
  (∀ a, where_is_pid a s = Some a ↔ is_local a = true ∧ live s a) ∧
  (∀ n a, where_is n s = Some a → is_local a = true ∧ live s a ∧ name (actor s a) = Some n) ∧
  (forallb (λ o, negb (names_remote o)) ops = true →
     ∀ n a, is_local a = true → live s a → name (actor s a) = Some n → where_is n s = Some a).
Proof.
  intros Hv s. destruct (inv_run false ops sys_init Hv ltac:(done) (inv_init false)) as [Hc _]. fold s in Hc. split_and!.
  - intros a. unfold where_is_pid. rewrite <- (r_pid _ _ Hc).
    destruct (is_local a) eqn:Hl; simpl; [case_bool_decide; naive_solver|]. split; [done|]. rewrite (r_pid _ _ Hc), Hl. naive_solver.
  - intros n a (? & ? & ?)%(r_name _ _ Hc). done.
  - intros Hn n a ? ? ?. destruct (inv_run true ops sys_init Hv (λ _, Hn) (inv_init true)) as [Hc' _]. by apply (r_named _ _ Hc').
Qed.

Lemma registries_exact_witness :
  let s := sample_sys in
  where_is "db" s = Some (Local 1) ∧ (∀ a, where_is_pid a s = Some a ↔ is_local a = true ∧ live s a) ∧
  (is_local (Local 1) = true ∧ live s (Local 1) ∧ name (actor s (Local 1)) = Some "db"%string).
Proof.
  destruct (registries_exact sample_history sample_valid) as (Hp & Hn & Hc).
  assert (where_is "db" sample_sys = Some (Local 1)) as Hdb by (apply (Hc eq_refl); by vm_compute).
  split; [exact Hdb|]. split; [exact Hp|]. exact (Hn _ _ Hdb).
Defined.

(** The supervision tree is consistent.  After any history, an actor is in the children of another
    exactly when that other one is its supervisor, and an actor whose clean-up has run has neither
    supervisor nor children. *)
Theorem supervision_tree_exact `{!HashSetIter ActorId} `{!HashSetIter ScopeGroupKey} (ops : list sys_op) :
  valid_history sys_init ops →
  let s := run_sys sys_init ops in
  (∀ c p, supervisor_of s c = Some p ↔ c ∈ get_children p s) ∧
  (∀ a, guards s !! a = None → supervisor_of s a = None ∧ get_children a s = []).
Proof.
  intros Hv s. destruct (inv_run false ops sys_init Hv ltac:(done) (inv_init false)) as [Hc Hg]. fold s in Hc, Hg. split.
  - intros c p. rewrite get_children_spec. apply (r_tree _ _ Hc).
  - intros a Ha. destruct (g_disarmed _ Hg a Ha) as (_ & Hch & Hs). unfold get_children. by rewrite Hch.
Qed.

Lemma supervision_tree_exact_witness :
  let s := sample_sys in
  get_children (Local 0) s = [Local 1] ∧
  (∀ c p, supervisor_of s c = Some p ↔ c ∈ get_children p s) ∧
  (∀ a, guards s !! a = None → supervisor_of s a = None ∧ get_children a s = []).
Proof. split; [by vm_compute|]. exact (supervision_tree_exact sample_history sample_valid). Defined.

(** C18: termination of an actor ends and reaches its whole subtree.  In every reachable state the worklist
    of [terminate] runs dry within one round per linked child, even when actors supervise each other in a
    circle; then every actor below the given one has its set of children closed, and its kill signal sent
    if it had not begun to drain; the children and signals of all other actors are untouched, and exactly
    the actors supervised from below lost their supervisor. *)
Theorem terminate_subtree `{!HashSetIter ActorId} `{!HashSetIter ScopeGroupKey} (ops : list sys_op) (a : ActorId) :
  valid_history sys_init ops →
  let s := run_sys sys_init ops in
  ∃ s', terminate_loop (1 + link_count s) [a] s = Some s' ∧
    (∀ d, below s a d → children_of s' d = None ∧
       (status_le (get_status s d) Upgrading = true → port s' d = (false, signal (actor s d) || signalled (actor s d)))) ∧
    (∀ d, ¬ below s a d → children_of s' d = children_of s d ∧ port s' d = port s d) ∧
    (∀ c, supervisor_of s' c = None ∧ (∀ p, supervisor_of s c = Some p → below s a p) ∨
          supervisor_of s' c = supervisor_of s c ∧ (∀ p, supervisor_of s c = Some p → ¬ below s a p)) ∧
    (∀ d, get_status s' d = get_status s d).
Proof.
  intros Hv s. destruct (inv_run false ops sys_init Hv ltac:(done) (inv_init false)) as [Hc _]. fold s in Hc.
  destruct (terminate_effect a s (r_tree _ _ Hc)) as [Hl [X1 X2 X3 X4 X5]]. exists (terminate a s).
  split_and!; try done. apply (b_status _ _ X1).
Qed.

Lemma terminate_subtree_witness :
  let s := sample_sys in
  (∃ s', terminate_loop (1 + link_count s) [Local 0] s = Some s' ∧ port s' (Local 2) = (false, true)) ∧
  ∃ s', terminate_loop (1 + link_count s) [Local 1] s = Some s' ∧
    (∀ d, below s (Local 1) d → children_of s' d = None ∧
       (status_le (get_status s d) Upgrading = true → port s' d = (false, signal (actor s d) || signalled (actor s d)))) ∧
    (∀ d, ¬ below s (Local 1) d → children_of s' d = children_of s d ∧ port s' d = port s d) ∧
    (∀ c, supervisor_of s' c = None ∧ (∀ p, supervisor_of s c = Some p → below s (Local 1) p) ∨
          supervisor_of s' c = supervisor_of s c ∧ (∀ p, supervisor_of s c = Some p → ¬ below s (Local 1) p)) ∧
    (∀ d, get_status s' d = get_status s d).
Proof.
  split; [eexists; split; by vm_compute|]. exact (terminate_subtree sample_history (Local 1) sample_valid).
Defined.

(** C19: clean-up is complete and final.  When the lifecycle guard of an actor runs - the actor finished,
    failed to start, or its task was cancelled - then from that moment on, whatever happens later on the
    node, the actor is stopped, no name or pid resolves to it, it has no children and no supervisor, is
    nobody's child, is in no process group and monitors none, and its waiters are woken exactly once; and
    when its supervisor is not below it in the tree, the supervisor gets the exit event, once, after the
    pid listeners were told, or nothing where there is no event (an actor whose task was not launched). *)
Theorem cleanup_complete `{!HashSetIter ActorId} `{!HashSetIter ScopeGroupKey} (before after : list sys_op) (a : ActorId) (event : option SupervisionEvent) :
  valid_history sys_init before →
  let s := run_sys sys_init before in is_Some (guards s !! a) →
  let s1 := cleanup a event s in valid_history s1 after →
  let s2 := run_sys s1 after in
  forgotten a s2 ∧ (a ∈ woken s2 ∧ NoDup (woken s2)) ∧
  ∀ p, supervisor_of s a = Some p → ¬ below s a p →
    ∃ told, events s1 = events s ++ ((λ l, (l, PidTerminate a)) <$> told) ++ match event with Some e => [(p, e)] | None => [] end.
Proof.
  intros Hv s Ha s1 Hv1 s2. assert (sys_inv false s) as Hi by (by apply inv_run, inv_init).
  assert (sys_inv false s1) as Hi1 by (by apply inv_cleanup).
  destruct Hi as [Hc Hg]. destruct (g_armed _ Hg a Ha) as [He Hst].
  destruct (cleanup_effect false a event s Hc Ha He Hst) as [_ L].
  assert (disarmed a s1) as Hd1.
  { split; [by apply (cl_exists _ _ _ _ L)|]. unfold s1. by rewrite (cl_guards _ _ _ _ L), lookup_delete_eq. }
  assert (sys_inv false s2) as Hi2 by (by apply inv_run). pose proof (disarmed_run a after s1 Hv1 Hi1 Hd1) as Hd2. fold s2 in Hd2.
  split_and!; [by eapply disarmed_forgotten|by apply (g_woken _ (proj2 Hi2))|apply (g_once _ (proj2 Hi2))|].
  intros p Hp Hnb. destruct (cl_events _ _ _ _ L) as [told Hev]. exists told. unfold s1. rewrite Hev.
  pose proof (set_status_effect a Stopping s) as H1. destruct (tree_after _ _ _ _ H1) as (T1 & U1 & _).
  pose proof (core_set_status false a Stopping s Hc) as Hc1. set (t := (set_status a Stopping s).2) in *.
  destruct (terminate_effect a t (r_tree _ _ Hc1)) as [_ X]. destruct (x_supervisor _ _ _ X a) as [[_ Hb]|[-> _]].
  - exfalso. apply Hnb. specialize (Hb p). rewrite U1 in Hb. specialize (Hb Hp). revert Hb. apply rtc_subrel.
    intros x y (cs & Hcs & Hin). exists cs. by rewrite <- T1.
  - rewrite U1, Hp. by destruct event.
Qed.

Lemma cleanup_complete_witness :
  let s := sample_sys in let s1 := sys_step s (OFinish (Local 1) (ActorTerminated (Local 1) None)) in
  let s2 := run_sys s1 [OLink (Local 1) (Local 0); ONew (Some "db")] in
  where_is "db" s2 = Some (Local 3) ∧ forgotten (Local 1) s2.
Proof.
  split; [by vm_compute|].
  refine (proj1 (cleanup_complete sample_history [OLink (Local 1) (Local 0); ONew (Some "db")] (Local 1)
    (Some (ActorTerminated (Local 1) None)) sample_valid _ _)).
  - vm_compute. by eexists.
  - vm_compute. done.
Defined.

(** C22: a remote actor that stops takes the name of a local actor with it.  Remote actors are not entered
    in the name registry, but the clean-up of any named actor removes its name: whenever a remote actor
    bears the name under which a live local actor is registered and the remote actor is cleaned up, the
    local actor is still live and still bears its name, but the name no longer resolves. *)
Theorem remote_stop_unregisters_local `{!HashSetIter ActorId} `{!HashSetIter ScopeGroupKey} (ops : list sys_op)
    (r l : ActorId) (n : string) (e : SupervisionEvent) :
  valid_history sys_init ops →
  let s := run_sys sys_init ops in
  is_local r = false → is_Some (guards s !! r) → live s r → name (actor s r) = Some n →
  where_is n s = Some l →
  let s' := sys_step s (OFinish r e) in
  live s' l ∧ is_local l = true ∧ name (actor s l) = Some n ∧ where_is n s' = None.
Proof.
  intros Hv s Hr Hg Hl Hn Hw s'. assert (sys_inv false s) as Hi by (by apply inv_run, inv_init).
  destruct Hi as [Hc Hgd]. destruct (r_name _ _ Hc n l Hw) as (Hnl & Hloc & Hlive).
  destruct (g_armed _ Hgd r Hg) as [He Hst]. destruct (cleanup_effect false r (Some e) s Hc Hg He Hst) as [Hc' L].
  assert (l ≠ r) as Hne by congruence. split_and!; try done.
  - unfold live, s'. cbn [sys_step]. by rewrite (cl_status _ _ _ _ L), decide_False.
  - unfold where_is, s'. cbn [sys_step]. rewrite (cl_names _ _ _ _ L), Hn.
    assert (crossing (get_status s r) Stopping = true) as -> by (unfold crossing; by rewrite Hl). by rewrite lookup_delete_eq.
Qed.

Lemma remote_stop_unregisters_local_witness :
  let s := run_sys sys_init (sample_history ++ [ONewRemote (Some "db") (Remote 7 1)]) in
  let s' := sys_step s (OFinish (Remote 7 1) (ActorTerminated (Remote 7 1) None)) in
  live s' (Local 1) ∧ is_local (Local 1) = true ∧ name (actor s (Local 1)) = Some "db"%string ∧ where_is "db" s' = None.
Proof.
  set (ops := sample_history ++ [ONewRemote (Some "db"%string) (Remote 7 1)]).
  assert (valid_history sys_init ops) as H1 by (vm_compute; repeat split; by eexists).
  assert (is_Some (guards (run_sys sys_init ops) !! Remote 7 1)) as H2 by (vm_compute; by eexists).
  assert (live (run_sys sys_init ops) (Remote 7 1)) as H3 by (by vm_compute).
  assert (name (actor (run_sys sys_init ops) (Remote 7 1)) = Some "db"%string) as H4 by (by vm_compute).
  assert (where_is "db" (run_sys sys_init ops) = Some (Local 1)) as H5 by (by vm_compute).
  exact (remote_stop_unregisters_local ops (Remote 7 1) (Local 1) "db" (ActorTerminated (Remote 7 1) None) H1 (eq_refl false) H2 H3 H4 H5).
Defined.
