(* ===== verification/Monitors.v ===== *)
(** Monitors of an actor, which hear of its life as its supervisor does (the feature [monitors] of
    src/ractor/src/actor/supervision.rs, and [clone_no_data] of src/ractor/src/actor/messages.rs). *)

From S2P Require Import Prelude ActorTypes.

Section monitors.
Context {State : Type} `{!HashSetIter ActorId}.

(** [SupervisionEvent]; an error is known by the text it displays, a change of groups or pids by a number *)
Inductive SupervisionEvt :=
| ActorStarted (who : ActorId)
| ActorTerminated (who : ActorId) (state : option State) (reason : option string)
| ActorFailed (who : ActorId) (what : string)
| ProcessGroupChanged (change : nat)
| PidLifecycleEvent (change : nat).

Definition clone_no_data (e : SupervisionEvt) : SupervisionEvt :=
  match e with
  | ActorStarted who => ActorStarted who
  | ActorFailed who what => ActorFailed who what
  | ProcessGroupChanged what => ProcessGroupChanged what
  | ActorTerminated who _ msg => ActorTerminated who None msg
  | PidLifecycleEvent evt => PidLifecycleEvent evt
  end.

(** The fields [monitors] and [supervisor] of a [SupervisionTree] *)
Record Tree := mkTree { monitors : option (gset ActorId); supervisor : option ActorId }.

Definition set_monitor (who : ActorId) (t : Tree) : Tree :=
  match monitors t with
  | Some map => mkTree (Some ({[who]} ∪ map)) (supervisor t)
  | None => mkTree (Some {[who]}) (supervisor t)
  end.

Definition remove_monitor (who : ActorId) (t : Tree) : Tree :=
  match monitors t with
  | Some map =>
      let map := map ∖ {[who]} in mkTree (if bool_decide (map = ∅) then None else Some map) (supervisor t)
  | None => t
  end.

(** [notify_supervisor]; [open a] is whether [a] still takes supervision events.  The result has what was delivered. *)
Definition notify_supervisor (open : ActorId → bool) (evt : SupervisionEvt) (t : Tree) : list (ActorId * SupervisionEvt) * Tree :=
  let monitor_targets := match monitors t with Some map => hs_iter map | None => [] end in
  let '(sent, t') :=
    foldl (λ '(sent, t) monitor,
      if open monitor then (sent ++ [(monitor, clone_no_data evt)], t)
      else (sent, mkTree ((λ map, map ∖ {[monitor]}) <$> monitors t) (supervisor t))) ([], t) monitor_targets in
  match supervisor t with
  | Some parent => (if open parent then sent ++ [(parent, evt)] else sent, t')
  | None => (sent, t')
  end.

(** ** What monitors can rely on *)

Definition registered (t : Tree) : gset ActorId := default ∅ (monitors t).

Inductive Op := SetMonitor (a : ActorId) | RemoveMonitor (a : ActorId) | Notify (open : ActorId → bool) (evt : SupervisionEvt).

Definition apply_op (o : Op) (t : Tree) : Tree :=
  match o with SetMonitor a => set_monitor a t | RemoveMonitor a => remove_monitor a t | Notify open evt => (notify_supervisor open evt t).2 end.

(** The set of monitors, without the map: those found dead are forgotten *)
Definition op_spec (o : Op) (X : gset ActorId) : gset ActorId :=
  match o with SetMonitor a => {[a]} ∪ X | RemoveMonitor a => X ∖ {[a]} | Notify open _ => filter (λ a, open a = true) X end.

Lemma notify_loop open evt l sent t :
  let '(sent', t') := foldl (λ '(sent, t) monitor,
      if open monitor : bool then (sent ++ [(monitor, clone_no_data evt)], t)
      else (sent, mkTree ((λ map, map ∖ {[monitor]}) <$> monitors t) (supervisor t))) (sent, t) l in
  sent' = sent ++ ((λ a, (a, clone_no_data evt)) <$> filter (λ a, open a = true) l) ∧ supervisor t' = supervisor t ∧
  registered t' = registered t ∖ list_to_set (filter (λ a, open a ≠ true) l).
Proof.
  revert sent t. induction l as [|a l IH]; intros sent t; cbn [foldl]; [cbn; split_and!; [by rewrite app_nil_r|done|set_solver]|].
  destruct (open a) eqn:Ea.
  - specialize (IH (sent ++ [(a, clone_no_data evt)]) t). destruct (foldl _ _ l) as [sent' t']. destruct IH as (-> & -> & ->).
    rewrite filter_cons_True, filter_cons_False by (rewrite Ea; naive_solver). by rewrite <-app_assoc.
  - specialize (IH sent (mkTree ((λ map, map ∖ {[a]}) <$> monitors t) (supervisor t))). destruct (foldl _ _ l) as [sent' t']. destruct IH as (-> & -> & ->).
    rewrite filter_cons_False, filter_cons_True by (rewrite Ea; naive_solver). split_and!; [done|done|].
    unfold registered. destruct (monitors t); set_solver.
Qed.

(** A notification reaches every monitor that lives, once and without the state of the actor, and then the supervisor with all of it;
    over any history the monitors are those that were set, not removed since, and not found dead. *)
Lemma monitors_notified open evt t :
  let targets := match monitors t with Some map => hs_iter map | None => [] end in
  (notify_supervisor open evt t).1 =
    ((λ a, (a, clone_no_data evt)) <$> filter (λ a, open a = true) targets)
    ++ match supervisor t with Some p => if open p then [(p, evt)] else [] | None => [] end ∧
  NoDup targets ∧ (∀ a, a ∈ targets ↔ a ∈ registered t).
Proof.
  intros targets. split_and!.
  - unfold notify_supervisor. fold targets. pose proof (notify_loop open evt targets [] t) as Hn. destruct (foldl _ _ targets) as [sent t'].
    destruct Hn as (-> & _ & _). cbn. destruct (supervisor t) as [p|]; [destruct (open p)|]; by rewrite ?app_nil_r.
  - unfold targets. destruct (monitors t); [rewrite hs_iter_perm; apply NoDup_elements|constructor].
  - intros a. unfold targets, registered. destruct (monitors t); cbn; [by rewrite elem_of_hs_iter|]. set_solver.
Qed.

Lemma monitors_refine ops t : registered (foldl (λ t o, apply_op o t) t ops) = foldl (λ X o, op_spec o X) (registered t) ops.
Proof.
  revert t. induction ops as [|o ops IH]; intros t; [done|]. cbn [foldl]. rewrite IH. f_equal. destruct o as [a|a|open evt]; cbn.
  - unfold set_monitor, registered. destruct t as [[X|] p]; cbn; [done|]. by rewrite union_empty_r_L.
  - unfold remove_monitor, registered. destruct t as [[X|] p]; cbn; [|set_solver]. case_bool_decide as E; cbn; [by rewrite E|done].
  - unfold notify_supervisor. set (targets := match monitors t with Some map => hs_iter map | None => [] end).
    pose proof (notify_loop open evt targets [] t) as Hn. destruct (foldl _ _ targets) as [sent t']. destruct Hn as (_ & _ & Hr).
    assert (∀ a, a ∈ targets ↔ a ∈ registered t) as Ht.
    { intros a. unfold targets, registered. destruct (monitors t); cbn; [by rewrite elem_of_hs_iter|]. set_solver. }
    assert (registered t' = filter (λ a, open a = true) (registered t)) as <-; [|by destruct (supervisor t)].
    rewrite Hr. apply set_eq. intros a. rewrite elem_of_difference, elem_of_list_to_set, elem_of_filter, list_elem_of_filter, Ht.
    destruct (decide (open a = true)); naive_solver.
Qed.
End monitors.
