(* ===== verification/Waiting.v ===== *)
(** Waiting for actors to end: [wait], [stop_and_wait], [kill_and_wait] and [drain_and_wait] of an actor cell
    (src/ractor/src/actor/actor_cell.rs, actor_properties.rs), and the versions for all children of an actor
    (src/ractor/src/actor/supervision.rs).

    A call is a thread of atomic actions: it sends its request, takes a ticket of the cell's [Notify], looks at the
    status, and polls the ticket.  The task of an actor stores the status and then notifies, in actions of its own.
    Threads and tasks interleave in any way, and calls begin at any time.  [Notify] is that of tokio, an interface
    with the behaviour that its documentation promises. *)

From S2P Require Import Prelude ActorTypes.

(** ** [tokio::sync::Notify] *)

(** [issued n t]: the ticket was made by [notified] and is not completed; [fired n t]: since it was made, all waiters have
    been notified; [calm n]: nobody has been notified yet.  A ticket gets the notification of all waiters from the moment
    it is made, polled or not. *)
Class Notify (NT Ticket : Type) := {
  notify_new : NT;
  notified : NT → Ticket * NT;
  poll : Ticket → NT → bool * Ticket * NT;
  notify_waiters : NT → NT;
  notify_one : NT → NT;
  issued : NT → Ticket → Prop;
  fired : NT → Ticket → Prop;
  calm : NT → Prop;
  calm_new : calm notify_new;
  calm_notified n : calm n → calm (notified n).2;
  calm_poll n t : calm n → issued n t → (poll t n).1.1 = false ∧ calm (poll t n).2;
  issued_new n : issued (notified n).2 (notified n).1;
  issued_notified n t : issued n t → issued (notified n).2 t;
  issued_poll n t u : issued n t → issued n u → issued (poll u n).2 t;
  issued_polled n t : issued n t → (poll t n).1.1 = false → issued (poll t n).2 (poll t n).1.2;
  fired_waiters n t : issued n t → fired (notify_waiters n) t;
  fired_one n t : fired n t → fired (notify_one n) t;
  fired_notified n t : fired n t → fired (notified n).2 t;
  fired_poll n t u : fired n t → fired (poll u n).2 t;
  fired_ready n t : fired n t → (poll t n).1.1 = true
}.

(** One that satisfies it: tickets remember how often all have been notified *)
#[global, program] Instance counting_notify : Notify (nat * bool) nat := {
  notify_new := (0, false);
  notified n := (n.1, n);
  poll t n := if t =? n.1 then if n.2 then (true, t, (n.1, false)) else (false, t, n) else (true, t, n);
  notify_waiters n := (S n.1, n.2);
  notify_one n := (n.1, true);
  issued n t := t = n.1;
  fired n t := t < n.1;
  calm n := n.2 = false
}.
Next Obligation. done. Qed.
Next Obligation. done. Qed.
Next Obligation. intros [g b] t; simpl; intros -> ->. by rewrite Nat.eqb_refl. Qed.
Next Obligation. done. Qed.
Next Obligation. done. Qed.
Next Obligation. intros [g b] t u; simpl; intros -> ->. rewrite Nat.eqb_refl. by destruct b. Qed.
Next Obligation. intros [g b] t; simpl; intros ->. rewrite Nat.eqb_refl. by destruct b. Qed.
Next Obligation. intros [g b] t; simpl. lia. Qed.
Next Obligation. done. Qed.
Next Obligation. done. Qed.
Next Obligation. intros [g b] t u; simpl. by destruct (u =? g), b. Qed.
Next Obligation. intros [g b] t; simpl. intros H. by destruct (Nat.eqb_spec t g); [lia|]. Qed.

(** ** Cells and calls *)

Section waiting.
Context `{Notify NT Ticket}.

(** How far [set_status(Stopped)] has come: nowhere, the status is stored, all waiters are notified, done *)
Inductive Ending := Working | Stored | NotifiedAll | Ended.

(** A cell: its status, its [wait_handler], the sending and receiving ends of its stop and signal ports, and whether its
    message channel has a receiver *)
Record Cell := mkCell {
  c_status : ActorStatus;
  c_ending : Ending;
  wait_handler : NT;
  stop_tx : bool;
  stop_rx : bool;
  signal_tx : bool;
  message_rx : bool
}.

Definition cell_new : Cell := mkCell Unstarted Working notify_new true true true true.

Definition set_notify (n : NT) (c : Cell) : Cell :=
  mkCell (c_status c) (c_ending c) n (stop_tx c) (stop_rx c) (signal_tx c) (message_rx c).

(** [send_stop]: the sender is taken, whoever comes later finds none *)
Definition send_stop (c : Cell) : bool * Cell :=
  (stop_tx c && stop_rx c, mkCell (c_status c) (c_ending c) (wait_handler c) false (stop_rx c) (signal_tx c) (message_rx c)).
Definition send_signal (c : Cell) : Cell :=
  mkCell (c_status c) (c_ending c) (wait_handler c) (stop_tx c) (stop_rx c) false (message_rx c).

(** [drain]: only the one who sends the marker can fail, when there is no receiver *)
Definition drain (marks : bool) (c : Cell) : bool * Cell :=
  (message_rx c || negb marks,
   mkCell (if status_le (c_status c) Draining then Draining else c_status c) (c_ending c) (wait_handler c) (stop_tx c) (stop_rx c) (signal_tx c) (message_rx c)).

Inductive Call := Wait | StopAndWait | KillAndWait | DrainAndWait.
Inductive Answer := Done | Timeout | Messaging.

(** Where a call is: to send its request; in [wait], before it takes its ticket, before it reads the status, and in the
    [await]; answered *)
Inductive Pc := PSend | PWait | PCheck (t : Ticket) | PAwait (t : Ticket) | PDone (a : Answer).

Record Thread := mkThread { target : nat; call : Call; timed : bool; pc : Pc }.

(** [ActorCell::wait], [stop_and_wait], [kill_and_wait] and [drain_and_wait]: the call on the properties of the actor, under
    [timeout] if there is a duration *)
Definition cell_call (k : Call) (timeout : option N) (c : nat) : Thread := mkThread c k (bool_decide (timeout ≠ None)) PSend.

(** The duration is over before the call is *)
Definition expire (t : Thread) : Thread :=
  match pc t with PAwait _ => if timed t then mkThread (target t) (call t) (timed t) (PDone Timeout) else t | _ => t end.

Definition set_pc (p : Pc) (t : Thread) : Thread := mkThread (target t) (call t) (timed t) p.

(** [send_stop_and_wait], [send_signal_and_wait], [drain_and_wait] up to [wait]: a failed signal is ignored *)
Definition send_request (marks : bool) (k : Call) (c : Cell) : Pc * Cell :=
  match k with
  | Wait => (PWait, c)
  | StopAndWait => let '(ok, c) := send_stop c in (if ok then PWait else PDone Messaging, c)
  | KillAndWait => (PWait, send_signal c)
  | DrainAndWait => let '(ok, c) := drain marks c in (if ok then PWait else PDone Messaging, c)
  end.

(** One action of a call, the three last of [wait] *)
Definition call_step (marks : bool) (t : Thread) (c : Cell) : Thread * Cell :=
  match pc t with
  | PSend => let '(p, c) := send_request marks (call t) c in (set_pc p t, c)
  | PWait => let '(k, n) := notified (wait_handler c) in (set_pc (PCheck k) t, set_notify n c)
  | PCheck k => (set_pc (if bool_decide (c_status c = Stopped) then PDone Done else PAwait k) t, c)
  | PAwait k =>
      let '(ready, k, n) := poll k (wait_handler c) in (set_pc (if ready : bool then PDone Done else PAwait k) t, set_notify n c)
  | PDone _ => (t, c)
  end.

(** The task of the actor: other changes of its status, and the actions of [set_status(Stopped)] with
    [notify_stop_listener] *)
Definition status_step (s : ActorStatus) (c : Cell) : Cell :=
  match c_ending c with
  | Working =>
      if bool_decide (s = Stopped) then mkCell Stopped Stored (wait_handler c) (stop_tx c) (stop_rx c) (signal_tx c) (message_rx c)
      else mkCell (if status_le (c_status c) s then s else c_status c) Working (wait_handler c) (stop_tx c) (stop_rx c) (signal_tx c) (message_rx c)
  | Stored => mkCell (c_status c) NotifiedAll (notify_waiters (wait_handler c)) (stop_tx c) (stop_rx c) (signal_tx c) (message_rx c)
  | NotifiedAll => mkCell (c_status c) Ended (notify_one (wait_handler c)) (stop_tx c) (stop_rx c) (signal_tx c) (message_rx c)
  | Ended => c
  end.

(** The receiving ends are dropped *)
Definition drop_ports (c : Cell) : Cell :=
  mkCell (c_status c) (c_ending c) (wait_handler c) (stop_tx c) false (signal_tx c) false.

(** ** Interleavings *)

Record World := mkWorld { cells : nat → Cell; threads : list Thread }.

Inductive Event :=
| Begin (target : nat) (call : Call) (timeout : option N)
| Run (i : nat) (marks : bool)
| Expire (i : nat)
| Status (c : nat) (s : ActorStatus)
| DropPorts (c : nat)
| StopRequest (c : nat)
| KillRequest (c : nat).

Definition set_cell (k : nat) (c : Cell) (f : nat → Cell) : nat → Cell := λ x, if x =? k then c else f x.

Definition step (e : Event) (w : World) : World :=
  match e with
  | Begin c k timeout => mkWorld (cells w) (threads w ++ [cell_call k timeout c])
  | Run i marks =>
      match threads w !! i with
      | Some t => let '(t', c) := call_step marks t (cells w (target t)) in mkWorld (set_cell (target t) c (cells w)) (<[i := t']> (threads w))
      | None => w
      end
  | Expire i =>
      match threads w !! i with
      | Some t => mkWorld (cells w) (<[i := expire t]> (threads w))
      | None => w
      end
  | Status k s => mkWorld (set_cell k (status_step s (cells w k)) (cells w)) (threads w)
  | DropPorts k => mkWorld (set_cell k (drop_ports (cells w k)) (cells w)) (threads w)
  | StopRequest k => mkWorld (set_cell k (send_stop (cells w k)).2 (cells w)) (threads w)
  | KillRequest k => mkWorld (set_cell k (send_signal (cells w k)) (cells w)) (threads w)
  end.

Definition run (es : list Event) (w : World) : World := foldl (λ w e, step e w) w es.
Definition wait_start : World := mkWorld (λ _, cell_new) [].

(** ** The invariant *)

Definition before (c : Cell) : Prop := c_ending c = Working ∨ c_ending c = Stored.
Definition after (c : Cell) : Prop := c_ending c = NotifiedAll ∨ c_ending c = Ended.

Record cell_ok (c : Cell) : Prop := {
  co_status : c_status c = Stopped ↔ c_ending c ≠ Working;
  co_calm : before c → calm (wait_handler c)
}.

(** A call that has read a status other than [Stopped] holds a ticket that is, or will be, notified. *)
Definition thread_ok (c : Cell) (t : Thread) : Prop :=
  match pc t with
  | PSend | PWait => True
  | PCheck k => c_ending c = Working → issued (wait_handler c) k
  | PAwait k => (before c → issued (wait_handler c) k) ∧ (after c → fired (wait_handler c) k)
  | PDone Done => c_status c = Stopped
  | PDone Timeout => timed t = true
  | PDone Messaging => call t = StopAndWait ∨ call t = DrainAndWait
  end.

Record world_ok (w : World) : Prop := {
  wo_cells k : cell_ok (cells w k);
  wo_threads i t : threads w !! i = Some t → thread_ok (cells w (target t)) t
}.

(** A change of a cell that takes nothing from the tickets of others *)
Record keeps (c c' : Cell) : Prop := {
  ke_ending : c_ending c' = c_ending c;
  ke_status : c_status c' = Stopped ↔ c_status c = Stopped;
  ke_calm : before c → calm (wait_handler c) → calm (wait_handler c');
  ke_issued k : before c → issued (wait_handler c) k → issued (wait_handler c') k;
  ke_fired k : fired (wait_handler c) k → fired (wait_handler c') k
}.

Lemma keeps_cell_ok c c' : cell_ok c → keeps c c' → cell_ok c'.
Proof.
  intros [A B] [E S C I F]. split; [by rewrite S, E|]. unfold before. rewrite E. auto.
Qed.

Lemma keeps_thread_ok c c' t : thread_ok c t → keeps c c' → thread_ok c' t.
Proof.
  intros T [E S C I F]. unfold thread_ok in *. destruct (pc t) as [| |k|k|[]]; try done.
  - intros Hw. rewrite E in Hw. apply I; [by left|auto].
  - unfold before, after in *. rewrite E. destruct T. split; auto.
  - by apply S.
Qed.

(** The same cell but for its ports and a status that is not [Stopped] *)
Lemma keeps_ports c c' :
  c_ending c' = c_ending c → (c_status c' = Stopped ↔ c_status c = Stopped) → wait_handler c' = wait_handler c → keeps c c'.
Proof. intros E S N. by split; rewrite ?N. Qed.

Lemma drain_keeps marks c : keeps c (drain marks c).2.
Proof.
  apply keeps_ports; try done. cbn. destruct (c_status c); cbn; done.
Qed.

Lemma call_step_keeps marks t c :
  cell_ok c → thread_ok c t → let '(t', c') := call_step marks t c in keeps c c' ∧ thread_ok c' t' ∧ target t' = target t.
Proof.
  intros [A B] T. unfold call_step. destruct (pc t) as [| |k|k|a] eqn:Ep.
  - assert (keeps c (send_stop c).2) by (by apply keeps_ports). pose proof (drain_keeps marks c).
    destruct (call t) eqn:Ek; cbn; try (split_and!; [by apply keeps_ports|by cbn|done]).
    + split_and!; [done| |done]. unfold thread_ok. cbn. destruct (stop_tx c && stop_rx c); [done|]. by left.
    + split_and!; [done| |done]. unfold thread_ok. cbn. destruct (message_rx c || negb marks); [done|]. by right.
  - destruct (notified (wait_handler c)) as [k n] eqn:En.
    pose proof (issued_new (wait_handler c)) as H1. pose proof (calm_notified (wait_handler c)) as H2.
    pose proof (issued_notified (wait_handler c)) as H3. pose proof (fired_notified (wait_handler c)) as H4. rewrite En in *. cbn in *.
    split_and!; [split; cbn; auto; done|by cbn|done].
  - split_and!; [by apply keeps_ports| |done]. unfold thread_ok in *. rewrite Ep in T. cbn. case_bool_decide as Hs; [done|].
    assert (c_ending c = Working) as Hw by (destruct (c_ending c) eqn:Ew; try done; exfalso; by apply Hs, A).
    split; [auto|]. intros [?|?]; congruence.
  - destruct (poll k (wait_handler c)) as [[ready k'] n] eqn:En. unfold thread_ok in T. rewrite Ep in T. destruct T as [T1 T2].
    pose proof (calm_poll (wait_handler c) k) as H1. pose proof (issued_poll (wait_handler c)) as H2.
    pose proof (issued_polled (wait_handler c) k) as H3. pose proof (fired_poll (wait_handler c)) as H4. pose proof (fired_ready (wait_handler c) k) as H5.
    rewrite En in H1, H3, H5. cbn in H1, H3, H5.
    assert (before c ∨ after c) as Hba by (unfold before, after; destruct (c_ending c); auto).
    split_and!; [split; cbn; try done| |done].
    + intros Hb Hc. by apply H1; auto.
    + intros t0 Hb Ht0. specialize (H2 t0 k Ht0 (T1 Hb)). by rewrite En in H2.
    + intros t0 Ht0. specialize (H4 t0 k Ht0). by rewrite En in H4.
    + destruct ready; cbn.
      * destruct Hba as [Hb|Ha]; [destruct (H1 (B Hb) (T1 Hb)); done|]. apply A. destruct Ha as [E|E]; by rewrite E.
      * split; [by auto|]. intros Ha. specialize (H5 (T2 Ha)). done.
  - split_and!; [by apply keeps_ports|done|done].
Qed.

Lemma status_step_ok s c : cell_ok c → cell_ok (status_step s c) ∧ ∀ t, thread_ok c t → thread_ok (status_step s c) t.
Proof.
  intros [A B]. unfold status_step, before in *. destruct (c_ending c) eqn:Ee.
  - case_bool_decide as Hs.
    + split; [split; cbn; [done|auto]|]. intros t. unfold thread_ok, before, after. cbn. destruct (pc t) as [| |k|k|[]]; try done.
      rewrite Ee. intros [T1 T2]. split; [auto|]. by intros [|].
    + assert (c_status c ≠ Stopped) as Hc by (intros Hc; by apply A in Hc).
      assert ((if status_le (c_status c) s then s else c_status c) ≠ Stopped) by (by destruct (status_le (c_status c) s)).
      assert (keeps c (mkCell (if status_le (c_status c) s then s else c_status c) Working (wait_handler c) (stop_tx c) (stop_rx c) (signal_tx c) (message_rx c)))
        as K by (apply keeps_ports; done).
      split; [apply (keeps_cell_ok c); [split; [by rewrite Ee|unfold before; by rewrite Ee]|done]|]. intros t T. by eapply keeps_thread_ok.
  - split; [split; cbn; [split; [done|intros _; by apply A]|by intros [|]]|]. intros t. unfold thread_ok, before, after. cbn.
    destruct (pc t) as [| |k|k|[]]; try done. rewrite Ee. intros [T1 _]. split; [by intros [|]|]. intros _. apply fired_waiters. auto.
  - split; [split; cbn; [split; [done|intros _; by apply A]|by intros [|]]|]. intros t. unfold thread_ok, before, after. cbn.
    destruct (pc t) as [| |k|k|[]]; try done. rewrite Ee. intros [_ T2]. split; [by intros [|]|]. intros _. apply fired_one. auto.
  - split; [split; [by rewrite Ee|unfold before; by rewrite Ee]|done].
Qed.

Lemma set_cell_eq k c f : set_cell k c f k = c.
Proof. unfold set_cell. by rewrite Nat.eqb_refl. Qed.
Lemma set_cell_ne k c f x : x ≠ k → set_cell k c f x = f x.
Proof. unfold set_cell. by intros ->%Nat.eqb_neq. Qed.

(** One cell changes, and keeps its own promises and those to its threads *)
Lemma world_ok_cell k c w l :
  world_ok w → cell_ok c → (∀ t, thread_ok (cells w k) t → thread_ok c t) →
  (∀ i t, l !! i = Some t → threads w !! i = Some t ∨ target t = k ∧ thread_ok c t) → world_ok (mkWorld (set_cell k c (cells w)) l).
Proof.
  intros [W1 W2] Hc Ht Hl. split; cbn.
  - intros x. destruct (decide (x = k)) as [->|]; [by rewrite set_cell_eq|by rewrite set_cell_ne].
  - intros i t Hi. destruct (Hl i t Hi) as [Hi'|[-> T]]; [|by rewrite set_cell_eq].
    destruct (decide (target t = k)) as [E|]; [|rewrite set_cell_ne by done; by eapply W2]. rewrite E, set_cell_eq. apply Ht. rewrite <-E. by eapply W2.
Qed.

Lemma world_ok_step e w : world_ok w → world_ok (step e w).
Proof.
  intros W. pose proof W as [W1 W2]. destruct e as [k c b|i marks|i|k s|k|k|k]; cbn [step].
  - split; [done|]. cbn. intros i t. rewrite lookup_app_Some. intros [Hi|[_ Hi]]; [by eapply W2|].
    apply list_lookup_singleton_Some in Hi as [_ <-]. done.
  - destruct (threads w !! i) as [t|] eqn:Ei; [|done]. pose proof (call_step_keeps marks t (cells w (target t)) (W1 _) (W2 _ _ Ei)) as H1.
    destruct (call_step marks t (cells w (target t))) as [t' c]. destruct H1 as (K & T & Et).
    apply world_ok_cell; [done|by eapply keeps_cell_ok|intros; by eapply keeps_thread_ok|].
    intros j u. rewrite list_lookup_insert_Some. intros [(_ & <- & _)|[_ Hj]]; [by right|by left].
  - destruct (threads w !! i) as [t|] eqn:Ei; [|done]. split; [done|]. cbn. intros j u.
    rewrite list_lookup_insert_Some. intros [(_ & <- & _)|[_ Hj]]; [|by eapply W2]. pose proof (W2 i t Ei) as T.
    destruct t as [c k [] [| | |tk|a]]; cbn; done.
  - destruct (status_step_ok s (cells w k) (W1 k)). apply world_ok_cell; auto.
  - assert (keeps (cells w k) (drop_ports (cells w k))) as K by (by apply keeps_ports).
    apply world_ok_cell; [done|by eapply keeps_cell_ok|intros; by eapply keeps_thread_ok|auto].
  - assert (keeps (cells w k) (send_stop (cells w k)).2) as K by (by apply keeps_ports).
    apply world_ok_cell; [done|by eapply keeps_cell_ok|intros; by eapply keeps_thread_ok|auto].
  - assert (keeps (cells w k) (send_signal (cells w k))) as K by (by apply keeps_ports).
    apply world_ok_cell; [done|by eapply keeps_cell_ok|intros; by eapply keeps_thread_ok|auto].
Qed.

Lemma world_ok_run es w : world_ok w → world_ok (run es w).
Proof. revert w. induction es as [|e es IH]; intros w W; [done|]. cbn. by apply IH, world_ok_step. Qed.

Lemma world_ok_start : world_ok wait_start.
Proof. split; [|done]. intros k. split; [done|]. intros _. apply calm_new. Qed.

(** ** Progress *)

Definition rank (p : Pc) : nat := match p with PSend => 4 | PWait => 3 | PCheck _ => 2 | PAwait _ => 1 | PDone _ => 0 end.
Definition runs_of (i : nat) (es : list Event) : nat := countb (λ e, match e with Run j _ => j =? i | _ => false end) es.

Lemma call_step_frame marks t c :
  let '(t', c') := call_step marks t c in
  c_ending c' = c_ending c ∧ (target t' = target t ∧ call t' = call t ∧ timed t' = timed t) ∧
  (cell_ok c → thread_ok c t → after c → rank (pc t') ≤ pred (rank (pc t))).
Proof.
  unfold call_step. destruct (pc t) as [| |k|k|a] eqn:Ep; cbn [rank pred].
  - destruct (call t) eqn:Ek; cbn; (split_and!; [done..|]); intros _ _ _; repeat case_match; cbn; lia.
  - destruct (notified (wait_handler c)). cbn. split_and!; try done.
  - cbn. split_and!; try done. intros [A _] _ Ha. rewrite bool_decide_true; [cbn; lia|]. apply A. destruct Ha as [-> | ->]; done.
  - destruct (poll k (wait_handler c)) as [[ready k'] n] eqn:En. cbn. split_and!; try done. intros _ T Ha. unfold thread_ok in T. rewrite Ep in T.
    pose proof (fired_ready _ _ (proj2 T Ha)) as Hr. rewrite En in Hr. cbn in Hr. by subst ready.
  - split_and!; try done. rewrite Ep. done.
Qed.

Lemma step_after e w k : after (cells w k) → after (cells (step e w) k).
Proof.
  intros Ha. assert (∀ x c, c_ending c = c_ending (cells w x) → after (set_cell x c (cells w) k)) as Hset.
  { intros x c Hc. destruct (decide (k = x)) as [->|]; [rewrite set_cell_eq; unfold after; by rewrite Hc|by rewrite set_cell_ne]. }
  destruct e as [c b|i marks|i|x s|x|x|x]; cbn [step]; try (by apply Hset); try done.
  - destruct (threads w !! i) as [t|]; [|done]. pose proof (call_step_frame marks t (cells w (target t))) as H1.
    destruct (call_step marks t _) as [t' c]. destruct H1 as [H1 _]. by apply Hset.
  - by destruct (threads w !! i).
  - cbn. destruct (decide (k = x)) as [->|]; [|by rewrite set_cell_ne]. rewrite set_cell_eq. unfold status_step. destruct Ha as [E|E]; rewrite E; by right.
Qed.

Lemma waiter_progress e w i t :
  world_ok w → threads w !! i = Some t → after (cells w (target t)) →
  ∃ t', threads (step e w) !! i = Some t' ∧ (target t' = target t ∧ call t' = call t ∧ timed t' = timed t) ∧ rank (pc t') + runs_of i [e] ≤ max (rank (pc t)) (runs_of i [e]).
Proof.
  intros [W1 W2] Hi Ha. destruct e as [c b|j marks|j|x s|x|x|x]; cbn [step]; try (exists t; split_and!; [done..|cbn; lia]).
  - exists t. split_and!; [by apply lookup_app_l_Some|done..|cbn; lia].
  - unfold runs_of. cbn. destruct (Nat.eqb_spec j i) as [->|Hne].
    + rewrite Hi. pose proof (call_step_frame marks t (cells w (target t))) as H1. destruct (call_step marks t _) as [t' c].
      destruct H1 as (_ & H1 & H2). exists t'. split_and!; [|by apply H1..|specialize (H2 (W1 _) (W2 _ _ Hi) Ha); lia].
      apply list_lookup_insert_eq. by eapply lookup_lt_Some.
    + exists t. split_and!; [|done..|lia]. destruct (threads w !! j) as [u|]; [|done]. destruct (call_step marks u _). cbn. by rewrite list_lookup_insert_ne.
  - destruct (decide (j = i)) as [->|Hne].
    + rewrite Hi. exists (expire t). split; [apply list_lookup_insert_eq; by eapply lookup_lt_Some|]. destruct t as [c k [] [| | |tk|a]]; cbn; (split; [done|lia]).
    + exists t. split_and!; [|done..|cbn; lia]. destruct (threads w !! j); [|done]. cbn. by rewrite list_lookup_insert_ne.
Qed.

Lemma run_progress es w i t :
  world_ok w → threads w !! i = Some t → after (cells w (target t)) → rank (pc t) ≤ runs_of i es →
  ∃ t', threads (run es w) !! i = Some t' ∧ (target t' = target t ∧ call t' = call t ∧ timed t' = timed t) ∧ rank (pc t') = 0.
Proof.
  revert w t. induction es as [|e es IH]; intros w t W Hi Ha Hr; [exists t; split_and!; try done; cbn in Hr; lia|].
  destruct (waiter_progress e w i t W Hi Ha) as (t' & Hi' & (Et & Ec & Eb) & Hr').
  destruct (IH (step e w) t') as (t'' & Hi'' & (Et' & Ec' & Eb') & H0); [by apply world_ok_step|done|rewrite Et; by apply step_after| |].
  - unfold runs_of in *. cbn in *. lia.
  - exists t''. split_and!; try done; congruence.
Qed.

(** C20: Waiting is exact.  A call that waits for an actor returns without error only when the actor has stopped, however calls,
    stops and notifications interleave; and no wake-up is lost: once the waiters of an actor have been notified, a call that was begun at
    any time, before or after, has returned when it has run four more times, whatever runs in between.  What it returns is success, unless its
    own timeout expired or its request was refused. *)
Theorem wait_exact es :
  let w := run es wait_start in
  ∀ i t, threads w !! i = Some t →
    (pc t = PDone Done → c_status (cells w (target t)) = Stopped) ∧
    (after (cells w (target t)) → ∀ es', 4 ≤ runs_of i es' →
       ∃ t' a, threads (run es' w) !! i = Some t' ∧ pc t' = PDone a ∧ target t' = target t ∧
         (a = Done ∨ a = Timeout ∧ timed t = true ∨ a = Messaging ∧ (call t = StopAndWait ∨ call t = DrainAndWait))).
Proof.
  intros w i t Hi. assert (world_ok w) as W by apply world_ok_run, world_ok_start. split.
  - intros Hp. pose proof (wo_threads _ W i t Hi) as T. unfold thread_ok in T. by rewrite Hp in T.
  - intros Ha es' Hr. destruct (run_progress es' w i t W Hi Ha) as (t' & Hi' & (Et & Ec & Eb) & H0); [destruct (pc t); cbn; lia|].
    pose proof (wo_threads _ (world_ok_run es' w W) i t' Hi') as T. unfold thread_ok in T. rewrite Ec, Eb in T.
    destruct (pc t') as [| | | |a] eqn:Ep; try done. exists t', a. split_and!; [done..|]. destruct a; auto.
Qed.

(** ** All children *)

(** [stop_all_children_and_wait]: a task per child, and the call returns when all have answered, whatever they answered *)
Definition stop_all_children_and_wait (children : list nat) (timeout : option N) : list Event := (λ k, Begin k StopAndWait timeout) <$> children.
Definition drain_all_children_and_wait (children : list nat) (timeout : option N) : list Event := (λ k, Begin k DrainAndWait timeout) <$> children.
Definition returned (first : nat) (children : list nat) (w : World) : Prop :=
  ∀ j, j < length children → ∃ t a, threads w !! (first + j) = Some t ∧ pc t = PDone a.

(** Each of the tasks runs once. *)
Definition each_once (first : nat) (children : list nat) : list Event := (λ i, Run i false) <$> seq first (length children).

Lemma waiting_run_app es es' w : run (es ++ es') w = run es' (run es w).
Proof. apply foldl_app. Qed.

Lemma run_begins children timeout w :
  run (stop_all_children_and_wait children timeout) w = mkWorld (cells w) (threads w ++ (cell_call StopAndWait timeout <$> children)).
Proof.
  revert w. induction children as [|k children IH]; intros w; cbn; [destruct w; by rewrite app_nil_r|]. unfold run in IH. rewrite IH. cbn. by rewrite <-app_assoc.
Qed.

(** A refused request changes nothing but the ports *)
Lemma refused_once i k timeout w :
  threads w !! i = Some (cell_call StopAndWait timeout k) → stop_tx (cells w k) = false →
  threads (step (Run i false) w) = <[i := set_pc (PDone Messaging) (cell_call StopAndWait timeout k)]> (threads w) ∧
  ∀ x, stop_tx (cells (step (Run i false) w) x) = stop_tx (cells w x) ∧ c_status (cells (step (Run i false) w) x) = c_status (cells w x).
Proof.
  intros Hi Hs. cbn [step]. rewrite Hi. cbn. rewrite Hs. split; [done|]. intros x. destruct (decide (x = k)) as [->|]; [by rewrite set_cell_eq|by rewrite set_cell_ne].
Qed.

Lemma refused_all children timeout w l :
  threads w = l ++ (cell_call StopAndWait timeout <$> children) → (∀ k, k ∈ children → stop_tx (cells w k) = false) →
  let w' := run (each_once (length l) children) w in
  threads w' = l ++ ((λ k, set_pc (PDone Messaging) (cell_call StopAndWait timeout k)) <$> children) ∧ ∀ x, c_status (cells w' x) = c_status (cells w x).
Proof.
  revert w l. induction children as [|k children IH]; intros w l Hw Hs; [done|].
  destruct (refused_once (length l) k timeout w) as [H1 H2]; [rewrite Hw, fmap_cons; by apply list_lookup_middle|apply Hs; by left|].
  set (w1 := step (Run (length l) false) w) in *.
  destruct (IH w1 (l ++ [set_pc (PDone Messaging) (cell_call StopAndWait timeout k)])) as [H3 H4].
  - rewrite H1, Hw. replace (length l) with (length l + 0) by lia. rewrite insert_app_r. by rewrite <-app_assoc.
  - intros x Hx. rewrite (proj1 (H2 x)). apply Hs. by right.
  - rewrite length_app, Nat.add_1_r in H3, H4. change (run (each_once (length l) (k :: children)) w) with (run (each_once (S (length l)) children) w1).
    split; [by rewrite H3, <-app_assoc|]. intros x. rewrite H4. apply H2.
Qed.

(** C21: Stopping all children and waiting for them does not wait for children that someone has asked to stop before: the second request
    is refused, which [stop_all_children_and_wait] takes to mean that the child is gone.  However many such children there are and
    whatever they are doing, it can return while all of them run. *)
Theorem stop_children_returns_early es children timeout :
  let w := run es wait_start in
  (∀ k, k ∈ children → stop_tx (cells w k) = false ∧ c_status (cells w k) ≠ Stopped) →
  let w' := run (stop_all_children_and_wait children timeout ++ each_once (length (threads w)) children) w in
  returned (length (threads w)) children w' ∧ ∀ k, k ∈ children → c_status (cells w' k) ≠ Stopped.
Proof.
  intros w Hc w'. subst w'. rewrite waiting_run_app, run_begins.
  destruct (refused_all children timeout (mkWorld (cells w) (threads w ++ (cell_call StopAndWait timeout <$> children))) (threads w)) as [H1 H2];
    [done|intros k Hk; by apply Hc|].
  split; [|intros k Hk; rewrite H2; by apply Hc]. intros j Hj. rewrite H1. destruct (lookup_lt_is_Some_2 children j Hj) as [k Hk].
  eexists _, _. rewrite lookup_app_r by lia. replace (length (threads w) + j - length (threads w)) with j by lia.
  rewrite list_lookup_fmap, Hk. done.
Qed.
End waiting.

(** ** Examples *)

Abbreviation sample_start := (wait_start (NT := nat * bool) (Ticket := nat)).

(** A call reads the status before it is stored, and polls after everyone was notified. *)
Definition late_poll : list Event := [Begin 0 Wait None; Run 0 false; Run 0 false; Run 0 false; Status 0 Stopped; Status 0 Stopped].

Lemma wait_exact_witness :
  ∃ t' a, threads (run [Run 0 false; Run 0 false; Run 0 false; Run 0 false] (run late_poll sample_start)) !! 0 = Some t' ∧ pc t' = PDone a ∧ target t' = 0 ∧
    (a = Done ∨ a = Timeout ∧ false = true ∨ a = Messaging ∧ (Wait = StopAndWait ∨ Wait = DrainAndWait)).
Proof.
  exact (proj2 (wait_exact (NT := nat * bool) (Ticket := nat) late_poll 0 (mkThread 0 Wait false (PAwait 0)) eq_refl) (or_introl eq_refl)
    [Run 0 false; Run 0 false; Run 0 false; Run 0 false] ltac:(vm_compute; lia)).
Defined.

(** Two children that run, and that have been asked to stop *)
Definition asked_to_stop : list Event := [Status 1 Running; Status 2 Running; StopRequest 1; StopRequest 2].

Lemma stop_children_returns_early_witness :
  let w' := run (stop_all_children_and_wait [1; 2] None ++ each_once 0 [1; 2]) (run asked_to_stop sample_start) in
  returned 0 [1; 2] w' ∧ ∀ k, k ∈ [1; 2] → c_status (cells w' k) ≠ Stopped.
Proof.
  apply (stop_children_returns_early (NT := nat * bool) (Ticket := nat) asked_to_stop [1; 2] None).
  intros k Hk. apply elem_of_cons in Hk as [->|Hk]; [by split|]. apply list_elem_of_singleton in Hk as ->. by split.
Defined.
