(* ===== verification/NodeServer.v ===== *)
(** The node server: election of one connection per peer, and the state of the server
    (src/ractor_cluster/src/node.rs).

    The server keeps a record of every session actor it spawned.  Two nodes can end up with several
    connections between them; when a session authenticates the server elects which of the authenticated
    sessions with that peer survive, and stops the others.  Both ends of a connection run the same
    election on their own view of it.

    A handle to a session actor is the actor's id.  What the server does to its environment is returned as
    a list of effects, in order; the result of spawning an actor is part of the message that asks for it. *)

From S2P Require Import Prelude ActorTypes.
From stdpp Require Import pretty.

(** ** Data *)

Definition PROTOCOL_VERSION : N := 1.
Definition DEFAULT_MAX_INBOUND_FRAME_SIZE : N := 16 * 1024 * 1024.

(** [auth.proto]: [NodeFlags] (the version) and [NameMessage]; [connection_id] is a [u64] *)
Record NameMessage := mkName {
  node_name : string;
  flags : option N;
  connection_string : string;
  name_connection_id : N
}.

#[global] Instance NameMessage_eq_dec : EqDecision NameMessage.
Proof. solve_decision. Defined.

Definition set_connection_id (id : N) (n : NameMessage) : NameMessage :=
  mkName (node_name n) (flags n) (connection_string n) id.

(** [NonZeroU64::new] *)
Definition nonzero (n : N) : option N := if bool_decide (n = 0%N) then None else Some n.

Inductive SessionCheckReply :=
| NoOtherConnection
| OtherConnectionContinues
| ThisConnectionContinues
| DuplicateConnection.

(** [auth.proto]: [ServerStatus.Status] *)
Inductive ServerStatus := StatusOk | OkSimultaneous | NotOk | NotAllowed | Alive.

(** [impl From<SessionCheckReply> for Status] *)
Definition status_of_reply (r : SessionCheckReply) : ServerStatus :=
  match r with
  | NoOtherConnection => StatusOk
  | ThisConnectionContinues => OkSimultaneous
  | OtherConnectionContinues => NotOk
  | DuplicateConnection => Alive
  end.

Inductive NodeConnectionMode := Transitive | Isolated.

Record NodeServerSessionInformation := mkInfo {
  ses_actor : ActorId;
  peer_name : option NameMessage;
  is_server : bool;
  node_id : nat;
  peer_addr : string
}.

Definition info_new (actor : ActorId) (server : bool) (id : nat) (addr : string) :
  NodeServerSessionInformation := mkInfo actor None server id addr.

Definition info_update (n : NameMessage) (i : NodeServerSessionInformation) : NodeServerSessionInformation :=
  mkInfo (ses_actor i) (Some n) (is_server i) (node_id i) (peer_addr i).

(** [NodeServerState]; a subscription handler is known by a number. *)
Record NodeServerState := mkServer {
  listener : ActorId;
  node_sessions : gmap ActorId NodeServerSessionInformation;
  node_id_counter : nat;
  this_node_name : NameMessage;
  subscriptions : gmap string nat;
  connection_ids : gmap ActorId (option N);
  authenticated_sessions : gset ActorId
}.

Definition with_sessions f (s : NodeServerState) : NodeServerState :=
  mkServer (listener s) (f (node_sessions s)) (node_id_counter s) (this_node_name s) (subscriptions s)
    (connection_ids s) (authenticated_sessions s).
Definition with_connection_ids f (s : NodeServerState) : NodeServerState :=
  mkServer (listener s) (node_sessions s) (node_id_counter s) (this_node_name s) (subscriptions s)
    (f (connection_ids s)) (authenticated_sessions s).
Definition with_authenticated f (s : NodeServerState) : NodeServerState :=
  mkServer (listener s) (node_sessions s) (node_id_counter s) (this_node_name s) (subscriptions s)
    (connection_ids s) (f (authenticated_sessions s)).
Definition with_subscriptions f (s : NodeServerState) : NodeServerState :=
  mkServer (listener s) (node_sessions s) (node_id_counter s) (this_node_name s) (f (subscriptions s))
    (connection_ids s) (authenticated_sessions s).
Definition with_listener l (s : NodeServerState) : NodeServerState :=
  mkServer l (node_sessions s) (node_id_counter s) (this_node_name s) (subscriptions s)
    (connection_ids s) (authenticated_sessions s).
Definition with_counter f (s : NodeServerState) : NodeServerState :=
  mkServer (listener s) (node_sessions s) (f (node_id_counter s)) (this_node_name s) (subscriptions s)
    (connection_ids s) (authenticated_sessions s).
Definition with_name f (s : NodeServerState) : NodeServerState :=
  mkServer (listener s) (node_sessions s) (node_id_counter s) (f (this_node_name s)) (subscriptions s)
    (connection_ids s) (authenticated_sessions s).

(** ** The election *)

Record SessionElectionCandidate := mkCandidate {
  cand_id : ActorId;
  cand_server : bool;
  cand_connection : option N
}.

#[global] Instance Candidate_eq_dec : EqDecision SessionElectionCandidate.
Proof. solve_decision. Defined.

Record SessionElection := mkElection { candidate_survives : bool; losers : list ActorId }.

(** [ActorId]'s derived order: local ids first, then by fields *)
Definition actor_id_le (a b : ActorId) : bool :=
  match a, b with
  | Local p, Local q => (p <=? q)%N
  | Local _, Remote _ _ => true
  | Remote _ _, Local _ => false
  | Remote n p, Remote m q => (n <? m)%N || ((n =? m)%N && (p <=? q)%N)
  end.

(** [Iterator::min] *)
Definition minimum {A} (le : A → A → bool) (l : list A) : option A :=
  match l with
  | [] => None
  | x :: l => Some (foldl (λ m y, if le m y then m else y) x l)
  end.

(** The connection initiated by the node whose name sorts last is retained. *)
Definition prefer_direction (this peer : string) (cs : list SessionElectionCandidate) :=
  if existsb cand_server cs && existsb (λ c, negb (cand_server c)) cs then
    match String.compare peer this with
    | Lt => filter (λ c, cand_server c = false) cs
    | Gt => filter (λ c, cand_server c = true) cs
    | Eq => cs
    end
  else cs.

(** The smallest nonce is retained. *)
Definition prefer_connection (cs : list SessionElectionCandidate) :=
  match minimum N.leb (omap cand_connection cs) with
  | Some id => filter (λ c, cand_connection c = Some id) cs
  | None => cs
  end.

(** The accepting end breaks a tie. *)
Definition break_tie (cs : list SessionElectionCandidate) :=
  if (1 <? length cs) && forallb cand_server cs then
    match minimum actor_id_le (cand_id <$> cs) with
    | Some winner => filter (λ c, cand_id c = winner) cs
    | None => cs
    end
  else cs.

Definition elect_sessions (this peer : string) (cs : list SessionElectionCandidate) : list ActorId :=
  if length cs <=? 1 then cand_id <$> cs
  else cand_id <$> break_tie (prefer_connection (prefer_direction this peer cs)).

(** ** Operations on the state *)

Section operations.
Context `{!HashSetIter ActorId} `{!HashSetIter string}.

(** [self.node_sessions.iter()] *)
Definition sessions_iter (s : NodeServerState) : list (ActorId * NodeServerSessionInformation) :=
  omap (λ id, pair id <$> node_sessions s !! id) (hs_iter (dom (node_sessions s))).

(** [session.peer_name.as_ref().map(|name| name.name.as_str())] *)
Definition name_of (i : NodeServerSessionInformation) : option string := node_name <$> peer_name i.

(** [self.connection_ids.get(id).copied().flatten()] *)
Definition connection_of (s : NodeServerState) (id : ActorId) : option N := mjoin (connection_ids s !! id).

Definition candidate_of (s : NodeServerState) (id : ActorId) (i : NodeServerSessionInformation) :=
  mkCandidate id (is_server i) (connection_of s id).

Definition register_session (id : ActorId) (n : NameMessage) (s : NodeServerState) : bool * NodeServerState :=
  match node_sessions s !! id with
  | None => (false, s)
  | Some i =>
      let s := with_sessions (insert id (info_update (set_connection_id 0 n) i)) s in
      (true, with_connection_ids (insert id (nonzero (name_connection_id n))) s)
  end.

Definition candidates_for_peer (s : NodeServerState) (peer : string) (authenticated_only : bool) :
  list SessionElectionCandidate :=
  omap (λ '(id, i),
    if bool_decide (name_of i = Some peer) &&
       (negb authenticated_only || bool_decide (id ∈ authenticated_sessions s))
    then Some (candidate_of s id i) else None) (sessions_iter s).

Definition check_candidate (s : NodeServerState) (id : ActorId) : SessionCheckReply :=
  match node_sessions s !! id with
  | None => OtherConnectionContinues
  | Some i =>
      match peer_name i with
      | None => OtherConnectionContinues
      | Some n =>
          let peer := node_name n in
          let cs := candidates_for_peer s peer true in
          let cs := if bool_decide (id ∈ authenticated_sessions s) then cs else cs ++ [candidate_of s id i] in
          let had_competition := 1 <? length cs in
          let elected := elect_sessions (node_name (this_node_name s)) peer cs in
          match bool_decide (id ∈ elected), had_competition with
          | true, false => NoOtherConnection
          | true, true => ThisConnectionContinues
          | false, _ => OtherConnectionContinues
          end
      end
  end.

Definition check_session (s : NodeServerState) (peer : NameMessage) : SessionCheckReply :=
  let id := nonzero (name_connection_id peer) in
  let matching :=
    omap (λ '(a, i),
      if bool_decide (name_of i = Some (node_name peer)) && bool_decide (connection_of s a = id)
      then Some a else None) (sessions_iter s) in
  match matching with
  | [a] => check_candidate s a
  | _ :: _ => NoOtherConnection
  | [] =>
      let existing := candidates_for_peer s (node_name peer) true in
      if bool_decide (existing = []) then NoOtherConnection
      else if existsb cand_server existing then DuplicateConnection
      else match String.compare (node_name peer) (node_name (this_node_name s)) with
           | Lt => ThisConnectionContinues
           | _ => OtherConnectionContinues
           end
  end.

Definition commit_authenticated (id : ActorId) (s : NodeServerState) : option SessionElection * NodeServerState :=
  match node_sessions s !! id ≫= peer_name with
  | None => (None, s)
  | Some n =>
      let peer := node_name n in
      let s := with_authenticated (union {[id]}) s in
      let elected := elect_sessions (node_name (this_node_name s)) peer (candidates_for_peer s peer true) in
      let lost := omap (λ '(a, i),
        if bool_decide (a ∈ authenticated_sessions s) && bool_decide (name_of i = Some peer)
           && negb (bool_decide (a ∈ elected))
        then Some (a, ses_actor i) else None) (sessions_iter s) in
      (Some (mkElection (bool_decide (id ∈ elected)) lost.*2),
       with_authenticated (λ X, foldl (λ X a, X ∖ {[a]}) X lost.*1) s)
  end.

Definition is_elected (s : NodeServerState) (id : ActorId) : bool :=
  if bool_decide (id ∈ authenticated_sessions s) then
    match node_sessions s !! id with
    | None => false
    | Some i =>
        match peer_name i with
        | None => false
        | Some n =>
            bool_decide (id ∈ elect_sessions (node_name (this_node_name s)) (node_name n)
                                (candidates_for_peer s (node_name n) true))
        end
    end
  else false.

(** ** The actor *)

(** [NodeServer]; the port is a [u16], the encryption mode and listen address are passed to the listener *)
Record NodeServer := mkNodeServer {
  port : N;
  cookie : string;
  server_node_name : string;
  hostname : string;
  connection_mode : NodeConnectionMode;
  max_inbound_frame_size : N
}.

Definition NodeServer_new (p : N) (c n h : string) (mode : option NodeConnectionMode) : NodeServer :=
  mkNodeServer p c n h (default Isolated mode) DEFAULT_MAX_INBOUND_FRAME_SIZE.

(** Messages; a message that makes the server spawn a session carries the outcome of the spawn. *)
Inductive NodeServerMessage :=
| ConnectionOpened (stream_peer_addr : string) (server : bool) (spawned : option ActorId)
| ConnectionOpenedExternal (peer_label : option string) (server : bool) (spawned : option ActorId)
| ConnectionAuthenticated (id : ActorId)
| ConnectionReady (id : ActorId)
| CheckSession (peer : NameMessage)
| UpdateSession (id : ActorId) (n : NameMessage)
| GetSessions
| SubscribeToEvents (id : string) (subscription : nat)
| UnsubscribeToEvents (id : string)
| PortChanged (p : N).

Inductive Notification :=
| node_session_opened (i : NodeServerSessionInformation)
| node_session_disconnected (i : NodeServerSessionInformation)
| node_session_authenticated (i : NodeServerSessionInformation)
| node_session_ready (i : NodeServerSessionInformation).

Inductive Effect :=
| Notify (subscription : nat) (n : Notification)
| StopActor (a : ActorId) (reason : string)
| ReplyCheck (r : SessionCheckReply)
| ReplySessions (m : gmap nat NodeServerSessionInformation).

(** [for sub in state.subscriptions.values()] *)
Definition notify_all (s : NodeServerState) (n : Notification) : list Effect :=
  omap (λ id, (λ sub, Notify sub n) <$> subscriptions s !! id) (hs_iter (dom (subscriptions s))).

Definition session_opened (addr : string) (server : bool) (spawned : option ActorId) (s : NodeServerState) :
  NodeServerState * list Effect :=
  match spawned with
  | None => (s, [])
  | Some a =>
      let i := info_new a server (node_id_counter s) addr in
      (with_counter S (with_sessions (insert a i) s), notify_all s (node_session_opened i))
  end.

(** [&state.node_sessions[&actor_id]] panics when there is no entry. *)
Definition session_at (s : NodeServerState) (id : ActorId) : res NodeServerSessionInformation :=
  match node_sessions s !! id with Some i => Ok i | None => Panic end.

Definition connection_authenticated (id : ActorId) (s : NodeServerState) : res (list Effect) * NodeServerState :=
  let '(e, s) := commit_authenticated id s in
  match e with
  | None => (Ok [], s)
  | Some e =>
      let stops := (λ a, StopActor a "duplicate_connection") <$> losers e in
      if candidate_survives e then
        match session_at s id with
        | Ok i => (Ok (stops ++ notify_all s (node_session_authenticated i)), s)
        | _ => (Panic, s)
        end
      else (Ok stops, s)
  end.

Definition connection_ready (id : ActorId) (s : NodeServerState) : res (list Effect) :=
  if is_elected s id then
    match session_at s id with
    | Ok i => Ok (notify_all s (node_session_ready i))
    | _ => Panic
    end
  else Ok [].

Definition get_sessions (s : NodeServerState) : gmap nat NodeServerSessionInformation :=
  foldl (λ m '(id, i), if bool_decide (id ∈ authenticated_sessions s) then <[node_id i := i]> m else m)
    ∅ (sessions_iter s).

Definition connection_string_of (self : NodeServer) (p : N) : string :=
  (hostname self +:+ ":" +:+ pretty p)%string.

Definition handle (self : NodeServer) (m : NodeServerMessage) (s : NodeServerState) :
  res (list Effect) * NodeServerState :=
  match m with
  | ConnectionOpened addr server spawned =>
      let '(s, es) := session_opened addr server spawned s in (Ok es, s)
  | ConnectionOpenedExternal label server spawned =>
      let '(s, es) := session_opened (default "external"%string label) server spawned s in (Ok es, s)
  | ConnectionAuthenticated id => connection_authenticated id s
  | ConnectionReady id => (connection_ready id s, s)
  | UpdateSession id n => (Ok [], (register_session id n s).2)
  | CheckSession peer => (Ok [ReplyCheck (check_session s peer)], s)
  | GetSessions => (Ok [ReplySessions (get_sessions s)], s)
  | SubscribeToEvents id sub => (Ok [], with_subscriptions (insert id sub) s)
  | UnsubscribeToEvents id => (Ok [], with_subscriptions (delete id) s)
  | PortChanged p =>
      (Ok [], with_name (λ n, mkName (node_name n) (flags n) (connection_string_of self p)
                                (name_connection_id n)) s)
  end.

(** The supervision events, as the server distinguishes them *)
Inductive ServerEvent := SessionFailed (a : ActorId) | SessionTerminated (a : ActorId) | OtherEvent.

(** A child is gone.  [respawned] is the outcome of spawning the listener again. *)
Definition child_exited (a : ActorId) (respawned : option ActorId) (s : NodeServerState) :
  res (list Effect) * NodeServerState :=
  if bool_decide (listener s = a) then
    match respawned with
    | Some l => (Ok [], with_listener l s)
    | None => (Err "spawn"%string, s)
    end
  else
    match node_sessions s !! a with
    | Some i =>
        let s := with_sessions (delete a) s in
        let s := with_connection_ids (delete a) s in
        let s := with_authenticated (λ X, X ∖ {[a]}) s in
        (Ok (notify_all s (node_session_disconnected i)), s)
    | None => (Ok [], s)
    end.

Definition handle_supervisor_evt (e : ServerEvent) (respawned : option ActorId) (s : NodeServerState) :
  res (list Effect) * NodeServerState :=
  match e with
  | SessionFailed a => child_exited a respawned s
  | SessionTerminated a => child_exited a respawned s
  | OtherEvent => (Ok [], s)
  end.

Definition pre_start (self : NodeServer) (spawned : option ActorId) : res NodeServerState :=
  match spawned with
  | Some l =>
      Ok (mkServer l ∅ 0
            (mkName (server_node_name self +:+ "@" +:+ hostname self) (Some PROTOCOL_VERSION)
               (connection_string_of self (port self)) 0) ∅ ∅ ∅)
  | None => Err "spawn"%string
  end.
End operations.

(** ** The election: lemmas *)

Section minimum.
Context {A : Type} (le : A → A → bool).
Hypothesis le_total : ∀ x y, le x y = true ∨ le y x = true.
Hypothesis le_trans : ∀ x y z, le x y = true → le y z = true → le x z = true.
Hypothesis le_antisym : ∀ x y, le x y = true → le y x = true → x = y.

Lemma minimum_some l : l ≠ [] → ∃ m, minimum le l = Some m ∧ m ∈ l ∧ ∀ x, x ∈ l → le m x = true.
Proof.
  destruct l as [|x l]; [done|intros _]. simpl. eexists; split; [done|]. revert x.
  assert (Hrefl : ∀ x, le x x = true) by (intros x; by destruct (le_total x x)).
  induction l as [|y l IH]; intros x; simpl; [split; [by left|]; by intros z ->%list_elem_of_singleton|].
  destruct (IH (if le x y then x else y)) as [Hin Hle]. destruct (le x y) eqn:E.
  - split; [apply elem_of_cons in Hin as [->|]; by repeat constructor|].
    intros z [->|[->|Hz]%elem_of_cons]%elem_of_cons; [apply Hle; by constructor| |apply Hle; by constructor].
    apply (le_trans _ x); [apply Hle; by constructor|done].
  - split; [by constructor|]. intros z [->|Hz]%elem_of_cons; [|by apply Hle].
    apply (le_trans _ y); [apply Hle; by constructor|]. destruct (le_total x y); congruence.
Qed.

Lemma minimum_unique l m : m ∈ l → (∀ x, x ∈ l → le m x = true) → minimum le l = Some m.
Proof.
  intros Hm Hle. destruct (minimum_some l) as (m' & -> & Hm' & Hle'); [by intros ->; apply not_elem_of_nil in Hm|].
  f_equal. apply le_antisym; auto.
Qed.

Lemma minimum_permutation l l' : l ≡ₚ l' → minimum le l = minimum le l'.
Proof.
  intros Hl. destruct (decide (l = [])) as [->|Hne].
  { apply Permutation_nil_l in Hl. by subst. }
  destruct (minimum_some l Hne) as (m & -> & Hin & Hle). symmetry.
  apply minimum_unique; [by rewrite <-Hl|]. intros x. rewrite <-Hl. auto.
Qed.
End minimum.

Lemma minimum_nil {A} (le : A → A → bool) l : minimum le l = None → l = [].
Proof. by destruct l. Qed.

Lemma actor_id_le_total a b : actor_id_le a b = true ∨ actor_id_le b a = true.
Proof.
  destruct a, b; simpl; auto; rewrite ?orb_true_iff, ?andb_true_iff, ?N.ltb_lt, ?N.eqb_eq, ?N.leb_le; lia.
Qed.

Lemma actor_id_le_trans a b c : actor_id_le a b = true → actor_id_le b c = true → actor_id_le a c = true.
Proof.
  destruct a, b, c; simpl; try done; rewrite ?orb_true_iff, ?andb_true_iff, ?N.ltb_lt, ?N.eqb_eq, ?N.leb_le; lia.
Qed.

Lemma actor_id_le_antisym a b : actor_id_le a b = true → actor_id_le b a = true → a = b.
Proof.
  destruct a, b; simpl; try done; rewrite ?orb_true_iff, ?andb_true_iff, ?N.ltb_lt, ?N.eqb_eq, ?N.leb_le;
    intros; f_equal; lia.
Qed.

Section election.
Implicit Types (cs : list SessionElectionCandidate) (c : SessionElectionCandidate) (this peer : string).

Lemma prefer_direction_perm this peer cs cs' :
  cs ≡ₚ cs' → prefer_direction this peer cs ≡ₚ prefer_direction this peer cs'.
Proof.
  intros Hc. unfold prefer_direction. rewrite !(existsb_permutation _ cs cs' Hc).
  destruct (_ && _); [|done]. by destruct (String.compare _ _); rewrite ?Hc.
Qed.

Lemma prefer_connection_perm cs cs' : cs ≡ₚ cs' → prefer_connection cs ≡ₚ prefer_connection cs'.
Proof.
  intros Hc. unfold prefer_connection.
  rewrite (minimum_permutation N.leb) with (l' := omap cand_connection cs'); [|intros *; rewrite ?N.leb_le; lia..|by rewrite Hc].
  destruct (minimum _ _); [by rewrite Hc|done].
Qed.

Lemma break_tie_perm cs cs' : cs ≡ₚ cs' → break_tie cs ≡ₚ break_tie cs'.
Proof.
  intros Hc. unfold break_tie. rewrite (forallb_permutation _ cs cs' Hc), (Permutation_length Hc).
  rewrite (minimum_permutation actor_id_le) with (l' := cand_id <$> cs');
    [|apply actor_id_le_total|apply actor_id_le_trans|apply actor_id_le_antisym|by rewrite Hc].
  destruct (_ && _); [|done]. destruct (minimum _ _); [by rewrite Hc|done].
Qed.

(** The shortcut for at most one candidate is an optimisation. *)
Lemma elect_stages this peer cs :
  elect_sessions this peer cs = cand_id <$> break_tie (prefer_connection (prefer_direction this peer cs)).
Proof.
  unfold elect_sessions. destruct cs as [|c [|c' cs]]; [done| |done]. simpl.
  unfold prefer_direction. simpl. rewrite orb_false_r, andb_comm.
  destruct (cand_server c) eqn:Es; simpl; unfold prefer_connection; simpl;
    destruct (cand_connection c) eqn:En; simpl;
    rewrite ?filter_cons_True by done; rewrite ?filter_nil; done.
Qed.

Lemma elect_sessions_perm this peer cs cs' :
  cs ≡ₚ cs' → elect_sessions this peer cs ≡ₚ elect_sessions this peer cs'.
Proof.
  intros Hc. rewrite !elect_stages.
  by rewrite (break_tie_perm _ _ (prefer_connection_perm _ _ (prefer_direction_perm this peer _ _ Hc))).
Qed.

Lemma break_tie_servers cs :
  cs ≠ [] → NoDup (cand_id <$> cs) → (∀ c, c ∈ cs → cand_server c = true) → ∃ c, c ∈ cs ∧ break_tie cs = [c].
Proof.
  intros Hne Hnd Hs. unfold break_tie. rewrite (proj2 (forallb_elem_of _ _) Hs), andb_true_r.
  destruct (1 <? length cs) eqn:El.
  - destruct (minimum_some actor_id_le actor_id_le_total actor_id_le_trans (cand_id <$> cs))
      as (m & -> & (c & -> & Hc)%list_elem_of_fmap & _); [by destruct cs|].
    exists c. split; [done|]. apply NoDup_same.
    + apply NoDup_filter. by eapply NoDup_fmap_1.
    + intros Hn. by eapply (not_elem_of_nil c); rewrite <-Hn, list_elem_of_filter.
    + intros c' [Hid Hc']%list_elem_of_filter. by eapply (NoDup_fmap_eq cand_id).
  - destruct cs as [|c [|]]; [done|..]; [|simpl in El; done]. exists c. split; [by left|done].
Qed.

Lemma break_tie_clients cs : (∀ c, c ∈ cs → cand_server c = false) → break_tie cs = cs.
Proof.
  intros Hc. unfold break_tie. destruct cs as [|c cs]; [done|].
  simpl. rewrite (Hc c) by (by left). by rewrite andb_false_r.
Qed.
End election.

(** ** Two nodes and the connections between them *)

(** A connection between node A and node B: who initiated it, its nonce, and the session actors at the two
    ends.  The initiator's end is a client session, the other a server session. *)
Record Connection := mkConnection { by_a : bool; nonce : option N; end_a : ActorId; end_b : ActorId }.

Definition view_a (c : Connection) := mkCandidate (end_a c) (negb (by_a c)) (nonce c).
Definition view_b (c : Connection) := mkCandidate (end_b c) (by_a c) (nonce c).

Section agreement.
Implicit Types (c : Connection) (cs : list Connection).

(** The first two stages, as a choice among connections *)
Definition pick_direction (a_last : bool) cs : list Connection :=
  if existsb by_a cs && existsb (λ c, negb (by_a c)) cs then filter (λ c, by_a c = a_last) cs else cs.
Definition pick_nonce cs : list Connection :=
  match minimum N.leb (omap nonce cs) with
  | Some id => filter (λ c, nonce c = Some id) cs
  | None => cs
  end.

Lemma existsb_negb_negb cs : existsb (λ c, negb (negb (by_a c))) cs = existsb by_a cs.
Proof. induction cs as [|c cs IH]; [done|]. cbn. by rewrite negb_involutive, IH. Qed.

Lemma prefer_direction_a (na nb : string) cs :
  na ≠ nb →
  prefer_direction na nb (view_a <$> cs) =
  view_a <$> pick_direction (match String.compare nb na with Lt => true | _ => false end) cs.
Proof.
  intros Hn. unfold prefer_direction, pick_direction. rewrite !existsb_fmap. cbn.
  rewrite existsb_negb_negb, andb_comm. destruct (_ && _); [|done].
  destruct (String.compare nb na) eqn:E; [by apply String.compare_eq_iff in E|..];
    rewrite filter_fmap_list; f_equal; apply list_filter_iff; intros c; cbn; by destruct (by_a c).
Qed.

Lemma prefer_direction_b (na nb : string) cs :
  na ≠ nb →
  prefer_direction nb na (view_b <$> cs) =
  view_b <$> pick_direction (match String.compare nb na with Lt => true | _ => false end) cs.
Proof.
  intros Hn. unfold prefer_direction, pick_direction. rewrite !existsb_fmap. cbn.
  destruct (_ && _); [|done]. rewrite String.compare_antisym.
  destruct (String.compare nb na) eqn:E; cbn; [by apply String.compare_eq_iff in E|..];
    by rewrite filter_fmap_list.
Qed.

Lemma prefer_connection_view (f : Connection → SessionElectionCandidate) cs :
  (∀ c, cand_connection (f c) = nonce c) → prefer_connection (f <$> cs) = f <$> pick_nonce cs.
Proof.
  intros Hf. unfold prefer_connection, pick_nonce. rewrite omap_fmap_list.
  rewrite (list_omap_ext _ nonce cs cs) by (apply Forall_Forall2_diag, Forall_true; auto).
  destruct (minimum _ _); [|done]. rewrite filter_fmap_list. f_equal.
  apply list_filter_iff. intros c. by rewrite Hf.
Qed.

Lemma pick_direction_spec d cs :
  cs ≠ [] → pick_direction d cs ≠ [] ∧ pick_direction d cs ⊆ cs ∧
  ∃ d', ∀ c, c ∈ pick_direction d cs → by_a c = d'.
Proof.
  intros Hne. unfold pick_direction. destruct (existsb by_a cs) eqn:Ea; simpl.
  - destruct (existsb (λ c, negb (by_a c)) cs) eqn:Eb; simpl.
    + apply existsb_elem_of in Ea as (ca & Ha & Ea). apply existsb_elem_of in Eb as (cb & Hb & Eb%negb_true_iff).
      split_and!; [|apply list_subseteq_filter|exists d; by intros c []%list_elem_of_filter].
      intros Hn. destruct d.
      * by eapply (filter_nil_not_elem_of _ _ ca Hn).
      * by eapply (filter_nil_not_elem_of _ _ cb Hn).
    + split_and!; [done|done|]. exists true. intros c Hc. destruct (by_a c) eqn:E; [done|].
      apply not_true_iff_false in Eb as []. apply existsb_elem_of. exists c. by rewrite E.
  - split_and!; [done|done|]. exists false. intros c Hc. destruct (by_a c) eqn:E; [|done].
    apply not_true_iff_false in Ea as []. apply existsb_elem_of. by exists c.
Qed.

Lemma pick_nonce_spec cs :
  cs ≠ [] → pick_nonce cs ≠ [] ∧ pick_nonce cs ⊆ cs ∧
  (∀ c c', c ∈ pick_nonce cs → c' ∈ pick_nonce cs → nonce c = nonce c').
Proof.
  intros Hne. unfold pick_nonce. destruct (minimum _ _) as [id|] eqn:Em.
  - assert (id ∈ omap nonce cs) as (c & Hc & Hid)%list_elem_of_omap.
    { destruct (minimum_some N.leb) with (l := omap nonce cs) as (m & Hm & Hin & _);
        [intros *; rewrite ?N.leb_le; lia..|intros Hn; by rewrite Hn in Em|congruence]. }
    split_and!; [|apply list_subseteq_filter|].
    + intros Hn. by eapply (filter_nil_not_elem_of _ _ c Hn).
    + by intros c1 c2 [-> _]%list_elem_of_filter [-> _]%list_elem_of_filter.
  - apply minimum_nil in Em. split_and!; [done|done|].
    assert (∀ c, c ∈ cs → nonce c = None) as Hno; [|intros; by rewrite !Hno].
    intros c Hc. destruct (nonce c) eqn:E; [|done]. exfalso. apply (not_elem_of_nil n). rewrite <-Em.
    apply list_elem_of_omap. by exists c.
Qed.

(** What the two ends elect, when the views are taken from one list of connections *)
Definition survivors (na nb : string) cs : list Connection :=
  pick_nonce (pick_direction (match String.compare nb na with Lt => true | _ => false end) cs).

Lemma survivors_spec na nb cs :
  cs ≠ [] → survivors na nb cs ≠ [] ∧ survivors na nb cs ⊆ cs ∧
  (∃ d, ∀ c, c ∈ survivors na nb cs → by_a c = d) ∧
  (∀ c c', c ∈ survivors na nb cs → c' ∈ survivors na nb cs → nonce c = nonce c').
Proof.
  intros Hne. destruct (pick_direction_spec (match String.compare nb na with Lt => true | _ => false end) cs Hne)
    as (Hd1 & Hd2 & d & Hd3).
  destruct (pick_nonce_spec _ Hd1) as (Hn1 & Hn2 & Hn3). unfold survivors.
  split_and!; [done|by etrans|exists d; auto|done].
Qed.

Lemma elect_views na nb cs :
  na ≠ nb →
  elect_sessions na nb (view_a <$> cs) = cand_id <$> break_tie (view_a <$> survivors na nb cs) ∧
  elect_sessions nb na (view_b <$> cs) = cand_id <$> break_tie (view_b <$> survivors na nb cs).
Proof.
  intros Hn. rewrite !elect_stages, prefer_direction_a, prefer_direction_b by done.
  by rewrite !prefer_connection_view.
Qed.

Lemma survivors_distinct {B} (f : Connection → B) na nb cs :
  NoDup (f <$> cs) → NoDup (f <$> survivors na nb cs).
Proof.
  intros H. unfold survivors, pick_nonce, pick_direction.
  destruct (_ && _), (minimum _ _); auto using NoDup_fmap_filter.
Qed.

(** One end has only server sessions among the survivors and picks one; the other keeps them all. *)
Lemma tie_at_accepting_end (f g : Connection → SessionElectionCandidate) cs :
  cs ≠ [] → NoDup (cand_id ∘ f <$> cs) → (∀ c, c ∈ cs → cand_server (f c) = true ∧ cand_server (g c) = false) →
  ∃ c, c ∈ cs ∧ cand_id <$> break_tie (f <$> cs) = [cand_id (f c)] ∧
       cand_id <$> break_tie (g <$> cs) = cand_id ∘ g <$> cs.
Proof.
  intros Hne Hnd Hs. rewrite list_fmap_compose in Hnd.
  destruct (break_tie_servers (f <$> cs)) as (fc & (c & -> & Hc)%list_elem_of_fmap & Hb);
    [by destruct cs|done|by intros ? (c & -> & Hc)%list_elem_of_fmap; apply Hs|].
  exists c. rewrite Hb, break_tie_clients; [by rewrite <-list_fmap_compose|].
  intros ? (c' & -> & Hc')%list_elem_of_fmap. by apply Hs.
Qed.

(** C23: the two ends of the connections between two nodes elect the same connection.  Whatever the
    connections between nodes A and B (with different names) - several, in both directions, with or
    without nonces - and in whatever order each server enumerates its sessions: some connection survives
    at both ends, and the end that accepted it elects nothing else.  The end that opened it elects nothing
    but connections that it opened with the same nonce, or without one, so when the nonces differ both ends
    elect exactly that one connection. *)
Theorem election_agreement (na nb : string) (cs : list Connection) (at_a at_b : list SessionElectionCandidate) :
  na ≠ nb → cs ≠ [] → NoDup (end_a <$> cs) → NoDup (end_b <$> cs) →
  at_a ≡ₚ view_a <$> cs → at_b ≡ₚ view_b <$> cs →
  let ea := elect_sessions na nb at_a in let eb := elect_sessions nb na at_b in
  ∃ c, c ∈ cs ∧ end_a c ∈ ea ∧ end_b c ∈ eb ∧
    (if by_a c then eb = [end_b c] ∧ ∀ x, x ∈ ea → ∃ c', c' ∈ cs ∧ x = end_a c' ∧ by_a c' = true ∧ nonce c' = nonce c
     else ea = [end_a c] ∧ ∀ x, x ∈ eb → ∃ c', c' ∈ cs ∧ x = end_b c' ∧ by_a c' = false ∧ nonce c' = nonce c) ∧
    (NoDup (nonce <$> cs) → ea = [end_a c] ∧ eb = [end_b c]).
Proof.
  intros Hn Hne Hda Hdb Ha Hb ea eb.
  assert (ea ≡ₚ cand_id <$> break_tie (view_a <$> survivors na nb cs)) as Hea.
  { subst ea. by rewrite (elect_sessions_perm _ _ _ _ Ha), (proj1 (elect_views na nb cs Hn)). }
  assert (eb ≡ₚ cand_id <$> break_tie (view_b <$> survivors na nb cs)) as Heb.
  { subst eb. by rewrite (elect_sessions_perm _ _ _ _ Hb), (proj2 (elect_views na nb cs Hn)). }
  clearbody ea eb. destruct (survivors_spec na nb cs Hne) as (Hs1 & Hs2 & [d Hs3] & Hs4).
  assert (NoDup (nonce <$> cs) → ∀ c, c ∈ survivors na nb cs → survivors na nb cs = [c]) as Hone.
  { intros Hd c Hc. apply NoDup_same; [by eapply NoDup_fmap_1, survivors_distinct|done|].
    intros y Hy. by eapply (NoDup_fmap_eq nonce); [by apply survivors_distinct|..|apply Hs4]. }
  pose proof (survivors_distinct end_a na nb cs Hda) as Hda'.
  pose proof (survivors_distinct end_b na nb cs Hdb) as Hdb'. destruct d.
  - destruct (tie_at_accepting_end view_b view_a (survivors na nb cs)) as (c & Hc & Eb & Ea);
      [done|done|by intros c Hc; cbn; rewrite Hs3|].
    rewrite Eb in Heb. apply Permutation_singleton_r in Heb as ->. rewrite Ea in Hea.
    exists c. rewrite (Hs3 c Hc). split_and!; [by apply Hs2|rewrite Hea; by apply (list_elem_of_fmap_2 end_a)|by left|done| |].
    { intros x Hx. rewrite Hea in Hx. apply list_elem_of_fmap in Hx as (c' & -> & Hc'). exists c'. split_and!; [by apply Hs2|done|by apply Hs3|by apply Hs4]. }
    intros Hd. split; [|done]. rewrite (Hone Hd c Hc) in Hea. by apply Permutation_singleton_r in Hea.
  - destruct (tie_at_accepting_end view_a view_b (survivors na nb cs)) as (c & Hc & Ea & Eb);
      [done|done|by intros c Hc; cbn; rewrite Hs3|].
    rewrite Ea in Hea. apply Permutation_singleton_r in Hea as ->. rewrite Eb in Heb.
    exists c. rewrite (Hs3 c Hc). split_and!; [by apply Hs2|by left|rewrite Heb; by apply (list_elem_of_fmap_2 end_b)|done| |].
    { intros x Hx. rewrite Heb in Hx. apply list_elem_of_fmap in Hx as (c' & -> & Hc'). exists c'. split_and!; [by apply Hs2|done|by apply Hs3|by apply Hs4]. }
    intros Hd. split; [done|]. rewrite (Hone Hd c Hc) in Heb. by apply Permutation_singleton_r in Heb.
Qed.

(** Two nodes that connected to each other at the same time, one of them twice *)
Abbreviation sample_connections :=
  [mkConnection true (Some 7%N) (Local 1) (Local 11);
   mkConnection false (Some 5%N) (Local 2) (Local 12);
   mkConnection false (Some 9%N) (Local 3) (Local 13)].

Lemma election_agreement_witness :
  ∃ c, c ∈ sample_connections ∧
    elect_sessions "a@h" "b@h" (view_a <$> sample_connections) = [end_a c] ∧
    elect_sessions "b@h" "a@h" (view_b <$> sample_connections) = [end_b c].
Proof.
  destruct (election_agreement "a@h" "b@h" sample_connections (view_a <$> sample_connections)
    (view_b <$> sample_connections)) as (c & Hc & _ & _ & _ & Hd);
    [done|done|by apply (bool_decide_unpack _); vm_compute|by apply (bool_decide_unpack _); vm_compute|done|done|].
  exists c. split; [done|]. apply Hd. by apply (bool_decide_unpack _); vm_compute.
Defined.
End agreement.

(** ** The state of the server: lemmas *)

Section server.
Context `{!HashSetIter ActorId} `{!HashSetIter string}.
Implicit Types (s : NodeServerState) (a : ActorId) (i : NodeServerSessionInformation)
  (cs : list SessionElectionCandidate).

Lemma elem_of_sessions_iter s a i : (a, i) ∈ sessions_iter s ↔ node_sessions s !! a = Some i.
Proof.
  unfold sessions_iter. rewrite list_elem_of_omap. split.
  - intros (b & _ & Hb). destruct (node_sessions s !! b) eqn:E; simplify_eq/=. done.
  - intros Hi. exists a. rewrite Hi. split; [|done]. rewrite elem_of_hs_iter. by apply elem_of_dom_2 in Hi.
Qed.

Lemma sessions_iter_once s : NoDup (sessions_iter s).*1.
Proof.
  unfold sessions_iter. assert (NoDup (hs_iter (dom (node_sessions s)))) as Hnd.
  { rewrite hs_iter_perm. apply NoDup_elements. }
  induction Hnd as [|a l Ha Hnd IH]; [constructor|]. simpl.
  destruct (node_sessions s !! a) eqn:E; simpl; [|done]. apply NoDup_cons. split; [|done].
  contradict Ha. apply list_elem_of_fmap in Ha as ([b j] & -> & (c & Hc & Hj)%list_elem_of_omap).
  destruct (node_sessions s !! c); by simplify_eq/=.
Qed.

Definition authenticated_for s (p : string) a i : Prop :=
  node_sessions s !! a = Some i ∧ name_of i = Some p ∧ a ∈ authenticated_sessions s.

Lemma elem_of_candidates s p c :
  c ∈ candidates_for_peer s p true ↔ ∃ a i, authenticated_for s p a i ∧ c = candidate_of s a i.
Proof.
  unfold candidates_for_peer, authenticated_for. rewrite list_elem_of_omap. split.
  - intros ([a i] & Hi%elem_of_sessions_iter & Hc). exists a, i.
    destruct (bool_decide _) eqn:E1; [|done]. simpl in Hc. destruct (bool_decide (a ∈ _)) eqn:E2; simplify_eq/=.
    apply bool_decide_eq_true in E1, E2. done.
  - intros (a & i & (Hi & Hn & Ha) & ->). exists (a, i). rewrite elem_of_sessions_iter. split; [done|].
    by rewrite !bool_decide_eq_true_2.
Qed.

Lemma candidates_once s p b : NoDup (cand_id <$> candidates_for_peer s p b).
Proof.
  unfold candidates_for_peer. pose proof (sessions_iter_once s) as Hnd.
  induction (sessions_iter s) as [|[a i] l IH]; [constructor|].
  rewrite fmap_cons, NoDup_cons in Hnd. destruct Hnd as [Ha Hnd]. cbn [omap list_omap].
  destruct (_ && _); [|by apply IH]. rewrite fmap_cons, NoDup_cons. split; [|by apply IH].
  contradict Ha. apply list_elem_of_fmap in Ha as (c & Hid & ([b' j] & Hj & Hc)%list_elem_of_omap).
  destruct (_ && _); [|done]. simplify_eq/=. by apply (list_elem_of_fmap_2 fst _ (b', j)).
Qed.

(** ** What an election leaves *)

(** No two candidates are in conflict: those that remain beside another are clients with one nonce. *)
Definition settled (cs : list SessionElectionCandidate) : Prop :=
  ∀ c c', c ∈ cs → c' ∈ cs → c ≠ c' →
    cand_server c = false ∧ cand_connection c = cand_connection c'.

Lemma settled_clients cs :
  settled cs → NoDup cs → 1 < length cs → ∀ c, c ∈ cs → cand_server c = false.
Proof.
  intros Hs Hnd Hl c Hc. destruct (decide (Exists (λ c', c' ≠ c) cs)) as [(c' & Hc' & Hne)%Exists_exists|Hno].
  - by apply (Hs c c').
  - rewrite (NoDup_same cs c) in Hl; [simpl in Hl; lia|done|by intros ->; apply not_elem_of_nil in Hc|].
    intros y Hy. destruct (decide (y = c)); [done|]. destruct Hno. apply Exists_exists. eauto.
Qed.

Lemma elect_settled_all this peer cs : settled cs → NoDup cs → elect_sessions this peer cs = cand_id <$> cs.
Proof.
  intros Hs Hnd. unfold elect_sessions. destruct (length cs <=? 1) eqn:El; [done|].
  apply Nat.leb_gt in El. pose proof (settled_clients cs Hs Hnd El) as Hc.
  assert (prefer_direction this peer cs = cs) as ->.
  { unfold prefer_direction. destruct (existsb cand_server cs) eqn:E; [|done].
    apply existsb_elem_of in E as (c & Hin & E). by rewrite Hc in E. }
  assert (prefer_connection cs = cs) as ->; [|by rewrite break_tie_clients].
  unfold prefer_connection. destruct (minimum _ _) as [id|] eqn:Em; [|done].
  assert (id ∈ omap cand_connection cs) as (c & Hin & Hid)%list_elem_of_omap.
  { destruct (minimum_some N.leb) with (l := omap cand_connection cs) as (m & Hm & ? & _);
      [intros *; rewrite ?N.leb_le; lia..|intros Hn; by rewrite Hn in Em|congruence]. }
  apply filter_all. intros c' Hc'. destruct (decide (c = c')) as [->|Hne]; [done|].
  destruct (Hs c c'); congruence.
Qed.

(** A candidate as one end of a connection *)
Definition connection_at (c : SessionElectionCandidate) : Connection :=
  mkConnection (negb (cand_server c)) (cand_connection c) (cand_id c) (cand_id c).

Lemma view_connection_at cs : view_a <$> (connection_at <$> cs) = cs.
Proof.
  induction cs as [|[] cs IH]; [done|]. rewrite !fmap_cons, IH. unfold view_a. cbn. by rewrite negb_involutive.
Qed.

Lemma elect_subseteq this peer cs : elect_sessions this peer cs ⊆ cand_id <$> cs.
Proof.
  rewrite elect_stages. apply fmap_subseteq_list. unfold break_tie, prefer_connection, prefer_direction.
  repeat (case_match || rewrite list_subseteq_filter); done.
Qed.

(** The elected ones are not in conflict, and there is one unless there was no candidate. *)
Lemma elect_settles this peer cs :
  this ≠ peer → NoDup (cand_id <$> cs) →
  (cs ≠ [] → elect_sessions this peer cs ≠ []) ∧
  (∀ c c', c ∈ cs → c' ∈ cs → cand_id c ∈ elect_sessions this peer cs → cand_id c' ∈ elect_sessions this peer cs →
    c ≠ c' → cand_server c = false ∧ cand_connection c = cand_connection c').
Proof.
  intros Hn Hnd. destruct (decide (cs = [])) as [->|Hne]; [split; [done|]; by intros c c' Hc%not_elem_of_nil|].
  assert (elect_sessions this peer cs =
    cand_id <$> break_tie (view_a <$> survivors this peer (connection_at <$> cs))) as ->.
  { by rewrite <-(proj1 (elect_views this peer _ Hn)), view_connection_at. }
  destruct (survivors_spec this peer (connection_at <$> cs)) as (Hs1 & Hs2 & [d Hs3] & Hs4); [by destruct cs|].
  assert (NoDup (cand_id <$> (view_a <$> survivors this peer (connection_at <$> cs)))) as Hnd'.
  { rewrite <-list_fmap_compose. apply (survivors_distinct end_a).
    by rewrite <-list_fmap_compose. }
  assert (view_a <$> survivors this peer (connection_at <$> cs) ⊆ cs) as Hsub.
  { rewrite <-(view_connection_at cs) at 2. by apply fmap_subseteq_list. }
  revert Hnd' Hsub. assert (view_a <$> survivors this peer (connection_at <$> cs) ≠ []) as Hne'
    by (by destruct (survivors this peer (connection_at <$> cs))).
  destruct d.
  - rewrite break_tie_clients; [|intros ? (c & -> & Hc)%list_elem_of_fmap; cbn; by rewrite Hs3].
    intros _ Hsub. split; [intros _; by destruct (survivors this peer (connection_at <$> cs))|].
    intros c c' Hc Hc' (c1 & E1 & H1)%list_elem_of_fmap (c2 & E2 & H2)%list_elem_of_fmap _.
    assert (c = c1) as <- by (eapply (NoDup_fmap_eq cand_id); eauto).
    assert (c' = c2) as <- by (eapply (NoDup_fmap_eq cand_id); eauto).
    apply list_elem_of_fmap in H1 as (k1 & -> & H1). apply list_elem_of_fmap in H2 as (k2 & -> & H2).
    split; [cbn; by rewrite Hs3|]. by apply Hs4.
  - intros Hnd' Hsub. destruct (break_tie_servers _ Hne' Hnd') as (c0 & Hc0 & ->);
      [intros ? (c & -> & Hc)%list_elem_of_fmap; cbn; by rewrite Hs3|].
    split; [done|]. intros c c' Hc Hc' E1%list_elem_of_singleton E2%list_elem_of_singleton [].
    apply (NoDup_fmap_eq cand_id cs); [done|done|done|congruence].
Qed.

(** ** Histories *)

Inductive server_op := OpMessage (m : NodeServerMessage) | OpEvent (e : ServerEvent) (respawned : option ActorId).

Definition server_step (self : NodeServer) s (o : server_op) : res (list Effect) * NodeServerState :=
  match o with
  | OpMessage m => handle self m s
  | OpEvent e r => handle_supervisor_evt e r s
  end.

(** What the server may rely on: an actor that was spawned has an id of its own, and a session announces
    its peer before it reports itself authenticated, and not as this node itself. *)
Definition op_allowed s (o : server_op) : Prop :=
  match o with
  | OpMessage (ConnectionOpened _ _ (Some a)) | OpMessage (ConnectionOpenedExternal _ _ (Some a)) =>
      node_sessions s !! a = None
  | OpMessage (UpdateSession a _) => ¬ (a ∈ authenticated_sessions s)
  | OpMessage (ConnectionAuthenticated a) =>
      ∀ i, node_sessions s !! a = Some i → name_of i ≠ Some (node_name (this_node_name s))
  | _ => True
  end.

Fixpoint server_history (self : NodeServer) s (ops : list server_op) : Prop :=
  match ops with
  | [] => True
  | o :: ops => op_allowed s o ∧ server_history self (server_step self s o).2 ops
  end.

Definition run_server (self : NodeServer) s (ops : list server_op) : NodeServerState :=
  foldl (λ s o, (server_step self s o).2) s ops.

Record server_inv s : Prop := {
  si_actor a i : node_sessions s !! a = Some i → ses_actor i = a ∧ node_id i < node_id_counter s;
  si_node_id a b i j : node_sessions s !! a = Some i → node_sessions s !! b = Some j → node_id i = node_id j → a = b;
  si_connection a : is_Some (connection_ids s !! a) → is_Some (node_sessions s !! a);
  si_named a : a ∈ authenticated_sessions s →
    ∃ i p, authenticated_for s p a i ∧ p ≠ node_name (this_node_name s);
  si_settled p a b i j : authenticated_for s p a i → authenticated_for s p b j → a ≠ b →
    is_server i = false ∧ connection_of s a = connection_of s b
}.

Lemma inv_candidates_settled s p : server_inv s → settled (candidates_for_peer s p true).
Proof.
  intros Hs c c' (a & i & Ha & ->)%elem_of_candidates (b & j & Hb & ->)%elem_of_candidates Hne. cbn.
  apply (si_settled s Hs p a b i j Ha Hb). intros ->. apply Hne. destruct Ha, Hb. congruence.
Qed.

Lemma inv_is_elected s a : server_inv s → a ∈ authenticated_sessions s → is_elected s a = true.
Proof.
  intros Hs Ha. destruct (si_named s Hs a Ha) as (i & p & Hp & _). unfold is_elected.
  rewrite bool_decide_eq_true_2 by done. destruct Hp as (Hi & Hn & _). rewrite Hi.
  unfold name_of in Hn. destruct (peer_name i) as [n|] eqn:En; simplify_eq/=.
  rewrite elect_settled_all; [|by apply inv_candidates_settled|eapply NoDup_fmap_1, candidates_once].
  apply bool_decide_eq_true_2, list_elem_of_fmap. exists (candidate_of s a i). split; [done|].
  apply elem_of_candidates. exists a, i. split; [|done]. split_and!; [done| |done]. unfold name_of. by rewrite En.
Qed.

(** ** Authentication *)

(** What [commit_authenticated] does to the sessions of the peer *)
Record committed a (p : string) s (e : SessionElection) s' : Prop := {
  cm_sessions : node_sessions s' = node_sessions s ∧ connection_ids s' = connection_ids s ∧
    node_id_counter s' = node_id_counter s ∧ this_node_name s' = this_node_name s ∧ subscriptions s' = subscriptions s;
  cm_authenticated b : b ∈ authenticated_sessions s' ↔
    (b = a ∨ b ∈ authenticated_sessions s) ∧
    (∀ j, node_sessions s !! b = Some j → name_of j = Some p →
       b ∈ elect_sessions (node_name (this_node_name s)) p
             (candidates_for_peer (with_authenticated (union {[a]}) s) p true));
  cm_survives : candidate_survives e = bool_decide (a ∈ authenticated_sessions s');
  cm_losers b : (∀ c j, node_sessions s !! c = Some j → ses_actor j = c) →
    b ∈ losers e ↔ (b = a ∨ b ∈ authenticated_sessions s) ∧ ¬ (b ∈ authenticated_sessions s') ∧
      is_Some (node_sessions s !! b)
}.

Lemma foldl_difference (X : gset ActorId) (l : list ActorId) b :
  b ∈ foldl (λ X a, X ∖ {[a]}) X l ↔ b ∈ X ∧ ¬ (b ∈ l).
Proof. revert X. induction l as [|a l IH]; intros X; simpl; [set_solver|]. rewrite IH. set_solver. Qed.

Lemma commit_effect a n s :
  node_sessions s !! a ≫= peer_name = Some n →
  ∃ e s', commit_authenticated a s = (Some e, s') ∧ committed a (node_name n) s e s'.
Proof.
  intros Hn. unfold commit_authenticated. rewrite Hn. cbv zeta. eexists _, _. split; [done|].
  set (t := with_authenticated (union {[a]}) s). set (el := elect_sessions _ _ _).
  set (lost := omap _ (sessions_iter t)).
  assert (Hlost : ∀ b x, (b, x) ∈ lost ↔ ∃ j, node_sessions s !! b = Some j ∧ (b = a ∨ b ∈ authenticated_sessions s) ∧
    name_of j = Some (node_name n) ∧ ¬ (b ∈ el) ∧ x = ses_actor j).
  { intros b x. unfold lost. rewrite list_elem_of_omap. split.
    - intros ([b' j] & Hj%elem_of_sessions_iter & Hc). exists j.
      destruct (_ && _) eqn:E; simplify_eq/=. rewrite !andb_true_iff, negb_true_iff, !bool_decide_eq_true,
        bool_decide_eq_false in E. destruct E as [[Ha Hp] Hel]. split_and!; try done. set_solver.
    - intros (j & Hj & Ha & Hp & Hel & ->). exists (b, j). rewrite elem_of_sessions_iter. split; [done|].
      rewrite (bool_decide_eq_true_2 (b ∈ _)) by (unfold t; cbn; set_solver).
      by rewrite bool_decide_eq_true_2, bool_decide_eq_false_2. }
  assert (Hids : ∀ b, b ∈ lost.*1 ↔ ∃ j, node_sessions s !! b = Some j ∧ (b = a ∨ b ∈ authenticated_sessions s) ∧
    name_of j = Some (node_name n) ∧ ¬ (b ∈ el)).
  { intros b. rewrite list_elem_of_fmap. split.
    - intros ([b' x] & -> & (j & ? & ? & ? & ? & ?)%Hlost). by exists j.
    - intros (j & ? & ? & ? & ?). exists (b, ses_actor j). split; [done|]. apply Hlost. by exists j. }
  clearbody lost. assert (Hauth : ∀ b, b ∈ foldl (λ X c, X ∖ {[c]}) (authenticated_sessions t) lost.*1 ↔
    (b = a ∨ b ∈ authenticated_sessions s) ∧
    (∀ j, node_sessions s !! b = Some j → name_of j = Some (node_name n) → b ∈ el)).
  { intros b. rewrite foldl_difference, Hids. unfold t. cbn [authenticated_sessions with_authenticated].
    rewrite elem_of_union, elem_of_singleton.
    split; intros [Hb Hel]; split; try done.
    - intros j Hj Hp. destruct (decide (b ∈ el)); [done|]. destruct Hel. by exists j.
    - intros (j & Hj & _ & Hp & []). by apply (Hel j). }
  split.
  - done.
  - exact Hauth.
  - change (bool_decide (a ∈ el) = bool_decide (a ∈ foldl (λ X c, X ∖ {[c]}) (authenticated_sessions t) lost.*1)).
    apply bool_decide_ext. rewrite Hauth. split; [by intros; split; [left|]|]. intros [_ Hel].
    destruct (node_sessions s !! a) as [i|] eqn:Ei; [|done]. apply (Hel i); [done|]. unfold name_of.
    by rewrite (Hn : peer_name i = Some n).
  - intros b Hact. etrans; [apply list_elem_of_fmap|].
    etrans; [|apply and_iff_compat_l, and_iff_compat_r, not_iff_compat; symmetry; exact (Hauth b)]. split.
    + intros ([b' x] & -> & (j & Hj & Hb & Hp & Hel & ->)%Hlost). rewrite (Hact _ _ Hj).
      split_and!; [done| |done]. intros [_ Hno]. by apply Hel, (Hno j).
    + intros (Hb & Hno & [j Hj]). exists (b, ses_actor j). split; [by rewrite (Hact b j)|].
      apply Hlost. exists j. destruct (decide (name_of j = Some (node_name n) ∧ ¬ (b ∈ el))) as [[Hp Hel]|Hd];
        [done|]. destruct Hno. split; [done|]. intros j' Hj' Hp. simplify_eq.
      destruct (decide (b ∈ el)); [done|]. by destruct Hd.
Qed.

Lemma committed_inv a n s e s' :
  server_inv s → node_sessions s !! a ≫= peer_name = Some n → node_name n ≠ node_name (this_node_name s) →
  committed a (node_name n) s e s' → server_inv s'.
Proof.
  intros Hs Hn Hne [(Es & Ec & Eo & Et & _) Hauth _ _].
  assert (Haf : ∀ p b j, authenticated_for s' p b j →
    (p = node_name n ∧ candidate_of s b j ∈ candidates_for_peer (with_authenticated (union {[a]}) s) p true ∧
       b ∈ elect_sessions (node_name (this_node_name s)) p
             (candidates_for_peer (with_authenticated (union {[a]}) s) p true)) ∨
    (p ≠ node_name n ∧ authenticated_for s p b j)).
  { intros p b j (Hj & Hp & Hb). rewrite Es in Hj. apply Hauth in Hb as [Hb Hel].
    destruct (decide (p = node_name n)) as [->|Hpn]; [left|right]; (split; [done|]).
    - split; [|by apply (Hel j)]. apply elem_of_candidates. exists b, j. split; [|done].
      split_and!; [done|done|]. cbn. set_solver.
    - split_and!; [done|done|]. destruct Hb as [->|?]; [|done]. rewrite Hj in Hn. simpl in Hn.
      unfold name_of in Hp. rewrite Hn in Hp. by simplify_eq/=. }
  split.
  - intros b i. rewrite Es, Eo. apply (si_actor s Hs).
  - intros b c i j. rewrite Es. apply (si_node_id s Hs).
  - intros b. rewrite Es, Ec. apply (si_connection s Hs).
  - intros b Hb. rewrite Et. pose proof Hb as [Hb' _]%Hauth. destruct Hb' as [->|Hb'].
    + destruct (node_sessions s !! a) as [i|] eqn:Ei; [|done]. exists i, (node_name n).
      split; [|done]. split_and!; [by rewrite Es| |done]. unfold name_of. by rewrite (Hn : peer_name i = Some n).
    + destruct (si_named s Hs b Hb') as (i & p & (Hi & Hp & _) & Hpn). exists i, p. split; [|done].
      split_and!; [by rewrite Es|done|done].
  - intros p b c i j Hb Hc Hbc.
    assert (connection_of s' = connection_of s) as -> by (unfold connection_of; by rewrite Ec).
    destruct (Haf _ _ _ Hb) as [(Hp & Hb1 & Hb2)|[Hpn Hb1]], (Haf _ _ _ Hc) as [(Hp' & Hc1 & Hc2)|[? Hc1]];
      [|done|done|by apply (si_settled s Hs p b c i j)]. subst p.
    apply (proj2 (elect_settles (node_name (this_node_name s)) (node_name n) _
      (not_eq_sym Hne) (candidates_once _ _ _)) (candidate_of s b i) (candidate_of s c j) Hb1 Hc1 Hb2 Hc2).
    unfold candidate_of. congruence.
Qed.

Lemma inv_same_server s s' :
  node_sessions s' = node_sessions s → connection_ids s' = connection_ids s →
  authenticated_sessions s' = authenticated_sessions s → node_id_counter s' = node_id_counter s →
  node_name (this_node_name s') = node_name (this_node_name s) → server_inv s → server_inv s'.
Proof.
  intros E1 E2 E3 E4 E5 [H1 H2 H3 H4 H5].
  unfold authenticated_for, connection_of in *.
  by split; unfold authenticated_for, connection_of; rewrite ?E1, ?E2, ?E3, ?E4, ?E5.
Qed.

Lemma inv_opened addr server a s :
  node_sessions s !! a = None → server_inv s → server_inv (session_opened addr server (Some a) s).1.
Proof.
  intros Ha Hs. assert (Hna : ¬ (a ∈ authenticated_sessions s)).
  { intros (i & p & (Hi & _) & _)%(si_named s Hs). congruence. }
  assert (Hother : ∀ p b j, authenticated_for (session_opened addr server (Some a) s).1 p b j →
    authenticated_for s p b j).
  { intros p b j (Hj & Hp & Hb). cbn in *. assert (a ≠ b) by set_solver.
    by rewrite lookup_insert_ne in Hj. }
  split.
  - intros b i. cbn. destruct (decide (a = b)) as [<-|]; [rewrite lookup_insert_eq|rewrite lookup_insert_ne by done].
    + intros [= <-]. cbn. split; [done|lia].
    + intros [? ?]%(si_actor s Hs). split; [done|lia].
  - intros b c i j. cbn. destruct (decide (a = b)) as [<-|], (decide (a = c)) as [<-|];
      rewrite ?lookup_insert_eq, ?lookup_insert_ne by done; [done|..].
    + intros [= <-] [_ Hj]%(si_actor s Hs). cbn. lia.
    + intros [_ Hi]%(si_actor s Hs) [= <-]. cbn. lia.
    + apply (si_node_id s Hs).
  - intros b Hb%(si_connection s Hs). cbn. rewrite lookup_insert_is_Some. destruct (decide (a = b)); auto.
  - intros b Hb. cbn in Hb |- *. assert (a ≠ b) by set_solver.
    destruct (si_named s Hs b Hb) as (i & p & (Hi & Hp & _) & Hpn). exists i, p. split; [|done].
    split_and!; [|done|done]. cbn. by rewrite lookup_insert_ne.
  - intros p b c i j Hb%Hother Hc%Hother. apply (si_settled s Hs p b c i j Hb Hc).
Qed.

Lemma inv_updated a n s :
  ¬ (a ∈ authenticated_sessions s) → server_inv s → server_inv (register_session a n s).2.
Proof.
  intros Hna Hs. unfold register_session. destruct (node_sessions s !! a) as [i0|] eqn:E0; [|done].
  assert (Hother : ∀ p b j, authenticated_for
     (with_connection_ids (insert a (nonzero (name_connection_id n)))
        (with_sessions (insert a (info_update (set_connection_id 0 n) i0)) s)) p b j →
    a ≠ b ∧ authenticated_for s p b j).
  { intros p b j (Hj & Hp & Hb). cbn in *. assert (a ≠ b) by set_solver.
    by rewrite lookup_insert_ne in Hj. }
  destruct (si_actor s Hs a i0 E0) as [Ea Hid]. split.
  - intros b i. cbn. destruct (decide (a = b)) as [<-|]; [rewrite lookup_insert_eq|rewrite lookup_insert_ne by done].
    + by intros [= <-].
    + apply (si_actor s Hs).
  - intros b c i j. cbn. destruct (decide (a = b)) as [<-|], (decide (a = c)) as [<-|];
      rewrite ?lookup_insert_eq, ?lookup_insert_ne by done; [done|..].
    + intros [= <-] Hj. cbn. by apply (si_node_id s Hs).
    + intros Hi [= <-]. cbn. by apply (si_node_id s Hs).
    + apply (si_node_id s Hs).
  - intros b. cbn. rewrite !lookup_insert_is_Some. intros [?|[? ?]]; [by left|].
    right. split; [done|]. by apply (si_connection s Hs).
  - intros b Hb. cbn in Hb |- *. assert (a ≠ b) by set_solver.
    destruct (si_named s Hs b Hb) as (i & p & (Hi & Hp & _) & Hpn). exists i, p. split; [|done].
    split_and!; [|done|done]. cbn. by rewrite lookup_insert_ne.
  - intros p b c i j [Hb Hb']%Hother [Hc Hc']%Hother Hbc. unfold connection_of. cbn.
    rewrite !lookup_insert_ne by done. by apply (si_settled s Hs p b c i j).
Qed.

Lemma inv_exited a r s : server_inv s → server_inv (child_exited a r s).2.
Proof.
  intros Hs. unfold child_exited. destruct (bool_decide _); [destruct r; [by apply (inv_same_server s)|done]|].
  destruct (node_sessions s !! a) as [i0|] eqn:E0; [|done]. cbv zeta. cbn [snd].
  assert (Hother : ∀ p b j, authenticated_for
     (with_authenticated (λ X, X ∖ {[a]}) (with_connection_ids (delete a) (with_sessions (delete a) s))) p b j →
    a ≠ b ∧ authenticated_for s p b j).
  { intros p b j (Hj & Hp & Hb). cbn in *. assert (a ≠ b) by set_solver.
    rewrite lookup_delete_ne in Hj by done. split_and!; [done|]. split_and!; [done|done|set_solver]. }
  split.
  - intros b i. cbn. intros [_ Hi]%lookup_delete_Some. by apply (si_actor s Hs).
  - intros b c i j. cbn. intros [_ Hi]%lookup_delete_Some [_ Hj]%lookup_delete_Some. by apply (si_node_id s Hs).
  - intros b. cbn. intros [x [Hne Hb]%lookup_delete_Some]. rewrite lookup_delete_ne by done.
    apply (si_connection s Hs). by exists x.
  - intros b Hb. cbn in Hb |- *. assert (a ≠ b) by set_solver.
    destruct (si_named s Hs b) as (i & p & (Hi & Hp & _) & Hpn); [set_solver|]. exists i, p. split; [|done].
    split_and!; [|done|done]. cbn. by rewrite lookup_delete_ne.
  - intros p b c i j [Hb Hb']%Hother [Hc Hc']%Hother Hbc. unfold connection_of. cbn.
    rewrite !lookup_delete_ne by done. by apply (si_settled s Hs p b c i j).
Qed.

Lemma inv_authenticated a s :
  op_allowed s (OpMessage (ConnectionAuthenticated a)) → server_inv s →
  (connection_authenticated a s).1 ≠ Panic ∧ server_inv (connection_authenticated a s).2.
Proof.
  intros Hok Hs. unfold connection_authenticated. destruct (node_sessions s !! a ≫= peer_name) as [n|] eqn:En.
  - destruct (commit_effect a n s En) as (e & s' & -> & Hc).
    assert (server_inv s') as Hs'.
    { eapply committed_inv; [exact Hs|exact En| |exact Hc]. destruct (node_sessions s !! a) as [i|] eqn:Ei; [|done].
      specialize (Hok i Ei). unfold name_of in Hok. rewrite (En : peer_name i = Some n) in Hok. intros E. apply Hok. cbn. by rewrite E. }
    unfold session_at. destruct (candidate_survives e) eqn:Esv; [|done].
    rewrite (cm_survives _ _ _ _ _ Hc) in Esv. apply bool_decide_eq_true in Esv.
    destruct (si_named s' Hs' a Esv) as (i & p & (Hi & _) & _). by rewrite Hi.
  - unfold commit_authenticated. by rewrite En.
Qed.

Lemma inv_step_server self s o :
  server_inv s → op_allowed s o → (server_step self s o).1 ≠ Panic ∧ server_inv (server_step self s o).2.
Proof.
  intros Hs Hok. destruct o as [m|e r]; cbn [server_step].
  - destruct m as [addr sv [a|]|l sv [a|]|a|a|pn|a n| |id sub|id|p]; cbn [handle].
    + split; [done|]. by apply inv_opened.
    + done.
    + split; [done|]. by apply inv_opened.
    + done.
    + by apply inv_authenticated.
    + split; [|done]. unfold connection_ready, session_at. destruct (is_elected s a) eqn:E; [|done].
      unfold is_elected in E. destruct (bool_decide _); [|done]. by destruct (node_sessions s !! a).
    + done.
    + split; [done|]. by apply inv_updated.
    + done.
    + split; [done|]. by apply (inv_same_server s).
    + split; [done|]. by apply (inv_same_server s).
    + split; [done|]. by apply (inv_same_server s).
  - split; [|by destruct e; [apply inv_exited..|]]. unfold handle_supervisor_evt, child_exited.
    destruct e as [a|a|]; [..|done]; (destruct (bool_decide _); [by destruct r|by destruct (node_sessions s !! a)]).
Qed.

Lemma inv_run_server self s ops : server_inv s → server_history self s ops → server_inv (run_server self s ops).
Proof.
  revert s. induction ops as [|o ops IH]; intros s Hs; [done|]. intros [Ho Hops]. cbn.
  apply IH; [|done]. by apply inv_step_server.
Qed.

Lemma inv_pre_start self l s : pre_start self (Some l) = Ok s → server_inv s.
Proof.
  intros [= <-]. split; cbn.
  - intros a i. by rewrite lookup_empty.
  - intros a b i j. by rewrite lookup_empty.
  - intros a [x Hx]. by rewrite lookup_empty in Hx.
  - set_solver.
  - intros p a b i j (Hi & _). cbn in Hi. by rewrite lookup_empty in Hi.
Qed.

(** ** Listing *)

Lemma get_sessions_fold (X : gset ActorId) (l : list (ActorId * NodeServerSessionInformation))
    (m : gmap nat NodeServerSessionInformation) k i :
  (∀ a b i j, (a, i) ∈ l → (b, j) ∈ l → node_id i = node_id j → i = j) →
  foldl (λ m '(id, i), if bool_decide (id ∈ X) then <[node_id i := i]> m else m) m l !! k = Some i ↔
  (∃ a, (a, i) ∈ l ∧ a ∈ X ∧ node_id i = k) ∨
  (m !! k = Some i ∧ ∀ a j, (a, j) ∈ l → a ∈ X → node_id j ≠ k).
Proof.
  revert m. induction l as [|[a j] l IH]; intros m Hl; cbn [foldl].
  { split; [intros Hm; right; split; [done|]; by intros a j Hj%not_elem_of_nil|].
    intros [(a & Ha%not_elem_of_nil & _)|[? _]]; done. }
  rewrite IH by (intros a1 b1 i1 j1 H1 H2; apply (Hl a1 b1); by right). clear IH. split.
  - intros [(b & Hb & HX & Hk)|[Hm Hno]]; [left; exists b; by repeat split; [right|..]|].
    destruct (bool_decide (a ∈ X)) eqn:E.
    + apply bool_decide_eq_true in E. destruct (decide (node_id j = k)) as [Hk|Hk].
      * rewrite Hk, lookup_insert_eq in Hm. simplify_eq. left. exists a. by split; [left|].
      * rewrite lookup_insert_ne in Hm by done. right. split; [done|]. intros b j' [[= -> ->]|Hb]%elem_of_cons; eauto.
    + apply bool_decide_eq_false in E. right. split; [done|]. intros b j' [[= -> ->]|Hb]%elem_of_cons; eauto.
  - intros [(b & [[= -> ->]|Hb]%elem_of_cons & HX & Hk)|[Hm Hno]].
    + rewrite bool_decide_eq_true_2 by done.
      destruct (decide (Exists (λ x, x.1 ∈ X ∧ node_id x.2 = k) l)) as [([c j'] & Hc & HX' & Hk')%Exists_exists|Hno].
      * left. exists c. assert (j = j') as <-; [|done]. apply (Hl a c); [by left|by right|]. simpl in *. congruence.
      * right. split; [by rewrite Hk, lookup_insert_eq|]. intros c j' Hc HX' Hk'. destruct Hno.
        apply Exists_exists. by exists (c, j').
    + left. eauto.
    + right. split; [|intros b j' Hb; apply (Hno b); by right].
      destruct (bool_decide (a ∈ X)) eqn:E; [|done]. rewrite lookup_insert_ne; [done|].
      apply (Hno a); [by left|by apply bool_decide_eq_true in E].
Qed.

Lemma get_sessions_spec s k i :
  server_inv s → get_sessions s !! k = Some i ↔
    ∃ a, node_sessions s !! a = Some i ∧ a ∈ authenticated_sessions s ∧ node_id i = k.
Proof.
  intros Hs. unfold get_sessions. rewrite get_sessions_fold.
  - rewrite lookup_empty. setoid_rewrite elem_of_sessions_iter. split; [|by left]. by intros [?|[? _]].
  - intros a b i1 j1 Hi%elem_of_sessions_iter Hj%elem_of_sessions_iter Hid.
    assert (a = b) as -> by (by eapply si_node_id). congruence.
Qed.

(** C24: a node keeps one settled choice of sessions per peer.  After any history of connections,
    handshakes, crashes and subscriptions, the server does not panic on the next message; every
    authenticated session would win the election held now; two authenticated sessions with the same peer
    are both outgoing and share their nonce, so at most one accepted connection per peer is in use; and
    the sessions reported to callers are exactly the authenticated ones. *)
Theorem sessions_settled (self : NodeServer) (l : ActorId) (s0 : NodeServerState) (ops : list server_op) (o : server_op) :
  pre_start self (Some l) = Ok s0 → server_history self s0 ops →
  let s := run_server self s0 ops in op_allowed s o →
  (server_step self s o).1 ≠ Panic ∧
  (∀ a, a ∈ authenticated_sessions s → is_elected s a = true) ∧
  (∀ p a b i j, authenticated_for s p a i → authenticated_for s p b j → a ≠ b →
     is_server i = false ∧ is_server j = false ∧ connection_of s a = connection_of s b) ∧
  (∀ k i, get_sessions s !! k = Some i ↔
     ∃ a, node_sessions s !! a = Some i ∧ a ∈ authenticated_sessions s ∧ node_id i = k).
Proof.
  intros H0 Hops s Ho. assert (server_inv s) as Hs by (eapply inv_run_server; [by eapply inv_pre_start|done]).
  split_and!; [by apply inv_step_server|by intros a; apply inv_is_elected| |by intros; apply get_sessions_spec].
  intros p a b i j Ha Hb Hne. destruct (si_settled s Hs p a b i j Ha Hb Hne).
  by destruct (si_settled s Hs p b a j i Hb Ha (not_eq_sym Hne)).
Qed.

Lemma elem_of_notify_all s n x : x ∈ notify_all s n ↔ ∃ sub, x = Notify sub n ∧ ∃ id, subscriptions s !! id = Some sub.
Proof.
  unfold notify_all. rewrite list_elem_of_omap. split.
  - intros (id & _ & Hx). destruct (subscriptions s !! id) as [sub|] eqn:E; simplify_eq/=. eauto.
  - intros (sub & -> & id & Hid). exists id. rewrite elem_of_hs_iter, Hid. split; [by apply elem_of_dom_2 in Hid|done].
Qed.

Lemma someone_elected a p i s e s' :
  node_sessions s !! a = Some i → name_of i = Some p → p ≠ node_name (this_node_name s) →
  committed a p s e s' → ∃ b j, authenticated_for s' p b j.
Proof.
  intros Hi Hp Hne Hc. set (cs := candidates_for_peer (with_authenticated (union {[a]}) s) p true).
  destruct (elect_settles (node_name (this_node_name s)) p cs) as [Hsome _]; [done|apply candidates_once|].
  assert (cs ≠ []) as Hcs.
  { intros E. apply (not_elem_of_nil (candidate_of (with_authenticated (union {[a]}) s) a i)). rewrite <-E.
    apply elem_of_candidates. exists a, i. split; [|done]. split_and!; [done|done|]. cbn. set_solver. }
  destruct (elect_sessions (node_name (this_node_name s)) p cs) as [|b l] eqn:E; [by destruct (Hsome Hcs)|].
  assert (b ∈ cand_id <$> cs) as (c & -> & (b' & j & (Hj & Hpj & Hb) & ->)%elem_of_candidates)%list_elem_of_fmap.
  { eapply elect_subseteq. rewrite E. by left. }
  exists b', j. split_and!; [by rewrite (proj1 (cm_sessions _ _ _ _ _ Hc))|done|].
  apply (cm_authenticated _ _ _ _ _ Hc). split; [cbn in Hb; set_solver|]. intros _ _ _.
  fold cs. rewrite E. by left.
Qed.

(** When a session authenticates, the election decides between it and the authenticated sessions with
    the same peer.  Some session with the peer is authenticated afterwards, and none that was not before,
    the new one apart; the actors told to stop are exactly the ones that lost; sessions with other peers
    are untouched; and the subscribers are told about the new session exactly when it survives. *)
Theorem authentication_elects (self : NodeServer) (l : ActorId) (s0 : NodeServerState) (ops : list server_op)
    (a : ActorId) (i : NodeServerSessionInformation) (p : string) :
  pre_start self (Some l) = Ok s0 → server_history self s0 ops →
  let s := run_server self s0 ops in
  node_sessions s !! a = Some i → name_of i = Some p → p ≠ node_name (this_node_name s) →
  let s' := (handle self (ConnectionAuthenticated a) s).2 in
  ∃ es, (handle self (ConnectionAuthenticated a) s).1 = Ok es ∧
    (∃ b j, authenticated_for s' p b j) ∧
    (∀ b, b ∈ authenticated_sessions s' → b = a ∨ b ∈ authenticated_sessions s) ∧
    (∀ b, StopActor b "duplicate_connection" ∈ es ↔
       (b = a ∨ b ∈ authenticated_sessions s) ∧ ¬ (b ∈ authenticated_sessions s')) ∧
    (∀ q b j, q ≠ p → authenticated_for s' q b j ↔ authenticated_for s q b j) ∧
    (∀ sub, Notify sub (node_session_authenticated i) ∈ es ↔
       a ∈ authenticated_sessions s' ∧ ∃ id, subscriptions s !! id = Some sub).
Proof.
  intros H0 Hops s Hi Hp Hne s'. assert (server_inv s) as Hs by (eapply inv_run_server; [by eapply inv_pre_start|done]).
  assert (∃ n, node_sessions s !! a ≫= peer_name = Some n ∧ node_name n = p) as (n & Hn & Hnp).
  { rewrite Hi. unfold name_of in Hp. cbn. destruct (peer_name i) as [n|]; simplify_eq/=. eauto. }
  destruct (commit_effect a n s Hn) as (e & t & Ht & Hc). rewrite Hnp in Hc.
  assert (node_sessions t !! a = Some i) as Hit by (by rewrite (proj1 (cm_sessions _ _ _ _ _ Hc))).
  assert (handle self (ConnectionAuthenticated a) s =
    (Ok (((λ b, StopActor b "duplicate_connection") <$> losers e) ++
         if candidate_survives e then notify_all t (node_session_authenticated i) else []), t)) as Hh.
  { cbn. unfold connection_authenticated, session_at. rewrite Ht, Hit.
    by destruct (candidate_survives e); rewrite ?app_nil_r. }
  subst s'. rewrite Hh. cbn [fst snd]. clear Hh. eexists. split; [done|]. split_and!.
  - exact (someone_elected a p i s e t Hi Hp Hne Hc).
  - intros b Hb. by apply (cm_authenticated _ _ _ _ _ Hc) in Hb as [? _].
  - intros b. rewrite elem_of_app. transitivity (b ∈ losers e).
    + split; [|intros Hb; left; by apply (list_elem_of_fmap_2 (λ b, StopActor b _))].
      intros [(? & [= ->] & ?)%list_elem_of_fmap|Hb]; [done|]. destruct (candidate_survives e); [|by apply not_elem_of_nil in Hb].
      by apply elem_of_notify_all in Hb as (? & ? & _).
    + rewrite (cm_losers _ _ _ _ _ Hc) by (intros c j Hj; by apply (si_actor s Hs)).
      split; [intros (? & ? & _); done|]. intros [Hb Hb']. split_and!; [done|done|]. destruct Hb as [->|Hb]; [done|].
      destruct (si_named s Hs b Hb) as (j & _ & (Hj & _) & _). done.
  - intros q b j Hq. unfold authenticated_for. rewrite (proj1 (cm_sessions _ _ _ _ _ Hc)).
    rewrite (cm_authenticated _ _ _ _ _ Hc). split; intros (Hj & Hqj & Hb); split_and!; try done.
    + destruct Hb as [[->|?] _]; [|done]. simplify_eq.
    + by right.
    + intros j' Hj' Hp'. simplify_eq.
  - intros sub. rewrite elem_of_app, <-(proj2 (proj2 (proj2 (proj2 (cm_sessions _ _ _ _ _ Hc))))).
    rewrite (cm_survives _ _ _ _ _ Hc). split.
    + intros [(? & ? & _)%list_elem_of_fmap|Hb]; [done|]. destruct (bool_decide _) eqn:E; [|by apply not_elem_of_nil in Hb].
      apply bool_decide_eq_true in E. by apply elem_of_notify_all in Hb as (? & [= ->] & ?).
    + intros [Ha Hsub]. right. rewrite bool_decide_eq_true_2 by done. apply elem_of_notify_all. eauto.
Qed.

(** ** The answer to [CheckSession] *)

Lemma matching_unique s n a i :
  node_sessions s !! a = Some i → name_of i = Some (node_name n) → connection_of s a = nonzero (name_connection_id n) →
  (∀ b j, node_sessions s !! b = Some j → name_of j = Some (node_name n) →
     connection_of s b = nonzero (name_connection_id n) → b = a) →
  check_session s n = check_candidate s a.
Proof.
  intros Hi Hp Hc Hu. unfold check_session. cbv zeta.
  match goal with |- match ?l with _ => _ end = _ => assert (l = [a]) as ->; [|done] end.
  apply NoDup_same.
  - pose proof (sessions_iter_once s) as Hnd. induction (sessions_iter s) as [|[b j] l IH]; [constructor|].
    rewrite fmap_cons, NoDup_cons in Hnd. destruct Hnd as [Hb Hnd]. cbn [omap list_omap].
    destruct (_ && _); [|by apply IH]. apply NoDup_cons. split; [|by apply IH].
    intros ([b' j'] & Hb' & Hx)%list_elem_of_omap. destruct (_ && _); [|done]. simplify_eq.
    apply Hb. by apply (list_elem_of_fmap_2 fst _ (b, j')).
  - intros E. apply (not_elem_of_nil a). rewrite <-E. apply list_elem_of_omap. exists (a, i).
    rewrite elem_of_sessions_iter. split; [done|]. by rewrite !bool_decide_eq_true_2.
  - intros b ([b' j] & Hj%elem_of_sessions_iter & Hx)%list_elem_of_omap.
    destruct (bool_decide (name_of j = _)) eqn:E1; [|done]. destruct (bool_decide (connection_of s b' = _)) eqn:E2; [|done].
    simplify_eq/=. apply bool_decide_eq_true in E1, E2. eauto.
Qed.

(** The candidates [check_candidate] considers are those of the commit that would follow. *)
Lemma check_candidates s a i p :
  node_sessions s !! a = Some i → name_of i = Some p →
  (if bool_decide (a ∈ authenticated_sessions s) then candidates_for_peer s p true
   else candidates_for_peer s p true ++ [candidate_of s a i]) ≡ₚ
  candidates_for_peer (with_authenticated (union {[a]}) s) p true.
Proof.
  intros Hi Hp. assert (Hnd : ∀ t, NoDup (candidates_for_peer t p true)).
  { intros t. eapply NoDup_fmap_1, candidates_once. }
  assert (Heq : ∀ c, c ∈ candidates_for_peer (with_authenticated (union {[a]}) s) p true ↔
    c ∈ candidates_for_peer s p true ∨ c = candidate_of s a i).
  { intros c. rewrite !elem_of_candidates. unfold authenticated_for. cbn. split.
    - intros (b & j & (Hj & Hpj & [->%elem_of_singleton|Hb]%elem_of_union) & ->); [right|left; by exists b, j].
      rewrite Hi in Hj. by simplify_eq.
    - intros [(b & j & (Hj & Hpj & Hb) & ->)| ->].
      + exists b, j. split; [split_and!; set_solver|done].
      + exists a, i. split; [split_and!; set_solver|done]. }
  apply NoDup_Permutation; [|done|].
  - case_bool_decide as Ha; [done|]. apply NoDup_app. split_and!; [done| |apply NoDup_singleton].
    intros c Hc ->%list_elem_of_singleton. apply elem_of_candidates in Hc as (b & j & (_ & _ & Hb) & [= E _]). congruence.
  - intros c. rewrite Heq. case_bool_decide as Ha.
    + split; [by left|]. intros [?| ->]; [done|]. apply elem_of_candidates. by exists a, i.
    + by rewrite elem_of_app, list_elem_of_singleton.
Qed.

(** The answer given during the handshake is the verdict of the election.  When the nonce a peer sent
    identifies one session of the server, the reply to [CheckSession] is "the other connection continues"
    exactly when authenticating the session now would make it lose, and "no other connection" exactly when
    there is no other authenticated session with the peer; it is never "duplicate", so the handshake either
    goes on or is refused. *)
Theorem check_predicts_commit (s : NodeServerState) (n : NameMessage) (a : ActorId) (i : NodeServerSessionInformation) :
  node_sessions s !! a = Some i → name_of i = Some (node_name n) →
  connection_of s a = nonzero (name_connection_id n) →
  (∀ b j, node_sessions s !! b = Some j → name_of j = Some (node_name n) →
     connection_of s b = nonzero (name_connection_id n) → b = a) →
  node_name n ≠ node_name (this_node_name s) →
  ∃ e s', commit_authenticated a s = (Some e, s') ∧
    (check_session s n = OtherConnectionContinues ↔ candidate_survives e = false) ∧
    (check_session s n = NoOtherConnection ↔ ∀ b j, authenticated_for s (node_name n) b j → b = a) ∧
    check_session s n ≠ DuplicateConnection.
Proof.
  intros Hi Hp Hc Hu Hne. rewrite (matching_unique s n a i Hi Hp Hc Hu).
  assert (∃ m, peer_name i = Some m ∧ node_name m = node_name n) as (m & Hm & Hmn).
  { unfold name_of in Hp. destruct (peer_name i) as [m|]; simplify_eq/=. eauto. }
  destruct (commit_effect a m s) as (e & s' & He & Hcm); [by rewrite Hi|]. exists e, s'. split; [done|].
  unfold check_candidate. rewrite Hi, Hm, Hmn in *. cbv zeta.
  pose proof (check_candidates s a i (node_name n) Hi Hp) as Hcs.
  set (cs := if bool_decide (a ∈ authenticated_sessions s) then _ else _) in *.
  set (cs' := candidates_for_peer (with_authenticated (union {[a]}) s) (node_name n) true) in *.
  assert (candidate_survives e = bool_decide (a ∈ elect_sessions (node_name (this_node_name s)) (node_name n) cs)) as ->.
  { rewrite (cm_survives _ _ _ _ _ Hcm). apply bool_decide_ext. rewrite (cm_authenticated _ _ _ _ _ Hcm).
    rewrite (elect_sessions_perm _ _ _ _ Hcs). fold cs'. split; [intros [_ Hel]; by apply (Hel i)|].
    intros Hel. split; [by left|done]. }
  assert (Hin : candidate_of s a i ∈ cs).
  { rewrite Hcs. apply elem_of_candidates. exists a, i. split; [|done]. split_and!; [done|done|]. cbn. set_solver. }
  assert (Halone : (1 <? length cs) = false ↔ ∀ b j, authenticated_for s (node_name n) b j → b = a).
  { rewrite Nat.ltb_ge. split.
    - intros Hl b j (Hj & Hpj & Hb). assert (candidate_of s b j ∈ cs) as Hbj.
      { rewrite Hcs. apply elem_of_candidates. exists b, j. split; [|done]. split_and!; [done|done|]. cbn. set_solver. }
      destruct cs as [|c [|]]; [by apply not_elem_of_nil in Hin| |simpl in Hl; lia].
      apply list_elem_of_singleton in Hin, Hbj. unfold candidate_of in *. congruence.
    - intros Hb. enough (cs = [candidate_of s a i]) as -> by (simpl; lia). apply NoDup_same.
      + rewrite Hcs. eapply NoDup_fmap_1, candidates_once.
      + intros E. rewrite E in Hin. by apply not_elem_of_nil in Hin.
      + intros c. rewrite Hcs. intros (b & j & (Hj & Hpj & Hb') & ->)%elem_of_candidates.
        assert (b = a) as ->; [|cbn in Hj; by simplify_eq]. cbn in Hb', Hj.
        apply elem_of_union in Hb' as [?%elem_of_singleton|Hb']; [done|]. by apply (Hb b j). }
  destruct (bool_decide (a ∈ elect_sessions _ _ cs)) eqn:E; destruct (1 <? length cs) eqn:El.
  - split_and!; [done| |done]. split; [done|]. intros Hb%Halone. congruence.
  - split_and!; [done| |done]. split; [|done]. intros _. by apply Halone.
  - split_and!; [done| |done]. split; [done|]. intros Hb%Halone. congruence.
  - exfalso. apply bool_decide_eq_false in E. apply E. apply Nat.ltb_ge in El.
    unfold elect_sessions. rewrite (proj2 (Nat.leb_le _ _) El). by apply (list_elem_of_fmap_2 cand_id) in Hin.
Qed.
End server.

(** ** A node that is connected both ways *)

Definition sample_node : NodeServer := NodeServer_new 0 "cookie" "b" "h" None.
Definition sample_start : NodeServerState :=
  mkServer (Local 0) ∅ 0 (mkName "b@h" (Some PROTOCOL_VERSION) "h:0" 0) ∅ ∅ ∅.
Definition sample_peer (id : N) : NameMessage := mkName "a@h" (Some 1%N) "h:1" id.
Definition sample_ops : list server_op :=
  [OpMessage (ConnectionOpened "x" true (Some (Local 1)));
   OpMessage (UpdateSession (Local 1) (sample_peer 7));
   OpMessage (ConnectionAuthenticated (Local 1));
   OpMessage (ConnectionOpened "y" false (Some (Local 2)));
   OpMessage (UpdateSession (Local 2) (sample_peer 5))].

#[local] Instance actor_order : HashSetIter ActorId := elements_iter ActorId.
#[local] Instance string_order : HashSetIter string := elements_iter string.

Abbreviation sample_server := (run_server sample_node sample_start sample_ops).

Lemma sample_started : pre_start sample_node (Some (Local 0)) = Ok sample_start.
Proof. reflexivity. Qed.

Lemma sample_history : server_history sample_node sample_start sample_ops.
Proof.
  cbn [server_history sample_ops op_allowed]. split_and!; try done.
  intros i Hi. vm_compute in Hi. simplify_eq. by vm_compute.
Qed.

Lemma sessions_settled_witness :
  (server_step sample_node sample_server (OpMessage (ConnectionAuthenticated (Local 2)))).1 ≠ Panic ∧
  get_sessions sample_server !! 0 ≠ None.
Proof.
  assert (op_allowed sample_server (OpMessage (ConnectionAuthenticated (Local 2)))) as Ho.
  { intros i Hi. vm_compute in Hi. simplify_eq. by vm_compute. }
  destruct (sessions_settled sample_node (Local 0) sample_start sample_ops
    (OpMessage (ConnectionAuthenticated (Local 2))) sample_started sample_history Ho) as (H & _).
  split; [exact H|]. by vm_compute.
Defined.

Lemma authentication_elects_witness :
  ∃ es, (handle sample_node (ConnectionAuthenticated (Local 2)) sample_server).1 = Ok es ∧
    StopActor (Local 1) "duplicate_connection" ∈ es.
Proof.
  assert (∃ i, node_sessions sample_server !! Local 2 = Some i ∧ name_of i = Some "a@h"%string) as (i & Hi & Hp).
  { eexists. split; [by vm_compute|done]. }
  assert ("a@h"%string ≠ node_name (this_node_name sample_server)) as Hne by (by vm_compute).
  destruct (authentication_elects sample_node (Local 0) sample_start sample_ops (Local 2) i "a@h" sample_started
    sample_history Hi Hp Hne) as (es & He & _ & _ & Hstop & _).
  exists es. split; [exact He|]. apply Hstop. split; [right|]; by apply (bool_decide_unpack _); vm_compute.
Defined.

Lemma check_predicts_commit_witness :
  check_session sample_server (sample_peer 5) ≠ OtherConnectionContinues.
Proof.
  assert (∃ i, node_sessions sample_server !! Local 2 = Some i ∧ name_of i = Some "a@h"%string) as (i & Hi & Hp).
  { eexists. split; [by vm_compute|done]. }
  destruct (check_predicts_commit sample_server (sample_peer 5) (Local 2) i Hi Hp) as (e & s' & He & Hother & _).
  - by vm_compute.
  - intros b j Hj _ Hc. destruct (decide (b = Local 2)) as [|Hb]; [done|]. exfalso.
    assert (b ∈ dom (node_sessions sample_server)) as Hd by (by apply elem_of_dom_2 in Hj).
    assert (dom (node_sessions sample_server) = {[Local 1; Local 2]}) as Ed by (by vm_compute).
    rewrite Ed in Hd. apply elem_of_union in Hd as [->%elem_of_singleton|?%elem_of_singleton]; [|done].
    vm_compute in Hc. done.
  - by vm_compute.
  - intros H%Hother. vm_compute in He. simplify_eq.
Defined.
