(* ===== verification/Bytes.v ===== *)
(** Bytes and big-endian integers: [uN::to_be_bytes], [uN::from_be_bytes] and the signed variants, as the
    serialization (src/ractor/src/serialization.rs), the frames of the cluster protocol
    (src/ractor_cluster/src/net/session.rs) and the challenge digest (src/ractor_cluster/src/hash.rs) use
    them.  An integer of [w] bytes is an [N] (unsigned) or a [Z] (two's complement). *)

From S2P Require Import Prelude.
From Stdlib Require Export Strings.Byte.

Local Open Scope N_scope.

Definition byte_of (n : N) : byte := default x00 (Byte.of_N (n mod 256)).

Fixpoint to_be_bytes (w : nat) (n : N) : list byte :=
  match w with
  | O => []
  | S w' => to_be_bytes w' (n / 256) ++ [byte_of n]
  end.

Definition from_be_bytes (l : list byte) : N := foldl (λ acc b, acc * 256 + Byte.to_N b) 0 l.

(** Two's complement *)
Definition to_be_bytes_signed (w : nat) (z : Z) : list byte := to_be_bytes w (Z.to_N (z mod 2 ^ (8 * Z.of_nat w))).
Definition from_be_bytes_signed (w : nat) (l : list byte) : Z :=
  let u := Z.of_N (from_be_bytes l) in
  if (u <? 2 ^ (8 * Z.of_nat w - 1))%Z then u else (u - 2 ^ (8 * Z.of_nat w))%Z.

Lemma to_N_byte_of n : Byte.to_N (byte_of n) = n mod 256.
Proof.
  unfold byte_of. assert (n mod 256 < 256) as Hb by (apply N.mod_lt; lia).
  destruct (Byte.of_N (n mod 256)) as [b|] eqn:E; [by apply Byte.to_of_N in E|].
  apply Byte.of_N_None_iff in E. lia.
Qed.

Lemma byte_of_to_N b k : byte_of (k * 256 + Byte.to_N b) = b.
Proof.
  unfold byte_of. pose proof (Byte.to_N_bounded b) as Hb.
  rewrite N.add_comm, N.Div0.mod_add, N.mod_small, Byte.of_to_N by lia. done.
Qed.

Lemma from_be_bytes_snoc l b : from_be_bytes (l ++ [b]) = from_be_bytes l * 256 + Byte.to_N b.
Proof. unfold from_be_bytes. by rewrite foldl_app. Qed.

Lemma length_to_be_bytes w n : length (to_be_bytes w n) = w.
Proof. revert n. induction w as [|w IH]; intros n; [done|]. cbn. rewrite length_app, IH. simpl. lia. Qed.

Lemma from_to_be_bytes w n : from_be_bytes (to_be_bytes w n) = n mod 256 ^ N.of_nat w.
Proof.
  revert n. induction w as [|w IH]; intros n; [cbn; by rewrite N.mod_1_r|].
  cbn [to_be_bytes]. rewrite from_be_bytes_snoc, IH, to_N_byte_of.
  rewrite Nat2N.inj_succ, N.pow_succ_r', N.Div0.mod_mul_r. lia.
Qed.

Lemma from_to_be_bytes_small w n : n < 256 ^ N.of_nat w → from_be_bytes (to_be_bytes w n) = n.
Proof. intros Hn. by rewrite from_to_be_bytes, N.mod_small. Qed.

Lemma from_be_bytes_bound l : from_be_bytes l < 256 ^ N.of_nat (length l).
Proof.
  induction l as [|b l IH] using rev_ind; [done|]. rewrite from_be_bytes_snoc, length_app.
  pose proof (Byte.to_N_bounded b). replace (N.of_nat (length l + length [b])) with (N.succ (N.of_nat (length l))) by (simpl; lia).
  rewrite N.pow_succ_r'. lia.
Qed.

Lemma to_from_be_bytes l : to_be_bytes (length l) (from_be_bytes l) = l.
Proof.
  induction l as [|b l IH] using rev_ind; [done|]. rewrite length_app, Nat.add_comm, from_be_bytes_snoc. cbn.
  rewrite byte_of_to_N. f_equal. pose proof (Byte.to_N_bounded b).
  rewrite N.add_comm, N.div_add, N.div_small by lia. by rewrite N.add_0_l.
Qed.

Lemma length_to_be_bytes_signed w z : length (to_be_bytes_signed w z) = w.
Proof. apply length_to_be_bytes. Qed.

Lemma pow256 w : (2 ^ (8 * Z.of_nat w))%Z = Z.of_N (256 ^ N.of_nat w).
Proof. rewrite N2Z.inj_pow. change (Z.of_N 256) with (2 ^ 8)%Z. rewrite <-Z.pow_mul_r by lia. by rewrite nat_N_Z. Qed.

Lemma from_to_be_bytes_signed w z :
  (0 < w)%nat → (- 2 ^ (8 * Z.of_nat w - 1) ≤ z < 2 ^ (8 * Z.of_nat w - 1))%Z →
  from_be_bytes_signed w (to_be_bytes_signed w z) = z.
Proof.
  intros Hw Hz. unfold from_be_bytes_signed, to_be_bytes_signed.
  assert (2 ^ (8 * Z.of_nat w) = 2 * 2 ^ (8 * Z.of_nat w - 1))%Z as Hp.
  { rewrite <-Z.pow_succ_r by lia. f_equal. lia. }
  assert (0 ≤ z mod 2 ^ (8 * Z.of_nat w) < 2 ^ (8 * Z.of_nat w))%Z as Hm by (apply Z.mod_pos_bound; lia).
  rewrite from_to_be_bytes_small, Z2N.id; [|lia|apply N2Z.inj_lt; rewrite <-pow256, Z2N.id; lia].
  destruct (decide (0 ≤ z)%Z) as [H0|H0].
  - rewrite Z.mod_small by lia. destruct (Z.ltb_spec z (2 ^ (8 * Z.of_nat w - 1))); lia.
  - assert (z mod 2 ^ (8 * Z.of_nat w) = z + 2 ^ (8 * Z.of_nat w))%Z as ->.
    { symmetry. apply Z.mod_unique_pos with (-1)%Z; lia. }
    destruct (Z.ltb_spec (z + 2 ^ (8 * Z.of_nat w)) (2 ^ (8 * Z.of_nat w - 1))); lia.
Qed.

#[global] Instance byte_eq_dec' : EqDecision byte := Byte.byte_eq_dec.

(** [str::as_bytes]: a string of the model is its bytes. *)
Definition string_bytes (s : string) : list byte := String.list_byte_of_string s.

Lemma string_bytes_inj s t : string_bytes s = string_bytes t → s = t.
Proof.
  unfold string_bytes. intros H. rewrite <-(String.string_of_list_byte_of_string s), H.
  apply String.string_of_list_byte_of_string.
Qed.
