(* ===== verification/Serialization.v ===== *)
(** Serialization of messages: [BytesConvertable] and its implementations (src/ractor/src/serialization.rs),
    boxed messages (src/ractor/src/message.rs) and the wire format of jobs
    (src/ractor/src/factory/job.rs).

    [from_bytes] may panic, which is [None] here.  Floating point numbers are serialized by their bits, so
    they are unsigned integers of 4 and 8 bytes. *)

From S2P Require Import Prelude Discard Job Bytes.

(** ** [trait BytesConvertable]

    [valid] are the values of the type, among those of the carrier; the law is what every client relies
    on. *)
Class BytesConvertable (A : Type) := {
  valid : A → Prop;
  into_bytes : A → list byte;
  from_bytes : list byte → option A;
  from_into x : valid x → from_bytes (into_bytes x) = Some x
}.

(** [&bytes[from..to]]: panics out of range *)
Definition slice (from to : nat) (l : list byte) : option (list byte) :=
  if (from <=? to) && (to <=? length l) then Some (take (to - from) (drop from l)) else None.

(** [dst[off..off + src.len()].copy_from_slice(src)] *)
Definition copy_at (off : nat) (src dst : list byte) : list byte :=
  take off dst ++ src ++ drop (off + length src) dst.

Definition unsigned_from_bytes (w : nat) (l : list byte) : option N := from_be_bytes <$> slice 0 w l.
Definition signed_from_bytes (w : nat) (l : list byte) : option Z := from_be_bytes_signed w <$> slice 0 w l.

(** [Vec<$ty>]: every element is copied to its place in a buffer of zeros; decoding reads the elements at
    their places and ignores an incomplete one at the end. *)
Definition vec_into_bytes {A} (w : nat) (enc : A → list byte) (v : list A) : list byte :=
  foldl (λ buf '(i, x), copy_at (i * w) (enc x) buf) (replicate (length v * w) x00) (imap pair v).
Definition vec_from_bytes {A} (w : nat) (dec : list byte → A) (l : list byte) : list A :=
  (λ i, dec (take w (drop (i * w) l))) <$> seq 0 (length l / w).

(** [char::from_u32] *)
Definition char_from_u32 (n : N) : option N :=
  if ((n <? 55296) || ((57343 <? n) && (n <? 1114112)))%N then Some n else None.

(** [String::from_utf8]: continuation bytes, and the second byte of a sequence of three and of four *)
Definition between (lo hi b : N) : bool := ((lo <=? b) && (b <=? hi))%N.
Definition continuation (b : N) : bool := between 128 191 b.
Definition second_of_three (a b : N) : bool :=
  (between 225 236 a || between 238 239 a) && continuation b
  || (a =? 224)%N && between 160 191 b || (a =? 237)%N && between 128 159 b.
Definition second_of_four (a b : N) : bool :=
  between 241 243 a && continuation b || (a =? 240)%N && between 144 191 b || (a =? 244)%N && between 128 143 b.

Fixpoint utf8_valid (l : list N) : bool :=
  match l with
  | [] => true
  | a :: l1 =>
      if (a <? 128)%N then utf8_valid l1
      else match l1 with
           | [] => false
           | b :: l2 =>
               if between 194 223 a && continuation b then utf8_valid l2
               else match l2 with
                    | [] => false
                    | c :: l3 =>
                        if second_of_three a b && continuation c then utf8_valid l3
                        else match l3 with
                             | [] => false
                             | d :: l4 => second_of_four a b && continuation c && continuation d && utf8_valid l4
                             end
                    end
           end
  end.

(** ** The implementations *)

Lemma slice_whole (l : list byte) w : length l = w → slice 0 w l = Some l.
Proof. intros <-. unfold slice. simpl. rewrite Nat.leb_refl. by rewrite Nat.sub_0_r, drop_0, take_ge. Qed.

(** Filling a buffer of zeros element by element gives the elements one after the other. *)
Lemma copy_loop {A} (w : nat) (enc : A → list byte) (v : list A) (k : nat) (pre : list byte) :
  (∀ x, length (enc x) = w) → length pre = k * w →
  foldl (λ buf '(i, x), copy_at (i * w) (enc x) buf) (pre ++ replicate (length v * w) x00)
    (imap (λ i x, (k + i, x)) v) = pre ++ concat (enc <$> v).
Proof.
  intros Hw. revert k pre. induction v as [|x v IH]; intros k pre Hp; [done|].
  rewrite imap_cons. cbn [foldl]. rewrite Nat.add_0_r.
  assert (copy_at (k * w) (enc x) (pre ++ replicate (length (x :: v) * w) x00) =
    (pre ++ enc x) ++ replicate (length v * w) x00) as ->.
  { unfold copy_at. rewrite Hw, <-Hp, take_app_length, <-app_assoc. do 2 f_equal.
    rewrite drop_app_add', drop_replicate by done. f_equal. simpl. lia. }
  rewrite fmap_cons. cbn [concat]. rewrite app_assoc, <-(IH (S k) (pre ++ enc x)); [|rewrite length_app, Hw; lia].
  f_equal. apply imap_ext. intros i y _. cbn. by rewrite Nat.add_succ_r.
Qed.

Lemma vec_into_bytes_concat {A} (w : nat) (enc : A → list byte) (v : list A) :
  (∀ x, length (enc x) = w) → vec_into_bytes w enc v = concat (enc <$> v).
Proof. intros Hw. unfold vec_into_bytes. apply (copy_loop w enc v 0 []); done. Qed.

Lemma vec_from_into {A} (w : nat) (enc : A → list byte) (dec : list byte → A) (v : list A) :
  0 < w → (∀ x, length (enc x) = w) → (∀ x, x ∈ v → dec (enc x) = x) →
  vec_from_bytes w dec (vec_into_bytes w enc v) = v.
Proof.
  intros Hw0 Hw Hdec. rewrite vec_into_bytes_concat by done. unfold vec_from_bytes.
  assert (Hl : ∀ v : list A, length (concat (enc <$> v)) = length v * w).
  { clear v Hdec. intros v. induction v as [|x v IH]; [done|]. rewrite fmap_cons. cbn [concat].
    rewrite length_app, Hw, IH. simpl. lia. }
  rewrite Hl, Nat.div_mul by lia. induction v as [|x v IH]; [done|].
  cbn [length seq]. rewrite <-fmap_S_seq, !fmap_cons. cbn [concat].
  rewrite Nat.mul_0_l, drop_0, take_app_le, take_ge by (rewrite Hw; lia).
  rewrite Hdec by (by left). f_equal. etrans; [|apply IH; intros y Hy; apply Hdec; by right].
  rewrite <-list_fmap_compose. apply list_fmap_ext. intros i y _. cbn. do 2 f_equal.
  rewrite <-(Hw x), drop_app_add. done.
Qed.

Lemma unsigned_from_into w n : (n < 256 ^ N.of_nat w)%N → unsigned_from_bytes w (to_be_bytes w n) = Some n.
Proof.
  intros Hn. unfold unsigned_from_bytes. rewrite slice_whole by apply length_to_be_bytes. cbn.
  by rewrite from_to_be_bytes_small.
Qed.

Definition in_signed_range (w : nat) (z : Z) : Prop :=
  0 < w ∧ (- 2 ^ (8 * Z.of_nat w - 1) ≤ z < 2 ^ (8 * Z.of_nat w - 1))%Z.

Lemma signed_from_into w z : in_signed_range w z → signed_from_bytes w (to_be_bytes_signed w z) = Some z.
Proof.
  intros [Hw Hz]. unfold signed_from_bytes. rewrite slice_whole by apply length_to_be_bytes_signed. cbn.
  by rewrite from_to_be_bytes_signed.
Qed.

(** [implement_numeric!]: [u8] .. [u128], [f32], [f64] *)
Definition unsigned (w : nat) : BytesConvertable N :=
  {| valid n := (n < 256 ^ N.of_nat w)%N; into_bytes := to_be_bytes w;
     from_bytes := unsigned_from_bytes w; from_into := unsigned_from_into w |}.

(** [implement_numeric!]: [i8] .. [i128] *)
Definition signed (w : nat) : BytesConvertable Z :=
  {| valid := in_signed_range w; into_bytes := to_be_bytes_signed w;
     from_bytes := signed_from_bytes w; from_into := signed_from_into w |}.

Lemma unit_from_into (x : unit) : True → Some tt = Some x.
Proof. by destruct x. Qed.

Definition unit_bytes : BytesConvertable unit :=
  {| valid _ := True; into_bytes _ := []; from_bytes _ := Some tt; from_into := unit_from_into |}.

Definition bool_into_bytes (b : bool) : list byte := if b then [x01] else [x00].
Definition bool_from_bytes (l : list byte) : option bool := (λ b, bool_decide (b = x01)) <$> head l.

Lemma bool_from_into (b : bool) : True → bool_from_bytes (bool_into_bytes b) = Some b.
Proof. by destruct b. Qed.

Definition bool_bytes : BytesConvertable bool :=
  {| valid _ := True; into_bytes := bool_into_bytes; from_bytes := bool_from_bytes; from_into := bool_from_into |}.

(** A [char] is a scalar value. *)
Definition char_from_bytes (l : list byte) : option N := unsigned_from_bytes 4 l ≫= char_from_u32.

Lemma char_bound n : char_from_u32 n = Some n → (n < 256 ^ N.of_nat 4)%N.
Proof.
  unfold char_from_u32. destruct (_ || _)%N eqn:E; [|done]. intros _.
  apply orb_true_iff in E as [?%N.ltb_lt|[_ ?%N.ltb_lt]%andb_true_iff]; simpl; lia.
Qed.

Lemma char_from_into n : char_from_u32 n = Some n → char_from_bytes (to_be_bytes 4 n) = Some n.
Proof. intros Hn. unfold char_from_bytes. by rewrite unsigned_from_into by (by apply char_bound). Qed.

Definition char_bytes : BytesConvertable N :=
  {| valid n := char_from_u32 n = Some n; into_bytes := to_be_bytes 4; from_bytes := char_from_bytes;
     from_into := char_from_into |}.

(** A [String] is its bytes. *)
Definition string_from_bytes (l : list byte) : option (list byte) :=
  if utf8_valid (Byte.to_N <$> l) then Some l else None.

Lemma string_from_into l : utf8_valid (Byte.to_N <$> l) = true → string_from_bytes l = Some l.
Proof. unfold string_from_bytes. by intros ->. Qed.

Definition string_bytes_convertable : BytesConvertable (list byte) :=
  {| valid l := utf8_valid (Byte.to_N <$> l) = true; into_bytes l := l; from_bytes := string_from_bytes;
     from_into := string_from_into |}.

Lemma bytes_from_into (l : list byte) : True → Some l = Some l.
Proof. done. Qed.

(** [Vec<u8>] *)
Definition vec_u8 : BytesConvertable (list byte) :=
  {| valid _ := True; into_bytes l := l; from_bytes := Some; from_into := bytes_from_into |}.

(** [implement_vectorized_numeric!] *)
Lemma vec_unsigned_from_into w v :
  0 < w ∧ (∀ x, x ∈ v → x < 256 ^ N.of_nat w)%N →
  Some (vec_from_bytes w from_be_bytes (vec_into_bytes w (to_be_bytes w) v)) = Some v.
Proof.
  intros [Hw Hv]. rewrite vec_from_into; [done|done|apply length_to_be_bytes|].
  intros x Hx. by apply from_to_be_bytes_small, Hv.
Qed.

Definition vec_unsigned (w : nat) : BytesConvertable (list N) :=
  {| valid v := 0 < w ∧ (∀ x, x ∈ v → x < 256 ^ N.of_nat w)%N; into_bytes := vec_into_bytes w (to_be_bytes w);
     from_bytes l := Some (vec_from_bytes w from_be_bytes l); from_into := vec_unsigned_from_into w |}.

Lemma vec_signed_from_into w v :
  0 < w ∧ (∀ x, x ∈ v → in_signed_range w x) →
  Some (vec_from_bytes w (from_be_bytes_signed w) (vec_into_bytes w (to_be_bytes_signed w) v)) = Some v.
Proof.
  intros [Hw Hv]. rewrite vec_from_into; [done|done|apply length_to_be_bytes_signed|].
  intros x Hx. destruct (Hv x Hx). by apply from_to_be_bytes_signed.
Qed.

Definition vec_signed (w : nat) : BytesConvertable (list Z) :=
  {| valid v := 0 < w ∧ (∀ x, x ∈ v → in_signed_range w x); into_bytes := vec_into_bytes w (to_be_bytes_signed w);
     from_bytes l := Some (vec_from_bytes w (from_be_bytes_signed w) l); from_into := vec_signed_from_into w |}.

(** [Vec<bool>] *)
Definition vec_bool_from_bytes (l : list byte) : list bool := (λ b, bool_decide (b = x01)) <$> l.

Lemma vec_bool_from_into v : True → Some (vec_bool_from_bytes (vec_into_bytes 1 bool_into_bytes v)) = Some v.
Proof.
  intros _. rewrite vec_into_bytes_concat by (by intros []). f_equal.
  induction v as [|[] v IH]; [done|..]; cbn; f_equal; exact IH.
Qed.

Definition vec_bool : BytesConvertable (list bool) :=
  {| valid _ := True; into_bytes := vec_into_bytes 1 bool_into_bytes;
     from_bytes l := Some (vec_bool_from_bytes l); from_into := vec_bool_from_into |}.

(** [Vec<char>] *)
Definition vec_char_from_bytes (l : list byte) : option (list N) :=
  mapM char_from_u32 (vec_from_bytes 4 from_be_bytes l).

Lemma vec_char_from_into v :
  (∀ x, x ∈ v → char_from_u32 x = Some x) → vec_char_from_bytes (vec_into_bytes 4 (to_be_bytes 4) v) = Some v.
Proof.
  intros Hv. unfold vec_char_from_bytes.
  rewrite vec_from_into; [|lia|apply length_to_be_bytes|intros x Hx; by apply from_to_be_bytes_small, char_bound, Hv].
  apply mapM_Some. apply Forall_Forall2_diag, Forall_forall. auto.
Qed.

Definition vec_char : BytesConvertable (list N) :=
  {| valid v := ∀ x, x ∈ v → char_from_u32 x = Some x; into_bytes := vec_into_bytes 4 (to_be_bytes 4);
     from_bytes := vec_char_from_bytes; from_into := vec_char_from_into |}.

(** ** Messages *)

(** [enum SerializedMessage]; a reply port is an opaque identifier *)
Inductive SerializedMessage :=
| SCast (variant : string) (args : list byte) (metadata : option (list byte))
| SCall (variant : string) (args : list byte) (reply : nat) (metadata : option (list byte))
| SCallReply (tag : N) (data : list byte).

(** [trait Message]; [BoxedDowncastErr] is an [Err], and decoding may read the clocks of the world [W] *)
Class Message (W T : Type) := {
  serializable : bool;
  serialize : T → res SerializedMessage;
  deserialize : SerializedMessage → M W T
}.

Definition downcast_err : string := "BoxedDowncastErr".

(** The default methods: a type that is not serializable *)
Definition local_message (W T : Type) : Message W T :=
  {| serializable := false; serialize _ := Err downcast_err; deserialize _ := throw downcast_err |}.

(** The blanket implementation for [BytesConvertable] types: every message is a cast. *)
Definition bytes_message (W : Type) `{BytesConvertable T} : Message W T :=
  {| serializable := true;
     serialize x := Ok (SCast "" (into_bytes x) None);
     deserialize m :=
       match m with
       | SCast _ args _ => match from_bytes args with Some x => mret x | None => panic end
       | _ => throw downcast_err
       end |}.

(** [struct BoxedMessage] of a message type: [Any::downcast] to the type that was boxed succeeds *)
Record BoxedMessage (T : Type) := mkBoxed { boxed_msg : option T; serialized_msg : option SerializedMessage }.
Arguments mkBoxed {T}.
Arguments boxed_msg {T}.
Arguments serialized_msg {T}.

Section messages.
Context {W T : Type} `{!Message W T}.

Definition box_message (local : bool) (m : T) : res (BoxedMessage T) :=
  if serializable && negb local then
    match serialize m with
    | Ok sm => Ok (mkBoxed None (Some sm))
    | Err e => Err e
    | Panic => Panic
    end
  else if local then Ok (mkBoxed (Some m) None)
  else Err downcast_err.

Definition from_boxed (b : BoxedMessage T) : M W T :=
  match boxed_msg b with
  | Some m => mret m
  | None => match serialized_msg b with Some sm => deserialize sm | None => throw downcast_err end
  end.
End messages.

(** ** Jobs on the wire *)

(** [as u64] *)
Definition as_u64 (z : Z) : N := Z.to_N (z mod 2 ^ 64).

Definition JobOptions_into_bytes (o : JobOptions) : res (list byte) :=
  if bool_decide (submit_time o < 0)%Z then Panic
  else
    let submit_time := to_be_bytes 8 (as_u64 (submit_time o)) in
    let ttl := to_be_bytes 8 (default 0%N (as_u64 <$> ttl o)) in
    Ok (copy_at 8 ttl (copy_at 0 submit_time (replicate 16 x00))).

Section jobs.
Context {K Msg : Type} `{!BytesConvertable K} `{!Message (World K Msg) Msg}.
Implicit Types (j : Job K Msg) (o : JobOptions).

Definition JobOptions_from_bytes (data : list byte) : M (World K Msg) JobOptions :=
  if negb (length data =? 16) then JobOptions_new None
  else
    let submit_time := from_be_bytes (take 8 data) in
    let ttl := from_be_bytes (drop 8 data) in
    let ttl := if (0 <? ttl)%N then Some (Z.of_N ttl) else None in
    d ← JobOptions_new None;
    reset_ttl_timer (mkJobOptions (Z.of_N submit_time) (factory_time d) (worker_time d) ttl None).

Definition serialize_meta j : res (list byte * Msg) :=
  match JobOptions_into_bytes (job_options j) with
  | Ok options_bytes =>
      let key_bytes := into_bytes (job_key j) in
      let meta := replicate (16 + length key_bytes) x00 in
      Ok (copy_at 16 key_bytes (copy_at 0 options_bytes meta), job_msg j)
  | Err e => Err e
  | Panic => Panic
  end.

Definition deserialize_meta (maybe_bytes : option (list byte)) : M (World K Msg) (K * JobOptions) :=
  match maybe_bytes with
  | Some meta_bytes =>
      if length meta_bytes <? 16 then throw downcast_err
      else
        match from_bytes (drop 16 meta_bytes) with
        | Some key => options ← JobOptions_from_bytes (take 16 meta_bytes); mret (key, options)
        | None => panic
        end
  | None => throw downcast_err
  end.

Definition job_serialize j : res SerializedMessage :=
  match serialize_meta j with
  | Ok (meta_bytes, msg) =>
      match serialize msg with
      | Ok (SCallReply _ _) => Err downcast_err
      | Ok (SCall variant args reply _) => Ok (SCall variant args reply (Some meta_bytes))
      | Ok (SCast variant args _) => Ok (SCast variant args (Some meta_bytes))
      | Err e => Err e
      | Panic => Panic
      end
  | Err e => Err e
  | Panic => Panic
  end.

Definition job_deserialize (bytes : SerializedMessage) : M (World K Msg) (Job K Msg) :=
  match bytes with
  | SCallReply _ _ => throw downcast_err
  | SCast variant args metadata =>
      ko ← deserialize_meta metadata;
      msg ← deserialize (SCast variant args None);
      mret (mkJob ko.1 msg ko.2 None)
  | SCall variant args reply metadata =>
      ko ← deserialize_meta metadata;
      msg ← deserialize (SCall variant args reply None);
      mret (mkJob ko.1 msg ko.2 None)
  end.

#[global] Instance job_message : Message (World K Msg) (Job K Msg) :=
  {| serializable := @serializable (World K Msg) Msg _; serialize := job_serialize; deserialize := job_deserialize |}.

(** The message without the metadata the job adds *)
Definition without_metadata (sm : SerializedMessage) : SerializedMessage :=
  match sm with
  | SCast v a _ => SCast v a None
  | SCall v a r _ => SCall v a r None
  | SCallReply t d => SCallReply t d
  end.

(** What the wire keeps of a time to live: 64 bits of nanoseconds, of which zero stands for none *)
Definition wire_ttl (d : option Duration) : option Duration :=
  match d with
  | Some d => if bool_decide (d mod 2 ^ 64 = 0)%Z then None else Some (d mod 2 ^ 64)%Z
  | None => None
  end.

(** The timer of a job that was decoded when the clocks showed [sys] and [now] *)
Definition timer_at (submit : SystemTime) (d : option Duration) (sys : SystemTime) (now : Instant) : option TtlTimer :=
  (λ d, let elapsed := Z.max 0 (sys - submit) in
        mkTtlTimer now (Z.max 0 (d - elapsed)) (bool_decide (d < elapsed)%Z)) <$> d.

Lemma copy_two (a b : list byte) n m :
  length a = n → length b = m → copy_at n b (copy_at 0 a (replicate (n + m) x00)) = a ++ b.
Proof.
  intros <- <-. unfold copy_at. rewrite take_0, Nat.add_0_l. cbn [app].
  assert (drop (length a) (replicate (length a + length b) x00) = replicate (length b) x00) as ->.
  { rewrite drop_replicate. f_equal. lia. }
  by rewrite take_app_length, drop_app_add, drop_ge, app_nil_r by (by rewrite length_replicate).
Qed.

Lemma as_u64_bound z : (as_u64 z < 256 ^ N.of_nat 8)%N.
Proof.
  unfold as_u64. pose proof (Z.mod_pos_bound z (2 ^ 64) ltac:(lia)). apply N2Z.inj_lt. rewrite Z2N.id by lia. simpl. lia.
Qed.

Lemma Z_of_as_u64 z : Z.of_N (as_u64 z) = (z mod 2 ^ 64)%Z.
Proof. unfold as_u64. pose proof (Z.mod_pos_bound z (2 ^ 64) ltac:(lia)). rewrite Z2N.id; lia. Qed.

(** The 16 bytes of the options *)
Lemma options_round_trip o (w : World K Msg) :
  (0 ≤ submit_time o < 2 ^ 64)%Z →
  ∃ bytes o' w' sys now, JobOptions_into_bytes o = Ok bytes ∧ length bytes = 16 ∧
    JobOptions_from_bytes bytes w = (Ok o', w') ∧ submit_time o' = submit_time o ∧
    ttl o' = wire_ttl (ttl o) ∧ ttl_timer o' = timer_at (submit_time o) (wire_ttl (ttl o)) sys now.
Proof.
  intros Hs. unfold JobOptions_into_bytes. rewrite bool_decide_eq_false_2 by lia. cbv zeta.
  rewrite (copy_two _ _ 8 8) by apply length_to_be_bytes.
  set (bytes := to_be_bytes 8 _ ++ _). assert (length bytes = 16) as Hl.
  { unfold bytes. by rewrite length_app, !length_to_be_bytes. }
  assert (JobOptions_from_bytes bytes w = (d ← JobOptions_new None;
    reset_ttl_timer (mkJobOptions (submit_time o) (factory_time d) (worker_time d) (wire_ttl (ttl o)) None)) w) as Hfrom.
  { unfold JobOptions_from_bytes. rewrite Hl. cbn [negb Nat.eqb]. unfold bytes.
    rewrite take_app_length', drop_app_length' by (by rewrite length_to_be_bytes). cbv zeta.
    rewrite !from_to_be_bytes_small; [|destruct (ttl o); [apply as_u64_bound|done]|apply as_u64_bound].
    rewrite Z_of_as_u64, Z.mod_small by done. do 4 f_equal.
    unfold wire_ttl. destruct (ttl o) as [d|]; [|done]. cbn. rewrite <-Z_of_as_u64.
    destruct (N.ltb_spec 0 (as_u64 d)); [by rewrite bool_decide_eq_false_2 by lia|by rewrite bool_decide_eq_true_2 by lia]. }
  clearbody bytes. destruct (wire_ttl (ttl o)) as [d|];
    eexists bytes, _, _, (w_system w 3), (w_instant w 0); (split; [done|]);
    (split; [done|]); rewrite Hfrom; split_and!; reflexivity.
Qed.

(** C25: a job survives the network.  A job sent to an actor on another node is decoded there with the same
    key, message and submit time, and its timer is set to what is left of its time to live.  This needs
    that the key and the message have a faithful encoding of their own, and a clock of this century.  The
    time to live is kept up to 64 bits of nanoseconds, except that zero is decoded as no limit at all. *)
Theorem job_crosses_network (j : Job K Msg) (sm : SerializedMessage) (w : World K Msg) :
  serializable (W := World K Msg) (T := Msg) = true →
  valid (job_key j) → (0 ≤ submit_time (job_options j) < 2 ^ 64)%Z →
  serialize (job_msg j) = Ok sm → (∀ t d, sm ≠ SCallReply t d) →
  (∀ w, ∃ w', deserialize (without_metadata sm) w = (Ok (job_msg j), w')) →
  ∃ b o w' sys now, box_message false j = Ok b ∧
    from_boxed b w = (Ok (mkJob (job_key j) (job_msg j) o None), w') ∧
    submit_time o = submit_time (job_options j) ∧ ttl o = wire_ttl (ttl (job_options j)) ∧
    ttl_timer o = timer_at (submit_time o) (ttl o) sys now.
Proof.
  intros Hser Hk Hs Hm Hnr Hinner.
  destruct (options_round_trip (job_options j) w Hs) as (bytes & o & w1 & sys & now & Ho & Hl & Hd & E1 & E2 & E3).
  assert (serialize_meta j = Ok (bytes ++ into_bytes (job_key j), job_msg j)) as Hmeta.
  { unfold serialize_meta. rewrite Ho. by rewrite (copy_two _ _ 16 (length (into_bytes (job_key j)))). }
  assert (deserialize_meta (Some (bytes ++ into_bytes (job_key j))) w = (Ok (job_key j, o), w1)) as Hdm.
  { unfold deserialize_meta. rewrite length_app, Hl. cbn [Nat.ltb Nat.leb Nat.add].
    rewrite drop_app_length', take_app_length', from_into by done. by rewrite (bind_ok _ _ _ _ _ Hd). }
  destruct (Hinner w1) as [w2 Hw2].
  exists (mkBoxed None (Some (match sm with
      | SCast v a _ => SCast v a (Some (bytes ++ into_bytes (job_key j)))
      | SCall v a r _ => SCall v a r (Some (bytes ++ into_bytes (job_key j)))
      | SCallReply t d => SCallReply t d end))), o, w2, sys, now.
  split_and!; [| |done|done|by rewrite E1, E2, E3].
  - unfold box_message. cbn [serializable job_message]. rewrite Hser. cbn [andb negb].
    change (serialize j) with (job_serialize j). unfold job_serialize. rewrite Hmeta, Hm. destruct sm; [done|done|by destruct (Hnr tag data)].
  - unfold from_boxed. cbn [boxed_msg serialized_msg deserialize job_message].
    destruct sm; [..|by destruct (Hnr tag data)]; cbn [job_deserialize without_metadata] in *;
      by rewrite (bind_ok _ _ _ _ _ Hdm), (bind_ok _ _ _ _ _ Hw2).
Qed.
End jobs.

(** A job with a 64-bit key and a payload of bytes *)
#[local] Instance sample_key : BytesConvertable N := unsigned 8.
#[local] Instance sample_payload (W : Type) : Message W (list byte) := @bytes_message W (list byte) vec_u8.

Definition sample_job : Job N (list byte) :=
  mkJob 42%N [x68; x69] (mkJobOptions 1700000000000000000 0 0 (Some 5000000000%Z) None) (Some 1).
Definition sample_job_world : World N (list byte) :=
  mkWorld (λ n, Z.of_nat n) (λ _, 1700000001000000000%Z) (λ _, CastOk) (λ _, None) (λ _, 0) (λ _, true) [].

Lemma job_crosses_network_witness :
  ∃ b o w', box_message (W := World N (list byte)) false sample_job = Ok b ∧
    from_boxed b sample_job_world = (Ok (mkJob 42%N [x68; x69] o None), w') ∧ ttl o = Some 5000000000%Z.
Proof.
  destruct (job_crosses_network sample_job (SCast "" [x68; x69] None) sample_job_world)
    as (b & o & w' & sys & now & Hb & Hf & _ & Ht & _).
  - reflexivity.
  - by vm_compute.
  - by vm_compute.
  - reflexivity.
  - done.
  - intros w. by exists w.
  - exists b, o, w'. split_and!; [exact Hb|exact Hf|]. rewrite Ht. by vm_compute.
Defined.
