(* ===== verification/Runtime.v ===== *)
(** The task of an actor (src/ractor/src/actor.rs): starting, the processing loop and the exit, over the
    ports of src/ractor/src/actor/actor_cell.rs.

    The code of a task runs between two awaits; whatever others do happens at the awaits.  [arrivals n] is
    what reaches the ports at the [n]-th await and [others n] what other tasks do to the node meanwhile;
    [user] is what the callbacks of the user come to, and [signal_first] how [select!] chooses between two
    futures that are both ready.  Everything the task does, takes and sees is in its log, in order.  The
    state of the node is that of Actors.v, on which the task performs the operations of its lifecycle. *)

From S2P Require Import Prelude Discard Job ActorTypes Pg Actors Bytes Serialization.

(** ** Computations of a task

    They return a value, unwind with a panic message, or are still pending when the observation ends. *)

Inductive Run (A : Type) : Type := Val (a : A) | Unwind (msg : string) | Pending.
Arguments Val {A} a.
Arguments Unwind {A} msg.
Arguments Pending {A}.

Definition RM (S A : Type) : Type := S → Run A * S.

#[global] Instance RM_ret {S} : MRet (RM S) := λ A a s, (Val a, s).
#[global] Instance RM_bind {S} : MBind (RM S) := λ A B k m s,
  match m s with
  | (Val a, s') => k a s'
  | (Unwind e, s') => (Unwind e, s')
  | (Pending, s') => (Pending, s')
  end.

Definition unwind {S A} (e : string) : RM S A := λ s, (Unwind e, s).
Definition pending {S A} : RM S A := λ s, (Pending, s).
Definition asks {S A} (f : S → A) : RM S A := λ s, (Val (f s), s).
Definition update_with {S} (f : S → S) : RM S unit := λ s, (Val tt, f s).

(** [FutureExt::catch_unwind] *)
Definition catch_unwind {S A} (m : RM S A) : RM S (string + A) := λ s,
  match m s with
  | (Val a, s') => (Val (inr a), s')
  | (Unwind e, s') => (Val (inl e), s')
  | (Pending, s') => (Pending, s')
  end.

(** Specifications: from a state in [P], a value is returned in [Q], a panic unwinds in [U], and the
    computation is pending in [N]. *)
Definition triple {S A} (P : S → Prop) (m : RM S A) (Q : A → S → Prop) (U : string → S → Prop) (N : S → Prop) : Prop :=
  ∀ s, P s → match m s with
             | (Val a, s') => Q a s'
             | (Unwind e, s') => U e s'
             | (Pending, s') => N s'
             end.

Section triple.
Context {S : Type}.
Implicit Types (P N : S → Prop) (U : string → S → Prop).

Lemma triple_ret {A} (a : A) P Q U N : (∀ s, P s → Q a s) → triple P (mret a) Q U N.
Proof. intros H s Hs. by apply H. Qed.

Lemma triple_unwind {A} e P (Q : A → S → Prop) U N : (∀ s, P s → U e s) → triple P (unwind e) Q U N.
Proof. intros H s Hs. by apply H. Qed.

Lemma triple_pending {A} P (Q : A → S → Prop) U N : (∀ s, P s → N s) → triple P pending Q U N.
Proof. intros H s Hs. by apply H. Qed.

Lemma triple_asks {A} (f : S → A) P Q U N : (∀ s, P s → Q (f s) s) → triple P (asks f) Q U N.
Proof. intros H s Hs. by apply H. Qed.

Lemma triple_update f P Q U N : (∀ s, P s → Q tt (f s)) → triple P (update_with f) Q U N.
Proof. intros H s Hs. by apply H. Qed.

Lemma triple_bind {A B} (m : RM S A) (k : A → RM S B) P R Q U N :
  triple P m R U N → (∀ a, triple (R a) (k a) Q U N) → triple P (m ≫= k) Q U N.
Proof.
  intros Hm Hk s Hs. specialize (Hm s Hs). unfold mbind, RM_bind.
  destruct (m s) as [[a|e|] s']; [by apply Hk|done|done].
Qed.

Lemma triple_catch {A} (m : RM S A) P Q U N :
  triple P m (λ a, Q (inr a)) (λ e, Q (inl e)) N → triple P (catch_unwind m) Q U N.
Proof.
  intros Hm s Hs. specialize (Hm s Hs). unfold catch_unwind. by destruct (m s) as [[a|e|] s'].
Qed.

Lemma triple_weaken {A} (m : RM S A) (P P' : S → Prop) (Q Q' : A → S → Prop) U U' (N N' : S → Prop) :
  triple P m Q U N → (∀ s, P' s → P s) → (∀ a s, Q a s → Q' a s) → (∀ e s, U e s → U' e s) → (∀ s, N s → N' s) →
  triple P' m Q' U' N'.
Proof.
  intros Hm HP HQ HU HN s Hs. specialize (Hm s (HP s Hs)). destruct (m s) as [[a|e|] s']; auto.
Qed.

(** What does not unwind may be used where unwinding has a postcondition. *)
Lemma triple_never {A} (m : RM S A) P Q U N : triple P m Q (λ _ _, False) N → triple P m Q U N.
Proof. intros Hm. by eapply triple_weaken. Qed.

Lemma triple_exists {A X} (P : X → S → Prop) (m : RM S A) Q U N :
  (∀ x, triple (P x) m Q U N) → triple (λ s, ∃ x, P x s) m Q U N.
Proof. intros Hm s [x Hs]. by apply (Hm x). Qed.

Lemma triple_pure {A} (φ : Prop) P (m : RM S A) Q U N :
  (φ → triple P m Q U N) → triple (λ s, φ ∧ P s) m Q U N.
Proof. intros Hm s [H Hs]. by apply Hm. Qed.
End triple.

(** ** Ports *)

Inductive Signal := Kill.
(** [Display] *)
Definition signal_string (s : Signal) : string := "killed".

Inductive StopMessage := Stop | Reason (r : string).

(** The receiving half of a one-shot channel: nothing sent yet, a value to be received, closed because the
    sender was dropped, or completed.  Polling a completed one panics. *)
Inductive Oneshot (A : Type) := OEmpty | OFull (a : A) | OClosed | OTaken.
Arguments OEmpty {A}.
Arguments OFull {A} a.
Arguments OClosed {A}.
Arguments OTaken {A}.

Definition poll_oneshot {A} (o : Oneshot A) : Run (option (option A)) * Oneshot A :=
  match o with
  | OEmpty => (Val None, OEmpty)
  | OFull a => (Val (Some (Some a)), OTaken)
  | OClosed => (Val (Some None), OTaken)
  | OTaken => (Unwind "called after complete", OTaken)
  end.

Inductive MessagingErr := SendErr | ChannelClosed | InvalidActorType.

(** [struct ActorLoopResult] *)
Record ActorLoopResult := mkLoopResult {
  should_exit : bool;
  exit_reason : option string;
  was_killed : bool
}.
Definition loop_ok : ActorLoopResult := mkLoopResult false None false.
Definition loop_stop (reason : option string) : ActorLoopResult := mkLoopResult true reason false.
Definition loop_signal (signal_str : option string) : ActorLoopResult := mkLoopResult true signal_str true.

Inductive ActorErr := Cancelled | Failed (msg : string).
Inductive SpawnErr := StartupFailed (msg : string) | ActorAlreadyStarted | ActorAlreadyRegistered (n : string).

Section runtime.
Context `{!HashSetIter ActorId} `{!HashSetIter ScopeGroupKey}.
Context {W Msg Sup St : Type} `{!Message W Msg}.

(** [enum MuxedMessage] *)
Inductive Muxed := Drain | MuxMessage (m : BoxedMessage Msg).

Inductive ActorPortMessage :=
| PSignal (s : Signal)
| PStop (m : StopMessage)
| PSupervision (e : Sup)
| PMessage (m : Muxed).

(** [struct ActorPortSet]; [dropped]: the senders of the two queues are gone *)
Record ActorPortSet := mkPorts {
  signal_rx : Oneshot Signal;
  stop_rx : Oneshot StopMessage;
  supervisor_rx : list Sup;
  message_rx : list Muxed;
  dropped : bool
}.

Definition ports_new : ActorPortSet := mkPorts OEmpty OEmpty [] [] false.

(** What others send to the actor *)
Inductive Arrival :=
| ASignal
| AStop (reason : option string)
| ASupervision (e : Sup)
| AMessage (m : Muxed)
| ADropped.

Definition fill {A} (a : A) (o : Oneshot A) : Oneshot A := match o with OEmpty => OFull a | _ => o end.
Definition close {A} (o : Oneshot A) : Oneshot A := match o with OEmpty => OClosed | _ => o end.

(** [ActorProperties::send_signal], [send_stop], [send_supervisor_evt] and the channel part of
    [send_message]: the sender of a one-shot port is taken by the first to use it *)
Definition send_signal (p : ActorPortSet) : ActorPortSet :=
  mkPorts (fill Kill (signal_rx p)) (stop_rx p) (supervisor_rx p) (message_rx p) (dropped p).
Definition send_stop (reason : option string) (p : ActorPortSet) : ActorPortSet :=
  let msg := default Stop (Reason <$> reason) in
  mkPorts (signal_rx p) (fill msg (stop_rx p)) (supervisor_rx p) (message_rx p) (dropped p).
Definition send_supervisor_evt (e : Sup) (p : ActorPortSet) : ActorPortSet :=
  mkPorts (signal_rx p) (stop_rx p) (supervisor_rx p ++ [e]) (message_rx p) (dropped p).
Definition send_muxed (m : Muxed) (p : ActorPortSet) : ActorPortSet :=
  mkPorts (signal_rx p) (stop_rx p) (supervisor_rx p) (message_rx p ++ [m]) (dropped p).
Definition drop_senders (p : ActorPortSet) : ActorPortSet :=
  mkPorts (close (signal_rx p)) (close (stop_rx p)) (supervisor_rx p) (message_rx p) true.

Definition deliver (p : ActorPortSet) (x : Arrival) : ActorPortSet :=
  match x with
  | ASignal => send_signal p
  | AStop reason => send_stop reason p
  | ASupervision e => if dropped p then p else send_supervisor_evt e p
  | AMessage m => if dropped p then p else send_muxed m p
  | ADropped => drop_senders p
  end.

(** [impl Drop for ActorPortSet]: the ports are closed and their contents flushed *)
Definition ports_drop (p : ActorPortSet) : ActorPortSet := mkPorts OTaken OTaken [] [] true.

(** ** The state of a task *)

(** Calls of the user's implementation of [Actor] *)
Inductive Callback :=
| CPreStart
| CPostStart
| CHandle (m : Msg)
| CHandleSerialized (m : SerializedMessage)
| CHandleSupervisor (e : Sup)
| CPostStop.

Inductive Outcome := UOk | UErr (e : string) | UPanic (e : string) | UNever.
#[global] Instance outcome_eq_dec : EqDecision Outcome.
Proof. solve_decision. Defined.

(** What reaches the ports, what others do, what the task takes from a port or that it finds it closed,
    what it calls, what the call comes to unless a signal interrupts it, and what it does to the node *)
Inductive LogItem :=
| LArrive (x : Arrival)
| LEnv (o : sys_op)
| LTake (m : ActorPortMessage)
| LClosed
| LCall (c : Callback)
| LReturn (r : Outcome)
| LOp (o : sys_op).

Record Rt := mkRt {
  ports : ActorPortSet;
  now : nat;
  decoder : W;
  ustate : option St;
  node : Sys;
  log : list LogItem
}.

Variable arrivals : nat → list Arrival.
Variable others : nat → list sys_op.
Variable user : nat → Callback → option St → Outcome * option St.
Variable signal_first : nat → bool.
(** The id of the actor *)
Variable myself : ActorId.

Definition with_ports p (s : Rt) : Rt := mkRt p (now s) (decoder s) (ustate s) (node s) (log s).
Definition with_decoder w (s : Rt) : Rt := mkRt (ports s) (now s) w (ustate s) (node s) (log s).
Definition with_ustate u (s : Rt) : Rt := mkRt (ports s) (now s) (decoder s) u (node s) (log s).
Definition logging (l : list LogItem) (s : Rt) : Rt :=
  mkRt (ports s) (now s) (decoder s) (ustate s) (node s) (log s ++ l).
Definition doing (o : sys_op) (s : Rt) : Rt :=
  mkRt (ports s) (now s) (decoder s) (ustate s) (sys_step (node s) o) (log s ++ [LOp o]).

(** An await: others run *)
Definition elapse (s : Rt) : Rt :=
  mkRt (foldl deliver (ports s) (arrivals (now s))) (S (now s)) (decoder s) (ustate s)
    (run_sys (node s) (others (now s)))
    (log s ++ (LArrive <$> arrivals (now s)) ++ (LEnv <$> others (now s))).

Definition own (o : sys_op) : RM Rt unit := update_with (doing o).
Definition arrive : RM Rt unit := update_with elapse.
Definition choose : RM Rt bool := asks (λ s, signal_first (now s)).

(** ** [ActorPortSet] *)

(** One poll of the signal port *)
Definition poll_signal : RM Rt (option (option Signal)) := λ s,
  let '(r, o) := poll_oneshot (signal_rx (ports s)) in
  let p := ports s in
  (r, with_ports (mkPorts o (stop_rx p) (supervisor_rx p) (message_rx p) (dropped p)) s).
Definition poll_stop : RM Rt (option (option StopMessage)) := λ s,
  let '(r, o) := poll_oneshot (stop_rx (ports s)) in
  let p := ports s in
  (r, with_ports (mkPorts (signal_rx p) o (supervisor_rx p) (message_rx p) (dropped p)) s).
(** [poll_recv]: [Some None] when the channel is empty and closed *)
Definition poll_supervisor : RM Rt (option (option Sup)) := λ s,
  let p := ports s in
  match supervisor_rx p with
  | e :: rest => (Val (Some (Some e)), with_ports (mkPorts (signal_rx p) (stop_rx p) rest (message_rx p) (dropped p)) s)
  | [] => (Val (if dropped p then Some None else None), s)
  end.
Definition poll_message : RM Rt (option (option Muxed)) := λ s,
  let p := ports s in
  match message_rx p with
  | m :: rest => (Val (Some (Some m)), with_ports (mkPorts (signal_rx p) (stop_rx p) (supervisor_rx p) rest (dropped p)) s)
  | [] => (Val (if dropped p then Some None else None), s)
  end.

Definition note (i : LogItem) : RM Rt unit := update_with (logging [i]).

(** One poll of the future: [None] is [Poll::Pending] *)
Definition listen_in_priority : RM Rt (option (MessagingErr + ActorPortMessage)) :=
  let ready {A} (f : A → ActorPortMessage) (x : option A) : RM Rt (option (MessagingErr + ActorPortMessage)) :=
    match x with
    | Some x => note (LTake (f x)) ;; mret (Some (inr (f x)))
    | None => note LClosed ;; mret (Some (inl ChannelClosed))
    end in
  signal ← poll_signal;
  match signal with
  | Some signal => ready PSignal signal
  | None =>
      stop ← poll_stop;
      match stop with
      | Some stop => ready PStop stop
      | None =>
          supervision ← poll_supervisor;
          match supervision with
          | Some supervision => ready PSupervision supervision
          | None =>
              message ← poll_message;
              match message with Some message => ready PMessage message | None => mret None end
          end
      end
  end.

(** A future that is run beside the signal port: it has its result at its first poll, or it is a call of
    the user's code *)
Inductive Future := Immediate (r : Outcome) | UserCall (c : Callback).

Definition run_user (c : Callback) : RM Rt Outcome := λ s,
  let '(o, u) := user (now s) c (ustate s) in
  (Val o, with_ustate u (logging [LCall c] s)).

(** Takes the signal if it is there and [select!] looks at it *)
Definition select_signal (looks : bool) : RM Rt (option Signal) :=
  if looks then
    signal ← poll_signal;
    match signal with
    | Some (Some signal) => note (LTake (PSignal signal)) ;; mret (Some signal)
    | Some None => note LClosed ;; mret (Some Kill)
    | None => mret None
    end
  else mret None.

(** [select!] polls the two branches in an order it chooses at every poll: the signal first, or the future
    first, and then the signal if the future is not ready. *)
Definition run_with_signal (future : RM Rt Future) : RM Rt (Signal + Outcome) :=
  arrive ;;
  first ← choose;
  signal ← select_signal first;
  match signal with
  | Some signal => mret (inl signal)
  | None =>
      f ← future;
      match f with
      | Immediate r => note (LReturn r) ;; mret (inr r)
      | UserCall c =>
          o ← run_user c;
          arrive ;;
          first ← choose;
          signal ← select_signal (first || match o with UNever => true | _ => false end);
          match signal with
          | Some signal => mret (inl signal)
          | None => match o with UNever => pending | _ => note (LReturn o) ;; mret (inr o) end
          end
      end
  end.

(** ** [ActorRuntime] *)

Definition handle_signal (s : Signal) : RM Rt (option string) :=
  match s with Kill => own (OTerminate myself) end ;;
  mret (Some (signal_string s)).

(** [TActor::Msg::from_boxed] *)
Definition decode (m : BoxedMessage Msg) : RM Rt (res Msg) := λ s,
  let '(r, w) := from_boxed m (decoder s) in (Val r, with_decoder w s).

Definition handle_message (m : BoxedMessage Msg) : RM Rt Future :=
  if negb (is_local myself) then
    match serialized_msg m with
    | Some sm => mret (UserCall (CHandleSerialized sm))
    | None => mret (Immediate (UErr "`RemoteActor` failed to read `SerializedMessage` from `BoxedMessage`"))
    end
  else
    match serialized_msg m with
    | Some _ =>
        typed ← decode m;
        match typed with
        | Ok m => mret (UserCall (CHandle m))
        | Err _ | Panic => mret (Immediate UOk)
        end
    | None =>
        typed ← decode m;
        match typed with
        | Ok m => mret (UserCall (CHandle m))
        | Err e => mret (Immediate (UErr e))
        | Panic => mret (Immediate (UPanic "panic"))
        end
    end.

Definition handle_supervision_message (e : Sup) : RM Rt Future := mret (UserCall (CHandleSupervisor e)).

(** The result of a handler, in [process_message]; a panic in it unwinds *)
Definition handled (r : Signal + Outcome) : RM Rt (string + ActorLoopResult) :=
  match r with
  | inl signal => reason ← handle_signal signal; mret (inr (loop_signal reason))
  | inr UOk => mret (inr loop_ok)
  | inr (UErr e) => mret (inl e)
  | inr (UPanic e) => unwind e
  | inr UNever => pending
  end.

(** The two runtimes of the crate differ in how they decode a message.  [None]: the actor waits. *)
Definition process_message_with (handle : BoxedMessage Msg → RM Rt Future) :
  RM Rt (option (string + ActorLoopResult)) :=
  arrive ;;
  port_message ← listen_in_priority;
  match port_message with
  | None => mret None
  | Some (inr (PSignal signal)) => reason ← handle_signal signal; mret (Some (inr (loop_signal reason)))
  | Some (inr (PStop stop_message)) =>
      let exit_reason := match stop_message with Stop => None | Reason reason => Some reason end in
      mret (Some (inr (loop_stop exit_reason)))
  | Some (inr (PSupervision supervision)) =>
      r ← run_with_signal (handle_supervision_message supervision);
      r ← handled r; mret (Some r)
  | Some (inr (PMessage (MuxMessage msg))) =>
      r ← run_with_signal (handle msg);
      r ← handled r; mret (Some r)
  | Some (inr (PMessage Drain)) => mret (Some (inr (loop_stop (Some "Drained"%string))))
  | Some (inl _) => reason ← handle_signal Kill; mret (Some (inr (loop_signal reason)))
  end.

Definition process_message := process_message_with handle_message.

(** [do_post_start], [do_post_stop]: a panic of the user's code is an error *)
Definition do_call (c : Callback) : RM Rt (Signal + (ActorErr + unit)) :=
  r ← run_with_signal (mret (UserCall c));
  match r with
  | inl signal => mret (inl signal)
  | inr UOk => mret (inr (inr tt))
  | inr (UErr e) | inr (UPanic e) => mret (inr (inl (Failed e)))
  | inr UNever => pending
  end.

(** The message loop; [fuel] bounds the number of polls observed *)
Fixpoint message_loop (process : RM Rt (option (string + ActorLoopResult))) (fuel : nat) :
  RM Rt (ActorErr + (option string * bool)) :=
  match fuel with
  | 0 => pending
  | S fuel =>
      r ← process;
      match r with
      | None => message_loop process fuel
      | Some (inl e) => mret (inl (Failed e))
      | Some (inr r) =>
          if should_exit r then mret (inr (exit_reason r, was_killed r)) else message_loop process fuel
      end
  end.

Definition drop_ports : RM Rt unit := update_with (λ s, with_ports (ports_drop (ports s)) s).

(** [processing_loop], which owns the ports and drops them when it returns *)
Definition processing_loop_with (process : RM Rt (option (string + ActorLoopResult))) (fuel : nat) :
  RM Rt (ActorErr + option string) :=
  started ← do_call CPostStart;
  r ← match started with
    | inl signal => handle_signal signal ;; mret (inl Cancelled)
    | inr (inl e) => mret (inl e)
    | inr (inr _) =>
        own (ORunning myself) ;;
        loop_done ← catch_unwind (message_loop process fuel);
        own (OStopping myself) ;;
        match loop_done with
        | inl panic => mret (inl (Failed panic))
        | inr (inl e) => mret (inl e)
        | inr (inr (exit_reason, was_killed)) =>
            if was_killed : bool then mret (inr exit_reason)
            else
              stopped ← do_call CPostStop;
              match stopped with
              | inl signal => handle_signal signal ;; mret (inl Cancelled)
              | inr (inl e) => mret (inl e)
              | inr (inr _) => mret (inr exit_reason)
              end
        end
    end;
  drop_ports ;;
  mret r.

Definition processing_loop (fuel : nat) : RM Rt (ActorErr + option string) := processing_loop_with process_message fuel.

(** The supervision event an exit is reported with, and the state that goes with it *)
Definition exit_event (keep_state : bool) (r : ActorErr + option string) (state : option St) :
  SupervisionEvent * option St :=
  match r with
  | inr exit_reason => (ActorTerminated myself exit_reason, if keep_state then state else None)
  | inl Cancelled => (ActorTerminated myself (Some "killed"%string), None)
  | inl (Failed msg) => (ActorFailed myself msg, None)
  end.

(** The task spawned by [start] *)
Definition actor_task (fuel : nat) : RM Rt (SupervisionEvent * option St) :=
  r ← processing_loop fuel;
  state ← asks ustate;
  let evt := exit_event true r state in
  own (OFinish myself evt.1) ;;
  mret evt.

(** The guard is dropped where [start] returns early: that is part of [start_begin] and [start_end]. *)
Definition start (supervisor : option ActorId) : RM Rt (SpawnErr + unit) :=
  fresh ← asks (λ s, (start_begin myself (node s)).1);
  own (OStartBegin myself) ;;
  if negb fresh then drop_ports ;; mret (inl ActorAlreadyStarted)
  else
    r ← run_with_signal (mret (UserCall CPreStart));
    match r with
    | inr UOk =>
        linked ← asks (λ s, (start_end myself supervisor PreOk (node s)).1);
        own (OStartEnd myself supervisor PreOk) ;;
        if linked : bool then mret (inr tt) else drop_ports ;; mret (inl (StartupFailed "Supervisor is shutting down"))
    | inr (UErr e) | inr (UPanic e) =>
        own (OStartEnd myself supervisor PreFailed) ;; drop_ports ;; mret (inl (StartupFailed e))
    | inr UNever => pending
    | inl signal =>
        own (OStartEnd myself supervisor PreKilled) ;; drop_ports ;; mret (inl (StartupFailed "Actor killed during startup"))
    end.

(** [start], then the task it spawns *)
Definition run_actor (supervisor : option ActorId) (fuel : nat) : RM Rt (SpawnErr + (SupervisionEvent * option St)) :=
  r ← start supervisor;
  match r with
  | inl e => mret (inl e)
  | inr _ => evt ← actor_task fuel; mret (inr evt)
  end.
End runtime.

(** ** Spawning *)

Section spawn.
Context `{!HashSetIter ActorId} `{!HashSetIter ScopeGroupKey}.
Context {W Msg Sup St : Type} `{!Message W Msg}.
#[local] Abbreviation Task := (@Rt W Msg Sup St).

Definition with_node n (s : Task) : Task := mkRt (ports s) (now s) (decoder s) (ustate s) n (log s).

(** [ActorRuntime::new]: a name that is taken refuses the actor, the pid of a new actor being fresh. *)
Definition runtime_new (n : option string) : RM Task (SpawnErr + ActorId) := λ s,
  let '(r, x) := new n (node s) in
  (Val match r with Some a => inr a | None => inl (ActorAlreadyRegistered (default ""%string n)) end, with_node x s).

Variable arrivals : nat → list (@Arrival Msg Sup).
Variable others : nat → list sys_op.
Variable user : nat → @Callback Msg Sup → option St → Outcome * option St.
Variable signal_first : nat → bool.

Definition Launch : Type := RM Task (SpawnErr + (SupervisionEvent * option St)).

(** [spawn_instant], [spawn_linked_instant]: the actor, and what its task is to do *)
Definition spawn_instant (n : option string) (fuel : nat) : RM Task (SpawnErr + (ActorId * Launch)) :=
  r ← runtime_new n;
  mret match r with
       | inl e => inl e
       | inr a => inr (a, run_actor arrivals others user signal_first a None fuel)
       end.
Definition spawn_linked_instant (n : option string) (supervisor : ActorId) (fuel : nat) :
  RM Task (SpawnErr + (ActorId * Launch)) :=
  r ← runtime_new n;
  mret match r with
       | inl e => inl e
       | inr a => inr (a, run_actor arrivals others user signal_first a (Some supervisor) fuel)
       end.

(** [spawn], [spawn_linked]: the caller waits for the start, and the task goes on *)
Definition spawn (n : option string) (fuel : nat) : RM Task (SpawnErr + (ActorId * (SpawnErr + (SupervisionEvent * option St)))) :=
  r ← runtime_new n;
  match r with
  | inl e => mret (inl e)
  | inr a => r ← run_actor arrivals others user signal_first a None fuel; mret (inr (a, r))
  end.
Definition spawn_linked (n : option string) (supervisor : ActorId) (fuel : nat) :
  RM Task (SpawnErr + (ActorId * (SpawnErr + (SupervisionEvent * option St)))) :=
  r ← runtime_new n;
  match r with
  | inl e => mret (inl e)
  | inr a => r ← run_actor arrivals others user signal_first a (Some supervisor) fuel; mret (inr (a, r))
  end.

Definition spawn_linked_remote (n : option string) (id supervisor : ActorId) (fuel : nat) :
  RM Task (SpawnErr + (ActorId * (SpawnErr + (SupervisionEvent * option St)))) :=
  if is_local id then
    mret (inl (StartupFailed "Cannot spawn a remote actor when the identifier is not remote!"))
  else
    update_with (λ s, with_node (new_remote n id (node s)).2 s) ;;
    r ← run_actor arrivals others user signal_first id (Some supervisor) fuel;
    match r with
    | inl _ => update_with (λ s, with_node (set_status id Stopped (node s)).2 s)
    | inr _ => mret tt
    end ;;
    mret (inr (id, r)).
End spawn.
