(* ===== verification/RuntimeFacts.v ===== *)
(** The task of an actor, against an abstract actor.

    The abstract actor is a machine whose state is a phase and a mailbox, and whose steps are the items of
    the log of a task: what arrives changes the mailbox, a message is taken only when nothing of a higher
    priority is there, a callback is called only in the phase it belongs to, and the exit that is reported
    is determined by the phase.  The tasks of Runtime.v refine it; what holds of every actor is proved of
    the machine, by induction on its steps. *)

From S2P Require Import Prelude Discard Job ActorTypes Pg Actors Lifecycle Bytes Serialization Runtime.

(** The operations of a log, in order, whoever performed them *)
Definition node_ops {Msg Sup} (l : list (@LogItem Msg Sup)) : list sys_op :=
  omap (λ i, match i with LEnv o | LOp o => Some o | _ => None end) l.

Lemma node_ops_app {Msg Sup} (l k : list (@LogItem Msg Sup)) : node_ops (l ++ k) = node_ops l ++ node_ops k.
Proof. apply omap_app. Qed.
Lemma node_ops_arrivals {Msg Sup} (xs : list (@Arrival Msg Sup)) : node_ops (LArrive <$> xs) = [].
Proof. by induction xs. Qed.
Lemma node_ops_env {Msg Sup} (os : list sys_op) : node_ops (LEnv <$> os : list (@LogItem Msg Sup)) = os.
Proof. induction os as [|o os IH]; [done|]. cbn. by f_equal. Qed.

Lemma valid_history_app `{!HashSetIter ActorId} `{!HashSetIter ScopeGroupKey} s ops ops' :
  valid_history s (ops ++ ops') ↔ valid_history s ops ∧ valid_history (run_sys s ops) ops'.
Proof.
  revert s. induction ops as [|o ops IH]; intros s; cbn [app valid_history run_sys foldl]; [naive_solver|].
  rewrite IH. unfold run_sys. naive_solver.
Qed.

Lemma run_sys_app `{!HashSetIter ActorId} `{!HashSetIter ScopeGroupKey} s ops ops' :
  run_sys s (ops ++ ops') = run_sys (run_sys s ops) ops'.
Proof. apply foldl_app. Qed.

Section spec.
Context {Msg Sup : Type}.
#[local] Abbreviation Ports := (@ActorPortSet Msg Sup).
#[local] Abbreviation Item := (@LogItem Msg Sup).
Implicit Types (p : Ports).

(** ** The abstract actor *)

Inductive Phase :=
| PhFresh
| PhStarting
| PhPre
| PhPreDone (r : Outcome)
| PhAborting
| PhUnlaunched
| PhStarted
| PhPost
| PhReady
| PhRunning
| PhBusy (m : @ActorPortMessage Msg Sup)
| PhCalled (m : @ActorPortMessage Msg Sup)
| PhExit (reason : option string)
| PhFailing (e : string)
| PhKilling
| PhKilled
| PhStopping (reason : option string)
| PhPostStop (reason : option string)
| PhCancelling
| PhDone (e : SupervisionEvent) (state : bool)
| PhEnded (e : SupervisionEvent) (state : bool).

(** Where a signal takes effect *)
Definition signalled_phase (φ : Phase) : option Phase :=
  match φ with
  | PhStarting | PhPre => Some PhAborting
  | PhStarted | PhPost | PhStopping _ | PhPostStop _ => Some PhCancelling
  | PhRunning | PhBusy _ | PhCalled _ => Some PhKilling
  | _ => None
  end.

Definition set_signal_rx o p : Ports := mkPorts o (stop_rx p) (supervisor_rx p) (message_rx p) (dropped p).
Definition set_stop_rx o p : Ports := mkPorts (signal_rx p) o (supervisor_rx p) (message_rx p) (dropped p).
Definition set_supervisor_rx q p : Ports := mkPorts (signal_rx p) (stop_rx p) q (message_rx p) (dropped p).
Definition set_message_rx q p : Ports := mkPorts (signal_rx p) (stop_rx p) (supervisor_rx p) q (dropped p).

Definition stop_reason (m : StopMessage) : option string := match m with Stop => None | Reason r => Some r end.

(** The actor, the supervisor it is linked to before and after [pre_start], and what handling a message may
    come to *)
Variable myself : ActorId.
Variables sup_before sup_after : option ActorId.
Variable handling : BoxedMessage Msg → @Future Msg Sup → Prop.

Inductive step : Phase * Ports → Item → Phase * Ports → Prop :=
| st_arrive φ p x : step (φ, p) (LArrive x) (φ, deliver p x)
| st_env φ p o : step (φ, p) (LEnv o) (φ, p)
(* the signal, whenever the actor looks at it *)
| st_signal φ φ' p : signalled_phase φ = Some φ' → signal_rx p = OFull Kill →
    step (φ, p) (LTake (PSignal Kill)) (φ', set_signal_rx OTaken p)
| st_closed φ φ' p : signalled_phase φ = Some φ' → signal_rx p = OClosed →
    step (φ, p) LClosed (φ', set_signal_rx OTaken p)
(* starting *)
| st_begin p : step (PhFresh, p) (LOp (OStartBegin myself)) (PhStarting, p)
| st_link p q : sup_before = Some q → step (PhStarting, p) (LOp (OLink myself q)) (PhStarting, p)
| st_cancel p : step (PhStarting, p) (LOp (OCancel myself)) (PhUnlaunched, p)
| st_pre p : step (PhStarting, p) (LCall CPreStart) (PhPre, p)
| st_pre_done p r : step (PhPre, p) (LReturn r) (PhPreDone r, p)
| st_pre_ok p : step (PhPreDone UOk, p) (LOp (OStartEnd myself sup_after PreOk)) (PhStarted, p)
| st_pre_failed p r : r ≠ UOk → step (PhPreDone r, p) (LOp (OStartEnd myself sup_after PreFailed)) (PhUnlaunched, p)
| st_pre_killed p : step (PhAborting, p) (LOp (OStartEnd myself sup_after PreKilled)) (PhUnlaunched, p)
| st_post p : step (PhStarted, p) (LCall CPostStart) (PhPost, p)
| st_post_ok p : step (PhPost, p) (LReturn UOk) (PhReady, p)
| st_post_failed p r e : r = UErr e ∨ r = UPanic e → step (PhPost, p) (LReturn r) (PhDone (ActorFailed myself e) false, p)
| st_running p : step (PhReady, p) (LOp (ORunning myself)) (PhRunning, p)
(* taking, in priority *)
| st_stop p m : signal_rx p = OEmpty → stop_rx p = OFull m →
    step (PhRunning, p) (LTake (PStop m)) (PhExit (stop_reason m), set_stop_rx OTaken p)
| st_supervision p e q : signal_rx p = OEmpty → stop_rx p = OEmpty → supervisor_rx p = e :: q →
    step (PhRunning, p) (LTake (PSupervision e)) (PhBusy (PSupervision e), set_supervisor_rx q p)
| st_message p m q : signal_rx p = OEmpty → stop_rx p = OEmpty → supervisor_rx p = [] → message_rx p = MuxMessage m :: q →
    step (PhRunning, p) (LTake (PMessage (MuxMessage m))) (PhBusy (PMessage (MuxMessage m)), set_message_rx q p)
| st_drain p q : signal_rx p = OEmpty → stop_rx p = OEmpty → supervisor_rx p = [] → message_rx p = Drain :: q →
    step (PhRunning, p) (LTake (PMessage Drain)) (PhExit (Some "Drained"%string), set_message_rx q p)
(* handling *)
| st_handle_supervision p e :
    step (PhBusy (PSupervision e), p) (LCall (CHandleSupervisor e)) (PhCalled (PSupervision e), p)
| st_handle_message p m c : handling m (UserCall c) →
    step (PhBusy (PMessage (MuxMessage m)), p) (LCall c) (PhCalled (PMessage (MuxMessage m)), p)
| st_dropped p m : handling m (Immediate UOk) → step (PhBusy (PMessage (MuxMessage m)), p) (LReturn UOk) (PhRunning, p)
| st_undecodable p m r e : handling m (Immediate r) → r = UErr e ∨ r = UPanic e →
    step (PhBusy (PMessage (MuxMessage m)), p) (LReturn r) (PhFailing e, p)
| st_handled p m : step (PhCalled m, p) (LReturn UOk) (PhRunning, p)
| st_failed p m r e : r = UErr e ∨ r = UPanic e → step (PhCalled m, p) (LReturn r) (PhFailing e, p)
(* exiting *)
| st_terminate p : step (PhKilling, p) (LOp (OTerminate myself)) (PhKilled, p)
| st_killed p : step (PhKilled, p) (LOp (OStopping myself)) (PhDone (ActorTerminated myself (Some "killed"%string)) true, p)
| st_failing p e : step (PhFailing e, p) (LOp (OStopping myself)) (PhDone (ActorFailed myself e) false, p)
| st_exit p reason : step (PhExit reason, p) (LOp (OStopping myself)) (PhStopping reason, p)
| st_post_stop p reason : step (PhStopping reason, p) (LCall CPostStop) (PhPostStop reason, p)
| st_stopped p reason : step (PhPostStop reason, p) (LReturn UOk) (PhDone (ActorTerminated myself reason) true, p)
| st_stop_failed p reason r e : r = UErr e ∨ r = UPanic e →
    step (PhPostStop reason, p) (LReturn r) (PhDone (ActorFailed myself e) false, p)
| st_cancelled p :
    step (PhCancelling, p) (LOp (OTerminate myself)) (PhDone (ActorTerminated myself (Some "killed"%string)) false, p)
| st_finish p e state : step (PhDone e state, p) (LOp (OFinish myself e)) (PhEnded e state, p).

(** Steps, and the trace of an actor from its creation *)
Inductive steps (x : Phase * Ports) : list Item → Phase * Ports → Prop :=
| steps_nil : steps x [] x
| steps_snoc l y i z : steps x l y → step y i z → steps x (l ++ [i]) z.

Definition trace (l : list Item) (φ : Phase) p : Prop := steps (PhFresh, ports_new) l (φ, p).

Lemma steps_app x l y k z : steps x l y → steps y k z → steps x (l ++ k) z.
Proof.
  intros Hl Hk. induction Hk as [|k y' i z' Hk IH Hs]; [by rewrite app_nil_r|].
  rewrite app_assoc. by eapply steps_snoc.
Qed.

Lemma steps_arrivals φ p xs : steps (φ, p) (LArrive <$> xs) (φ, foldl deliver p xs).
Proof.
  induction xs as [|x xs IH] using rev_ind; [constructor|].
  rewrite fmap_app, foldl_snoc. eapply steps_snoc; [done|constructor].
Qed.

Lemma steps_env φ p os : steps (φ, p) (LEnv <$> os) (φ, p).
Proof.
  induction os as [|o os IH] using rev_ind; [constructor|]. rewrite fmap_app. eapply steps_snoc; [done|constructor].
Qed.

(** The one-shot ports are not polled again when they have completed, and a closed mailbox shows at the
    signal port first. *)
Definition watches_signal (φ : Phase) : bool :=
  match φ with
  | PhAborting | PhUnlaunched | PhKilling | PhKilled | PhCancelling | PhDone _ _ | PhEnded _ _ => false
  | _ => true
  end.
Definition watches_stop (φ : Phase) : bool :=
  match φ with
  | PhFresh | PhStarting | PhPre | PhPreDone _ | PhStarted | PhPost | PhReady | PhRunning | PhBusy _ | PhCalled _ => true
  | _ => false
  end.

Record ports_ok (φ : Phase) p : Prop := {
  po_signal : watches_signal φ = true → signal_rx p ≠ OTaken;
  po_stop : watches_stop φ = true → stop_rx p ≠ OTaken;
  po_dropped : dropped p = true → signal_rx p ≠ OEmpty ∧ stop_rx p ≠ OEmpty;
  po_closed : stop_rx p = OClosed → signal_rx p ≠ OEmpty
}.

Lemma ports_ok_deliver φ p x : ports_ok φ p → ports_ok φ (deliver p x).
Proof.
  intros [H1 H2 H3 H4]. destruct p as [sg st sv ms dr]; cbn in *.
  destruct x; [| | | |]; destruct dr, sg, st; cbn in *; split; cbn; naive_solver.
Qed.

Lemma ports_ok_step x i y : step x i y → ports_ok x.1 x.2 → ports_ok y.1 y.2.
Proof.
  destruct 1; cbn [fst snd]; try (by apply ports_ok_deliver);
    try match goal with H : signalled_phase ?φ = Some _ |- _ => destruct φ; simplify_eq/= end;
    intros [Hsg Hst Hdr Hcl]; split; cbn in *; naive_solver.
Qed.

Lemma trace_ports_ok l φ p : trace l φ p → ports_ok φ p.
Proof.
  unfold trace. change (ports_ok φ p) with (ports_ok (φ, p).1 (φ, p).2).
  generalize (φ, p). induction 1; [by split|]. by eapply ports_ok_step.
Qed.

(** ** What holds of every actor *)

Definition arrived (l : list Item) : list Arrival := omap (λ i, match i with LArrive x => Some x | _ => None end) l.
Definition is_dropped (x : @Arrival Msg Sup) : bool := match x with ADropped => true | _ => false end.

(** What was sent before the senders were dropped *)
Fixpoint before_drop (xs : list (@Arrival Msg Sup)) : list (@Arrival Msg Sup) :=
  match xs with
  | [] => []
  | x :: xs => if is_dropped x then [] else x :: before_drop xs
  end.
Definition sent_supervision (l : list Item) : list Sup :=
  omap (λ x, match x with ASupervision e => Some e | _ => None end) (before_drop (arrived l)).
Definition sent_messages (l : list Item) : list Muxed :=
  omap (λ x, match x with AMessage m => Some m | _ => None end) (before_drop (arrived l)).
Definition taken_supervision (l : list Item) : list Sup :=
  omap (λ i, match i with LTake (PSupervision e) => Some e | _ => None end) l.
Definition taken_messages (l : list Item) : list Muxed :=
  omap (λ i, match i with LTake (PMessage m) => Some m | _ => None end) l.

Lemma before_drop_snoc xs x :
  before_drop (xs ++ [x]) = if existsb is_dropped xs || is_dropped x then before_drop xs else before_drop xs ++ [x].
Proof using.
  induction xs as [|y xs IH]; cbn; [by destruct (is_dropped x)|]. destruct (is_dropped y); [done|]. cbn. rewrite IH.
  by destruct (_ || _).
Qed.

Record mail_ok (l : list Item) p : Prop := {
  mo_dropped : dropped p = existsb is_dropped (arrived l);
  mo_supervision : sent_supervision l = taken_supervision l ++ supervisor_rx p;
  mo_messages : sent_messages l = taken_messages l ++ message_rx p
}.

Lemma mail_ok_arrive l p x : mail_ok l p → mail_ok (l ++ [LArrive x]) (deliver p x).
Proof using.
  intros [H1 H2 H3]. unfold sent_supervision, sent_messages, taken_supervision, taken_messages in *.
  split; unfold sent_supervision, sent_messages, taken_supervision, taken_messages, arrived in *;
    rewrite ?omap_app; cbn [omap list_omap]; rewrite ?app_nil_r, ?existsb_app, ?before_drop_snoc, <-?H1.
  - destruct x; cbn; destruct (dropped p) eqn:E; cbn; by rewrite ?E.
  - destruct x; cbn; destruct (dropped p); cbn; rewrite ?omap_app, ?app_nil_r, ?H2; cbn; by rewrite ?app_assoc, ?app_nil_r.
  - destruct x; cbn; destruct (dropped p); cbn; rewrite ?omap_app, ?app_nil_r, ?H3; cbn; by rewrite ?app_assoc, ?app_nil_r.
Qed.

Lemma mail_ok_step l x i y : step x i y → mail_ok l x.2 → mail_ok (l ++ [i]) y.2.
Proof using.
  destruct 1; cbn [fst snd]; try (by apply mail_ok_arrive);
    intros [M1 M2 M3]; unfold sent_supervision, sent_messages, taken_supervision, taken_messages, arrived in *;
    split; unfold sent_supervision, sent_messages, taken_supervision, taken_messages, arrived;
    rewrite ?omap_app; cbn [omap list_omap]; rewrite ?app_nil_r; cbn;
    rewrite ?M1, ?M2, ?M3; try done;
    try (match goal with H : supervisor_rx _ = _ |- _ => rewrite H end);
    try (match goal with H : message_rx _ = _ |- _ => rewrite H end); by rewrite <-?app_assoc, ?app_nil_r.
Qed.

Lemma trace_mail_ok l φ p : trace l φ p → mail_ok l p.
Proof using.
  unfold trace. change (mail_ok l p) with (mail_ok l (φ, p).2). generalize (φ, p).
  induction 1; [by split|]. by eapply mail_ok_step.
Qed.

(** What was taken to be handled, and the handlers called *)
Definition work (l : list Item) : list ActorPortMessage :=
  omap (λ i, match i with
             | LTake (PSupervision e) => Some (PSupervision e)
             | LTake (PMessage (MuxMessage m)) => Some (PMessage (MuxMessage m))
             | _ => None
             end) l.
Definition is_handler (c : @Callback Msg Sup) : bool :=
  match c with CHandle _ | CHandleSerialized _ | CHandleSupervisor _ => true | _ => false end.
Definition handler_calls (l : list Item) : list Callback :=
  omap (λ i, match i with LCall c => if is_handler c then Some c else None | _ => None end) l.

(** The handler of a message *)
Definition handler_of (m : ActorPortMessage) (c : Callback) : Prop :=
  match m with
  | PSupervision e => c = CHandleSupervisor e
  | PMessage (MuxMessage m) => handling m (UserCall c)
  | _ => False
  end.

(** The handlers called for the messages of a list: one each, in order, but for the messages that are
    dropped because they cannot be decoded *)
Inductive delivered : list ActorPortMessage → list Callback → Prop :=
| dl_nil : delivered [] []
| dl_call ms cs m c : delivered ms cs → handler_of m c → delivered (ms ++ [m]) (cs ++ [c])
| dl_drop ms cs m : delivered ms cs → handling m (Immediate UOk) → delivered (ms ++ [PMessage (MuxMessage m)]) cs.

Definition interrupted (φ : Phase) : bool :=
  match φ with PhKilling | PhKilled | PhFailing _ | PhDone _ _ | PhEnded _ _ => true | _ => false end.

Definition delivery (φ : Phase) (ms : list ActorPortMessage) (cs : list Callback) : Prop :=
  match φ with
  | PhBusy m => ∃ ws, ms = ws ++ [m] ∧ delivered ws cs
  | _ => delivered ms cs ∨ interrupted φ = true ∧ ∃ ws m, ms = ws ++ [m] ∧ delivered ws cs
  end.

Hypothesis handling_calls : ∀ m c, handling m (UserCall c) → is_handler c = true.

Lemma delivery_signalled φ φ' ms cs : signalled_phase φ = Some φ' → delivery φ ms cs → delivery φ' ms cs.
Proof using.
  destruct φ; intros [= <-]; cbn; try naive_solver.
Qed.

Lemma delivery_step l x i y : step x i y → delivery x.1 (work l) (handler_calls l) →
  delivery y.1 (work (l ++ [i])) (handler_calls (l ++ [i])).
Proof using handling_calls.
  destruct 1; cbn [fst snd]; unfold work, handler_calls; rewrite !omap_app; cbn [omap list_omap is_handler];
    rewrite ?app_nil_r; try (by apply delivery_signalled); cbn [delivery interrupted];
    try done; try (intros [?|[? ?]]; [by left|by (done || right)]).
  - intros [?|[[=] _]]. by eexists.
  - intros [?|[[=] _]]. by eexists.
  - intros (ws & -> & ?). left. by apply dl_call.
  - match goal with H : handling _ _ |- _ => rewrite (handling_calls _ _ H) end. intros (ws & -> & ?). left. by apply dl_call.
  - intros (ws & -> & ?). left. by apply dl_drop.
  - intros (ws & -> & ?). right. split; [done|]. by do 2 eexists.
Qed.

Lemma trace_delivery l φ p : trace l φ p → delivery φ (work l) (handler_calls l).
Proof using handling_calls.
  unfold trace. change φ with (φ, p).1 at 2. generalize (φ, p). induction 1; [left; constructor|].
  by eapply delivery_step.
Qed.

(** At most the last message taken is without its handler. *)
Lemma trace_delivered l φ p : trace l φ p →
  ∃ ms cut, work l = ms ++ cut ∧ length cut ≤ 1 ∧ delivered ms (handler_calls l) ∧
    (cut ≠ [] → interrupted φ = true ∨ ∃ m, φ = PhBusy m).
Proof using handling_calls.
  intros H%trace_delivery. unfold delivery in H.
  assert (delivered (work l) (handler_calls l) ∨
    (∃ ms m, work l = ms ++ [m] ∧ delivered ms (handler_calls l)) ∧ (interrupted φ = true ∨ ∃ m, φ = PhBusy m)) as [?|[(ms & m & -> & ?) ?]].
  { destruct φ; naive_solver. }
  - exists (work l), []. rewrite app_nil_r. split_and!; [done|simpl; lia|done|done].
  - exists ms, [m]. split_and!; [done|simpl; lia|done|done].
Qed.

(** Once a signal, a stop or the loss of the senders has arrived, nothing is taken to be handled. *)
Definition closing p : Prop := signal_rx p ≠ OEmpty ∨ stop_rx p ≠ OEmpty.
Definition ends (x : @Arrival Msg Sup) : bool := match x with ASignal | AStop _ | ADropped => true | _ => false end.

Lemma closing_deliver p x : closing p → closing (deliver p x).
Proof using.
  unfold closing. destruct p as [sg st sv ms dr], x, dr, sg, st; cbn; naive_solver.
Qed.

Lemma ends_closing p x : ends x = true → closing (deliver p x).
Proof using. unfold closing. destruct p as [sg st sv ms dr], x, sg, st; cbn; naive_solver. Qed.

Lemma closing_step x i y : step x i y → closing x.2 → closing y.2 ∧ work [i] = [].
Proof using.
  destruct 1; cbn [fst snd]; intros Hc; try done; try (split; [by apply closing_deliver|done]);
    try (split; [by left|done]); try (split; [by right|done]); destruct Hc; congruence.
Qed.

Lemma closing_steps x l y : steps x l y → closing x.2 → work l = [].
Proof using.
  intros Hs Hc. enough (closing y.2 ∧ work l = []) by naive_solver.
  induction Hs as [|l y i z Hs [IHc IHw] Hi]; [done|]. destruct (closing_step _ _ _ Hi IHc) as [? Hw].
  split; [done|]. unfold work in *. by rewrite omap_app, IHw, Hw.
Qed.

Lemma steps_app_inv x l k z : steps x (l ++ k) z → ∃ y, steps x l y ∧ steps y k z.
Proof using.
  revert z. induction k as [|i k IH] using rev_ind; intros z Hs; [exists z; rewrite app_nil_r in Hs; split; [done|constructor]|].
  rewrite app_assoc in Hs. inversion Hs as [Hn|l' y' i' z' Hs' Hi Heq]; [by destruct ((l ++ k)%list)|].
  apply app_inj_tail in Heq as [-> ->]. destruct (IH _ Hs') as (y & ? & ?). exists y. split; [done|]. by eapply steps_snoc.
Qed.

Lemma trace_prompt l1 x l2 φ p : trace (l1 ++ LArrive x :: l2) φ p → ends x = true → work l2 = [].
Proof using.
  intros Ht Hx. rewrite cons_middle, app_assoc in Ht. apply steps_app_inv in Ht as (y & Ht & Hs).
  apply steps_app_inv in Ht as (y0 & _ & Ht). apply (closing_steps _ _ _ Hs).
  inversion Ht as [|l' y' i' z' Hn Hi Heq]; subst. apply (app_inj_tail l' []) in Heq as [-> ->].
  inversion Hn; subst; [|by destruct l].
  inversion Hi; subst. by apply ends_closing.
Qed.

(** The exit that is reported is determined by the log: an actor that took the signal, or found its port
    closed, was killed; otherwise, if a callback or the decoder failed, the actor failed with that error; and
    otherwise it took a stop or a drain, which gives the reason. *)
Definition was_signalled (l : list Item) : bool :=
  existsb (λ i, match i with LTake (PSignal _) | LClosed => true | _ => false end) l.
Definition failures (l : list Item) : list string :=
  omap (λ i, match i with LReturn (UErr e) | LReturn (UPanic e) => Some e | _ => None end) l.
Definition exit_requests (l : list Item) : list (option string) :=
  omap (λ i, match i with
             | LTake (PStop m) => Some (stop_reason m)
             | LTake (PMessage Drain) => Some (Some "Drained"%string)
             | _ => None
             end) l.

Definition exit_of (l : list Item) : option SupervisionEvent :=
  if was_signalled l then Some (ActorTerminated myself (Some "killed"%string))
  else match failures l with
       | e :: _ => Some (ActorFailed myself e)
       | [] => match exit_requests l with r :: _ => Some (ActorTerminated myself r) | [] => None end
       end.

Definition outcome_failures (r : Outcome) : list string := match r with UErr e | UPanic e => [e] | _ => [] end.

(** What the log holds of the three, in each phase *)
Definition cause_ok (φ : Phase) (l : list Item) : Prop :=
  match φ with
  | PhAborting | PhUnlaunched => True
  | PhPreDone r => was_signalled l = false ∧ failures l = outcome_failures r ∧ exit_requests l = []
  | PhExit r | PhStopping r | PhPostStop r => was_signalled l = false ∧ failures l = [] ∧ exit_requests l = [r]
  | PhFailing e => was_signalled l = false ∧ failures l = [e] ∧ exit_requests l = []
  | PhKilling | PhKilled | PhCancelling => was_signalled l = true
  | PhDone e _ | PhEnded e _ => exit_of l = Some e
  | _ => was_signalled l = false ∧ failures l = [] ∧ exit_requests l = []
  end.

Lemma was_signalled_snoc l i : was_signalled (l ++ [i]) = was_signalled l || was_signalled [i].
Proof using. apply existsb_app. Qed.
Lemma failures_snoc l i : failures (l ++ [i]) = failures l ++ failures [i].
Proof using. apply omap_app. Qed.
Lemma exit_requests_snoc l i : exit_requests (l ++ [i]) = exit_requests l ++ exit_requests [i].
Proof using. apply omap_app. Qed.

Lemma cause_ok_quiet φ l i : was_signalled [i] = false → failures [i] = [] → exit_requests [i] = [] →
  cause_ok φ l → cause_ok φ (l ++ [i]).
Proof using.
  intros H1 H2 H3. unfold cause_ok, exit_of. rewrite was_signalled_snoc, failures_snoc, exit_requests_snoc, H1, H2, H3, orb_false_r, !app_nil_r.
  done.
Qed.

Lemma cause_ok_step l x i y : step x i y → cause_ok x.1 l → cause_ok y.1 (l ++ [i]).
Proof using.
  destruct 1; cbn [fst snd]; try (by apply cause_ok_quiet);
    try match goal with H : signalled_phase ?φ = Some _ |- _ => destruct φ; simplify_eq/= end;
    unfold cause_ok, exit_of; rewrite ?was_signalled_snoc, ?failures_snoc, ?exit_requests_snoc; cbn [existsb omap list_omap was_signalled failures exit_requests];
    rewrite ?orb_true_r; try done;
    try (intros (-> & -> & ->)); try (intros ->); cbn; try done;
    try (match goal with H : _ = UErr _ ∨ _ |- _ => destruct H as [-> | ->] end); try done; try (by match goal with r : Outcome |- _ => destruct r end).
  by rewrite orb_false_r, !app_nil_r.
Qed.

Lemma trace_cause l φ p : trace l φ p → cause_ok φ l.
Proof using.
  unfold trace. change φ with (φ, p).1 at 2. generalize (φ, p). induction 1 as [|l y i z Hs IH Hi]; [done|].
  by eapply cause_ok_step.
Qed.

(** The stop that was taken is the first that was sent. *)
Definition first_stop (l : list Item) : option (option string) :=
  head (omap (λ x, match x with AStop r => Some r | _ => None end) (before_drop (arrived l))).

Record stop_ok (l : list Item) p : Prop := {
  st_empty : stop_rx p = OEmpty → first_stop l = None;
  st_full m : stop_rx p = OFull m → first_stop l = Some (stop_reason m);
  st_taken m : LTake (PStop m) ∈ l → first_stop l = Some (stop_reason m)
}.

Lemma first_stop_quiet l i : arrived [i] = [] → first_stop (l ++ [i]) = first_stop l.
Proof using. intros Hi. unfold first_stop, arrived in *. by rewrite omap_app, Hi, app_nil_r. Qed.

Lemma first_stop_arrive l x :
  first_stop (l ++ [LArrive x]) =
  match first_stop l with
  | Some r => Some r
  | None => match x with AStop r => if existsb is_dropped (arrived l) then None else Some r | _ => None end
  end.
Proof using.
  unfold first_stop, arrived. rewrite omap_app. cbn [omap list_omap]. rewrite before_drop_snoc.
  set (xs := omap _ l). destruct (existsb is_dropped xs), x; cbn [orb is_dropped];
    rewrite ?omap_app; destruct (omap _ (before_drop xs)); done.
Qed.

Lemma stop_ok_arrive l φ p x : ports_ok φ p → mail_ok l p → stop_ok l p → stop_ok (l ++ [LArrive x]) (deliver p x).
Proof using.
  intros [_ _ Hp _] [Hd _ _] [H1 H2 H3]. split; rewrite first_stop_arrive, <-?Hd.
  - destruct p as [sg st sv ms dr], x, dr, st; cbn in *; intros; simplify_eq; by rewrite H1.
  - intros m. destruct p as [sg st sv ms dr], x as [|[r|]| | |], dr, st; cbn in *; intros; simplify_eq; 
      first [by rewrite (H2 _ eq_refl)|by rewrite H1|naive_solver].
  - intros m [Hm| [=]%list_elem_of_singleton]%elem_of_app. by rewrite (H3 m Hm).
Qed.

Lemma stop_ok_step l x i y : step x i y → ports_ok x.1 x.2 → mail_ok l x.2 → stop_ok l x.2 → stop_ok (l ++ [i]) y.2.
Proof using.
  destruct 1; cbn [fst snd]; intros Hp Hm Ho; try (by eapply stop_ok_arrive);
    destruct Ho as [H1' H2' H3']; split; rewrite first_stop_quiet by done; cbn in *; try done; auto;
    intros m' [?|Heq%list_elem_of_singleton]%elem_of_app; simplify_eq; auto.
Qed.

Lemma trace_stop l φ p m : trace l φ p → LTake (PStop m) ∈ l → first_stop l = Some (stop_reason m).
Proof using.
  intros Ht. enough (stop_ok l p) as Ho by apply Ho. unfold trace in Ht.
  change (stop_ok l (φ, p).2). revert Ht. generalize (φ, p). induction 1 as [|l [φ1 p1] i z Hs IH Hi].
  - split; [done|done|]. by intros m' ?%not_elem_of_nil.
  - eapply stop_ok_step; [done|by eapply trace_ports_ok|by eapply trace_mail_ok|done].
Qed.

(** A signal that was taken was sent, or the senders were dropped. *)
Definition kills (x : @Arrival Msg Sup) : bool := match x with ASignal | ADropped => true | _ => false end.

Record signal_ok (l : list Item) p : Prop := {
  sg_port : signal_rx p ≠ OEmpty → existsb kills (arrived l) = true;
  sg_taken : was_signalled l = true → existsb kills (arrived l) = true
}.

Lemma signal_ok_step l x i y : step x i y → signal_ok l x.2 → signal_ok (l ++ [i]) y.2.
Proof using.
  intros Hs [H1 H2]. assert (arrived (l ++ [i]) = arrived l ++ arrived [i]) as Ha by apply omap_app.
  destruct Hs; cbn [fst snd] in *; split; rewrite ?was_signalled_snoc, Ha, existsb_app; cbn; rewrite ?orb_false_r;
    try done; try (intros _; apply H1; congruence); try (intros ?; rewrite H2; [done|done]).
  destruct p as [sg st sv ms dr], x, sg, dr; cbn in *; rewrite ?orb_true_r; auto; intros; rewrite H1; done.
Qed.

Lemma trace_signal l φ p : trace l φ p → was_signalled l = true → existsb kills (arrived l) = true.
Proof using.
  intros Ht. enough (signal_ok l p) as Ho by apply Ho. unfold trace in Ht.
  change (signal_ok l (φ, p).2). revert Ht. generalize (φ, p). induction 1 as [|l y i z Hs IH Hi]; [by split|].
  by eapply signal_ok_step.
Qed.

(** The event is about the actor, and its report ends the log. *)
Lemma trace_finish l e b p : trace l (PhEnded e b) p → ∃ l1 l2, l = l1 ++ LOp (OFinish myself e) :: l2 ∧
  (∀ i, i ∈ l2 → (∃ x, i = LArrive x) ∨ ∃ o, i = LEnv o).
Proof using.
  unfold trace. remember (PhEnded e b, p) as y eqn:Ey. intros Hs. revert p Ey.
  induction Hs as [|l y i z Hs IH Hi]; intros p Ey; [done|]. subst z.
  inversion Hi; subst;
    try (match goal with H : signalled_phase ?φ = Some _ |- _ => by destruct φ; simplify_eq/= end).
  - destruct (IH _ eq_refl) as (l1 & l2 & -> & H2). exists l1, (l2 ++ [LArrive x]). rewrite <-app_assoc. split; [done|].
    intros j [?| ->%list_elem_of_singleton]%elem_of_app; eauto.
  - destruct (IH _ eq_refl) as (l1 & l2 & -> & H2). exists l1, (l2 ++ [LEnv o]). rewrite <-app_assoc. split; [done|].
    intros j [?| ->%list_elem_of_singleton]%elem_of_app; eauto.
  - exists l, []. split; [done|]. by intros j ?%not_elem_of_nil.
Qed.

(** Only an exit without an error may carry the state. *)
Definition event_ok (φ : Phase) : Prop :=
  match φ with
  | PhDone e state | PhEnded e state =>
      (∃ r, e = ActorTerminated myself r) ∨ ∃ x, e = ActorFailed myself x ∧ state = false
  | _ => True
  end.

Lemma trace_event l φ p : trace l φ p → event_ok φ.
Proof using.
  unfold trace. change φ with (φ, p).1 at 2. generalize (φ, p). induction 1 as [|l y i z Hs IH Hi]; [done|].
  destruct Hi; cbn [fst event_ok] in *; try done; try (by left; eexists); try (right; by eexists);
    match goal with H : signalled_phase ?φ = Some _ |- _ => by destruct φ; simplify_eq/= end.
Qed.

(** A message is taken when every supervision event that was sent has been. *)
Lemma trace_priority l1 m l2 φ p :
  trace (l1 ++ LTake (PMessage m) :: l2) φ p → sent_supervision l1 = taken_supervision l1.
Proof using.
  intros Ht. rewrite cons_middle, app_assoc in Ht. apply steps_app_inv in Ht as (y & Ht & _).
  apply steps_app_inv in Ht as ([φ0 p0] & Ht1 & Ht).
  inversion Ht as [|l' y' i' z' Hn Hi Heq]; subst. apply (app_inj_tail l' []) in Heq as [-> ->].
  inversion Hn as [|l3 ? i3]; subst; [|by destruct l3]. pose proof (mo_supervision _ _ (trace_mail_ok _ _ _ Ht1)) as Hm.
  inversion Hi; subst; simplify_eq; rewrite Hm;
    match goal with H : supervisor_rx _ = [] |- _ => rewrite H end; apply app_nil_r.
Qed.
End spec.

(** ** The tasks refine the abstract actor *)

Section refinement.
Context `{!HashSetIter ActorId} `{!HashSetIter ScopeGroupKey}.
Context {W Msg Sup St : Type} `{!Message W Msg}.
#[local] Abbreviation Task := (@Rt W Msg Sup St).
Implicit Types (s : Task).

Variable arrivals : nat → list (@Arrival Msg Sup).
Variable others : nat → list sys_op.
Variable user : nat → @Callback Msg Sup → option St → Outcome * option St.
Variable signal_first : nat → bool.
Variable myself : ActorId.
Variables sup_before sup_after : option ActorId.
Variable handling : BoxedMessage Msg → @Future Msg Sup → Prop.

(** The node the actor is created on, before its task starts *)
Variable node0 : Sys.

(** Others respect the lifecycles of the node, and leave that of this actor to its task. *)
Definition env_ok (l : list (@LogItem Msg Sup)) : Prop :=
  ∀ l1 o l2, l = l1 ++ LEnv o :: l2 → releases myself o = false ∧ op_valid (run_sys node0 (node_ops l1)) o.

(** The state of the node is the result of the operations of the log; they are a history, and [armed] tells
    whether the guard of the actor has run. *)
Record sound (armed : bool) (l : list (@LogItem Msg Sup)) (x : Sys) : Prop := {
  so_node : x = run_sys node0 (node_ops l);
  so_history : sys_inv false node0 → is_Some (guards node0 !! myself) → env_ok l →
    valid_history node0 (node_ops l) ∧ (is_Some (guards x !! myself) ↔ armed = true)
}.

Definition at_phase (φ : Phase) s : Prop :=
  trace myself sup_before sup_after handling (log s) φ (ports s) ∧ sound true (log s) (node s).
(** The ports may have been dropped. *)
Definition was_phase (armed : bool) (φ : Phase) s : Prop :=
  (∃ p, trace myself sup_before sup_after handling (log s) φ p) ∧ sound armed (log s) (node s).
Definition some_phase s : Prop := ∃ φ, was_phase true φ s.

#[local] Abbreviation never := (λ (_ : string) (_ : Task), False).

Lemma at_was φ s : at_phase φ s → was_phase true φ s.
Proof. intros [Ht Hc]. split; [by eexists|done]. Qed.
Lemma at_some φ s : at_phase φ s → some_phase s.
Proof. exists φ. by apply at_was. Qed.

Lemma env_ok_app l k : env_ok (l ++ k) → env_ok l.
Proof. intros H l1 o l2 ->. apply (H l1 o (l2 ++ k)). by rewrite <-app_assoc. Qed.

(** What does not concern the node *)
Lemma sound_silent armed l i x : node_ops [i] = [] → sound armed l x → sound armed (l ++ [i]) x.
Proof.
  intros Hi [H1 H2]. split; rewrite node_ops_app, Hi, app_nil_r; [done|]. intros Hv Ha He. apply H2; [done..|].
  by eapply env_ok_app.
Qed.

(** An operation of the node, by others or by the task *)
Lemma sound_op armed l i o x :
  node_ops [i] = [o] →
  (∀ n, run_sys node0 (node_ops l) = n → sys_inv false n → is_Some (guards n !! myself) → env_ok (l ++ [i]) →
    op_valid n o ∧ (is_Some (guards (sys_step n o) !! myself) ↔ armed = true)) →
  sound true l x → sound armed (l ++ [i]) (sys_step x o).
Proof.
  intros Hi Ho [H1 H2]. split; rewrite node_ops_app, Hi; [by rewrite run_sys_app, <-H1|]. intros Hv Ha He.
  destruct (H2 Hv Ha (env_ok_app _ _ He)) as [Hh [_ Hg]]. specialize (Hg eq_refl).
  assert (sys_inv false x) as Hx by (rewrite H1; by apply inv_run).
  destruct (Ho x (eq_sym H1) Hx Hg He) as [Hov Hg']. split; [|done].
  apply valid_history_app. rewrite <-H1. by split_and!.
Qed.

Lemma sound_env l o x : sound true l x → sound true (l ++ [LEnv o]) (sys_step x o).
Proof.
  apply sound_op; [done|]. intros n Hn Hi Hg He. destruct (He l o [] eq_refl) as [Hr Hv]. rewrite Hn in Hv.
  split; [done|]. split; [done|]. intros _. by eapply armed_step.
Qed.

(** A step that does not touch the mailbox *)
Definition moves (φ : Phase) (i : LogItem) (φ' : Phase) : Prop :=
  ∀ p, step myself sup_before sup_after handling (φ, p) i (φ', p).

Lemma at_silent φ φ' s s' i :
  at_phase φ s → log s' = log s ++ [i] → node s' = node s → node_ops [i] = [] →
  step myself sup_before sup_after handling (φ, ports s) i (φ', ports s') → at_phase φ' s'.
Proof.
  intros [Ht Hc] Hl Hn Hi Hs. unfold at_phase. rewrite Hl, Hn. split; [by eapply steps_snoc|by apply sound_silent].
Qed.

(** An operation the task may perform while its guard is armed, and that leaves it armed or not *)
Definition task_op (armed : bool) (o : sys_op) : Prop :=
  ∀ n, sys_inv false n → is_Some (guards n !! myself) →
    op_valid n o ∧ (is_Some (guards (sys_step n o) !! myself) ↔ armed = true).

Lemma own_was armed φ o φ' N : moves φ (LOp o) φ' → task_op armed o →
  triple (was_phase true φ) (own o) (λ _, was_phase armed φ') never N.
Proof.
  intros Hm Ho. apply triple_update. intros s [[p Ht] Hc]. split; [exists p; by eapply steps_snoc|].
  eapply sound_op; [done| |done]. auto.
Qed.

Lemma own_moves φ o φ' N : moves φ (LOp o) φ' → task_op true o → triple (at_phase φ) (own o) (λ _, at_phase φ') never N.
Proof.
  intros Hm Ho. apply triple_update. intros s [Ht Hc]. split; [by eapply steps_snoc|].
  eapply sound_op; [done| |done]. auto.
Qed.

Lemma note_moves φ i φ' N : node_ops [i] = [] → moves φ i φ' → triple (at_phase φ) (note i) (λ _, at_phase φ') never N.
Proof. intros Hi Hm. apply triple_update. intros s Hs. by eapply at_silent. Qed.

Lemma task_op_armed o : releases myself o = false → (∀ n, is_Some (guards n !! myself) → op_valid n o) → task_op true o.
Proof. intros Hr Hv n Hi Hg. specialize (Hv n Hg). split; [done|]. split; [done|]. intros _. by eapply armed_step. Qed.
Lemma task_op_terminate : task_op true (OTerminate myself).
Proof. by apply task_op_armed. Qed.
Lemma task_op_running : task_op true (ORunning myself).
Proof. by apply task_op_armed. Qed.
Lemma task_op_stopping : task_op true (OStopping myself).
Proof. by apply task_op_armed. Qed.
Lemma task_op_finish e : task_op false (OFinish myself e).
Proof.
  intros n Hi Hg. split; [done|]. cbn [sys_step]. rewrite (guards_cleanup false), lookup_delete_eq by done.
  split; [by intros [? ?]|done].
Qed.

Lemma sound_arrivals l x xs : sound true l x → sound true (l ++ (LArrive <$> xs)) x.
Proof.
  intros Hs. induction xs as [|y xs IH] using rev_ind; [by rewrite app_nil_r|].
  rewrite fmap_app, app_assoc. by apply sound_silent.
Qed.

Lemma sound_others l x os : sound true l x → sound true (l ++ (LEnv <$> os)) (run_sys x os).
Proof.
  intros Hs. induction os as [|o os IH] using rev_ind; [by rewrite app_nil_r|].
  rewrite fmap_app, app_assoc, run_sys_app. by apply sound_env.
Qed.

Lemma arrive_keeps φ N : triple (at_phase φ) (arrive arrivals others) (λ _, at_phase φ) never N.
Proof.
  apply triple_update. intros s [Ht Hc]. split.
  - eapply steps_app; [done|]. eapply steps_app; [apply steps_arrivals|apply steps_env].
  - simpl. rewrite app_assoc. by apply sound_others, sound_arrivals.
Qed.

Lemma choose_keeps φ N : triple (at_phase φ) (choose signal_first) (λ _, at_phase φ) never N.
Proof. by apply triple_asks. Qed.

(** Polling the signal port: it is empty, or the actor moves to where the signal takes effect. *)
Lemma select_signal_spec φ φk looks N : signalled_phase φ = Some φk →
  triple (at_phase φ) (select_signal looks) (λ r, at_phase (if r is Some _ then φk else φ)) never N.
Proof.
  intros Hk s Hs. pose proof (trace_ports_ok _ _ _ _ _ _ _ (proj1 Hs)) as [H1 _ _ _].
  assert (watches_signal φ = true) as Hw by (by destruct φ).
  destruct looks; [|done]. unfold select_signal, poll_signal, mbind, RM_bind.
  destruct (signal_rx (ports s)) as [|[]| |] eqn:E; cbn.
  - destruct Hs as [Ht Hc]. split; [|done]. simpl. rewrite <-E. by destruct (ports s).
  - eapply at_silent; [exact Hs|done|done|done|]. by apply st_signal.
  - eapply at_silent; [exact Hs|done|done|done|]. by apply st_closed.
  - by destruct H1.
Qed.

(** What a future is to come to in phase [φ], for the postcondition [R] *)
Definition future_ok (φ φk : Phase) (R : Outcome → Phase → Prop) (f : Future) : Prop :=
  match f with
  | Immediate r => ∃ φ', moves φ (LReturn r) φ' ∧ R r φ'
  | UserCall c => ∃ φc, moves φ (LCall c) φc ∧ signalled_phase φc = Some φk ∧
      ∀ o, o ≠ UNever → ∃ φ', moves φc (LReturn o) φ' ∧ R o φ'
  end.

Lemma run_user_moves c φ φc N : moves φ (LCall c) φc → triple (at_phase φ) (run_user user c) (λ _, at_phase φc) never N.
Proof.
  intros Hm s Hs. unfold run_user. destruct (user (now s) c (ustate s)) as [o u]. by eapply at_silent.
Qed.

Lemma run_with_signal_spec φ φk R future : signalled_phase φ = Some φk →
  triple (at_phase φ) future (λ f s, future_ok φ φk R f ∧ at_phase φ s) never some_phase →
  triple (at_phase φ) (run_with_signal arrivals others user signal_first future)
    (λ r s, match r with inl _ => at_phase φk s | inr o => ∃ φ', R o φ' ∧ at_phase φ' s end) never some_phase.
Proof.
  intros Hk Hf. unfold run_with_signal. eapply triple_bind; [apply arrive_keeps|intros []].
  eapply triple_bind; [apply choose_keeps|intros b]. eapply triple_bind; [by apply select_signal_spec|].
  intros [sg|]; [by apply triple_ret|]. eapply triple_bind; [exact Hf|]. intros f. apply triple_pure. intros Hok.
  destruct f as [r|c]; cbn [future_ok] in Hok.
  - destruct Hok as (φ' & Hm & HR). eapply triple_bind; [by apply note_moves|intros []]. apply triple_ret. eauto.
  - destruct Hok as (φc & Hm & Hkc & Hr). eapply triple_bind; [by apply run_user_moves|intros o].
    eapply triple_bind; [apply arrive_keeps|intros []]. eapply triple_bind; [apply choose_keeps|intros b'].
    eapply triple_bind; [by apply select_signal_spec|]. intros [sg|]; [by apply triple_ret|].
    destruct (decide (o = UNever)) as [->|Ho]; [apply triple_pending; apply at_some|].
    destruct (Hr o Ho) as (φ' & Hmr & HR).
    assert (triple (at_phase φc) (note (LReturn o) ;; mret (inr o : Signal + Outcome))
      (λ r s, match r with inl _ => at_phase φk s | inr o => ∃ φ', R o φ' ∧ at_phase φ' s end) never some_phase) as Ht.
    { eapply triple_bind; [by apply note_moves|intros []]. apply triple_ret. eauto. }
    by destruct o.
Qed.

(** ** The message loop *)

(** Listening takes what has the highest priority. *)
Lemma listen_spec N :
  triple (at_phase PhRunning) listen_in_priority
    (λ r, match r with
          | None => at_phase PhRunning
          | Some (inl _) | Some (inr (PSignal _)) => at_phase PhKilling
          | Some (inr (PStop m)) => at_phase (PhExit (stop_reason m))
          | Some (inr (PSupervision e)) => at_phase (PhBusy (PSupervision e))
          | Some (inr (PMessage Drain)) => at_phase (PhExit (Some "Drained"%string))
          | Some (inr (PMessage (MuxMessage m))) => at_phase (PhBusy (PMessage (MuxMessage m)))
          end) never N.
Proof.
  intros s Hs. pose proof (trace_ports_ok _ _ _ _ _ _ _ (proj1 Hs)) as [H1 H2 H3 H4].
  specialize (H1 eq_refl). specialize (H2 eq_refl).
  unfold listen_in_priority, poll_signal, poll_stop, poll_supervisor, poll_message, mbind, RM_bind.
  destruct (ports s) as [sg st sv ms dr] eqn:E; cbn in *. destruct sg as [|[]| |]; cbn; [| | |done].
  - destruct dr; [by destruct (H3 eq_refl)|]. destruct st as [|m| |]; cbn; [| |by destruct H4|done].
    + destruct sv as [|e sv]; cbn; [|eapply at_silent; [exact Hs|done|done|done|]; rewrite E; by apply st_supervision].
      destruct ms as [|[|m] ms]; cbn; [split; [cbn; rewrite <-E; apply Hs|apply Hs]|..];
        (eapply at_silent; [exact Hs|done|done|done|]; rewrite E; by constructor).
    + eapply at_silent; [exact Hs|done|done|done|]. rewrite E. by apply st_stop.
  - eapply at_silent; [exact Hs|done|done|done|]. rewrite E. by apply st_signal.
  - eapply at_silent; [exact Hs|done|done|done|]. rewrite E. by apply st_closed.
Qed.

(** Where a handler leaves the actor *)
Definition handler_result (o : Outcome) (φ : @Phase Msg Sup) : Prop :=
  match o with
  | UOk => φ = PhRunning
  | UErr e | UPanic e => φ = PhFailing e
  | UNever => False
  end.

(** Where a round of the loop leaves the actor *)
Definition round_result (r : option (string + ActorLoopResult)) : Task → Prop :=
  match r with
  | None => at_phase PhRunning
  | Some (inl e) => at_phase (PhFailing e)
  | Some (inr r) =>
      if should_exit r then
        if was_killed r then λ s, exit_reason r = Some "killed"%string ∧ at_phase PhKilled s
        else at_phase (PhExit (exit_reason r))
      else at_phase PhRunning
  end.

Lemma handle_signal_spec sg φ φ' N : moves φ (LOp (OTerminate myself)) φ' →
  triple (at_phase φ) (handle_signal myself sg) (λ r s, r = Some "killed"%string ∧ at_phase φ' s) never N.
Proof.
  intros Hm. unfold handle_signal. destruct sg. eapply triple_bind; [apply own_moves; [done|apply task_op_terminate]|intros []]. by apply triple_ret.
Qed.

Lemma handled_spec r :
  triple (λ s, match r with inl _ => at_phase PhKilling s | inr o => ∃ φ', handler_result o φ' ∧ at_phase φ' s end)
    (handled myself r) (λ r, round_result (Some r)) (λ e, at_phase (PhFailing e)) some_phase.
Proof.
  destruct r as [sg|o].
  - cbn. eapply triple_bind with (R := λ r s, r = Some "killed"%string ∧ at_phase PhKilled s).
    + apply triple_never, handle_signal_spec. intros p. apply st_terminate.
    + intros r. apply triple_pure. intros ->. by apply triple_ret.
  - apply triple_exists. intros φ'. apply triple_pure. destruct o; cbn; intros; subst;
      [by apply triple_ret|by apply triple_ret|by apply triple_unwind|done].
Qed.

Variable handle : BoxedMessage Msg → RM Task (@Future Msg Sup).
Hypothesis handle_spec : ∀ m s, ∃ f w, handle m s = (Val f, with_decoder w s) ∧ handling m f.
Hypothesis handling_returns : ∀ m, ¬ handling m (Immediate UNever).

Lemma called_returns m o : o ≠ UNever → ∃ φ', moves (PhCalled m) (LReturn o) φ' ∧ handler_result o φ'.
Proof using.
  intros Ho. destruct o; [| | |done]; eexists; (split; [|done]); intros p; [apply st_handled|..]; eapply st_failed; auto.
Qed.

Lemma handle_future m :
  triple (at_phase (PhBusy (PMessage (MuxMessage m)))) (handle m)
    (λ f s, future_ok (PhBusy (PMessage (MuxMessage m))) PhKilling handler_result f ∧
            at_phase (PhBusy (PMessage (MuxMessage m))) s) never some_phase.
Proof using handle_spec handling_returns.
  intros s Hs. destruct (handle_spec m s) as (f & w & -> & Hf). split; [|done]. destruct f as [r|c].
  - destruct r as [|e|e|]; [| | |by apply handling_returns in Hf]; eexists; (split; [|done]); intros p;
      [by apply st_dropped|eapply st_undecodable; eauto..].
  - exists (PhCalled (PMessage (MuxMessage m))). split_and!; [intros p; by apply st_handle_message|done|].
    apply called_returns.
Qed.

Lemma process_message_spec :
  triple (at_phase PhRunning) (process_message_with arrivals others user signal_first myself handle)
    round_result (λ e, at_phase (PhFailing e)) some_phase.
Proof using handle_spec handling_returns.
  unfold process_message_with. eapply triple_bind; [apply triple_never, arrive_keeps|].
  intros []. eapply triple_bind; [apply triple_never, listen_spec|].
  assert (∀ sg, triple (at_phase PhKilling)
    (reason ← handle_signal myself sg; mret (Some (inr (loop_signal reason)))) round_result
    (λ e, at_phase (PhFailing e)) some_phase) as Hkill.
  { intros sg. eapply triple_bind with (R := λ r s, r = Some "killed"%string ∧ at_phase PhKilled s).
    - apply triple_never, handle_signal_spec. intros p. apply st_terminate.
    - intros r. apply triple_pure. intros ->. by apply triple_ret. }
  intros [[err|[sg|sm|e|[|m]]]|]; [apply Hkill|apply Hkill|..]; try by apply triple_ret.
  - eapply triple_bind; [apply triple_never|].
    + apply (run_with_signal_spec (PhBusy (PSupervision e)) PhKilling handler_result); [done|].
      apply triple_ret. intros s Hs. split; [|done]. exists (PhCalled (PSupervision e)).
      split_and!; [intros p; apply st_handle_supervision|done|apply called_returns].
    + intros r. eapply triple_bind; [apply handled_spec|]. intros r'. by apply triple_ret.
  - eapply triple_bind; [apply triple_never|].
    + apply (run_with_signal_spec (PhBusy (PMessage (MuxMessage m))) PhKilling handler_result); [done|].
      apply handle_future.
    + intros r. eapply triple_bind; [apply handled_spec|]. intros r'. by apply triple_ret.
Qed.

Lemma message_loop_spec process fuel :
  triple (at_phase PhRunning) process round_result (λ e, at_phase (PhFailing e)) some_phase →
  triple (at_phase PhRunning) (message_loop process fuel)
    (λ r s, match r with
            | inl Cancelled => False
            | inl (Failed e) => at_phase (PhFailing e) s
            | inr (reason, killed) =>
                if killed : bool then reason = Some "killed"%string ∧ at_phase PhKilled s else at_phase (PhExit reason) s
            end) (λ e, at_phase (PhFailing e)) some_phase.
Proof using.
  intros Hp. induction fuel as [|fuel IH]; cbn [message_loop].
  { apply triple_pending. apply at_some. }
  eapply triple_bind; [exact Hp|]. intros [[e|r]|]; [by apply triple_ret| |exact IH]. cbn [round_result].
  destruct (should_exit r); [|exact IH]. apply triple_ret. by destruct (was_killed r).
Qed.

(** A callback outside of the loop: [φ] before it, [done] after it, [φk] when a signal interrupts it *)
Lemma do_call_spec c φ φc φk φok :
  signalled_phase φ = Some φk → moves φ (LCall c) φc → signalled_phase φc = Some φk →
  moves φc (LReturn UOk) φok →
  (∀ r e, r = UErr e ∨ r = UPanic e → moves φc (LReturn r) (PhDone (ActorFailed myself e) false)) →
  triple (at_phase φ) (do_call arrivals others user signal_first c)
    (λ r, match r with
          | inl _ => at_phase φk
          | inr (inr _) => at_phase φok
          | inr (inl (Failed e)) => at_phase (PhDone (ActorFailed myself e) false)
          | inr (inl Cancelled) => λ _, False
          end) never some_phase.
Proof using.
  intros Hk Hc Hkc Hok Hfail. unfold do_call.
  set (R o φ' := match o with
    | UOk => φ' = φok | UErr e | UPanic e => φ' = PhDone (ActorFailed myself e) false | UNever => False end).
  eapply triple_bind.
  - apply (run_with_signal_spec φ φk R); [done|]. apply triple_ret. intros s Hs. split; [|done]. exists φc.
    split_and!; [done|done|]. intros [|e|e|] Ho; [| | |done]; eexists; split; [exact Hok|done| |done| |done]; apply Hfail; auto.
  - intros [sg|o]; [by apply triple_ret|]. apply triple_exists. intros φ'. apply triple_pure.
    destruct o; cbn; intros; subst; [by apply triple_ret..|done].
Qed.

Lemma drop_ports_was φ N : triple (at_phase φ) drop_ports (λ _, was_phase true φ) never N.
Proof using. apply triple_update. intros s Hs. split; [exists (ports s)|]; apply Hs. Qed.

(** Where the processing loop leaves the actor *)
Definition exit_result (r : ActorErr + option string) : @Phase Msg Sup :=
  match r with
  | inr reason => PhDone (ActorTerminated myself reason) true
  | inl Cancelled => PhDone (ActorTerminated myself (Some "killed"%string)) false
  | inl (Failed e) => PhDone (ActorFailed myself e) false
  end.

Lemma cancelled_spec sg φ : moves φ (LOp (OTerminate myself)) (exit_result (inl Cancelled)) →
  triple (at_phase φ) (handle_signal myself sg ;; mret (inl Cancelled : ActorErr + option string))
    (λ r, at_phase (exit_result r)) never some_phase.
Proof using.
  intros Hm. eapply triple_bind; [by apply handle_signal_spec|]. intros r. apply triple_pure. intros ->. by apply triple_ret.
Qed.

Lemma processing_loop_spec process fuel :
  triple (at_phase PhRunning) process round_result (λ e, at_phase (PhFailing e)) some_phase →
  triple (at_phase PhStarted) (processing_loop_with arrivals others user signal_first myself process fuel)
    (λ r, was_phase true (exit_result r)) never some_phase.
Proof using.
  intros Hp. unfold processing_loop_with. eapply triple_bind.
  { apply (do_call_spec CPostStart PhStarted PhPost PhCancelling PhReady); [done|intros p; constructor|done|intros p; constructor|].
    intros r e Hr p. by apply st_post_failed. }
  intros started. eapply triple_bind with (R := λ r, at_phase (exit_result r)).
  2:{ intros r. eapply triple_bind; [apply drop_ports_was|]. intros []. by apply triple_ret. }
  destruct started as [sg|[[|e]|[]]].
  - apply cancelled_spec. intros p. apply st_cancelled.
  - by intros s [].
  - by apply triple_ret.
  - eapply triple_bind; [apply own_moves; [intros p; apply st_running|apply task_op_running]|intros []]. eapply triple_bind.
    { apply triple_catch with (Q := λ r s, match r with
        | inl e | inr (inl (Failed e)) => at_phase (PhFailing e) s
        | inr (inl Cancelled) => False
        | inr (inr (reason, killed)) =>
            if killed : bool then reason = Some "killed"%string ∧ at_phase PhKilled s else at_phase (PhExit reason) s
        end). by apply message_loop_spec. }
    assert (∀ e, triple (at_phase (PhFailing e)) (own (OStopping myself) ;; mret (inl (Failed e) : ActorErr + option string))
      (λ r, at_phase (exit_result r)) never some_phase) as Hfail.
    { intros e. eapply triple_bind; [apply own_moves; [intros p; apply st_failing|apply task_op_stopping]|intros []]. by apply triple_ret. }
    intros [e|[[|e]|[reason []]]]; [apply Hfail|by intros s []|apply Hfail| |].
    + apply triple_pure. intros ->. eapply triple_bind; [apply own_moves; [intros p; apply st_killed|apply task_op_stopping]|intros []].
      by apply triple_ret.
    + eapply triple_bind; [apply own_moves; [intros p; apply st_exit|apply task_op_stopping]|intros []]. eapply triple_bind.
      { apply (do_call_spec CPostStop (PhStopping reason) (PhPostStop reason) PhCancelling
          (PhDone (ActorTerminated myself reason) true)); [done|intros p; constructor|done|intros p; constructor|].
        intros r e Hr p. by apply st_stop_failed. }
      intros [sg|[[|e]|[]]]; [|by intros s []|by apply triple_ret|by apply triple_ret].
      apply cancelled_spec. intros p. apply st_cancelled.
Qed.

(** The report of an exit: the state goes with it when the loop has returned without an error, unless the
    runtime cannot send it. *)
Lemma finish_spec keep_state r :
  triple (was_phase true (exit_result r))
    (state ← asks ustate; let evt := exit_event myself keep_state r state in own (OFinish myself evt.1) ;; mret evt)
    (λ evt s, ∃ state, was_phase false (PhEnded evt.1 state) s ∧ evt.2 = if state && keep_state then ustate s else None)
    never some_phase.
Proof using.
  set (state := match r with inr _ => true | inl _ => false end).
  intros s [[p Ht] Hc]. unfold mbind, RM_bind, asks, own, update_with. exists state. split.
  - split; [exists p|].
    + eapply steps_snoc; [exact Ht|]. destruct r as [[]|]; apply st_finish.
    + eapply sound_op; [done| |done]. intros n _ Hi Hg _. by apply task_op_finish.
  - by destruct r as [[]|], keep_state.
Qed.

(** ** Starting *)

(** An operation whose effect on the guard depends on the node *)
Lemma own_when (ok : Sys → Prop) armed φ o φ' N : moves φ (LOp o) φ' →
  (∀ n, ok n → sys_inv false n → is_Some (guards n !! myself) →
    op_valid n o ∧ (is_Some (guards (sys_step n o) !! myself) ↔ armed = true)) →
  triple (λ s, at_phase φ s ∧ ok (node s)) (own o)
    (λ _ s, was_phase armed φ' s ∧ (armed = true → at_phase φ' s)) never N.
Proof using.
  intros Hm Ho. apply triple_update. intros s [[Ht Hc] Hok].
  assert (sound armed (log s ++ [LOp o]) (sys_step (node s) o)) as Hc'.
  { eapply sound_op; [done| |done]. intros n Hn Hi Hg _. apply Ho; [|done..]. rewrite <-Hn, <-(so_node _ _ _ Hc). done. }
  split; [split; [exists (ports s); by eapply steps_snoc|done]|]. intros ->. split; [by eapply steps_snoc|done].
Qed.

Lemma task_op_begin b n : (start_begin myself n).1 = b → sys_inv false n → is_Some (guards n !! myself) →
  op_valid n (OStartBegin myself) ∧ (is_Some (guards (sys_step n (OStartBegin myself)) !! myself) ↔ b = true).
Proof using.
  intros <- Hi Hg. split; [done|]. cbn [sys_step]. unfold start_begin. case_bool_decide; cbn [fst snd].
  - by rewrite guards_set_status.
  - rewrite (guards_guard_drop false), lookup_delete_eq by done. split; [by intros [? ?]|done].
Qed.

Lemma task_op_end b r n : (start_end myself sup_after r n).1 = b → sys_inv false n → is_Some (guards n !! myself) →
  op_valid n (OStartEnd myself sup_after r) ∧
  (is_Some (guards (sys_step n (OStartEnd myself sup_after r)) !! myself) ↔ b = true).
Proof using.
  intros <- Hi Hg. split; [done|]. cbn [sys_step].
  assert (∀ n, sys_inv false n → is_Some (guards (guard_drop myself n) !! myself) ↔ false = true) as Hdrop.
  { intros n' Hi'. rewrite (guards_guard_drop false), lookup_delete_eq by done. split; [by intros [? ?]|done]. }
  destruct r; cbn [start_end fst snd]; [|by apply Hdrop|by apply Hdrop, inv_terminate].
  destruct sup_after as [q|]; [|cbn; by rewrite lookup_insert_eq].
  pose proof (inv_link false myself q n Hi) as Hl. destruct (link myself q n) as [[] n1]; cbn [fst snd] in *.
  - cbn. by rewrite lookup_insert_eq.
  - by apply Hdrop.
Qed.

Lemma drop_ports_keeps armed φ N : triple (was_phase armed φ) drop_ports (λ _, was_phase armed φ) never N.
Proof using. by apply triple_update. Qed.

(** [pre_start] *)
Lemma pre_start_spec :
  triple (at_phase PhStarting) (run_with_signal arrivals others user signal_first (mret (UserCall CPreStart)))
    (λ r s, match r with inl _ => at_phase PhAborting s | inr o => o ≠ UNever ∧ at_phase (PhPreDone o) s end) never some_phase.
Proof using.
  eapply triple_weaken.
  - apply (run_with_signal_spec PhStarting PhAborting (λ o φ', o ≠ UNever ∧ φ' = PhPreDone o)); [done|].
    apply triple_ret. intros s Hs. split; [|done]. exists PhPre. split_and!; [intros p; apply st_pre|done|].
    intros o Ho. exists (PhPreDone o). split_and!; [intros p; apply st_pre_done|done|done].
  - done.
  - intros [sg|o] s; [done|]. by intros (φ' & [Ho ->] & Hs).
  - done.
  - done.
Qed.

(** The failure of [start]: the guard has run, and no callback after [pre_start] has *)
Definition start_failed s : Prop := was_phase false PhStarting s ∨ was_phase false PhUnlaunched s ∨ was_phase false PhStarted s.

Lemma fail_spec {A} (e : SpawnErr) φ N : (∀ s, was_phase false φ s → start_failed s) →
  triple (was_phase false φ) (drop_ports ;; mret (inl e : SpawnErr + A))
    (λ r s, match r with inl _ => start_failed s | inr _ => at_phase PhStarted s end) never N.
Proof using.
  intros Hf. eapply triple_bind; [apply drop_ports_keeps|]. intros []. by apply triple_ret.
Qed.

Lemma end_spec {A} φ r (e : SpawnErr) N : moves φ (LOp (OStartEnd myself sup_after r)) PhUnlaunched → r ≠ PreOk →
  triple (at_phase φ) (own (OStartEnd myself sup_after r) ;; drop_ports ;; mret (inl e : SpawnErr + A))
    (λ r s, match r with inl _ => start_failed s | inr _ => at_phase PhStarted s end) never N.
Proof using.
  intros Hm Hr. eapply triple_bind with (R := λ _, was_phase false PhUnlaunched).
  - eapply triple_weaken; [apply (own_when (λ _, True) false φ _ PhUnlaunched N)|..]; [done| |done| |done|done].
    + intros n _ Hi Hg. apply task_op_end; [by destruct r|done|done].
    + by intros [] s [? _].
  - intros []. apply fail_spec. intros s ?. right. by left.
Qed.

(** An actor that has been started before is refused. *)
Lemma begin_spec {A} (start : RM Task (SpawnErr + A)) :
  triple (at_phase PhStarting) start
    (λ r s, match r with inl _ => start_failed s | inr _ => at_phase PhStarted s end) never some_phase →
  triple (at_phase PhFresh)
    (fresh ← asks (λ s, (start_begin myself (node s)).1);
     own (OStartBegin myself) ;;
     if negb fresh then drop_ports ;; mret (inl ActorAlreadyStarted) else start)
    (λ r s, match r with inl _ => start_failed s | inr _ => at_phase PhStarted s end) never some_phase.
Proof using.
  intros Hs.
  eapply triple_bind with (R := λ b s, at_phase PhFresh s ∧ (start_begin myself (node s)).1 = b); [by apply triple_asks|].
  intros b. eapply triple_bind.
  { apply (own_when (λ n, (start_begin myself n).1 = b) b PhFresh _ PhStarting); [intros p; apply st_begin|]. apply task_op_begin. }
  intros []. destruct b; cbn [negb].
  - eapply triple_weaken; [exact Hs|intros s [_ Hs']; by apply Hs'|done..].
  - eapply triple_weaken; [apply (fail_spec ActorAlreadyStarted PhStarting some_phase)|..]; [by left|by intros s [? _]|done..].
Qed.

Lemma start_spec :
  triple (at_phase PhFresh) (start arrivals others user signal_first myself sup_after)
    (λ r s, match r with inl _ => start_failed s | inr _ => at_phase PhStarted s end) never some_phase.
Proof using.
  apply begin_spec. eapply triple_bind; [apply pre_start_spec|]. intros [sg|o].
  - apply end_spec; [intros p; apply st_pre_killed|done].
  - apply triple_pure. intros Ho. destruct o as [|e|e|]; [| | |done].
    2,3: (apply end_spec; [intros p; by apply st_pre_failed|done]).
    eapply triple_bind with (R := λ b s, at_phase (PhPreDone UOk) s ∧ (start_end myself sup_after PreOk (node s)).1 = b);
      [by apply triple_asks|].
    intros b. eapply triple_bind.
    { apply (own_when (λ n, (start_end myself sup_after PreOk n).1 = b) b (PhPreDone UOk) _ PhStarted);
        [intros p; apply st_pre_ok|]. intros n. apply task_op_end. }
    intros []. destruct b.
    + apply triple_ret. intros s [_ Hs]. by apply Hs.
    + eapply triple_weaken; [apply (fail_spec _ PhStarted some_phase)|..]; [|by intros s [? _]|done|done|done].
      intros s ?. right. by right.
Qed.

(** A task from the creation of its actor to its end *)
Lemma task_spec {A} keep_state process fuel (starting : RM Task (SpawnErr + A)) :
  triple (at_phase PhRunning) process round_result (λ e, at_phase (PhFailing e)) some_phase →
  triple (at_phase PhFresh) starting
    (λ r s, match r with inl _ => start_failed s | inr _ => at_phase PhStarted s end) never some_phase →
  triple (at_phase PhFresh)
    (r ← starting;
     match r with
     | inl e => mret (inl e)
     | inr _ =>
         evt ← (r ← processing_loop_with arrivals others user signal_first myself process fuel;
                state ← asks ustate;
                let evt := exit_event myself keep_state r state in
                own (OFinish myself evt.1) ;; mret evt);
         mret (inr evt)
     end)
    (λ r s, match r with
            | inl _ => start_failed s
            | inr evt => ∃ state, was_phase false (PhEnded evt.1 state) s ∧
                evt.2 = if state && keep_state then ustate s else None
            end) never some_phase.
Proof using.
  intros Hp Hs. eapply triple_bind; [exact Hs|]. intros [e|a]; [by apply triple_ret|].
  eapply triple_bind; [eapply triple_bind; [by apply processing_loop_spec|apply finish_spec]|]. intros evt. by apply triple_ret.
Qed.

(** ** The task ends *)

(** Callbacks return. *)
Hypothesis user_returns : ∀ n c u, (user n c u).1 ≠ UNever.

Definition unwinds : string → Task → Prop := λ _ _, True.
Definition nowhere : Task → Prop := λ _, False.

(** Listening finds something that ends the loop. *)
Definition leaves (r : option (MessagingErr + @ActorPortMessage Msg Sup)) : bool :=
  match r with Some (inl _) | Some (inr (PSignal _)) | Some (inr (PStop _)) | Some (inr (PMessage Drain)) => true | _ => false end.

(** [D n k p] tells of the ports [p] at the await [k] that [n] rounds of the loop have passed; what happens at
    an await or to the signal port keeps it. *)
Record kept (D : nat → nat → @ActorPortSet Msg Sup → Prop) : Prop := {
  cd_arrive n k p : D n k p → D n (S k) (foldl deliver p (arrivals k));
  cd_signal n k p : signal_rx p ≠ OEmpty → D n k p → D n k (set_signal_rx OTaken p);
  cd_drop n k p : D n k p → D n k (ports_drop p)
}.

(** A bound on the rounds of the loop: listening ends the loop or counts one more round, of [bound] at most. *)
Record countdown (bound : nat) (D : nat → nat → @ActorPortSet Msg Sup → Prop) : Prop := {
  cd_kept : kept D;
  cd_listen n s : D n (now s) (ports s) →
    match listen_in_priority (elapse arrivals others s) with
    | (Val r, s') => leaves r = true ∨ n < bound ∧ D (S n) (now s') (ports s')
    | (Unwind _, _) => True
    | (Pending, _) => False
    end
}.

Definition due_at (D : nat → nat → @ActorPortSet Msg Sup → Prop) (n : nat) s : Prop := D n (now s) (ports s).

Section kept.
Context {D : nat → nat → @ActorPortSet Msg Sup → Prop} (HD : kept D).
#[local] Abbreviation due := (due_at D).

Lemma arrive_due n : triple (due n) (arrive arrivals others) (λ _, due n) unwinds nowhere.
Proof using HD. apply triple_update. intros s Hs. by apply (cd_arrive _ HD). Qed.

Lemma select_signal_due n looks : triple (due n) (select_signal looks) (λ _, due n) unwinds nowhere.
Proof using HD.
  destruct looks; [|by apply triple_ret]. intros s Hs. unfold select_signal, poll_signal, mbind, RM_bind.
  pose proof (cd_signal _ HD n (now s) (ports s)) as Hsig. unfold due_at in *.
  destruct (ports s) as [sg st sv ms dr]. destruct sg as [|sg| |]; cbn; try done; by apply Hsig.
Qed.

Lemma note_due n i : triple (due n) (note i) (λ _, due n) unwinds nowhere.
Proof using. by apply triple_update. Qed.

Lemma choose_due n : triple (due n) (choose signal_first) (λ _, due n) unwinds nowhere.
Proof using. by apply triple_asks. Qed.

Lemma run_with_signal_due n future :
  (∀ k, triple (due k) future (λ f s, f ≠ Immediate UNever ∧ due k s) unwinds nowhere) →
  triple (due n) (run_with_signal arrivals others user signal_first future)
    (λ r s, r ≠ inr UNever ∧ due n s) unwinds nowhere.
Proof using user_returns HD.
  intros Hf. unfold run_with_signal. eapply triple_bind; [apply arrive_due|intros []].
  eapply triple_bind; [apply choose_due|intros b].
  eapply triple_bind; [apply select_signal_due|]. intros [sg|]; [by apply triple_ret|].
  eapply triple_bind; [apply Hf|]. intros f. apply triple_pure. intros Hne. destruct f as [r|c].
  - eapply triple_bind; [apply note_due|intros []]. apply triple_ret. intros s Hs. split; [congruence|done].
  - eapply triple_bind with (R := λ o s, o ≠ UNever ∧ due n s).
    { intros s Hs. unfold run_user. pose proof (user_returns (now s) c (ustate s)) as Hu.
      by destruct (user (now s) c (ustate s)) as [o u]. }
    intros o. apply triple_pure. intros Ho. eapply triple_bind; [apply arrive_due|intros []].
    eapply triple_bind; [apply choose_due|intros b'].
    eapply triple_bind; [apply select_signal_due|].
    intros [sg|]; [by apply triple_ret|].
    assert (triple (due n) (note (LReturn o) ;; mret (inr o : Signal + Outcome)) (λ r s, r ≠ inr UNever ∧ due n s) unwinds nowhere).
    { eapply triple_bind; [apply note_due|intros []]. apply triple_ret. intros s Hs. split; [congruence|done]. }
    by destruct o.
Qed.

Lemma do_call_returns n c : triple (due n) (do_call arrivals others user signal_first c) (λ _, due n) unwinds nowhere.
Proof using user_returns HD.
  unfold do_call. eapply triple_bind; [apply run_with_signal_due; intros k; by apply triple_ret|].
  intros [sg|o]; [apply triple_ret; naive_solver|]. apply triple_pure. intros Ho. destruct o; [apply triple_ret; auto..|done].
Qed.

Lemma own_due n o : triple (due n) (own o) (λ _, due n) unwinds nowhere.
Proof using. by apply triple_update. Qed.
Lemma handle_signal_due n sg : triple (due n) (handle_signal myself sg) (λ _, due n) unwinds nowhere.
Proof using. destruct sg. eapply triple_bind; [apply own_due|intros []]. by apply triple_ret. Qed.

Lemma handled_due n r : triple (λ s, r ≠ inr UNever ∧ due n s) (handled myself r) (λ _, due n) unwinds nowhere.
Proof using.
  apply triple_pure. intros Hr. destruct r as [sg|[|e|e|]]; cbn; [|by apply triple_ret|by apply triple_ret|by apply triple_unwind|done].
  eapply triple_bind; [apply handle_signal_due|]. intros r. by apply triple_ret.
Qed.

Lemma drop_ports_due n : triple (due n) drop_ports (λ _, due n) unwinds nowhere.
Proof using HD. apply triple_update. intros s Hs. by apply (cd_drop _ HD). Qed.

Lemma start_returns sup : triple (due 0) (start arrivals others user signal_first myself sup) (λ _, due 0) unwinds nowhere.
Proof using user_returns HD.
  unfold start. eapply triple_bind; [by apply (triple_asks _ (due 0) (λ _, due 0))|]. intros b.
  assert (∀ e : SpawnErr, triple (due 0) (drop_ports ;; mret (inl e : SpawnErr + unit)) (λ _, due 0) unwinds nowhere) as Hd.
  { intros e. eapply triple_bind; [apply drop_ports_due|intros []]. by apply triple_ret. }
  eapply triple_bind; [apply own_due|intros []]. destruct b; cbn [negb]; [|apply Hd].
  eapply triple_bind; [apply (run_with_signal_due 0); intros k; by apply triple_ret|]. intros r. apply triple_pure. intros Hr.
  destruct r as [sg|[|e|e|]]; [..|done].
  1,3,4: (eapply triple_bind; [apply own_due|intros []; apply Hd]).
  eapply triple_bind; [by apply (triple_asks _ (due 0) (λ _, due 0))|]. intros b.
  eapply triple_bind; [apply own_due|intros []]. destruct b; [by apply triple_ret|apply Hd].
Qed.
End kept.

Lemma kept_any : kept (λ _ _ _, True).
Proof using. by split. Qed.

Section countdown.
Context {bound : nat} {D : nat → nat → @ActorPortSet Msg Sup → Prop} (HD : countdown bound D).
#[local] Abbreviation due := (due_at D).

Definition exits (r : option (string + ActorLoopResult)) : bool :=
  match r with Some (inl _) => true | Some (inr r) => should_exit r | None => false end.

Lemma process_message_due n :
  triple (due n) (process_message_with arrivals others user signal_first myself handle)
    (λ r s, exits r = true ∨ n < bound ∧ due (S n) s) unwinds nowhere.
Proof using handle_spec handling_returns user_returns HD.
  unfold process_message_with. eapply triple_bind with (R := λ _ s', ∃ s, due n s ∧ s' = elapse arrivals others s).
  { apply triple_update. intros s Hs. by exists s. }
  intros []. eapply triple_bind with (R := λ r s, leaves r = true ∨ n < bound ∧ due (S n) s).
  { intros s' (s & Hs & ->). pose proof (cd_listen _ _ HD n s Hs) as H. by destruct (listen_in_priority (elapse arrivals others s)) as [[r|e|] s']. }
  assert (∀ future, (∀ k, triple (due k) future (λ f s, f ≠ Immediate UNever ∧ due k s) unwinds nowhere) →
    triple (λ s, false = true ∨ n < bound ∧ due (S n) s)
      (r ← run_with_signal arrivals others user signal_first future; r ← handled myself r; mret (Some r))
      (λ r s, exits r = true ∨ n < bound ∧ due (S n) s) unwinds nowhere) as Hhandle.
  { intros future Hf s [[=]|[Hb Hs]]. revert s Hs. change (triple (due (S n)) (r ← run_with_signal arrivals others user signal_first future; r ← handled myself r; mret (Some r))
      (λ r s, exits r = true ∨ n < bound ∧ due (S n) s) unwinds nowhere).
    eapply triple_bind; [apply (run_with_signal_due (cd_kept _ _ HD)), Hf|]. intros r'.
    eapply triple_bind; [apply handled_due|]. intros r''. apply triple_ret. by right. }
  assert (∀ sg, triple (λ s, true = true ∨ n < bound ∧ due (S n) s) (reason ← handle_signal myself sg; mret (Some (inr (loop_signal reason))))
    (λ r s, exits r = true ∨ n < bound ∧ due (S n) s) unwinds nowhere) as Hkill by (intros []; left; done).
  intros [[err|[sg|sm|e|[|m]]]|]; cbn [leaves]; [apply Hkill|apply Hkill|apply triple_ret; by left|..].
  - apply Hhandle. intros k. by apply triple_ret.
  - apply triple_ret. by left.
  - apply Hhandle. intros k s Hs. destruct (handle_spec m s) as (f & w & -> & Hf).
    split; [|done]. intros ->. by apply handling_returns in Hf.
  - by apply triple_ret.
Qed.

Lemma message_loop_due fuel n : n ≤ bound → bound < n + fuel →
  triple (due n) (message_loop (process_message_with arrivals others user signal_first myself handle) fuel) (λ _ _, True) unwinds nowhere.
Proof using handle_spec handling_returns user_returns HD.
  revert n. induction fuel as [|fuel IH]; intros n H0 Hn; [lia|]. cbn [message_loop].
  eapply triple_bind; [apply process_message_due|]. intros r.
  assert (triple (λ s, false = true ∨ n < bound ∧ due (S n) s) (message_loop
    (process_message_with arrivals others user signal_first myself handle) fuel) (λ _ _, True) unwinds nowhere) as Hrest.
  { intros s [[=]|[Hb Hs]]. apply (IH (S n)); [lia|lia|done]. }
  destruct r as [[e|r]|]; cbn [exits] in *; [by apply triple_ret| |exact Hrest].
  destruct (should_exit r); [by apply triple_ret|exact Hrest].
Qed.

Lemma anyhow f : triple (λ _ : Task, True) (update_with f) (λ _ _, True) unwinds nowhere.
Proof using. by apply triple_update. Qed.

Lemma loop_returns fuel : bound < fuel →
  triple (due 0) (processing_loop_with arrivals others user signal_first myself
    (process_message_with arrivals others user signal_first myself handle) fuel) (λ _ _, True) unwinds nowhere.
Proof using handle_spec handling_returns user_returns HD.
  intros Hf. unfold processing_loop_with. eapply triple_bind; [apply (do_call_returns (cd_kept _ _ HD))|]. intros started.
  assert (∀ P sg, triple P (handle_signal myself sg ;; mret (inl Cancelled : ActorErr + option string)) (λ _ _, True) unwinds nowhere) as Hc by (by intros P [] s).
  eapply triple_bind with (R := λ _ _, True).
  2:{ intros r. eapply triple_bind; [apply anyhow|]. intros []. by apply triple_ret. }
  destruct started as [sg|[e|[]]]; [apply Hc|by apply triple_ret|].
  eapply triple_bind; [apply own_due|intros []]. eapply triple_bind.
  { apply triple_catch with (Q := λ _ _, True). eapply triple_weaken; [apply (message_loop_due fuel 0); lia|done..]. }
  intros r. eapply triple_bind; [apply anyhow|]. intros []. destruct r as [e|[e|[reason []]]]; try by apply triple_ret.
  eapply triple_bind with (R := λ _ _, True).
  { eapply triple_weaken; [apply (do_call_returns kept_any 0)|done..]. }
  intros [sg|[e|[]]]; [apply Hc|by apply triple_ret..].
Qed.

Lemma task_returns {A} keep_state fuel (starting : RM Task (SpawnErr + A)) : bound < fuel →
  triple (due 0) starting (λ _, due 0) unwinds nowhere →
  triple (due 0)
    (r ← starting;
     match r with
     | inl e => mret (inl e)
     | inr _ =>
         evt ← (r ← processing_loop_with arrivals others user signal_first myself
                  (process_message_with arrivals others user signal_first myself handle) fuel;
                state ← asks ustate;
                let evt := exit_event myself keep_state r state in
                own (OFinish myself evt.1) ;; mret evt);
         mret (inr evt)
     end) (λ _ _, True) unwinds nowhere.
Proof using handle_spec handling_returns user_returns HD.
  intros Hf Hs. eapply triple_bind; [exact Hs|]. intros [e|a]; [by apply triple_ret|].
  eapply triple_bind; [eapply triple_bind; [by apply loop_returns|]|]; [|intros evt; by apply (triple_ret _ (λ _, True))].
  intros r. by intros s _.
Qed.

End countdown.

(** *** By the await [t] a signal, a stop or the loss of the senders arrives: [t + 1] rounds are enough, as each
    of them takes an await at least. *)
Lemma closing_deliveries (p : @ActorPortSet Msg Sup) xs : closing p ∨ existsb ends xs = true → closing (foldl deliver p xs).
Proof using.
  revert p. induction xs as [|x xs IH]; intros p [Hp|Hx]; [done|done|..]; cbn; apply IH.
  - left. by apply closing_deliver.
  - cbn in Hx. apply orb_true_iff in Hx as [Hx|Hx]; [left; by apply ends_closing|by right].
Qed.

(** Listening in ports that are closing: the loop ends, or polls a port that has completed. *)
Lemma listen_closing s : closing (ports s) →
  match listen_in_priority s with
  | (Val r, s') => leaves r = true ∧ now s' = now s ∧ closing (ports s')
  | (Unwind _, _) => True
  | (Pending, _) => False
  end.
Proof using.
  unfold listen_in_priority, poll_signal, poll_stop, poll_supervisor, poll_message, mbind, RM_bind, closing.
  destruct (ports s) as [sg st sv ms dr] eqn:E; cbn. destruct sg as [|[]| |]; cbn; auto.
  destruct st as [|m| |]; cbn; auto. by intros [].
Qed.

(** Listening in ports that are not: what is taken leaves the rest. *)
Lemma listen_open s : ¬ closing (ports s) → dropped (ports s) = false →
  ∃ r s', listen_in_priority s = (Val r, s') ∧ now s' = now s ∧
    (supervisor_rx (ports s) = [] ∧ message_rx (ports s) = [] ∧ ports s' = ports s ∨
     (∃ e q, supervisor_rx (ports s) = e :: q ∧ ports s' = set_supervisor_rx q (ports s)) ∨
     (∃ m q, supervisor_rx (ports s) = [] ∧ message_rx (ports s) = m :: q ∧ ports s' = set_message_rx q (ports s) ∧ (m = Drain → leaves r = true))).
Proof using.
  intros Hc Hd. unfold listen_in_priority, poll_signal, poll_stop, poll_supervisor, poll_message, mbind, RM_bind, closing in *.
  destruct (ports s) as [sg st sv ms dr] eqn:E; cbn in *. subst dr.
  destruct sg as [|[]| |]; [|exfalso; by apply Hc; left..]. destruct st as [|m| |]; [|exfalso; by apply Hc; right..]. cbn.
  destruct sv as [|e sv]; cbn; [|by do 2 eexists; split_and!; [done..|right; left; do 2 eexists]].
  destruct ms as [|m ms]; cbn; [by do 2 eexists; split_and!; [done..|left]|].
  do 2 eexists. split_and!; [done..|right; right]. exists m, ms. split_and!; [done..|]. by intros ->.
Qed.

Lemma listen_now s :
  match listen_in_priority s with
  | (Val r, s') => now s' = now s
  | (Unwind _, _) => True
  | (Pending, _) => False
  end.
Proof using.
  unfold listen_in_priority, poll_signal, poll_stop, poll_supervisor, poll_message, mbind, RM_bind.
  destruct (ports s) as [[|[]| |] [|m| |] [|e sv] [|m' ms] []]; by cbn.
Qed.

Definition ending (t n k : nat) (p : @ActorPortSet Msg Sup) : Prop := n ≤ k ∧ (t < k → closing p).

Lemma kept_ending t : existsb ends (arrivals t) = true → kept (ending t).
Proof using.
  intros Ht. split; unfold ending.
  - intros n k p [Hn Hc]. split; [lia|]. intros Hk. apply closing_deliveries.
    destruct (decide (t = k)) as [<-|]; [by right|left]. apply Hc. lia.
  - intros n k p _ [Hn _]. split; [done|]. intros _. by left.
  - intros n k p [Hn _]. split; [done|]. intros _. by left.
Qed.

Lemma countdown_ending t : existsb ends (arrivals t) = true → countdown t (ending t).
Proof using.
  intros Ht. split; [by apply kept_ending|]. intros n s Hs. pose proof (cd_arrive _ (kept_ending t Ht) _ _ _ Hs) as [_ Hc].
  change (foldl deliver _ _) with (ports (elapse arrivals others s)) in Hc. destruct Hs as [Hn _]. destruct (decide (t ≤ now s)) as [Hk|Hk].
  - pose proof (listen_closing _ (Hc ltac:(lia))) as H. destruct (listen_in_priority _) as [[r|e|] s']; [|done|done]. left. apply H.
  - pose proof (listen_now (elapse arrivals others s)) as H. destruct (listen_in_priority _) as [[r|e|] s']; [|done|done].
    cbn in H. right. split; [lia|]. split; [lia|intros; lia].
Qed.

(** *** By the await [t] a drain arrives, and from the await [T] on no supervision events do: as many rounds are
    enough as there are awaits and arrivals until then.  (Supervision events go before the drain, so that an
    actor whose children never cease to fail is never drained.) *)
Fixpoint before_drain (q : list (@Muxed Msg)) : nat := match q with [] | Drain :: _ => 0 | MuxMessage _ :: q => S (before_drain q) end.
Definition ahead (p : @ActorPortSet Msg Sup) : nat := length (supervisor_rx p) + before_drain (message_rx p).
Definition load (T k : nat) : nat := sum_list_with (λ i, S (length (arrivals i))) (seq k (T - k)).

Lemma before_drain_app q q' : before_drain (q ++ q') ≤ before_drain q + before_drain q' ∧ (Drain ∈ q → before_drain (q ++ q') = before_drain q).
Proof using.
  induction q as [|[|m] q [IH1 IH2]]; cbn; [split; [lia|by intros ?%elem_of_nil]|split; [lia|done]|].
  split; [lia|]. intros [[=]|Hq]%elem_of_cons. by rewrite IH2.
Qed.

Lemma load_step T k : k < T → load T k = S (length (arrivals k)) + load T (S k).
Proof using. intros Hk. unfold load. replace (T - k) with (S (T - S k)) by lia. done. Qed.
Lemma load_over T k : T ≤ k → load T k = 0.
Proof using. intros Hk. unfold load. by replace (T - k) with 0 by lia. Qed.

Lemma deliver_ahead (p : @ActorPortSet Msg Sup) x : dropped p = false → closing (deliver p x) ∨
  dropped (deliver p x) = false ∧ ahead (deliver p x) ≤ S (ahead p) ∧ (Drain ∈ message_rx p → Drain ∈ message_rx (deliver p x)) ∧
  (x = AMessage Drain → Drain ∈ message_rx (deliver p x)) ∧ (Drain ∈ message_rx p → (∀ e, x ≠ ASupervision e) → ahead (deliver p x) ≤ ahead p).
Proof using.
  intros Hd. destruct (ends x) eqn:Ex; [left; by apply ends_closing|right]. unfold ahead. destruct x as [|r|e|m|]; try done; cbn; rewrite Hd; cbn.
  - rewrite length_app. cbn. split_and!; [done|lia|done|done|]. intros _ Hne. by destruct (Hne e).
  - destruct (before_drain_app (message_rx p) [m]) as [H1 H2]. assert (before_drain [m] ≤ 1) by (destruct m; cbn; lia).
    split_and!; [done|lia|rewrite elem_of_app; auto| |intros Hin _; rewrite H2; [lia|done]].
    intros [= ->]. apply elem_of_app. right. by left.
Qed.

Lemma deliveries_ahead (p : @ActorPortSet Msg Sup) xs : let p' := foldl deliver p xs in dropped p = false → closing p' ∨
  dropped p' = false ∧ ahead p' ≤ length xs + ahead p ∧ (Drain ∈ message_rx p ∨ AMessage Drain ∈ xs → Drain ∈ message_rx p') ∧
  (Drain ∈ message_rx p → (∀ e, ASupervision e ∉ xs) → ahead p' ≤ ahead p).
Proof using.
  revert p. induction xs as [|x xs IH]; intros p; cbn [foldl]; intros Hd.
  { right. split_and!; [done|cbn; lia| |done]. by intros [?|?%elem_of_nil]. }
  destruct (deliver_ahead p x Hd) as [Hc|(H1 & H2 & H3 & H4 & H5)]; [left; apply closing_deliveries; by left|].
  destruct (IH _ H1) as [Hc|(I1 & I2 & I3 & I4)]; [by left|right]. split_and!; [done|cbn; lia|..].
  - rewrite elem_of_cons. naive_solver.
  - intros Hin Hs. etrans; [apply I4; [auto|]|apply H5; [done|]]; intros e; [intros He; by apply (Hs e); right|intros ->; by apply (Hs e); left].
Qed.

Lemma closing_or_open (p : @ActorPortSet Msg Sup) : closing p ∨ ¬ closing p.
Proof using. unfold closing. destruct (signal_rx p), (stop_rx p); naive_solver. Qed.

Definition draining (t T n k : nat) (p : @ActorPortSet Msg Sup) : Prop :=
  closing p ∨ dropped p = false ∧ n + load T k + ahead p ≤ load T 0 ∧ (k ≤ t ∨ Drain ∈ message_rx p).

Section draining.
Context (t T : nat) (drain_arrives : AMessage Drain ∈ arrivals t) (before : t < T) (quiet : ∀ k e, T ≤ k → ASupervision e ∉ arrivals k).

(** At an await the bound does not grow, and it shrinks before [T]. *)
Lemma draining_arrive n k p : draining t T n k p →
  let p' := foldl deliver p (arrivals k) in
  closing p' ∨ dropped p' = false ∧ (k < T ∧ S n + load T (S k) + ahead p' ≤ load T 0 ∨ T ≤ k ∧ n + load T (S k) + ahead p' ≤ load T 0) ∧
    (S k ≤ t ∨ Drain ∈ message_rx p').
Proof using drain_arrives before quiet.
  intros [Hc|(Hd & Hn & Hp)]; cbn zeta; [left; apply closing_deliveries; by left|].
  destruct (deliveries_ahead p (arrivals k) Hd) as [Hc|(H1 & H2 & H3 & H4)]; [by left|right]. split; [done|].
  assert (S k ≤ t ∨ Drain ∈ message_rx (foldl deliver p (arrivals k))) as Hp'.
  { destruct Hp as [Hk|Hin]; [|right; auto]. destruct (decide (k = t)) as [->|]; [right; auto|left; lia]. }
  split; [|done]. destruct (decide (k < T)) as [Hk|Hk].
  - left. split; [done|]. rewrite (load_step T k Hk) in Hn. lia.
  - right. assert (Drain ∈ message_rx p) as Hin by (destruct Hp; [lia|done]). split; [lia|].
    rewrite load_over in * by lia. specialize (H4 Hin (λ e, quiet k e ltac:(lia))). lia.
Qed.

Lemma countdown_draining : countdown (load T 0) (draining t T).
Proof using drain_arrives before quiet.
  split; [split|].
  - intros n k p H%draining_arrive. unfold draining. destruct H as [?|(? & [[? ?]|[? ?]] & ?)]; [by left|right; split_and!; [done|lia|done]..].
  - intros n k p _ _. by left; left.
  - intros n k p _. by left; left.
  - intros n s H%draining_arrive. set (s1 := elapse arrivals others s). change (foldl deliver _ _) with (ports s1) in H. change (S (now s)) with (now s1) in H.
    destruct (closing_or_open (ports s1)) as [Hc|Hc].
    { pose proof (listen_closing _ Hc) as H'. destruct (listen_in_priority s1) as [[r|e|] s']; [|done|done]. left. apply H'. }
    destruct H as [?|(Hd & Hn & Hp)]; [done|].
    destruct (listen_open s1 Hc Hd) as (r & s' & -> & Hnow & Htake). rewrite Hnow. unfold draining, ahead in *.
    destruct Htake as [(Hs & Hm & ->)|[(e & q & Hs & ->)|(m & q & Hs & Hm & -> & Hr)]]; cbn [set_supervisor_rx set_message_rx supervisor_rx message_rx dropped] in *.
    + rewrite Hs, Hm in *. destruct Hn as [[Hk Hn]|[Hk _]]; [|destruct Hp as [Hp|?%elem_of_nil]; [change (now s1) with (S (now s)) in Hp; lia|done]].
      right. split; [lia|]. right. split_and!; [done|lia|done].
    + rewrite Hs in Hn. cbn [length] in Hn. right. split; [lia|]. right. split_and!; [done|lia|done].
    + rewrite Hs, Hm in *. destruct m as [|m]; [left; by apply Hr|]. cbn [length before_drain] in Hn. right. split; [lia|]. right.
      split_and!; [done|cbn [length]; lia|]. destruct Hp as [?|[[=]|?]%elem_of_cons]; auto.
Qed.
End draining.
End refinement.
