(* ===== verification/TaskTheorems.v ===== *)
(** The theorems about the tasks of actors: they refine the abstract actor of RuntimeFacts.v, handle what
    is sent to them in order and by priority, end when they are told to, and leave nothing behind. *)

From S2P Require Import Prelude Discard Job ActorTypes Pg Actors Lifecycle Bytes Serialization Runtime RuntimeFacts.

(** ** What handling a message comes to

    A remote actor forwards serialized messages; a local one decodes them.  An actor that is [forgiving]
    drops a serialized message that cannot be decoded, any other failure of the decoder is an error of the
    actor. *)
Section handles.
Context {W Msg Sup : Type} `{!Message W Msg}.

Inductive handles (forgiving : bool) (myself : ActorId) (m : BoxedMessage Msg) : @Future Msg Sup → Prop :=
| hd_remote sm : is_local myself = false → serialized_msg m = Some sm →
    handles forgiving myself m (UserCall (CHandleSerialized sm))
| hd_remote_typed : is_local myself = false → serialized_msg m = None →
    handles forgiving myself m (Immediate (UErr "`RemoteActor` failed to read `SerializedMessage` from `BoxedMessage`"))
| hd_local x w w' : is_local myself = true → from_boxed m w = (Ok x, w') → handles forgiving myself m (UserCall (CHandle x))
| hd_dropped w : is_local myself = true → forgiving = true → is_Some (serialized_msg m) →
    (∀ x, (from_boxed m w).1 ≠ Ok x) → handles forgiving myself m (Immediate UOk)
| hd_error e w w' : is_local myself = true → (forgiving = true → serialized_msg m = None) →
    from_boxed m w = (Err e, w') → handles forgiving myself m (Immediate (UErr e))
| hd_panic w w' : is_local myself = true → (forgiving = true → serialized_msg m = None) →
    from_boxed m w = (Panic, w') → handles forgiving myself m (Immediate (UPanic "panic")).

Lemma handles_returns forgiving myself m : ¬ handles forgiving myself m (Immediate UNever).
Proof. inversion 1. Qed.

Lemma handles_calls forgiving myself m c : handles forgiving myself m (UserCall c) → is_handler c = true.
Proof. by inversion 1. Qed.

Lemma handle_message_spec {St} myself m (s : @Rt W Msg Sup St) :
  ∃ f w, handle_message myself m s = (Val f, with_decoder w s) ∧ handles true myself m f.
Proof.
  unfold handle_message, decode, mbind, RM_bind, mret, RM_ret.
  destruct (is_local myself) eqn:Hl, (serialized_msg m) as [sm|] eqn:Hs; cbn [negb].
  - destruct (from_boxed m (decoder s)) as [[x|e|] w] eqn:E; (do 2 eexists; split; [done|]).
    + by eapply hd_local.
    + eapply (hd_dropped _ _ _ (decoder s)); [done..|]. by rewrite E.
    + eapply (hd_dropped _ _ _ (decoder s)); [done..|]. by rewrite E.
  - destruct (from_boxed m (decoder s)) as [[x|e|] w] eqn:E; (do 2 eexists; split; [done|]);
      [by eapply hd_local|by eapply hd_error|by eapply hd_panic].
  - eexists _, (decoder s). split; [by destruct s|by apply hd_remote].
  - eexists _, (decoder s). split; [by destruct s|by apply hd_remote_typed].
Qed.
End handles.

(** The abstract actor that the task of [run_actor] refines *)
Definition actor_trace {W Msg Sup} `{!Message W Msg} (a : ActorId) (supervisor : option ActorId) (l : list (@LogItem Msg Sup))
  (φ : Phase) (p : ActorPortSet) : Prop :=
  trace a None supervisor (handles true a) l φ p.

Section tasks.
Context `{!HashSetIter ActorId} `{!HashSetIter ScopeGroupKey}.
Context {W Msg Sup St : Type} `{!Message W Msg}.
#[local] Abbreviation Task := (@Rt W Msg Sup St).
Implicit Types (s : Task).

Variable arrivals : nat → list (@Arrival Msg Sup).
Variable others : nat → list sys_op.
Variable user : nat → @Callback Msg Sup → option St → Outcome * option St.
Variable signal_first : nat → bool.
Variable a : ActorId.

(** A new actor has its guard. *)
Lemma new_armed n (x : Sys) b : (new n x).1 = Some b → is_Some (guards (new n x).2 !! b).
Proof using.
  unfold new. destruct (get_new_local_id x) as [c x1].
  destruct (match n with Some nm => register nm c x1 | None => Some x1 end) as [x2|]; [|done].
  destruct (register_pid c x2) as [x3|]; [|done]. intros [= <-]. cbn. by rewrite lookup_insert_eq.
Qed.

(** A task that has not started *)
Definition unstarted s : Prop := ports s = ports_new ∧ log s = [] ∧ now s = 0.

Lemma unstarted_fresh sup_before sup_after handling s : unstarted s →
  at_phase a sup_before sup_after handling (node s) PhFresh s.
Proof using.
  intros (Hp & Hl & _). unfold at_phase, trace. rewrite Hp, Hl. split; [constructor|]. by split.
Qed.

(** Within [fuel] rounds the actor is told to end: by a signal, a stop or the loss of the senders, or by a
    drain, if supervision events cease to arrive and there is time for what was sent until then. *)
Definition told_to_end (fuel : nat) : Prop :=
  (∃ t, t < fuel ∧ existsb ends (arrivals t) = true) ∨
  (∃ t T, AMessage Drain ∈ arrivals t ∧ t < T ∧ (∀ k e, T ≤ k → ASupervision e ∉ arrivals k) ∧ load arrivals T 0 < fuel).

Lemma told_countdown fuel s : unstarted s → told_to_end fuel → ∃ bound D, countdown arrivals others (W := W) (St := St) bound D ∧ bound < fuel ∧ due_at D 0 s.
Proof using.
  intros (Hp & _ & Hn) [(t & Hf & Ht)|(t & T & Ht & HT & Hq & Hf)].
  - exists t, (ending t). split_and!; [by apply countdown_ending|done|]. unfold due_at, ending. rewrite Hn. split; lia.
  - exists (load arrivals T 0), (draining arrivals t T). split_and!; [by apply countdown_draining|done|].
    right. rewrite Hp, Hn. split_and!; [done|cbn -[load]; lia|left; lia].
Qed.

Lemma run_actor_spec supervisor fuel s : unstarted s →
  match run_actor arrivals others user signal_first a supervisor fuel s with
  | (Val (inl _), s') => start_failed a None supervisor (handles true a) (node s) s'
  | (Val (inr evt), s') =>
      ∃ state, was_phase a None supervisor (handles true a) (node s) false (PhEnded evt.1 state) s' ∧
        evt.2 = if state && true then ustate s' else None
  | (Unwind _, _) => False
  | (Pending, s') => some_phase a None supervisor (handles true a) (node s) s'
  end.
Proof using.
  intros Hs.
  assert (triple (at_phase a None supervisor (handles true a) (node s) PhFresh)
    (run_actor arrivals others user signal_first a supervisor fuel)
    (λ r s', match r with
             | inl _ => start_failed a None supervisor (handles true a) (node s) s'
             | inr evt => ∃ state, was_phase a None supervisor (handles true a) (node s) false (PhEnded evt.1 state) s' ∧
                 evt.2 = if state && true then ustate s' else None
             end) (λ _ _, False) (some_phase a None supervisor (handles true a) (node s))) as H.
  { apply (task_spec arrivals others user signal_first a None supervisor (handles true a) (node s) true
      (process_message arrivals others user signal_first a) fuel (start arrivals others user signal_first a supervisor));
      [|apply start_spec]. apply process_message_spec; [apply handle_message_spec|apply handles_returns]. }
  specialize (H s (unstarted_fresh _ _ _ s Hs)).
  by destruct (run_actor arrivals others user signal_first a supervisor fuel s) as [[[e|evt]|e|] s'].
Qed.

(** The trace of a task, whatever its result *)
Lemma run_actor_trace supervisor fuel s r s' : unstarted s →
  run_actor arrivals others user signal_first a supervisor fuel s = (r, s') →
  ∃ φ p, actor_trace a supervisor (log s') φ p ∧
    match r with
    | Val (inr evt) => ∃ state, φ = PhEnded evt.1 state ∧ evt.2 = if state : bool then ustate s' else None
    | Val (inl _) => φ = PhStarting ∨ φ = PhUnlaunched ∨ φ = PhStarted
    | Unwind _ => False
    | Pending => True
    end.
Proof using.
  intros Hs E. pose proof (run_actor_spec supervisor fuel s Hs) as H. rewrite E in H.
  destruct r as [[e|evt]|e|]; [| |done|].
  - destruct H as [[[p Ht] _]|[[[p Ht] _]|[[p Ht] _]]]; eexists _, p; eauto.
  - destruct H as (state & [[p Ht] _] & Hst). exists (PhEnded evt.1 state), p. split; [done|]. exists state.
    by rewrite andb_true_r in Hst.
  - destruct H as (φ & [[p Ht] _]). by exists φ, p.
Qed.

(** The node, when a task has returned and its guard has run *)
Lemma sound_disarmed x (l : list (@LogItem Msg Sup)) y : sound a x false l y →
  sys_inv false x → is_Some (guards x !! a) → env_ok a x l → sys_inv false y ∧ disarmed a y.
Proof using.
  intros [Hn Hh] Hi Ha He. destruct (Hh Hi Ha He) as [Hv Hg]. split; [rewrite Hn; by apply inv_run|].
  split; [rewrite Hn; eapply (exists_run false); [done|done|done|by apply (g_armed _ (proj2 Hi))]|].
  destruct (guards y !! a) as [g|] eqn:Eg; [|done]. destruct Hg as [Hg _]. by discriminate Hg.
Qed.

Lemma run_actor_node supervisor fuel s r s' : unstarted s →
  run_actor arrivals others user signal_first a supervisor fuel s = (Val r, s') →
  sys_inv false (node s) → is_Some (guards (node s) !! a) → env_ok a (node s) (log s') →
  sys_inv false (node s') ∧ disarmed a (node s').
Proof using.
  intros Hs E Hi Ha He. pose proof (run_actor_spec supervisor fuel s Hs) as H. rewrite E in H.
  apply (sound_disarmed (node s) (log s')); [|done..].
  destruct r as [e|evt]; [by destruct H as [[_ ?]|[[_ ?]|[_ ?]]]|]. by destruct H as (state & [_ ?] & _).
Qed.

Lemma run_actor_returns supervisor fuel s : unstarted s → (∀ n c u, (user n c u).1 ≠ UNever) → told_to_end fuel →
  (run_actor arrivals others user signal_first a supervisor fuel s).1 ≠ Pending.
Proof using.
  intros Hs Hu Ht. destruct (told_countdown fuel s Hs Ht) as (bound & D & HD & Hf & Hd).
  assert (triple (due_at D 0) (run_actor arrivals others user signal_first a supervisor fuel) (λ _ _, True) unwinds nowhere) as H.
  { apply (task_returns arrivals others user signal_first a (handles true a) (handle_message a)
      (handle_message_spec a) (handles_returns true a) Hu HD true fuel); [done|]. by apply (start_returns _ _ _ _ _ Hu (cd_kept _ _ _ _ HD)). }
  specialize (H s Hd). by destruct (run_actor arrivals others user signal_first a supervisor fuel s) as [[r|e|] s'].
Qed.
End tasks.

(** ** The theorems *)

Section theorems.
Context `{!HashSetIter ActorId} `{!HashSetIter ScopeGroupKey}.
Context {W Msg Sup St : Type} `{!Message W Msg}.

(** C1: a task refines the abstract actor.  Whatever arrives and whenever, however callbacks end and
    [select!] chooses, the log of a task is a trace of the abstract actor: the callbacks run in the order of
    the lifecycle, each at most once but for the handlers, [post_stop] runs exactly when the loop has ended
    neither by a signal nor by an error, nothing is called after that, and the exit that is reported is that
    of the phase.  The join handle never panics.  The state of the actor goes with the report when the loop
    has returned, which includes an actor killed in its loop. *)
Theorem task_refines (arrivals : nat → list (@Arrival Msg Sup)) (others : nat → list sys_op)
  (user : nat → @Callback Msg Sup → option St → Outcome * option St) (signal_first : nat → bool)
  (a : ActorId) (supervisor : option ActorId) (fuel : nat) (s s' : @Rt W Msg Sup St) r :
  unstarted s → run_actor arrivals others user signal_first a supervisor fuel s = (r, s') →
  ∃ φ p, actor_trace a supervisor (log s') φ p ∧
    match r with
    | Val (inr evt) => ∃ state, φ = PhEnded evt.1 state ∧ evt.2 = if state : bool then ustate s' else None
    | Val (inl _) => φ = PhStarting ∨ φ = PhUnlaunched ∨ φ = PhStarted
    | Unwind _ => False
    | Pending => True
    end.
Proof. intros Hs E. by eapply run_actor_trace. Qed.

(** C2: what is sent to an actor is handled in order and by priority.  The messages taken are a prefix of
    the messages sent, and so are the supervision events; a message is taken only when every supervision
    event sent before has been taken.  The handlers called are those of what was taken, one each and in the
    same order, but for serialized messages that cannot be decoded, and perhaps for the last one.  Once a
    stop, a signal or the loss of the senders has arrived, nothing more is taken. *)
Theorem mailbox_order (arrivals : nat → list (@Arrival Msg Sup)) (others : nat → list sys_op)
  (user : nat → @Callback Msg Sup → option St → Outcome * option St) (signal_first : nat → bool)
  (a : ActorId) (supervisor : option ActorId) (fuel : nat) (s s' : @Rt W Msg Sup St) r :
  unstarted s → run_actor arrivals others user signal_first a supervisor fuel s = (r, s') →
  let l := log s' in
  taken_messages l `prefix_of` sent_messages l ∧ taken_supervision l `prefix_of` sent_supervision l ∧
  (∀ l1 m l2, l = l1 ++ LTake (PMessage m) :: l2 → sent_supervision l1 = taken_supervision l1) ∧
  (∃ ms cut, work l = ms ++ cut ∧ length cut ≤ 1 ∧ delivered (handles true a) ms (handler_calls l)) ∧
  (∀ l1 x l2, l = l1 ++ LArrive x :: l2 → ends x = true → work l2 = []).
Proof.
  intros Hs E l. destruct (run_actor_trace _ _ _ _ _ _ _ _ _ _ Hs E) as (φ & p & Ht & _).
  destruct (trace_mail_ok _ _ _ _ _ _ _ Ht) as [_ H2 H3]. fold l in H2, H3, Ht. split_and!.
  - rewrite H3. by eexists.
  - rewrite H2. by eexists.
  - intros l1 m l2 El. rewrite El in Ht. by eapply trace_priority.
  - destruct (trace_delivered _ _ _ _ (handles_calls true a) _ _ _ Ht) as (ms & cut & ? & ? & ? & _). by exists ms, cut.
  - intros l1 x l2 El. rewrite El in Ht. by eapply trace_prompt.
Qed.

(** C3: the report of an exit.  A task that ends reports once, with the last thing it does, and the event is
    the one the log calls for ([exit_of]): the actor was killed exactly if it took a signal or found its
    port closed; otherwise, if a callback or the decoder of its messages failed, it failed with that error or
    panic; otherwise it terminated, with the reason of the stop it took, or drained.  A kill is reported only
    if a signal was sent or the senders were dropped, the stop that was taken is the first that was sent, and
    a drain was sent as such.  A failure carries no state. *)
Theorem exit_report (arrivals : nat → list (@Arrival Msg Sup)) (others : nat → list sys_op)
  (user : nat → @Callback Msg Sup → option St → Outcome * option St) (signal_first : nat → bool)
  (a : ActorId) (supervisor : option ActorId) (fuel : nat) (s s' : @Rt W Msg Sup St) e state :
  unstarted s → run_actor arrivals others user signal_first a supervisor fuel s = (Val (inr (e, state)), s') →
  let l := log s' in
  (∃ l1 l2, l = l1 ++ LOp (OFinish a e) :: l2 ∧ (∀ i, i ∈ l2 → (∃ x, i = LArrive x) ∨ ∃ o, i = LEnv o)) ∧
  exit_of a l = Some e ∧
  (was_signalled l = true → existsb kills (arrived l) = true) ∧
  (∀ m, LTake (PStop m) ∈ l → first_stop l = Some (stop_reason m)) ∧
  (LTake (PMessage Drain) ∈ l → Drain ∈ sent_messages l) ∧
  (∀ who x, e = ActorFailed who x → state = None).
Proof.
  intros Hs E l. subst l. destruct (run_actor_trace _ _ _ _ _ _ _ _ _ _ Hs E) as (φ & p & Ht & b & -> & Hst). cbn [fst snd] in *.
  split_and!; [by eapply trace_finish|exact (trace_cause _ _ _ _ _ _ _ Ht)|by eapply trace_signal|intros m; by eapply trace_stop|..].
  - intros Hd. rewrite (mo_messages _ _ (trace_mail_ok _ _ _ _ _ _ _ Ht)). apply elem_of_app. left.
    apply list_elem_of_omap. by exists (LTake (PMessage Drain)).
  - intros who x ->. destruct (trace_event _ _ _ _ _ _ _ Ht) as [[? [=]]|(? & _ & ->)]. done.
Qed.

(** C4: a task ends.  When every callback returns, and a stop, a signal or the loss of the senders arrives
    at the await [t], then the task is over within [t + 1] rounds of its loop: it returns a start error or
    an exit, it is not pending and has not panicked.  So it is when a drain arrives and no supervision
    events do from the await [T] on, within one round for each await and each arrival before [T]. *)
Theorem task_ends (arrivals : nat → list (@Arrival Msg Sup)) (others : nat → list sys_op)
  (user : nat → @Callback Msg Sup → option St → Outcome * option St) (signal_first : nat → bool)
  (a : ActorId) (supervisor : option ActorId) (fuel : nat) (s : @Rt W Msg Sup St) :
  unstarted s → (∀ n c u, (user n c u).1 ≠ UNever) → told_to_end arrivals fuel →
  ∃ r s', run_actor arrivals others user signal_first a supervisor fuel s = (Val r, s').
Proof.
  intros Hs Hu Ht. pose proof (run_actor_returns arrivals others user signal_first a supervisor fuel s Hs Hu Ht) as Hp.
  destruct (run_actor arrivals others user signal_first a supervisor fuel s) as [r s'] eqn:E.
  destruct (run_actor_trace _ _ _ _ _ _ _ _ _ _ Hs E) as (φ & p & _ & Hr). destruct r as [r|e|]; [by do 2 eexists|done|done].
Qed.

(** C5: a spawned actor leaves nothing behind.  An actor is spawned with a supervisor on a node in any
    reachable state, and others do what they want while respecting the lifecycles of their own actors.
    When its task is over, whether it failed to start, stopped, failed or was killed, nothing on the node
    refers to it: it is in no registry, group or tree, and those who wait for it are woken, once. *)
Theorem spawned_actor_forgotten (arrivals : nat → list (@Arrival Msg Sup)) (others : nat → list sys_op)
  (user : nat → @Callback Msg Sup → option St → Outcome * option St) (signal_first : nat → bool)
  (history : list sys_op) (n : option string) (supervisor : ActorId) (fuel : nat) (s s' : @Rt W Msg Sup St) a r :
  valid_history sys_init history → node s = run_sys sys_init history → unstarted s →
  spawn_linked arrivals others user signal_first n supervisor fuel s = (Val (inr (a, r)), s') →
  env_ok a (new n (node s)).2 (log s') →
  forgotten a (node s') ∧ a ∈ woken (node s') ∧ NoDup (woken (node s')).
Proof.
  intros Hv Hn Hs E He. assert (sys_inv false (node s)) as Hi by (rewrite Hn; by apply inv_run, inv_init).
  unfold spawn_linked, runtime_new, mbind, RM_bind in E.
  pose proof (sys_inv_step false (node s) (ONew n) I (λ H, False_ind _ (Bool.diff_false_true H)) Hi) as Hi1. cbn [sys_step] in Hi1.
  pose proof (new_armed n (node s)) as Ha. destruct (new n (node s)) as [[b|] x]; [|done]. cbn [fst snd] in *.
  destruct (run_actor arrivals others user signal_first b (Some supervisor) fuel (with_node x s)) as [[r'|e|] s1] eqn:E1;
    [|done|done]. unfold mret, RM_ret in E. injection E as <- <- <-.
  destruct (run_actor_node _ _ _ _ _ _ _ (with_node x s) _ _ Hs E1 Hi1 (Ha _ eq_refl) He) as [Hi' Hd].
  split_and!; [by eapply disarmed_forgotten|apply (g_woken _ (proj2 Hi')); exact Hd|apply (g_once _ (proj2 Hi'))].
Qed.
End theorems.

(** ** A sample actor: its state is the list of the messages it has handled *)

#[local] Instance task_actor_iter : HashSetIter ActorId := elements_iter ActorId.
#[local] Instance task_key_iter : HashSetIter ScopeGroupKey := elements_iter ScopeGroupKey.
#[local] Instance task_message : Message unit nat := local_message unit nat.

Definition boxed (m : nat) : @Muxed nat := MuxMessage (mkBoxed (Some m) None).

(** Messages and a supervision event arrive while the actor starts, and a stop while it handles the second *)
Definition sample_arrivals (n : nat) : list (@Arrival nat nat) :=
  match n with
  | 1 => [AMessage (boxed 7); ASupervision 1; AMessage (boxed 8)]
  | 6 => [AMessage (boxed 9)]
  | 11 => [AStop (Some "bye"%string); AStop None]
  | _ => []
  end.
Definition sample_user (n : nat) (c : @Callback nat nat) (u : option (list nat)) : Outcome * option (list nat) :=
  match c with
  | CPreStart => (UOk, Some [])
  | CHandle m => (UOk, (λ l, l ++ [m]) <$> u)
  | _ => (UOk, u)
  end.
(** A node with a supervisor *)
Definition sample_ops : list sys_op := [ONew (Some "sup"%string); OStartBegin (Local 0); OStartEnd (Local 0) None PreOk; ORunning (Local 0)].
(** Another actor is created while this one runs. *)
Definition sample_others (n : nat) : list sys_op := if n =? 3 then [ONew None] else [].

Definition sample_task : @Rt unit nat nat (list nat) := mkRt ports_new 0 tt None (run_sys sys_init (sample_ops ++ [ONew None])) [].

Abbreviation sample_run := (run_actor sample_arrivals sample_others sample_user (λ _, false) (Local 1) (Some (Local 0)) 10 sample_task).

Definition sample_task' : @Rt unit nat nat (list nat) := Eval vm_compute in sample_run.2.

Lemma sample_run_result : sample_run = (Val (inr (ActorTerminated (Local 1) (Some "bye"%string), Some [7; 8])), sample_task').
Proof. by vm_compute. Qed.

Lemma sample_unstarted : unstarted sample_task.
Proof. done. Qed.

Lemma task_refines_witness :
  ∃ φ p, actor_trace (Local 1) (Some (Local 0)) (log sample_task') φ p ∧
    ∃ state, φ = PhEnded (ActorTerminated (Local 1) (Some "bye"%string)) state ∧
      Some [7; 8] = if state : bool then ustate sample_task' else None.
Proof. exact (task_refines _ _ _ _ _ _ _ _ _ _ sample_unstarted sample_run_result). Defined.

Lemma mailbox_order_witness :
  let l := log sample_task' in
  taken_messages l = [boxed 7; boxed 8] ∧ sent_messages l = [boxed 7; boxed 8; boxed 9] ∧
  taken_messages l `prefix_of` sent_messages l.
Proof.
  split; [by vm_compute|]. split; [by vm_compute|].
  exact (proj1 (mailbox_order _ _ _ _ _ _ _ _ _ _ sample_unstarted sample_run_result)).
Defined.

Lemma exit_report_witness :
  exit_of (Local 1) (log sample_task') = Some (ActorTerminated (Local 1) (Some "bye"%string)) ∧
  first_stop (log sample_task') = Some (Some "bye"%string).
Proof.
  destruct (exit_report _ _ _ _ _ _ _ _ _ _ _ sample_unstarted sample_run_result) as (_ & H1 & _ & H2 & _).
  split; [exact H1|]. apply (H2 (Reason "bye")). unfold sample_task'. cbn [log]. repeat first [left | right].
Defined.

Lemma sample_user_returns n c u : (sample_user n c u).1 ≠ UNever.
Proof. by destruct c. Qed.

(** Two messages, a drain and a third message; a supervision event later *)
Definition sample_drain (n : nat) : list (@Arrival nat nat) :=
  match n with
  | 1 => [AMessage (boxed 7); AMessage (boxed 8); AMessage Drain; AMessage (boxed 9)]
  | 4 => [ASupervision 1]
  | _ => []
  end.

Lemma task_ends_witness :
  (∃ r s', run_actor sample_arrivals sample_others sample_user (λ _, false) (Local 1) (Some (Local 0)) 12 sample_task = (Val r, s')) ∧
  (∃ r s', run_actor sample_drain sample_others sample_user (λ _, false) (Local 1) (Some (Local 0)) 11 sample_task = (Val r, s')).
Proof.
  split.
  - apply (task_ends sample_arrivals sample_others sample_user (λ _, false) (Local 1) (Some (Local 0)) 12 sample_task
      sample_unstarted sample_user_returns). left. exists 11. split; [lia|done].
  - apply (task_ends sample_drain sample_others sample_user (λ _, false) (Local 1) (Some (Local 0)) 11 sample_task
      sample_unstarted sample_user_returns). right. exists 1, 5. split_and!; [by right; right; left|lia| |vm_compute; lia].
    intros [|[|[|[|[|k]]]]] e Hk; [lia..|]. apply not_elem_of_nil.
Defined.

Definition sample_spawner : @Rt unit nat nat (list nat) := mkRt ports_new 0 tt None (run_sys sys_init sample_ops) [].

Abbreviation sample_spawn :=
  (spawn_linked sample_arrivals sample_others sample_user (λ _, false) (Some "child"%string) (Local 0) 10 sample_spawner).
Definition sample_spawned : @Rt unit nat nat (list nat) := Eval vm_compute in sample_spawn.2.

Lemma sample_spawn_result :
  sample_spawn = (Val (inr (Local 1, inr (ActorTerminated (Local 1) (Some "bye"%string), Some [7; 8]))), sample_spawned).
Proof. by vm_compute. Qed.

(** The other actor that is created has nothing to respect. *)
Lemma sample_env : env_ok (Local 1) (new (Some "child"%string) (node sample_spawner)).2 (log sample_spawned).
Proof.
  assert (Forall (λ i, match i with LEnv o => o = ONew None | _ => True end) (log sample_spawned)) as H
    by (repeat constructor).
  intros l1 o l2 E. rewrite E in H. apply Forall_app in H as [_ H]. apply Forall_cons in H as [-> _]. done.
Qed.

Lemma spawned_actor_forgotten_witness :
  where_is "sup" (node sample_spawned) = Some (Local 0) ∧ forgotten (Local 1) (node sample_spawned).
Proof.
  split; [by vm_compute|].
  refine (proj1 (spawned_actor_forgotten sample_arrivals sample_others sample_user (λ _, false) sample_ops
    (Some "child"%string) (Local 0) 10 sample_spawner sample_spawned (Local 1) _ _ eq_refl sample_unstarted
    sample_spawn_result sample_env)).
  vm_compute. repeat split; by eexists.
Defined.
