(* ===== verification/ThreadLocal.v ===== *)
(** Thread-local actors (src/ractor/src/thread_local.rs and thread_local/inner.rs).

    Their runtime repeats that of src/ractor/src/actor.rs for handlers that are not [Send], and shares its
    ports and its lifecycle guard: the loop is that of Runtime.v.  It differs in four points: the supervisor
    is linked before [pre_start], which runs on the thread of the spawner; the spawner may be dead; a
    serialized message that cannot be decoded is an error of the actor; and the state, which cannot be
    sent, does not go with the report of the exit. *)

From S2P Require Import Prelude Discard Job ActorTypes Pg Actors Lifecycle Bytes Serialization Runtime RuntimeFacts TaskTheorems.

(** [Display] of [SpawnErr] *)
Definition spawn_err_display (e : SpawnErr) : string :=
  match e with
  | StartupFailed msg => "Actor panicked during startup '" +:+ msg +:+ "'"
  | ActorAlreadyStarted => "Actor cannot be re-started more than once"
  | ActorAlreadyRegistered n => "Actor '" +:+ n +:+ "' is already registered in the actor registry"
  end.

Section thread_local.
Context `{!HashSetIter ActorId} `{!HashSetIter ScopeGroupKey}.
Context {W Msg Sup St : Type} `{!Message W Msg}.
#[local] Abbreviation Task := (@Rt W Msg Sup St).

Variable arrivals : nat → list (@Arrival Msg Sup).
Variable others : nat → list sys_op.
Variable user : nat → @Callback Msg Sup → option St → Outcome * option St.
Variable signal_first : nat → bool.
Variable myself : ActorId.
(** Whether the thread of the spawner takes the actor *)
Variable spawner_alive : bool.

Definition tl_handle_message (m : BoxedMessage Msg) : RM Task (@Future Msg Sup) :=
  if negb (is_local myself) then
    match serialized_msg m with
    | Some sm => mret (UserCall (CHandleSerialized sm))
    | None => mret (Immediate (UErr "`RemoteActor` failed to read `SerializedMessage` from `BoxedMessage`"))
    end
  else
    typed ← decode m;
    match typed with
    | Ok m => mret (UserCall (CHandle m))
    | Err e => mret (Immediate (UErr e))
    | Panic => mret (Immediate (UPanic "panic"))
    end.

Definition tl_process_message : RM Task (option (string + ActorLoopResult)) :=
  process_message_with arrivals others user signal_first myself tl_handle_message.

Definition tl_processing_loop (fuel : nat) : RM Task (ActorErr + option string) :=
  processing_loop_with arrivals others user signal_first myself tl_process_message fuel.

(** The future that the spawner runs, up to the spawn of the loop: an error drops the ports and the guard. *)
Definition tl_build : RM Task (SpawnErr + unit) :=
  r ← run_with_signal arrivals others user signal_first (mret (UserCall CPreStart));
  match r with
  | inr UOk => own (OStartEnd myself None PreOk) ;; mret (inr tt)
  | inr (UErr e) | inr (UPanic e) =>
      own (OStartEnd myself None PreFailed) ;; drop_ports ;; mret (inl (StartupFailed e))
  | inr UNever => pending
  | inl signal =>
      own (OStartEnd myself None PreKilled) ;; drop_ports ;; mret (inl (StartupFailed "Actor killed during startup"))
  end.

(** [ThreadLocalActorSpawner::spawn]: a dead spawner drops what it was to run. *)
Definition spawner_spawn : RM Task (SpawnErr + unit) :=
  if spawner_alive then tl_build
  else own (OCancel myself) ;; drop_ports ;; mret (inl (StartupFailed "Spawner dead")).

(** [actor_ref.try_link(sup)] *)
Definition tl_link (supervisor : option ActorId) : RM Task bool :=
  match supervisor with
  | None => mret true
  | Some p => linked ← asks (λ s, (link myself p (node s)).1); own (OLink myself p) ;; mret linked
  end.

Definition tl_start (supervisor : option ActorId) : RM Task (SpawnErr + unit) :=
  fresh ← asks (λ s, (start_begin myself (node s)).1);
  own (OStartBegin myself) ;;
  if negb fresh then drop_ports ;; mret (inl ActorAlreadyStarted)
  else
    linked ← tl_link supervisor;
    if negb linked then own (OCancel myself) ;; drop_ports ;; mret (inl (StartupFailed "Supervisor is shutting down"))
    else
      r ← spawner_spawn;
      mret match r with inl e => inl (StartupFailed (spawn_err_display e)) | inr _ => inr tt end.

Definition tl_task (fuel : nat) : RM Task (SupervisionEvent * option St) :=
  r ← tl_processing_loop fuel;
  state ← asks ustate;
  let evt := exit_event myself false r state in
  own (OFinish myself evt.1) ;;
  mret evt.

Definition tl_run (supervisor : option ActorId) (fuel : nat) : RM Task (SpawnErr + (SupervisionEvent * option St)) :=
  r ← tl_start supervisor;
  match r with
  | inl e => mret (inl e)
  | inr _ => evt ← tl_task fuel; mret (inr evt)
  end.

(** ** The same abstract actor *)

Lemma tl_handle_message_spec m (s : Task) :
  ∃ f w, tl_handle_message m s = (Val f, with_decoder w s) ∧ handles false myself m f.
Proof using.
  unfold tl_handle_message, decode, mbind, RM_bind, mret, RM_ret. destruct (is_local myself) eqn:Hl; cbn [negb].
  - destruct (from_boxed m (decoder s)) as [[x|e|] w] eqn:E; (do 2 eexists; split; [done|]);
      [by eapply hd_local|by eapply hd_error|by eapply hd_panic].
  - destruct (serialized_msg m) as [sm|] eqn:Hs; eexists _, (decoder s); (split; [by destruct s|]);
      [by apply hd_remote|by apply hd_remote_typed].
Qed.

Section refinement.
Variable supervisor : option ActorId.
Variable node0 : Sys.
#[local] Abbreviation at_ := (at_phase (W := W) (St := St) myself supervisor None (handles false myself) node0).
#[local] Abbreviation was_ := (was_phase (W := W) (St := St) myself supervisor None (handles false myself) node0).
#[local] Abbreviation failed_ := (start_failed (W := W) (St := St) myself supervisor None (handles false myself) node0).
#[local] Abbreviation some_ := (some_phase (W := W) (St := St) myself supervisor None (handles false myself) node0).
#[local] Abbreviation never := (λ (_ : string) (_ : Task), False).

Lemma task_op_cancel n : sys_inv false n → is_Some (guards n !! myself) →
  op_valid n (OCancel myself) ∧ (is_Some (guards (sys_step n (OCancel myself)) !! myself) ↔ false = true).
Proof using.
  intros Hi Hg. split; [done|]. cbn [sys_step]. rewrite (guards_guard_drop false), lookup_delete_eq by done.
  split; [by intros [? ?]|done].
Qed.

Lemma cancel_spec (e : SpawnErr) :
  triple (at_ PhStarting) (own (OCancel myself) ;; drop_ports ;; mret (inl e : SpawnErr + unit))
    (λ r s, match r with inl _ => failed_ s | inr _ => at_ PhStarted s end) never some_.
Proof using.
  eapply triple_bind with (R := λ _, was_ false PhUnlaunched).
  - eapply triple_weaken with (P := was_ true PhStarting) (Q := λ _, was_ false PhUnlaunched) (U := never) (N := some_);
      [apply own_was; [intros p; apply st_cancel|exact task_op_cancel]|apply at_was|done..].
  - intros []. apply fail_spec. intros s ?. right. by left.
Qed.

Lemma tl_build_spec :
  triple (at_ PhStarting) tl_build
    (λ r s, match r with inl _ => failed_ s | inr _ => at_ PhStarted s end) never some_.
Proof using.
  unfold tl_build. eapply triple_bind; [apply pre_start_spec|]. intros [sg|o].
  - apply end_spec; [intros p; apply st_pre_killed|done].
  - apply triple_pure. intros Ho. destruct o as [|e|e|]; [| | |done].
    2,3: (apply end_spec; [intros p; by apply st_pre_failed|done]).
    eapply triple_bind; [apply own_moves; [intros p; apply st_pre_ok|]|intros []; by apply triple_ret].
    intros n Hi Hg. by apply task_op_end.
Qed.

Lemma tl_start_spec :
  triple (at_ PhFresh) (tl_start supervisor)
    (λ r s, match r with inl _ => failed_ s | inr _ => at_ PhStarted s end) never some_.
Proof using.
  apply begin_spec. eapply triple_bind with (R := λ _, at_ PhStarting).
  { unfold tl_link. destruct supervisor as [q|] eqn:Eq; [|by apply triple_ret].
    eapply triple_bind with (R := λ _, at_phase myself (Some q) None (handles false myself) node0 PhStarting); [by apply triple_asks|].
    intros linked. eapply triple_bind; [apply own_moves; [intros p; by apply st_link|by apply task_op_armed]|].
    intros []. by apply triple_ret. }
  intros [|]; cbn [negb]; [|apply cancel_spec].
  eapply triple_bind with (R := λ r s, match r with inl _ => failed_ s | inr _ => at_ PhStarted s end).
  - unfold spawner_spawn. destruct spawner_alive; [apply tl_build_spec|apply cancel_spec].
  - intros [e|[]]; by apply triple_ret.
Qed.
End refinement.

Lemma tl_run_spec supervisor fuel (s : Task) : unstarted s →
  match tl_run supervisor fuel s with
  | (Val (inl _), s') => start_failed myself supervisor None (handles false myself) (node s) s'
  | (Val (inr evt), s') =>
      ∃ state, was_phase myself supervisor None (handles false myself) (node s) false (PhEnded evt.1 state) s' ∧
        evt.2 = if state && false then ustate s' else None
  | (Unwind _, _) => False
  | (Pending, s') => some_phase myself supervisor None (handles false myself) (node s) s'
  end.
Proof using.
  intros Hs.
  assert (triple (at_phase myself supervisor None (handles false myself) (node s) PhFresh) (tl_run supervisor fuel)
    (λ r s', match r with
             | inl _ => start_failed myself supervisor None (handles false myself) (node s) s'
             | inr evt => ∃ state,
                 was_phase myself supervisor None (handles false myself) (node s) false (PhEnded evt.1 state) s' ∧
                 evt.2 = if state && false then ustate s' else None
             end) (λ _ _, False) (some_phase myself supervisor None (handles false myself) (node s))) as H.
  { apply (task_spec arrivals others user signal_first myself supervisor None (handles false myself) (node s) false
      tl_process_message fuel (tl_start supervisor)); [|apply tl_start_spec].
    apply process_message_spec; [apply tl_handle_message_spec|apply handles_returns]. }
  specialize (H s (unstarted_fresh _ _ _ _ s Hs)). by destruct (tl_run supervisor fuel s) as [[[e|evt]|e|] s'].
Qed.
End thread_local.

(** ** Messages that have no handler *)

Section quiet.
Context `{!HashSetIter ActorId} `{!HashSetIter ScopeGroupKey}.
Context {W Msg Sup St : Type} `{!Message W Msg}.
Variable arrivals : nat → list (@Arrival Msg Sup).
Variable others : nat → list sys_op.
Variable user : nat → @Callback Msg Sup → option St → Outcome * option St.
Variable signal_first : nat → bool.
Variable a : ActorId.

Lemma run_immediate future r w (s : @Rt W Msg Sup St) : arrivals (now s) = [] → signal_rx (ports s) = OEmpty →
  (∀ s', decoder s' = decoder s → future s' = (Val (Immediate r), with_decoder w s')) →
  run_with_signal arrivals others user signal_first future s =
  (Val (inr r), mkRt (ports s) (S (now s)) w (ustate s) (run_sys (node s) (others (now s)))
    ((log s ++ (LEnv <$> others (now s))) ++ [LReturn r])).
Proof using.
  intros A Hp Hf. destruct s as [[sg st sv ms dr] n d u x l]. cbn in A, Hp, Hf. subst sg.
  unfold run_with_signal, arrive, choose, asks, update_with, mbind, RM_bind, elapse. cbn [now ports]. rewrite A. cbn [foldl fmap list_fmap app].
  destruct (signal_first _); unfold select_signal, poll_signal, mbind, RM_bind; cbn -[run_sys]; rewrite Hf by done; reflexivity.
Qed.

Lemma handler_calls_env (l : list (@LogItem Msg Sup)) os : handler_calls (l ++ (LEnv <$> os)) = handler_calls l.
Proof using.
  unfold handler_calls. rewrite omap_app. replace (omap _ (LEnv <$> os)) with (@nil (@Callback Msg Sup)); [apply app_nil_r|].
  by induction os.
Qed.

(** A round in which nothing arrives, whose message has its result at once *)
Lemma quiet_round handle m q r w (s : @Rt W Msg Sup St) :
  arrivals (now s) = [] → arrivals (S (now s)) = [] → ports s = mkPorts OEmpty OEmpty [] (MuxMessage m :: q) false →
  (∀ s', decoder s' = decoder s → handle m s' = (Val (Immediate r), with_decoder w s')) →
  ∃ s1, process_message_with arrivals others user signal_first a handle s =
    (r ← handled a (inr r); mret (Some r)) s1 ∧
    ports s1 = mkPorts OEmpty OEmpty [] q false ∧ handler_calls (log s1) = handler_calls (log s).
Proof using.
  intros A1 A2 Hp Hf. destruct s as [p n d u x l]. cbn [ports now decoder log] in *. subst p.
  unfold process_message_with, arrive, update_with. unfold mbind at 1, RM_bind at 1. unfold elapse. cbn [now ports decoder ustate node log].
  rewrite A1. cbn [foldl fmap list_fmap app]. unfold mbind at 1, RM_bind at 1.
  match goal with |- context [listen_in_priority ?s] => set (s1 := s) end.
  change (listen_in_priority s1) with (Val (A := option (MessagingErr + @ActorPortMessage Msg Sup)) (Some (inr (PMessage (MuxMessage m)))),
    logging [LTake (PMessage (MuxMessage m))] (with_ports (mkPorts OEmpty OEmpty [] q false) s1)).
  cbn iota beta. unfold mbind at 1, RM_bind at 1. rewrite (run_immediate _ r w); [|done..].
  eexists. split; [reflexivity|]. split; [done|]. cbn [log logging with_ports].
  unfold handler_calls. rewrite omap_app. cbn [omap list_omap]. rewrite app_nil_r.
  change (handler_calls (log (logging [LTake (PMessage (MuxMessage m))] (with_ports (mkPorts OEmpty OEmpty [] q false) s1)) ++
    (LEnv <$> others (S n))) = handler_calls l). rewrite handler_calls_env.
  cbn [log logging with_ports]. unfold handler_calls at 1. rewrite omap_app. cbn [omap list_omap]. rewrite app_nil_r.
  change (handler_calls (log s1) = handler_calls l). unfold s1. cbn [log]. apply handler_calls_env.
Qed.
End quiet.

(** ** The theorems *)

Section theorems.
Context `{!HashSetIter ActorId} `{!HashSetIter ScopeGroupKey}.
Context {W Msg Sup St : Type} `{!Message W Msg}.

(** A thread-local task refines the same abstract actor as the others, linked to its supervisor before
    [pre_start] and failing on messages it cannot decode; it never panics, and reports no state.  Whatever
    it comes to, a dead spawner included, nothing on the node refers to it when it is over. *)
Theorem thread_local_task (arrivals : nat → list (@Arrival Msg Sup)) (others : nat → list sys_op)
  (user : nat → @Callback Msg Sup → option St → Outcome * option St) (signal_first : nat → bool)
  (a : ActorId) (spawner_alive : bool) (supervisor : option ActorId) (fuel : nat) (s s' : @Rt W Msg Sup St) r :
  unstarted s → tl_run arrivals others user signal_first a spawner_alive supervisor fuel s = (r, s') →
  sys_inv false (node s) → is_Some (guards (node s) !! a) → env_ok a (node s) (log s') →
  (∃ φ p, trace a supervisor None (handles false a) (log s') φ p ∧
    match r with
    | Val (inr (e, state)) => state = None ∧ ∃ b, φ = PhEnded e b
    | Val (inl _) => φ = PhStarting ∨ φ = PhUnlaunched ∨ φ = PhStarted
    | Unwind _ => False
    | Pending => True
    end) ∧
  ∀ r', r = Val r' → forgotten a (node s').
Proof.
  intros Hs E Hi Ha He. pose proof (tl_run_spec arrivals others user signal_first a spawner_alive supervisor fuel s Hs) as H.
  rewrite E in H. split.
  - destruct r as [[e|[e st]]|e|]; [| |done|].
    + destruct H as [[[p Ht] _]|[[[p Ht] _]|[[p Ht] _]]]; eexists _, p; eauto.
    + destruct H as (b & [[p Ht] _] & Hst). exists (PhEnded e b), p. rewrite andb_false_r in Hst. eauto.
    + destruct H as (φ & [[p Ht] _]). by exists φ, p.
  - intros r' ->. assert (sound a (node s) false (log s') (node s')) as Hso.
    { destruct r' as [e|evt]; [by destruct H as [[_ ?]|[[_ ?]|[_ ?]]]|]. by destruct H as (b & [_ ?] & _). }
    destruct (sound_disarmed _ _ _ _ Hso Hi Ha He) as [Hi' Hd]. by eapply disarmed_forgotten.
Qed.

(** A serialized message that cannot be decoded.  When it is the next in the mailbox of a running local
    actor, the actor drops it and goes on; the same handler run as a thread-local actor ends with the error
    of the decoder. *)
Theorem undecodable_message (arrivals : nat → list (@Arrival Msg Sup)) (others : nat → list sys_op)
  (user : nat → @Callback Msg Sup → option St → Outcome * option St) (signal_first : nat → bool)
  (a : ActorId) (s : @Rt W Msg Sup St) (m : BoxedMessage Msg) q sm e w :
  is_local a = true → arrivals (now s) = [] → arrivals (S (now s)) = [] →
  ports s = mkPorts OEmpty OEmpty [] (MuxMessage m :: q) false →
  serialized_msg m = Some sm → from_boxed m (decoder s) = (Err e, w) →
  (∃ s1, process_message arrivals others user signal_first a s = (Val (Some (inr loop_ok)), s1) ∧
    ports s1 = mkPorts OEmpty OEmpty [] q false ∧ handler_calls (log s1) = handler_calls (log s)) ∧
  ∃ s2, tl_process_message arrivals others user signal_first a s = (Val (Some (inl e)), s2).
Proof.
  intros Hl A1 A2 Hp Hm He.
  assert (∀ s' : @Rt W Msg Sup St, decoder s' = decoder s → handle_message a m s' = (Val (Immediate UOk), with_decoder w s')) as H1.
  { intros s' Hd. unfold handle_message, decode, mbind, RM_bind. rewrite Hl, Hm. cbn [negb]. by rewrite Hd, He. }
  assert (∀ s' : @Rt W Msg Sup St, decoder s' = decoder s → tl_handle_message a m s' = (Val (Immediate (UErr e)), with_decoder w s')) as H2.
  { intros s' Hd. unfold tl_handle_message, decode, mbind, RM_bind. rewrite Hl. cbn [negb]. by rewrite Hd, He. }
  split.
  - destruct (quiet_round arrivals others user signal_first a _ m q _ w s A1 A2 Hp H1) as (s1 & E & Hp1 & Hc1). by exists s1.
  - destruct (quiet_round arrivals others user signal_first a _ m q _ w s A1 A2 Hp H2) as (s1 & E & _). by exists s1.
Qed.
End theorems.

(** ** A sample thread-local actor *)

#[local] Instance tl_actor_iter : HashSetIter ActorId := elements_iter ActorId.
#[local] Instance tl_key_iter : HashSetIter ScopeGroupKey := elements_iter ScopeGroupKey.
#[local] Instance tl_plain_message : Message unit nat := local_message unit nat.

Abbreviation sample_tl_run :=
  (tl_run sample_arrivals (λ _, []) sample_user (λ _, false) (Local 1) true (Some (Local 0)) 10 sample_task).
Definition sample_tl_task : @Rt unit nat nat (list nat) := Eval vm_compute in sample_tl_run.2.

Lemma sample_tl_result : sample_tl_run = (Val (inr (ActorTerminated (Local 1) (Some "bye"%string), None)), sample_tl_task).
Proof. by vm_compute. Qed.

Lemma sample_tl_env : env_ok (Local 1) (node sample_task) (log sample_tl_task).
Proof.
  assert (Forall (λ i, match i with LEnv o => False | _ => True end) (log sample_tl_task)) as H by (repeat constructor).
  intros l1 o l2 E. rewrite E in H. apply Forall_app in H as [_ H]. by apply Forall_cons in H as [? _].
Qed.

Lemma thread_local_task_witness :
  ustate sample_tl_task = Some [7; 8] ∧ forgotten (Local 1) (node sample_tl_task).
Proof.
  split; [done|].
  refine (proj2 (thread_local_task _ _ _ _ _ _ _ _ _ _ _ sample_unstarted sample_tl_result _ _ sample_tl_env) _ eq_refl).
  - apply inv_run; [vm_compute; repeat split; by eexists|done|apply inv_init].
  - vm_compute. by eexists.
Defined.

(** A message of another type than the actor's, in serialized form *)
Definition sample_garbled : BoxedMessage nat := mkBoxed None (Some (SCast "Other" [] None)).
Definition sample_round : @Rt unit nat nat (list nat) :=
  mkRt (mkPorts OEmpty OEmpty [] [MuxMessage sample_garbled] false) 0 tt (Some []) sys_init [].

Lemma undecodable_message_witness :
  (∃ s1, process_message (λ _, []) (λ _, []) sample_user (λ _, true) (Local 1) sample_round = (Val (Some (inr loop_ok)), s1) ∧
    ports s1 = mkPorts OEmpty OEmpty [] [] false ∧ handler_calls (log s1) = handler_calls (log sample_round)) ∧
  ∃ s2, tl_process_message (λ _, []) (λ _, []) sample_user (λ _, true) (Local 1) sample_round =
    (Val (Some (inl downcast_err)), s2).
Proof.
  exact (undecodable_message (λ _, []) (λ _, []) sample_user (λ _, true) (Local 1) sample_round sample_garbled [] _
    downcast_err tt eq_refl eq_refl eq_refl eq_refl eq_refl eq_refl).
Defined.
