(* ===== verification/Derive.v ===== *)
(** The derive macro of cluster messages (src/ractor_cluster_derive/src): parsing and validation of an enum
    (parse.rs), its intermediate representation (ir.rs), and the [Message] implementation generated for it
    (codegen.rs), as the behaviour of the generated code.

    Syntax is that of [syn], as far as the macro looks at it.  The types of the fields are those of the
    user: [conv] gives their [BytesConvertable] implementation, on a common carrier [V] of values.  Reply
    ports live in a world in which the generated code adds bridges between typed ports and ports of bytes.
    The generated code is hygienic when no field begins with the prefix of its own variables, and the name
    of the reply port is none of the names that its bridge binds ([hygienic]). *)

From S2P Require Import Prelude Discard Job Bytes Serialization.
From stdpp Require Import pretty.

(** ** Syntax *)

(** A type: a path, whose segments may have generic arguments, or anything else *)
Inductive Ty :=
| TPath (segments : list (string * PathArguments))
| TOther (description : nat)
with PathArguments :=
| NoArguments
| AngleBracketed (args : list Ty)
| Parenthesized.

Inductive Fields :=
| FUnit
| FUnnamed (types : list Ty)
| FNamed (fields : list (string * Ty)).

(** An attribute: its path, and whether it is alone, has arguments or a value *)
Inductive Meta := MPath | MList | MNameValue.
Record Attribute := mkAttr { attr_path : string; attr_meta : Meta }.

Record Variant := mkVariant { var_ident : string; var_attrs : list Attribute; var_fields : Fields }.

Inductive Data := DEnum (variants : list Variant) | DStruct | DUnion.
Record DeriveInput := mkInput { ast_ident : string; ast_data : Data }.

(** ** ir.rs *)

Inductive FieldStyle := Tuple | Named.
Inductive VariantKind :=
| Cast
| Call (reply_port_generic_args : list Ty) (reply_port_field_name : string) (reply_port_index : nat).

Record ParsedVariant := mkParsed {
  ident : string;
  variant_tag : string;
  kind : VariantKind;
  field_style : FieldStyle;
  data_fields : list (string * Ty)
}.
Record ParsedEnum := mkEnum { enum_ident : string; variants : list ParsedVariant }.

(** ** parse.rs *)

Definition is_reply_port_type (ty : Ty) : bool :=
  match ty with
  | TPath segments => match last segments with Some (name, _) => bool_decide (name = "RpcReplyPort"%string) | None => false end
  | TOther _ => false
  end.

Definition check_rpc_attribute (v : Variant) : res bool :=
  match filter (λ a, attr_path a = "rpc"%string) (var_attrs v) with
  | [] => Ok false
  | [attr] =>
      match attr_meta attr with
      | MPath => Ok true
      | MList => Err "`#[rpc]` attribute does not accept arguments"
      | MNameValue => Err "`#[rpc]` attribute does not accept a value"
      end
  | _ => Err "Duplicate `#[rpc]` attribute on variant"
  end.

(** [format_ident!("field{}", i)] *)
Definition field_name (i : nat) : string := "field" +:+ pretty i.
Definition unnamed_fields (types : list Ty) : list (string * Ty) := imap (λ i ty, (field_name i, ty)) types.

Definition parse_cast_variant (v : Variant) : res ParsedVariant :=
  let '(fields, style) :=
    match var_fields v with
    | FUnit => ([], Tuple)
    | FUnnamed types => (unnamed_fields types, Tuple)
    | FNamed fields => (fields, Named)
    end in
  if existsb (λ f, is_reply_port_type f.2) fields then
    Err "Variant contains an `RpcReplyPort` field but is not marked with `#[rpc]`."
  else Ok (mkParsed (var_ident v) (var_ident v) Cast style fields).

Definition extract_reply_port_args (segments : list (string * PathArguments)) : res (list Ty) :=
  match last segments with
  | None => Err "Expected a type path with at least one segment (e.g., RpcReplyPort<T>)"
  | Some (_, AngleBracketed args) => Ok args
  | Some _ => Err "RpcReplyPort must have generic type arguments."
  end.

Definition parse_rpc_variant (v : Variant) : res ParsedVariant :=
  match var_fields v with
  | FUnit => Err "RPC calls must have at least one field: an `RpcReplyPort<T>`."
  | FUnnamed _ | FNamed _ =>
      let '(all_fields, style) :=
        match var_fields v with
        | FUnnamed types => (unnamed_fields types, Tuple)
        | FNamed fields => (fields, Named)
        | FUnit => ([], Tuple)
        end in
      let port_matches := omap (λ '(i, f), if is_reply_port_type f.2 then Some i else None) (imap pair all_fields) in
      match port_matches with
      | [] => Err "`#[rpc]` variant must contain exactly one `RpcReplyPort<T>` field."
      | [port_index] =>
          match all_fields !! port_index with
          | Some (name, TPath segments) =>
              match extract_reply_port_args segments with
              | Ok args =>
                  let data := omap (λ '(i, f), if i =? port_index then None else Some f) (imap pair all_fields) in
                  Ok (mkParsed (var_ident v) (var_ident v) (Call args name port_index) style data)
              | Err e => Err e
              | Panic => Panic
              end
          | _ => Panic
          end
      | _ => Err "`#[rpc]` variant must contain exactly one `RpcReplyPort<T>` field, but found multiple"
      end
  end.

Definition parse_variant (v : Variant) : res ParsedVariant :=
  match check_rpc_attribute v with
  | Ok true => parse_rpc_variant v
  | Ok false => parse_cast_variant v
  | Err e => Err e
  | Panic => Panic
  end.

(** [collect::<Result<Vec<_>, _>>] *)
Fixpoint collect {A} (l : list (res A)) : res (list A) :=
  match l with
  | [] => Ok []
  | r :: l =>
      match r with
      | Ok x => match collect l with Ok xs => Ok (x :: xs) | Err e => Err e | Panic => Panic end
      | Err e => Err e
      | Panic => Panic
      end
  end.

Definition parse_cluster_message (ast : DeriveInput) : res ParsedEnum :=
  match ast_data ast with
  | DEnum vs =>
      match collect (parse_variant <$> vs) with
      | Ok vs => Ok (mkEnum (ast_ident ast) vs)
      | Err e => Err e
      | Panic => Panic
      end
  | _ => Err "RactorClusterMessage can only be derived for enums, not structs or unions"
  end.

(** ** codegen.rs: the order of the fields *)

(** [build_ordered_bindings]: [None] if [data_fields[data_idx]] is out of bounds *)
Fixpoint ordered_from (n i data_idx : nat) (fields : list (string * Ty)) (port : string) (port_index : nat) :
  option (list string) :=
  match n with
  | 0 => Some []
  | S n =>
      if i =? port_index then cons port <$> ordered_from n (S i) data_idx fields port port_index
      else
        match fields !! data_idx with
        | Some (name, _) => cons name <$> ordered_from n (S i) (S data_idx) fields port port_index
        | None => None
        end
  end.
Definition build_ordered_bindings (fields : list (string * Ty)) (port : string) (port_index : nat) : option (list string) :=
  ordered_from (length fields + 1) 0 0 fields port port_index.

(** ** The generated code *)

Section generated.
Context {V : Type} (conv : Ty → BytesConvertable V).

(** The ports: the one of the caller, and those made by the generated code, which forward to another *)
Inductive Port :=
| Origin (timeout : option Z)
| ToTyped (target : nat) (ty : Ty) (timeout : option Z)
| ToBytes (target : nat) (ty : Ty) (timeout : option Z).
#[local] Abbreviation World := (list Port).

Definition port_timeout (p : Port) : option Z :=
  match p with Origin t | ToTyped _ _ t | ToBytes _ _ t => t end.
(** [RpcReplyPort::get_timeout] *)
Definition get_timeout (p : nat) (w : World) : option Z := (w !! p) ≫= port_timeout.

Inductive Arg := AVal (v : V) | APort (p : nat).

(** A message of the enum; the order of the fields of a struct variant does not matter *)
Inductive Value :=
| VTuple (name : string) (args : list Arg)
| VNamed (name : string) (fields : gmap string Arg).

Definition value_name (x : Value) : string := match x with VTuple n _ | VNamed n _ => n end.

(** What the pattern of an arm binds: [None] if the pattern does not fit the variant, which the compiler
    refuses *)
Definition binders (pv : ParsedVariant) : option (list string) :=
  match kind pv with
  | Cast => Some (data_fields pv).*1
  | Call _ port index => build_ordered_bindings (data_fields pv) port index
  end.
Definition bindings (pv : ParsedVariant) (x : Value) : option (gmap string Arg) :=
  match field_style pv, x with
  | Tuple, VTuple _ args =>
      names ← binders pv;
      if length names =? length args then Some (list_to_map (zip names args)) else None
  | Named, VNamed _ fields => Some fields
  | _, _ => None
  end.

(** [pack_args]: eight bytes of length and the bytes of the value; the capacity of a [Vec] is bounded *)
Definition pack_args (ty : Ty) (v : V) (data : list byte) : res (list byte) :=
  let arg_data := into_bytes (BytesConvertable := conv ty) v in
  if (Z.of_nat (length data) + (8 + Z.of_nat (length arg_data)) <=? isize_max)%Z
  then Ok (data ++ to_be_bytes 8 (N.of_nat (length arg_data)) ++ arg_data)
  else Err downcast_err.

Fixpoint pack_all (fields : list (string * Ty)) (env : gmap string Arg) (data : list byte) : res (list byte) :=
  match fields with
  | [] => Ok data
  | (name, ty) :: fields =>
      match env !! name with
      | Some (AVal v) =>
          match pack_args ty v data with
          | Ok data => pack_all fields env data
          | Err e => Err e
          | Panic => Panic
          end
      | _ => Panic
      end
  end.

(** [gen_serialize_port], [gen_deserialize_port]: a port that forwards to the given one *)
Definition gen_serialize_port (ty : Ty) (port : nat) : M World nat := λ w,
  (Ok (length w), w ++ [ToTyped port ty (get_timeout port w)]).
Definition gen_deserialize_port (ty : Ty) (port : nat) : M World nat := λ w,
  (Ok (length w), w ++ [ToBytes port ty (get_timeout port w)]).

Definition lift {S A} (r : res A) : M S A := λ s, (r, s).

Definition gen_serialize_arm (pv : ParsedVariant) (x : Value) : M World SerializedMessage :=
  match bindings pv x with
  | None => panic
  | Some env =>
      data ← lift (if decide (data_fields pv = []) then Ok [] else pack_all (data_fields pv) env []);
      match kind pv with
      | Cast => mret (SCast (variant_tag pv) data None)
      | Call args port _ =>
          match head args, env !! port with
          | Some ty, Some (APort p) => reply ← gen_serialize_port ty p; mret (SCall (variant_tag pv) data reply None)
          | _, _ => panic
          end
      end
  end.

(** [usize::checked_add], and [get] of a range *)
Definition checked_add (a b : N) : option N := if (a + b <? 2 ^ 64)%N then Some (a + b)%N else None.
Definition get_range (l : list byte) (from to : N) : option (list byte) :=
  if ((from <=? to) && (to <=? N.of_nat (length l)))%N then Some (take (N.to_nat (to - from)) (drop (N.to_nat from) l)) else None.

Definition unpack_arg (ty : Ty) (args : list byte) (ptr : N) : option (V * N) :=
  len_end ← checked_add ptr 8;
  encoded_len ← get_range args ptr len_end;
  data_end ← checked_add len_end (from_be_bytes encoded_len);
  data ← get_range args len_end data_end;
  v ← from_bytes (BytesConvertable := conv ty) data;
  Some (v, data_end).

Fixpoint unpack_all (fields : list (string * Ty)) (args : list byte) (ptr : N) : option (list V * N) :=
  match fields with
  | [] => Some ([], ptr)
  | (_, ty) :: fields =>
      '(v, ptr) ← unpack_arg ty args ptr;
      '(vs, ptr) ← unpack_all fields args ptr;
      Some (v :: vs, ptr)
  end.

(** The fields of the variant, if the arguments are exactly their encodings *)
Definition unpack_fields (pv : ParsedVariant) (args : list byte) : option (gmap string Arg) :=
  if decide (data_fields pv = []) then if decide (args = []) then Some ∅ else None
  else
    '(vs, ptr) ← unpack_all (data_fields pv) args 0;
    if (ptr =? N.of_nat (length args))%N then Some (list_to_map (zip (data_fields pv).*1 (AVal <$> vs))) else None.

(** The constructor, with its fields bound *)
Definition construct (pv : ParsedVariant) (names : option (list string)) (env : gmap string Arg) : M World Value :=
  match field_style pv with
  | Tuple =>
      match names ≫= mapM (λ n, env !! n) with
      | Some args => mret (VTuple (ident pv) args)
      | None => panic
      end
  | Named => mret (VNamed (ident pv) env)
  end.

Definition gen_cast_deserialize_arm (pv : ParsedVariant) (args : list byte) : M World Value :=
  match unpack_fields pv args with
  | Some env => construct pv (Some (data_fields pv).*1) env
  | None => throw downcast_err
  end.

Definition gen_call_deserialize_arm (pv : ParsedVariant) (args : list byte) (reply : nat) : M World Value :=
  match kind pv with
  | Cast => panic
  | Call generic_args port_name index =>
      match unpack_fields pv args with
      | None => throw downcast_err
      | Some env =>
          match head generic_args with
          | None => panic
          | Some ty =>
              target_port ← gen_deserialize_port ty reply;
              match field_style pv with
              | Tuple =>
                  construct pv (build_ordered_bindings (data_fields pv) "__target_port" index)
                    (<["__target_port"%string := APort target_port]> env)
              | Named => construct pv None (<[port_name := APort target_port]> env)
              end
          end
      end
  end.

Definition is_cast (pv : ParsedVariant) : bool := match kind pv with Cast => true | Call _ _ _ => false end.

(** [expand_cluster_message] *)
Definition serialize_enum (e : ParsedEnum) (x : Value) : M World SerializedMessage :=
  match List.find (λ pv, bool_decide (ident pv = value_name x)) (variants e) with
  | Some pv => gen_serialize_arm pv x
  | None => panic
  end.

Definition deserialize_enum (e : ParsedEnum) (m : SerializedMessage) : M World Value :=
  match m with
  | SCast variant args _ =>
      match List.find (λ pv, is_cast pv && bool_decide (variant_tag pv = variant)) (variants e) with
      | Some pv => gen_cast_deserialize_arm pv args
      | None => throw downcast_err
      end
  | SCall variant args reply _ =>
      match List.find (λ pv, negb (is_cast pv) && bool_decide (variant_tag pv = variant)) (variants e) with
      | Some pv => gen_call_deserialize_arm pv args reply
      | None => throw downcast_err
      end
  | SCallReply _ _ => throw downcast_err
  end.

(** ** Replies *)

Inductive Payload := PValue (v : V) | PBytes (l : list byte).

(** What reaches the port of the caller when a payload is sent to a port [elapsed] after it was made: the
    tasks of the bridges convert it, and give up at the timeout. *)
Fixpoint reply_on (fuel : nat) (w : World) (elapsed : Z) (p : nat) (x : Payload) : option (nat * Payload) :=
  match fuel, w !! p with
  | S fuel, Some port =>
      if match port_timeout port with Some t => (elapsed <=? t)%Z | None => true end then
        match port, x with
        | Origin _, _ => Some (p, x)
        | ToTyped target ty _, PBytes l =>
            match from_bytes (BytesConvertable := conv ty) l with
            | Some v => reply_on fuel w elapsed target (PValue v)
            | None => None
            end
        | ToBytes target ty _, PValue v => reply_on fuel w elapsed target (PBytes (into_bytes (BytesConvertable := conv ty) v))
        | _, _ => None
        end
      else None
  | _, _ => None
  end.
End generated.

(** ** What the parser accepts *)

Definition all_fields (v : Variant) : list (string * Ty) :=
  match var_fields v with FUnit => [] | FUnnamed types => unnamed_fields types | FNamed fields => fields end.
Definition style_of (v : Variant) : FieldStyle := match var_fields v with FNamed _ => Named | _ => Tuple end.
Definition is_port (f : string * Ty) : bool := is_reply_port_type f.2.
Definition rpc_attributes (v : Variant) : list Attribute := filter (λ a, attr_path a = "rpc"%string) (var_attrs v).

(** A variant and its representation: a cast has no reply port and no [#[rpc]]; a call has one plain
    [#[rpc]] and one reply port, which is taken out of its fields at its place and has generic arguments. *)
Inductive parsed_as (v : Variant) : ParsedVariant → Prop :=
| pa_cast : rpc_attributes v = [] → existsb is_port (all_fields v) = false →
    parsed_as v (mkParsed (var_ident v) (var_ident v) Cast (style_of v) (all_fields v))
| pa_call a before port segments after args : rpc_attributes v = [a] → attr_meta a = MPath →
    all_fields v = before ++ (port, TPath segments) :: after → is_reply_port_type (TPath segments) = true →
    existsb is_port (before ++ after) = false → (∃ name, last segments = Some (name, AngleBracketed args)) →
    parsed_as v (mkParsed (var_ident v) (var_ident v) (Call args port (length before)) (style_of v) (before ++ after)).

Lemma parsed_as_functional v pv pv' : parsed_as v pv → parsed_as v pv' → pv = pv'.
Proof.
  intros H1 H2. destruct H1 as [Hr1 Hn1|a1 b1 p1 s1 l1 g1 Hr1 _ Hf1 Hp1 Hn1 [m1 Hl1]], H2 as [Hr2 Hn2|a2 b2 p2 s2 l2 g2 Hr2 _ Hf2 Hp2 Hn2 [m2 Hl2]]; try congruence.
  rewrite existsb_app in Hn1, Hn2. apply orb_false_iff in Hn1 as [Hb1 Ha1], Hn2 as [Hb2 Ha2].
  rewrite Hf1 in Hf2. clear Hr1 Hr2 Hf1.
  assert (b1 = b2 ∧ (p1, TPath s1) = (p2, TPath s2) ∧ l1 = l2) as (-> & Hp & ->); [|simplify_eq; by f_equal].
  assert (∀ p s l, is_reply_port_type (TPath s) = true → existsb is_port ((p, TPath s) :: l) = false → False) as Hno.
  { intros p s l Hs He. cbn [existsb] in He. unfold is_port at 1 in He. cbn [snd] in He. by rewrite Hs in He. }
  revert b2 Hb2 Hf2. induction b1 as [|f b1 IH]; intros [|f' b2] Hb2 Hf2; cbn [app] in Hf2; injection Hf2 as Hf Hf2.
  - by subst.
  - subst f'. by destruct (Hno p1 s1 b2).
  - subst f. by destruct (Hno p2 s2 b1).
  - cbn [existsb] in Hb1, Hb2. apply orb_false_iff in Hb1 as [_ Hb1], Hb2 as [_ Hb2].
    destruct (IH Hb1 b2 Hb2 Hf2) as (-> & ? & ?). by subst.
Qed.

(** The indices of the ports, and the fields without one of them *)
Lemma port_matches_from (fields : list (string * Ty)) k :
  match omap (λ '(i, f), if is_reply_port_type f.2 then Some i else None) (imap (λ i f, (k + i, f)) fields) with
  | [] => existsb is_port fields = false
  | [j] => ∃ before f after, fields = before ++ f :: after ∧ j = k + length before ∧ is_port f = true ∧
      existsb is_port (before ++ after) = false
  | _ => 2 ≤ countb is_port fields
  end.
Proof.
  revert k. induction fields as [|f fields IH]; intros k; [done|]. rewrite imap_cons. cbn [omap list_omap].
  rewrite Nat.add_0_r. specialize (IH (S k)).
  assert (imap ((λ i f, (k + i, f)) ∘ S) fields = imap (λ i f, (S k + i, f)) fields) as ->.
  { apply imap_ext. intros i x _. cbn. by rewrite Nat.add_succ_r. }
  cbn [existsb countb]. change (is_reply_port_type f.2) with (is_port f). destruct (is_port f) eqn:Ef.
  - destruct (omap _ _) as [|j [|j' l]] eqn:El.
    + exists [], f, fields. rewrite Nat.add_0_r. by split_and!.
    + destruct IH as (before & g & after & -> & _ & Hg & _). rewrite countb_app. cbn. rewrite Hg. lia.
    + lia.
  - destruct (omap _ _) as [|j [|j' l]] eqn:El; [done| |lia].
    destruct IH as (before & g & after & -> & -> & Hg & Hn). exists (f :: before), g, after. cbn. split_and!; [done|lia|done|]. by rewrite Ef.
Qed.

Lemma remove_from (before : list (string * Ty)) f after k :
  omap (λ '(i, f), if i =? k + length before then None else Some f) (imap (λ i f, (k + i, f)) (before ++ f :: after)) =
  before ++ after.
Proof.
  assert (∀ (l : list (string * Ty)) j n, (∀ i, i < length l → j + i ≠ n) →
    omap (λ '(i, f), if i =? n then None else Some f) (imap (λ i f, (j + i, f)) l) = l) as Hkeep.
  { induction l as [|x l IH]; intros j n Hn; [done|]. rewrite imap_cons. cbn [omap list_omap].
    rewrite Nat.add_0_r, (proj2 (Nat.eqb_neq _ _)) by (specialize (Hn 0); cbn in Hn; lia). f_equal.
    rewrite <-(IH (S j) n) at 2 by (intros i Hi; specialize (Hn (S i)); cbn in Hn; lia).
    f_equal. apply imap_ext. intros i y _. cbn. by rewrite Nat.add_succ_r. }
  rewrite imap_app, omap_app, imap_cons. cbn [omap list_omap compose]. rewrite Nat.add_0_r, Nat.eqb_refl.
  rewrite Hkeep by (intros; lia). f_equal.
  rewrite <-(Hkeep after (k + S (length before)) (k + length before)) at 2 by (intros; lia).
  f_equal. apply imap_ext. intros i y _. cbn. f_equal. lia.
Qed.

Lemma port_unique (before before' : list (string * Ty)) f f' after after' :
  before ++ f :: after = before' ++ f' :: after' → is_port f = true → is_port f' = true →
  existsb is_port (before ++ after) = false → f = f'.
Proof.
  intros E Hf Hf' Hn. revert before' E. induction before as [|g before IH]; intros [|g' before'] E; cbn in *; simplify_eq.
  - done.
  - rewrite existsb_app in Hn. cbn in Hn. rewrite Hf', orb_true_r in Hn. done.
  - rewrite Hf' in Hn. done.
  - apply orb_false_iff in Hn as [_ Hn]. by eapply IH.
Qed.

(** The fields of a variant marked [#[rpc]] *)
Lemma rpc_fields_spec v a : rpc_attributes v = [a] → attr_meta a = MPath →
  match
    match omap (λ '(i, f), if is_reply_port_type f.2 then Some i else None) (imap pair (all_fields v)) with
    | [] => Err "`#[rpc]` variant must contain exactly one `RpcReplyPort<T>` field."
    | [port_index] =>
        match all_fields v !! port_index with
        | Some (name, TPath segments) =>
            match extract_reply_port_args segments with
            | Ok args =>
                Ok (mkParsed (var_ident v) (var_ident v) (Call args name port_index) (style_of v)
                  (omap (λ '(i, f), if i =? port_index then None else Some f) (imap pair (all_fields v))))
            | Err e => Err e
            | Panic => Panic
            end
        | _ => Panic
        end
    | _ => Err "`#[rpc]` variant must contain exactly one `RpcReplyPort<T>` field, but found multiple"
    end
  with
  | Ok pv => parsed_as v pv
  | Err _ => ∀ pv, ¬ parsed_as v pv
  | Panic => False
  end.
Proof.
  intros Ea Em. pose proof (port_matches_from (all_fields v) 0) as Hm. cbn [Nat.add] in Hm.
  change (imap (λ i f, (i, f)) (all_fields v)) with (imap pair (all_fields v)) in Hm.
  assert (∀ pv, parsed_as v pv → countb is_port (all_fields v) = 1) as Hone.
  { intros pv Hpv. inversion Hpv as [|? before ? ? after ? ? ? Hall Hp Hn]; [congruence|].
    rewrite Hall, countb_app. cbn [countb]. unfold is_port at 2. cbn [snd]. rewrite Hp. rewrite existsb_app in Hn.
    apply orb_false_iff in Hn as [Hn1 Hn2].
    rewrite !(proj2 (countb_zero is_port _)); [done|..]; intros x Hx; apply not_true_iff_false; intros Ht.
    - rewrite (proj2 (existsb_elem_of is_port after)) in Hn2; [done|]. eauto.
    - rewrite (proj2 (existsb_elem_of is_port before)) in Hn1; [done|]. eauto. }
  destruct (omap _ (imap pair (all_fields v))) as [|j [|j' l]].
  - intros pv Hpv%Hone. assert (countb is_port (all_fields v) = 0); [|lia]. apply countb_zero. intros x Hx.
    apply not_true_iff_false. intros Ht. rewrite (proj2 (existsb_elem_of is_port _)) in Hm; [done|]. eauto.
  - destruct Hm as (before & [name ty] & after & Hall & -> & Hp & Hn). rewrite Hall, list_lookup_middle by done.
    unfold is_port in Hp. cbn [snd] in Hp. destruct ty as [segments|]; [|done].
    pose proof (remove_from before (name, TPath segments) after 0) as Hr. cbn [Nat.add] in Hr.
    change (imap (λ i f, (i, f)) (before ++ (name, TPath segments) :: after)) with
      (imap pair (before ++ (name, TPath segments) :: after)) in Hr. rewrite Hr.
    unfold extract_reply_port_args. destruct (last segments) as [[sn [|args|]]|] eqn:El; [|by eapply pa_call; eauto| |];
      intros pv Hpv; inversion Hpv as [|? before' ? segments' after' ? ? ? Hall' Hp' Hn' [nm Hl']]; try congruence;
      rewrite Hall in Hall'; (apply port_unique in Hall' as [= -> ->]; [congruence|exact Hp|exact Hp'|exact Hn]).
  - intros pv Hpv%Hone. lia.
Qed.

Lemma parse_variant_spec v :
  match parse_variant v with
  | Ok pv => parsed_as v pv
  | Err _ => ∀ pv, ¬ parsed_as v pv
  | Panic => False
  end.
Proof.
  unfold parse_variant, check_rpc_attribute. fold (rpc_attributes v).
  destruct (rpc_attributes v) as [|a [|a' l]] eqn:Ea.
  - unfold parse_cast_variant.
    assert ((match var_fields v with FUnit => ([], Tuple) | FUnnamed types => (unnamed_fields types, Tuple)
      | FNamed fields => (fields, Named) end) = (all_fields v, style_of v)) as ->
      by (unfold all_fields, style_of; by destruct (var_fields v)).
    change (λ f : string * Ty, is_reply_port_type f.2) with is_port.
    destruct (existsb is_port (all_fields v)) eqn:Ep; [|by constructor]. intros pv Hpv. inversion Hpv; congruence.
  - destruct (attr_meta a) eqn:Em; [|intros pv Hpv; inversion Hpv; congruence..]. unfold parse_rpc_variant.
    assert (var_fields v = FUnit → ∀ pv, ¬ parsed_as v pv) as Hunit.
    { intros Hu pv Hpv. inversion Hpv as [|? before ? ? after ? ? ? Hall]; [congruence|]. unfold all_fields in Hall. rewrite Hu in Hall.
      by destruct before. }
    pose proof (rpc_fields_spec v a Ea Em) as Hspec. unfold all_fields, style_of in Hspec.
    destruct (var_fields v); [by apply Hunit|exact Hspec|exact Hspec].
  - intros pv Hpv. inversion Hpv; congruence.
Qed.

(** ** Encoding and decoding fields *)

Section codec.
Context {V : Type} (conv : Ty → BytesConvertable V).
#[local] Abbreviation Env := (gmap string (@Arg V)).

Definition frame (ty : Ty) (v : V) : list byte :=
  let data := into_bytes (BytesConvertable := conv ty) v in to_be_bytes 8 (N.of_nat (length data)) ++ data.

Definition arg_size (ty : Ty) (a : option (@Arg V)) : Z :=
  match a with Some (AVal v) => Z.of_nat (length (frame ty v)) | _ => 0 end.
Definition fields_size (env : Env) (fields : list (string * Ty)) : Z :=
  foldr (λ f n, (arg_size f.2 (env !! f.1) + n)%Z) 0%Z fields.

(** The values bound to the fields *)
Definition holds (env : Env) (fields : list (string * Ty)) (vs : list V) : Prop :=
  Forall2 (λ f v, env !! f.1 = Some (AVal v) ∧ valid (BytesConvertable := conv f.2) v) fields vs.

Lemma length_frame ty v : length (frame ty v) = 8 + length (into_bytes (BytesConvertable := conv ty) v).
Proof. unfold frame. by rewrite length_app, length_to_be_bytes. Qed.

Lemma fields_size_nonneg env fields : (0 <= fields_size env fields)%Z.
Proof.
  induction fields as [|f fields IH]; [done|]. cbn [fields_size foldr]. fold (fields_size env fields).
  assert (0 <= arg_size f.2 (env !! f.1))%Z; [|lia].
  unfold arg_size. destruct (env !! f.1) as [[]|]; lia.
Qed.

Lemma pack_all_spec env fields vs data : holds env fields vs →
  pack_all conv fields env data =
  if (Z.of_nat (length data) + fields_size env fields <=? isize_max)%Z
  then Ok (data ++ concat (zip_with frame fields.*2 vs))
  else if decide (fields = []) then Ok data else Err downcast_err.
Proof.
  intros H. revert data. induction H as [|[name ty] v fields vs [Hn Hv] H IH]; intros data; cbn [pack_all fmap list_fmap].
  { rewrite decide_True by done. cbn. rewrite app_nil_r. by case_match. }
  cbn [fst snd] in Hn. rewrite Hn, decide_False by done. unfold pack_args.
  cbn [fields_size foldr fst snd]. rewrite Hn. cbn [arg_size]. rewrite length_frame. fold (fields_size env fields).
  pose proof (fields_size_nonneg env fields) as Hpos.
  destruct (Z.leb_spec (Z.of_nat (length data) + (8 + Z.of_nat (length (into_bytes (BytesConvertable := conv ty) v)))) isize_max).
  - rewrite IH. rewrite !length_app, length_to_be_bytes.
    destruct (Z.leb_spec (Z.of_nat (length data) + (Z.of_nat (8 + length (into_bytes (BytesConvertable := conv ty) v)) + fields_size env fields)) isize_max).
    + rewrite (proj2 (Z.leb_le _ _)) by lia. cbn [fmap list_fmap zip_with concat snd]. unfold frame. by rewrite <-!app_assoc.
    + rewrite (proj2 (Z.leb_gt _ _)) by lia. destruct (decide (fields = [])) as [->|]; [|done].
      cbn in *. lia.
  - rewrite (proj2 (Z.leb_gt _ _)) by lia. done.
Qed.

Lemma get_range_middle (pre mid post : list byte) :
  get_range (pre ++ mid ++ post) (N.of_nat (length pre)) (N.of_nat (length pre + length mid)) = Some mid.
Proof.
  unfold get_range. rewrite (proj2 (N.leb_le _ _)) by lia. rewrite (proj2 (N.leb_le _ _)) by (rewrite !length_app; lia).
  cbn [andb]. rewrite Nat2N.id, drop_app_length. f_equal.
  replace (N.to_nat _) with (length mid) by lia. apply take_app_length.
Qed.

Lemma unpack_arg_frame ty v (pre post : list byte) : valid (BytesConvertable := conv ty) v →
  (Z.of_nat (length pre + length (frame ty v)) <= isize_max)%Z →
  unpack_arg conv ty (pre ++ frame ty v ++ post) (N.of_nat (length pre)) = Some (v, N.of_nat (length pre + length (frame ty v))).
Proof.
  intros Hv Hs. unfold unpack_arg, checked_add. rewrite length_frame in *. unfold isize_max in Hs.
  rewrite (proj2 (N.ltb_lt _ _)) by lia. cbn [mbind option_bind].
  replace (N.of_nat (length pre) + 8)%N with (N.of_nat (length pre + 8)) by lia.
  set (data := into_bytes v) in *. unfold frame. fold data. set (hdr := to_be_bytes 8 (N.of_nat (length data))).
  assert (length hdr = 8) as Hh by apply length_to_be_bytes.
  rewrite <-(app_assoc hdr data post). rewrite <-Hh at 1. rewrite get_range_middle. cbn [mbind option_bind].
  assert (from_be_bytes hdr = N.of_nat (length data)) as ->
    by (apply from_to_be_bytes_small; change (256 ^ N.of_nat 8)%N with (2 ^ 64)%N; lia).
  replace (N.of_nat (length pre + 8) + N.of_nat (length data))%N with (N.of_nat (length pre + (8 + length data))) by lia.
  rewrite (proj2 (N.ltb_lt _ _)) by lia. cbn [mbind option_bind].
  pose proof (get_range_middle (pre ++ hdr) data post) as Hg. rewrite <-app_assoc, length_app, Hh, <-Nat.add_assoc in Hg.
  rewrite Hg. cbn [mbind option_bind]. unfold data. by rewrite from_into.
Qed.

Lemma unpack_all_frames env fields vs (pre post : list byte) : holds env fields vs →
  (Z.of_nat (length pre + length (concat (zip_with frame fields.*2 vs))) <= isize_max)%Z →
  unpack_all conv fields (pre ++ concat (zip_with frame fields.*2 vs) ++ post) (N.of_nat (length pre)) =
  Some (vs, N.of_nat (length pre + length (concat (zip_with frame fields.*2 vs)))).
Proof.
  intros H. revert pre. induction H as [|[name ty] v fields vs [Hn Hv] H IH]; intros pre Hs; cbn [unpack_all fmap list_fmap].
  { cbn. by rewrite Nat.add_0_r. }
  cbn [fmap list_fmap snd zip_with concat] in *. rewrite <-app_assoc, unpack_arg_frame by (try done; rewrite length_app in Hs; lia).
  cbn [mbind option_bind]. specialize (IH (pre ++ frame ty v)). rewrite <-app_assoc, !length_app in IH. rewrite length_app in *.
  rewrite IH by lia. cbn [mbind option_bind]. do 2 f_equal. lia.
Qed.

Lemma holds_size env fields vs : holds env fields vs →
  fields_size env fields = Z.of_nat (length (concat (zip_with frame fields.*2 vs))).
Proof.
  induction 1 as [|[name ty] v fields vs [Hn Hv] H IH]; [done|]. cbn [fields_size foldr fst snd] in *.
  fold (fields_size env fields). rewrite Hn, IH. cbn [arg_size fmap list_fmap zip_with concat snd]. rewrite length_app. lia.
Qed.

(** The map of the fields decoded *)
Lemma holds_map env fields vs name : holds env fields vs → NoDup fields.*1 →
  (list_to_map (zip fields.*1 (AVal <$> vs)) : Env) !! name = if bool_decide (name ∈ fields.*1) then env !! name else None.
Proof.
  intros H Hnd. induction H as [|[n ty] v fields vs [Hn Hv] H IH]; [done|]. cbn [fmap list_fmap fst zip zip_with list_to_map foldr] in *.
  apply NoDup_cons in Hnd as [Hnin Hnd]. cbn [uncurry].
  destruct (decide (name = n)) as [->|Hne].
  - rewrite lookup_insert_eq, bool_decide_true by (by left). done.
  - rewrite lookup_insert_ne by done. etrans; [apply IH, Hnd|].
    erewrite bool_decide_ext; [reflexivity|]. rewrite elem_of_cons. naive_solver.
Qed.

(** What is packed is unpacked, as the fields of the same names. *)
Lemma pack_unpack env pv vs : holds env (data_fields pv) vs → NoDup (data_fields pv).*1 →
  if (fields_size env (data_fields pv) <=? isize_max)%Z then
    ∃ bytes env', (if decide (data_fields pv = []) then Ok [] else pack_all conv (data_fields pv) env []) = Ok bytes ∧
      unpack_fields conv pv bytes = Some env' ∧
      ∀ name, env' !! name = if bool_decide (name ∈ (data_fields pv).*1) then env !! name else None
  else (if decide (data_fields pv = []) then Ok [] else pack_all conv (data_fields pv) env []) = Err downcast_err.
Proof.
  intros H Hnd. unfold unpack_fields. rewrite (pack_all_spec _ _ _ _ H). cbn [length app].
  change (Z.of_nat 0 + fields_size env (data_fields pv))%Z with (fields_size env (data_fields pv)).
  destruct (Z.leb_spec (fields_size env (data_fields pv)) isize_max) as [Hs|Hs].
  - destruct (decide (data_fields pv = [])) as [E|E].
    + exists [], ∅. rewrite decide_True by done. split_and!; [done|done|]. intros name. by rewrite E.
    + eexists _, _. split; [reflexivity|]. split; [|intros name; by apply holds_map].
      pose proof (unpack_all_frames env (data_fields pv) vs [] [] H) as Hu. rewrite app_nil_r in Hu. cbn [app length Nat.add] in Hu.
      change (N.of_nat 0) with 0%N in Hu. rewrite Hu by (rewrite <-(holds_size _ _ _ H); done). cbn [mbind option_bind].
      by rewrite N.eqb_refl.
  - destruct (decide (data_fields pv = [])) as [E|E]; [|done]. rewrite E in Hs. cbn in Hs. unfold isize_max in Hs. lia.
Qed.

Lemma ordered_from_after n k i fields port index : index < i → n + k = length fields →
  ordered_from n i k fields port index = Some (drop k fields.*1).
Proof.
  revert i k. induction n as [|n IH]; intros i k Hi Hn; cbn [ordered_from].
  { rewrite drop_ge; [done|]. rewrite length_fmap. lia. }
  rewrite (proj2 (Nat.eqb_neq _ _)) by lia. destruct (fields !! k) as [[name ty]|] eqn:E; [|apply lookup_ge_None_1 in E; lia].
  rewrite IH by lia. cbn. f_equal. symmetry. apply drop_S. by rewrite list_lookup_fmap, E.
Qed.

Lemma ordered_from_before before after port k : k ≤ length before →
  ordered_from (length before - k + 1 + length after) k k (before ++ after) port (length before) =
  Some (drop k before.*1 ++ port :: after.*1).
Proof.
  intros Hk. remember (length before - k) as d eqn:Ed. revert k Hk Ed. induction d as [|d IH]; intros k Hk Ed.
  - replace k with (length before) by lia. cbn [Nat.add ordered_from]. rewrite Nat.eqb_refl.
    rewrite ordered_from_after by (rewrite ?length_app; lia).
    rewrite fmap_app, drop_app_length', (drop_ge before.*1) by (rewrite length_fmap; lia). done.
  - cbn [Nat.add ordered_from]. rewrite (proj2 (Nat.eqb_neq _ _)) by lia. rewrite lookup_app_l by lia.
    destruct (before !! k) as [[name ty]|] eqn:E; [|apply lookup_ge_None_1 in E; lia].
    rewrite IH by lia. cbn. f_equal. rewrite (drop_S before.*1 name k); [done|]. by rewrite list_lookup_fmap, E.
Qed.

(** [build_ordered_bindings] puts the port back to its place. *)
Lemma build_ordered before after port :
  build_ordered_bindings (before ++ after) port (length before) = Some (before.*1 ++ port :: after.*1).
Proof.
  unfold build_ordered_bindings. rewrite length_app.
  replace (length before + length after + 1) with (length before - 0 + 1 + length after) by lia.
  rewrite ordered_from_before by lia. done.
Qed.

(** ** Messages of the enum *)

(** The type that a reply port carries *)
Definition reply_type (ty : Ty) : option Ty :=
  match ty with TPath segments => match last segments with Some (_, AngleBracketed [t]) => Some t | _ => None end | _ => None end.

Definition arg_ok (w : list Port) (ty : Ty) (a : @Arg V) : Prop :=
  match a with
  | AVal v => is_reply_port_type ty = false ∧ valid (BytesConvertable := conv ty) v
  | APort p => is_reply_port_type ty = true ∧ ∃ t, w !! p = Some (Origin t)
  end.

(** A value of a variant *)
Definition typed (w : list Port) (v : Variant) (x : @Value V) : Prop :=
  match var_fields v, x with
  | FNamed fields, VNamed name m =>
      name = var_ident v ∧ (∀ n, n ∈ dom m ↔ n ∈ fields.*1) ∧
      ∀ n ty a, (n, ty) ∈ fields → m !! n = Some a → arg_ok w ty a
  | FUnnamed types, VTuple name args => name = var_ident v ∧ Forall2 (arg_ok w) types args
  | FUnit, VTuple name args => name = var_ident v ∧ args = []
  | _, _ => False
  end.

(** The size of its encoding *)
Definition value_size (v : Variant) (x : @Value V) : Z :=
  match x with
  | VTuple _ args => foldr Z.add 0%Z (zip_with (λ f a, arg_size f.2 (Some a)) (all_fields v) args)
  | VNamed _ m => fields_size m (all_fields v)
  end.

(** A port that stands for another: it has the same timeout, and a reply to it reaches the other in time or
    not at all. *)
Definition stands_for (w w' : list Port) (ty : Ty) (p q : nat) : Prop :=
  get_timeout q w' = get_timeout p w ∧
  ∀ elapsed v, valid (BytesConvertable := conv ty) v →
    reply_on conv 3 w' elapsed q (PValue v) =
    if match get_timeout p w with Some t => (elapsed <=? t)%Z | None => true end then Some (p, PValue v) else None.

Definition same_arg (w w' : list Port) (ty : Ty) (a b : @Arg V) : Prop :=
  match a, b with
  | AVal v, AVal v' => v' = v
  | APort p, APort q => ∃ t, reply_type ty = Some t ∧ stands_for w w' t p q
  | _, _ => False
  end.

Definition same_value (w w' : list Port) (v : Variant) (x y : @Value V) : Prop :=
  match x, y with
  | VTuple n args, VTuple n' args' => n' = n ∧ length args' = length args ∧
      ∀ i f a b, all_fields v !! i = Some f → args !! i = Some a → args' !! i = Some b → same_arg w w' f.2 a b
  | VNamed n m, VNamed n' m' => n' = n ∧ dom m' = dom m ∧
      ∀ name ty a b, (name, ty) ∈ all_fields v → m !! name = Some a → m' !! name = Some b → same_arg w w' ty a b
  | _, _ => False
  end.

(** The names that the bridge of a reply port binds *)
Definition bridge_names : list string := ["tx"; "rx"; "o_timeout"; "timeout"; "result"; "typed_result"]%string.

(** What the compiler checks of the enum and of the generated code: names are distinct, reply ports carry
    one type, and the name of a reply port is not captured.  Names that begin with [__] are those of the
    generated code. *)
Record hygienic (v : Variant) : Prop := {
  hy_names : NoDup (all_fields v).*1;
  hy_prefix f : f ∈ all_fields v → String.prefix "__" f.1 = false;
  hy_port f : f ∈ all_fields v → is_port f = true → (f.1 ∉ bridge_names) ∧ is_Some (reply_type f.2)
}.

Lemma bridge_stands_for (w : list Port) p t ty : w !! p = Some (Origin t) →
  let w1 := w ++ [ToTyped p ty (get_timeout p w)] in
  let w2 := w1 ++ [ToBytes (length w) ty (get_timeout (length w) w1)] in
  stands_for w w2 ty p (length w1).
Proof.
  intros Hp w1 w2. assert (get_timeout p w = t) as Ht by (unfold get_timeout; by rewrite Hp).
  assert (w1 !! length w = Some (ToTyped p ty t)) as H1 by (unfold w1; by rewrite list_lookup_middle, Ht).
  assert (get_timeout (length w) w1 = t) as Ht1 by (unfold get_timeout; by rewrite H1).
  assert (w2 !! length w1 = Some (ToBytes (length w) ty t)) as H2 by (unfold w2; by rewrite list_lookup_middle, Ht1).
  assert (w2 !! length w = Some (ToTyped p ty t)) as H3.
  { unfold w2. rewrite lookup_app_l; [done|]. unfold w1. rewrite length_app. cbn. lia. }
  assert (w2 !! p = Some (Origin t)) as H4.
  { apply lookup_lt_Some in Hp as Hlt. unfold w2, w1. rewrite <-app_assoc, lookup_app_l; done. }
  split; [unfold get_timeout; by rewrite H2, Hp|]. intros elapsed v Hv. rewrite Ht.
  cbn [reply_on]. rewrite H2. cbn [port_timeout]. destruct (match t with Some t0 => (elapsed <=? t0)%Z | None => true end) eqn:E; [|done].
  rewrite H3. cbn [port_timeout]. rewrite E, from_into by done. rewrite H4. cbn [port_timeout]. by rewrite E.
Qed.

Lemma unnamed_types types : (unnamed_fields types).*2 = types.
Proof.
  apply list_eq. intros i. unfold unnamed_fields. rewrite list_lookup_fmap, list_lookup_imap. by destruct (types !! i).
Qed.

Lemma zip_env_lookup (names : list string) (args : list (@Arg V)) i n : NoDup names → length names = length args →
  names !! i = Some n → (list_to_map (zip names args) : Env) !! n = args !! i.
Proof.
  intros Hnd Hlen Hi. destruct (lookup_lt_is_Some_2 args i) as [a Ha].
  { rewrite <-Hlen. by eapply lookup_lt_Some. }
  rewrite Ha. apply elem_of_list_to_map_1; [rewrite fst_zip by lia; done|].
  apply list_elem_of_lookup. exists i. by rewrite lookup_zip_with, Hi, Ha.
Qed.

Lemma parsed_binders v pv : parsed_as v pv → binders pv = Some (all_fields v).*1.
Proof.
  intros []; unfold binders; cbn [kind data_fields]; [done|]. rewrite build_ordered.
  match goal with H : all_fields v = _ |- _ => rewrite H end. by rewrite fmap_app.
Qed.

Lemma size_of_args env fields (args : list (@Arg V)) : length fields = length args →
  (∀ i f, fields !! i = Some f → env !! f.1 = args !! i) →
  fields_size env fields = foldr Z.add 0%Z (zip_with (λ f a, arg_size f.2 (Some a)) fields args).
Proof.
  revert args. induction fields as [|f fields IH]; intros [|a args] Hl Hi; try done. cbn [fields_size foldr zip_with].
  fold (fields_size env fields). rewrite (Hi 0 f eq_refl), (IH args); [done|by injection Hl|]. intros i g Hg. by apply (Hi (S i)).
Qed.

(** The pattern of the arm of a variant binds its fields. *)
Lemma typed_bindings w v pv x : typed w v x → parsed_as v pv → NoDup (all_fields v).*1 →
  ∃ env, bindings pv x = Some env ∧ (∀ n, is_Some (env !! n) ↔ n ∈ (all_fields v).*1) ∧
    (∀ n ty a, (n, ty) ∈ all_fields v → env !! n = Some a → arg_ok w ty a) ∧
    fields_size env (all_fields v) = value_size v x ∧ value_name x = var_ident v.
Proof.
  intros Ht Hp Hnd. pose proof (parsed_binders v pv Hp) as Hb.
  assert (field_style pv = style_of v) as Hst by (by destruct Hp). unfold bindings. rewrite Hst.
  unfold style_of, typed in *. destruct (var_fields v) as [|types|fields] eqn:Ef; destruct x as [name args|name m]; try done.
  - destruct Ht as [-> ->]. assert (all_fields v = []) as Hall by (unfold all_fields; by rewrite Ef). rewrite Hb, Hall. cbn.
    eexists. split; [reflexivity|]. split_and!; [|by intros ? ? ? ?%not_elem_of_nil| |done].
    + intros n. split; [by intros [? ?]|by intros ?%not_elem_of_nil].
    + unfold value_size. by rewrite Hall.
  - destruct Ht as [-> Hargs]. assert (all_fields v = unnamed_fields types) as Hall by (unfold all_fields; by rewrite Ef).
    assert (length (all_fields v) = length args) as Hlen.
    { rewrite Hall. unfold unnamed_fields. rewrite length_imap. by eapply Forall2_length. }
    assert (length (all_fields v).*1 = length args) as Hlen1 by (by rewrite length_fmap). rewrite Hb. cbn [mbind option_bind].
    rewrite (proj2 (Nat.eqb_eq _ _) Hlen1). eexists. split; [reflexivity|].
    assert (∀ i f, all_fields v !! i = Some f → (list_to_map (zip (all_fields v).*1 args) : Env) !! f.1 = args !! i) as Hget.
    { intros i f Hf. apply zip_env_lookup; [done|done|]. by rewrite list_lookup_fmap, Hf. }
    split_and!; [| |by apply size_of_args|done].
    + intros n. split.
      * intros [a Ha%elem_of_list_to_map_2]. apply elem_of_zip_l in Ha. done.
      * intros (f & -> & [i Hi]%list_elem_of_lookup)%list_elem_of_fmap. rewrite (Hget i f Hi). apply lookup_lt_is_Some.
        rewrite <-Hlen. by eapply lookup_lt_Some.
    + intros n ty a [i Hi]%list_elem_of_lookup Ha. pose proof (Hget i (n, ty) Hi) as Hg. cbn [fst] in Hg. rewrite Hg in Ha.
      assert (types !! i = Some ty) as Hty by (rewrite <-(unnamed_types types), <-Hall, list_lookup_fmap, Hi; done).
      by eapply Forall2_lookup_lr.
  - destruct Ht as (-> & Hdom & Hok). assert (all_fields v = fields) as Hall by (unfold all_fields; by rewrite Ef).
    exists m. rewrite Hall. split_and!; [done| |done|unfold value_size; by rewrite Hall|done].
    intros n. by rewrite <-elem_of_dom.
Qed.

(** The data fields of a variant have values, and its reply port is in no list of bytes. *)
Lemma data_fields_hold w v pv env : parsed_as v pv → (∀ n, is_Some (env !! n) ↔ n ∈ (all_fields v).*1) →
  (∀ n ty a, (n, ty) ∈ all_fields v → env !! n = Some a → arg_ok w ty a) →
  (∃ vs, holds env (data_fields pv) vs) ∧ fields_size env (data_fields pv) = fields_size env (all_fields v).
Proof.
  intros Hp Hdom Hok.
  assert (∀ fields, fields ⊆ all_fields v → existsb is_port fields = false → ∃ vs, holds env fields vs) as Hh.
  { induction fields as [|[n ty] fields IH]; intros Hsub Hn; [exists []; constructor|]. cbn in Hn. apply orb_false_iff in Hn as [Hty Hn].
    destruct IH as [vs Hvs]; [intros f Hf; apply Hsub; by right|done|].
    assert ((n, ty) ∈ all_fields v) as Hin by (apply Hsub; by left).
    destruct (proj2 (Hdom n)) as [a Ha]; [apply (list_elem_of_fmap_2 fst _ _ Hin)|]. specialize (Hok n ty a Hin Ha).
    destruct a as [x|q]; [|unfold is_port in Hty; cbn in *; destruct Hok; congruence]. exists (x :: vs). constructor; [|done].
    destruct Hok. done. }
  destruct Hp as [_ Hn|a before port segments after args _ _ Hall Hpt Hn _]; cbn [data_fields]; [split; [by apply Hh|done]|].
  split; [apply Hh; [|done]; rewrite Hall; intros f; rewrite !elem_of_app, elem_of_cons; tauto|].
  rewrite Hall. unfold fields_size. rewrite !foldr_app. cbn [foldr].
  assert (arg_size (TPath segments) (env !! port) = 0%Z) as Hz; [|by cbn [fst snd]; rewrite Hz].
  destruct (env !! port) as [[x|q]|] eqn:E; [|done|done]. exfalso. specialize (Hok port (TPath segments) (AVal x)).
  destruct Hok as [Hf _]; [rewrite Hall; apply elem_of_app; right; by left|done|congruence].
Qed.

Lemma mapM_env (env : Env) names : (∀ n, n ∈ names → is_Some (env !! n)) →
  ∃ args, mapM (λ n, env !! n) names = Some args ∧ length args = length names ∧
    ∀ i n, names !! i = Some n → args !! i = env !! n.
Proof.
  intros Hn. destruct (mapM_is_Some_2 (λ n, env !! n) names) as [args Hargs]; [by apply Forall_forall|].
  exists args. split; [done|]. apply mapM_Some in Hargs. split; [symmetry; by eapply Forall2_length|].
  intros i n Hi. destruct (Forall2_lookup_l _ _ _ _ _ Hargs Hi) as (a & -> & Ha). done.
Qed.

(** A constructor whose fields are bound as in the original message *)
Lemma construct_same w w' v pv x env names env' :
  bindings pv x = Some env → parsed_as v pv → typed w v x → NoDup (all_fields v).*1 →
  length names = length (all_fields v) →
  (∀ i n f, names !! i = Some n → all_fields v !! i = Some f → ∃ a b, env !! f.1 = Some a ∧ env' !! n = Some b ∧ same_arg w w' f.2 a b) →
  (field_style pv = Named → names = (all_fields v).*1 ∧ dom env' = dom env) →
  ∃ y, construct pv (Some names) env' w' = (Ok y, w') ∧ same_value w w' v x y.
Proof.
  intros Hb Hp Ht Hnd Hlen Hsame Hnamed. pose proof (parsed_binders v pv Hp) as Hbs.
  assert (field_style pv = style_of v) as Hst by (by destruct Hp). assert (ident pv = var_ident v) as Hid by (by destruct Hp).
  unfold bindings, construct in *. destruct (field_style pv); destruct x as [name args|name m]; try done.
  - rewrite Hbs in Hb. cbn [mbind option_bind] in Hb.
    destruct (Nat.eqb_spec (length (all_fields v).*1) (length args)) as [Hl|]; [|done]. injection Hb as <-.
    destruct (mapM_env env' names) as (args' & Ha' & Hl' & Hget').
    { intros n [i Hi]%list_elem_of_lookup. destruct (lookup_lt_is_Some_2 (all_fields v) i) as [f Hf].
      { rewrite <-Hlen. by eapply lookup_lt_Some. }
      destruct (Hsame i n f Hi Hf) as (a & b & _ & -> & _). done. }
    cbn [mbind option_bind]. rewrite Ha'. eexists. split; [reflexivity|]. cbn [same_value].
    assert (name = var_ident v) as -> by (unfold typed in Ht; by destruct (var_fields v); destruct Ht).
    split_and!; [done|rewrite length_fmap in Hl; lia|]. intros i f a b Hf Ha Hb.
    destruct (lookup_lt_is_Some_2 names i) as [n Hn]; [rewrite Hlen; by eapply lookup_lt_Some|].
    destruct (Hsame i n f Hn Hf) as (a1 & b1 & Ha1 & Hb1 & Hs). rewrite (Hget' i n Hn) in Hb.
    rewrite (zip_env_lookup _ _ i) in Ha1; [|done|done|by rewrite list_lookup_fmap, Hf]. congruence.
  - injection Hb as ->. destruct (Hnamed eq_refl) as [-> Hdom]. eexists. split; [reflexivity|]. cbn [same_value].
    assert (name = var_ident v) as -> by (unfold typed in Ht; by destruct (var_fields v); destruct Ht).
    split_and!; [done|done|]. intros n ty a b [i Hi]%list_elem_of_lookup Ha Hb.
    destruct (Hsame i n (n, ty)) as (a1 & b1 & Ha1 & Hb1 & Hs); [by rewrite list_lookup_fmap, Hi|done|]. cbn in *. congruence.
Qed.

Lemma data_names v pv : parsed_as v pv → NoDup (all_fields v).*1 → NoDup (data_fields pv).*1.
Proof.
  intros [] Hnd; cbn [data_fields]; [done|]. match goal with H : all_fields v = _ |- _ => rewrite H in Hnd end.
  rewrite fmap_app in *. cbn in Hnd. eapply sublist_NoDup; [exact Hnd|]. apply sublist_app; [done|]. by constructor.
Qed.

(** Casts *)
Lemma cast_round_trip w v pv x env bytes env' :
  bindings pv x = Some env → parsed_as v pv → is_cast pv = true → typed w v x → NoDup (all_fields v).*1 →
  (∀ n, is_Some (env !! n) ↔ n ∈ (all_fields v).*1) →
  (∀ n ty a, (n, ty) ∈ all_fields v → env !! n = Some a → arg_ok w ty a) →
  unpack_fields conv pv bytes = Some env' →
  (∀ name, env' !! name = if bool_decide (name ∈ (data_fields pv).*1) then env !! name else None) →
  ∃ y, gen_cast_deserialize_arm conv pv bytes w = (Ok y, w) ∧ same_value w w v x y.
Proof.
  intros Hb Hp Hc Ht Hnd Hdom Hok Hu He. unfold gen_cast_deserialize_arm. rewrite Hu.
  assert (data_fields pv = all_fields v ∧ existsb is_port (all_fields v) = false) as [Hdf Hn] by (by destruct Hp).
  rewrite Hdf in *. assert (env' = env) as ->.
  { apply map_eq. intros n. rewrite He. case_bool_decide as Hin; [done|]. destruct (env !! n) eqn:E; [|done]. exfalso.
    apply Hin, Hdom. by rewrite E. }
  eapply construct_same; [done..|by rewrite length_fmap| |by intros _].
  intros i n [n' ty] Hi Hf. rewrite list_lookup_fmap, Hf in Hi. injection Hi as <-.
  assert ((n', ty) ∈ all_fields v) as Hin by (by eapply list_elem_of_lookup_2).
  destruct (proj2 (Hdom n')) as [a Ha]; [apply (list_elem_of_fmap_2 fst _ _ Hin)|]. exists a, a. split_and!; [done|done|].
  specialize (Hok n' ty a Hin Ha). destruct a as [x'|q]; [done|]. destruct Hok as [Hport _]. exfalso.
  apply not_true_iff_false in Hn. apply Hn, existsb_elem_of. by exists (n', ty).
Qed.

(** The names of the fields of a tuple variant are not those of the generated code. *)
Lemma unnamed_not_internal types n : n ∈ (unnamed_fields types).*1 → n ≠ "__target_port"%string.
Proof.
  intros (f & -> & [i Hi]%list_elem_of_lookup)%list_elem_of_fmap. unfold unnamed_fields in Hi.
  rewrite list_lookup_imap in Hi. destruct (types !! i); [|done]. injection Hi as <-. unfold field_name. by cbn.
Qed.

(** Calls: the port that is bound stands for the port of the message. *)
Lemma call_same_args w w' v before port segments after (env env' : Env) key p q t :
  all_fields v = before ++ (port, TPath segments) :: after → existsb is_port (before ++ after) = false →
  reply_type (TPath segments) = Some t → stands_for w w' t p q → env !! port = Some (APort p) →
  (key = port ∨ key ∉ (before ++ after).*1) → NoDup (all_fields v).*1 →
  (∀ n, is_Some (env !! n) ↔ n ∈ (all_fields v).*1) →
  (∀ n ty a, (n, ty) ∈ all_fields v → env !! n = Some a → arg_ok w ty a) →
  (∀ name, env' !! name = if bool_decide (name ∈ (before ++ after).*1) then env !! name else None) →
  ∀ i n f, (before.*1 ++ key :: after.*1) !! i = Some n → all_fields v !! i = Some f →
    ∃ a b, env !! f.1 = Some a ∧ <[key := APort q]> env' !! n = Some b ∧ same_arg w w' f.2 a b.
Proof.
  intros Hall Hn Hr Hst Hport Hkey Hnd Hdom Hok He i n f Hi Hf.
  assert (key ∉ (before ++ after).*1) as Hk.
  { destruct Hkey as [->|]; [|done]. rewrite Hall, fmap_app in Hnd. rewrite fmap_app. cbn in Hnd.
    apply NoDup_app in Hnd as (_ & Hd & [Ha _]%NoDup_cons). rewrite not_elem_of_app. split; [|done]. intros Hin.
    apply (Hd _ Hin). by left. }
  assert (∀ ty, (n, ty) ∈ before ++ after → f = (n, ty) →
    ∃ a b, env !! f.1 = Some a ∧ <[key := APort q]> env' !! n = Some b ∧ same_arg w w' f.2 a b) as Hdata.
  { intros ty Hin ->. assert ((n, ty) ∈ all_fields v) as Hin' by (rewrite Hall; rewrite elem_of_app, elem_of_cons in *; tauto).
    destruct (proj2 (Hdom n)) as [a Ha]; [apply (list_elem_of_fmap_2 fst _ _ Hin')|]. exists a, a. cbn [fst snd].
    pose proof (list_elem_of_fmap_2 fst _ _ Hin) as Hin1. cbn [fst] in Hin1.
    split; [done|]. rewrite lookup_insert_ne by (intros ->; done). rewrite He, bool_decide_true by done. split; [done|].
    specialize (Hok n ty a Hin' Ha). destruct a as [x'|q']; [done|]. destruct Hok as [Hpt _]. exfalso.
    apply not_true_iff_false in Hn. apply Hn, existsb_elem_of. by exists (n, ty). }
  rewrite Hall in Hf. destruct (Nat.lt_trichotomy i (length before)) as [Hlt|[->|Hgt]].
  - rewrite lookup_app_l in Hi by (rewrite length_fmap; lia). rewrite lookup_app_l in Hf by lia. rewrite list_lookup_fmap, Hf in Hi. cbn in Hi. injection Hi as <-.
    destruct f as [n ty]. apply (Hdata ty); [|done]. apply elem_of_app. left. by eapply list_elem_of_lookup_2.
  - rewrite list_lookup_middle in Hi by (by rewrite length_fmap). rewrite list_lookup_middle in Hf by done. simplify_eq.
    exists (APort p), (APort q). cbn [fst snd]. rewrite lookup_insert_eq. split_and!; [done|done|]. by exists t.
  - rewrite lookup_app_r in Hi by (rewrite length_fmap; lia). rewrite lookup_app_r in Hf by lia. rewrite length_fmap in Hi.
    destruct (i - length before) as [|j] eqn:Ej; [lia|]. change (after.*1 !! j = Some n) in Hi. change (after !! j = Some f) in Hf.
    rewrite list_lookup_fmap, Hf in Hi. cbn in Hi. injection Hi as <-.
    destruct f as [n ty]. apply (Hdata ty); [|done]. apply elem_of_app. right. by eapply list_elem_of_lookup_2.
Qed.

Lemma call_round_trip w w1 v pv x env bytes env' a before port segments after args t p :
  bindings pv x = Some env →
  pv = mkParsed (var_ident v) (var_ident v) (Call args port (length before)) (style_of v) (before ++ after) →
  parsed_as v pv → rpc_attributes v = [a] → all_fields v = before ++ (port, TPath segments) :: after →
  existsb is_port (before ++ after) = false → reply_type (TPath segments) = Some t → head args = Some t →
  env !! port = Some (APort p) → typed w v x → NoDup (all_fields v).*1 →
  (∀ n, is_Some (env !! n) ↔ n ∈ (all_fields v).*1) →
  (∀ n ty a, (n, ty) ∈ all_fields v → env !! n = Some a → arg_ok w ty a) →
  unpack_fields conv pv bytes = Some env' →
  (∀ name, env' !! name = if bool_decide (name ∈ (before ++ after).*1) then env !! name else None) →
  w1 = w ++ [ToTyped p t (get_timeout p w)] →
  ∃ y w2, gen_call_deserialize_arm conv pv bytes (length w) w1 = (Ok y, w2) ∧ same_value w w2 v x y.
Proof.
  intros Hb Hpv Hp Ha Hall Hn Hr Hh Hport Ht Hnd Hdom Hok Hu He Hw1.
  assert (∃ t0, w !! p = Some (Origin t0)) as [t0 Hp0].
  { destruct (Hok port (TPath segments) (APort p)) as [_ ?]; [rewrite Hall; apply elem_of_app; right; by left|done..]. }
  pose proof (bridge_stands_for w p t0 t Hp0) as Hst. cbn zeta in Hst. rewrite <-Hw1 in Hst.
  set (w2 := w1 ++ [ToBytes (length w) t (get_timeout (length w) w1)]) in *.
  assert (gen_call_deserialize_arm conv pv bytes (length w) w1 =
    construct pv (Some (before.*1 ++ (match style_of v with Tuple => "__target_port"%string | Named => port end) :: after.*1))
      (<[match style_of v with Tuple => "__target_port"%string | Named => port end := APort (length w1)]> env') w2) as ->.
  { unfold gen_call_deserialize_arm. rewrite Hu, Hpv. cbn [kind field_style data_fields]. rewrite Hh.
    unfold gen_deserialize_port, mbind, M_bind. unfold construct. cbn [field_style ident].
    destruct (style_of v); [|done]. by rewrite build_ordered. }
  set (key := match style_of v with Tuple => "__target_port"%string | Named => port end).
  assert (key = port ∨ key ∉ (before ++ after).*1) as Hkey.
  { unfold key, style_of. destruct (var_fields v) as [|types|fields] eqn:Ef; [| |by left]; right;
      unfold all_fields in Hall; rewrite Ef in Hall; [by destruct before|].
    intros Hin. apply (unnamed_not_internal types "__target_port"); [|done]. rewrite Hall. rewrite !fmap_app in *. cbn.
    rewrite elem_of_app, elem_of_cons in *. tauto. }
  destruct (construct_same w w2 v pv x env (before.*1 ++ key :: after.*1) (<[key := APort (length w1)]> env')) as (y & Hy & Hs);
    [done..| | | |by exists y, w2].
  - rewrite Hall, !length_app. cbn. by rewrite !length_fmap.
  - by eapply call_same_args.
  - intros Hst'. assert (key = port) as Hkp by (unfold key; rewrite Hpv in Hst'; cbn in Hst'; by rewrite Hst'). rewrite Hkp, Hall.
    split; [by rewrite fmap_app|]. apply set_eq. intros n. rewrite !elem_of_dom, Hdom, Hall, fmap_app. cbn.
    destruct (decide (n = port)) as [->|Hne].
    { rewrite lookup_insert_eq. rewrite elem_of_app, elem_of_cons. split; [intros _; right; by left|by eexists]. }
    rewrite lookup_insert_ne, He by done. rewrite elem_of_app, elem_of_cons. case_bool_decide as Hin.
    + rewrite fmap_app, elem_of_app in Hin. rewrite Hdom, Hall, fmap_app. cbn. by rewrite elem_of_app, elem_of_cons.
    + rewrite fmap_app, elem_of_app in Hin. split; [by intros [? ?]|tauto].
Qed.

(** A message through the arms of its variant *)
Lemma variant_round_trip w v pv x : typed w v x → parsed_as v pv → hygienic v →
  match gen_serialize_arm conv pv x w with
  | (Ok (SCast tag bytes None), w1) => tag = var_ident v ∧ is_cast pv = true ∧
      ∃ y w2, gen_cast_deserialize_arm conv pv bytes w1 = (Ok y, w2) ∧ same_value w w2 v x y
  | (Ok (SCall tag bytes reply None), w1) => tag = var_ident v ∧ is_cast pv = false ∧
      ∃ y w2, gen_call_deserialize_arm conv pv bytes reply w1 = (Ok y, w2) ∧ same_value w w2 v x y
  | (Err _, _) => (isize_max < value_size v x)%Z
  | _ => False
  end.
Proof.
  intros Ht Hp [Hnd _ Hhy]. destruct (typed_bindings w v pv x Ht Hp Hnd) as (env & Hb & Hdom & Hok & Hsize & Hname).
  destruct (data_fields_hold w v pv env Hp Hdom Hok) as [[vs Hvs] Hds].
  pose proof (pack_unpack env pv vs Hvs (data_names v pv Hp Hnd)) as Hpack. rewrite Hds, Hsize in Hpack.
  unfold gen_serialize_arm. rewrite Hb. unfold lift, mbind, M_bind.
  destruct (Z.leb_spec (value_size v x) isize_max) as [Hfit|Hbig].
  2:{ rewrite Hpack. lia. }
  destruct Hpack as (bytes & env' & -> & Hu & He). destruct Hp as [Hr Hn|a before port segments after args Ha Hm Hall Hpt Hn [nm Hl]] eqn:Ep.
  - split; [done|]. split; [done|]. destruct (cast_round_trip w v _ x env bytes env' Hb Hp eq_refl Ht Hnd Hdom Hok Hu He) as (y & Hy & Hs).
    by exists y, w.
  - cbn [kind variant_tag data_fields] in *.
    assert ((port, TPath segments) ∈ all_fields v) as Hin by (rewrite Hall; apply elem_of_app; right; by left).
    destruct (Hhy _ Hin Hpt) as [_ [t Hrt]]. assert (args = [t]) as ->.
    { unfold reply_type in Hrt. cbn [snd] in Hrt. rewrite Hl in Hrt. destruct args as [|t' [|]]; by simplify_eq. }
    destruct (proj2 (Hdom port)) as [arg Harg]; [apply (list_elem_of_fmap_2 fst _ _ Hin)|].
    pose proof (Hok _ _ _ Hin Harg) as Hargok. destruct arg as [x'|p]; [destruct Hargok; congruence|].
    cbn [head]. rewrite Harg. unfold gen_serialize_port, mret, M_ret. cbn beta iota. split; [done|]. split; [done|].
    eapply (call_round_trip w _ v _ x env bytes env' a before port segments after [t] t p); done.
Qed.

(** ** Decoding arbitrary bytes *)

(** The encoding of a field as it travels, whatever its bytes mean *)
Definition raw_frame (data : list byte) : list byte := to_be_bytes 8 (N.of_nat (length data)) ++ data.

Lemma get_range_spec l from to data : get_range l from to = Some data →
  (from <= to)%N ∧ ∃ pre post, l = pre ++ data ++ post ∧ N.of_nat (length pre) = from ∧ N.of_nat (length data) = (to - from)%N.
Proof.
  unfold get_range. destruct (N.leb_spec from to), (N.leb_spec to (N.of_nat (length l))); cbn [andb]; try done. intros [= <-].
  split; [done|]. exists (take (N.to_nat from) l), (drop (N.to_nat (to - from)) (drop (N.to_nat from) l)).
  rewrite take_drop, take_drop, !length_take, length_drop. split_and!; [done|lia|lia].
Qed.

Lemma unpack_arg_exact ty args ptr v ptr' : unpack_arg conv ty args ptr = Some (v, ptr') →
  ∃ pre data post, args = pre ++ raw_frame data ++ post ∧ N.of_nat (length pre) = ptr ∧
    N.of_nat (length pre + length (raw_frame data)) = ptr' ∧ from_bytes (BytesConvertable := conv ty) data = Some v.
Proof.
  unfold unpack_arg. destruct (checked_add ptr 8) as [len_end|] eqn:E1; [|done]. cbn [mbind option_bind].
  destruct (get_range args ptr len_end) as [enc|] eqn:E2; [|done]. cbn [mbind option_bind].
  destruct (checked_add len_end (from_be_bytes enc)) as [data_end|] eqn:E3; [|done]. cbn [mbind option_bind].
  destruct (get_range args len_end data_end) as [data|] eqn:E4; [|done]. cbn [mbind option_bind].
  destruct (from_bytes data) as [v'|] eqn:E5; [|done]. intros [= <- <-]. unfold checked_add in *.
  destruct (_ <? _)%N in E1; [|done]. destruct (_ <? _)%N in E3; [|done]. injection E1 as <-. injection E3 as <-.
  apply get_range_spec in E2 as (_ & pre & post & Hargs & Hpre & Henc).
  apply get_range_spec in E4 as (_ & pre' & post' & Hargs' & Hpre' & Hdata).
  assert (length enc = 8) as He by lia. exists pre, data, post'. unfold raw_frame.
  assert (N.of_nat (length data) = from_be_bytes enc) as -> by lia.
  assert (to_be_bytes 8 (from_be_bytes enc) = enc) as -> by (rewrite <-He; apply to_from_be_bytes). rewrite length_app.
  split_and!; [|done|lia|done]. rewrite Hargs'. assert (pre' = pre ++ enc) as ->; [|by rewrite <-!app_assoc].
  rewrite Hargs, app_assoc in Hargs'. apply (app_inj_1 _ _ _ _) in Hargs' as [-> _]; [done|]. rewrite length_app. lia.
Qed.

(** What is decoded is the exact encoding of the fields: nothing is left over. *)
Lemma unpack_all_exact fields args ptr vs ptr' : unpack_all conv fields args ptr = Some (vs, ptr') →
  (ptr <= N.of_nat (length args))%N →
  ∃ pre datas post, args = pre ++ concat (raw_frame <$> datas) ++ post ∧ N.of_nat (length pre) = ptr ∧
    N.of_nat (length pre + length (concat (raw_frame <$> datas))) = ptr' ∧
    Forall3 (λ f d v, from_bytes (BytesConvertable := conv f.2) d = Some v) fields datas vs.
Proof.
  revert ptr vs. induction fields as [|[n ty] fields IH]; intros ptr vs; cbn [unpack_all].
  - intros [= <- <-] Hle. exists (take (N.to_nat ptr) args), [], (drop (N.to_nat ptr) args). cbn.
    rewrite take_drop, length_take. split_and!; [done|lia|lia|constructor].
  - destruct (unpack_arg conv ty args ptr) as [[v p1]|] eqn:E1; [|done]. cbn [mbind option_bind].
    destruct (unpack_all conv fields args p1) as [[vs' p2]|] eqn:E2; [|done]. cbn [mbind option_bind]. intros [= <- <-] Hle.
    apply unpack_arg_exact in E1 as (pre & data & post & Hargs & Hpre & Hp1 & Hd).
    destruct (IH p1 vs' E2) as (pre' & datas & post' & Hargs' & Hpre' & Hp2 & Hf).
    { rewrite Hargs, !length_app. lia. }
    exists pre, (data :: datas), post'. cbn [fmap list_fmap concat].
    assert (pre' = pre ++ raw_frame data) as ->.
    { rewrite Hargs, app_assoc in Hargs'. apply (app_inj_1 _ _ _ _) in Hargs' as [-> _]; [done|]. rewrite length_app. lia. }
    rewrite length_app in *. split_and!; [by rewrite Hargs', <-!app_assoc|done|rewrite <-Hp2; f_equal; lia|by constructor].
Qed.

Lemma unpack_fields_exact pv args env : unpack_fields conv pv args = Some env →
  ∃ datas vs, args = concat (raw_frame <$> datas) ∧
    Forall3 (λ f d v, from_bytes (BytesConvertable := conv f.2) d = Some v) (data_fields pv) datas vs ∧
    env = list_to_map (zip (data_fields pv).*1 (AVal <$> vs)).
Proof.
  unfold unpack_fields. destruct (decide (data_fields pv = [])) as [E|E].
  - destruct (decide (args = [])) as [->|]; [|done]. intros [= <-]. exists [], []. rewrite E. split_and!; [done|constructor|done].
  - destruct (unpack_all conv (data_fields pv) args 0) as [[vs ptr]|] eqn:Eu; [|done]. cbn [mbind option_bind].
    destruct (N.eqb_spec ptr (N.of_nat (length args))) as [->|]; [|done]. intros [= <-].
    apply unpack_all_exact in Eu as (pre & datas & post & Hargs & Hpre & Hlen & Hf); [|lia].
    exists datas, vs. split_and!; [|done|done]. destruct pre; [|cbn in Hpre; lia]. rewrite Hargs in Hlen at 1.
    rewrite !length_app in Hlen. cbn in Hlen. destruct post; [by rewrite app_nil_r in Hargs|cbn in Hlen; lia].
Qed.

(** ** The enum *)

Lemma find_variant (vs : list Variant) (pvs : list ParsedVariant) v (q : ParsedVariant → bool) :
  Forall2 parsed_as vs pvs → NoDup (var_ident <$> vs) → v ∈ vs →
  (∀ v' pv, parsed_as v' pv → q pv = true → var_ident v' = var_ident v) →
  ∃ pv, parsed_as v pv ∧ (q pv = true → List.find q pvs = Some pv).
Proof.
  intros Hvs Hnd Hin Hq. induction Hvs as [|v' pv vs pvs Hpv Hvs IH]; [by apply not_elem_of_nil in Hin|].
  cbn in Hnd. apply NoDup_cons in Hnd as [Hnew Hnd]. apply elem_of_cons in Hin as [->|Hin].
  - exists pv. split; [done|]. intros Hpvq. cbn. by rewrite Hpvq.
  - destruct (IH Hnd Hin) as (pv' & Hpv' & Hfind). exists pv'. split; [done|]. intros Hq'. cbn.
    destruct (q pv) eqn:E; [|by apply Hfind]. exfalso. apply Hnew. rewrite (Hq v' pv Hpv E). by apply list_elem_of_fmap_2.
Qed.

Lemma find_parsed (vs : list Variant) (pvs : list ParsedVariant) q pv :
  Forall2 parsed_as vs pvs → List.find q pvs = Some pv → q pv = true ∧ ∃ v, v ∈ vs ∧ parsed_as v pv.
Proof.
  intros Hvs [Hin Hq]%List.find_some. split; [done|]. apply list_elem_of_In in Hin.
  apply list_elem_of_lookup in Hin as [i Hi]. destruct (Forall2_lookup_r _ _ _ _ _ Hvs Hi) as (v & Hv & Hp).
  exists v. split; [by eapply list_elem_of_lookup_2|done].
Qed.

Lemma parsed_names v pv : parsed_as v pv → ident pv = var_ident v ∧ variant_tag pv = var_ident v.
Proof. by intros []. Qed.

Lemma enum_round_trip vs e w v x : Forall2 parsed_as vs (variants e) → NoDup (var_ident <$> vs) → v ∈ vs →
  hygienic v → typed w v x →
  match serialize_enum conv e x w with
  | (Ok m, w1) => ∃ y w2, deserialize_enum conv e m w1 = (Ok y, w2) ∧ same_value w w2 v x y
  | (Err _, _) => (isize_max < value_size v x)%Z
  | (Panic, _) => False
  end.
Proof.
  intros Hvs Hnd Hin Hhy Ht. assert (value_name x = var_ident v) as Hx.
  { unfold typed in Ht. by destruct (var_fields v), x; destruct Ht. }
  destruct (find_variant vs (variants e) v (λ pv, bool_decide (ident pv = value_name x)) Hvs Hnd Hin) as (pv & Hpv & Hfind).
  { intros v' pv [Hi _]%parsed_names Hb. apply bool_decide_eq_true in Hb. congruence. }
  destruct (parsed_names v pv Hpv) as [Hi Htag]. unfold serialize_enum.
  rewrite Hfind by (apply bool_decide_true; congruence). pose proof (variant_round_trip w v pv x Ht Hpv Hhy) as H.
  assert (∀ b, is_cast pv = b →
    List.find (λ pv, (if b then is_cast pv else negb (is_cast pv)) && bool_decide (variant_tag pv = var_ident v)) (variants e) = Some pv) as Hdec.
  { intros b Hb. destruct (find_variant vs (variants e) v
      (λ pv, (if b then is_cast pv else negb (is_cast pv)) && bool_decide (variant_tag pv = var_ident v)) Hvs Hnd Hin) as (pv' & Hpv' & Hfind').
    { intros v' pv' [_ Ht']%parsed_names [_ Hb']%andb_true_iff. apply bool_decide_eq_true in Hb'. congruence. }
    assert (pv' = pv) as ->; [by eapply parsed_as_functional|]. apply Hfind'. rewrite bool_decide_true by congruence. by destruct b; rewrite Hb. }
  destruct (gen_serialize_arm conv pv x w) as [[[tag bytes [|]|tag bytes reply [|]|]| |] w1]; try done.
  - destruct H as (-> & Hc & Hd). cbn [deserialize_enum]. by rewrite (Hdec true Hc).
  - destruct H as (-> & Hc & Hd). cbn [deserialize_enum]. by rewrite (Hdec false Hc).
Qed.

(** The message that is decoded is of the variant that was named, from the encodings of its fields. *)
Definition decoded_from (pv : ParsedVariant) (args : list byte) (y : @Value V) : Prop :=
  value_name y = variant_tag pv ∧
  ∃ datas vs, args = concat (raw_frame <$> datas) ∧
    Forall3 (λ f d v, from_bytes (BytesConvertable := conv f.2) d = Some v) (data_fields pv) datas vs ∧
    match y with
    | VTuple _ ys => match kind pv with
                     | Cast => ys = AVal <$> vs
                     | Call _ _ i => ∃ q, ys = (AVal <$> take i vs) ++ APort q :: (AVal <$> drop i vs)
                     end
    | VNamed _ m => match kind pv with
                    | Cast => m = list_to_map (zip (data_fields pv).*1 (AVal <$> vs))
                    | Call _ port _ => ∃ q, m = <[port := APort q]> (list_to_map (zip (data_fields pv).*1 (AVal <$> vs)))
                    end
    end.

Lemma mapM_names (env : Env) names (args : list (@Arg V)) : length names = length args →
  (∀ i n, names !! i = Some n → env !! n = args !! i) → mapM (λ n, env !! n) names = Some args.
Proof.
  intros Hl Hget. apply mapM_Some. apply Forall2_same_length_lookup. split; [done|]. intros i n a Hn Ha.
  by rewrite (Hget i n Hn).
Qed.

Lemma names_values names (vs : list V) : NoDup names → length names = length vs →
  mapM (λ n, (list_to_map (zip names (AVal <$> vs)) : Env) !! n) names = Some (AVal <$> vs).
Proof.
  intros Hnd Hl. apply mapM_names; [by rewrite length_fmap|]. intros i n Hn. apply zip_env_lookup; [done|by rewrite length_fmap|done].
Qed.

Lemma names_values_port before after key (vs : list V) q : NoDup (before ++ after) → length (before ++ after) = length vs →
  key ∉ before ++ after →
  mapM (λ n, <[key := APort q]> (list_to_map (zip (before ++ after) (AVal <$> vs)) : Env) !! n) (before ++ key :: after) =
    Some ((AVal <$> take (length before) vs) ++ APort q :: (AVal <$> drop (length before) vs)).
Proof.
  intros Hnd Hl Hkey. rewrite <-(take_drop (length before) vs) in Hl at 1. rewrite !length_app in Hl.
  assert (length (take (length before) vs) = length before) as Hb.
  { rewrite length_take. rewrite length_take, length_drop in Hl. lia. }
  assert (∀ i n, (before ++ after) !! i = Some n →
    <[key := APort q]> (list_to_map (zip (before ++ after) (AVal <$> vs)) : Env) !! n = (AVal <$> vs) !! i) as Hget.
  { intros i n Hn. rewrite lookup_insert_ne by (intros ->; by apply Hkey; eapply list_elem_of_lookup_2).
    apply zip_env_lookup; [done| |done]. rewrite length_fmap, length_app. rewrite length_take, length_drop in Hl. rewrite length_take in Hb. lia. }
  apply mapM_names; [rewrite !length_app; cbn; rewrite !length_fmap; lia|]. intros i n Hn.
  rewrite lookup_app. rewrite lookup_app in Hn. rewrite list_lookup_fmap. destruct (before !! i) as [n'|] eqn:E.
  - injection Hn as ->. apply lookup_lt_Some in E as Hlt. rewrite (Hget i) by (by apply lookup_app_l_Some).
    rewrite list_lookup_fmap. rewrite lookup_take_lt by done. destruct (vs !! i) eqn:Ev; [done|]. exfalso.
    apply lookup_ge_None in Ev. rewrite length_take in Hb. lia.
  - apply lookup_ge_None in E. rewrite lookup_take_ge by done. cbn [fmap option_fmap option_map]. rewrite length_fmap, Hb.
    destruct (i - length before) as [|j] eqn:Ej; [injection Hn as <-; by rewrite lookup_insert_eq|].
    change (after !! j = Some n) in Hn.
    rewrite (Hget (length before + j)); [|rewrite lookup_app_r by lia; by replace (length before + j - length before) with j by lia].
    change (((AVal <$> vs) !! (length before + j)) = (AVal <$> drop (length before) vs) !! j). by rewrite !list_lookup_fmap, lookup_drop.
Qed.

Lemma cast_decodes v pv args w : parsed_as v pv → is_cast pv = true → hygienic v →
  match gen_cast_deserialize_arm conv pv args w with
  | (Ok y, _) => decoded_from pv args y
  | (Err err, _) => err = downcast_err
  | (Panic, _) => False
  end.
Proof.
  intros Hp Hc Hhy. unfold gen_cast_deserialize_arm. destruct (unpack_fields conv pv args) as [env|] eqn:Eu; [|done].
  apply unpack_fields_exact in Eu as (datas & vs & Hargs & Hf & ->). pose proof (data_names v pv Hp (hy_names v Hhy)) as Hnd.
  destruct (parsed_names v pv Hp) as [Hi Ht].
  assert (kind pv = Cast) as Hk by (unfold is_cast in Hc; by destruct (kind pv)).
  unfold construct. destruct (field_style pv); cbn [mbind option_bind].
  - rewrite names_values; [|done|rewrite length_fmap; by apply Forall3_length_lr in Hf].
    split; [cbn; congruence|]. exists datas, vs. by rewrite Hk.
  - split; [cbn; congruence|]. exists datas, vs. by rewrite Hk.
Qed.

Lemma call_decodes v pv args reply w : parsed_as v pv → is_cast pv = false → hygienic v →
  match gen_call_deserialize_arm conv pv args reply w with
  | (Ok y, _) => decoded_from pv args y
  | (Err err, _) => err = downcast_err
  | (Panic, _) => False
  end.
Proof.
  intros Hp Hc Hhy. pose proof (data_names v pv Hp (hy_names v Hhy)) as Hnd. unfold gen_call_deserialize_arm.
  destruct (unpack_fields conv pv args) as [env|] eqn:Eu; [|by destruct (kind pv) eqn:Ek; [unfold is_cast in Hc; rewrite Ek in Hc|]].
  apply unpack_fields_exact in Eu as (datas & vs & Hargs & Hf & ->). apply Forall3_length_lr in Hf as Hlen.
  destruct Hp as [Hr Hn|a before port segments after gargs Ha Hm Hall Hpt Hn [nm Hl]]; [done|]. cbn [kind field_style data_fields] in *.
  destruct (hy_port v Hhy (port, TPath segments)) as [_ [t Ht]]; [rewrite Hall; apply elem_of_app; right; by left|done|].
  unfold reply_type in Ht. cbn [snd] in Ht. rewrite Hl in Ht. destruct gargs as [|t' [|]]; simplify_eq. cbn [head].
  unfold gen_deserialize_port, mbind, M_bind, construct. cbn [field_style ident].
  destruct (style_of v) eqn:Es.
  - rewrite build_ordered. cbn [mbind option_bind]. rewrite fmap_app in *.
    rewrite names_values_port; [|done|rewrite <-fmap_app, length_fmap; congruence|].
    + split; [done|]. exists datas, vs. cbn [kind data_fields]. rewrite length_fmap. split_and!; [done|done|by eexists].
    + intros Hin. unfold style_of in Es. destruct (var_fields v) as [|types|fields] eqn:Ef; [| |done];
        unfold all_fields in Hall; rewrite Ef in Hall; [by destruct before|].
      apply (unnamed_not_internal types "__target_port"); [|done]. rewrite Hall, fmap_app. cbn.
      rewrite elem_of_app, elem_of_cons in *. tauto.
  - split; [done|]. exists datas, vs. cbn [kind data_fields]. split_and!; [done|done|by eexists].
Qed.
End codec.

(** ** Theorems *)

Lemma collect_parsed vs :
  match collect (parse_variant <$> vs) with
  | Ok pvs => Forall2 parsed_as vs pvs
  | Err _ => ∃ v, v ∈ vs ∧ ∀ pv, ¬ parsed_as v pv
  | Panic => False
  end.
Proof.
  induction vs as [|v vs IH]; [constructor|]. cbn [fmap list_fmap collect]. pose proof (parse_variant_spec v) as Hv.
  destruct (parse_variant v) as [pv| |]; [|by exists v; split; [left|]|done].
  destruct (collect (parse_variant <$> vs)); [by constructor| |done]. destruct IH as (v' & Hin & Hno). exists v'. split; [by right|done].
Qed.

Lemma parse_spec ast :
  match parse_cluster_message ast with
  | Ok e => enum_ident e = ast_ident ast ∧ ∃ vs, ast_data ast = DEnum vs ∧ Forall2 parsed_as vs (variants e)
  | Err _ => ∀ vs, ast_data ast = DEnum vs → ∃ v, v ∈ vs ∧ ∀ pv, ¬ parsed_as v pv
  | Panic => False
  end.
Proof.
  unfold parse_cluster_message. destruct (ast_data ast) as [vs| |]; [|done|done]. pose proof (collect_parsed vs) as H.
  destruct (collect _) as [pvs| |]; [|by intros ? [= <-]|done]. split; [done|]. by exists vs.
Qed.

(** The derive macro does not panic on any input.  What it accepts is an enum, every variant of which has
    the representation the code generator relies on: a cast without a reply port, or a call whose one reply
    port, with its generic arguments, has been taken out of the fields at its index.  What it refuses is not
    an enum, or has a variant without a representation. *)
Theorem derive_accepts (ast : DeriveInput) :
  match parse_cluster_message ast with
  | Ok e => enum_ident e = ast_ident ast ∧ ∃ vs, ast_data ast = DEnum vs ∧ Forall2 parsed_as vs (variants e)
  | Err _ => ∀ vs, ast_data ast = DEnum vs → ∃ v, v ∈ vs ∧ ∀ pv, ¬ parsed_as v pv
  | Panic => False
  end.
Proof. apply parse_spec. Qed.

(** C26: a message of a derived enum, once serialized, is decoded to the same message: the same variant, with
    equal fields, in which a reply port stands for the port of the sender, whose timeout it has.  It is
    refused only if its encoding exceeds the capacity of a vector. *)
Theorem derive_round_trip {V} (conv : Ty → BytesConvertable V) ast vs e w v x :
  parse_cluster_message ast = Ok e → ast_data ast = DEnum vs → NoDup (var_ident <$> vs) → v ∈ vs →
  hygienic v → typed conv w v x →
  match serialize_enum conv e x w with
  | (Ok m, w1) => ∃ y w2, deserialize_enum conv e m w1 = (Ok y, w2) ∧ same_value conv w w2 v x y
  | (Err _, _) => (isize_max < value_size conv v x)%Z
  | (Panic, _) => False
  end.
Proof.
  intros He Hd. pose proof (parse_spec ast) as H. rewrite He in H. destruct H as (_ & vs' & Hvs' & Hall).
  assert (vs' = vs) as -> by congruence. by apply enum_round_trip.
Qed.

(** Decoding is total: whatever bytes a peer sends, the generated [deserialize] returns a message or a
    downcast error, without panicking.  A message is decoded only from the exact encodings of the fields
    of the variant that is named, of the right kind, with no bytes left over, in their order. *)
Theorem decode_exact {V} (conv : Ty → BytesConvertable V) ast vs e m w :
  parse_cluster_message ast = Ok e → ast_data ast = DEnum vs → Forall hygienic vs →
  match deserialize_enum conv e m w with
  | (Ok y, _) => ∃ pv, pv ∈ variants e ∧
      match m with
      | SCast tag args _ => is_cast pv = true ∧ tag = variant_tag pv ∧ decoded_from conv pv args y
      | SCall tag args _ _ => is_cast pv = false ∧ tag = variant_tag pv ∧ decoded_from conv pv args y
      | SCallReply _ _ => False
      end
  | (Err err, _) => err = downcast_err
  | (Panic, _) => False
  end.
Proof.
  intros He Hd Hhy. pose proof (parse_spec ast) as H. rewrite He in H. destruct H as (_ & vs' & Hvs' & Hall).
  assert (vs' = vs) as -> by congruence. destruct m as [tag args md|tag args reply md|]; cbn [deserialize_enum]; [| |done].
  - destruct (List.find _ (variants e)) as [pv|] eqn:Ef; [|done]. pose proof (List.find_some _ _ Ef) as [Hin%list_elem_of_In _].
    destruct (find_parsed _ _ _ _ Hall Ef) as ([Hc Htag]%andb_true_iff & v & Hv & Hp). apply bool_decide_eq_true in Htag.
    rewrite Forall_forall in Hhy. pose proof (cast_decodes conv v pv args w Hp Hc (Hhy v Hv)) as H.
    destruct (gen_cast_deserialize_arm conv pv args w) as [[y| |] w']; [|done|done]. by exists pv.
  - destruct (List.find _ (variants e)) as [pv|] eqn:Ef; [|done]. pose proof (List.find_some _ _ Ef) as [Hin%list_elem_of_In _].
    destruct (find_parsed _ _ _ _ Hall Ef) as ([Hc%negb_true_iff Htag]%andb_true_iff & v & Hv & Hp). apply bool_decide_eq_true in Htag.
    rewrite Forall_forall in Hhy. pose proof (call_decodes conv v pv args reply w Hp Hc (Hhy v Hv)) as H.
    destruct (gen_call_deserialize_arm conv pv args reply w) as [[y| |] w']; [|done|done]. by exists pv.
Qed.

(** ** A sample enum: [Stop], [Put(Vec<u8>, Vec<u8>)] and [#[rpc] Get(Vec<u8>, RpcReplyPort<Vec<u8>>, Vec<u8>)] *)

Definition vec_ty : Ty := TPath [("Vec"%string, AngleBracketed [TPath [("u8"%string, NoArguments)]])].
Definition port_ty : Ty := TPath [("RpcReplyPort"%string, AngleBracketed [vec_ty])].
Definition sample_get : Variant := mkVariant "Get" [mkAttr "rpc" MPath] (FUnnamed [vec_ty; port_ty; vec_ty]).
Definition sample_variants : list Variant :=
  [mkVariant "Stop" [] FUnit; mkVariant "Put" [] (FUnnamed [vec_ty; vec_ty]); sample_get].
Definition sample_ast : DeriveInput := mkInput "Store" (DEnum sample_variants).
Definition sample_enum : ParsedEnum :=
  Eval vm_compute in match parse_cluster_message sample_ast with Ok e => e | _ => mkEnum "" [] end.
Definition sample_value : @Value (list byte) := VTuple "Get" [AVal [x01]; APort 0; AVal [x02; x03]].
Definition sample_ports : list Port := [Origin (Some 100%Z)].

Lemma sample_hygienic v : v ∈ sample_variants → hygienic v.
Proof.
  unfold sample_variants. rewrite !elem_of_cons, elem_of_nil. intros [->|[->|[->|[]]]]; (split; [by vm_compute; repeat constructor; set_solver| |]);
    cbn; intros f Hf; try intros Hp; repeat (apply elem_of_cons in Hf as [->|Hf]); try (by apply not_elem_of_nil in Hf); try done.
  split; [vm_compute; set_solver|by eexists].
Qed.

Lemma derive_round_trip_witness :
  ∃ m w1 y w2, serialize_enum (λ _, vec_u8) sample_enum sample_value sample_ports = (Ok m, w1) ∧
    deserialize_enum (λ _, vec_u8) sample_enum m w1 = (Ok y, w2) ∧
    same_value (λ _, vec_u8) sample_ports w2 sample_get sample_value y.
Proof.
  pose proof (derive_round_trip (λ _, vec_u8) sample_ast sample_variants sample_enum sample_ports sample_get sample_value
    eq_refl eq_refl) as H.
  destruct (serialize_enum (λ _, vec_u8) sample_enum sample_value sample_ports) as [[m| |] w1] eqn:E; try (by vm_compute in E).
  assert (∃ y w2, deserialize_enum (λ _, vec_u8) sample_enum m w1 = (Ok y, w2) ∧
    same_value (λ _, vec_u8) sample_ports w2 sample_get sample_value y) as (y & w2 & Hy & Hs); [|by exists m, w1, y, w2].
  apply H; [repeat constructor; set_solver|unfold sample_variants; set_solver|apply sample_hygienic; unfold sample_variants; set_solver|].
  cbn. split; [done|]. repeat constructor. by exists (Some 100%Z).
Defined.

Lemma decode_exact_witness :
  ∃ y w2, deserialize_enum (λ _, vec_u8) sample_enum (SCast "Put" (raw_frame [x01] ++ raw_frame []) None) sample_ports = (Ok y, w2) ∧
    ∃ pv, pv ∈ variants sample_enum ∧ decoded_from (λ _, vec_u8) pv (raw_frame [x01] ++ raw_frame []) y.
Proof.
  pose proof (decode_exact (λ _, vec_u8) sample_ast sample_variants sample_enum (SCast "Put" (raw_frame [x01] ++ raw_frame []) None)
    sample_ports eq_refl eq_refl) as H.
  destruct (deserialize_enum (λ _, vec_u8) sample_enum (SCast "Put" (raw_frame [x01] ++ raw_frame []) None) sample_ports)
    as [[y| |] w2] eqn:E; try (by vm_compute in E).
  exists y, w2. split; [done|]. destruct H as (pv & Hin & _ & _ & Hd); [|by exists pv].
  apply Forall_forall. apply sample_hygienic.
Defined.
