(* ===== verification/OutputPort.v ===== *)
(** Output ports (src/ractor/src/port/output.rs): publish-subscribe between actors.

    The fan-out task of [output-port-v2] receives messages and subscriptions in batches and hands each
    segment of messages to one subscriber after the other; the subscription tasks of the first version
    forward what they receive from a broadcast channel.  Sending to the actor of a subscriber may fail:
    [accepts key n] tells whether the send that follows [n] accepted ones succeeds.  What the subscribers
    have been sent is in the outbox, under the key of the subscription. *)

From S2P Require Import Prelude.

Section output.
Context {Id TMsg R : Type} `{!EqDecision Id}.

(** ** [output-port-v2] *)

(** [Filtering]: a subscription, with the actor it is for and its filter; each has a key of its own *)
Record Subscriber := mkSubscriber { sub_id : Id; sub_key : nat; sub_filter : TMsg → option R }.

#[local] Abbreviation Outbox := (gmap nat (list R)).
#[local] Abbreviation Subscribers := (list (Id * Subscriber)).
#[local] Abbreviation Port := (list (Id * Subscriber) * gmap nat (list R))%type.

Inductive OutportMessage := Data (v : TMsg) | SetSubscriber (s : option Subscriber).

Variable accepts : nat → nat → bool.

Definition push (k : nat) (w : R) (o : Outbox) : Outbox := <[k := (o !!! k) ++ [w]]> o.

(** [Subscriber::send]: false if the subscriber is to be removed *)
Definition sub_send (s : Subscriber) (v : TMsg) (o : Outbox) : bool * Outbox :=
  match sub_filter s v with
  | Some w => if accepts (sub_key s) (length (o !!! sub_key s)) then (true, push (sub_key s) w o) else (false, o)
  | None => (true, o)
  end.

Fixpoint replace_first (id : Id) (s : Subscriber) (subs : Subscribers) : option Subscribers :=
  match subs with
  | [] => None
  | (id', s') :: rest => if decide (id' = id) then Some ((id', s) :: rest) else cons (id', s') <$> replace_first id s rest
  end.

Definition apply_subscriber (subs : Subscribers) (s : Subscriber) (allow_duplicate_subscription : bool) : Subscribers :=
  let pushed := subs ++ [(sub_id s, s)] in
  if allow_duplicate_subscription then pushed else default pushed (replace_first (sub_id s) s subs).

Definition is_set (m : OutportMessage) : bool := match m with SetSubscriber _ => true | Data _ => false end.

(** [iter().position] *)
Fixpoint position {A} (f : A → bool) (l : list A) : option nat :=
  match l with
  | [] => None
  | x :: l => if f x then Some 0 else S <$> position f l
  end.

(** The innermost loop: the messages of a segment to one subscriber.  [None] is [unreachable!]. *)
Fixpoint send_segment (s : Subscriber) (segment : list OutportMessage) (o : Outbox) : option (bool * Outbox) :=
  match segment with
  | [] => Some (true, o)
  | Data v :: segment =>
      let '(sent, o) := sub_send s v o in
      if sent then send_segment s segment o else Some (false, o)
  | SetSubscriber _ :: _ => None
  end.

(** The loop over the subscribers, which removes those that refuse a message *)
Fixpoint subscriber_loop (fuel subscriber_index : nat) (segment : list OutportMessage) (subs : Subscribers) (o : Outbox) :
  option Port :=
  match subs !! subscriber_index with
  | None => Some (subs, o)
  | Some (_, s) =>
      match fuel with
      | 0 => None
      | S fuel =>
          match send_segment s segment o with
          | None => None
          | Some (true, o) => subscriber_loop fuel (S subscriber_index) segment subs o
          | Some (false, o) => subscriber_loop fuel subscriber_index segment (delete subscriber_index subs) o
          end
      end
  end.

(** The loop over the segments of a batch *)
Fixpoint segment_loop (fuel segment_start : nat) (batch : list OutportMessage) (allow : bool) (p : Port) : option Port :=
  if segment_start <? length batch then
    match fuel with
    | 0 => None
    | S fuel =>
        let segment_end :=
          match position is_set (drop segment_start batch) with
          | Some offset => segment_start + offset
          | None => length batch
          end in
        match
          if segment_start <? segment_end then
            let segment := take (segment_end - segment_start) (drop segment_start batch) in
            subscriber_loop (length p.1) 0 segment p.1 p.2
          else Some p
        with
        | None => None
        | Some (subs, o) =>
            if segment_end =? length batch then Some (subs, o)
            else
              match batch !! segment_end with
              | Some (SetSubscriber subscriber) =>
                  let subs := match subscriber with Some s => apply_subscriber subs s allow | None => subs end in
                  segment_loop fuel (S segment_end) (<[segment_end := SetSubscriber None]> batch) allow (subs, o)
              | _ => None
              end
        end
    end
  else Some p.

Definition dispatch_batch (allow : bool) (batch : list OutportMessage) (p : Port) : option Port :=
  segment_loop (length batch) 0 batch allow p.

Definition MAX_BATCH_SIZE : nat := 32.

(** The task: [arrivals i] is sent at its [i]-th await, and [closed i] tells whether the senders are gone
    then.  [limit] is the size of the batch it waits for. *)
Variable arrivals : nat → list OutportMessage.
Variable closed : nat → bool.

Inductive Progress := Finished | Running (limit : option nat).

Fixpoint port_loop (allow : bool) (fuel i : nat) (limit : option nat) (queue : list OutportMessage) (p : Port) :
  option (Progress * list OutportMessage * Port) :=
  match fuel with
  | 0 => Some (Running limit, queue, p)
  | S fuel =>
      let queue := queue ++ arrivals i in
      match limit with
      | None => port_loop allow fuel (S i) (Some (Nat.min (Nat.max (length queue) 1) MAX_BATCH_SIZE)) queue p
      | Some l =>
          match queue with
          | [] => if closed i then Some (Finished, queue, p) else port_loop allow fuel (S i) (Some l) queue p
          | _ =>
              match dispatch_batch allow (take l queue) p with
              | Some p => port_loop allow fuel (S i) None (drop l queue) p
              | None => None
              end
          end
      end
  end.

(** ** One message at a time *)

Fixpoint fan_out (subs : Subscribers) (v : TMsg) (o : Outbox) : Port :=
  match subs with
  | [] => ([], o)
  | (id, s) :: rest =>
      let '(sent, o) := sub_send s v o in
      let '(rest, o) := fan_out rest v o in
      (if sent then (id, s) :: rest else rest, o)
  end.

Definition apply_message (allow : bool) (p : Port) (m : OutportMessage) : Port :=
  match m with
  | Data v => fan_out p.1 v p.2
  | SetSubscriber (Some s) => (apply_subscriber p.1 s allow, p.2)
  | SetSubscriber None => p
  end.

(** ** What one subscriber is sent *)

(** The messages it accepts among [vs] after [n] accepted ones, and whether it refuses none *)
Fixpoint inbox (s : Subscriber) (vs : list TMsg) (n : nat) : bool * list R :=
  match vs with
  | [] => (true, [])
  | v :: vs =>
      match sub_filter s v with
      | None => inbox s vs n
      | Some w => if accepts (sub_key s) n then let '(b, ws) := inbox s vs (S n) in (b, w :: ws) else (false, [])
      end
  end.

Definition pushes (k : nat) (ws : list R) (o : Outbox) : Outbox := foldl (λ o w, push k w o) o ws.

Fixpoint send_all (s : Subscriber) (vs : list TMsg) (o : Outbox) : bool * Outbox :=
  match vs with
  | [] => (true, o)
  | v :: vs => let '(sent, o) := sub_send s v o in if sent then send_all s vs o else (false, o)
  end.

(** The messages of a segment to all subscribers, one subscriber after the other *)
Fixpoint fan_all (subs : Subscribers) (vs : list TMsg) (o : Outbox) : Port :=
  match subs with
  | [] => ([], o)
  | (id, s) :: rest =>
      let '(kept, o) := send_all s vs o in
      let '(rest, o) := fan_all rest vs o in
      (if kept then (id, s) :: rest else rest, o)
  end.

Definition keys (subs : Subscribers) : list nat := (λ x, sub_key x.2) <$> subs.

Lemma push_same k w o : push k w o !!! k = (o !!! k) ++ [w].
Proof using. unfold push. by rewrite lookup_total_insert_eq. Qed.
Lemma push_other k k' w o : k ≠ k' → push k w o !!! k' = o !!! k'.
Proof using. intros Hk. unfold push. by rewrite lookup_total_insert_ne. Qed.
Lemma push_comm k k' w w' o : k ≠ k' → push k w (push k' w' o) = push k' w' (push k w o).
Proof using.
  intros Hk. unfold push. rewrite !lookup_total_insert_ne by done. by apply insert_insert_ne.
Qed.

Lemma pushes_cons k w ws o : pushes k (w :: ws) o = pushes k ws (push k w o).
Proof using. done. Qed.

Lemma pushes_same k ws o : pushes k ws o !!! k = (o !!! k) ++ ws.
Proof using.
  revert o. induction ws as [|w ws IH]; intros o; [by rewrite app_nil_r|]. rewrite pushes_cons, IH, push_same. by rewrite <-app_assoc.
Qed.
Lemma pushes_other k k' ws o : k ≠ k' → pushes k ws o !!! k' = o !!! k'.
Proof using. intros Hk. revert o. induction ws as [|w ws IH]; intros o; [done|]. by rewrite pushes_cons, IH, push_other. Qed.
Lemma push_pushes k k' w ws o : k ≠ k' → push k w (pushes k' ws o) = pushes k' ws (push k w o).
Proof using. intros Hk. revert o. induction ws as [|w' ws IH]; intros o; [done|]. by rewrite !pushes_cons, IH, push_comm. Qed.
Lemma pushes_app k ws ws' o : pushes k (ws ++ ws') o = pushes k ws' (pushes k ws o).
Proof using. apply foldl_app. Qed.

Lemma send_all_inbox s vs o :
  let '(b, ws) := inbox s vs (length (o !!! sub_key s)) in send_all s vs o = (b, pushes (sub_key s) ws o).
Proof using.
  revert o. induction vs as [|v vs IH]; intros o; cbn; [done|]. unfold sub_send. destruct (sub_filter s v) as [w|]; [|apply IH].
  destruct (accepts _ _); [|done]. specialize (IH (push (sub_key s) w o)). rewrite push_same, length_app in IH. cbn in IH.
  rewrite Nat.add_1_r in IH. destruct (inbox s vs _) as [b ws]. exact IH.
Qed.

(** Sends to other subscribers do not matter. *)
Lemma send_all_frame s vs k ws o : k ≠ sub_key s →
  send_all s vs (pushes k ws o) = let '(b, o') := send_all s vs o in (b, pushes k ws o').
Proof using.
  intros Hk. revert o. induction vs as [|v vs IH]; intros o; cbn; [done|]. unfold sub_send.
  destruct (sub_filter s v) as [w|]; [|apply IH]. rewrite pushes_other by done. destruct (accepts _ _); [|done].
  rewrite push_pushes by congruence. apply IH.
Qed.

Lemma fan_all_frame subs vs k ws o : k ∉ keys subs →
  fan_all subs vs (pushes k ws o) = let '(r, o') := fan_all subs vs o in (r, pushes k ws o').
Proof using.
  revert o. induction subs as [|[id s] subs IH]; intros o Hk; cbn; [done|].
  cbn in Hk. apply not_elem_of_cons in Hk as [Hks Hk]. rewrite send_all_frame by done.
  destruct (send_all s vs o) as [b o1]. rewrite IH by done. by destruct (fan_all subs vs o1).
Qed.

(** The first subscriber, and the others as if it were not there *)
Lemma fan_all_cons id s subs vs o : sub_key s ∉ keys subs →
  fan_all ((id, s) :: subs) vs o =
  let '(b, ws) := inbox s vs (length (o !!! sub_key s)) in
  let '(r, o') := fan_all subs vs o in
  (if b : bool then (id, s) :: r else r, pushes (sub_key s) ws o').
Proof using.
  intros Hk. cbn [fan_all]. pose proof (send_all_inbox s vs o) as Hs. destruct (inbox s vs _) as [b ws]. rewrite Hs.
  rewrite fan_all_frame by done. by destruct (fan_all subs vs o).
Qed.

Lemma fan_all_keys subs vs o : keys (fan_all subs vs o).1 `sublist_of` keys subs.
Proof using.
  revert o. induction subs as [|[id s] subs IH]; intros o; cbn; [done|]. destruct (send_all s vs o) as [b o1].
  specialize (IH o1). destruct (fan_all subs vs o1) as [r o2]. destruct b; cbn in *; by constructor.
Qed.

Lemma fan_all_other subs vs o k : k ∉ keys subs → (fan_all subs vs o).2 !!! k = o !!! k.
Proof using.
  revert o. induction subs as [|[id s] subs IH]; intros o Hk; cbn; [done|].
  cbn in Hk. apply not_elem_of_cons in Hk as [Hks Hk]. pose proof (send_all_inbox s vs o) as Hs.
  destruct (inbox s vs _) as [b ws]. rewrite Hs. specialize (IH (pushes (sub_key s) ws o) Hk).
  destruct (fan_all subs vs _) as [r o2]. cbn in *. by rewrite IH, pushes_other.
Qed.

Lemma inbox_cons s v vs n :
  inbox s (v :: vs) n =
  let '(b1, ws1) := inbox s [v] n in
  if b1 then let '(b2, ws2) := inbox s vs (n + length ws1) in (b2, ws1 ++ ws2) else (false, ws1).
Proof using.
  cbn. destruct (sub_filter s v) as [w|]; [|rewrite Nat.add_0_r; by destruct (inbox s vs n)].
  destruct (accepts _ _); [|done]. cbn. rewrite Nat.add_1_r. by destruct (inbox s vs (S n)).
Qed.

(** Subscriber after subscriber or message after message is the same. *)
Lemma fan_all_step subs v vs o : NoDup (keys subs) →
  fan_all subs (v :: vs) o = let '(r, o') := fan_all subs [v] o in fan_all r vs o'.
Proof using.
  revert o. induction subs as [|[id s] subs IH]; intros o Hn; [done|].
  cbn in Hn. apply NoDup_cons in Hn as [Hk Hn]. rewrite !fan_all_cons, IH, inbox_cons by done.
  pose proof (fan_all_keys subs [v] o) as Hsub. pose proof (fan_all_other subs [v] o _ Hk) as Hother.
  destruct (inbox s [v] _) as [b1 ws1] eqn:E1. destruct (fan_all subs [v] o) as [r1 o1]. cbn in Hsub, Hother.
  assert (sub_key s ∉ keys r1) as Hk1 by (intros Hin; apply Hk; by eapply elem_of_sublist).
  destruct b1; [|rewrite fan_all_frame by done; by destruct (fan_all r1 vs o1)].
  rewrite fan_all_cons, pushes_same, length_app, Hother by done.
  destruct (inbox s vs _) as [b2 ws2]. rewrite fan_all_frame by done. destruct (fan_all r1 vs o1) as [r2 o2].
  by rewrite pushes_app.
Qed.

Lemma fan_out_all subs v o : fan_out subs v o = fan_all subs [v] o.
Proof using.
  revert o. induction subs as [|[id s] subs IH]; intros o; cbn; [done|]. destruct (sub_send s v o) as [b o1].
  rewrite IH. by destruct b.
Qed.

Lemma fan_all_nil subs o : fan_all subs [] o = (subs, o).
Proof using. induction subs as [|[id s] subs IH]; cbn; [done|]. by rewrite IH. Qed.

Lemma fan_all_fold allow subs vs o : NoDup (keys subs) →
  fan_all subs vs o = foldl (apply_message allow) (subs, o) (Data <$> vs).
Proof using.
  revert subs o. induction vs as [|v vs IH]; intros subs o Hn; cbn; [apply fan_all_nil|].
  rewrite fan_all_step, fan_out_all by done. pose proof (fan_all_keys subs [v] o) as Hs.
  destruct (fan_all subs [v] o) as [r o1]. apply IH. by eapply sublist_NoDup.
Qed.

(** ** The loops over indices *)

Lemma send_segment_all s vs o : send_segment s (Data <$> vs) o = Some (send_all s vs o).
Proof using.
  revert o. induction vs as [|v vs IH]; intros o; cbn; [done|]. destruct (sub_send s v o) as [[] o1]; [apply IH|done].
Qed.

Lemma subscriber_loop_fan fuel kept rest vs o : length rest ≤ fuel →
  subscriber_loop fuel (length kept) (Data <$> vs) (kept ++ rest) o =
  let '(r, o') := fan_all rest vs o in Some (kept ++ r, o').
Proof using.
  revert kept rest o. induction fuel as [|fuel IH]; intros kept [|[id s] rest] o Hf; cbn [length] in Hf; try lia.
  1,2: (cbn [subscriber_loop]; rewrite app_nil_r, lookup_ge_None_2 by lia; cbn; by rewrite app_nil_r).
  cbn [subscriber_loop fan_all]. rewrite list_lookup_middle by done. rewrite send_segment_all.
  destruct (send_all s vs o) as [[] o1].
  - specialize (IH (kept ++ [(id, s)]) rest o1 ltac:(lia)). rewrite length_app, Nat.add_1_r, <-app_assoc in IH. cbn [app] in IH.
    rewrite IH. destruct (fan_all rest vs o1) as [r o2]. by rewrite <-app_assoc.
  - rewrite delete_middle. rewrite IH by lia. by destruct (fan_all rest vs o1).
Qed.

Lemma position_spec (ms : list OutportMessage) :
  match position is_set ms with
  | Some k => ∃ vs x rest, ms = (Data <$> vs) ++ SetSubscriber x :: rest ∧ length vs = k
  | None => ∃ vs, ms = Data <$> vs
  end.
Proof using.
  induction ms as [|[v|x] ms IH]; cbn; [by exists []| |].
  - destruct (position is_set ms) as [k|]; cbn.
    + destruct IH as (vs & x & rest & -> & <-). by exists (v :: vs), x, rest.
    + destruct IH as (vs & ->). by exists (v :: vs).
  - by exists [], x, ms.
Qed.

(** The keys of the subscriptions on their way *)
Definition set_keys (ms : list OutportMessage) : list nat :=
  omap (λ m, match m with SetSubscriber (Some s) => Some (sub_key s) | _ => None end) ms.
Definition distinct (p : Port) (ms : list OutportMessage) : Prop := NoDup (keys p.1 ++ set_keys ms).

Lemma replace_first_keys id s subs subs' : replace_first id s subs = Some subs' → keys subs' ⊆+ sub_key s :: keys subs.
Proof using.
  revert subs'. induction subs as [|[id' s'] subs IH]; intros subs'; cbn; [done|]. destruct (decide (id' = id)) as [->|].
  - intros [= <-]. cbn. apply submseteq_skip, submseteq_cons. done.
  - destruct (replace_first id s subs) as [r|]; [|done]. intros [= <-]. cbn. rewrite Permutation_swap. by apply submseteq_skip, IH.
Qed.

Lemma apply_subscriber_keys subs s allow : keys (apply_subscriber subs s allow) ⊆+ sub_key s :: keys subs.
Proof using.
  assert (keys (subs ++ [(sub_id s, s)]) ⊆+ sub_key s :: keys subs) as Hp.
  { unfold keys. rewrite fmap_app. cbn. by rewrite Permutation_app_comm. }
  unfold apply_subscriber. destruct allow; [done|]. destruct (replace_first (sub_id s) s subs) as [r|] eqn:E; [|done].
  by eapply replace_first_keys.
Qed.

Lemma NoDup_contained (l l' : list nat) : l ⊆+ l' → NoDup l' → NoDup l.
Proof using. intros [k ->]%submseteq_Permutation. by intros [? _]%NoDup_app. Qed.

Lemma distinct_step allow p m ms : distinct p (m :: ms) → distinct (apply_message allow p m) ms.
Proof using.
  unfold distinct. destruct p as [subs o]. destruct m as [v|[s|]]; cbn; [| |done]; apply NoDup_contained.
  - rewrite fan_out_all. pose proof (fan_all_keys subs [v] o) as Hs. destruct (fan_all subs [v] o) as [r o1]. cbn in *.
    by apply submseteq_skips_r, sublist_submseteq.
  - rewrite (submseteq_skips_r _ _ _ (apply_subscriber_keys subs s allow)). by rewrite <-Permutation_middle.
Qed.

Lemma distinct_steps allow p ms ms' : distinct p (ms ++ ms') → distinct (foldl (apply_message allow) p ms) ms'.
Proof using. revert p. induction ms as [|m ms IH]; intros p; cbn; [done|]. intros Hd. by apply IH, distinct_step. Qed.

Lemma distinct_nodup p ms : distinct p ms → NoDup (keys p.1).
Proof using. by intros [? _]%NoDup_app. Qed.

Lemma segment_loop_fold fuel start batch allow p : length batch - start ≤ fuel → distinct p (drop start batch) →
  segment_loop fuel start batch allow p = Some (foldl (apply_message allow) p (drop start batch)).
Proof using.
  revert start batch p. induction fuel as [|fuel IH]; intros start batch p Hf Hd; cbn [segment_loop].
  { rewrite (proj2 (Nat.ltb_ge _ _)) by lia. by rewrite drop_ge by lia. }
  destruct (start <? length batch) eqn:Hlt; [apply Nat.ltb_lt in Hlt|by apply Nat.ltb_ge in Hlt; rewrite drop_ge by lia].
  pose proof (position_spec (drop start batch)) as Hpos. destruct p as [subs o].
  assert (∀ vs ms, drop start batch = (Data <$> vs) ++ ms → 0 < length vs →
    subscriber_loop (length subs) 0 (Data <$> vs) subs o = Some (foldl (apply_message allow) (subs, o) (Data <$> vs))) as Hseg.
  { intros vs ms E Hvs. pose proof (subscriber_loop_fan (length subs) [] subs vs o ltac:(lia)) as H. cbn [length app] in H.
    rewrite H, <-(fan_all_fold allow) by (eapply (distinct_nodup (subs, o)); exact Hd). by destruct (fan_all subs vs o). }
  destruct (position is_set (drop start batch)) as [k|] eqn:Ek.
  - destruct Hpos as (vs & x & rest & E & Hk).
    assert (length (drop start batch) = length vs + S (length rest)) as Hlen by (by rewrite E, length_app, length_fmap).
    rewrite length_drop in Hlen.
    assert ((if start <? start + k then subscriber_loop (length subs) 0 (take (start + k - start) (drop start batch)) subs o
      else Some (subs, o)) = Some (foldl (apply_message allow) (subs, o) (Data <$> vs))) as Hs.
    { destruct (start <? start + k) eqn:Hk0.
      - apply Nat.ltb_lt in Hk0. replace (start + k - start) with k by lia. rewrite E at 1.
        rewrite take_app_le, take_ge by (rewrite length_fmap; lia). apply (Hseg vs (SetSubscriber x :: rest)); [done|lia].
      - apply Nat.ltb_ge in Hk0. destruct vs; [done|cbn in Hk; lia]. }
    cbn [fst snd]. rewrite Hs. destruct (foldl _ _ (Data <$> vs)) as [subs1 o1] eqn:E1.
    rewrite (proj2 (Nat.eqb_neq _ _)) by lia.
    assert (batch !! (start + k) = Some (SetSubscriber x)) as ->.
    { rewrite <-lookup_drop, E, lookup_app_r by (rewrite length_fmap; lia). by rewrite length_fmap, Hk, Nat.sub_diag. }
    assert (drop (S (start + k)) batch = rest) as Hrest.
    { replace (S (start + k)) with (start + S k) by lia. rewrite <-drop_drop, E. replace (S k) with (k + 1) by lia.
      by rewrite drop_app_add' by (by rewrite length_fmap). }
    rewrite IH.
    + rewrite drop_insert_lt by lia. rewrite Hrest, E, foldl_app, E1. cbn. by destruct x.
    + rewrite length_insert. lia.
    + rewrite drop_insert_lt by lia. rewrite Hrest.
      assert (distinct (subs1, o1) (SetSubscriber x :: rest)) as Hd1 by (rewrite <-E1; apply distinct_steps; by rewrite <-E).
      apply (distinct_step allow) in Hd1. by destruct x.
  - destruct Hpos as [vs E]. rewrite (proj2 (Nat.ltb_lt _ _)) by done. rewrite E at 1.
    assert (length (drop start batch) = length vs) as Hlen by (by rewrite E, length_fmap). rewrite length_drop in Hlen.
    rewrite take_ge by (rewrite length_fmap; lia). cbn [fst snd]. rewrite (Hseg vs []) by (rewrite ?app_nil_r; first [done|lia]).
    rewrite Nat.eqb_refl, E. by destruct (foldl _ _ _).
Qed.

Lemma dispatch_batch_fold allow batch p : distinct p batch →
  dispatch_batch allow batch p = Some (foldl (apply_message allow) p batch).
Proof using. intros Hd. unfold dispatch_batch. by rewrite segment_loop_fold by (rewrite ?drop_0; first [lia|done]). Qed.

(** ** The task *)

(** What was sent in [n] awaits from the [i]-th *)
Definition sent (i n : nat) : list OutportMessage := concat (arrivals <$> seq i n).

Lemma sent_S i n : sent i (S n) = arrivals i ++ sent (S i) n.
Proof using. done. Qed.

Lemma distinct_app p ms ms' : distinct p (ms ++ ms') → distinct p ms.
Proof using.
  unfold distinct, set_keys. rewrite omap_app, app_assoc. by intros [? _]%NoDup_app.
Qed.

(** The task applies what was sent one by one, whatever the batches: what it has not applied is in its
    queue. *)
Lemma port_loop_spec allow fuel i limit queue p : distinct p (queue ++ sent i fuel) →
  ∃ n progress queue' consumed, n ≤ fuel ∧
    port_loop allow fuel i limit queue p = Some (progress, queue', foldl (apply_message allow) p consumed) ∧
    queue ++ sent i n = consumed ++ queue' ∧
    match progress with Finished => queue' = [] ∧ ∃ m, n = S m ∧ closed (i + m) = true | Running _ => n = fuel end.
Proof using.
  revert i limit queue p. induction fuel as [|fuel IH]; intros i limit queue p Hd; cbn [port_loop].
  { exists 0, (Running limit), queue, []. split_and!; [done|done|by rewrite app_nil_r|done]. }
  rewrite sent_S, app_assoc in Hd. set (q := queue ++ arrivals i) in *.
  assert (∀ limit consumed rest, q = consumed ++ rest → ∃ n progress queue' consumed', n ≤ S fuel ∧
    port_loop allow fuel (S i) limit rest (foldl (apply_message allow) p consumed) =
      Some (progress, queue', foldl (apply_message allow) p consumed') ∧
    queue ++ sent i n = consumed' ++ queue' ∧
    match progress with Finished => queue' = [] ∧ ∃ m, n = S m ∧ closed (i + m) = true | Running _ => n = S fuel end) as Hgo.
  { intros limit' consumed rest E. destruct (IH (S i) limit' rest (foldl (apply_message allow) p consumed))
      as (n & progress & queue' & consumed' & Hn & Hl & Hq & Hp).
    { apply distinct_steps. by rewrite app_assoc, <-E. }
    exists (S n), progress, queue', (consumed ++ consumed'). split_and!; [lia|by rewrite Hl, foldl_app| |].
    2:{ destruct progress; [|lia]. destruct Hp as (? & m & -> & Hm). split; [done|]. exists (S m). by rewrite Nat.add_succ_r. }
    rewrite sent_S, app_assoc. fold q. by rewrite E, <-!app_assoc, Hq. }
  destruct limit as [l|]; [|by apply (Hgo _ [])]. destruct q as [|m ms] eqn:Eq.
  - destruct (closed i) eqn:Hc; [|by apply (Hgo _ [])]. exists 1, Finished, [], [].
    split_and!; [lia|done| |done|exists 0; by rewrite Nat.add_0_r]. rewrite sent_S. cbn [sent seq fmap list_fmap concat]. rewrite app_nil_r. fold q. exact Eq.
  - rewrite <-Eq in *. rewrite dispatch_batch_fold.
    + apply (Hgo None (take l q) (drop l q)). by rewrite take_drop.
    + apply distinct_app with (drop l q), distinct_app with (sent (S i) fuel). by rewrite take_drop.
Qed.

(** Two awaits are enough for a batch, which has one message at least. *)
Definition rounds (limit : option nat) (queue : list OutportMessage) : nat :=
  match limit with Some _ => 2 * length queue - 1 | None => 2 * length queue end.

Lemma port_loop_empties allow fuel i limit queue p :
  (∀ j, i ≤ j → arrivals j = []) → distinct p queue → limit ≠ Some 0 → rounds limit queue ≤ fuel →
  ∃ progress p', port_loop allow fuel i limit queue p = Some (progress, [], p').
Proof using.
  revert i limit queue p. induction fuel as [|fuel IH]; intros i limit queue p Ha Hd Hl Hf; cbn [port_loop].
  { destruct queue; [by do 2 eexists|destruct limit; cbn in Hf; lia]. }
  rewrite (Ha i) by lia. rewrite app_nil_r. assert (∀ j, S i ≤ j → arrivals j = []) as Ha' by (intros; apply Ha; lia).
  destruct limit as [l|].
  - destruct queue as [|m ms].
    + destruct (closed i); [by do 2 eexists|]. apply IH; [done|done|done|cbn; lia].
    + rewrite dispatch_batch_fold by (apply distinct_app with (drop l (m :: ms)); by rewrite take_drop).
      apply IH; [done|apply distinct_steps; by rewrite take_drop|done|]. destruct l as [|l]; [done|].
      unfold rounds in *. rewrite length_drop. cbn [length] in *. lia.
  - apply IH; [done|done|unfold MAX_BATCH_SIZE; intros [=]; lia|]. unfold rounds in *. lia.
Qed.

(** After [n] awaits nothing is sent any more; the task needs as many, and two for each message. *)
Lemma port_loop_drains allow fuel i n limit queue p :
  (∀ j, i + n ≤ j → arrivals j = []) → distinct p (queue ++ sent i n) → limit ≠ Some 0 →
  n + 2 * length (queue ++ sent i n) ≤ fuel →
  ∃ progress p', port_loop allow fuel i limit queue p = Some (progress, [], p').
Proof using.
  revert fuel i limit queue p. induction n as [|n IH]; intros fuel i limit queue p Ha Hd Hl Hf.
  { cbn in *. rewrite app_nil_r in *. apply port_loop_empties; [intros j Hj; apply Ha; lia|done|done|]. destruct limit; cbn; lia. }
  destruct fuel as [|fuel]; [lia|]. cbn [port_loop]. rewrite sent_S, app_assoc in Hd, Hf.
  set (q := queue ++ arrivals i) in *. assert (∀ j, S i + n ≤ j → arrivals j = []) as Ha' by (intros; apply Ha; lia).
  destruct limit as [l|]; [|apply IH; [done|done|unfold MAX_BATCH_SIZE; intros [=]; lia|lia]].
  destruct q as [|m ms] eqn:Eq.
  - destruct (closed i); [by do 2 eexists|]. apply IH; [done|done|done|lia].
  - rewrite <-Eq in *. rewrite dispatch_batch_fold.
    + apply IH; [done| |done|].
      * apply distinct_steps. by rewrite app_assoc, take_drop.
      * rewrite length_app in *. rewrite length_drop. lia.
    + apply distinct_app with (drop l q), distinct_app with (sent (S i) n). by rewrite take_drop.
Qed.

(** ** What a subscriber receives *)

Definition data (ms : list OutportMessage) : list TMsg := omap (λ m, match m with Data v => Some v | _ => None end) ms.

(** The messages that the filter lets through, up to the first that is refused *)
Lemma inbox_prefix s vs n : let ws := omap (sub_filter s) vs in
  ∃ k, (inbox s vs n).2 = take k ws ∧ k ≤ length ws ∧ (∀ i, i < k → accepts (sub_key s) (n + i) = true) ∧
    (k < length ws → accepts (sub_key s) (n + k) = false).
Proof using.
  revert n. induction vs as [|v vs IH]; intros n; cbn [inbox omap list_omap].
  { exists 0. split_and!; [done|cbn; lia|intros; lia|cbn; lia]. }
  destruct (sub_filter s v) as [w|]; [|apply IH]. destruct (accepts (sub_key s) n) eqn:E.
  - destruct (IH (S n)) as (k & Hk & Hle & Hacc & Href). destruct (inbox s vs (S n)) as [b ws]. exists (S k). cbn in *.
    split_and!; [by rewrite Hk|lia| |intros Hlt; rewrite Nat.add_succ_r; apply Href; lia].
    intros [|i] Hi; [by rewrite Nat.add_0_r|]. rewrite Nat.add_succ_r. apply Hacc. lia.
  - exists 0. cbn. rewrite Nat.add_0_r. split_and!; [done|lia|intros i Hi; lia|done].
Qed.

(** A subscription that is gone is not sent anything. *)
Lemma gone_receives ms p k : k ∉ keys p.1 ++ set_keys ms → (foldl (apply_message true) p ms).2 !!! k = p.2 !!! k.
Proof using.
  revert p. induction ms as [|m ms IH]; intros [subs o] Hk; cbn; [done|].
  rewrite not_elem_of_app in Hk. destruct Hk as [Hk Hs]. destruct m as [v|[s|]]; cbn in *.
  - rewrite fan_out_all. pose proof (fan_all_keys subs [v] o) as Hsub. pose proof (fan_all_other subs [v] o k Hk) as Ho.
    destruct (fan_all subs [v] o) as [r o1]. cbn in *. rewrite IH; [done|]. rewrite not_elem_of_app. split; [|done].
    intros Hin. apply Hk. by eapply elem_of_sublist.
  - apply not_elem_of_cons in Hs as [Hks Hs]. rewrite IH; [done|]. unfold apply_subscriber, keys. cbn.
    rewrite fmap_app, !not_elem_of_app. split_and!; [done|cbn; by intros ?%list_elem_of_singleton|done].
  - apply IH. by rewrite not_elem_of_app.
Qed.

Lemma fan_all_member subs vs o id s : NoDup (keys subs) → (id, s) ∈ subs →
  let '(b, ws) := inbox s vs (length (o !!! sub_key s)) in
  let '(r, o') := fan_all subs vs o in
  o' !!! sub_key s = (o !!! sub_key s) ++ ws ∧ (if b : bool then (id, s) ∈ r else sub_key s ∉ keys r).
Proof using.
  revert o. induction subs as [|[id' s'] subs IH]; intros o Hn Hin; [by apply not_elem_of_nil in Hin|].
  cbn in Hn. apply NoDup_cons in Hn as [Hk Hn]. rewrite fan_all_cons by done. apply elem_of_cons in Hin as [[= <- <-]|Hin].
  - pose proof (fan_all_other subs vs o _ Hk) as Ho. pose proof (fan_all_keys subs vs o) as Hsub.
    destruct (inbox s vs _) as [b ws], (fan_all subs vs o) as [r o1]. cbn in *. rewrite pushes_same, Ho. split; [done|].
    destruct b; [by left|]. intros ?. apply Hk. by eapply elem_of_sublist.
  - assert (sub_key s' ≠ sub_key s) as Hne.
    { intros E. apply Hk. rewrite E. apply (list_elem_of_fmap_2 (λ x : Id * Subscriber, sub_key x.2) _ _ Hin). }
    specialize (IH o Hn Hin). destruct (inbox s vs _) as [b ws], (inbox s' vs _) as [b' ws'], (fan_all subs vs o) as [r o1].
    destruct IH as [IH1 IH2]. rewrite pushes_other by done. split; [done|].
    destruct b, b'; [by right|done| |done]. cbn. by apply not_elem_of_cons.
Qed.

Lemma subscribed_receives ms p id s : distinct p ms → (id, s) ∈ p.1 →
  (foldl (apply_message true) p ms).2 !!! sub_key s =
  (p.2 !!! sub_key s) ++ (inbox s (data ms) (length (p.2 !!! sub_key s))).2.
Proof using.
  revert p. induction ms as [|m ms IH]; intros [subs o] Hd Hin; cbn [foldl]; [cbn; by rewrite app_nil_r|].
  pose proof (distinct_step true _ _ _ Hd) as Hd'. pose proof (distinct_nodup _ _ Hd) as Hn. cbn [fst snd] in *.
  destruct m as [v|[s'|]].
  - change (data (Data v :: ms)) with (v :: data ms). rewrite inbox_cons. cbn [apply_message fst snd] in *.
    rewrite fan_out_all in *. pose proof (fan_all_member subs [v] o id s Hn Hin) as Hm.
    destruct (inbox s [v] _) as [b1 ws1]. destruct (fan_all subs [v] o) as [r o1]. destruct Hm as [Ho Hr].
    destruct b1.
    + rewrite (IH (r, o1)) by done. cbn [snd]. rewrite Ho, length_app. destruct (inbox s (data ms) _) as [b2 ws2].
      by rewrite <-app_assoc.
    + rewrite gone_receives; [done|]. rewrite not_elem_of_app. split; [done|]. cbn [fst].
      unfold distinct in Hd. cbn in Hd. apply NoDup_app in Hd as (_ & Hd & _). apply Hd.
      apply (list_elem_of_fmap_2 (λ x : Id * Subscriber, sub_key x.2) _ _ Hin).
  - rewrite (IH (apply_message true (subs, o) (SetSubscriber (Some s')))); [done|done|]. cbn. apply elem_of_app. by left.
  - by apply IH.
Qed.
End output.

Arguments Subscriber : clear implicits.
Arguments OutportMessage : clear implicits.

(** ** The theorems of the fan-out task *)

(** C34: batches do not matter (feature output-port-v2).  However messages and subscriptions arrive, and whatever the receivers
    accept, the fan-out task never reaches the code it takes for unreachable; when it has run for any time,
    what was sent is what it has handled followed by what is in its queue, and its subscribers and all that
    was delivered to each of them are as if it had handled that one message at a time.  The subscriptions
    have keys of their own, and deliveries are recorded for each subscription: in which order two
    subscriptions of one actor reach its mailbox within a batch is not covered. *)
Theorem batching_irrelevant {Id TMsg R} `{!EqDecision Id} (accepts : nat → nat → bool)
  (arrivals : nat → list (OutportMessage Id TMsg R)) (closed : nat → bool) (allow : bool) (fuel : nat) :
  NoDup (set_keys (sent arrivals 0 fuel)) →
  ∃ n progress queue handled, n ≤ fuel ∧
    port_loop accepts arrivals closed allow fuel 0 None [] ([], ∅) =
      Some (progress, queue, foldl (apply_message accepts allow) ([], ∅) handled) ∧
    sent arrivals 0 n = handled ++ queue ∧
    match progress with Finished => queue = [] | Running _ => n = fuel end.
Proof.
  intros Hd. destruct (port_loop_spec accepts arrivals closed allow fuel 0 None [] ([], ∅) Hd)
    as (n & progress & queue & handled & ? & ? & ? & Hp). exists n, progress, queue, handled.
  split_and!; [done..|]. destruct progress; [apply Hp|done].
Qed.

(** C35: with the feature output-port-v2, every subscriber receives every message, in order (the default port
    may lose messages: [default_port_in_order]).  When nothing more is sent after [n] awaits, the
    task has handled everything after as many awaits and two for each message; then a subscription has been
    delivered what its filter makes of every message published after it was made, in the order of
    publication, up to the first one that its actor refuses. *)
Theorem subscriber_receives {Id TMsg R} `{!EqDecision Id} (accepts : nat → nat → bool)
  (arrivals : nat → list (OutportMessage Id TMsg R)) (closed : nat → bool) (n fuel : nat) before s after :
  (∀ i, n ≤ i → arrivals i = []) → sent arrivals 0 n = before ++ SetSubscriber (Some s) :: after →
  NoDup (set_keys (sent arrivals 0 n)) → n + 2 * length (sent arrivals 0 n) ≤ fuel → (∀ i, closed i = true → n ≤ i) →
  let published := omap (sub_filter s) (data after) in
  ∃ progress subs outbox k, port_loop accepts arrivals closed true fuel 0 None [] ([], ∅) = Some (progress, [], (subs, outbox)) ∧
    outbox !!! sub_key s = take k published ∧ k ≤ length published ∧
    (∀ i, i < k → accepts (sub_key s) i = true) ∧ (k < length published → accepts (sub_key s) k = false).
Proof.
  intros Ha Hs Hd Hf Hc published. assert (distinct ([], ∅) (sent arrivals 0 n)) as Hd0 by done.
  assert (∀ m, n ≤ m → sent arrivals 0 m = sent arrivals 0 n) as Hsent.
  { intros m Hm. replace m with (n + (m - n)) by lia. unfold sent. rewrite seq_app, fmap_app, concat_app. cbn [Nat.add].
    assert (concat (arrivals <$> seq n (m - n)) = []) as ->; [|apply app_nil_r].
    assert (∀ k i, n ≤ i → concat (arrivals <$> seq i k) = []) as Hz; [|by apply Hz].
    induction k as [|k IH]; intros i Hi; cbn; [done|]. rewrite Ha by done. apply IH. lia. }
  destruct (port_loop_drains accepts arrivals closed true fuel 0 n None [] ([], ∅)) as (progress & p' & Hl); [done|done|done|done|].
  destruct (port_loop_spec accepts arrivals closed true fuel 0 None [] ([], ∅)) as (m & pr & q & handled & Hm & Hl' & Hq & Hp).
  { cbn [app]. by rewrite Hsent by lia. }
  rewrite Hl in Hl'. injection Hl' as <- <- Hp'.
  assert (handled = sent arrivals 0 n) as ->.
  { rewrite app_nil_r in Hq. cbn [app] in Hq. rewrite <-Hq. apply Hsent.
    destruct progress; [destruct Hp as (_ & k & -> & Hk%Hc); cbn in Hk; lia|lia]. }
  rewrite Hs, foldl_app in Hp'. cbn [foldl] in Hp'. set (p1 := foldl (apply_message accepts true) ([], ∅) before) in Hp'.
  assert (distinct p1 (SetSubscriber (Some s) :: after)) as Hd1 by (apply distinct_steps; by rewrite <-Hs).
  assert (p1.2 !!! sub_key s = []) as Hempty.
  { unfold p1. rewrite gone_receives; [done|]. cbn. rewrite Hs in Hd. unfold set_keys in Hd. rewrite omap_app in Hd. cbn in Hd.
    apply NoDup_app in Hd as (_ & Hd & _). intros Hin. apply (Hd _ Hin). by left. }
  destruct p' as [subs outbox].
  pose proof (subscribed_receives accepts after (apply_message accepts true p1 (SetSubscriber (Some s))) (sub_id s) s
    (distinct_step accepts true _ _ _ Hd1)) as Hr.
  rewrite <-Hp' in Hr. cbn [apply_message fst snd] in Hr. rewrite Hempty in Hr. cbn [length app] in Hr.
  destruct (inbox_prefix accepts s (data after) 0) as (k & Hk & Hle & Hacc & Href).
  exists progress, subs, outbox, k. split_and!; [done| |done|exact Hacc|exact Href].
  rewrite Hr, Hk; [done|]. unfold apply_subscriber. apply elem_of_app. right. by left.
Qed.

(** ** The first version

    The broadcast channel is tokio's: a receiver gets the messages in order, may be told that it lags and
    has lost some, and learns that the senders are gone. *)

Inductive Recv (TMsg : Type) := Received (m : option TMsg) | Closed | Lagged (n : N).
Arguments Received {TMsg} m.
Arguments Closed {TMsg}.
Arguments Lagged {TMsg} n.

Section broadcast.
Context {TMsg R : Type}.
(** The results of [recv], and whether the cast that follows [n] accepted ones succeeds *)
Variable recv : nat → Recv TMsg.
Variable accepts : nat → bool.
Variable converter : TMsg → option R.

(** The task of [OutputPortSubscription::new]: whether it has returned, and what it has forwarded *)
Fixpoint subscription_task (fuel i : nat) (forwarded : list R) : bool * list R :=
  match fuel with
  | 0 => (false, forwarded)
  | S fuel =>
      match recv i with
      | Received (Some msg) =>
          match converter msg with
          | Some new_msg =>
              if accepts (length forwarded) then subscription_task fuel (S i) (forwarded ++ [new_msg])
              else (true, forwarded)
          | None => subscription_task fuel (S i) forwarded
          end
      | Received None | Closed => (true, forwarded)
      | Lagged _ => subscription_task fuel (S i) forwarded
      end
  end.

(** The messages received before the end of the channel *)
Fixpoint received (fuel i : nat) : list TMsg :=
  match fuel with
  | 0 => []
  | S fuel =>
      match recv i with
      | Received (Some msg) => msg :: received fuel (S i)
      | Received None | Closed => []
      | Lagged _ => received fuel (S i)
      end
  end.

(** A subscription forwards what the converter makes of what it receives, in order, up to the first cast
    that is refused, which ends it. *)
Lemma subscription_forwards fuel i forwarded : let ws := omap converter (received fuel i) in
  ∃ k, (subscription_task fuel i forwarded).2 = forwarded ++ take k ws ∧ k ≤ length ws ∧
    (k < length ws → accepts (length forwarded + k) = false ∧ (subscription_task fuel i forwarded).1 = true).
Proof using.
  revert i forwarded. induction fuel as [|fuel IH]; intros i forwarded; cbn [subscription_task received].
  { exists 0. cbn. rewrite app_nil_r. split_and!; [done|lia|lia]. }
  assert (∃ k, (true, forwarded).2 = forwarded ++ take k (omap converter ([] : list TMsg)) ∧
    k ≤ length (omap converter ([] : list TMsg)) ∧ (k < length (omap converter ([] : list TMsg)) →
      accepts (length forwarded + k) = false ∧ (true, forwarded).1 = true)) as Hend.
  { exists 0. cbn. rewrite app_nil_r. split_and!; [done|lia|lia]. }
  destruct (recv i) as [[msg|]| |n]; [|exact Hend|exact Hend|apply IH]. cbn [omap list_omap].
  destruct (converter msg) as [w|]; [|apply IH]. destruct (accepts (length forwarded)) eqn:E.
  - destruct (IH (S i) (forwarded ++ [w])) as (k & Hk & Hle & Href). exists (S k). rewrite Hk, <-app_assoc. cbn in *.
    split_and!; [done|lia|]. intros Hlt. rewrite Nat.add_succ_r. rewrite length_app in Href. cbn in Href.
    rewrite Nat.add_1_r in Href. apply Href. lia.
  - exists 0. cbn. rewrite app_nil_r, Nat.add_0_r. split_and!; [done|lia|done].
Qed.

(** What tokio's channel answers to a receiver whose next message is number [c]: that one; that it lags, and the next
    one is [n] later; or, once it has read everything, that the senders are gone. *)
Inductive reads_from (published : list TMsg) : nat → nat → nat → Prop :=
| reads_nothing c i : reads_from published c i 0
| reads_next c i fuel m : recv i = Received (Some m) → published !! c = Some m → reads_from published (S c) (S i) fuel → reads_from published c i (S fuel)
| reads_lags c i fuel n : recv i = Lagged n → reads_from published (c + N.to_nat n) (S i) fuel → reads_from published c i (S fuel)
| reads_end i fuel : recv i = Closed → reads_from published (length published) i (S fuel).

Lemma received_published published c i fuel :
  reads_from published c i fuel →
  received fuel i `sublist_of` drop c published ∧
  ((∀ j n, i ≤ j → j < i + fuel → recv j ≠ Lagged n) → received fuel i `prefix_of` drop c published).
Proof using.
  induction 1 as [c i|c i fuel m E Hm _ [IH1 IH2]|c i fuel n E _ [IH1 _]|i fuel E]; cbn [received]; rewrite ?E.
  - split; [apply sublist_nil_l|intros _; apply prefix_nil].
  - rewrite (drop_S _ _ _ Hm). split; [by constructor|]. intros Hl. apply prefix_cons, IH2. intros j n Hj Hj'. apply Hl; lia.
  - split; [|intros Hl; by destruct (Hl i n); [lia|lia|]]. etrans; [exact IH1|]. rewrite <-drop_drop. apply sublist_drop.
  - split; [apply sublist_nil_l|intros _; apply prefix_nil].
Qed.

(** The default port: a subscription forwards what its converter makes of messages published after it was made, in their
    order and none of them twice; some may be missing, but none between two forwarded ones if it never lagged. *)
Theorem default_port_in_order published c fuel :
  reads_from published c 0 fuel →
  ∃ k ms, (subscription_task fuel 0 []).2 = take k (omap converter ms) ∧ ms `sublist_of` drop c published ∧
    ((∀ j n, j < fuel → recv j ≠ Lagged n) → ms `prefix_of` drop c published) ∧
    (k < length (omap converter ms) → accepts k = false).
Proof using.
  intros [H1 H2]%received_published. destruct (subscription_forwards fuel 0 []) as (k & Hk & _ & Href). exists k, (received fuel 0).
  split_and!; [done|done|intros Hl; apply H2; intros j n _; apply Hl|intros Hlt; by apply Href].
Qed.

(** The port: the subscriptions by their tasks, and what it has broadcast *)
Record BroadcastPort := mkBroadcastPort { subscriptions : list nat; broadcast : list TMsg }.

(** [subscribe]: subscriptions whose task has returned are dropped. *)
Definition subscribe (is_dead : nat → bool) (task : nat) (p : BroadcastPort) : BroadcastPort :=
  mkBroadcastPort (filter (λ t, is_dead t = false) (subscriptions p) ++ [task]) (broadcast p).

Definition broadcast_send (receiver_count : nat) (msg : TMsg) (p : BroadcastPort) : BroadcastPort :=
  if 0 <? receiver_count then mkBroadcastPort (subscriptions p) (broadcast p ++ [msg]) else p.
End broadcast.

(** ** Samples: a subscriber of even numbers that stops after two, and one of everything *)

Definition sample_even : Subscriber nat nat nat := mkSubscriber 1 10 (λ v, if Nat.even v then Some v else None).
Definition sample_all : Subscriber nat nat nat := mkSubscriber 1 11 Some.
Definition sample_accepts (k n : nat) : bool := if k =? 10 then n <? 2 else true.
Definition sample_sends (i : nat) : list (OutportMessage nat nat nat) :=
  match i with
  | 0 => [Data 0; SetSubscriber (Some sample_even); Data 1; Data 2]
  | 1 => [Data 4; SetSubscriber (Some sample_all)]
  | 4 => [Data 5; Data 6]
  | _ => []
  end.

Lemma batching_irrelevant_witness :
  ∃ n progress queue handled, n ≤ 6 ∧
    port_loop sample_accepts sample_sends (λ _, false) true 6 0 None [] ([], ∅) =
      Some (progress, queue, foldl (apply_message sample_accepts true) ([], ∅) handled) ∧
    sent sample_sends 0 n = handled ++ queue ∧ match progress with Finished => queue = [] | Running _ => n = 6 end.
Proof.
  apply (batching_irrelevant sample_accepts sample_sends (λ _, false) true 6). vm_compute. repeat constructor; set_solver.
Defined.

Lemma subscriber_receives_witness :
  ∃ progress subs outbox k,
    port_loop sample_accepts sample_sends (λ _, false) true 40 0 None [] ([], ∅) = Some (progress, [], (subs, outbox)) ∧
    outbox !!! 10 = take k [2; 4; 6] ∧ k ≤ 3 ∧
    (∀ i, i < k → sample_accepts 10 i = true) ∧ (k < 3 → sample_accepts 10 k = false).
Proof.
  refine (subscriber_receives sample_accepts sample_sends (λ _, false) 5 40 [Data 0] sample_even
    [Data 1; Data 2; Data 4; SetSubscriber (Some sample_all); Data 5; Data 6] _ eq_refl _ _ _).
  - intros i Hi. by do 5 (destruct i as [|i]; [lia|]).
  - vm_compute. repeat constructor; set_solver.
  - vm_compute; lia.
  - done.
Defined.
