(* ===== verification/Retry.v ===== *)
(** Retriable messages of a factory (src/ractor/src/factory/job.rs): a message that is dropped before it was
    completed is submitted to its factory again, from its [Drop] implementation.

    The state is a [Site]: the clocks of the world of the factory, the answers of the mailboxes of
    factories to casts, the jobs in the mailboxes, and the calls of the retry hooks.  A value that goes out
    of scope is an explicit call of [drop_message], also where the code drops implicitly: the job of an
    expired retry, the job that a refused cast hands back, and the job that a failed cast consumes. *)

From S2P Require Import Prelude Discard Job.

Inductive MessageRetryStrategy := RetryForever | Count (n : nat) | NoRetry.

Definition has_retries (s : MessageRetryStrategy) : bool :=
  match s with RetryForever => true | Count n => 0 <? n | NoRetry => false end.
Definition decrement (s : MessageRetryStrategy) : MessageRetryStrategy :=
  match s with
  | Count n => if 1 <? n then Count (n - 1) else NoRetry
  | RetryForever => RetryForever
  | NoRetry => NoRetry
  end.

(** An [ActorRef] of a factory: whether it is local, and whether its messages are of the type of the job *)
Record FactoryRef := mkFactoryRef { factory_id : nat; factory_local : bool; factory_typed : bool }.

Definition is_message_type_of (f : FactoryRef) : option bool :=
  if factory_local f then Some (factory_typed f) else None.

Section retry.
Context {K P : Type}.

(** The hook is an identifier: it is called with the key, and its panics are caught. *)
Record RetriableMessage := mkRetriable {
  key : K;
  message : option P;
  strategy : MessageRetryStrategy;
  retry_hook : option nat;
  retry_state : option (JobOptions * FactoryRef)
}.
#[local] Abbreviation RJob := (Job K RetriableMessage).

Record Site := mkSite {
  site_world : World K RetriableMessage;
  answers : nat → bool;
  inbox : list (nat * RJob);
  delivered : list (nat * RJob);
  hook_calls : list (nat * K)
}.

(** What the mailbox of a factory answers next: at the admission of the message, and at the channel *)
Definition answer : M Site bool := λ s,
  (Ok (answers s 0), mkSite (site_world s) (stail (answers s)) (inbox s) (delivered s) (hook_calls s)).
Definition post (f : nat) (j : RJob) : M Site unit := λ s,
  (Ok tt, mkSite (site_world s) (answers s) (inbox s ++ [(f, j)]) (delivered s ++ [(f, j)]) (hook_calls s)).
Definition call_hook (h : nat) (k : K) : M Site unit := λ s,
  (Ok tt, mkSite (site_world s) (answers s) (inbox s) (delivered s) (hook_calls s ++ [(h, k)])).
Definition on_world {A} (m : M (World K RetriableMessage) A) : M Site A :=
  zoom site_world (λ w s, mkSite w (answers s) (inbox s) (delivered s) (hook_calls s)) m.

(** [ActorRef::cast] of a dispatch: [ActorProperties::send_message].  Only local actors are type-checked;
    a retriable message is not serializable, so boxing it for a remote factory fails and consumes it. *)
Definition cast (f : FactoryRef) (j : RJob) : M Site CastOutcome :=
  if factory_local f && negb (factory_typed f) then mret CastConsumed else
  admitted ← answer;
  if negb admitted then mret CastSendErr else
  if negb (factory_local f) then mret CastConsumed else
  open ← answer;
  if negb open then mret CastSendErr else
  _ ← post (factory_id f) j;
  mret CastOk.

Definition new (k : K) (m : P) (s : MessageRetryStrategy) : RetriableMessage := mkRetriable k (Some m) s None None.
Definition set_retry_hook (h : nat) (m : RetriableMessage) : RetriableMessage :=
  mkRetriable (key m) (message m) (strategy m) (Some h) (retry_state m).
Definition capture_retry_state (o : JobOptions) (f : FactoryRef) (m : RetriableMessage) : RetriableMessage :=
  mkRetriable (key m) (message m) (strategy m) (retry_hook m) (Some (o, f)).
Definition completed (m : RetriableMessage) : RetriableMessage :=
  mkRetriable (key m) None NoRetry (retry_hook m) (retry_state m).

Definition from_job (j : Job K P) (s : MessageRetryStrategy) (f : FactoryRef) : RJob :=
  mkJob (job_key j) (capture_retry_state (job_options j) f (new (job_key j) (job_msg j) s)) (job_options j) None.

(** [Drop::drop]; [fuel] bounds the nesting of drops *)
Fixpoint drop_message (fuel : nat) (m : RetriableMessage) : M Site unit :=
  match fuel with
  | 0 => panic
  | S fuel =>
      if negb (has_retries (strategy m)) || (match message m with None => true | Some _ => false end) then mret tt else
      match retry_state m with
      | None => mret tt
      | Some (options, factory) =>
          if bool_decide (is_message_type_of factory ≠ Some true) then mret tt else
          let msg := mkRetriable (key m) (message m) (decrement (strategy m)) (retry_hook m) (Some (options, factory)) in
          let job := mkJob (key m) msg options None in
          expired ← on_world (is_expired job);
          if (expired : bool) then drop_message fuel (completed msg) else
          _ ← match retry_hook msg with Some h => call_hook h (job_key job) | None => mret tt end;
          r ← cast factory job;
          match r with
          | CastOk => mret tt
          | CastSendErr => drop_message fuel (completed msg)
          | CastConsumed => drop_message fuel msg
          end
      end
  end.

(** [ActorRef::submit_retriable_job]: a refused job is in the error, a consumed one has been dropped *)
Definition submit_retriable_job (f : FactoryRef) (j : Job K P) (s : MessageRetryStrategy) : M Site (option RJob) :=
  let job := from_job j s f in
  r ← cast f job;
  match r with
  | CastOk => mret None
  | CastSendErr => mret (Some job)
  | CastConsumed => _ ← drop_message 2 (job_msg job); mret None
  end.

(** ** Use *)

(** What becomes of a message in a worker or a discard handler, before it is dropped: it is marked as
    completed, its payload is taken, it fails, or a hook is attached and it fails. *)
Inductive Handling := HCompleted | HTaken | HFailed | HHooked (h : nat).
Definition apply_handling (h : Handling) (m : RetriableMessage) : RetriableMessage :=
  match h with
  | HCompleted => completed m
  | HTaken => mkRetriable (key m) None (strategy m) (retry_hook m) (retry_state m)
  | HFailed => m
  | HHooked h => set_retry_hook h m
  end.

(** An application submits jobs, dropping the error of a refused one, and its factories handle the jobs of
    their mailboxes, in any order. *)
Inductive Op :=
| Submit (f : FactoryRef) (j : Job K P) (s : MessageRetryStrategy)
| Handle (i : nat) (h : Handling).

Definition take_job (i : nat) : M Site (option RJob) := λ s,
  (Ok (snd <$> inbox s !! i), mkSite (site_world s) (answers s) (delete i (inbox s)) (delivered s) (hook_calls s)).

Definition run_op (o : Op) : M Site unit :=
  match o with
  | Submit f j s =>
      r ← submit_retriable_job f j s;
      match r with Some job => drop_message 2 (job_msg job) | None => mret tt end
  | Handle i h =>
      r ← take_job i;
      match r with Some job => drop_message 2 (apply_handling h (job_msg job)) | None => mret tt end
  end.
Fixpoint run_ops (ops : list Op) : M Site unit :=
  match ops with [] => mret tt | o :: ops => _ ← run_op o; run_ops ops end.
End retry.
Arguments RetriableMessage : clear implicits.
Arguments Site : clear implicits.
Arguments Op : clear implicits.

(** ** The behaviour of a drop *)

Section facts.
Context {K P : Type}.
#[local] Abbreviation RMessage := (RetriableMessage K P).
#[local] Abbreviation RJob := (Job K RMessage).
#[local] Abbreviation Site := (Site K P).

(** Where a dropped message is to be retried *)
Definition due (m : RMessage) : option (JobOptions * FactoryRef) :=
  if has_retries (strategy m) then
    match message m, retry_state m with
    | Some _, Some (o, f) => if factory_local f && factory_typed f then Some (o, f) else None
    | _, _ => None
    end
  else None.

(** The time to live, on the clock of the drop *)
Definition expired_now (o : JobOptions) (s : Site) : bool :=
  match ttl_timer o with
  | None => false
  | Some t => already_expired t || bool_decide (remaining t < Z.max 0 (w_instant (site_world s) 0 - started_at t))%Z
  end.

(** The job of a retry *)
Definition retry_of (m : RMessage) (o : JobOptions) (f : FactoryRef) : RJob :=
  mkJob (key m) (mkRetriable (key m) (message m) (decrement (strategy m)) (retry_hook m) (Some (o, f))) o None.

Definition posted (f : nat) (j : RJob) (s s' : Site) : Prop :=
  inbox s' = inbox s ++ [(f, j)] ∧ delivered s' = delivered s ++ [(f, j)].
Definition unposted (s s' : Site) : Prop := inbox s' = inbox s ∧ delivered s' = delivered s.

Lemma drop_completed fuel (m : RMessage) (s : Site) : drop_message (S fuel) (completed m) s = (Ok tt, s).
Proof. done. Qed.

Lemma is_expired_now (j : RJob) (s : Site) :
  ∃ s', on_world (is_expired j) s = (Ok (expired_now (job_options j) s), s') ∧ unposted s s' ∧
    answers s' = answers s ∧ hook_calls s' = hook_calls s.
Proof.
  unfold on_world, zoom, is_expired, expired_now, TtlTimer_is_expired, unposted.
  destruct (ttl_timer (job_options j)) as [t|]; [|eexists; split; [reflexivity|]; cbn; by split_and!]. destruct (already_expired t); (eexists; split; [reflexivity|]; cbn; by split_and!).
Qed.

Lemma cast_local (f : FactoryRef) (j : RJob) (s : Site) : factory_local f = true → factory_typed f = true →
  ∃ s', cast f j s = (Ok (if answers s 0 && answers s 1 then CastOk else CastSendErr), s') ∧
    hook_calls s' = hook_calls s ∧
    if answers s 0 && answers s 1 then posted (factory_id f) j s s' else unposted s s'.
Proof.
  intros Hl Ht. unfold cast, posted, unposted. rewrite Hl, Ht. cbn [andb negb]. unfold answer, mbind, M_bind.
  destruct (answers s 0); cbn [negb andb answers]; [|by (eexists; split_and!)]. unfold stail at 1.
  destruct (answers s 1); cbn [negb]; by (eexists; split_and!).
Qed.

Lemma retriable_drop_spec (m : RMessage) (s : Site) fuel : ∃ s', drop_message (S (S fuel)) m s = (Ok tt, s') ∧
  match due m with
  | None => s' = s
  | Some (o, f) =>
      if expired_now o s then unposted s s' ∧ hook_calls s' = hook_calls s
      else hook_calls s' = hook_calls s ++ (match retry_hook m with Some h => [(h, key m)] | None => [] end) ∧
           if answers s 0 && answers s 1 then posted (factory_id f) (retry_of m o f) s s' else unposted s s'
  end.
Proof.
  cbn [drop_message]. unfold due, posted, unposted.
  destruct (has_retries (strategy m)); cbn [negb orb]; [|by (eexists; split_and!)].
  destruct (message m) as [p|] eqn:Em; [|by (eexists; split_and!)]. destruct (retry_state m) as [[o f]|]; [|by (eexists; split_and!)].
  unfold is_message_type_of. destruct (factory_local f) eqn:Hl; [|by (eexists; split_and!)].
  destruct (factory_typed f) eqn:Ht; cbn [andb]; [|by (eexists; split_and!)]. rewrite bool_decide_false by congruence.
  rewrite <-Em. fold (retry_of m o f). destruct (is_expired_now (retry_of m o f) s) as (s1 & E1 & [Hi Hd] & Ha & Hh).
  rewrite (bind_ok _ _ _ _ _ E1). cbn [job_options]. destruct (expired_now (job_options (retry_of m o f)) s) eqn:Ee;
    cbn in Ee; rewrite Ee; [by (eexists; split_and!)|].
  set (s2 := mkSite (site_world s1) (answers s1) (inbox s1) (delivered s1)
    (hook_calls s1 ++ match retry_hook m with Some h => [(h, key m)] | None => [] end)).
  assert ((match retry_hook m with Some h => call_hook h (key m) | None => mret tt end) s1 = (Ok tt, s2)) as E2.
  { unfold s2. destruct (retry_hook m); [done|]. rewrite app_nil_r. by destruct s1. }
  cbn [retry_hook job_key]. rewrite (bind_ok _ _ _ _ _ E2).
  destruct (cast_local f (retry_of m o f) s2 Hl Ht) as (s3 & Hc & Hh3 & Hp). cbn [answers s2] in Hc, Hp. rewrite Ha in Hc, Hp.
  exists s3. rewrite (bind_ok _ _ _ _ _ Hc). destruct (answers s 0 && answers s 1); destruct Hp as [Hi3 Hd3];
    cbn [inbox delivered hook_calls s2] in *; (split; [done|]); (split; [by rewrite Hh3, Hh|]); by split; rewrite ?Hi3, ?Hd3, ?Hi, ?Hd.
Qed.

(** A drop posts at most the retry of its message. *)
Lemma drop_posts (m : RMessage) (s : Site) : ∃ s', drop_message 2 m s = (Ok tt, s') ∧
  (unposted s s' ∨ ∃ o f, due m = Some (o, f) ∧ posted (factory_id f) (retry_of m o f) s s').
Proof.
  destruct (retriable_drop_spec m s 0) as (s' & -> & H). exists s'. split; [done|].
  destruct (due m) as [[o f]|] eqn:Ed; [|left; by subst]. destruct (expired_now o s); [left; tauto|].
  destruct H as [_ H]. destruct (answers s 0 && answers s 1); [right; by exists o, f|by left].
Qed.

Lemma due_spec (m : RMessage) o f : due m = Some (o, f) →
  has_retries (strategy m) = true ∧ is_Some (message m) ∧ retry_state m = Some (o, f).
Proof.
  unfold due. destruct (has_retries (strategy m)); [|done]. destruct (message m); [|done]. destruct (retry_state m) as [[o' f']|]; [|done].
  destruct (factory_local f' && factory_typed f'); [|done]. by intros [= -> ->].
Qed.

(** An operation posts the job it submits, or the retry of the message it drops. *)
Lemma submit_posts f j st (s : Site) : ∃ s', run_op (Submit f j st) s = (Ok tt, s') ∧
  (unposted s s' ∨ posted (factory_id f) (from_job j st f) s s' ∨
   due (job_msg (from_job j st f)) = Some (job_options j, f) ∧ posted (factory_id f) (retry_of (job_msg (from_job j st f)) (job_options j) f) s s').
Proof.
  assert (∃ r s1, cast f (from_job j st f) s = (Ok r, s1) ∧
    match r with CastOk => posted (factory_id f) (from_job j st f) s s1 | _ => unposted s s1 end) as (r & s1 & Hc & Hs1).
  { unfold cast, answer, posted, unposted, mbind, M_bind. destruct (factory_local f && negb (factory_typed f)); [by (eexists _, _; split_and!)|].
    destruct (answers s 0); cbn [negb]; [|by (eexists _, _; split_and!)]. destruct (factory_local f); cbn [negb]; [|by (eexists _, _; split_and!)].
    cbn [answers]. destruct (stail (answers s) 0); by (eexists _, _; split_and!). }
  cbn [run_op]. unfold submit_retriable_job.
  assert (∃ s2, drop_message 2 (job_msg (from_job j st f)) s1 = (Ok tt, s2) ∧
    (unposted s1 s2 ∨ due (job_msg (from_job j st f)) = Some (job_options j, f) ∧ posted (factory_id f) (retry_of (job_msg (from_job j st f)) (job_options j) f) s1 s2)) as (s2 & Hd & Hs2).
  { destruct (drop_posts (job_msg (from_job j st f)) s1) as (s2 & Hd & Hs2). exists s2. split; [done|].
    destruct Hs2 as [?|(o & f' & Hdue & Hp)]; [by left|right]. destruct (due_spec _ _ _ Hdue) as (_ & _ & [= <- <-]). done. }
  destruct r.
  - exists s1. split; [|tauto]. unfold mbind at 1, M_bind at 1. rewrite (bind_ok _ _ _ _ _ Hc). done.
  - exists s2. split; [unfold mbind at 1, M_bind at 1; rewrite (bind_ok _ _ _ _ _ Hc); exact Hd|].
    unfold unposted, posted in *. destruct Hs1 as [Hi1 Hd1]. rewrite Hi1, Hd1 in Hs2. tauto.
  - exists s2. split; [|unfold unposted, posted in *; destruct Hs1 as [Hi1 Hd1]; rewrite Hi1, Hd1 in Hs2; tauto].
    unfold mbind at 1, M_bind at 1. rewrite (bind_ok _ _ _ _ _ Hc). by rewrite (bind_ok _ _ _ _ _ Hd).
Qed.

Lemma handle_posts i h (s : Site) : ∃ s', run_op (Handle i h) s = (Ok tt, s') ∧
  (unposted s s' ∨ ∃ e j, inbox s !! i = Some (e, j) ∧
    ((inbox s' = delete i (inbox s) ∧ delivered s' = delivered s) ∨
     ∃ o f, due (apply_handling h (job_msg j)) = Some (o, f) ∧
       let r := (factory_id f, retry_of (apply_handling h (job_msg j)) o f) in
       inbox s' = delete i (inbox s) ++ [r] ∧ delivered s' = delivered s ++ [r])).
Proof.
  cbn [run_op]. unfold take_job, mbind at 1, M_bind at 1. destruct (inbox s !! i) as [[e j]|] eqn:Ei; cbn [fmap option_fmap option_map snd].
  - set (s1 := mkSite _ _ _ _ _). destruct (drop_posts (apply_handling h (job_msg j)) s1) as (s' & -> & Hs'). exists s'. split; [done|].
    right. exists e, j. split; [done|]. destruct Hs' as [[Hi Hd]|(o & f & Hdue & [Hi Hd])]; [by left|right; by exists o, f].
  - eexists. split; [reflexivity|]. left. split; [|done]. cbn. apply lookup_ge_None in Ei. rewrite delete_take_drop, take_ge, drop_ge by lia. apply app_nil_r.
Qed.

Lemma sum_list_delete {A} (μ : A → nat) l i x : l !! i = Some x → sum_list_with μ l = μ x + sum_list_with μ (delete i l).
Proof.
  intros Hi. rewrite <-(take_drop_middle l i x Hi) at 1. rewrite delete_take_drop, !sum_list_with_app. cbn. lia.
Qed.

(** What holds of the jobs that are posted, and a bound on their number: every delivery costs [a], paid by the
    potential of the submission or of the job that is retried. *)
Lemma run_potential (good : nat * RJob → Prop) (a : nat) (μ : nat * RJob → nat) (ν : Op K P → nat) ops :
  (∀ f j st, Submit f j st ∈ ops →
     good (factory_id f, from_job j st f) ∧ a + μ (factory_id f, from_job j st f) ≤ ν (Submit f j st)) →
  (∀ e j h o f, good (e, j) → due (apply_handling h (job_msg j)) = Some (o, f) →
     let r := (factory_id f, retry_of (apply_handling h (job_msg j)) o f) in good r ∧ a + μ r ≤ μ (e, j)) →
  ∀ s : Site, Forall good (inbox s) →
  ∃ s' l, run_ops ops s = (Ok tt, s') ∧ delivered s' = delivered s ++ l ∧ Forall good l ∧
    a * length l + sum_list_with μ (inbox s') ≤ sum_list_with μ (inbox s) + sum_list_with ν ops.
Proof.
  intros Hsub Hret. induction ops as [|o ops IH]; intros s Hg.
  { exists s, []. rewrite app_nil_r. cbn. split_and!; [done|done|constructor|lia]. }
  assert (∃ s1 l1, run_op o s = (Ok tt, s1) ∧ delivered s1 = delivered s ++ l1 ∧ Forall good l1 ∧ Forall good (inbox s1) ∧
    a * length l1 + sum_list_with μ (inbox s1) ≤ sum_list_with μ (inbox s) + ν o) as (s1 & l1 & E1 & Hd1 & Hl1 & Hi1 & Hle1).
  { destruct o as [f j st|i h].
    - destruct (Hsub f j st) as [Hgj Hcost]; [by left|].
      destruct (submit_posts f j st s) as (s1 & E1 & [[Hi Hd]|[[Hi Hd]|[Hdue [Hi Hd]]]]).
      + exists s1, []. rewrite Hi, app_nil_r. split_and!; [done|done|constructor|done|cbn; lia].
      + eexists s1, [_]. rewrite Hi, Hd, sum_list_with_app, Forall_app. split_and!; [done|done|by constructor|done|by constructor|cbn; lia].
      + destruct (Hret _ _ HFailed _ _ Hgj Hdue) as [Hgr Hcr]. cbn [apply_handling] in *.
        eexists s1, [_]. rewrite Hi, Hd, sum_list_with_app, Forall_app. split_and!; [done|done|by constructor|done|by constructor|cbn in *; lia].
    - destruct (handle_posts i h s) as (s1 & E1 & [[Hi Hd]|(e & j & Hij & [[Hi Hd]|(o & f & Hdue & Hi & Hd)])]).
      + exists s1, []. rewrite Hi, app_nil_r. split_and!; [done|done|constructor|done|cbn; lia].
      + exists s1, []. rewrite Hi, app_nil_r, (sum_list_delete μ _ _ _ Hij). split_and!; [done|done|constructor|by apply Forall_delete|cbn; lia].
      + destruct (Hret e j h o f) as [Hgr Hcr]; [by eapply Forall_lookup_1 in Hg|done|].
        eexists s1, [_]. rewrite Hi, Hd, sum_list_with_app, Forall_app, (sum_list_delete μ _ _ _ Hij).
        split_and!; [done|done|by constructor|by apply Forall_delete|by constructor|cbn in *; lia]. }
  destruct (IH (λ f j st H, Hsub f j st (list_elem_of_further _ _ _ H)) s1 Hi1) as (s2 & l2 & E2 & Hd2 & Hl2 & Hle2).
  exists s2, (l1 ++ l2). cbn [run_ops]. rewrite (bind_ok _ _ _ _ _ E1), E2, Hd2, Hd1, app_assoc, length_app.
  cbn. split_and!; [done|done|by apply Forall_app|lia].
Qed.

Definition forever (o : Op K P) : bool := match o with Submit _ _ RetryForever => true | _ => false end.
Definition budget (st : MessageRetryStrategy) : nat := match st with Count n => n | _ => 0 end.
(** The deliveries that a submission may cause *)
Definition allowance (o : Op K P) : nat := match o with Submit _ _ st => 1 + budget st | Handle _ _ => 0 end.

(** A delivery of a submitted job: its key, options and payload, to its factory *)
Definition delivery_of (e : nat * RJob) (o : Op K P) : Prop :=
  match o with
  | Submit f j _ => e.1 = factory_id f ∧ job_key e.2 = job_key j ∧ job_options e.2 = job_options j ∧ job_accepted e.2 = None ∧
      key (job_msg e.2) = job_key j ∧ message (job_msg e.2) = Some (job_msg j) ∧ retry_state (job_msg e.2) = Some (job_options j, f)
  | Handle _ _ => False
  end.

(** The jobs in the mailboxes that hold a payload, and the submissions of it *)
Definition holds (q : K → P → bool) (e : nat * RJob) : nat :=
  match message (job_msg e.2) with Some p => if q (key (job_msg e.2)) p then 1 else 0 | None => 0 end.
Definition submits (q : K → P → bool) (o : Op K P) : nat :=
  match o with Submit _ j _ => if q (job_key j) (job_msg j) then 1 else 0 | Handle _ _ => 0 end.

Lemma apply_handling_due h (m : RMessage) o f : due (apply_handling h m) = Some (o, f) →
  key (apply_handling h m) = key m ∧ message (apply_handling h m) = message m ∧ strategy (apply_handling h m) = strategy m ∧
  has_retries (strategy m) = true ∧ retry_state m = Some (o, f).
Proof. intros (Hr & [p Hp] & Hs)%due_spec. by destruct h. Qed.

Lemma decrement_budget st : has_retries st = true → st ≠ RetryForever → 1 + budget (decrement st) ≤ budget st ∧ decrement st ≠ RetryForever.
Proof.
  destruct st as [|n|]; cbn [has_retries decrement]; [done| |done]. intros Hn%Nat.ltb_lt _.
  destruct (Nat.ltb_spec 1 n); cbn [budget]; (split; [lia|done]).
Qed.
End facts.

(** ** Theorems *)

(** A dropped message is submitted to its factory again, once, exactly if it has retries left, holds its
    payload, knows its factory, which is local and of its type, has not expired, and the factory takes it.
    The new job has its key, its payload, its options and one retry less, and the hook is called with the
    key before.  Dropping returns in every case, without nesting more than once. *)
Theorem drop_resubmits {K P} (m : RetriableMessage K P) (s : Site K P) fuel :
  ∃ s', drop_message (S (S fuel)) m s = (Ok tt, s') ∧
  match due m with
  | None => s' = s
  | Some (o, f) =>
      if expired_now o s then unposted s s' ∧ hook_calls s' = hook_calls s
      else hook_calls s' = hook_calls s ++ (match retry_hook m with Some h => [(h, key m)] | None => [] end) ∧
           if answers s 0 && answers s 1 then posted (factory_id f) (retry_of m o f) s s' else unposted s s'
  end.
Proof. apply retriable_drop_spec. Qed.

(** C13: however jobs are submitted and their messages fail, are completed or taken, every operation returns,
    and the factories receive at most one delivery of each submission and one more for each of its
    retries. *)
Theorem retries_bounded {K P} (ops : list (Op K P)) (s : Site K P) :
  inbox s = [] → existsb forever ops = false →
  ∃ s' l, run_ops ops s = (Ok tt, s') ∧ delivered s' = delivered s ++ l ∧
    length l + sum_list_with (λ e, budget (strategy (job_msg e.2))) (inbox s') ≤ sum_list_with allowance ops.
Proof.
  intros Hi Hf.
  destruct (run_potential (λ e, strategy (job_msg e.2) ≠ RetryForever) 1 (λ e, budget (strategy (job_msg e.2))) allowance ops)
    with (s := s) as (s' & l & Hrun & Hd & _ & Hle).
  - intros f j st Hin. cbn. split; [|lia]. intros ->. apply not_true_iff_false in Hf. apply Hf, existsb_elem_of. by eexists.
  - intros e j h o f Hg (_ & _ & Hst & Hr & _)%apply_handling_due. cbn in *. rewrite Hst.
    destruct (decrement_budget _ Hr Hg). split; [done|lia].
  - rewrite Hi. constructor.
  - exists s', l. rewrite Hi in Hle. cbn in Hle. split_and!; [done|done|lia].
Qed.

(** Every delivery is of a job that was submitted, with its key, options and payload, to its own factory,
    and a payload is never duplicated: the jobs that hold it are at most its submissions. *)
Theorem retry_conserves {K P} (ops : list (Op K P)) (s : Site K P) (q : K → P → bool) : inbox s = [] →
  ∃ s' l, run_ops ops s = (Ok tt, s') ∧ delivered s' = delivered s ++ l ∧
    Forall (λ e, ∃ o, o ∈ ops ∧ delivery_of e o) l ∧
    sum_list_with (holds q) (inbox s') ≤ sum_list_with (submits q) ops.
Proof.
  intros Hi.
  destruct (run_potential (λ e, ∃ o, o ∈ ops ∧ delivery_of e o) 0 (holds q) (submits q) ops) with (s := s) as (s' & l & Hrun & Hd & Hl & Hle).
  - intros f j st Hin. split; [by exists (Submit f j st)|]. done.
  - intros e j h o f (op & Hop & Hdel) (Hk & Hm & _ & _ & Hrs)%apply_handling_due. destruct op as [f' j' st|]; [|done].
    cbn in Hdel. destruct Hdel as (-> & Hjk & Hjo & Hja & Hmk & Hmm & Hmr). rewrite Hrs in Hmr. injection Hmr as -> ->. split.
    + exists (Submit f' j' st). split; [done|]. cbn. rewrite Hk, Hm, Hmk, Hmm. by split_and!.
    + unfold holds. cbn. by rewrite Hk, Hm.
  - rewrite Hi. constructor.
  - exists s', l. rewrite Hi in Hle. cbn in Hle. by split_and!.
Qed.

(** ** A sample run: a job with two retries fails three times *)

Definition sample_retry_world : World nat (RetriableMessage nat nat) :=
  mkWorld (λ _, 0%Z) (λ _, 0%Z) (λ _, CastOk) (λ _, None) (λ _, 0) (λ _, true) [].
Definition sample_site : Site nat nat := mkSite sample_retry_world (λ _, true) [] [] [].
Definition sample_retries : list (Op nat nat) :=
  [Submit (mkFactoryRef 1 true true) (mkJob 7 42 (mkJobOptions 0 0 0 None None) None) (Count 2);
   Handle 0 HFailed; Handle 0 (HHooked 3); Handle 0 HFailed].

Lemma retries_bounded_witness : ∃ s' l, run_ops sample_retries sample_site = (Ok tt, s') ∧ delivered s' = l ∧
  length l + sum_list_with (λ e, budget (strategy (job_msg e.2))) (inbox s') ≤ 3.
Proof. apply (retries_bounded sample_retries sample_site); reflexivity. Defined.

Lemma retry_conserves_witness : ∃ s' l, run_ops sample_retries sample_site = (Ok tt, s') ∧ delivered s' = l ∧
  Forall (λ e, ∃ o, o ∈ sample_retries ∧ delivery_of e o) l ∧ sum_list_with (holds (λ _ _, true)) (inbox s') ≤ 1.
Proof. apply (retry_conserves sample_retries sample_site (λ _ _, true)); reflexivity. Defined.

Lemma sample_retries_run : length (delivered (run_ops sample_retries sample_site).2) = 3 ∧ inbox (run_ops sample_retries sample_site).2 = [].
Proof. by vm_compute. Qed.
