(* ===== verification/Rpc.v ===== *)
(** Remote procedure calls (src/ractor/src/rpc.rs, src/ractor/src/rpc/call_result.rs) and their reply ports
    (src/ractor/src/port.rs).

    A reply port is one end of a oneshot channel, an index in the order of creation.  What comes over a
    channel, and when, is its [Fate].  Waiting with a timeout polls the channel before the clock, so that
    a reply which is there when the deadline is noticed, after a lag, still counts.  A future that never
    resolves is [None].  What the mailboxes of actors answer to a send is a stream. *)

From S2P Require Import Prelude Discard Job.

(** ** call_result.rs *)

Inductive CallResult (T : Type) := Success (t : T) | Timeout | SenderError.
Arguments Success {T}.
Arguments Timeout {T}.
Arguments SenderError {T}.

Module CallResult.
Section ops.
Context {T : Type}.

Definition is_success (c : CallResult T) : bool := match c with Success _ => true | _ => false end.
Definition is_timeout (c : CallResult T) : bool := match c with Timeout => true | _ => false end.
Definition is_send_error (c : CallResult T) : bool := match c with SenderError => true | _ => false end.
(** [unwrap] and [expect]: [None] is a panic *)
Definition unwrap (c : CallResult T) : option T := match c with Success t => Some t | Timeout => None | SenderError => None end.
Definition expect (c : CallResult T) (msg : string) : option T := match c with Success t => Some t | Timeout => None | SenderError => None end.
Definition unwrap_or (c : CallResult T) (default : T) : T := match c with Success t => t | _ => default end.
Definition unwrap_or_else (c : CallResult T) (f : unit → T) : T := match c with Success t => t | _ => f tt end.
Definition success_or {E} (c : CallResult T) (err : E) : E + T := match c with Success t => inr t | _ => inl err end.
Definition success_or_else {E} (c : CallResult T) (err : unit → E) : E + T := match c with Success t => inr t | _ => inl (err tt) end.
Definition map {O} (c : CallResult T) (f : T → O) : CallResult O :=
  match c with Success t => Success (f t) | Timeout => Timeout | SenderError => SenderError end.
Definition map_or {O} (c : CallResult T) (default : O) (f : T → O) : O :=
  match c with Success t => f t | Timeout => default | SenderError => default end.
Definition map_or_else {O} (c : CallResult T) (default : unit → O) (f : T → O) : O :=
  match c with Success t => f t | Timeout => default tt | SenderError => default tt end.
End ops.
End CallResult.

(** ** port.rs *)

(** A reply port: its channel, and the timeout of the caller *)
Record RpcReplyPort := mkPort { port : nat; timeout : option Duration }.

Definition get_timeout (p : RpcReplyPort) : option Duration := timeout p.
(** [From<OneshotSender>], [From<(OneshotSender, Duration)>] *)
Definition from_sender (tx : nat) : RpcReplyPort := mkPort tx None.
Definition from_sender_timeout (tx : nat) (d : Duration) : RpcReplyPort := mkPort tx (Some d).

Inductive MessagingErr (T : Type) := SendErr (m : T) | InvalidActorType | ChannelClosed.
Arguments SendErr {T}.
Arguments InvalidActorType {T}.
Arguments ChannelClosed {T}.

(** ** rpc.rs *)

(** What comes over a oneshot channel, and how long after the wait has begun *)
Inductive Fate (R : Type) := Replied (at_ : Z) (r : R) | SenderDropped (at_ : Z) | Silent.
Arguments Replied {R}.
Arguments SenderDropped {R}.
Arguments Silent {R}.

(** How a send to an actor fails, if it does *)
Inductive Refusal := RefusedSend | RefusedType | RefusedClosed.

Section rpc.
(** Messages of the callee, replies, and messages of the actor to which a reply is forwarded *)
Context {TMessage TReply TForward : Type}.

Record Net := mkNet {
  next_port : nat;
  fate : nat → Fate TReply;
  lag : nat → Z;
  refusals : nat → option Refusal;
  sent : list (nat * TMessage);
  forwarded : list (nat * TForward)
}.

(** [concurrency::oneshot] *)
Definition oneshot : M Net nat := λ s,
  (Ok (next_port s), mkNet (S (next_port s)) (fate s) (lag s) (refusals s) (sent s) (forwarded s)).

Definition refusal_of {T} (r : Refusal) (m : T) : MessagingErr T :=
  match r with RefusedSend => SendErr m | RefusedType => InvalidActorType | RefusedClosed => ChannelClosed end.

(** [ActorCell::send_message] *)
Definition send_message (actor : nat) (m : TMessage) : M Net (MessagingErr TMessage + unit) := λ s,
  match refusals s 0 with
  | None => (Ok (inr tt), mkNet (next_port s) (fate s) (lag s) (stail (refusals s)) (sent s ++ [(actor, m)]) (forwarded s))
  | Some r => (Ok (inl (refusal_of r m)), mkNet (next_port s) (fate s) (lag s) (stail (refusals s)) (sent s) (forwarded s))
  end.
Definition send_forward (actor : nat) (m : TForward) : M Net (MessagingErr TForward + unit) := λ s,
  match refusals s 0 with
  | None => (Ok (inr tt), mkNet (next_port s) (fate s) (lag s) (stail (refusals s)) (sent s) (forwarded s ++ [(actor, m)]))
  | Some r => (Ok (inl (refusal_of r m)), mkNet (next_port s) (fate s) (lag s) (stail (refusals s)) (sent s) (forwarded s))
  end.

(** [rx.await] and [concurrency::timeout(duration, rx).await], as the callers of both match them *)
Definition await_rx (f : Fate TReply) : option (CallResult TReply) :=
  match f with Replied _ r => Some (Success r) | SenderDropped _ => Some SenderError | Silent => None end.
Definition timeout_rx (d : Duration) (lag : Z) (f : Fate TReply) : CallResult TReply :=
  match f with
  | Replied t r => if (t <=? d + lag)%Z then Success r else Timeout
  | SenderDropped t => if (t <=? d + lag)%Z then SenderError else Timeout
  | Silent => Timeout
  end.

(** The wait for the reply of a port *)
Definition wait_reply (timeout_option : option Duration) (rx : nat) (s : Net) : option (CallResult TReply) :=
  match timeout_option with
  | Some d => Some (timeout_rx d (lag s rx) (fate s rx))
  | None => await_rx (fate s rx)
  end.

Definition make_port (timeout_option : option Duration) (tx : nat) : RpcReplyPort :=
  match timeout_option with Some d => from_sender_timeout tx d | None => from_sender tx end.

Definition internal_cast (sender : TMessage → M Net (MessagingErr TMessage + unit)) (m : TMessage) := sender m.
Definition cast (actor : nat) (m : TMessage) : M Net (MessagingErr TMessage + unit) := internal_cast (send_message actor) m.

(** The future of a call: an error, a result, or no end *)
Definition internal_call (sender : TMessage → M Net (MessagingErr TMessage + unit)) (msg_builder : RpcReplyPort → TMessage)
    (timeout_option : option Duration) : M Net (MessagingErr TMessage + option (CallResult TReply)) :=
  tx ← oneshot;
  r ← sender (msg_builder (make_port timeout_option tx));
  match r with
  | inl e => mret (inl e)
  | inr _ => s ← gets id; mret (inr (wait_reply timeout_option tx s))
  end.
Definition call (actor : nat) (msg_builder : RpcReplyPort → TMessage) (timeout_option : option Duration) :=
  internal_call (send_message actor) msg_builder timeout_option.

(** [multi_call]: the ports of the messages that are sent, or the error that ends it *)
Fixpoint send_all (actors : list nat) (msg_builder : RpcReplyPort → TMessage) (timeout_option : option Duration)
    (rx_ports : list nat) : M Net (MessagingErr TMessage + list nat) :=
  match actors with
  | [] => mret (inr rx_ports)
  | actor :: actors =>
      tx ← oneshot;
      r ← cast actor (msg_builder (make_port timeout_option tx));
      match r with
      | inl e => mret (inl e)
      | inr _ => send_all actors msg_builder timeout_option (rx_ports ++ [tx])
      end
  end.

(** The loop over [join_next]: the tasks in the order in which they complete, with [None] for one that
    does not return its value.  [results[i] = r] panics out of bounds. *)
Fixpoint join_loop (joined : list (option (nat * CallResult TReply))) (results : list (CallResult TReply)) :
  res (MessagingErr TMessage + list (CallResult TReply)) :=
  match joined with
  | [] => Ok (inr results)
  | None :: _ => Ok (inl ChannelClosed)
  | Some (i, r) :: joined => if i <? length results then join_loop joined (<[i := r]> results) else Panic
  end.

(** [multi_call], for an order [schedule] of the completion of the tasks; [None] if one of them never ends *)
Definition multi_call (actors : list nat) (msg_builder : RpcReplyPort → TMessage) (timeout_option : option Duration)
    (schedule : list (nat * CallResult TReply) → list (option (nat * CallResult TReply))) :
  M Net (option (MessagingErr TMessage + list (CallResult TReply))) :=
  ports ← send_all actors msg_builder timeout_option [];
  match ports with
  | inl e => mret (Some (inl e))
  | inr rx_ports =>
      s ← gets id;
      match mapM (λ rx, wait_reply timeout_option rx s) rx_ports with
      | None => mret None
      | Some tasks =>
          match join_loop (schedule (imap pair tasks)) (replicate (length tasks) Timeout) with
          | Ok r => mret (Some r)
          | Err e => throw e
          | Panic => panic
          end
      end
  end.

(** [call_and_forward]: the task waits for the reply, and forwards it *)
Definition call_and_forward (actor : nat) (msg_builder : RpcReplyPort → TMessage) (response_forward : nat)
    (forward_mapping : TReply → TForward) (timeout_option : option Duration) :
  M Net (MessagingErr TMessage + option (CallResult (MessagingErr TForward + unit))) :=
  tx ← oneshot;
  r ← send_message actor (msg_builder (make_port timeout_option tx));
  match r with
  | inl e => mret (inl e)
  | inr _ =>
      s ← gets id;
      match wait_reply timeout_option tx s with
      | None => mret (inr None)
      | Some (Success v) => sent ← send_forward response_forward (forward_mapping v); mret (inr (Some (Success sent)))
      | Some Timeout => mret (inr (Some Timeout))
      | Some SenderError => mret (inr (Some SenderError))
      end
  end.
End rpc.
Arguments Net : clear implicits.

(** ** What a wait yields *)

Section facts.
Context {TMessage TReply TForward : Type}.
#[local] Abbreviation Net := (Net TMessage TReply TForward).

(** A reply or a loss counts if it is there by the deadline; an absence that is reported is real. *)
Definition answers_call (t : option Duration) (f : Fate TReply) (o : option (CallResult TReply)) : Prop :=
  match o with
  | Some (Success v) => ∃ a, f = Replied a v
  | Some SenderError => ∃ a, f = SenderDropped a
  | Some Timeout => ∃ d, t = Some d ∧ match f with Replied a _ | SenderDropped a => d < a | Silent => True end%Z
  | None => t = None ∧ f = Silent
  end ∧
  match f with
  | Replied a v => match t with Some d => (a <= d)%Z | None => True end → o = Some (Success v)
  | SenderDropped a => match t with Some d => (a <= d)%Z | None => True end → o = Some SenderError
  | Silent => match t with Some _ => o = Some Timeout | None => o = None end
  end.

Lemma wait_reply_answers t rx (s : Net) : (0 <= lag s rx)%Z → answers_call t (fate s rx) (wait_reply t rx s).
Proof.
  intros Hlag. unfold answers_call, wait_reply, timeout_rx, await_rx. destruct t as [d|].
  - destruct (fate s rx) as [a v|a|]; [destruct (Z.leb_spec a (d + lag s rx))..|]; split; eauto with lia;
      try (intros ?; exfalso; lia). all: exists d; split; [done|lia].
  - destruct (fate s rx); split; eauto.
Qed.

(** The net after sends that were not refused *)
Definition requests (mb : RpcReplyPort → TMessage) (t : option Duration) (p : nat) (actors : list nat) : list (nat * TMessage) :=
  imap (λ i a, (a, mb (mkPort (p + i) t))) actors.

Lemma make_port_eq t p : make_port t p = mkPort p t.
Proof. by destruct t. Qed.

Lemma requests_cons mb t p a actors : requests mb t p (a :: actors) = (a, mb (mkPort p t)) :: requests mb t (S p) actors.
Proof.
  unfold requests. rewrite imap_cons, Nat.add_0_r. f_equal. apply imap_ext. intros i x _. cbn. by rewrite Nat.add_succ_r.
Qed.

Lemma send_all_spec mb t actors rx (s : Net) : ∃ r s', send_all actors mb t rx s = (Ok r, s') ∧
  fate s' = fate s ∧ lag s' = lag s ∧ forwarded s' = forwarded s ∧
  match r with
  | inr ports => ports = rx ++ seq (next_port s) (length actors) ∧ sent s' = sent s ++ requests mb t (next_port s) actors ∧
      ∀ i, i < length actors → refusals s i = None
  | inl e => ∃ k why, k < length actors ∧ refusals s k = Some why ∧ (∀ i, i < k → refusals s i = None) ∧
      e = refusal_of why (mb (mkPort (next_port s + k) t)) ∧ sent s' = sent s ++ requests mb t (next_port s) (take k actors)
  end.
Proof.
  revert rx s. induction actors as [|a actors IH]; intros rx s; cbn [send_all].
  { eexists _, _. split; [reflexivity|]. cbn. rewrite !app_nil_r. split_and!; auto with lia. }
  unfold oneshot, cast, internal_cast, send_message, mbind, M_bind. rewrite make_port_eq. cbn [refusals].
  destruct (refusals s 0) as [why|] eqn:E0.
  - eexists _, _. split; [reflexivity|]. cbn [fate lag forwarded sent]. split_and!; [done..|]. exists 0, why.
    rewrite Nat.add_0_r. cbn. rewrite app_nil_r. split_and!; auto with lia.
  - set (s1 := mkNet _ _ _ _ _ _). destruct (IH (rx ++ [next_port s]) s1) as (r & s' & E & Hf & Hl & Hw & Hr).
    exists r, s'. split; [exact E|]. split_and!; [done..|]. destruct r as [e|ports].
    + destruct Hr as (k & why & Hk & Hwhy & Hbefore & -> & Hs). exists (S k), why. cbn [take length]. rewrite requests_cons.
      cbn in Hs, Hwhy. unfold stail in *. split_and!; [lia|done| |cbn; by rewrite Nat.add_succ_r|by rewrite Hs, <-app_assoc].
      intros [|i] Hi; [done|]. apply (Hbefore i). lia.
    + destruct Hr as (-> & Hs & Hnone). cbn in Hs. rewrite requests_cons. cbn [length seq]. rewrite <-!app_assoc in *. cbn in *.
      split_and!; [done|by rewrite Hs|]. intros [|i] Hi; [done|]. apply (Hnone i). lia.
Qed.

(** The results are those of the tasks, in the order of the actors, in whatever order they complete. *)
Lemma join_loop_spec (l : list (nat * CallResult TReply)) results :
  NoDup l.*1 → (∀ i, i ∈ l.*1 → i < length results) →
  ∃ rs, join_loop (TMessage := TMessage) (Some <$> l) results = Ok (inr rs) ∧ length rs = length results ∧
    (∀ i r, (i, r) ∈ l → rs !! i = Some r) ∧ ∀ i, i ∉ l.*1 → rs !! i = results !! i.
Proof.
  revert results. induction l as [|[i r] l IH]; intros results Hnd Hlt; cbn [fmap list_fmap join_loop].
  { exists results. split_and!; [done|done| |done]. intros i r Hin. by apply not_elem_of_nil in Hin. }
  cbn in Hnd. apply NoDup_cons in Hnd as [Hni Hnd]. assert (i < length results) as Hi by (apply Hlt; by left).
  apply Nat.ltb_lt in Hi as ->. destruct (IH (<[i := r]> results) Hnd) as (rs & -> & Hl & Hin & Hout).
  { intros j Hj. rewrite length_insert. apply Hlt. by right. }
  rewrite length_insert in Hl. exists rs. split_and!; [done|done| |].
  - intros j r' [[= -> ->]|H]%elem_of_cons; [|by apply Hin]. rewrite Hout by done. apply list_lookup_insert_eq. apply Hlt. by left.
  - intros j Hj. cbn in Hj. apply not_elem_of_cons in Hj as [Hne Hj]. rewrite Hout by done. by apply list_lookup_insert_ne.
Qed.

(** Tasks that all return their value, in some order *)
Definition completes (l : list (nat * CallResult TReply)) (joined : list (option (nat * CallResult TReply))) : Prop :=
  ∃ l', l' ≡ₚ l ∧ joined = Some <$> l'.

Lemma join_all (tasks : list (CallResult TReply)) joined : completes (imap pair tasks) joined →
  join_loop (TMessage := TMessage) joined (replicate (length tasks) Timeout) = Ok (inr tasks).
Proof.
  intros (l & Hp & ->). assert ((imap pair tasks).*1 = seq 0 (length tasks)) as Hfst.
  { apply list_eq. intros i. rewrite list_lookup_fmap, list_lookup_imap. destruct (tasks !! i) eqn:E; cbn; symmetry.
    - apply lookup_seq. split; [done|]. by eapply lookup_lt_Some.
    - apply lookup_seq_ge. by apply lookup_ge_None. }
  assert (l.*1 ≡ₚ seq 0 (length tasks)) as Hseq by (by rewrite Hp, Hfst).
  destruct (join_loop_spec l (replicate (length tasks) Timeout)) as (rs & -> & Hl & Hin & _).
  { rewrite Hseq. apply NoDup_seq. }
  { intros i. rewrite Hseq, elem_of_seq, length_replicate. lia. }
  do 2 f_equal. rewrite length_replicate in Hl. apply list_eq. intros i. destruct (tasks !! i) as [r|] eqn:E.
  - apply Hin. rewrite Hp. apply list_elem_of_lookup. exists i. by rewrite list_lookup_imap, E.
  - apply lookup_ge_None. rewrite Hl. by apply lookup_ge_None.
Qed.
End facts.

(** ** Theorems *)

(** A call reaches its actor at once, with a reply port that carries its timeout, or fails with the error of
    the send.  What it returns then is what came over its port: a reply or a loss by the deadline is
    reported, a timeout only if neither came in time, and without a timeout it waits for as long as the
    port is open. *)
Theorem call_answers {TMessage TReply TForward} (actor : nat) (mb : RpcReplyPort → TMessage) (t : option Duration)
    (s : Net TMessage TReply TForward) : (∀ p, 0 <= lag s p)%Z →
  ∃ r s', call actor mb t s = (Ok r, s') ∧ forwarded s' = forwarded s ∧
  match refusals s 0 with
  | Some why => r = inl (refusal_of why (mb (mkPort (next_port s) t))) ∧ sent s' = sent s
  | None => sent s' = sent s ++ [(actor, mb (mkPort (next_port s) t))] ∧
      ∃ o, r = inr o ∧ answers_call t (fate s (next_port s)) o
  end.
Proof.
  intros Hlag. unfold call, internal_call, oneshot, send_message, mbind, M_bind, gets. rewrite make_port_eq. cbn [refusals].
  destruct (refusals s 0) as [why|]; eexists _, _; (split; [reflexivity|]); (split; [done|]); (split; [done|]); [done|].
  eexists. split; [reflexivity|]. apply (wait_reply_answers t (next_port s) (mkNet _ (fate s) (lag s) _ _ _) (Hlag _)).
Qed.

(** A multi-call sends to the actors in turn, up to the first that refuses, whose error it returns.  If none
    does, its results are those of the actors, in their order, in whatever order the replies come; it
    waits forever only if one of the actors keeps its port and there is no timeout. *)
Theorem multi_call_in_order {TMessage TReply TForward} (actors : list nat) (mb : RpcReplyPort → TMessage) (t : option Duration)
    schedule (s : Net TMessage TReply TForward) : (∀ p, 0 <= lag s p)%Z → (∀ l, completes l (schedule l)) →
  ∃ r s', multi_call actors mb t schedule s = (Ok r, s') ∧
  match r with
  | Some (inl e) => ∃ k why, k < length actors ∧ refusals s k = Some why ∧ (∀ i, i < k → refusals s i = None) ∧
      e = refusal_of why (mb (mkPort (next_port s + k) t)) ∧ sent s' = sent s ++ requests mb t (next_port s) (take k actors)
  | Some (inr results) => sent s' = sent s ++ requests mb t (next_port s) actors ∧ length results = length actors ∧
      ∀ i c, results !! i = Some c → answers_call t (fate s (next_port s + i)) (Some c)
  | None => sent s' = sent s ++ requests mb t (next_port s) actors ∧ t = None ∧
      ∃ i, i < length actors ∧ fate s (next_port s + i) = Silent
  end.
Proof.
  intros Hlag Hsched. unfold multi_call. destruct (send_all_spec mb t actors [] s) as (r & s' & E & Hf & Hl & _ & Hr).
  rewrite (bind_ok _ _ _ _ _ E). destruct r as [e|ports]; [by exists (Some (inl e)), s'|]. destruct Hr as (-> & Hs & Hnone).
  rewrite bind_gets. cbn [app id].
  assert (∀ i, i < length actors → answers_call t (fate s (next_port s + i)) (wait_reply t (next_port s + i) s')) as Hans.
  { intros i _. rewrite <-Hf. apply wait_reply_answers. by rewrite Hl. }
  destruct (mapM (λ rx, wait_reply t rx s') (seq (next_port s) (length actors))) as [tasks|] eqn:Em.
  - rewrite join_all by apply Hsched. exists (Some (inr tasks)), s'. split; [done|].
    apply mapM_Some in Em. apply Forall2_length in Em as Hlen. rewrite length_seq in Hlen. split_and!; [done|done|].
    intros i c Hc. apply lookup_lt_Some in Hc as Hi. rewrite <-Hlen in Hi.
    destruct (Forall2_lookup_r _ _ _ _ _ Em Hc) as (rx & [-> _]%lookup_seq & Hrx). cbn in Hrx.
    rewrite <-Hrx. by apply Hans.
  - exists None, s'. split; [done|]. apply mapM_None in Em. apply Exists_exists in Em as (rx & Hin & Hrx).
    apply elem_of_seq in Hin. destruct (Hans (rx - next_port s)) as [Hn _]; [lia|].
    replace (next_port s + (rx - next_port s)) with rx in Hn by lia. rewrite Hrx in Hn. destruct Hn as [Ht Hfate].
    split_and!; [done|done|]. exists (rx - next_port s). split; [lia|]. by replace (next_port s + (rx - next_port s)) with rx by lia.
Qed.

(** A forwarded call behaves as the call, and sends the mapped reply to the other actor exactly if the call
    succeeds; the error of that send is in its result. *)
Theorem forward_on_success {TMessage TReply TForward} (actor : nat) (mb : RpcReplyPort → TMessage) (fwd : nat)
    (f : TReply → TForward) (t : option Duration) (s : Net TMessage TReply TForward) :
  ∃ r s1 r' s', call actor mb t s = (Ok r, s1) ∧ call_and_forward actor mb fwd f t s = (Ok r', s') ∧ sent s' = sent s1 ∧
  match r with
  | inr (Some (Success v)) =>
      match refusals s1 0 with
      | None => r' = inr (Some (Success (inr tt))) ∧ forwarded s' = forwarded s ++ [(fwd, f v)]
      | Some why => r' = inr (Some (Success (inl (refusal_of why (f v))))) ∧ forwarded s' = forwarded s
      end
  | inr o => r' = inr (o ≫= λ c, Some (CallResult.map c (λ _, inr tt))) ∧ forwarded s' = forwarded s
  | inl e => r' = inl e ∧ forwarded s' = forwarded s
  end.
Proof.
  set (p := next_port s). set (m := mb (mkPort p t)).
  destruct (refusals s 0) as [why|] eqn:E0.
  { assert (call actor mb t s = (Ok (inl (refusal_of why m)), mkNet (S p) (fate s) (lag s) (stail (refusals s)) (sent s) (forwarded s))) as ->
      by (unfold call, internal_call, send_message, mbind, M_bind; cbn; by rewrite E0, make_port_eq).
    assert (call_and_forward actor mb fwd f t s = (Ok (inl (refusal_of why m)), mkNet (S p) (fate s) (lag s) (stail (refusals s)) (sent s) (forwarded s))) as ->
      by (unfold call_and_forward, send_message, mbind, M_bind; cbn; by rewrite E0, make_port_eq).
    by eexists _, _, _, _. }
  set (s1 := mkNet (S p) (fate s) (lag s) (stail (refusals s)) (sent s ++ [(actor, m)]) (forwarded s)).
  assert (call actor mb t s = (Ok (inr (wait_reply t p s1)), s1)) as ->
    by (unfold call, internal_call, send_message, mbind, M_bind; cbn; by rewrite E0, make_port_eq).
  exists (inr (wait_reply t p s1)), s1.
  assert (call_and_forward actor mb fwd f t s = match wait_reply t p s1 with
    | None => (Ok (inr None), s1)
    | Some (Success v) => (r ← send_forward fwd (f v); mret (inr (Some (Success r)))) s1
    | Some Timeout => (Ok (inr (Some Timeout)), s1)
    | Some SenderError => (Ok (inr (Some SenderError)), s1) end) as ->.
  { unfold call_and_forward, oneshot, send_message, gets, mbind, M_bind. cbn [refusals]. rewrite E0, make_port_eq.
    unfold wait_reply, s1, p. cbn [fate lag id]. destruct t; [by destruct (timeout_rx _ _ _)|by destruct (await_rx _) as [[]|]]. }
  destruct (wait_reply t p s1) as [[v| |]|]; [|by eexists _, _..].
  unfold send_forward, mbind, M_bind. destruct (refusals s1 0); by eexists _, _.
Qed.

(** ** A sample: three actors, of which the second loses its port; the replies come in the reverse order *)

Definition sample_fate (p : nat) : Fate nat := match p with 0 => Replied 5%Z 10 | 1 => SenderDropped 3%Z | _ => Replied 9%Z 12 end.
Definition sample_net : Net RpcReplyPort nat nat := mkNet 0 sample_fate (λ _, 0%Z) (λ _, None) [] [].
Definition backwards (l : list (nat * CallResult nat)) : list (option (nat * CallResult nat)) := Some <$> reverse l.

Lemma call_answers_witness : ∃ r s', call 4 id (Some 7%Z) sample_net = (Ok r, s') ∧ forwarded s' = [] ∧
  sent s' = [(4, mkPort 0 (Some 7%Z))] ∧ ∃ o, r = inr o ∧ answers_call (Some 7%Z) (Replied 5%Z 10) o.
Proof. apply (call_answers 4 id (Some 7%Z) sample_net). intros p. cbn. lia. Defined.

Lemma multi_call_in_order_witness :
  ∃ s', multi_call [4; 5; 6] id (Some 7%Z) backwards sample_net = (Ok (Some (inr [Success 10; SenderError; Timeout])), s') ∧
  ∀ i c, [Success 10; SenderError; Timeout] !! i = Some c → answers_call (Some 7%Z) (sample_fate i) (Some c).
Proof.
  destruct (multi_call_in_order [4; 5; 6] id (Some 7%Z) backwards sample_net) as (r & s' & E & H).
  { intros p. cbn. lia. }
  { intros l. exists (reverse l). split; [apply reverse_Permutation|done]. }
  assert (r = Some (inr [Success 10; SenderError; Timeout])) as -> by (vm_compute in E; by injection E).
  exists s'. split; [done|]. by destruct H as (_ & _ & H).
Defined.
