(* ===== verification/Timer.v ===== *)
(** Timers (src/ractor/src/time.rs) and the interval timers they run on
    (src/ractor/src/concurrency/async_std_primitives.rs, and time.rs of wasm_browser_primitives).

    A timer is a task in a [Clock]: the time, in nanoseconds, and what the scheduler adds to every wait and
    to the work between two waits.  The actor is seen through its status and its mailbox, both functions
    of the time; what the task does to it is logged with its time.  [interval] and [tick] are the
    interface of the runtimes, with the law that their deadlines are a period apart, or more; the back-ends
    in the source are instances of it.  When a browser calls the callback of [setInterval] is a parameter. *)

From S2P Require Import Prelude Discard Job ActorTypes.
From stdpp Require Import pretty.

(** What a timer does to its actor *)
Inductive Act (Msg : Type) := Sent (m : Msg) | Stopped_with (reason : option string) | Killed.
Arguments Sent {Msg}.
Arguments Stopped_with {Msg}.
Arguments Killed {Msg}.

Record Clock (Msg : Type) := mkClock {
  time : Z;
  lags : nat → Z;
  status_at : Z → ActorStatus;
  accepts_at : Z → bool;
  acts : list (Z * Act Msg)
}.
Arguments mkClock {Msg}.
Arguments time {Msg}.
Arguments lags {Msg}.
Arguments status_at {Msg}.
Arguments accepts_at {Msg}.
Arguments acts {Msg}.

Section timer.
Context {Msg : Type}.
#[local] Abbreviation Clock := (Clock Msg).

(** Time passes until [t], at least, and by what the scheduler adds *)
Definition pass_until (t : Z) : M Clock unit := λ c,
  (Ok tt, mkClock (Z.max (time c) t + lags c 0) (stail (lags c)) (status_at c) (accepts_at c) (acts c)).
(** What an operation takes *)
Definition elapse : M Clock unit := λ c,
  (Ok tt, mkClock (time c + lags c 0) (stail (lags c)) (status_at c) (accepts_at c) (acts c)).
Definition act (a : Act Msg) : M Clock unit := λ c,
  (Ok tt, mkClock (time c) (lags c) (status_at c) (accepts_at c) (acts c ++ [(time c, a)])).

(** [Instant::now] *)
Definition now : M Clock Instant := gets time.
(** [concurrency::sleep] *)
Definition sleep (d : Duration) : M Clock unit :=
  t ← now;
  pass_until (t + d).

(** [ActorCell::get_status] and [ActorCell::send_message]; a message that is refused is not delivered *)
Definition get_status : M Clock ActorStatus :=
  _ ← elapse;
  gets (λ c, status_at c (time c)).
Definition send_message (m : Msg) : M Clock bool :=
  _ ← elapse;
  ok ← gets (λ c, accepts_at c (time c));
  if ok : bool then _ ← act (Sent m); mret true else mret false.
Definition stop (reason : option string) : M Clock unit := act (Stopped_with reason).
Definition kill : M Clock unit := act Killed.

(** [ACTIVE_STATES.contains] *)
Definition ACTIVE_STATES : list ActorStatus := [Starting; Running; Upgrading].
Definition is_active (s : ActorStatus) : bool := existsb (λ t, bool_decide (t = s)) ACTIVE_STATES.

(** The interface of a runtime *)
Class Interval (I : Type) := {
  interval : Duration → M Clock I;
  tick : I → M Clock I
}.

(** ** time.rs *)

(** The loop of [send_interval]: whether it has ended, within [fuel] rounds *)
Fixpoint interval_loop {I} `{!Interval I} (fuel : nat) (timer : I) (msg : Msg) : M Clock bool :=
  match fuel with
  | 0 => mret false
  | S fuel =>
      status ← get_status;
      if is_active status then
        timer ← tick timer;
        sent ← send_message msg;
        if sent : bool then interval_loop fuel timer msg else mret true
      else mret true
  end.
Definition send_interval {I} `{!Interval I} (fuel : nat) (period : Duration) (msg : Msg) : M Clock bool :=
  timer ← interval period;
  timer ← tick timer;
  interval_loop fuel timer msg.

Definition send_after (period : Duration) (msg : Msg) : M Clock bool :=
  _ ← sleep period;
  send_message msg.

(** [Duration::as_millis] *)
Definition as_millis (d : Duration) : N := Z.to_N (d / 1000000).
Definition exit_after (period : Duration) : M Clock unit :=
  _ ← sleep period;
  stop (Some ("Exit after " +:+ pretty (as_millis period) +:+ "ms")%string).
Definition kill_after (period : Duration) : M Clock unit :=
  _ ← sleep period;
  kill.

(** ** async_std_primitives.rs *)

Record StdInterval := mkStdInterval { dur : Duration; next_tick : Instant }.

#[export] Instance std_interval : Interval StdInterval := {|
  interval d := (t ← now; mret (mkStdInterval d t));
  tick i :=
    (t ← now;
     _ ← (if (t <? next_tick i)%Z then sleep (next_tick i - t) else mret tt);
     mret (mkStdInterval (dur i) (next_tick i + dur i)))
|}.

(** ** wasm_browser_primitives/time.rs *)

(** [setInterval] of a browser: the times of the calls of a callback that is registered at a time with a period in
    milliseconds *)
Class Browser := set_interval : Instant → Z → nat → Instant.

(** Each call puts a tick in the channel, and [tick] receives one. *)
Record WasmInterval := mkWasmInterval { callbacks : nat → Instant; wasm_period : Duration; received : nat }.

#[export] Instance wasm_interval `{!Browser} : Interval WasmInterval := {|
  interval d := (t ← now; mret (mkWasmInterval (set_interval t (d / 1000000)) d 0));
  tick i :=
    (_ ← pass_until (callbacks i (received i));
     mret (mkWasmInterval (callbacks i) (wasm_period i) (S (received i))))
|}.

(** What browsers promise: a callback is called a period after its registration or its last call, at the earliest.  The period
    is a 32-bit integer there, so nothing is promised of longer ones but the order of the calls. *)
Definition js_period (ms : Z) : Duration := if (ms <? 2 ^ 31)%Z then (ms * 1000000)%Z else 0%Z.
Class BrowserLaws `{!Browser} := {
  callback_first t ms : (t + js_period ms <= set_interval t ms 0)%Z;
  callback_next t ms n : (set_interval t ms n + js_period ms <= set_interval t ms (S n))%Z
}.

(** ** The deadlines of an interval *)

(** The scheduler adds at most [L] to a wait or an operation. *)
Definition paced (L : Z) (c : Clock) : Prop := ∀ n, (0 <= lags c n <= L)%Z.

(** Time has passed, and nothing else has happened. *)
Record waited (L : Z) (c c' : Clock) : Prop := {
  wt_status : status_at c' = status_at c;
  wt_accepts : accepts_at c' = accepts_at c;
  wt_acts : acts c' = acts c;
  wt_paced : paced L c → paced L c'
}.

(** What a runtime promises: a first deadline, deadlines a [step] apart or more, and exactly a step apart if it is
    [exact], and ticks no earlier than their deadlines that are late by no more than their call or the scheduler. *)
Class IntervalLaws (I : Type) `{!Interval I} := {
  exact : bool;
  valid : I → Prop;
  deadline : I → Z;
  step : I → Z;
  first_delay : Duration → Z;
  rounded : Duration → Z;
  interval_law d (c : Clock) :
    ∃ i, interval d c = (Ok i, c) ∧ valid i ∧ (time c + first_delay d <= deadline i)%Z ∧ step i = rounded d ∧
      (exact = true → deadline i = (time c + first_delay d)%Z);
  tick_law L i (c : Clock) : paced L c → valid i →
    ∃ i' c', tick i c = (Ok i', c') ∧ valid i' ∧ (deadline i + step i <= deadline i')%Z ∧ step i' = step i ∧ waited L c c' ∧
      (Z.max (time c) (deadline i) <= time c' <= Z.max (time c) (deadline i) + L)%Z ∧
      (exact = true → deadline i' = (deadline i + step i)%Z)
}.

Lemma paced_tail L (c : Clock) t l : paced L c → paced L (mkClock t (stail (lags c)) (status_at c) (accepts_at c) l).
Proof. intros H n. apply (H (S n)). Qed.

#[export] Program Instance std_interval_laws : IntervalLaws StdInterval := {|
  exact := true;
  valid _ := True;
  deadline := next_tick;
  step := dur;
  first_delay _ := 0%Z;
  rounded d := d
|}.
Next Obligation. intros d c. eexists. split; [reflexivity|]. cbn. split_and!; [done|lia|done|lia]. Qed.
Next Obligation.
  intros L i c Hp _. pose proof (Hp 0) as H0. unfold tick, std_interval, now, mbind, M_bind, gets.
  destruct (Z.ltb_spec (time c) (next_tick i)).
  - eexists _, _. split; [reflexivity|]. cbn. split_and!; [done|lia|done| |lia|lia|done]. split; [done..|]. intros _. by apply paced_tail.
  - eexists _, _. split; [reflexivity|]. cbn. split_and!; [done|lia|done| |lia|lia|done]. by split.
Qed.

#[export] Program Instance wasm_interval_laws `{!Browser, !BrowserLaws} : IntervalLaws WasmInterval := {|
  exact := false;
  valid i := ∀ n, (callbacks i n + js_period (wasm_period i / 1000000) <= callbacks i (S n))%Z;
  deadline i := callbacks i (received i);
  step i := js_period (wasm_period i / 1000000);
  first_delay d := js_period (d / 1000000);
  rounded d := js_period (d / 1000000)
|}.
Next Obligation. intros ?? d c. eexists. split; [reflexivity|]. cbn. split_and!; [intros n; apply callback_next|apply callback_first|done|done]. Qed.
Next Obligation.
  intros ?? L i c Hp Hv. pose proof (Hp 0) as HL. unfold tick, wasm_interval, pass_until, mbind, M_bind.
  eexists _, _. split; [reflexivity|]. cbn [callbacks wasm_period received time]. split_and!; [done|apply Hv|done| |lia|lia|done].
  split; [done..|]. intros _. by apply paced_tail.
Qed.

Lemma get_status_law L (c : Clock) : paced L c → ∃ st c', get_status c = (Ok st, c') ∧ waited L c c' ∧
  (time c <= time c' <= time c + L)%Z ∧ st = status_at c (time c').
Proof.
  intros Hp. pose proof (Hp 0). eexists _, _. split; [reflexivity|]. cbn. split_and!; [|lia|lia|done].
  split; [done..|]. intros _. by apply paced_tail.
Qed.

(** A send logs the message if the actor accepts it. *)
Lemma send_law L m (c : Clock) : paced L c → ∃ ok c', send_message m c = (Ok ok, c') ∧ ok = accepts_at c (time c') ∧
  (time c <= time c' <= time c + L)%Z ∧ paced L c' ∧ status_at c' = status_at c ∧ accepts_at c' = accepts_at c ∧
  acts c' = acts c ++ (if ok : bool then [(time c', Sent m)] else []).
Proof.
  intros Hp. pose proof (Hp 0). pose proof (λ l, paced_tail L c (time c + lags c 0) l Hp).
  unfold send_message, elapse, act, gets, mbind, M_bind. cbn [time accepts_at].
  destruct (accepts_at c (time c + lags c 0)%Z) eqn:E; eexists _, _; (split; [reflexivity|]); cbn [time acts accepts_at status_at];
    rewrite E, ?app_nil_r; by split_and!; try lia.
Qed.

(** ** The loop *)

(** [ts] are the times of messages and [ds] their deadlines, the first of them [D] or later, at least [stp] apart.  A message is
    sent at its deadline or later, and no more than [B] later if [tight]. *)
Inductive on_schedule (stp B : Z) (tight : Prop) : Z → list Z → list Z → Prop :=
| os_nil D : on_schedule stp B tight D [] []
| os_cons D t ts d ds : (D <= d <= t)%Z → (tight → (t <= d + B)%Z) → on_schedule stp B tight (d + stp) ts ds →
    on_schedule stp B tight D (t :: ts) (d :: ds).

Lemma on_schedule_weaken D D' stp B (tight tight' : Prop) ts ds : (D' <= D)%Z → (tight' → tight) →
  on_schedule stp B tight D ts ds → on_schedule stp B tight' D' ts ds.
Proof.
  intros HD Ht H. revert D' HD. induction H as [D0|D0 t ts d ds H1 H2 H3 IH]; intros D' HD; constructor; [lia|auto|]. apply IH. lia.
Qed.

Lemma on_schedule_lookup D stp B tight ts ds : on_schedule stp B tight D ts ds → length ds = length ts ∧
  ∀ k t d, ts !! k = Some t → ds !! k = Some d →
    (D + Z.of_nat k * stp <= d <= t)%Z ∧ (tight → (t <= d + B)%Z) ∧ ∀ d', ds !! S k = Some d' → (d + stp <= d')%Z.
Proof.
  induction 1 as [D0|D0 t ts d ds H1 H2 H3 [IHl IH]]; [split; [done|]; by intros k|]. split; [cbn; by rewrite IHl|].
  intros [|k] t0 d0 Ht Hd; cbn in Ht, Hd.
  - simplify_eq. split_and!; [lia|lia|done|]. intros d' Hd'. cbn in Hd'. inversion H3; simplify_eq/=; lia.
  - destruct (IH k t0 d0 Ht Hd) as ([? ?] & ? & Hn). split_and!; [lia|lia|done|]. intros d' Hd'. by apply Hn.
Qed.

(** Why the loop ends: the actor was seen inactive, or refused a message, at a time between [t] and [t']. *)
Definition gave_up (c : Clock) (t t' : Z) : Prop :=
  ∃ u, (t <= u <= t')%Z ∧ (is_active (status_at c u) = false ∨ accepts_at c u = false).

Lemma interval_loop_spec {I} `{!Interval I, !IntervalLaws I} L fuel i m (c : Clock) :
  paced L c → valid i → (0 <= step i)%Z →
  ∃ ended c' ts ds, interval_loop fuel i m c = (Ok ended, c') ∧ acts c' = acts c ++ ((λ t, (t, Sent m)) <$> ts) ∧
    on_schedule (step i) (2 * L) (3 * L <= step i ∧ time c <= deadline i - step i + 2 * L)%Z (deadline i) ts ds ∧
    Forall (λ t, accepts_at c t = true) ts ∧
    (exact = true → ∀ k d, ds !! k = Some d → d = (deadline i + Z.of_nat k * step i)%Z) ∧
    (time c <= time c')%Z ∧ (if ended then gave_up c (time c) (time c') else length ts = fuel) ∧
    (exact = true → (deadline i <= time c + step i)%Z →
     ∀ T, (time c <= T)%Z → (∀ t, (T <= t)%Z → accepts_at c t = false) → (time c' <= T + step i + 3 * L)%Z).
Proof.
  revert i c. induction fuel as [|fuel IH]; intros i c Hp Hv Hs; cbn [interval_loop].
  { exists false, c, [], []. cbn. rewrite app_nil_r. split_and!; [done|done|constructor|constructor|by intros _ k|lia|done|pose proof (Hp 0); lia]. }
  pose proof (Hp 0) as HL. destruct (get_status_law L c Hp) as (st & c1 & E1 & [Hst1 Hac1 Hact1 Hp1] & Ht1 & ->).
  rewrite (bind_ok _ _ _ _ _ E1). destruct (is_active (status_at c (time c1))) eqn:Hact.
  2:{ exists true, c1, [], []. cbn. rewrite app_nil_r. split_and!; [done|done|constructor|constructor|by intros _ k|lia| |lia].
      exists (time c1). split; [lia|by left]. }
  destruct (tick_law L i c1 (Hp1 Hp) Hv) as (i2 & c2 & E2 & Hv2 & Hd2 & Hs2 & [Hst2 Hac2 Hact2 Hp2] & Ht2 & Hx2). rewrite (bind_ok _ _ _ _ _ E2).
  destruct (send_law L m c2 (Hp2 (Hp1 Hp))) as (ok & c3 & E3 & Hok & Ht3 & Hp3 & Hst3 & Hac3 & Hact3).
  rewrite (bind_ok _ _ _ _ _ E3). rewrite Hac2, Hac1 in Hok. rewrite Hac2, Hac1 in Hac3. rewrite Hact2, Hact1 in Hact3. destruct ok.
  2:{ exists true, c3, [], []. cbn. split_and!; [done|by rewrite Hact3|constructor|constructor|by intros _ k|lia| |lia].
      exists (time c3). split; [lia|by right]. }
  destruct (IH i2 c3 Hp3 Hv2) as (ended & c' & ts & ds & E & Hacts & Hon & Hall & Hx & Hle & Hend & Hdead); [lia|].
  exists ended, c', (time c3 :: ts), (deadline i :: ds). rewrite Hac3 in Hall. rewrite Hs2 in Hon, Hx. split_and!.
  - done.
  - by rewrite Hacts, Hact3, <-app_assoc.
  - constructor; [lia|lia|]. eapply on_schedule_weaken; [exact Hd2| |exact Hon]. intros [H1 H2]. split; [done|]. lia.
  - by constructor.
  - intros He [|k] d Hk; cbn in Hk; [injection Hk as <-; lia|]. rewrite (Hx He k d Hk), (Hx2 He). lia.
  - lia.
  - destruct ended; [|cbn; by rewrite Hend]. destruct Hend as (u & Hu & Hr). exists u. rewrite Hst3, Hst2, Hst1, Hac3 in Hr. split; [lia|done].
  - intros He Hd T HT Hno. rewrite Hs2, Hac3 in Hdead. apply (Hdead He); [rewrite (Hx2 He); lia| |done].
    destruct (Z.leb_spec T (time c3)); [|lia]. rewrite Hno in Hok by done. done.
Qed.
End timer.

(** ** Theorems *)

Section theorems.
Context {Msg I : Type} `{!Interval (Msg := Msg) I, !IntervalLaws (Msg := Msg) I}.

Lemma send_interval_spec L fuel period m (c : Clock Msg) :
  paced L c → (0 <= rounded (Msg := Msg) period)%Z → (0 <= first_delay (Msg := Msg) period)%Z →
  let base := (time c + first_delay (Msg := Msg) period)%Z in let p := rounded (Msg := Msg) period in
  ∃ ended c' ts ds, send_interval fuel period m c = (Ok ended, c') ∧ acts c' = acts c ++ ((λ t, (t, Sent m)) <$> ts) ∧
    on_schedule p (2 * L) (3 * L <= p)%Z (base + p)%Z ts ds ∧ Forall (λ t, accepts_at c t = true) ts ∧
    (exact (Msg := Msg) = true → ∀ k d, ds !! k = Some d → d = (base + Z.of_nat (S k) * p)%Z) ∧
    (if ended then gave_up c (time c) (time c') else length ts = fuel) ∧
    (exact (Msg := Msg) = true → ∀ T, (∀ t, (T <= t)%Z → accepts_at c t = false) → (time c' <= Z.max T (base + L) + p + 3 * L)%Z).
Proof.
  intros Hp Hr Hf base p. unfold send_interval. destruct (interval_law period c) as (i & E0 & Hv & Hd & Hs & Hx). rewrite (bind_ok _ _ _ _ _ E0).
  destruct (tick_law L i c Hp Hv) as (i1 & c1 & E1 & Hv1 & Hd1 & Hs1 & [Hst1 Hac1 Hact1 Hp1] & Ht1 & Hx1). rewrite (bind_ok _ _ _ _ _ E1).
  destruct (interval_loop_spec L fuel i1 m c1 (Hp1 Hp) Hv1) as (ended & c' & ts & ds & E & Hacts & Hon & Hall & Hx' & Hle & Hend & Hdead); [lia|].
  exists ended, c', ts, ds. rewrite Hac1 in Hall. rewrite Hact1 in Hacts. rewrite Hs1, Hs in Hon, Hx'. fold p in Hon, Hx'. pose proof (Hp 0).
  split_and!; [done|done| |done| | |].
  - eapply on_schedule_weaken; [| |exact Hon]; subst base p; [lia|]. intros H3. split; [exact H3|]. lia.
  - intros He k d Hk. rewrite (Hx' He k d Hk), (Hx1 He), (Hx He). subst base p. lia.
  - destruct ended; [|done]. destruct Hend as (u & Hu & Hr'). exists u. rewrite Hst1, Hac1 in Hr'. split; [lia|done].
  - intros He T Hno. rewrite Hac1, Hs1, Hs in Hdead. fold p in Hdead. specialize (Hx He). specialize (Hx1 He).
    transitivity (Z.max T (time c1) + p + 3 * L)%Z; [|subst base; lia]. apply (Hdead He); [subst p; lia|lia|]. intros t Ht. apply Hno. lia.
Qed.


(** An interval timer ends once its actor refuses messages, after as many rounds as there are periods before; with exact deadlines
    the task has returned at the latest one period and three delays of the scheduler later. *)
Theorem send_interval_ends L fuel period m (c : Clock Msg) T :
  paced L c → (0 <= rounded (Msg := Msg) period)%Z → (0 <= first_delay (Msg := Msg) period)%Z → (∀ t, (T <= t)%Z → accepts_at c t = false) → 0 < fuel →
  let base := (time c + first_delay (Msg := Msg) period)%Z in
  (T <= base + Z.of_nat fuel * rounded (Msg := Msg) period)%Z →
  ∃ c', send_interval fuel period m c = (Ok true, c') ∧
    (exact (Msg := Msg) = true → (time c' <= Z.max T (base + L) + rounded (Msg := Msg) period + 3 * L)%Z).
Proof.
  intros Hp Hr Hf Hdead H0 base HT. destruct (send_interval_spec L fuel period m c Hp Hr Hf) as (ended & c' & ts & ds & E & Ha & Hon & Hall & _ & Hend & Hlate).
  exists c'. destruct ended; [split; [done|intros He; by apply Hlate]|]. exfalso. destruct (on_schedule_lookup _ _ _ _ _ _ Hon) as [Hl Hk].
  destruct (lookup_lt_is_Some_2 ts (fuel - 1)) as [t Ht]; [lia|]. destruct (lookup_lt_is_Some_2 ds (fuel - 1)) as [d Hd]; [lia|].
  destruct (Hk _ _ _ Ht Hd) as ([H1 H2] & _). fold base in H1. rewrite Forall_lookup in Hall. specialize (Hall _ _ Ht). rewrite Hdead in Hall; [done|]. nia.
Qed.
End theorems.

(** ** Samples: an actor that lives for a second, with a timer of 300 milliseconds, on both back-ends *)

Definition sample_clock : Clock nat :=
  mkClock 0 (λ n, Z.of_nat (n mod 3) * 1000000)%Z (λ _, Running) (λ t, t <? 1000000000)%Z [].

Lemma sample_paced : paced 2000000 sample_clock.
Proof. intros n. cbn. pose proof (Nat.mod_upper_bound n 3). lia. Qed.

(** The timer stops after three messages, when the actor is gone. *)
Abbreviation sample_timer := (send_interval (I := StdInterval) 9 300000000 5 sample_clock).


(** A browser that keeps the period *)
#[local] Instance sample_browser : Browser := λ t ms n, (t + Z.of_nat (S n) * js_period ms)%Z.
#[local] Instance sample_browser_laws : BrowserLaws.
Proof. split; intros; unfold set_interval, sample_browser; lia. Qed.

Lemma send_interval_ends_witness : ∃ c', send_interval (I := WasmInterval) 4 300000000 5 sample_clock = (Ok true, c').
Proof.
  destruct (send_interval_ends (I := WasmInterval) 2000000 4 300000000 5 sample_clock 1000000000) as (c' & E & _).
  - apply sample_paced.
  - vm_compute. discriminate.
  - vm_compute. discriminate.
  - intros t Ht. cbn. by apply Z.ltb_ge.
  - lia.
  - vm_compute. discriminate.
  - exists c'. done.
Defined.

(** In a browser the first tick comes after a period: the first of the messages takes two. *)
Lemma wasm_first_message : fst <$> head (acts (send_interval (I := WasmInterval) 4 300000000 5 sample_clock).2) = Some 602000000%Z.
Proof. by vm_compute. Qed.
Lemma std_first_message : fst <$> head (acts (send_interval (I := StdInterval) 4 300000000 5 sample_clock).2) = Some 303000000%Z.
Proof. by vm_compute. Qed.
