(* ===== verification/Frames.v ===== *)
(** The byte stream between two nodes: the batched writer and the frame reader of a session
    (src/ractor_cluster/src/net/session.rs).

    The protobuf encoding of a message is a parameter.  A stream is the bytes that are still to be read,
    and how the transport hands them out: how many bytes each read returns, and which reads or buffer
    extensions fail. *)

From S2P Require Import Prelude Bytes.

Definition FRAME_READ_CHUNK_SIZE : nat := 8 * 1024.

Inductive IoError := UnexpectedEof | InvalidData | OtherError.

(** The reading half of a connection; [regular] tells a plain socket from the other kinds. *)
Record Stream := mkStream {
  regular : bool;
  pending : list byte;
  chunk : nat → nat;
  read_fails : nat → bool;
  reserve_fails : nat → bool;
  reads : nat
}.

Definition advance (rest : list byte) (s : Stream) : Stream :=
  mkStream (regular s) rest (chunk s) (read_fails s) (reserve_fails s) (S (reads s)).

(** [AsyncReadExt::read] into a buffer of [n] bytes: at least one byte unless the stream has ended or the
    buffer is empty *)
Definition read (n : nat) (s : Stream) : (IoError + list byte) * Stream :=
  if read_fails s (reads s) then (inl OtherError, advance (pending s) s)
  else
    let got := min (max 1 (chunk s (reads s))) n in
    (inr (take got (pending s)), advance (drop got (pending s)) s).

(** [AsyncReadExt::read_u64]: exactly eight bytes *)
Definition read_u64 (s : Stream) : (IoError + N) * Stream :=
  if read_fails s (reads s) then (inl OtherError, advance (pending s) s)
  else if length (pending s) <? 8 then (inl UnexpectedEof, advance [] s)
  else (inr (from_be_bytes (take 8 (pending s))), advance (drop 8 (pending s)) s).

(** The loop of [read_n_bytes]; [len] bytes of fuel are enough, as every round reads one. *)
Fixpoint read_loop (fuel len : nat) (buf : list byte) (s : Stream) : (IoError + list byte) * Stream :=
  if length buf <? len then
    match fuel with
    | 0 => (inl OtherError, s)
    | S fuel =>
        let read_len := min (len - length buf) FRAME_READ_CHUNK_SIZE in
        match read read_len s with
        | (inl e, s) => (inl e, s)
        | (inr bytes, s) =>
            if bool_decide (bytes = []) then (inl UnexpectedEof, s)
            else if reserve_fails s (reads s) then (inl InvalidData, s)
            else read_loop fuel len (buf ++ bytes) s
        end
    end
  else (inr buf, s).

(** A plain socket is awaited first, which may fail. *)
Definition read_n_bytes (s : Stream) (len : nat) : (IoError + list byte) * Stream :=
  if regular s then
    if read_fails s (reads s) then (inl OtherError, advance (pending s) s)
    else read_loop len len [] (advance (pending s) s)
  else read_loop len len [] s.

Definition checked_frame_length (length max_frame_size : N) : IoError + nat :=
  if (max_frame_size <? length)%N then inl InvalidData
  else if (2 ^ 63 - 1 <? length)%N then inl InvalidData
  else inr (N.to_nat length).

Section frames.
Context {NetworkMessage : Type}.
Variable encode : NetworkMessage → list byte.
Variable decode : list byte → option NetworkMessage.
Implicit Types (m : NetworkMessage) (ms : list NetworkMessage) (s : Stream).

(** ** Writing *)

Definition encode_network_message m (buf : list byte) : list byte :=
  buf ++ to_be_bytes 8 (N.of_nat (length (encode m))) ++ encode m.

(** The batches [run_write_task] takes off its channel: a message it waited for and those it found behind
    it.  [write_ok k] is whether the [k]-th batch is written and flushed; the result is what reached the
    stream and whether the session was stopped. *)
Fixpoint run_write_task (batches : list (NetworkMessage * list NetworkMessage)) (write_ok : nat → bool) (k : nat) :
  list byte * option string :=
  match batches with
  | [] => ([], None)
  | (first, more) :: batches =>
      let buf := encode_network_message first [] in
      let buf := foldl (λ buf m, encode_network_message m buf) buf more in
      if write_ok k then
        let '(out, r) := run_write_task batches write_ok (S k) in (buf ++ out, r)
      else ([], Some "channel_closed"%string)
  end.

(** ** Reading *)

Definition read_network_message (max_frame_size : N) s : (IoError + NetworkMessage) * Stream :=
  match read_u64 s with
  | (inl e, s) => (inl e, s)
  | (inr wire_length, s) =>
      match checked_frame_length wire_length max_frame_size with
      | inl e => (inl e, s)
      | inr frame_length =>
          match read_n_bytes s frame_length with
          | (inl e, s) => (inl e, s)
          | (inr bytes, s) =>
              match decode bytes with
              | Some m => (inr m, s)
              | None => (inl InvalidData, s)
              end
          end
      end
  end.

(** [SessionReader]: each [WaitForObject] reads a message, hands it to the session and asks for the next;
    an error drops the stream and stops the reader.  [None] in the state: the stream was dropped. *)
Definition wait_for_object (max_frame_size : N) (reader : option Stream) :
  (string + NetworkMessage) * option Stream :=
  match reader with
  | None => (inl "channel_closed"%string, None)
  | Some s =>
      match read_network_message max_frame_size s with
      | (inr m, s) => (inr m, Some s)
      | (inl UnexpectedEof, _) => (inl "channel_closed"%string, None)
      | (inl _, _) => (inl "frame_read_error"%string, None)
      end
  end.

Fixpoint reader_run (fuel : nat) (max_frame_size : N) (reader : option Stream) : list NetworkMessage * option string :=
  match fuel with
  | 0 => ([], None)
  | S fuel =>
      match wait_for_object max_frame_size reader with
      | (inl reason, _) => ([], Some reason)
      | (inr m, reader) => let '(ms, r) := reader_run fuel max_frame_size reader in (m :: ms, r)
      end
  end.

(** ** Lemmas *)

(** A transport that loses nothing, whatever pieces it hands out *)
Definition reliable s : Prop := ∀ k, read_fails s k = false ∧ reserve_fails s k = false.

Lemma reliable_advance l s : reliable s → reliable (advance l s).
Proof. done. Qed.

Lemma read_reliable n s :
  reliable s → 0 < n → ∃ got, 1 ≤ got ≤ n ∧ read n s = (inr (take got (pending s)), advance (drop got (pending s)) s).
Proof.
  intros Hs Hn. unfold read. rewrite (proj1 (Hs _)). eexists. split; [|done]. lia.
Qed.

Lemma read_loop_spec fuel len buf s :
  reliable s → length buf ≤ len → len - length buf ≤ fuel →
  let need := len - length buf in
  if need <=? length (pending s) then
    ∃ s', read_loop fuel len buf s = (inr (buf ++ take need (pending s)), s') ∧
          reliable s' ∧ pending s' = drop need (pending s)
  else (read_loop fuel len buf s).1 = inl UnexpectedEof.
Proof.
  revert buf s. induction fuel as [|fuel IH]; intros buf s Hs Hb Hf; cbn zeta.
  - assert (len - length buf = 0) as -> by lia. simpl. exists s.
    rewrite (proj2 (Nat.ltb_ge _ _)) by lia. by rewrite take_0, drop_0, app_nil_r.
  - cbn [read_loop]. destruct (length buf <? len) eqn:El.
    + apply Nat.ltb_lt in El. unfold FRAME_READ_CHUNK_SIZE.
      destruct (read_reliable (min (len - length buf) (8 * 1024)) s Hs) as (got & Hg & ->); [lia|].
      destruct (pending s) as [|b l] eqn:Ep.
      { rewrite take_nil, bool_decide_eq_true_2 by done. rewrite (proj2 (Nat.leb_gt _ _)) by (simpl; lia). done. }
      rewrite bool_decide_eq_false_2 by (destruct got; [lia|done]).
      change (reserve_fails (advance (drop got (b :: l)) s)) with (reserve_fails s).
      rewrite (proj2 (Hs _)). rewrite <-Ep. set (s1 := advance _ s).
      assert (length (buf ++ take got (pending s)) = length buf + min got (length (pending s))) as Hl.
      { by rewrite length_app, length_take. }
      specialize (IH (buf ++ take got (pending s)) s1). rewrite Hl in IH. cbn zeta in IH.
      specialize (IH (reliable_advance _ _ Hs) ltac:(lia)).
      assert (1 ≤ length (pending s)) by (rewrite Ep; simpl; lia).
      specialize (IH ltac:(lia)). change (pending s1) with (drop got (pending s)) in IH. rewrite length_drop in IH.
      destruct (Nat.leb_spec (len - length buf) (length (pending s))) as [Hle|Hgt].
      * rewrite (proj2 (Nat.leb_le _ _)) in IH by lia. destruct IH as (s' & Hr & Hs' & Hp). exists s'.
        split_and!; [|done|].
        -- rewrite Hr. f_equal. f_equal. rewrite <-app_assoc. f_equal.
           replace (len - length buf) with (got + (len - (length buf + got))) at 2 by lia.
           rewrite take_take_drop. f_equal. f_equal. lia.
        -- rewrite Hp, drop_drop. f_equal. lia.
      * rewrite (proj2 (Nat.leb_gt _ _)) in IH by lia. done.
    + apply Nat.ltb_ge in El. assert (len - length buf = 0) as -> by lia. simpl. exists s.
      by rewrite take_0, drop_0, app_nil_r.
Qed.

Lemma read_n_bytes_spec len s :
  reliable s →
  if len <=? length (pending s) then
    ∃ s', read_n_bytes s len = (inr (take len (pending s)), s') ∧ reliable s' ∧ pending s' = drop len (pending s)
  else (read_n_bytes s len).1 = inl UnexpectedEof.
Proof.
  intros Hs. unfold read_n_bytes. rewrite (proj1 (Hs _)).
  assert (∀ s', reliable s' → pending s' = pending s → let r := read_loop len len [] s' in
    if len <=? length (pending s) then
      ∃ s'', r = (inr (take len (pending s)), s'') ∧ reliable s'' ∧ pending s'' = drop len (pending s)
    else r.1 = inl UnexpectedEof) as H.
  { intros s' Hs' <-. pose proof (read_loop_spec len len [] s' Hs') as H. cbn zeta in H. simpl in H.
    rewrite Nat.sub_0_r in H. apply H; lia. }
  destruct (regular s); by apply H.
Qed.

Definition frame m : list byte := to_be_bytes 8 (N.of_nat (length (encode m))) ++ encode m.

(** The messages of the batches, in order *)
Definition sent (batches : list (NetworkMessage * list NetworkMessage)) : list NetworkMessage :=
  concat ((λ b, b.1 :: b.2) <$> batches).

Lemma batch_frames ms buf : foldl (λ buf m, encode_network_message m buf) buf ms = buf ++ concat (frame <$> ms).
Proof.
  revert buf. induction ms as [|m ms IH]; intros buf; cbn [foldl]; [by rewrite app_nil_r|].
  rewrite IH, fmap_cons. cbn [concat]. unfold encode_network_message, frame. by rewrite <-!app_assoc.
Qed.

Lemma written_frames batches k : run_write_task batches (λ _, true) k = (concat (frame <$> sent batches), None).
Proof.
  revert k. induction batches as [|[m ms] batches IH]; intros k; [done|].
  cbn [run_write_task]. rewrite IH, batch_frames. unfold sent. rewrite fmap_cons. cbn [concat fst snd].
  rewrite fmap_app, concat_app, fmap_cons. cbn [concat]. by rewrite <-!app_assoc.
Qed.

Definition fits (max_frame_size : N) m : Prop :=
  (N.of_nat (length (encode m)) ≤ max_frame_size)%N ∧ (N.of_nat (length (encode m)) ≤ 2 ^ 63 - 1)%N.

Lemma read_u64_reliable s :
  reliable s →
  read_u64 s = if length (pending s) <? 8 then (inl UnexpectedEof, advance [] s)
               else (inr (from_be_bytes (take 8 (pending s))), advance (drop 8 (pending s)) s).
Proof. intros Hs. unfold read_u64. by rewrite (proj1 (Hs _)). Qed.

Lemma checked_fits max n : (n ≤ max)%N → (n ≤ 2 ^ 63 - 1)%N → checked_frame_length n max = inr (N.to_nat n).
Proof. intros. unfold checked_frame_length. by rewrite !(proj2 (N.ltb_ge _ _)). Qed.

Lemma checked_oversized max n : (max < n ∨ 2 ^ 63 - 1 < n)%N → checked_frame_length n max = inl InvalidData.
Proof.
  intros Hn. unfold checked_frame_length. destruct (N.ltb_spec max n); [done|].
  by rewrite (proj2 (N.ltb_lt _ _)) by lia.
Qed.

Lemma read_frame max m rest s :
  decode (encode m) = Some m → reliable s → fits max m → pending s = frame m ++ rest →
  ∃ s', read_network_message max s = (inr m, s') ∧ reliable s' ∧ pending s' = rest.
Proof.
  intros Hde Hs [Hf1 Hf2] Hp. unfold read_network_message. rewrite read_u64_reliable by done.
  assert (pending s = to_be_bytes 8 (N.of_nat (length (encode m))) ++ encode m ++ rest) as Hp'.
  { rewrite Hp. unfold frame. by rewrite <-app_assoc. }
  rewrite Hp', length_app, length_to_be_bytes. cbn [Nat.ltb Nat.leb Nat.add].
  rewrite take_app_length', drop_app_length' by (by rewrite length_to_be_bytes).
  rewrite from_to_be_bytes_small by (simpl; lia). rewrite checked_fits, Nat2N.id by done.
  pose proof (read_n_bytes_spec (length (encode m)) (advance (encode m ++ rest) s) (reliable_advance _ _ Hs)) as Hr.
  cbn [pending advance] in Hr. rewrite (proj2 (Nat.leb_le _ _)) in Hr by (rewrite length_app; lia).
  destruct Hr as (s' & -> & Hs' & Hp2). rewrite take_app_length in *. rewrite Hde.
  exists s'. split_and!; [done|done|]. by rewrite Hp2, drop_app_length.
Qed.

(** What the reader makes of bytes that are not a frame *)
Lemma read_rest max s :
  reliable s → let n := from_be_bytes (take 8 (pending s)) in
  (length (pending s) < 8 → (read_network_message max s).1 = inl UnexpectedEof) ∧
  (8 ≤ length (pending s) → (max < n ∨ 2 ^ 63 - 1 < n)%N →
     read_network_message max s = (inl InvalidData, advance (drop 8 (pending s)) s)) ∧
  (8 ≤ length (pending s) → (n ≤ max)%N → (n ≤ 2 ^ 63 - 1)%N → length (pending s) < 8 + N.to_nat n →
     (read_network_message max s).1 = inl UnexpectedEof).
Proof.
  intros Hs n. unfold read_network_message. rewrite read_u64_reliable by done. split_and!.
  - intros Hl. by rewrite (proj2 (Nat.ltb_lt _ _)).
  - intros Hl Hn. rewrite (proj2 (Nat.ltb_ge _ _)) by done. fold n. by rewrite checked_oversized.
  - intros Hl Hn1 Hn2 Hs8. rewrite (proj2 (Nat.ltb_ge _ _)) by done. fold n. rewrite checked_fits by done.
    pose proof (read_n_bytes_spec (N.to_nat n) (advance (drop 8 (pending s)) s) (reliable_advance _ _ Hs)) as Hr.
    cbn [pending advance] in Hr. rewrite (proj2 (Nat.leb_gt _ _)) in Hr by (rewrite length_drop; lia).
    destruct (read_n_bytes _ _) as [[e|l] s']; simpl in *; by simplify_eq.
Qed.

Hypothesis decode_encode : ∀ m, decode (encode m) = Some m.

Lemma reader_run_frames max ms rest s :
  reliable s → (∀ m, m ∈ ms → fits max m) → pending s = concat (frame <$> ms) ++ rest →
  ∃ s', reliable s' ∧ pending s' = rest ∧
    ∀ fuel, reader_run (length ms + fuel) max (Some s) =
      (ms ++ (reader_run fuel max (Some s')).1, (reader_run fuel max (Some s')).2).
Proof.
  revert s. induction ms as [|m ms IH]; intros s Hs Hf Hp.
  - exists s. split_and!; [done|done|]. intros fuel. simpl. by destruct (reader_run _ _ _).
  - rewrite fmap_cons in Hp. cbn [concat] in Hp. rewrite <-app_assoc in Hp.
    destruct (read_frame max m (concat (frame <$> ms) ++ rest) s) as (s1 & Hr & Hs1 & Hp1); [done|done|apply Hf; by left|done|].
    destruct (IH s1 Hs1) as (s' & Hs' & Hp' & Hrun); [intros x Hx; apply Hf; by right|done|].
    exists s'. split_and!; [done|done|]. intros fuel. cbn [length Nat.add reader_run wait_for_object].
    rewrite Hr. by rewrite Hrun.
Qed.

(** What one node writes, the other reads.  However the writer batches the messages and however the
    transport cuts the stream into pieces, the reader delivers exactly the messages written, in order, as
    long as they fit the limit.  A stream that ends, within a frame or between two, closes the channel; a
    frame that announces more than the limit is refused as such, and no byte of it is read. *)
Theorem frames_delivered (batches : list (NetworkMessage * list NetworkMessage)) (rest : list byte)
    (max_frame_size : N) (s : Stream) :
  reliable s → (∀ m, m ∈ sent batches → fits max_frame_size m) →
  pending s = (run_write_task batches (λ _, true) 0).1 ++ rest →
  let n := from_be_bytes (take 8 rest) in
  let received := reader_run (S (length (sent batches))) max_frame_size (Some s) in
  (length rest < 8 ∨ ((n ≤ max_frame_size)%N ∧ (n ≤ 2 ^ 63 - 1)%N ∧ length rest < 8 + N.to_nat n) →
     received = (sent batches, Some "channel_closed"%string)) ∧
  (8 ≤ length rest → (max_frame_size < n ∨ 2 ^ 63 - 1 < n)%N →
     received = (sent batches, Some "frame_read_error"%string) ∧
     ∀ s', reliable s' → pending s' = rest → pending (read_network_message max_frame_size s').2 = drop 8 rest).
Proof.
  intros Hs Hf Hp n received. rewrite written_frames in Hp. cbn [fst] in Hp.
  destruct (reader_run_frames _ _ _ _ Hs Hf Hp) as (s' & Hs' & Hp' & Hrun).
  subst received. replace (S (length (sent batches))) with (length (sent batches) + 1) by lia.
  rewrite Hrun. cbn [reader_run wait_for_object].
  destruct (read_rest max_frame_size s' Hs') as (H1 & H2 & H3). rewrite Hp' in *. fold n in H2, H3.
  split.
  - intros Hc. assert ((read_network_message max_frame_size s').1 = inl UnexpectedEof) as He.
    { destruct Hc as [Hc|(Hn1 & Hn2 & Hl)]; [by apply H1|]. destruct (decide (length rest < 8)); [by apply H1|].
      apply H3; [lia|done..]. }
    destruct (read_network_message max_frame_size s') as [r ?]. cbn in He. subst r. cbn. by rewrite app_nil_r.
  - intros Hl Hn. rewrite (H2 Hl Hn). cbn. rewrite app_nil_r. split; [done|].
    intros s2 Hs2 Hp2. destruct (read_rest max_frame_size s2 Hs2) as (_ & H2' & _). rewrite Hp2 in *.
    by rewrite H2'.
Qed.
End frames.

(** Three messages in two batches, handed out two bytes at a time, and then a frame over the limit *)
Definition sample_batches : list (list byte * list (list byte)) := [([x01; x02], [[x03]]); ([], [])].
Definition sample_stream : Stream :=
  mkStream true ((run_write_task (λ m, m) sample_batches (λ _, true) 0).1 ++ to_be_bytes 8 100 ++ [x05])
    (λ _, 2) (λ _, false) (λ _, false) 0.

Lemma frames_delivered_witness :
  reader_run Some 4 10 (Some sample_stream) = ([[x01; x02]; [x03]; []], Some "frame_read_error"%string).
Proof.
  refine (proj1 (proj2 (frames_delivered (λ m, m) Some (λ m, eq_refl) sample_batches (to_be_bytes 8 100 ++ [x05]) 10
    sample_stream _ _ _) _ _)).
  - done.
  - intros m Hm. split; revert m Hm; apply Forall_forall; by apply (bool_decide_unpack _); vm_compute.
  - reflexivity.
  - by vm_compute; lia.
  - left. by vm_compute.
Defined.
