(* ===== verification/Connection.v ===== *)
(** A connection of two nodes: the actor [Session] of either end with its write task and its actor
    [SessionReader] (src/ractor_cluster/src/net/session.rs), over the streams of src/ractor_cluster/src/net.rs.

    Frames.v has what is written and read; here the parts run side by side, at both ends, in any interleaving: the
    actors take their next message, the write task takes a batch, some bytes are accepted by the transport, a write
    fails, the transport is cut.  A handler of the reader waits for the bytes it needs, and is one step when they
    are there, since nobody else reads the stream.  The node session above an end is part of the environment:
    it posts messages, may stop the session, and ends it by ending itself.  Supervision events that the session
    ignores are left out but for their type. *)

From S2P Require Import Prelude Bytes Frames.

(** ** Streams *)

Record SocketAddr := mkAddr { ip : list N; port : N }.

(** The transport of a stream is how its reading half hands out bytes; the writing half has no state. *)
Inductive NetworkStream :=
| Raw (peer_addr local_addr : SocketAddr) (stream : Stream)
| TlsServer (peer_addr local_addr : SocketAddr) (stream : Stream)
| TlsClient (peer_addr local_addr : SocketAddr) (stream : Stream)
| External (peer_label local_label : option string) (reader : Stream).

Definition unspecified : SocketAddr := mkAddr [0; 0; 0; 0]%N 0.

Definition peer_addr (s : NetworkStream) : SocketAddr :=
  match s with
  | Raw peer_addr _ _ | TlsServer peer_addr _ _ | TlsClient peer_addr _ _ => peer_addr
  | External _ _ _ => unspecified
  end.

Definition local_addr (s : NetworkStream) : SocketAddr :=
  match s with
  | Raw _ local_addr _ | TlsServer _ local_addr _ | TlsClient _ local_addr _ => local_addr
  | External _ _ _ => unspecified
  end.

Definition set_regular (b : bool) (s : Stream) : Stream :=
  mkStream b (pending s) (chunk s) (read_fails s) (reserve_fails s) (reads s).

(** The reading half that [Session::pre_start] splits off *)
Definition read_half (s : NetworkStream) : Stream :=
  match s with
  | Raw _ _ t => set_regular true t
  | TlsServer _ _ t | TlsClient _ _ t | External _ _ t => set_regular false t
  end.

(** ** One end *)

Section connection.
Context {NetworkMessage : Type}.
Variable encode : NetworkMessage → list byte.
Variable decode : list byte → option NetworkMessage.
Variable max_inbound_frame_size : N.
Implicit Types (m : NetworkMessage) (ms : list NetworkMessage).

Inductive SessionMessage := Send m | ObjectAvailable m.
Inductive ChildEvent := ActorStarted | ActorFailed | ActorTerminated | ProcessGroupChanged.

(** The actor [Session]: its ports, in the order in which it looks at them *)
Record SessionActor := mkSession {
  s_alive : bool;
  s_stop : option string;
  s_sup : list ChildEvent;
  s_msgs : list SessionMessage
}.

(** The task [run_write_task]: waiting for a message, in [write_all] with bytes left, in [flush], or gone with the
    receiving end of its channel.  [tx_open]: the session still has the sending end. *)
Inductive WriterPhase := Waiting | Writing (buf : list byte) | Flushing | Gone.
Record WriterTask := mkWriter {
  phase : WriterPhase;
  channel : list NetworkMessage;
  tx_open : bool;
  aborted : bool
}.

(** The actor [SessionReader]; its only message is [WaitForObject].  [eof]: no byte follows those pending. *)
Record ReaderActor := mkReader {
  r_alive : bool;
  r_kill : bool;
  r_stop : option string;
  r_msgs : nat;
  r_stream : option Stream;
  eof : bool
}.

(** [posted] is what the node session has cast to the session, [delivered] what it was cast. *)
Record Endpoint := mkEnd {
  session : SessionActor;
  wtask : WriterTask;
  reader : ReaderActor;
  handler_open : bool;
  posted : list NetworkMessage;
  delivered : list NetworkMessage
}.

Definition with_session (s : SessionActor) (e : Endpoint) : Endpoint :=
  mkEnd s (wtask e) (reader e) (handler_open e) (posted e) (delivered e).
Definition with_wtask (t : WriterTask) (e : Endpoint) : Endpoint :=
  mkEnd (session e) t (reader e) (handler_open e) (posted e) (delivered e).
Definition with_reader (r : ReaderActor) (e : Endpoint) : Endpoint :=
  mkEnd (session e) (wtask e) r (handler_open e) (posted e) (delivered e).

(** [Session::pre_start]: the stream is split, the write task is spawned, and the reader, which asks itself for
    the first object *)
Definition tcp_pre_start (stream : NetworkStream) : Endpoint :=
  mkEnd (mkSession true None [] []) (mkWriter Waiting [] true false)
    (mkReader true false None 1 (Some (read_half stream)) false) true [] [].

(** Casts and stops to a session that has ended fail, which their callers ignore. *)
Definition session_cast (msg : SessionMessage) (e : Endpoint) : Endpoint :=
  let s := session e in
  if s_alive s then with_session (mkSession true (s_stop s) (s_sup s) (s_msgs s ++ [msg])) e else e.
Definition session_stop (reason : string) (e : Endpoint) : Endpoint :=
  let s := session e in
  if s_alive s then with_session (mkSession true (Some (default reason (s_stop s))) (s_sup s) (s_msgs s)) e else e.
Definition session_event (evt : ChildEvent) (e : Endpoint) : Endpoint :=
  let s := session e in
  if s_alive s then with_session (mkSession true (s_stop s) (s_sup s ++ [evt]) (s_msgs s)) e else e.

(** [Session::handle] *)
Definition tcp_handle (msg : SessionMessage) (e : Endpoint) : Endpoint :=
  match msg with
  | Send m =>
      let t := wtask e in
      match phase t with
      | Gone => e
      | p => with_wtask (mkWriter p (channel t ++ [m]) (tx_open t) (aborted t)) e
      end
  | ObjectAvailable m =>
      if handler_open e then mkEnd (session e) (wtask e) (reader e) true (posted e) (delivered e ++ [m]) else e
  end.

(** [Session::handle_supervisor_evt]; which child it was only changes what is logged. *)
Definition tcp_handle_supervisor_evt (evt : ChildEvent) (e : Endpoint) : Endpoint :=
  match evt with
  | ActorFailed => session_stop "child_panic" e
  | ActorTerminated => session_stop "child_terminate" e
  | ActorStarted | ProcessGroupChanged => e
  end.

(** [Session::post_stop] *)
Definition tcp_post_stop (e : Endpoint) : Endpoint :=
  let t := wtask e in with_wtask (mkWriter (phase t) (channel t) (tx_open t) true) e.

(** The session has ended: its ports and its state are gone, with the sender of the channel, and its child is killed. *)
Definition session_end (e : Endpoint) : Endpoint :=
  let t := wtask e in let r := reader e in
  mkEnd (mkSession false None [] []) (mkWriter (phase t) (channel t) false (aborted t))
    (mkReader (r_alive r) true (r_stop r) (r_msgs r) (r_stream r) (eof r)) (handler_open e) (posted e) (delivered e).

(** One round of the session: stopping goes before supervision, and supervision before messages. *)
Definition session_runs (e : Endpoint) : Endpoint :=
  let s := session e in
  if s_alive s then
    match s_stop s, s_sup s, s_msgs s with
    | Some _, _, _ => session_end (tcp_post_stop e)
    | None, evt :: sup, _ => tcp_handle_supervisor_evt evt (with_session (mkSession true None sup (s_msgs s)) e)
    | None, [], msg :: msgs => tcp_handle msg (with_session (mkSession true None [] msgs) e)
    | None, [], [] => e
    end
  else e.

(** *** The write task *)

Definition gone (t : WriterTask) : WriterTask := mkWriter Gone [] (tx_open t) (aborted t).

(** [rx.recv] and the [try_recv]s behind it: all that is in the channel is one batch; the task ends when the sender
    is gone. *)
Definition writer_takes (t : WriterTask) : WriterTask :=
  match phase t, channel t with
  | Waiting, first_msg :: more =>
      let buf := encode_network_message encode first_msg [] in
      mkWriter (Writing (foldl (λ buf m, encode_network_message encode m buf) buf more)) [] (tx_open t) (aborted t)
  | Waiting, [] => if tx_open t then t else gone t
  | _, _ => t
  end.

(** [write_all]: the transport accepts at least a byte *)
Definition writer_writes (n : nat) (t : WriterTask) : WriterTask * list byte :=
  match phase t with
  | Writing buf =>
      let got := max 1 n in
      let rest := drop got buf in
      (mkWriter (if bool_decide (rest = []) then Flushing else Writing rest) (channel t) (tx_open t) (aborted t), take got buf)
  | _ => (t, [])
  end.

Definition writer_flushes (t : WriterTask) : WriterTask :=
  match phase t with Flushing => mkWriter Waiting (channel t) (tx_open t) (aborted t) | _ => t end.

(** [write_all] or [flush] fails *)
Definition writer_fails (e : Endpoint) : Endpoint :=
  match phase (wtask e) with
  | Writing _ | Flushing => session_stop "channel_closed" (with_wtask (gone (wtask e)) e)
  | _ => e
  end.

(** *** The reader *)

(** The handler needs bytes that have not come *)
Definition blocked (r : ReaderActor) : bool :=
  match r_stream r with
  | Some s =>
      negb (eof r) &&
      match (read_network_message decode max_inbound_frame_size s).1 with inl UnexpectedEof => true | _ => false end
  | None => false
  end.

(** [SessionReader::handle], of the first of [S n] messages *)
Definition reader_handle (n : nat) (e : Endpoint) : Endpoint :=
  let r := reader e in
  let '(result, stream) := wait_for_object decode max_inbound_frame_size (r_stream r) in
  match result with
  | inr m => session_cast (ObjectAvailable m) (with_reader (mkReader true (r_kill r) (r_stop r) (S n) stream (eof r)) e)
  | inl reason => with_reader (mkReader true (r_kill r) (Some reason) n stream (eof r)) e
  end.

(** The reader ends, with [SessionReader::post_stop] or killed: the stream is dropped, the session is told. *)
Definition reader_ends (e : Endpoint) : Endpoint :=
  let r := reader e in
  session_event ActorTerminated (with_reader (mkReader false (r_kill r) (r_stop r) 0 None (eof r)) e).

Definition reader_runs (e : Endpoint) : Endpoint :=
  let r := reader e in
  if r_alive r then
    if r_kill r then reader_ends e
    else
      match r_stop r, r_msgs r with
      | Some _, _ => reader_ends e
      | None, 0 => e
      | None, S n => if blocked r then e else reader_handle n e
      end
  else e.

(** *** Steps *)

Inductive Event :=
| Post m
| StopSession (reason : string)
| KillSession
| HandlerEnds
| SessionRuns
| WriterTakes
| WriterWrites (n : nat)
| WriterFlushes
| WriterFails
| WriterCancelled
| ReaderRuns
| Cut (k : nat).

Definition post m (e : Endpoint) : Endpoint :=
  if s_alive (session e) then
    let e := session_cast (Send m) e in mkEnd (session e) (wtask e) (reader e) (handler_open e) (posted e ++ [m]) (delivered e)
  else e.

(** The peer is closed or the network fails: some of the bytes on their way are lost, and nothing comes after them. *)
Definition cut (k : nat) (r : ReaderActor) : ReaderActor :=
  mkReader (r_alive r) (r_kill r) (r_stop r) (r_msgs r) ((λ s, mkStream (regular s) (take k (pending s)) (chunk s) (read_fails s) (reserve_fails s) (reads s)) <$> r_stream r) true.

(** What an end does, and the bytes that leave it *)
Definition step (ev : Event) (e : Endpoint) : Endpoint * list byte :=
  match ev with
  | Post m => (post m e, [])
  | StopSession reason => (session_stop reason e, [])
  | KillSession => (if s_alive (session e) then session_end e else e, [])
  | HandlerEnds => (mkEnd (session e) (wtask e) (reader e) false (posted e) (delivered e), [])
  | SessionRuns => (session_runs e, [])
  | WriterTakes => (with_wtask (writer_takes (wtask e)) e, [])
  | WriterWrites n => let '(t, bytes) := writer_writes n (wtask e) in (with_wtask t e, bytes)
  | WriterFlushes => (with_wtask (writer_flushes (wtask e)) e, [])
  | WriterFails => (writer_fails e, [])
  | WriterCancelled => (if aborted (wtask e) then with_wtask (gone (wtask e)) e else e, [])
  | ReaderRuns => (reader_runs e, [])
  | Cut k => (with_reader (cut k (reader e)) e, [])
  end.

(** Bytes arrive, unless nobody reads them *)
Definition receive (bytes : list byte) (e : Endpoint) : Endpoint :=
  let r := reader e in
  if eof r then e
  else with_reader (mkReader (r_alive r) (r_kill r) (r_stop r) (r_msgs r)
         ((λ s, mkStream (regular s) (pending s ++ bytes) (chunk s) (read_fails s) (reserve_fails s) (reads s)) <$> r_stream r) (eof r)) e.

(** The two ends, [true] and [false]; an event happens at one of them. *)
Definition World := bool → Endpoint.

Definition world_step (ev : bool * Event) (w : World) : World :=
  let '(x, ev) := ev in
  let '(e, bytes) := step ev (w x) in
  λ y, if Bool.eqb y x then e else receive bytes (w y).

Definition run (evs : list (bool * Event)) (w : World) : World := foldl (λ w ev, world_step ev w) w evs.

Definition connect (here there : NetworkStream) : World := λ x, tcp_pre_start (if x then here else there).

(** ** What is read *)

Lemma read_loop_ok fuel len buf s bs s' :
  length buf ≤ len → read_loop fuel len buf s = (inr bs, s') →
  pending s = drop (length buf) bs ++ pending s' ∧ bs = buf ++ drop (length buf) bs ∧ length bs = len.
Proof.
  revert buf s. induction fuel as [|fuel IH]; intros buf s Hl; cbn [read_loop].
  - destruct (Nat.ltb_spec (length buf) len); [done|]. intros [= <- <-]. by rewrite drop_all, app_nil_r; split_and!; [|..|lia].
  - destruct (Nat.ltb_spec (length buf) len) as [Hlt|]; [|intros [= <- <-]; by rewrite drop_all, app_nil_r; split_and!; [|..|lia]].
    unfold read. destruct (read_fails s (reads s)); [done|]. set (got := min _ _). case_bool_decide; [done|].
    destruct (reserve_fails _ _); [done|]. intros E. set (bytes := take got (pending s)) in *.
    assert (length bytes ≤ len - length buf) by (unfold bytes, got; rewrite length_take; lia).
    apply IH in E as (E1 & E2 & E3); [|rewrite length_app; lia]. rewrite length_app in *. cbn [advance pending] in E1.
    assert (bs = buf ++ bytes ++ drop (length buf + length bytes) bs) as Hbs by (by rewrite E2 at 1; rewrite <-app_assoc).
    split_and!; [| |done].
    + rewrite Hbs at 1. rewrite drop_app_length, <-app_assoc, <-E1. by unfold bytes; rewrite take_drop.
    + rewrite Hbs at 1. rewrite Hbs at 2. by rewrite drop_app_length.
Qed.

Lemma read_n_bytes_ok s len bs s' : read_n_bytes s len = (inr bs, s') → pending s = bs ++ pending s' ∧ length bs = len.
Proof.
  assert (∀ s0, pending s0 = pending s → read_loop len len [] s0 = (inr bs, s') → pending s = bs ++ pending s' ∧ length bs = len) as H.
  { intros s0 <- E. apply read_loop_ok in E as (E1 & _ & E3); [|simpl; lia]. done. }
  unfold read_n_bytes. destruct (regular s); [|by apply H]. destruct (read_fails _ _); [done|]. by apply H.
Qed.

(** The generated protobuf code decodes what it encodes, and a [Vec] is never longer than [isize::MAX]. *)
Definition sendable m : Prop := decode (encode m) = Some m ∧ (N.of_nat (length (encode m)) < 2 ^ 63)%N.

Abbreviation frame := (frame encode).
Abbreviation frames ms := (concat (frame <$> ms)).

(** A message that is read from a part of a sequence of frames is the first of them. *)
Lemma read_exact s m' s' ms :
  (∀ m, m ∈ ms → sendable m) → pending s `prefix_of` frames ms → read_network_message decode max_inbound_frame_size s = (inr m', s') →
  ∃ ms', ms = m' :: ms' ∧ pending s = frame m' ++ pending s'.
Proof.
  intros Hok [k Hk]. unfold read_network_message, read_u64. destruct (read_fails s (reads s)); [done|].
  destruct (Nat.ltb_spec (length (pending s)) 8) as [|Hl]; [done|].
  destruct ms as [|m ms]; [apply (f_equal length) in Hk; rewrite length_app in Hk; simpl in Hk; lia|].
  destruct (Hok m) as [Hde Hlen]; [by left|]. rewrite fmap_cons in Hk. cbn [concat] in Hk. unfold Frames.frame in Hk at 1.
  rewrite <-(take_drop 8 (pending s)), <-!app_assoc in Hk.
  apply app_inj_1 in Hk as [Hh Hk]; [|rewrite length_take, length_to_be_bytes; lia].
  rewrite <-Hh, from_to_be_bytes_small by (simpl; lia).
  unfold checked_frame_length. destruct (_ <? _)%N; [done|]. destruct (_ <? _)%N; [done|]. rewrite Nat2N.id.
  destruct (read_n_bytes _ _) as [[|bs] s2] eqn:E; [done|]. apply read_n_bytes_ok in E as [E El]. cbn [advance pending] in E.
  rewrite E, <-app_assoc in Hk. apply app_inj_1 in Hk as [<- _]; [|done]. rewrite Hde. intros [= <- <-].
  exists ms. split; [done|]. rewrite <-(take_drop 8 (pending s)), E, app_assoc. by rewrite <-Hh.
Qed.

(** ** One direction *)

Definition objects (l : list SessionMessage) : list NetworkMessage :=
  omap (λ x, match x with ObjectAvailable m => Some m | Send _ => None end) l.
Definition sends (l : list SessionMessage) : list NetworkMessage :=
  omap (λ x, match x with Send m => Some m | ObjectAvailable _ => None end) l.
Definition writing (t : WriterTask) : list byte := match phase t with Writing buf => buf | _ => [] end.

(** From the sender [a] to the receiver [b]: of what was posted, [got] has been read and [rest] has not.  While nothing
    is broken, [rest] is on the stream and with the writer ([sending]), in the channel, and in the mailbox. *)
Record flow (a b : Endpoint) (got rest : list NetworkMessage) : Prop := {
  fl_posted : posted a = got ++ rest;
  fl_delivered : delivered b `prefix_of` got;
  fl_mailbox : s_alive (session b) = true → handler_open b = true → got = delivered b ++ objects (s_msgs (session b));
  fl_pending s : r_stream (reader b) = Some s → pending s `prefix_of` frames rest;
  fl_intact s : r_stream (reader b) = Some s → eof (reader b) = false → phase (wtask a) ≠ Gone →
    ∃ sending tail, rest = sending ++ channel (wtask a) ++ tail ∧ pending s ++ writing (wtask a) = frames sending ∧
      (s_alive (session a) = true → tail = sends (s_msgs (session a)))
}.

(** The sender changes, but nothing of what is posted, in the channel or with the writer *)
Lemma flow_sender a a' b got rest :
  flow a b got rest → posted a' = posted a →
  (phase (wtask a') ≠ Gone → phase (wtask a) ≠ Gone ∧ channel (wtask a') = channel (wtask a) ∧ writing (wtask a') = writing (wtask a)) →
  (s_alive (session a') = true → s_alive (session a) = true ∧ sends (s_msgs (session a')) = sends (s_msgs (session a))) →
  flow a' b got rest.
Proof.
  intros [F1 F2 F3 F4 F5] Hp Hw Hs. split; [congruence|done..|]. intros s H1 H2 H3. destruct (Hw H3) as (H4 & -> & ->).
  destruct (F5 s H1 H2 H4) as (sending & tail & E1 & E2 & E3). exists sending, tail. split_and!; [done|done|].
  intros Ha. destruct (Hs Ha) as [Ha' ->]. auto.
Qed.

(** The receiver changes, but the stream at most ends, and nothing but messages of the mailbox is delivered *)
Lemma flow_receiver a b b' got rest :
  flow a b got rest → delivered b' `prefix_of` got →
  (s_alive (session b') = true → handler_open b' = true → got = delivered b' ++ objects (s_msgs (session b'))) →
  (r_stream (reader b') = r_stream (reader b) ∧ eof (reader b') = eof (reader b) ∨ r_stream (reader b') = None) → flow a b' got rest.
Proof.
  intros [F1 F2 F3 F4 F5] Hd Hm Hs. split; [done..| |]; intros s H1; destruct Hs as [[H2 H3]|H2]; try congruence.
  - apply F4. congruence.
  - intros H4. apply F5; congruence.
Qed.

Lemma receive_nil (e : Endpoint) : receive [] e = e.
Proof.
  unfold receive. destruct e as [se wt [al ki st ms [[rg pe ch rf rs rd]|] ef] ho po de], ef; cbn; try done. by rewrite app_nil_r.
Qed.

Lemma objects_app l k : objects (l ++ k) = objects l ++ objects k.
Proof. apply omap_app. Qed.
Lemma sends_app l k : sends (l ++ k) = sends l ++ sends k.
Proof. apply omap_app. Qed.

(** Stops and supervision events leave the mailbox alone, and casts only add to it. *)
Lemma session_stop_frame reason (e : Endpoint) :
  let e' := session_stop reason e in
  wtask e' = wtask e ∧ reader e' = reader e ∧ handler_open e' = handler_open e ∧ posted e' = posted e ∧ delivered e' = delivered e ∧
  s_alive (session e') = s_alive (session e) ∧ s_msgs (session e') = s_msgs (session e).
Proof. unfold session_stop. destruct (s_alive (session e)) eqn:E; cbn; by rewrite ?E. Qed.
Lemma session_event_frame evt (e : Endpoint) :
  let e' := session_event evt e in
  wtask e' = wtask e ∧ reader e' = reader e ∧ handler_open e' = handler_open e ∧ posted e' = posted e ∧ delivered e' = delivered e ∧
  s_alive (session e') = s_alive (session e) ∧ s_msgs (session e') = s_msgs (session e).
Proof. unfold session_event. destruct (s_alive (session e)) eqn:E; cbn; by rewrite ?E. Qed.
Lemma session_cast_frame msg (e : Endpoint) :
  let e' := session_cast msg e in
  wtask e' = wtask e ∧ reader e' = reader e ∧ handler_open e' = handler_open e ∧ posted e' = posted e ∧ delivered e' = delivered e ∧
  s_alive (session e') = s_alive (session e) ∧ (s_alive (session e) = true → s_msgs (session e') = s_msgs (session e) ++ [msg]).
Proof. unfold session_cast. destruct (s_alive (session e)) eqn:E; cbn; by rewrite ?E. Qed.

(** *** The sender *)

Lemma flow_post m a b got rest : flow a b got rest → ∃ rest', flow (post m a) b got rest'.
Proof.
  intros F. unfold post. destruct (s_alive (session a)) eqn:Ea; [|by exists rest].
  destruct (session_cast_frame (Send m) a) as (H1 & H2 & H3 & H4 & H5 & H6 & H7). specialize (H7 Ea).
  exists (rest ++ [m]). destruct F as [F1 F2 F3 F4 F5]. split; cbn.
  - by rewrite H4, F1, app_assoc.
  - done.
  - done.
  - intros s Hs. rewrite fmap_app, concat_app. by apply prefix_app_r, F4.
  - intros s Hs He Hg. rewrite H1 in *. destruct (F5 s Hs He Hg) as (sending & tail & E1 & E2 & E3). exists sending, (tail ++ [m]).
    split_and!; [by rewrite E1, <-!app_assoc|done|]. intros _. by rewrite H7, sends_app, E3.
Qed.

Lemma flow_send m msgs a b got rest :
  flow a b got rest → s_alive (session a) = true → s_msgs (session a) = Send m :: msgs →
  flow (tcp_handle (Send m) (with_session (mkSession true None [] msgs) a)) b got rest.
Proof.
  intros [F1 F2 F3 F4 F5] Ha Hm. assert (phase (wtask a) = Gone ∨ phase (wtask a) ≠ Gone) as [Hg|Hg] by (destruct (phase (wtask a)); auto).
  - cbn. rewrite Hg. by split.
  - assert (tcp_handle (Send m) (with_session (mkSession true None [] msgs) a) =
      with_wtask (mkWriter (phase (wtask a)) (channel (wtask a) ++ [m]) (tx_open (wtask a)) (aborted (wtask a))) (with_session (mkSession true None [] msgs) a)) as ->
      by (cbn; by destruct (phase (wtask a))).
    split; try done. cbn. intros s Hs He _. destruct (F5 s Hs He Hg) as (sending & tail & E1 & E2 & E3). exists sending, (sends msgs).
    split_and!; [|done|done]. rewrite E1, E3 by done. rewrite Hm. cbn. by rewrite <-!app_assoc.
Qed.

Lemma flow_takes a b got rest : flow a b got rest → flow (with_wtask (writer_takes (wtask a)) a) b got rest.
Proof.
  intros F. unfold writer_takes. destruct (phase (wtask a)) eqn:Ep, (channel (wtask a)) as [|first more] eqn:Ec;
    try (apply (flow_sender a); [done|done| |done]; cbn; rewrite ?Ep, ?Ec; by destruct (tx_open (wtask a))).
  destruct F as [F1 F2 F3 F4 F5]. split; try done. cbn. intros s Hs He _.
  destruct (F5 s Hs He) as (sending & tail & E1 & E2 & E3); [by rewrite Ep|]. exists (sending ++ first :: more), tail.
  rewrite Ec in E1. split_and!; [by rewrite E1, <-app_assoc| |done]. rewrite fmap_app, concat_app, <-E2. unfold writing. rewrite Ep.
  cbn. rewrite batch_frames, app_nil_r. by f_equal.
Qed.

Lemma flow_writes n a b got rest t bytes :
  flow a b got rest → writer_writes n (wtask a) = (t, bytes) → flow (with_wtask t a) (receive bytes b) got rest.
Proof.
  intros F. unfold writer_writes. destruct (phase (wtask a)) as [|buf| |] eqn:Ep;
    try (intros [= <- <-]; rewrite receive_nil; by apply (flow_sender a)).
  set (g := max 1 n). intros [= <- <-]. destruct (eof (reader b)) eqn:Ee.
  { unfold receive. rewrite Ee. destruct F. split; try done. congruence. }
  destruct F as [F1 F2 F3 F4 F5]. unfold receive. rewrite Ee.
  assert (∀ s, r_stream (reader b) = Some s → ∃ sending tail, rest = sending ++ channel (wtask a) ++ tail ∧
    pending s ++ take g buf ++ drop g buf = frames sending ∧ (s_alive (session a) = true → tail = sends (s_msgs (session a)))) as H.
  { intros s Hs. destruct (F5 s Hs Ee) as (sending & tail & E1 & E2 & E3); [by rewrite Ep|]. exists sending, tail.
    unfold writing in E2. rewrite Ep in E2. by rewrite take_drop. }
  split; cbn; try done; intros s; rewrite fmap_Some; intros (s0 & Hs0 & ->); cbn; destruct (H s0 Hs0) as (sending & tail & E1 & E2 & E3).
  - rewrite E1, fmap_app, concat_app, <-E2. exists (drop g buf ++ frames (channel (wtask a) ++ tail)). by rewrite <-!app_assoc.
  - intros _ _. exists sending, tail. split_and!; [done| |done]. rewrite <-E2, <-app_assoc. do 2 f_equal. unfold writing. cbn.
    by case_bool_decide as Hd; rewrite ?Hd.
Qed.

(** What the sender does to its session besides *)
Lemma flow_session_stop reason a b got rest : flow a b got rest → flow (session_stop reason a) b got rest.
Proof.
  intros F. destruct (session_stop_frame reason a) as (H1 & _ & _ & H4 & _ & H6 & H7). apply (flow_sender a); [done|done|by rewrite H1|by rewrite H6, H7].
Qed.

Lemma flow_session_runs a b got rest : flow a b got rest → flow (session_runs a) b got rest.
Proof.
  intros F. unfold session_runs. destruct (s_alive (session a)) eqn:Ea; [|done].
  destruct (s_stop (session a)); [by apply (flow_sender a)|]. destruct (s_sup (session a)) as [|evt sup].
  - destruct (s_msgs (session a)) as [|[m|m] msgs] eqn:Em; [done|by apply flow_send|]. cbn.
    apply (flow_sender a); [done| | |]; destruct (handler_open a); cbn; try done; by rewrite Ea, Em.
  - assert (flow (with_session (mkSession true None sup (s_msgs (session a))) a) b got rest) by (by apply (flow_sender a)).
    destruct evt; cbn [tcp_handle_supervisor_evt]; try done; by apply flow_session_stop.
Qed.

Lemma flow_reader_runs a b got rest : flow a b got rest → flow (reader_runs a) b got rest.
Proof.
  intros F. assert (flow (reader_ends a) b got rest) as He.
  { unfold reader_ends. set (a1 := with_reader _ _). destruct (session_event_frame ActorTerminated a1) as (H1 & _ & _ & H4 & _ & H6 & H7).
    apply (flow_sender a); [done|done|by rewrite H1|by rewrite H6, H7]. }
  unfold reader_runs. destruct (r_alive (reader a)); [|done]. destruct (r_kill (reader a)); [done|]. destruct (r_stop (reader a)); [done|].
  destruct (r_msgs (reader a)) as [|n]; [done|]. destruct (blocked (reader a)); [done|]. unfold reader_handle.
  destruct (wait_for_object _ _ _) as [[reason|m] stream]; [by apply (flow_sender a)|]. set (a1 := with_reader _ _).
  destruct (session_cast_frame (ObjectAvailable m) a1) as (H1 & _ & _ & H4 & _ & H6 & H7). apply (flow_sender a); [done|done|by rewrite H1|].
  rewrite H6. intros Ha. rewrite H7 by done. cbn. rewrite sends_app. cbn. by rewrite app_nil_r.
Qed.

Lemma flow_sends ev a a' b bytes got rest : flow a b got rest → step ev a = (a', bytes) → ∃ rest', flow a' (receive bytes b) got rest'.
Proof.
  intros F. destruct ev; cbn [step].
  1: { intros [= <- <-]. rewrite receive_nil. by eapply flow_post. }
  6: { destruct (writer_writes n (wtask a)) as [t bs] eqn:E. intros [= <- <-]. exists rest. by apply (flow_writes n). }
  all: intros [= <- <-]; rewrite receive_nil; exists rest.
  - by apply flow_session_stop.
  - destruct (s_alive (session a)); [|done]. by apply (flow_sender a).
  - by apply (flow_sender a).
  - by apply flow_session_runs.
  - by apply flow_takes.
  - apply (flow_sender a); [done|done| |done]. cbn. unfold writer_flushes, writing. destruct (phase (wtask a)) eqn:Ep; by rewrite ?Ep.
  - assert (flow (with_wtask (gone (wtask a)) a) b got rest) by (by apply (flow_sender a)).
    unfold writer_fails. destruct (phase (wtask a)); try done; by apply flow_session_stop.
  - destruct (aborted (wtask a)); [|done]. by apply (flow_sender a).
  - by apply flow_reader_runs.
  - by apply (flow_sender a).
Qed.

(** *** The receiver *)

(** The mailbox and what is delivered do not change, the stream at most ends *)
Lemma flow_receiver_same a b b' got rest :
  flow a b got rest → delivered b' = delivered b →
  (s_alive (session b') = true → handler_open b' = true →
     s_alive (session b) = true ∧ handler_open b = true ∧ objects (s_msgs (session b')) = objects (s_msgs (session b))) →
  (r_stream (reader b') = r_stream (reader b) ∧ eof (reader b') = eof (reader b) ∨ r_stream (reader b') = None) → flow a b' got rest.
Proof.
  intros F Hd Hm Hs. apply (flow_receiver a b); [done|rewrite Hd; apply F| |done]. intros H1 H2. destruct (Hm H1 H2) as (H3 & H4 & ->).
  rewrite Hd. by apply F.
Qed.

Lemma flow_object m msgs a b got rest :
  flow a b got rest → s_alive (session b) = true → s_msgs (session b) = ObjectAvailable m :: msgs →
  flow a (tcp_handle (ObjectAvailable m) (with_session (mkSession true None [] msgs) b)) got rest.
Proof.
  intros F Ha Hm. cbn. destruct (handler_open b) eqn:Eh.
  - pose proof (fl_mailbox _ _ _ _ F Ha Eh) as Hg. rewrite Hm in Hg. cbn in Hg. apply (flow_receiver a b); [done| | |by left]; cbn.
    + rewrite Hg. exists (objects msgs). by rewrite <-app_assoc.
    + intros _ _. rewrite Hg. by rewrite <-app_assoc.
  - apply (flow_receiver_same a b); [done|done| |by left]. cbn. by rewrite Eh.
Qed.

Lemma flow_reads n a b got rest :
  (∀ m, m ∈ posted a → sendable m) → flow a b got rest → ∃ got' rest', flow a (reader_handle n b) got' rest'.
Proof.
  intros Hok F. unfold reader_handle. destruct (wait_for_object _ _ _) as [[reason|m] stream] eqn:E.
  { exists got, rest. apply (flow_receiver_same a b); [done..|]. right. cbn. unfold wait_for_object in E.
    destruct (r_stream (reader b)) as [s|]; [|by injection E]. destruct (read_network_message _ _ s) as [[[]|] ?]; by injection E. }
  unfold wait_for_object in E. destruct (r_stream (reader b)) as [s|] eqn:Es; [|done].
  destruct (read_network_message _ _ s) as [[err|m'] s'] eqn:Er; [by destruct err|]. injection E as <- <-.
  pose proof F as [F1 F2 F3 F4 F5]. destruct (read_exact s m' s' rest) as (rest' & -> & Hp); [intros m0 Hm0; apply Hok; rewrite F1; apply elem_of_app; by right|by apply F4|done|].
  exists (got ++ [m']), rest'. set (b1 := with_reader _ _).
  destruct (session_cast_frame (ObjectAvailable m') b1) as (H1 & H2 & H3 & H4 & H5 & H6 & H7). split.
  - by rewrite F1, <-app_assoc.
  - rewrite H5. cbn. by apply prefix_app_r.
  - rewrite H6, H3, H5. intros Ha Ho. rewrite H7 by done. rewrite objects_app. cbn in *. rewrite (F3 Ha Ho). by rewrite <-app_assoc.
  - rewrite H2. cbn. intros s0 [= <-]. specialize (F4 s Es). rewrite Hp, fmap_cons in F4. cbn [concat] in F4. by apply prefix_app_inv in F4.
  - rewrite H2. cbn. intros s0 [= <-] He Hg. destruct (F5 s Es He Hg) as (sending & tail & E1 & E2 & E3).
    rewrite Hp, <-app_assoc in E2. destruct sending as [|m sending].
    { apply (f_equal length) in E2. rewrite !length_app in E2. unfold Frames.frame in E2. rewrite length_app, length_to_be_bytes in E2. simpl in E2. lia. }
    injection E1 as <- E1. rewrite fmap_cons in E2. cbn [concat] in E2. apply app_inv_head in E2. by exists sending, tail.
Qed.

Lemma flow_stopped reason a b got rest : flow a b got rest → flow a (session_stop reason b) got rest.
Proof.
  intros F. destruct (session_stop_frame reason b) as (H1 & H2 & H3 & H4 & H5 & H6 & H7).
  apply (flow_receiver_same a b); [done|done|by rewrite H6, H3, H7|left; by rewrite H2].
Qed.

Lemma flow_session_ran a b got rest : flow a b got rest → flow a (session_runs b) got rest.
Proof.
  intros F. unfold session_runs. destruct (s_alive (session b)) eqn:Eb; [|done].
  destruct (s_stop (session b)); [apply (flow_receiver_same a b); [done|done|done|by left]|]. destruct (s_sup (session b)) as [|evt sup].
  - destruct (s_msgs (session b)) as [|[m|m] msgs] eqn:Em; [done| |by apply flow_object].
    apply (flow_receiver_same a b); [done|cbn; by destruct (phase (wtask b))| |left; cbn; by destruct (phase (wtask b))].
    cbn. destruct (phase (wtask b)); cbn; by rewrite Eb, Em.
  - assert (flow a (with_session (mkSession true None sup (s_msgs (session b))) b) got rest)
      by (apply (flow_receiver_same a b); [done|done|done|by left]).
    destruct evt; cbn [tcp_handle_supervisor_evt]; try done; by apply flow_stopped.
Qed.

Lemma flow_reader_ran a b got rest :
  (∀ m, m ∈ posted a → sendable m) → flow a b got rest → ∃ got' rest', flow a (reader_runs b) got' rest'.
Proof.
  intros Hok F. assert (flow a (reader_ends b) got rest) as He.
  { unfold reader_ends. set (b1 := with_reader _ _). destruct (session_event_frame ActorTerminated b1) as (H1 & H2 & H3 & H4 & H5 & H6 & H7).
    apply (flow_receiver_same a b); [done|done|by rewrite H6, H3, H7|right; by rewrite H2]. }
  unfold reader_runs. destruct (r_alive (reader b)); [|by eauto]. destruct (r_kill (reader b)); [by eauto|]. destruct (r_stop (reader b)); [by eauto|].
  destruct (r_msgs (reader b)) as [|n]; [by eauto|]. destruct (blocked (reader b)) eqn:Eb; [by eauto|]. by eapply flow_reads.
Qed.

Lemma flow_cut k a b got rest : flow a b got rest → flow a (with_reader (cut k (reader b)) b) got rest.
Proof.
  intros [F1 F2 F3 F4 F5]. split; try done. cbn. intros s. rewrite fmap_Some. intros (s0 & Hs & ->). cbn.
  etrans; [|by apply F4]. apply prefix_take.
Qed.

Lemma flow_receives ev a b b' bytes got rest :
  (∀ m, m ∈ posted a → sendable m) → flow a b got rest → step ev b = (b', bytes) → ∃ got' rest', flow a b' got' rest'.
Proof.
  intros Hok F. destruct ev; cbn [step].
  10: { intros [= <- <-]. exists got, rest. destruct (aborted (wtask b)); [apply (flow_receiver_same a b); [done|done|done|by left]|done]. }
  7: { destruct (writer_writes n (wtask b)) as [t bs]. intros [= <- <-]. exists got, rest. apply (flow_receiver_same a b); [done|done|done|by left]. }
  all: intros [= <- <-].
  - exists got, rest. unfold post. destruct (s_alive (session b)) eqn:Eb; [|done].
    destruct (session_cast_frame (Send m) b) as (H1 & H2 & H3 & H4 & H5 & H6 & H7).
    apply (flow_receiver_same a b); cbn; [done|done| |left; by rewrite H2]. rewrite H6, H3, H7, objects_app by done. cbn. by rewrite app_nil_r.
  - exists got, rest. by apply flow_stopped.
  - exists got, rest. destruct (s_alive (session b)); [|done]. apply (flow_receiver_same a b); [done|done|done|by left].
  - exists got, rest. apply (flow_receiver_same a b); [done|done|done|by left].
  - exists got, rest. by apply flow_session_ran.
  - exists got, rest. apply (flow_receiver_same a b); [done|done|done|by left].
  - exists got, rest. apply (flow_receiver_same a b); [done|done|done|by left].
  - exists got, rest. assert (flow a (with_wtask (gone (wtask b)) b) got rest) by (apply (flow_receiver_same a b); [done|done|done|by left]).
    unfold writer_fails. destruct (phase (wtask b)); try done; by apply flow_stopped.
  - by eapply flow_reader_ran.
  - exists got, rest. by apply flow_cut.
Qed.

(** *** Both *)

(** What was posted stays posted. *)
Lemma post_step ev (e : Endpoint) : posted e `prefix_of` posted (step ev e).1.
Proof.
  destruct e as [[al st su ms] [ph ch tx ab] [ra rk rs rm rst ef] ho po de]. destruct ev; cbn [step fst]; try done.
  - unfold post. destruct al; cbn; [by apply prefix_app_r|done].
  - unfold session_stop. by destruct al.
  - by destruct al.
  - unfold session_runs. destruct al, st, su as [|[] su], ms as [|[m|m] ms]; cbn; try done; [by destruct ph|by destruct ho].
  - unfold writer_writes. by destruct ph.
  - unfold writer_fails, session_stop. by destruct ph, al.
  - by destruct ab.
  - unfold reader_runs, reader_ends, session_event. cbn. destruct ra, rk, rs, rm; cbn; try (by destruct al). destruct (blocked _); [done|].
    unfold reader_handle, session_cast. cbn. destruct (wait_for_object _ _ _) as [[reason|m] stream]; cbn; by destruct al.
Qed.

Lemma receive_posted bytes (e : Endpoint) : posted (receive bytes e) = posted e ∧ session (receive bytes e) = session e ∧ delivered (receive bytes e) = delivered e.
Proof. unfold receive. by destruct (eof (reader e)). Qed.

Definition flows (w : World) : Prop := ∀ x, (∀ m, m ∈ posted (w x) → sendable m) → ∃ got rest, flow (w x) (w (negb x)) got rest.

Lemma flows_step ev w : flows w → flows (world_step ev w).
Proof.
  intros Hw y. destruct ev as [x ev]. unfold world_step. pose proof (post_step ev (w x)) as Hpost. destruct (step ev (w x)) as [e bytes] eqn:E. cbn in Hpost.
  destruct (decide (y = x)) as [->|Hne].
  - rewrite Bool.eqb_reflx. destruct (Bool.eqb (negb x) x) eqn:Ex; [by destruct x|]. intros Hok.
    destruct (Hw x) as (got & rest & F); [intros m Hm; apply Hok; by eapply elem_of_prefix|].
    destruct (flow_sends ev _ _ _ _ _ _ F E) as [rest' F']. by eauto.
  - assert (negb y = x) as <- by (by destruct x, y). destruct (Bool.eqb y (negb y)) eqn:Ex; [by destruct y|]. rewrite Bool.eqb_reflx.
    rewrite (proj1 (receive_posted bytes (w y))). intros Hok. destruct (Hw y Hok) as (got & rest & F).
    destruct (flow_receives ev _ _ _ _ _ _ Hok F E) as (got' & rest' & F'). exists got', rest'. unfold receive.
    destruct (eof (reader (w y))); [done|]. by apply (flow_sender (w y)).
Qed.

Lemma flows_run evs w : flows w → flows (run evs w).
Proof. revert w. induction evs as [|ev evs IH]; intros w Hw; [done|]. cbn. by apply IH, flows_step. Qed.

Lemma flows_connect here there : pending (read_half here) = [] → pending (read_half there) = [] → flows (connect here there).
Proof.
  intros H1 H2 x _. exists [], []. split; try done; cbn; intros s [= <-]; [|intros _ _; exists [], []; cbn];
    rewrite ?app_nil_r; destruct x; cbn; rewrite ?H1, ?H2; done.
Qed.

(** ** One end, as a whole *)

Record tidy (e : Endpoint) : Prop := {
  td_reader : r_alive (reader e) = false → s_alive (session e) = true → s_stop (session e) ≠ None ∨ ActorTerminated ∈ s_sup (session e);
  td_writer : phase (wtask e) = Gone → s_alive (session e) = true → s_stop (session e) ≠ None;
  td_alive : s_alive (session e) = true → tx_open (wtask e) = true ∧ aborted (wtask e) = false ∧ r_kill (reader e) = false;
  td_ended : s_alive (session e) = false → tx_open (wtask e) = false ∧ r_kill (reader e) = true;
  td_waits : r_alive (reader e) = true → r_stop (reader e) = None → r_msgs (reader e) ≠ 0 ∧ r_stream (reader e) ≠ None;
  td_dropped : r_alive (reader e) = false → r_stream (reader e) = None
}.

Lemma tidy_pre_start stream : tidy (tcp_pre_start stream).
Proof. by split. Qed.

Lemma tidy_receive bytes e : tidy e → tidy (receive bytes e).
Proof.
  intros [T1 T2 T3 T4 T5 T6]. unfold receive. destruct (eof (reader e)); [done|]. split; cbn; try done.
  - intros H1 H2. destruct (T5 H1 H2). split; [done|]. by destruct (r_stream (reader e)).
  - intros H. by rewrite T6.
Qed.

Lemma tidy_stop reason e : tidy e → tidy (session_stop reason e).
Proof.
  intros [T1 T2 T3 T4 T5 T6]. unfold session_stop. destruct (s_alive (session e)) eqn:E; [|by split; rewrite ?E]. split; cbn; auto; by left.
Qed.

Lemma tidy_cast msg e : tidy e → tidy (session_cast msg e).
Proof. intros [T1 T2 T3 T4 T5 T6]. unfold session_cast. destruct (s_alive (session e)) eqn:E; split; cbn; rewrite ?E; auto. Qed.

(** The reader is replaced by one that goes on, or that is about to stop *)
Lemma tidy_reader r e :
  tidy e → r_alive (reader e) = true → r_alive r = true → r_kill r = r_kill (reader e) →
  (r_stop r = None → r_msgs r ≠ 0 ∧ r_stream r ≠ None) → tidy (with_reader r e).
Proof. intros [T1 T2 T3 T4 T5 T6] Ha Hr Hk Hs. split; cbn; rewrite ?Hr, ?Hk; auto; done. Qed.

(** The write task is replaced by one that is in the same session, and is not gone *)
Lemma tidy_wtask t e :
  tidy e → (phase t = Gone → s_alive (session e) = true → s_stop (session e) ≠ None) → tx_open t = tx_open (wtask e) → aborted t = aborted (wtask e) →
  tidy (with_wtask t e).
Proof. intros [T1 T2 T3 T4 T5 T6] Hg Ht Ha. split; cbn; rewrite ?Ht, ?Ha; auto. Qed.

Lemma tidy_end e : tidy e → tidy (session_end e).
Proof. intros [T1 T2 T3 T4 T5 T6]. by split. Qed.

Lemma tidy_end_post_stop e : tidy e → tidy (session_end (tcp_post_stop e)).
Proof. intros [T1 T2 T3 T4 T5 T6]. by split. Qed.

(** The session takes a message out of its mailbox *)
Lemma tidy_next msgs e :
  tidy e → s_alive (session e) = true → s_stop (session e) = None → s_sup (session e) = [] → tidy (with_session (mkSession true None [] msgs) e).
Proof.
  intros [T1 T2 T3 T4 T5 T6] Ha Hn Hs. rewrite Ha, Hn, Hs in *. by split.
Qed.

Lemma tidy_session_runs e : tidy e → tidy (session_runs e).
Proof.
  intros T. unfold session_runs. destruct (s_alive (session e)) eqn:Ea; [|done].
  destruct (s_stop (session e)) eqn:Est; [by apply tidy_end_post_stop|]. destruct (s_sup (session e)) as [|evt sup] eqn:Esup.
  - destruct (s_msgs (session e)) as [|[m|m] msgs] eqn:Em; [done| |].
    + pose proof (tidy_next msgs e T Ea Est Esup) as T'. cbn. destruct (phase (wtask e)) eqn:Ep; [..|done]; by apply tidy_wtask.
    + pose proof (tidy_next msgs e T Ea Est Esup) as [T1 T2 T3 T4 T5 T6]. cbn. destruct (handler_open e); by split.
  - destruct T as [T1 T2 T3 T4 T5 T6]. rewrite Ea, Est, Esup in *.
    destruct evt; unfold tcp_handle_supervisor_evt, session_stop; cbn; split; cbn; auto; try by left.
    + intros H _. destruct (T1 H eq_refl) as [|Hin]; [done|]. right. by apply elem_of_cons in Hin as [|].
    + intros H _. destruct (T1 H eq_refl) as [|Hin]; [done|]. right. by apply elem_of_cons in Hin as [|].
Qed.

Lemma tidy_reader_runs e : tidy e → tidy (reader_runs e).
Proof.
  intros T. assert (r_alive (reader e) = true → tidy (reader_ends e)) as Hends.
  { intros Hr. destruct T as [T1 T2 T3 T4 T5 T6]. unfold reader_ends, session_event. cbn. destruct (s_alive (session e)) eqn:Ea; split; cbn; try done; auto; rewrite ?Ea; try done.
    intros _ _. right. apply elem_of_app. right. by left. }
  unfold reader_runs. destruct (r_alive (reader e)) eqn:Er; [|done]. destruct (r_kill (reader e)) eqn:Ek; [auto|].
  destruct (r_stop (reader e)) eqn:Est; [auto|]. destruct (r_msgs (reader e)) as [|n] eqn:En; [done|]. destruct (blocked (reader e)); [done|].
  unfold reader_handle. destruct (wait_for_object _ _ _) as [[reason|m] stream] eqn:E; [by apply tidy_reader|]. apply tidy_cast.
  apply tidy_reader; try done. intros _. split; [done|]. cbn. unfold wait_for_object in E.
  destruct (r_stream (reader e)) as [s|]; [|done]. destruct (read_network_message _ _ s) as [[[]|] ?]; by simplify_eq.
Qed.

Lemma tidy_step ev e : tidy e → tidy (step ev e).1.
Proof.
  intros T. destruct ev; cbn [step fst].
  - unfold post. destruct (s_alive (session e)); [|done]. destruct (tidy_cast (Send m) e T). by split.
  - by apply tidy_stop.
  - destruct (s_alive (session e)); [by apply tidy_end|done].
  - destruct T. by split.
  - by apply tidy_session_runs.
  - pose proof T as [T1 T2 T3 T4 T5 T6]. unfold writer_takes.
    destruct (phase (wtask e)) eqn:Ep; [destruct (channel (wtask e)); [destruct (tx_open (wtask e)) eqn:Et|]|..]; apply tidy_wtask; try done; try congruence; try exact T2.
    2: exact (td_writer _ T).
    cbn. intros _ Ha. destruct (T3 Ha). congruence.
  - unfold writer_writes. destruct (phase (wtask e)) eqn:Ep; cbn; apply tidy_wtask; try done; try (intros; by apply T). cbn. by case_bool_decide.
  - unfold writer_flushes. destruct (phase (wtask e)) eqn:Ep; apply tidy_wtask; try done; try (intros; by apply T).
  - assert (tidy (session_stop "channel_closed" (with_wtask (gone (wtask e)) e))).
    { destruct T as [T1 T2 T3 T4 T5 T6]. unfold session_stop. cbn. destruct (s_alive (session e)) eqn:Ea; split; cbn; auto; try (by left); by rewrite Ea. }
    unfold writer_fails. by destruct (phase (wtask e)).
  - destruct (aborted (wtask e)) eqn:Ea; [|done]. apply tidy_wtask; try done. intros _ Hs. destruct (td_alive _ T Hs) as (_ & ? & _). congruence.
  - by apply tidy_reader_runs.
  - destruct T as [T1 T2 T3 T4 T5 T6]. split; cbn; try done.
    + intros H1 H2. destruct (T5 H1 H2). split; [done|]. by destruct (r_stream (reader e)).
    + intros H. by rewrite T6.
Qed.

(** A property of ends that every step and every byte preserves holds of both ends at all times. *)
Lemma run_invariant (P : Endpoint → Prop) evs w :
  (∀ ev e, P e → P (step ev e).1) → (∀ bytes e, P e → P (receive bytes e)) → (∀ x, P (w x)) → ∀ x, P (run evs w x).
Proof.
  intros Hs Hr. revert w. induction evs as [|[x ev] evs IH]; intros w Hw; [done|]. cbn. apply IH. intros y.
  pose proof (Hs ev _ (Hw x)) as H. destruct (step ev (w x)) as [e bytes]. destruct (Bool.eqb y x); [done|]. by apply Hr.
Qed.

(** The transport stays reliable *)
Lemma read_loop_fails fuel len buf s : 
  let s' := (read_loop fuel len buf s).2 in read_fails s' = read_fails s ∧ reserve_fails s' = reserve_fails s.
Proof.
  revert buf s. induction fuel as [|fuel IH]; intros buf s; cbn [read_loop]; destruct (length buf <? len); try done.
  unfold read. destruct (read_fails s (reads s)); [done|]. case_bool_decide; [done|]. destruct (reserve_fails _ _); [done|].
  destruct (IH (buf ++ take (min (max 1 (chunk s (reads s))) (min (len - length buf) FRAME_READ_CHUNK_SIZE)) (pending s))
    (advance (drop (min (max 1 (chunk s (reads s))) (min (len - length buf) FRAME_READ_CHUNK_SIZE)) (pending s)) s)) as [-> ->]. done.
Qed.

Lemma read_message_reliable s r s' : reliable s → read_network_message decode max_inbound_frame_size s = (r, s') → reliable s'.
Proof.
  intros Hs. assert (∀ s1, read_fails s1 = read_fails s ∧ reserve_fails s1 = reserve_fails s → reliable s1) as H.
  { intros s1 [H1 H2]. unfold reliable. by rewrite H1, H2. }
  unfold read_network_message, read_u64. destruct (read_fails s (reads s)); [intros [= <- <-]; by apply H|].
  destruct (_ <? 8); [intros [= <- <-]; by apply H|]. destruct (checked_frame_length _ _); [intros [= <- <-]; by apply H|].
  destruct (read_n_bytes _ _) as [r2 s2] eqn:E. assert (reliable s2) as Hs2.
  { apply H. apply (f_equal snd) in E. cbn in E. subst s2. unfold read_n_bytes. destruct (regular _); [destruct (read_fails _ _); [done|]|]; [exact (read_loop_fails _ _ _ (advance _ (advance _ s)))|exact (read_loop_fails _ _ _ (advance _ s))]. }
  destruct r2 as [|bs]; [by intros [= <- <-]|]. destruct (decode bs); by intros [= <- <-].
Qed.

Definition dependable (e : Endpoint) : Prop := ∀ s, r_stream (reader e) = Some s → reliable s.

Lemma dependable_step ev e : dependable e → dependable (step ev e).1.
Proof.
  intros D. assert (∀ e', reader e' = reader e → dependable e') as Hsame by (intros e' H; unfold dependable; by rewrite H).
  assert (∀ b, dependable (if b : bool then session_end e else e)) as Hend by (by intros []).
  destruct ev; cbn [step fst]; try (by apply Hsame); try done.
  - apply Hsame. unfold post, session_cast. by destruct (s_alive (session e)).
  - apply Hsame. apply session_stop_frame.
  - unfold session_runs. destruct (s_alive (session e)); [|done]. destruct (s_stop (session e)); [done|].
    destruct (s_sup (session e)) as [|evt sup]; [destruct (s_msgs (session e)) as [|[m|m] msgs]|]; apply Hsame; cbn; [done|..].
    + by destruct (phase (wtask e)).
    + by destruct (handler_open e).
    + destruct evt; cbn [tcp_handle_supervisor_evt]; try done; apply (session_stop_frame _ (with_session _ e)).
  - destruct (writer_writes n (wtask e)). by apply Hsame.
  - apply Hsame. unfold writer_fails. destruct (phase (wtask e)); try done; apply (session_stop_frame _ (with_wtask _ e)).
  - apply Hsame. by destruct (aborted (wtask e)).
  - assert (dependable (reader_ends e)) as He.
    { intros s. unfold reader_ends. by rewrite (proj1 (proj2 (session_event_frame ActorTerminated (with_reader _ e)))). }
    unfold reader_runs. destruct (r_alive (reader e)); [|done]. destruct (r_kill (reader e)); [done|]. destruct (r_stop (reader e)); [done|].
    destruct (r_msgs (reader e)) as [|n]; [done|]. destruct (blocked (reader e)); [done|]. unfold reader_handle, wait_for_object.
    destruct (r_stream (reader e)) as [s0|] eqn:Es; [|intros s; cbn; done]. destruct (read_network_message _ _ s0) as [[[]|m] s1] eqn:Er; try (intros s; cbn; done).
    intros s. rewrite (proj1 (proj2 (session_cast_frame (ObjectAvailable m) (with_reader _ e)))). cbn. intros [= <-].
    eapply read_message_reliable; [by apply (D s0)|done].
  - intros s. cbn. rewrite fmap_Some. intros (s0 & Hs0 & ->). by apply D in Hs0.
Qed.

Lemma dependable_receive bytes e : dependable e → dependable (receive bytes e).
Proof.
  intros D s. unfold receive. destruct (eof (reader e)); [apply D|]. cbn. rewrite fmap_Some. intros (s0 & Hs0 & ->). by apply D in Hs0.
Qed.

(** ** Theorems *)

(** No part of an end can go on by itself, and no write is under way. *)
Definition settled (e : Endpoint) : Prop :=
  session_runs e = e ∧ reader_runs e = e ∧ writer_takes (wtask e) = wtask e ∧
  (phase (wtask e) = Waiting ∨ phase (wtask e) = Gone) ∧ (aborted (wtask e) = true → phase (wtask e) = Gone).

(** All parts are running, with nothing left to do but to wait *)
Record idle (e : Endpoint) : Prop := {
  id_session : s_alive (session e) = true ∧ s_msgs (session e) = [];
  id_writer : phase (wtask e) = Waiting ∧ channel (wtask e) = [];
  id_reader : r_alive (reader e) = true ∧ blocked (reader e) = true
}.
Definition closed (e : Endpoint) : Prop :=
  s_alive (session e) = false ∧ phase (wtask e) = Gone ∧ r_alive (reader e) = false ∧ r_stream (reader e) = None.

Lemma session_runs_fixed e :
  session_runs e = e → s_alive (session e) = true → s_stop (session e) = None ∧ s_sup (session e) = [] ∧ s_msgs (session e) = [].
Proof.
  intros H Ha. unfold session_runs in H. rewrite Ha in H.
  destruct (s_stop (session e)); [apply (f_equal (s_alive ∘ session)) in H; cbn in H; congruence|].
  destruct (s_sup (session e)) as [|evt sup] eqn:Es.
  - destruct (s_msgs (session e)) as [|msg msgs] eqn:Em; [done|]. apply (f_equal (length ∘ s_msgs ∘ session)) in H. cbn in H. rewrite Em in H.
    destruct msg; cbn in H; [destruct (phase (wtask e))|destruct (handler_open e)]; cbn in H; lia.
  - apply (f_equal (length ∘ s_sup ∘ session)) in H. cbn in H. rewrite Es in H. destruct evt; cbn in H; lia.
Qed.

Lemma reader_runs_fixed e :
  tidy e → reader_runs e = e → r_alive (reader e) = true →
  s_alive (session e) = true ∧ s_stop (session e) = None → r_kill (reader e) = false ∧ r_stop (reader e) = None ∧ blocked (reader e) = true.
Proof.
  intros T H Hr [Ha Hst]. destruct (td_alive _ T Ha) as (_ & _ & Hk). unfold reader_runs in H. rewrite Hr, Hk in H.
  assert (reader_ends e ≠ e) as Hends.
  { intros E. apply (f_equal (r_alive ∘ reader)) in E. unfold reader_ends, session_event in E. cbn in E. rewrite Ha in E. cbn in E. congruence. }
  destruct (r_stop (reader e)) eqn:Es; [done|]. destruct (td_waits _ T Hr Es) as [Hm Hs]. destruct (r_msgs (reader e)) as [|n]; [done|].
  destruct (blocked (reader e)); [done|]. exfalso. unfold reader_handle in H. destruct (wait_for_object _ _ _) as [[reason|m] stream].
  - apply (f_equal (r_stop ∘ reader)) in H. cbn in H. congruence.
  - apply (f_equal (length ∘ s_msgs ∘ session)) in H. unfold session_cast in H. cbn in H. rewrite Ha in H. cbn in H. rewrite length_app in H. simpl in H. lia.
Qed.

Lemma settled_idle e : tidy e → settled e → s_alive (session e) = true → idle e.
Proof.
  intros T (Hs & Hr & Hw & Hp & Hb) Ha. destruct (session_runs_fixed e Hs Ha) as (H1 & H2 & H3).
  assert (r_alive (reader e) = true) as Hra.
  { destruct (r_alive (reader e)) eqn:E; [done|]. destruct (td_reader _ T E Ha) as [|Hin]; [done|]. rewrite H2 in Hin. by apply elem_of_nil in Hin. }
  destruct (reader_runs_fixed e T Hr Hra (conj Ha H1)) as (_ & _ & Hbl).
  assert (phase (wtask e) = Waiting) as Hph by (destruct Hp as [|Hg]; [done|by destruct (td_writer _ T Hg Ha)]).
  split; [done| |done]. split; [done|]. unfold writer_takes in Hw. rewrite Hph in Hw. destruct (channel (wtask e)); [done|].
  apply (f_equal phase) in Hw. cbn in Hw. congruence.
Qed.

Lemma settled_closed e : tidy e → settled e → s_alive (session e) = false → closed e.
Proof.
  intros T (Hs & Hr & Hw & Hp & Hb) Ha. destruct (td_ended _ T Ha) as [Ht Hk].
  assert (r_alive (reader e) = false) as Hra.
  { destruct (r_alive (reader e)) eqn:E; [|done]. unfold reader_runs in Hr. rewrite E, Hk in Hr. apply (f_equal (r_alive ∘ reader)) in Hr.
    unfold reader_ends, session_event in Hr. cbn in Hr. rewrite Ha in Hr. cbn in Hr. congruence. }
  split_and!; [done| |done|by apply T]. destruct Hp as [Hph|]; [|done]. unfold writer_takes in Hw. rewrite Hph, Ht in Hw.
  destruct (channel (wtask e)); apply (f_equal phase) in Hw; cbn in Hw; congruence.
Qed.

(** Everything has arrived when both ends are idle *)
Lemma idle_all_delivered a b got rest :
  flow a b got rest → idle a → idle b → dependable b → handler_open b = true →
  (∀ m, m ∈ posted a → sendable m ∧ fits encode max_inbound_frame_size m) → delivered b = posted a.
Proof.
  intros F [[A1 A2] [A3 A4] _] [[B1 B2] _ [B3 B4]] D Ho Hf. pose proof (fl_mailbox _ _ _ _ F B1 Ho) as Hg. rewrite B2 in Hg. cbn in Hg.
  unfold blocked in B4. destruct (r_stream (reader b)) as [s|] eqn:Es; [|done]. apply andb_true_iff in B4 as [He Hb]. apply negb_true_iff in He.
  destruct (fl_intact _ _ _ _ F s Es He) as (sending & tail & E1 & E2 & E3); [by rewrite A3|]. rewrite E3, A2, A4 in E1 by done. cbn in E1.
  rewrite app_nil_r in E1. unfold writing in E2. rewrite A3, app_nil_r in E2. rewrite (fl_posted _ _ _ _ F), Hg, app_nil_r.
  destruct sending as [|m sending]; [by rewrite E1, app_nil_r|]. rewrite fmap_cons in E2. cbn [concat] in E2.
  destruct (Hf m) as [[Hde _] Hfit]; [rewrite (fl_posted _ _ _ _ F), E1; apply elem_of_app; right; by left|].
  destruct (read_frame encode decode max_inbound_frame_size m (frames sending) s Hde (D s Es) Hfit E2) as (s' & Hr & _).
  by rewrite Hr in Hb.
Qed.

(** ** The last message *)

(** An end that sends nothing any more, and one that has nothing to receive *)
Definition mute (e : Endpoint) : Prop :=
  s_alive (session e) = false ∧ channel (wtask e) = [] ∧ (phase (wtask e) = Waiting ∨ phase (wtask e) = Gone).
Definition unheard (e : Endpoint) : Prop :=
  delivered e = [] ∧ objects (s_msgs (session e)) = [] ∧ ∀ s, r_stream (reader e) = Some s → pending s = [].

Lemma mute_step ev e : mute e → mute (step ev e).1 ∧ (step ev e).2 = [] ∧ posted (step ev e).1 = posted e.
Proof.
  destruct e as [[al st su ms] [ph ch tx ab] [ra rk rs rm rst ef] ho po de]. intros (Ha & Hc & Hp). cbn in Ha, Hc, Hp. subst al ch.
  unfold mute. destruct ev; cbn [step fst snd]; try (by cbn; auto).
  - destruct Hp as [-> | ->], tx; cbn; auto.
  - destruct Hp as [-> | ->]; cbn; auto.
  - destruct Hp as [-> | ->]; cbn; auto.
  - destruct Hp as [-> | ->]; cbn; auto.
  - destruct ab; cbn; auto.
  - unfold reader_runs. cbn. destruct ra, rk, rs, rm; try (by cbn; auto). destruct (blocked _); [by cbn; auto|]. unfold reader_handle. cbn.
    destruct (wait_for_object _ _ _) as [[reason|m] stream]; cbn; auto.
Qed.

Lemma unheard_reads n e : unheard e → unheard (reader_handle n e).
Proof.
  intros (Hd & Ho & Hs). unfold reader_handle, wait_for_object. destruct (r_stream (reader e)) as [s|] eqn:Es; [|by split_and!].
  destruct (read_network_message _ _ s) as [[[]|m] s'] eqn:Er; try (by split_and!).
  apply (read_exact s m s' []) in Er as (? & ? & _); [done|by intros m0 ?%elem_of_nil|]. by rewrite (Hs s eq_refl).
Qed.

Lemma unheard_step ev e : unheard e → unheard (step ev e).1.
Proof.
  intros U. pose proof U as (Hd & Ho & Hs). destruct ev; cbn [step fst]; try done.
  - unfold post, session_cast, unheard. destruct (s_alive (session e)); [|done]. cbn. by rewrite objects_app, Ho.
  - unfold session_stop. by destruct (s_alive (session e)).
  - by destruct (s_alive (session e)).
  - unfold session_runs. destruct (s_alive (session e)) eqn:Ea; [|done]. destruct (s_stop (session e)); [done|].
    destruct (s_sup (session e)) as [|evt sup]; [|destruct evt; by split_and!].
    destruct (s_msgs (session e)) as [|[m|m] msgs] eqn:Em; [done| |done]. cbn. by destruct (phase (wtask e)).
  - by destruct (writer_writes n (wtask e)).
  - unfold writer_fails, session_stop. destruct (phase (wtask e)); try done; cbn; by destruct (s_alive (session e)).
  - by destruct (aborted (wtask e)).
  - assert (unheard (reader_ends e)) by (unfold reader_ends, session_event; cbn; by destruct (s_alive (session e))).
    unfold reader_runs. destruct (r_alive (reader e)), (r_kill (reader e)), (r_stop (reader e)), (r_msgs (reader e)); try done.
    destruct (blocked (reader e)); [done|]. by apply unheard_reads.
  - split_and!; try done. cbn. intros s. rewrite fmap_Some. intros (s0 & Hs0 & ->). cbn. by rewrite (Hs s0 Hs0), take_nil.
Qed.

Lemma mute_run evs w :
  mute (w true) → unheard (w false) → posted (run evs w true) = posted (w true) ∧ delivered (run evs w false) = [].
Proof.
  revert w. induction evs as [|[x ev] evs IH]; intros w M U; [by split; [|apply U]|].
  change (run _ w) with (run evs (world_step (x, ev) w)).
  assert (mute (world_step (x, ev) w true) ∧ unheard (world_step (x, ev) w false) ∧ posted (world_step (x, ev) w true) = posted (w true))
    as (M' & U' & <-); [|by apply IH]. unfold world_step. destruct (step ev (w x)) as [e bytes] eqn:E. destruct x; cbn.
  - destruct (mute_step ev _ M) as (M' & B & P). rewrite E in M', B, P. cbn in B. subst bytes. by rewrite receive_nil.
  - pose proof (unheard_step ev _ U) as U'. rewrite E in U'. unfold receive. by destruct (eof (reader (w true))).
Qed.

Section run.
Context (here there : NetworkStream) (evs : list (bool * Event)).
Abbreviation w := (run evs (connect here there)).
Hypothesis fresh : pending (read_half here) = [] ∧ pending (read_half there) = [].

(** C29: In every interleaving of the two ends, with a transport that may cut the stream anywhere, fail reads and writes, and
    with sessions that stop or are killed at any time, the node session of one end receives exactly the first of the messages that the
    node session of the other end has sent, in order: none is changed, repeated, reordered or left out.  ([sendable]: the generated code decodes what it made of the messages sent.) *)
Theorem connection_in_order x : (∀ m, m ∈ posted (w x) → sendable m) → delivered (w (negb x)) `prefix_of` posted (w x).
Proof.
  intros Hok. destruct (flows_run evs _ (flows_connect here there (proj1 fresh) (proj2 fresh)) x Hok) as (got & rest & F).
  rewrite (fl_posted _ _ _ _ F). apply prefix_app_r, F.
Qed.

Lemma w_tidy x : tidy (w x).
Proof. apply run_invariant; [apply tidy_step|apply tidy_receive|]. intros y. apply tidy_pre_start. Qed.

(** C30: An end lives or dies as a whole.  Once nothing of it can go on, either the session, its reader and its write task all
    run and wait, or all have ended, whichever of them failed first; and when both ends still run, over a reliable transport and with
    messages within the limit, everything that was sent has been received. *)
Theorem connection_settles :
  (∀ x, settled (w x) → idle (w x) ∨ closed (w x)) ∧
  (reliable (read_half here) → reliable (read_half there) →
   ∀ x, settled (w x) → settled (w (negb x)) → s_alive (session (w x)) = true → s_alive (session (w (negb x))) = true →
     handler_open (w (negb x)) = true → (∀ m, m ∈ posted (w x) → sendable m ∧ fits encode max_inbound_frame_size m) → delivered (w (negb x)) = posted (w x)).
Proof.
  split.
  - intros x Hs. destruct (s_alive (session (w x))) eqn:Ha; [left; by apply settled_idle; [apply w_tidy|..]|right; by apply settled_closed; [apply w_tidy|..]].
  - intros R1 R2 x Hs1 Hs2 Ha1 Ha2 Ho Hf.
    destruct (flows_run evs _ (flows_connect here there (proj1 fresh) (proj2 fresh)) x) as (got & rest & F); [intros m Hm; by apply Hf|].
    eapply idle_all_delivered; [done|by apply settled_idle; [apply w_tidy|..]..| |done|done].
    apply run_invariant; [apply dependable_step|apply dependable_receive|]. intros y s [= <-]. by destruct y.
Qed.

(** A message that the node session sends right before it ends is dropped with the mailbox of the session that it kills:
    whatever happens afterwards, it does not arrive. *)
Lemma last_message_dropped m :
  let w := run ([(true, Post m); (true, KillSession)] ++ evs) (connect here there) in posted (w true) = [m] ∧ delivered (w false) = [].
Proof.
  cbn [app run foldl]. apply mute_run; [by split_and!; [..|left]|]. destruct fresh as [_ H]. split_and!; [done|done|].
  cbn. intros s [= <-]. cbn. by rewrite !app_nil_r.
Qed.
End run.
End connection.

(** ** Examples *)

(** Messages of one byte, over a transport that hands out three bytes at a time *)
Definition encode_byte (b : byte) : list byte := [b].
Definition decode_byte (l : list byte) : option byte := match l with [b] => Some b | _ => None end.
Definition sample_transport : NetworkStream :=
  Raw (mkAddr [127; 0; 0; 1]%N 4697) (mkAddr [127; 0; 0; 1]%N 50000) (mkStream false [] (λ _, 3) (λ _, false) (λ _, false) 0).

(** Two messages are posted at one end, the second while the first is being written. *)
Definition sample_events : list (bool * Event) :=
  [(true, Post x01); (true, SessionRuns); (true, WriterTakes); (true, WriterWrites 4); (true, Post x02); (false, ReaderRuns);
   (true, SessionRuns); (true, WriterWrites 9); (true, WriterFlushes); (true, WriterTakes); (true, WriterWrites 12); (true, WriterFlushes);
   (false, ReaderRuns); (false, ReaderRuns); (false, SessionRuns); (false, SessionRuns)].
Abbreviation sample_run evs := (run encode_byte decode_byte 100 evs (connect sample_transport sample_transport)).

Lemma connection_in_order_witness : delivered (sample_run (take 15 sample_events) false) `prefix_of` [x01; x02].
Proof.
  assert (posted (sample_run (take 15 sample_events) true) = [x01; x02]) as <- by (vm_compute; reflexivity).
  exact (connection_in_order encode_byte decode_byte 100 sample_transport sample_transport
    (take 15 sample_events) (conj eq_refl eq_refl) true (λ m _, conj eq_refl eq_refl)).
Defined.

Lemma connection_settles_witness : delivered (sample_run sample_events false) = [x01; x02].
Proof.
  assert (posted (sample_run sample_events true) = [x01; x02]) as <- by (vm_compute; reflexivity).
  refine (proj2 (connection_settles encode_byte decode_byte 100 sample_transport sample_transport
    sample_events (conj eq_refl eq_refl)) _ _ true _ _ _ _ _ _).
  - by intros k.
  - by intros k.
  - split_and!; [vm_compute; reflexivity..|left; vm_compute; reflexivity|vm_compute; discriminate].
  - split_and!; [vm_compute; reflexivity..|left; vm_compute; reflexivity|vm_compute; discriminate].
  - vm_compute. reflexivity.
  - vm_compute. reflexivity.
  - vm_compute. reflexivity.
  - intros m _. split; [split; reflexivity|]. split; vm_compute; discriminate.
Defined.

(** Messages that have been read are dropped when the connection closes behind them: the end of the reader is a supervision
    event, which the session handles before the messages of its mailbox. *)
Lemma received_and_dropped :
  let w := sample_run (take 6 sample_events ++ [(true, WriterWrites 9); (false, ReaderRuns); (false, Cut 0); (false, ReaderRuns); (false, ReaderRuns);
    (false, SessionRuns); (false, SessionRuns); (false, WriterCancelled)]) in
  posted (w true) = [x01; x02] ∧ closed (w false) ∧ delivered (w false) = [] ∧
  s_msgs (session (sample_run (take 6 sample_events ++ [(true, WriterWrites 9); (false, ReaderRuns)]) false)) = [ObjectAvailable x01].
Proof. split_and!; vm_compute; by split_and?. Qed.
