(* ===== verification/Listener.v ===== *)
(** How connections come about: the actor [Listener] (src/ractor_cluster/src/net/listener.rs) under the node server that
    starts it again when it ends, and the functions with which a node connects to another one
    (src/ractor_cluster/src/node/client.rs).

    Sockets and TLS are the environment: every call has an outcome, and a TLS handshake may also never end, as
    the peer has to take part in it. *)

From S2P Require Import Prelude ActorTypes.
From S2P Require Import NodeServer.
From S2P Require Import Frames.
From S2P Require Import Connection.

(** ** Outcomes *)

Inductive Handshake := TlsOk (s : Stream) | TlsErr (e : string) | TlsNever.

(** A connected socket: the bytes it will read, the outcomes of the calls on it, and of a TLS handshake over it *)
Record Socket := mkSocket {
  so_stream : Stream;
  so_set_nodelay : option string;
  so_peer_addr : string + SocketAddr;
  so_local_addr : string + SocketAddr;
  so_handshake : Handshake
}.

(** The calls that make a listening socket *)
Inductive BindCall := BindTo | NewSocket | SetOnlyV6 | SetReuseAddress | SetNonblocking | BindV6 | Listen | FromStd | LocalAddr.

(** [ClusterBidiStream]: what a transport of the user splits into, and its labels *)
Record ClusterBidiStream := mkBidi { bidi_peer_label : option string; bidi_local_label : option string; split : Stream }.

(** What is cast to the node server *)
Inductive Cast :=
| ConnectionOpened (stream : NetworkStream) (is_server : bool)
| ConnectionOpenedExternal (stream : ClusterBidiStream) (is_server : bool)
| PortChanged (port : N).

(** ** The listener *)

Inductive IncomingEncryptionMode := RawMode | TlsMode.

Record Listener := mkListener {
  l_port : N;
  encryption : IncomingEncryptionMode;
  listen_addr : option (list N)
}.

(** [ListenerState]: the port listened on, until the listener is dropped *)
Definition ListenerState := option N.

(** The calls of [pre_start] up to the listening socket: a given address is bound directly, otherwise a dual-stack
    socket is configured *)
Definition bind_calls (self : Listener) : list BindCall :=
  match listen_addr self with
  | Some _ => [BindTo; LocalAddr]
  | None => [NewSocket; SetOnlyV6; SetReuseAddress; SetNonblocking; BindV6; Listen; FromStd; LocalAddr]
  end.

(** Calls in order, up to the first that fails *)
Fixpoint try_calls (fails : BindCall → option string) (l : list BindCall) : option string :=
  match l with
  | [] => None
  | c :: l => match fails c with Some e => Some e | None => try_calls fails l end
  end.

(** [Listener::pre_start]; [bound p] is the port that the system gives when [p] is asked for, [server_open] whether the
    node server takes messages.  On success: what is cast to the node server, how many [ListenerMessage]s the listener
    sends to itself, and its state. *)
Definition listener_pre_start (self : Listener) (fails : BindCall → option string) (bound : N → N) (server_open : bool) :
  res (list Cast * nat * ListenerState) :=
  match try_calls fails (bind_calls self) with
  | Some e => Err e
  | None =>
      let local := bound (l_port self) in
      if (local =? l_port self)%N then Ok ([], 1, Some local)
      else if server_open then Ok ([PortChanged local], 1, Some local)
      else Err "messaging"%string
  end.

Definition listener_post_stop (state : ListenerState) : ListenerState := None.

(** A handler returns, having cast to the node server and sent messages to itself, it fails, or it waits for ever. *)
Inductive Handled := Returns (casts : list Cast) (to_self : nat) | Fails (e : string) | Waits.

(** [Listener::handle]; [accepted] is the outcome of [accept] *)
Definition listener_handle (self : Listener) (state : ListenerState) (accepted : string + Socket * SocketAddr) : Handled :=
  match state with
  | None => Returns [] 1
  | Some _ =>
      match accepted with
      | inl _ => Returns [] 1
      | inr (stream, addr) =>
          match so_set_nodelay stream with
          | Some e => Fails e
          | None =>
              match so_local_addr stream with
              | inl e => Fails e
              | inr local =>
                  match encryption self with
                  | RawMode => Returns [ConnectionOpened (Raw addr local (so_stream stream)) true] 1
                  | TlsMode =>
                      match so_handshake stream with
                      | TlsOk enc_stream => Returns [ConnectionOpened (TlsServer addr local enc_stream) true] 1
                      | TlsErr _ => Returns [] 1
                      | TlsNever => Waits
                      end
                  end
              end
          end
      end
  end.

(** ** Connecting *)

Inductive ClientConnectErr := SocketErr (e : string) | MessagingErr | Encryption (e : string).

(** A call with [?], and [map_err] *)
Definition call_or {A E} (err : string → E) (x : string + A) : E + A := match x with inl e => inl (err e) | inr a => inr a end.
Definition sum_bind {E A B} (x : E + A) (f : A → E + B) : E + B := match x with inl e => inl e | inr a => f a end.

(** [node_server.cast(..)?] *)
Definition cast_or (server_open : bool) (c : Cast) : ClientConnectErr + list Cast := if server_open then inr [c] else inl MessagingErr.
Definition unit_or (x : option string) : string + unit := match x with Some e => inl e | None => inr tt end.

Definition connect (server_open : bool) (socket : string + Socket) : ClientConnectErr + list Cast :=
  sum_bind (call_or SocketErr socket) (λ stream,
  sum_bind (call_or SocketErr (unit_or (so_set_nodelay stream))) (λ _,
  sum_bind (call_or SocketErr (so_peer_addr stream)) (λ addr,
  sum_bind (call_or SocketErr (so_local_addr stream)) (λ local,
  cast_or server_open (ConnectionOpened (Raw addr local (so_stream stream)) false))))).

(** [None]: the handshake does not end. *)
Definition connect_enc (server_open : bool) (socket : string + Socket) : option (ClientConnectErr + list Cast) :=
  match
    sum_bind (call_or SocketErr socket) (λ stream,
    sum_bind (call_or SocketErr (unit_or (so_set_nodelay stream))) (λ _,
    sum_bind (call_or SocketErr (so_peer_addr stream)) (λ addr,
    sum_bind (call_or SocketErr (so_local_addr stream)) (λ local, inr (stream, addr, local)))))
  with
  | inl e => Some (inl e)
  | inr (stream, addr, local) =>
      match so_handshake stream with
      | TlsNever => None
      | TlsErr e => Some (inl (Encryption e))
      | TlsOk enc_stream => Some (cast_or server_open (ConnectionOpened (TlsClient addr local enc_stream) false))
      end
  end.

Definition connect_external (server_open : bool) (stream : ClusterBidiStream) : ClientConnectErr + list Cast :=
  cast_or server_open (ConnectionOpenedExternal stream false).

(** ** A node that listens *)

(** The listener under its node server.  The listener is an actor: its state while it lives, the [ListenerMessage]s in its
    mailbox, and whether it waits in a handler for ever.  [backlog] are the connections that the system has completed for
    the listening socket and that wait to be accepted; they are reset when the socket is dropped.  [casts] is what the
    node server has been sent.  [taken] and [lost] record the connections that were accepted, and those that
    were refused or reset instead. *)
Record Site := mkSite {
  actor : option ListenerState;
  mailbox : nat;
  stuck : bool;
  backlog : list (Socket * SocketAddr);
  casts : list Cast;
  node : NodeServerState;
  node_up : bool;
  taken : list (Socket * SocketAddr);
  lost : list (Socket * SocketAddr)
}.

(** A peer connects; the listener runs its handler, in which [accept] may fail; the node server handles the end of its
    listener, by starting it again. *)
Inductive SiteEvent :=
| Connects (c : Socket * SocketAddr)
| Handles (accept_error : option string)
| Respawns (a : ActorId) (fails : BindCall → option string) (bound : N → N).

Section site.
Context `{!HashSetIter string} (self : Listener).

(** The outcome of [accept], and what is left in the backlog; without a connection it waits. *)
Definition accept_outcome (accept_error : option string) (l : list (Socket * SocketAddr)) :
  option ((string + Socket * SocketAddr) * list (Socket * SocketAddr)) :=
  match accept_error, l with
  | Some e, _ => Some (inl e, l)
  | None, c :: l => Some (inr c, l)
  | None, [] => None
  end.

Definition taking (x : string + Socket * SocketAddr) : list (Socket * SocketAddr) := match x with inl _ => [] | inr c => [c] end.

(** The actor takes a message.  When its handler fails the actor ends, and its state with the listening socket is dropped. *)
Definition site_handles (accept_error : option string) (s : Site) : Site :=
  match actor s, mailbox s, stuck s with
  | Some state, S n, false =>
      match accept_outcome accept_error (backlog s) with
      | None => s
      | Some (x, rest) =>
          match listener_handle self state x with
          | Returns cs m => mkSite (Some state) (n + m) false rest (casts s ++ cs) (node s) (node_up s) (taken s ++ taking x) (lost s)
          | Waits => mkSite (Some state) n true rest (casts s) (node s) (node_up s) (taken s ++ taking x) (lost s)
          | Fails _ => mkSite None 0 false [] (casts s) (node s) (node_up s) (taken s ++ taking x) (lost s ++ rest)
          end
      end
  | _, _, _ => s
  end.

(** [NodeServer::handle_supervisor_evt] for the listener (NodeServer.v, [child_exited]): a listener that cannot be started
    again is an error of the node server. *)
Definition site_respawns (a : ActorId) (fails : BindCall → option string) (bound : N → N) (s : Site) : Site :=
  match actor s, node_up s with
  | None, true =>
      match listener_pre_start self fails bound true with
      | Ok (cs, m, state) =>
          let node' := (child_exited (listener (node s)) (Some a) (node s)).2 in
          mkSite (Some state) m false [] (casts s ++ cs) node' true (taken s) (lost s)
      | _ =>
          let '(r, node') := child_exited (listener (node s)) None (node s) in
          mkSite None 0 false [] (casts s) node' (match r with Ok _ => true | _ => false end) (taken s) (lost s)
      end
  | _, _ => s
  end.

Definition site_step (ev : SiteEvent) (s : Site) : Site :=
  match ev with
  | Connects c =>
      match actor s with
      | Some (Some _) => mkSite (actor s) (mailbox s) (stuck s) (backlog s ++ [c]) (casts s) (node s) (node_up s) (taken s) (lost s)
      | _ => mkSite (actor s) (mailbox s) (stuck s) (backlog s) (casts s) (node s) (node_up s) (taken s) (lost s ++ [c])
      end
  | Handles e => site_handles e s
  | Respawns a fails bound => site_respawns a fails bound s
  end.
Definition site_run (evs : list SiteEvent) (s : Site) : Site := foldl (λ s ev, site_step ev s) s evs.

(** The node server has started its listener. *)
Definition site_start (fails : BindCall → option string) (bound : N → N) (server : NodeServerState) : res Site :=
  match listener_pre_start self fails bound true with
  | Ok (cs, m, state) => Ok (mkSite (Some state) m false [] cs server true [] [])
  | Err e => Err e
  | Panic => Panic
  end.

(** ** What is served *)

(** A socket that fails after it was accepted, a peer that connects and then does not take part in the TLS handshake, and the
    stream that a connection becomes *)
Definition broken (c : Socket * SocketAddr) : bool :=
  match so_set_nodelay c.1, so_local_addr c.1 with None, inr _ => false | _, _ => true end.
Definition stalls (c : Socket * SocketAddr) : bool :=
  match broken c, encryption self, so_handshake c.1 with false, TlsMode, TlsNever => true | _, _, _ => false end.
Definition incoming (c : Socket * SocketAddr) : option NetworkStream :=
  match so_set_nodelay c.1, so_local_addr c.1 with
  | None, inr local =>
      match encryption self, so_handshake c.1 with
      | RawMode, _ => Some (Raw c.2 local (so_stream c.1))
      | TlsMode, TlsOk enc => Some (TlsServer c.2 local enc)
      | TlsMode, _ => None
      end
  | _, _ => None
  end.

Definition connections (evs : list SiteEvent) : list (Socket * SocketAddr) := omap (λ ev, match ev with Connects c => Some c | _ => None end) evs.
Definition opened (cs : list Cast) : list (NetworkStream * bool) := omap (λ c, match c with ConnectionOpened s b => Some (s, b) | _ => None end) cs.

Lemma listener_handle_cases p c :
  match listener_handle self (Some p) (inr c) with
  | Returns cs m => m = 1 ∧ broken c = false ∧ stalls c = false ∧ opened cs = (λ s, (s, true)) <$> option_list (incoming c)
  | Fails _ => broken c = true ∧ stalls c = false ∧ incoming c = None
  | Waits => broken c = false ∧ stalls c = true ∧ incoming c = None
  end.
Proof using.
  unfold listener_handle, stalls, incoming, broken. destruct c as [[s [?|] pa [?|local] h] addr]; cbn; try done.
  by destruct (encryption self), h.
Qed.

Record site_ok (evs : list SiteEvent) (s : Site) : Prop := {
  sk_mailbox state : actor s = Some state → is_Some state ∧ (stuck s = false → mailbox s = 1);
  sk_down : actor s = None → backlog s = [] ∧ stuck s = false;
  sk_opened : opened (casts s) = (λ x, (x, true)) <$> omap incoming (taken s);
  sk_all : connections evs ≡ₚ taken s ++ backlog s ++ lost s;
  sk_order : Forall (λ c, broken c = false) (taken s) → lost s = [] ∧ connections evs = taken s ++ backlog s ∧ is_Some (actor s)
}.

Lemma pre_start_state fails bound cs m state : listener_pre_start self fails bound true = Ok (cs, m, state) → m = 1 ∧ is_Some state ∧ opened cs = [].
Proof using.
  unfold listener_pre_start. destruct (try_calls _ _); [done|]. destruct (_ =? _)%N; intros [= <- <- <-]; by split_and!.
Qed.

Lemma site_ok_start fails bound server s : site_start fails bound server = Ok s → site_ok [] s.
Proof using.
  unfold site_start. destruct (listener_pre_start self fails bound true) as [[[cs m] state]|e|] eqn:E; [|done|done]. intros [= <-].
  apply pre_start_state in E as (-> & Hs & Hc). split; cbn -[opened connections]; [|done|by rewrite Hc|done|done]. by intros st [= <-].
Qed.

Lemma opened_app cs cs' : opened (cs ++ cs') = opened cs ++ opened cs'.
Proof using. apply omap_app. Qed.

Lemma site_ok_handles evs e s : site_ok evs s → site_ok (evs ++ [Handles e]) (site_handles e s).
Proof using.
  intros [K1 K0 K2 K3 K4]. assert (connections (evs ++ [Handles e]) = connections evs) as Hev by (unfold connections; by rewrite omap_app, app_nil_r).
  unfold site_handles. destruct (actor s) as [state|] eqn:Ea; [|split; by rewrite ?Hev, ?Ea].
  destruct (K1 _ eq_refl) as [[p ->] Hm]. destruct (mailbox s) as [|n] eqn:Em; [split; rewrite ?Hev, ?Ea, ?Em; try done; by intros st [= <-]|].
  destruct (stuck s) eqn:Es; [split; rewrite ?Hev, ?Ea, ?Es, ?Em; try done; by intros st [= <-]|].
  assert (n = 0) as -> by (specialize (Hm eq_refl); lia).
  destruct (accept_outcome e (backlog s)) as [[x rest]|] eqn:Ex; [|split; rewrite ?Hev, ?Ea, ?Em; try done; by intros st [= <-]].
  destruct x as [err|c].
  { assert (rest = backlog s) as -> by (unfold accept_outcome in Ex; destruct e, (backlog s); by simplify_eq). cbn.
    split; cbn -[opened connections]; rewrite ?Hev, ?app_nil_r; done. }
  assert (backlog s = c :: rest) as Hb by (unfold accept_outcome in Ex; destruct e, (backlog s); by simplify_eq). rewrite Hb in *.
  assert (connections evs ≡ₚ (taken s ++ [c]) ++ rest ++ lost s) as Hall by (by rewrite K3, <-app_assoc).
  assert (Forall (λ c, broken c = false) (taken s ++ [c]) → lost s = [] ∧ connections evs = (taken s ++ [c]) ++ rest) as Hord.
  { intros [Ht _]%Forall_app. destruct (K4 Ht) as (? & -> & _). by rewrite <-app_assoc. }
  pose proof (listener_handle_cases p c) as H. destruct (listener_handle self (Some p) (inr c)) as [cs m|err|]; cbn [taking].
  - destruct H as (-> & _ & _ & Ho). split; cbn -[opened connections]; rewrite ?Hev; [by intros st [= <-]|done| |done|naive_solver].
    rewrite opened_app, K2, Ho, omap_app, fmap_app. cbn [omap list_omap]. by destruct (incoming c).
  - destruct H as (Hbr & _ & Hi). split; cbn -[opened connections]; rewrite ?Hev; [done|by split| | |].
    + rewrite omap_app, fmap_app, K2. cbn [omap list_omap]. by rewrite Hi, app_nil_r.
    + rewrite Hall. by rewrite (Permutation_app_comm rest).
    + intros [_ Hc]%Forall_app. apply Forall_cons in Hc as [Hc _]. congruence.
  - destruct H as (_ & _ & Hi). split; cbn -[opened connections]; rewrite ?Hev; [by intros st [= <-]|done| |done|naive_solver].
    rewrite omap_app, fmap_app, K2. cbn [omap list_omap]. by rewrite Hi, app_nil_r.
Qed.

Lemma site_ok_step evs ev s : site_ok evs s → site_ok (evs ++ [ev]) (site_step ev s).
Proof using.
  intros K. destruct ev as [c|e|a fails bound]; cbn [site_step]; [|by apply site_ok_handles|]; destruct K as [K1 K0 K2 K3 K4].
  - assert (connections (evs ++ [Connects c]) = connections evs ++ [c]) as Hev by (unfold connections; by rewrite omap_app).
    destruct (actor s) as [[p|]|] eqn:Ea; [|by destruct (K1 _ eq_refl) as [[? ?] _]|]; split; cbn -[opened connections]; rewrite ?Hev; try done.
    + by rewrite K3, <-!app_assoc, (Permutation_app_comm (lost s)).
    + intros Ht. destruct (K4 Ht) as (? & -> & _). by rewrite app_assoc.
    + by rewrite K3, <-!app_assoc.
    + intros Ht. destruct (K4 Ht) as (_ & _ & [? [=]]).
  - assert (connections (evs ++ [Respawns a fails bound]) = connections evs) as Hev by (unfold connections; by rewrite omap_app, app_nil_r).
    unfold site_respawns. destruct (actor s) as [state|] eqn:Ea; [split; by rewrite ?Hev, ?Ea|].
    destruct (node_up s); [|split; by rewrite ?Hev, ?Ea].
    destruct (K0 eq_refl) as [Hb0 Hs0]. rewrite Hb0 in *. destruct (listener_pre_start self fails bound true) as [[[cs m] state]|err|] eqn:E.
    + apply pre_start_state in E as (-> & Hs & Hc). split; cbn -[opened connections]; rewrite ?Hev, ?opened_app, ?Hc, ?app_nil_r; try done; [by intros st [= <-]|].
      intros Ht. destruct (K4 Ht) as (_ & _ & [? [=]]).
    + destruct (child_exited _ None (node s)) as [r node']. split; cbn -[opened connections]; rewrite ?Hev; done.
    + destruct (child_exited _ None (node s)) as [r node']. split; cbn -[opened connections]; rewrite ?Hev; done.
Qed.

Lemma site_ok_run evs evs' s : site_ok evs s → site_ok (evs ++ evs') (site_run evs' s).
Proof using.
  revert evs s. induction evs' as [|ev evs' IH]; intros evs s K; [by rewrite app_nil_r|].
  rewrite cons_middle, app_assoc. by apply IH, site_ok_step.
Qed.

(** A listener that waits for ever *)
Lemma blocked_run evs s : is_Some (actor s) → stuck s = true →
  let s' := site_run evs s in is_Some (actor s') ∧ stuck s' = true ∧ casts s' = casts s ∧ taken s' = taken s.
Proof using.
  revert s. induction evs as [|ev evs IH]; intros s [st Ha] Hs; [by split_and!|]. cbn [site_run foldl].
  assert (is_Some (actor (site_step ev s)) ∧ stuck (site_step ev s) = true ∧ casts (site_step ev s) = casts s ∧ taken (site_step ev s) = taken s) as (H1 & H2 & <- & <-).
  { destruct ev as [c|e|a fails bound]; cbn [site_step].
    - destruct (actor s) as [[p|]|]; cbn; by split_and!.
    - unfold site_handles. rewrite Ha, Hs. destruct (mailbox s); by split_and!.
    - unfold site_respawns. rewrite Ha. by split_and!. }
  by apply IH.
Qed.

(** The listener takes the next of the connections that wait. *)
Lemma handles_next evs s c rest : site_ok evs s → is_Some (actor s) → stuck s = false → backlog s = c :: rest →
  let s' := site_step (Handles None) s in
  taken s' = taken s ++ [c] ∧ actor s' = (if broken c then None else actor s) ∧ stuck s' = stalls c ∧
  backlog s' = (if broken c then [] else rest) ∧ lost s' = (if broken c then lost s ++ rest else lost s).
Proof using.
  intros K [st Ha] Hs Hb. destruct (sk_mailbox _ _ K _ Ha) as [[p ->] Hm]. cbn [site_step]. unfold site_handles. rewrite Ha, Hs, (Hm Hs), Hb. cbn [accept_outcome].
  pose proof (listener_handle_cases p c) as H. destruct (listener_handle self (Some p) (inr c)) as [cs m|err|]; cbn.
  - destruct H as (-> & -> & -> & _). by split_and!.
  - destruct H as (-> & -> & _). by split_and!.
  - destruct H as (-> & -> & _). by split_and!.
Qed.

Lemma handles_all evs s : site_ok evs s → is_Some (actor s) → stuck s = false →
  Forall (λ c, broken c = false ∧ stalls c = false) (backlog s) →
  let s' := site_run (replicate (length (backlog s)) (Handles None)) s in taken s' = taken s ++ backlog s ∧ backlog s' = [].
Proof using.
  remember (backlog s) as l eqn:El. revert evs s El. induction l as [|c l IH]; intros evs s El K Ha Hs Hl; [by rewrite app_nil_r|].
  apply Forall_cons in Hl as [[Hb Hst] Hl]. destruct (handles_next evs s c l K Ha Hs) as (H1 & H2 & H3 & H4 & _); [done|].
  rewrite Hb in *. cbn [length replicate site_run foldl]. destruct (IH (evs ++ [Handles None]) (site_step (Handles None) s)) as [IH1 IH2];
    [done|by apply site_ok_step|by rewrite H2|by rewrite H3|done|]. split; [|exact IH2]. etrans; [exact IH1|]. by rewrite H1, <-app_assoc.
Qed.

(** C31: What a node that listens makes of the connections of its peers.  After any sequence of connections, rounds of the
    listener, failures of [accept] and respawns: the sessions that it has been told to open, as their server, are those of the
    accepted connections whose socket works and whose handshake succeeds, in order.  Every connection was accepted, waits or is lost;
    none is lost, and they are accepted in the order in which they came, as long as no accepted socket has failed.  The
    listener always goes on to the next connection that waits, and it takes all of them if none breaks or stalls; but if a socket
    breaks after it was accepted, the listener ends and all connections that wait are lost with it, and if a peer stays silent in the TLS
    handshake no session is opened ever after. *)
Theorem listener_serves fails bound server s0 evs :
  site_start fails bound server = Ok s0 →
  let s := site_run evs s0 in
  opened (casts s) = (λ x, (x, true)) <$> omap incoming (taken s) ∧
  connections evs ≡ₚ taken s ++ backlog s ++ lost s ∧
  (Forall (λ c, broken c = false) (taken s) → lost s = [] ∧ connections evs = taken s ++ backlog s ∧ is_Some (actor s)) ∧
  (is_Some (actor s) → stuck s = false →
     (∀ c rest, backlog s = c :: rest → let s' := site_step (Handles None) s in
        taken s' = taken s ++ [c] ∧ actor s' = (if broken c then None else actor s) ∧ stuck s' = stalls c ∧
        backlog s' = (if broken c then [] else rest) ∧ lost s' = (if broken c then lost s ++ rest else lost s)) ∧
     (Forall (λ c, broken c = false ∧ stalls c = false) (backlog s) →
        let s' := site_run (replicate (length (backlog s)) (Handles None)) s in taken s' = taken s ++ backlog s ∧ backlog s' = [])) ∧
  (stuck s = true → ∀ evs', casts (site_run evs' s) = casts s).
Proof using.
  intros H0%site_ok_start s. pose proof (site_ok_run [] evs s0 H0) as K. fold s in K. cbn [app] in K.
  split_and!; [apply K|apply K|apply K|intros Ha Hs; split|].
  - intros c rest Hb. by apply (handles_next evs).
  - intros Hl. by apply (handles_all evs).
  - intros Hs evs'. destruct (actor s) as [st|] eqn:Ea; [|destruct (sk_down _ _ K Ea); congruence]. by apply blocked_run; [rewrite Ea|].
Qed.
End site.

(** ** The port that is announced *)

Section port.
Context `{!HashSetIter ActorId} `{!HashSetIter string} (node : NodeServer) (self : Listener) (fails : BindCall → option string).

(** What the node server makes of the cast of a listener that starts *)
Definition port_changed (c : Cast) (s : NodeServerState) : NodeServerState :=
  match c with PortChanged p => (NodeServer.handle node (NodeServer.PortChanged p) s).2 | _ => s end.

Definition listener_started (s : NodeServerState) (bound : N → N) : NodeServerState :=
  match listener_pre_start self fails bound true with Ok (casts, _, _) => foldl (λ s c, port_changed c s) s casts | _ => s end.

(** Asked for a port, the system gives that one; asked for none, it chooses one. *)
Definition binds (bound : N → N) : Prop := bound 0%N ≠ 0%N ∧ ∀ p, p ≠ 0%N → bound p = p.

Abbreviation announced s := (connection_string (this_node_name s)).

Lemma announced_step bound s :
  try_calls fails (bind_calls self) = None → binds bound → announced s = connection_string_of node (l_port self) ∨ l_port self = 0%N →
  announced (listener_started s bound) = connection_string_of node (bound (l_port self)).
Proof.
  intros Hc [Hb0 Hbp] Hs. unfold listener_started, listener_pre_start. rewrite Hc.
  destruct (N.eqb_spec (bound (l_port self)) (l_port self)) as [E|E]; [|done].
  cbn. rewrite E. destruct Hs as [|H0]; [done|]. by rewrite H0 in E.
Qed.

(** However often the listener is replaced, the node gives its peers the port that the last one listens on. *)
Lemma port_announced spawned s bounds bound :
  l_port self = NodeServer.port node → try_calls fails (bind_calls self) = None → Forall binds (bounds ++ [bound]) →
  NodeServer.pre_start node spawned = Ok s →
  announced (foldl listener_started s (bounds ++ [bound])) = connection_string_of node (bound (l_port self)).
Proof.
  intros Hp Hc Hb Hs. assert (announced s = connection_string_of node (l_port self) ∨ l_port self = 0%N) as H0.
  { left. unfold NodeServer.pre_start in Hs. rewrite Hp. destruct spawned; by simplify_eq. }
  clear Hs Hp. revert s H0. induction bounds as [|b bounds IH]; intros s Hs; apply Forall_cons in Hb as [Hb1 Hb]; cbn [app foldl].
  - by apply announced_step.
  - apply IH; [done|]. destruct (decide (l_port self = 0%N)); [by right|]. left. rewrite announced_step by done. by rewrite (proj2 Hb1).
Qed.
End port.

(** ** Examples *)

Definition sample_socket (h : Handshake) : Socket :=
  mkSocket (mkStream false [] (λ _, 3) (λ _, false) (λ _, false) 0) None (inr (mkAddr [127; 0; 0; 1]%N 50000)) (inr (mkAddr [127; 0; 0; 1]%N 4697)) h.
Definition broken_socket : Socket :=
  mkSocket (mkStream false [] (λ _, 3) (λ _, false) (λ _, false) 0) (Some "invalid argument"%string) (inl "reset"%string) (inl "reset"%string) TlsNever.
Definition sample_peer : SocketAddr := mkAddr [127; 0; 0; 1]%N 50000.
Definition sample_server : NodeServerState := mkServer (Local 0) ∅ 0 (mkName "a@h" None "h:4697" 0) ∅ ∅ ∅.
Definition sample_bound (p : N) : N := if (p =? 0)%N then 4697%N else p.
Definition sample_stream : Stream := so_stream (sample_socket TlsNever).

(** A bad certificate, a failing [accept] and a good handshake; a broken socket with a good connection behind it, and after the
    respawn another good one, and a silent peer *)
Definition sample_events : list SiteEvent :=
  [Connects (sample_socket (TlsErr "bad certificate"), sample_peer); Connects (sample_socket (TlsOk sample_stream), sample_peer);
   Handles None; Handles (Some "too many files"%string); Handles None;
   Connects (broken_socket, sample_peer); Connects (sample_socket (TlsOk sample_stream), sample_peer); Handles None;
   Respawns (Local 1) (λ _, None) sample_bound; Connects (sample_socket (TlsOk sample_stream), sample_peer);
   Connects (sample_socket TlsNever, sample_peer); Handles None; Handles None].

#[local] Instance some_order : HashSetIter string := elements_iter string.

Definition sample_listener : Listener := mkListener 4697 TlsMode None.
Definition sample_site : Site := mkSite (Some (Some 4697%N)) 1 false [] [] sample_server true [] [].

Lemma listener_serves_witness :
  let s := site_run sample_listener sample_events sample_site in
  opened (casts s) = (λ x, (x, true)) <$> omap (incoming sample_listener) (taken s) ∧ length (opened (casts s)) = 2 ∧ length (lost s) = 1 ∧
  ∀ evs', casts (site_run sample_listener evs' s) = casts s.
Proof.
  destruct (listener_serves sample_listener (λ _, None) sample_bound sample_server sample_site sample_events) as (H1 & _ & _ & _ & H5).
  - vm_compute. reflexivity.
  - split; [exact H1|]. split; [vm_compute; reflexivity|]. split; [vm_compute; reflexivity|]. apply H5. vm_compute. reflexivity.
Defined.
