(* ===== verification/RemoteActor.v ===== *)
(** Remote actors: the local stand-in of an actor on another node (src/ractor_cluster/src/remote_actor.rs).

    A remote actor numbers the calls it forwards and keeps the reply port of each until the answer comes
    back.  Ports whose caller gave up are reclaimed a few at a time, whenever a message is handled.  What
    the environment decides is part of each step: whether the session accepted the message, and which
    ports are closed at that moment. *)

From S2P Require Import Prelude Job Bytes Serialization.
From Stdlib Require Import Sorted.
From stdpp Require Import sorting.

Definition PENDING_REQUEST_CLEANUP_BUDGET : nat := 16.

(** [node.proto]: the messages a remote actor sends *)
Inductive NodeMessage :=
| NodeCast (to : N) (what : list byte) (variant : string) (metadata : option (list byte))
| NodeCall (to : N) (what : list byte) (tag : N) (timeout_ms : option N) (variant : string)
    (metadata : option (list byte))
| NodeReply (to : N) (tag : N) (what : list byte).

(** [RemoteActorState]; the owning session is the target of every [SendMessage] *)
Record RemoteActorState := mkRemote {
  message_tag : N;
  pending_requests : gmap N nat;
  pending_request_cleanup_cursor : option N
}.

Definition remote_new : RemoteActorState := mkRemote 0 ∅ None.

Definition get_and_increment_mtag (s : RemoteActorState) : N * RemoteActorState :=
  let t := ((message_tag s + 1) mod 2 ^ 64)%N in
  (t, mkRemote t (pending_requests s) (pending_request_cleanup_cursor s)).

(** The keys of a [BTreeMap], in the order of its iterators *)
Definition keys (m : gmap N nat) : list N := merge_sort N.le (elements (dom m)).

(** The tags inspected by one clean-up *)
Definition cleanup_tags (s : RemoteActorState) : list N :=
  let tags := keys (pending_requests s) in
  let cleanup_count := min (size (pending_requests s)) PENDING_REQUEST_CLEANUP_BUDGET in
  let first :=
    match pending_request_cleanup_cursor s with
    | Some cursor => take cleanup_count (filter (λ t, (cursor < t)%N) tags)
    | None => []
    end in
  first ++ take (cleanup_count - length first) tags.

Definition remove_if_closed (is_closed : nat → bool) (m : gmap N nat) (tag : N) : gmap N nat :=
  match m !! tag with
  | Some port => if is_closed port then delete tag m else m
  | None => m
  end.

Definition cleanup_closed_pending_requests (is_closed : nat → bool) (s : RemoteActorState) : RemoteActorState :=
  if bool_decide (min (size (pending_requests s)) PENDING_REQUEST_CLEANUP_BUDGET = 0) then
    mkRemote (message_tag s) (pending_requests s) None
  else
    let tags := cleanup_tags s in
    let pending := foldl (remove_if_closed is_closed) (pending_requests s) tags in
    mkRemote (message_tag s) pending (if bool_decide (pending = ∅) then None else last tags).

Definition remove_pending_request (tag : N) (s : RemoteActorState) : option nat * RemoteActorState :=
  let pending := delete tag (pending_requests s) in
  (pending_requests s !! tag,
   mkRemote (message_tag s) pending
     (if bool_decide (pending = ∅) then None else pending_request_cleanup_cursor s)).

(** What a step does: a message handed to the session, or the answer sent to a port *)
Inductive RemoteEffect := SendMessage (m : NodeMessage) | PortSend (port : nat) (data : list byte).

Section remote.
(** The actor's pid on its own node, and [RpcReplyPort::get_timeout] *)
Variable to : N.
Variable get_timeout : nat → option Duration.

(** [handle_serialized].  [cast_ok]: the session took the message. *)
Definition handle_serialized (is_closed : nat → bool) (cast_ok : bool) (message : SerializedMessage)
    (s : RemoteActorState) : list RemoteEffect * RemoteActorState :=
  let s := cleanup_closed_pending_requests is_closed s in
  match message with
  | SCall variant args reply metadata =>
      let '(tag, s) := get_and_increment_mtag s in
      let node_msg := NodeCall to args tag ((λ t, as_u64 (t / 1000000)) <$> get_timeout reply) variant metadata in
      let s := mkRemote (message_tag s) (<[tag := reply]> (pending_requests s)) (pending_request_cleanup_cursor s) in
      if cast_ok then ([SendMessage node_msg], s)
      else ([], (remove_pending_request tag s).2)
  | SCast variant args metadata =>
      (if cast_ok then [SendMessage (NodeCast to args variant metadata)] else [], s)
  | SCallReply message_tag reply_data =>
      let '(port, s) := remove_pending_request message_tag s in
      (match port with Some port => [PortSend port reply_data] | None => [] end, s)
  end.

(** A step with what the environment decides *)
Record remote_op := mkOp { op_closed : nat → bool; op_cast_ok : bool; op_message : SerializedMessage }.

Definition remote_step (s : RemoteActorState) (o : remote_op) : list RemoteEffect * RemoteActorState :=
  handle_serialized (op_closed o) (op_cast_ok o) (op_message o) s.

Definition run_remote (s : RemoteActorState) (ops : list remote_op) : RemoteActorState :=
  foldl (λ s o, (remote_step s o).2) s ops.

(** ** The order of the tags *)

Lemma elem_of_keys m k : k ∈ keys m ↔ is_Some (m !! k).
Proof. unfold keys. by rewrite merge_sort_Permutation, elem_of_elements, elem_of_dom. Qed.

Lemma keys_once m : NoDup (keys m).
Proof. unfold keys. rewrite merge_sort_Permutation. apply NoDup_elements. Qed.

Lemma keys_sorted m : StronglySorted N.le (keys m).
Proof. apply (StronglySorted_merge_sort N.le). Qed.

Lemma length_keys m : length (keys m) = size m.
Proof. unfold keys. rewrite merge_sort_Permutation. apply (size_dom m). Qed.

Lemma keys_unique m l : NoDup l → StronglySorted N.le l → (∀ k, k ∈ l ↔ is_Some (m !! k)) → keys m = l.
Proof.
  intros Hnd Hs Hl. apply (StronglySorted_unique N.le); [apply keys_sorted|done|].
  apply NoDup_Permutation; [apply keys_once|done|]. intros k. by rewrite elem_of_keys, Hl.
Qed.

Lemma filter_sorted (P : N → Prop) `{!∀ x, Decision (P x)} l : StronglySorted N.le l → StronglySorted N.le (filter P l).
Proof.
  induction 1 as [|x l Hs IH Hx]; [constructor|]. destruct (decide (P x)).
  - rewrite filter_cons_True by done. constructor; [done|]. rewrite Forall_forall in *.
    intros y [_ Hy]%list_elem_of_filter. auto.
  - by rewrite filter_cons_False.
Qed.

Lemma keys_delete m t : keys (delete t m) = filter (λ k, k ≠ t) (keys m).
Proof.
  apply keys_unique; [apply NoDup_filter, keys_once|apply filter_sorted, keys_sorted|].
  intros k. rewrite list_elem_of_filter, elem_of_keys, lookup_delete_is_Some. naive_solver.
Qed.

Lemma keys_insert_last m t p : (∀ k, is_Some (m !! k) → k < t)%N → keys (<[t := p]> m) = keys m ++ [t].
Proof.
  intros Ht. assert (m !! t = None) as Hn.
  { destruct (m !! t) eqn:E; [|done]. specialize (Ht t). rewrite E in Ht. assert (t < t)%N by eauto. lia. }
  apply keys_unique.
  - apply NoDup_app. split_and!; [apply keys_once| |apply NoDup_singleton].
    intros k Hk ->%list_elem_of_singleton. apply elem_of_keys in Hk. rewrite Hn in Hk. by destruct Hk.
  - apply StronglySorted_app_2; [|apply keys_sorted|repeat constructor].
    intros x y Hx%elem_of_keys%Ht ->%list_elem_of_singleton. lia.
  - intros k. rewrite elem_of_app, elem_of_keys, list_elem_of_singleton, lookup_insert_is_Some'. naive_solver.
Qed.

(** The tags in the order in which the clean-up goes round, from the cursor *)
Definition rotation (cursor : option N) (l : list N) : list N :=
  match cursor with
  | Some c => filter (λ t, (c < t)%N) l ++ filter (λ t, (t ≤ c)%N) l
  | None => l
  end.

Lemma sorted_split c l : StronglySorted N.le l → l = filter (λ t, (t ≤ c)%N) l ++ filter (λ t, (c < t)%N) l.
Proof.
  induction 1 as [|x l Hs IH Hx]; [done|]. destruct (decide (x ≤ c)%N) as [Hc|Hc].
  - rewrite (filter_cons_True (λ t, (t ≤ c)%N)), (filter_cons_False (λ t, (c < t)%N)) by lia. cbn. by rewrite <-IH.
  - rewrite filter_cons_False, filter_cons_True by lia. rewrite Forall_forall in Hx.
    assert (filter (λ t, (t ≤ c)%N) l = []) as He.
    { destruct (filter _ l) as [|y k] eqn:E; [done|]. assert (y ∈ y :: k) as Hy by (by left).
      rewrite <-E in Hy. apply list_elem_of_filter in Hy as [Hyc Hy]. apply Hx in Hy. lia. }
    rewrite He in *. cbn in *. by rewrite <-IH.
Qed.

Lemma rotation_perm cursor l : StronglySorted N.le l → rotation cursor l ≡ₚ l.
Proof. intros Hs. destruct cursor as [c|]; [|done]. cbn. rewrite (sorted_split c l Hs) at 3. apply Permutation_app_comm. Qed.

Lemma cleanup_tags_rotation s :
  cleanup_tags s = take (min (size (pending_requests s)) PENDING_REQUEST_CLEANUP_BUDGET)
    (rotation (pending_request_cleanup_cursor s) (keys (pending_requests s))).
Proof.
  unfold cleanup_tags. set (l := keys _). assert (length l = size (pending_requests s)) as <- by apply length_keys.
  destruct (pending_request_cleanup_cursor s) as [c|]; cbn; [|by rewrite Nat.sub_0_r].
  set (n := min (length l) _). pose proof (sorted_split c l (keys_sorted _)) as Hl.
  set (a := filter (λ t, (c < t)%N) l) in *. set (b := filter (λ t, (t ≤ c)%N) l) in *.
  rewrite take_app, length_take. f_equal. assert (length l = length b + length a) as Hlen by (rewrite Hl, length_app; lia).
  destruct (decide (n ≤ length a)).
  - by replace (n - min n (length a)) with 0 by lia; replace (n - length a) with 0 by lia.
  - replace (n - min n (length a)) with (n - length a) by lia. rewrite Hl. apply take_app_le. lia.
Qed.

(** A tag cuts the sorted list in the smaller and the larger ones. *)
Lemma sorted_cut x c y :
  StronglySorted N.le (x ++ c :: y) → NoDup (x ++ c :: y) →
  filter (λ t, (c < t)%N) (x ++ c :: y) = y ∧ filter (λ t, (t ≤ c)%N) (x ++ c :: y) = x ++ [c].
Proof.
  intros Hs Hnd. assert (Hx : ∀ k, k ∈ x → (k ≤ c)%N).
  { intros k Hk. eapply (StronglySorted_app_1_elem_of N.le); [exact Hs|done|by left]. }
  assert (Hy : ∀ k, k ∈ y → (c < k)%N).
  { intros k Hk. apply NoDup_app in Hnd as (_ & _ & [Hc _]%NoDup_cons).
    apply StronglySorted_app_1_r in Hs. apply StronglySorted_inv in Hs as [_ Hs]. rewrite Forall_forall in Hs.
    specialize (Hs k Hk). assert (c ≠ k) by congruence. lia. }
  rewrite !filter_app. split.
  - rewrite filter_none by (intros k Hk%Hx; lia). rewrite filter_cons_False by lia. cbn. by apply filter_all.
  - rewrite filter_all by done. rewrite filter_cons_True by lia. f_equal. f_equal.
    apply filter_none. intros k Hk%Hy. lia.
Qed.

(** Going round: the next round starts after the last tag of this one. *)
Lemma rotation_next cursor l pre c post :
  StronglySorted N.le l → NoDup l → rotation cursor l = pre ++ c :: post →
  rotation (Some c) l = post ++ pre ++ [c].
Proof.
  intros Hs Hnd Hr. assert (∃ x y, l = x ++ c :: y ∧ y ++ x ++ [c] = post ++ pre ++ [c]) as (x & y & Hl & Hxy).
  { destruct cursor as [c0|]; cbn in Hr; [|by exists pre, post]. rewrite (sorted_split c0 l Hs).
    set (b := filter (λ t, (t ≤ c0)%N) l) in *. set (a := filter (λ t, (c0 < t)%N) l) in *.
    apply app_eq_inv in Hr as [(k & Ha & Hk)|(k & Hp & Hb)].
    - destruct k as [|c' k]; cbn in Hk.
      + exists [], (post ++ a). rewrite <-Hk. rewrite app_nil_r in Ha. split; [done|]. by rewrite Ha, <-app_assoc.
      + injection Hk as <- ->. exists (b ++ pre), k. by rewrite Ha, <-!app_assoc.
    - exists k, (post ++ a). rewrite Hb, Hp, <-!app_assoc. done. }
  subst l. destruct (sorted_cut x c y Hs Hnd) as [Hgt Hle]. cbn. by rewrite Hgt, Hle.
Qed.

Lemma rotation_filter (P : N → Prop) `{!∀ x, Decision (P x)} cursor l :
  rotation cursor (filter P l) = filter P (rotation cursor l).
Proof.
  destruct cursor as [c|]; [|done]. cbn. rewrite filter_app, !list_filter_filter.
  f_equal; apply list_filter_iff; tauto.
Qed.

Lemma rotation_snoc cursor l t :
  (∀ c, cursor = Some c → c < t)%N →
  ∃ a b, rotation cursor l = a ++ b ∧ rotation cursor (l ++ [t]) = a ++ [t] ++ b.
Proof.
  intros Hc. destruct cursor as [c|]; cbn; [|exists l, []; by rewrite !app_nil_r].
  specialize (Hc c eq_refl). exists (filter (λ t, (c < t)%N) l), (filter (λ t, (t ≤ c)%N) l).
  rewrite !filter_app, (filter_cons_True (λ t, (c < t)%N)), (filter_cons_False (λ t, (t ≤ c)%N)) by lia.
  split; [done|]. cbn. by rewrite app_nil_r, <-app_assoc.
Qed.

(** ** One clean-up *)

Lemma removed_lookup is_closed m tags k :
  foldl (remove_if_closed is_closed) m tags !! k =
  match m !! k with
  | Some p => if bool_decide (k ∈ tags) && is_closed p then None else Some p
  | None => None
  end.
Proof.
  revert m. induction tags as [|t tags IH]; intros m; cbn [foldl]; [by destruct (m !! k)|].
  rewrite IH. unfold remove_if_closed. destruct (m !! t) as [q|] eqn:Et.
  - destruct (is_closed q) eqn:Eq; destruct (decide (t = k)) as [->|Hne].
    + rewrite lookup_delete_eq, Et. rewrite bool_decide_eq_true_2 by (by left). by rewrite Eq.
    + rewrite lookup_delete_ne by done. destruct (m !! k) as [p|]; [|done].
      by rewrite (bool_decide_ext (k ∈ t :: tags) (k ∈ tags)) by (rewrite elem_of_cons; naive_solver).
    + rewrite Et, Eq. by rewrite !andb_false_r.
    + destruct (m !! k) as [p|]; [|done].
      by rewrite (bool_decide_ext (k ∈ t :: tags) (k ∈ tags)) by (rewrite elem_of_cons; naive_solver).
  - destruct (decide (t = k)) as [->|Hne]; [by rewrite Et|]. destruct (m !! k) as [p|]; [|done].
    by rewrite (bool_decide_ext (k ∈ t :: tags) (k ∈ tags)) by (rewrite elem_of_cons; naive_solver).
Qed.

Lemma cleanup_lookup is_closed s k :
  pending_requests (cleanup_closed_pending_requests is_closed s) !! k =
  match pending_requests s !! k with
  | Some p => if bool_decide (k ∈ cleanup_tags s) && is_closed p then None else Some p
  | None => None
  end.
Proof.
  unfold cleanup_closed_pending_requests. case_bool_decide as Hn; cbn [pending_requests].
  - unfold PENDING_REQUEST_CLEANUP_BUDGET in Hn. assert (size (pending_requests s) = 0) as ->%map_size_empty_inv by lia.
    by rewrite lookup_empty.
  - apply removed_lookup.
Qed.

Lemma keys_sub m m' : (∀ k, is_Some (m' !! k) → is_Some (m !! k)) → keys m' = filter (λ k, is_Some (m' !! k)) (keys m).
Proof.
  intros Hsub. apply keys_unique; [apply NoDup_filter, keys_once|apply filter_sorted, keys_sorted|].
  intros k. rewrite list_elem_of_filter, elem_of_keys. naive_solver.
Qed.

(** The tags in the order of the rounds to come *)
Definition queue_of s : list N := rotation (pending_request_cleanup_cursor s) (keys (pending_requests s)).

Lemma queue_once s : NoDup (queue_of s).
Proof. unfold queue_of. rewrite rotation_perm by apply keys_sorted. apply keys_once. Qed.

Lemma elem_of_queue s k : k ∈ queue_of s ↔ is_Some (pending_requests s !! k).
Proof. unfold queue_of. rewrite rotation_perm by apply keys_sorted. apply elem_of_keys. Qed.

Lemma length_queue s : length (queue_of s) = size (pending_requests s).
Proof. unfold queue_of. rewrite rotation_perm by apply keys_sorted. apply length_keys. Qed.

(** A request with at least sixteen before it moves up by sixteen; with fewer, it is looked at. *)
Lemma cleanup_progress is_closed s t p pre post :
  pending_requests s !! t = Some p → is_closed p = true → queue_of s = pre ++ t :: post →
  let s' := cleanup_closed_pending_requests is_closed s in
  if length pre <? 16 then pending_requests s' !! t = None
  else pending_requests s' !! t = Some p ∧ ∃ pre' post', queue_of s' = pre' ++ t :: post' ∧ length pre' + 16 ≤ length pre.
Proof.
  intros Ht Hp Hq s'. pose proof (length_queue s) as Hlen. rewrite Hq, length_app in Hlen. simpl in Hlen.
  pose proof (queue_once s) as Hnd. rewrite Hq in Hnd. unfold s'. rewrite cleanup_lookup, Ht, Hp, andb_true_r.
  assert (Htags : cleanup_tags s = take (min (size (pending_requests s)) 16) (pre ++ t :: post)).
  { rewrite cleanup_tags_rotation. by fold (queue_of s); rewrite Hq. }
  destruct (Nat.ltb_spec (length pre) 16) as [Hlt|Hge].
  - rewrite bool_decide_eq_true_2; [done|]. rewrite Htags, take_app_ge by lia. apply elem_of_app. right.
    destruct (_ - length pre) as [|k] eqn:E; [lia|]. by left.
  - replace (min _ 16) with 16 in Htags by lia. rewrite take_app_le in Htags by lia.
    assert (¬ t ∈ cleanup_tags s) as Hno.
    { rewrite Htags. intros Hin. apply NoDup_app in Hnd as (_ & Hd & _). apply (Hd t); [|by left].
      rewrite <-(take_drop 16 pre). apply elem_of_app. by left. }
    rewrite bool_decide_eq_false_2 by done. split; [done|].
    destruct (lookup_lt_is_Some_2 pre 15) as [c Hc]; [lia|].
    assert (last (cleanup_tags s) = Some c) as Hlast by (by rewrite Htags, (take_S_r _ _ c), last_snoc).
    assert (rotation (Some c) (keys (pending_requests s)) = (drop 16 pre ++ t :: post) ++ take 15 pre ++ [c]) as Hrot.
    { apply (rotation_next (pending_request_cleanup_cursor s)); [apply keys_sorted|apply keys_once|]. fold (queue_of s). rewrite Hq.
      rewrite <-(take_drop_middle pre 15 c Hc) at 1. by rewrite <-app_assoc. }
    assert (pending_requests s' !! t = Some p) as Ht'.
    { unfold s'. by rewrite cleanup_lookup, Ht, bool_decide_eq_false_2. }
    assert (pending_request_cleanup_cursor s' = Some c) as Hcur.
    { unfold s' in *. unfold cleanup_closed_pending_requests in *. unfold PENDING_REQUEST_CLEANUP_BUDGET in *.
      rewrite bool_decide_eq_false_2 in * by lia. cbn in *. rewrite bool_decide_eq_false_2; [done|].
      intros E. by rewrite E, lookup_empty in Ht'. }
    fold s'. exists (filter (λ k, is_Some (pending_requests s' !! k)) (drop 16 pre)). eexists. split.
    + unfold queue_of. rewrite Hcur, (keys_sub (pending_requests s) (pending_requests s')).
      * rewrite rotation_filter, Hrot, <-app_assoc, filter_app. f_equal. cbn [app].
        rewrite filter_cons_True by done. done.
      * intros k. unfold s'. rewrite cleanup_lookup. by destruct (pending_requests s !! k).
    + pose proof (length_filter (λ k, is_Some (pending_requests s' !! k)) (drop 16 pre)) as Hf.
      rewrite length_drop in Hf. lia.
Qed.

(** ** Steps *)

Record remote_inv s : Prop := {
  ri_tags k : is_Some (pending_requests s !! k) → (k ≤ message_tag s)%N;
  ri_cursor c : pending_request_cleanup_cursor s = Some c → (c ≤ message_tag s)%N
}.

Lemma cleanup_inv is_closed s : remote_inv s → remote_inv (cleanup_closed_pending_requests is_closed s).
Proof.
  intros Hs. split.
  - intros k. rewrite cleanup_lookup. replace (message_tag _) with (message_tag s);
      [|unfold cleanup_closed_pending_requests; by case_bool_decide].
    destruct (pending_requests s !! k) eqn:E; [|by intros []]. intros _. apply (ri_tags s Hs). by rewrite E.
  - unfold cleanup_closed_pending_requests. case_bool_decide; cbn; [done|]. case_bool_decide; [done|].
    intros c Hc. apply last_Some_elem_of in Hc. rewrite cleanup_tags_rotation in Hc.
    apply (ri_tags s Hs), elem_of_queue. rewrite <-(take_drop (min (size (pending_requests s)) PENDING_REQUEST_CLEANUP_BUDGET)).
    apply elem_of_app. by left.
Qed.

Lemma cleanup_tag is_closed s : message_tag (cleanup_closed_pending_requests is_closed s) = message_tag s.
Proof. unfold cleanup_closed_pending_requests. by case_bool_decide. Qed.

(** What a step does after the clean-up *)
Definition room s : Prop := (message_tag s + 1 < 2 ^ 64)%N.

Lemma step_tag s o : room s → (message_tag s ≤ message_tag (remote_step s o).2 ≤ message_tag s + 1)%N.
Proof.
  intros Hr. unfold remote_step, handle_serialized. destruct (op_message o); cbn.
  - rewrite cleanup_tag. lia.
  - rewrite cleanup_tag, N.mod_small by done. destruct (op_cast_ok o); cbn; lia.
  - rewrite cleanup_tag. lia.
Qed.

Lemma remove_inv k s : remote_inv s → remote_inv (remove_pending_request k s).2.
Proof.
  intros Hs. split; cbn.
  - intros j [_ Hj]%lookup_delete_is_Some. by apply (ri_tags s Hs).
  - intros c. case_bool_decide; [done|]. apply (ri_cursor s Hs).
Qed.

Lemma insert_inv p s :
  remote_inv s → room s →
  remote_inv (mkRemote (message_tag s + 1) (<[(message_tag s + 1)%N := p]> (pending_requests s))
    (pending_request_cleanup_cursor s)).
Proof.
  intros Hs Hr. split; cbn.
  - intros k [->|[_ Hk%(ri_tags s Hs)]]%lookup_insert_is_Some; lia.
  - intros c Hc%(ri_cursor s Hs). lia.
Qed.

Lemma step_inv s o : remote_inv s → room s → remote_inv (remote_step s o).2.
Proof.
  intros Hs Hr. unfold remote_step, handle_serialized. pose proof (cleanup_inv (op_closed o) s Hs) as Hs1.
  destruct (op_message o); cbn [snd].
  - done.
  - cbn. rewrite cleanup_tag, N.mod_small by done.
    assert (room (cleanup_closed_pending_requests (op_closed o) s)) as Hr1 by (unfold room; by rewrite cleanup_tag).
    pose proof (insert_inv reply _ Hs1 Hr1) as Hi. rewrite cleanup_tag in Hi.
    destruct (op_cast_ok o); cbn [snd]; [done|]. exact (remove_inv (message_tag s + 1) _ Hi).
  - by apply remove_inv.
Qed.

Lemma remove_other_queue k t pre post s :
  queue_of s = pre ++ t :: post → k ≠ t →
  ∃ pre' post', queue_of (remove_pending_request k s).2 = pre' ++ t :: post' ∧ length pre' ≤ length pre.
Proof.
  intros Hq Hk. exists (filter (λ j, j ≠ k) pre), (filter (λ j, j ≠ k) post). split; [|apply length_filter].
  assert (delete k (pending_requests s) ≠ ∅) as Hne.
  { intros E. assert (is_Some (pending_requests s !! t)) as Ht by (apply elem_of_queue; rewrite Hq; set_solver).
    by rewrite <-(lookup_delete_ne _ k), E, lookup_empty in Ht; [destruct Ht|]. }
  unfold queue_of. cbn. rewrite bool_decide_eq_false_2 by done. rewrite keys_delete, rotation_filter.
  fold (queue_of s). by rewrite Hq, filter_app, filter_cons_True.
Qed.

Lemma insert_queue t p pre post s :
  remote_inv s → queue_of s = pre ++ t :: post →
  ∃ pre' post', queue_of (mkRemote (message_tag s + 1) (<[(message_tag s + 1)%N := p]> (pending_requests s))
      (pending_request_cleanup_cursor s)) = pre' ++ t :: post' ∧ length pre' ≤ length pre + 1.
Proof.
  intros Hs Hq. unfold queue_of. cbn.
  rewrite keys_insert_last by (intros k Hk%(ri_tags s Hs); lia).
  destruct (rotation_snoc (pending_request_cleanup_cursor s) (keys (pending_requests s)) (message_tag s + 1))
    as (a & b & Hab & ->); [intros c Hc%(ri_cursor s Hs); lia|].
  unfold queue_of in Hq. rewrite Hab in Hq. apply app_eq_inv in Hq as [(k & Ha & Hk)|(k & Hp & Hb)].
  - destruct k as [|t' k]; cbn in Hk.
    + rewrite <-Hk. exists (a ++ [(message_tag s + 1)%N]), post. rewrite <-!app_assoc. split; [done|].
      rewrite app_nil_r in Ha. subst a. rewrite length_app. simpl. lia.
    + injection Hk as <- ->. exists pre, (k ++ [(message_tag s + 1)%N] ++ b). subst a.
      split; [by rewrite <-!app_assoc|lia].
  - exists (a ++ [(message_tag s + 1)%N] ++ k), post. rewrite Hb, Hp, <-!app_assoc. split; [done|].
    rewrite !length_app. simpl. lia.
Qed.

(** The call step, with the number of the call written out *)
Lemma step_call s o variant args p metadata :
  room s → op_message o = SCall variant args p metadata →
  let s1 := cleanup_closed_pending_requests (op_closed o) s in let tag := (message_tag s + 1)%N in
  let s2 := mkRemote tag (<[tag := p]> (pending_requests s1)) (pending_request_cleanup_cursor s1) in
  (remote_step s o).2 = if op_cast_ok o then s2 else (remove_pending_request tag s2).2.
Proof.
  intros Hr Hm. unfold remote_step, handle_serialized. rewrite Hm. cbn. rewrite cleanup_tag, N.mod_small by done.
  by destruct (op_cast_ok o).
Qed.

(** A step that sees the port of a pending call closed *)
Lemma step_progress s o t p pre post :
  remote_inv s → room s → pending_requests s !! t = Some p → op_closed o p = true → queue_of s = pre ++ t :: post →
  pending_requests (remote_step s o).2 !! t = None ∨
  pending_requests (remote_step s o).2 !! t = Some p ∧ 16 ≤ length pre ∧
  ∃ pre' post', queue_of (remote_step s o).2 = pre' ++ t :: post' ∧ length pre' + 15 ≤ length pre.
Proof.
  intros Hs Hr Ht Hp Hq. pose proof (cleanup_progress (op_closed o) s t p pre post Ht Hp Hq) as Hc. cbn zeta in Hc.
  pose proof (cleanup_inv (op_closed o) s Hs) as Hs1. set (s1 := cleanup_closed_pending_requests (op_closed o) s) in *.
  assert (message_tag s1 = message_tag s) as Htag by apply cleanup_tag.
  assert (t ≤ message_tag s)%N as Hle by (apply (ri_tags s Hs); by rewrite Ht).
  destruct (op_message o) as [v a md|v a r md|u d] eqn:Em.
  - assert ((remote_step s o).2 = s1) as -> by (unfold remote_step, handle_serialized; by rewrite Em).
    destruct (Nat.ltb_spec (length pre) 16); [by left|]. right. destruct Hc as (Ht1 & pre' & post' & Hq' & Hl).
    split_and!; [done|done|]. exists pre', post'. split; [done|lia].
  - rewrite (step_call s o v a r md Hr Em). fold s1. cbn zeta.
    destruct (Nat.ltb_spec (length pre) 16).
    { left. destruct (op_cast_ok o); cbn; [by rewrite lookup_insert_ne by lia|].
      by rewrite lookup_delete_ne, lookup_insert_ne by lia. }
    destruct Hc as (Ht1 & pre1 & post1 & Hq1 & Hl1). right.
    destruct (insert_queue t r pre1 post1 s1 Hs1 Hq1) as (pre2 & post2 & Hq2 & Hl2). rewrite Htag in Hq2.
    destruct (op_cast_ok o).
    + cbn. rewrite lookup_insert_ne by lia. split_and!; [done|done|]. exists pre2, post2. split; [done|lia].
    + cbn. rewrite lookup_delete_ne, lookup_insert_ne by lia. split_and!; [done|done|].
      destruct (remove_other_queue (message_tag s + 1) t _ _ _ Hq2) as (pre3 & post3 & Hq3 & Hl3); [lia|].
      exists pre3, post3. split; [exact Hq3|lia].
  - assert ((remote_step s o).2 = (remove_pending_request u s1).2) as ->
      by (unfold remote_step, handle_serialized; by rewrite Em).
    destruct (decide (u = t)) as [->|Hu]; [left; cbn; by rewrite lookup_delete_eq|].
    destruct (Nat.ltb_spec (length pre) 16); [left; cbn; by rewrite lookup_delete_ne|]. right.
    destruct Hc as (Ht1 & pre1 & post1 & Hq1 & Hl1).
    destruct (remove_other_queue u t _ _ _ Hq1 Hu) as (pre2 & post2 & Hq2 & Hl2).
    split_and!; [cbn; by rewrite lookup_delete_ne|done|]. exists pre2, post2. split; [done|lia].
Qed.

(** A number is not used again. *)
Lemma step_gone s o t :
  room s → (t ≤ message_tag s)%N → pending_requests s !! t = None → pending_requests (remote_step s o).2 !! t = None.
Proof.
  intros Hr Hle Ht.
  assert (pending_requests (cleanup_closed_pending_requests (op_closed o) s) !! t = None) as Ht1.
  { by rewrite cleanup_lookup, Ht. }
  destruct (op_message o) as [v a md|v a r md|u d] eqn:Em.
  - unfold remote_step, handle_serialized. by rewrite Em.
  - rewrite (step_call s o v a r md Hr Em). cbn zeta.
    destruct (op_cast_ok o); cbn; [by rewrite lookup_insert_ne by lia|].
    by rewrite lookup_delete_ne, lookup_insert_ne by lia.
  - unfold remote_step, handle_serialized. rewrite Em. cbn. destruct (decide (u = t)) as [->|];
      [by rewrite lookup_delete_eq|by rewrite lookup_delete_ne].
Qed.

Lemma run_gone s ops t :
  (message_tag s + N.of_nat (length ops) < 2 ^ 64)%N → (t ≤ message_tag s)%N →
  pending_requests s !! t = None → pending_requests (run_remote s ops) !! t = None.
Proof.
  revert s. induction ops as [|o ops IH]; intros s Hn Hle Ht; [done|]. simpl in Hn.
  assert (room s) as Hr by (unfold room; lia). pose proof (step_tag s o Hr). cbn. apply IH; [lia|lia|].
  by apply step_gone.
Qed.

Lemma run_remote_inv s ops :
  (message_tag s + N.of_nat (length ops) < 2 ^ 64)%N → remote_inv s →
  remote_inv (run_remote s ops) ∧ (message_tag (run_remote s ops) ≤ message_tag s + N.of_nat (length ops))%N.
Proof.
  revert s. induction ops as [|o ops IH]; intros s Hn Hs; [split; [done|cbn; lia]|]. simpl in Hn.
  assert (room s) as Hr by (unfold room; lia). pose proof (step_tag s o Hr).
  destruct (IH (remote_step s o).2) as [H1 H2]; [lia|by apply step_inv|].
  change (run_remote s (o :: ops)) with (run_remote (remote_step s o).2 ops). split; [done|]. simpl length. lia.
Qed.

Lemma remote_new_inv : remote_inv remote_new.
Proof. split; cbn; [|done]. intros k [? Hk]. by rewrite lookup_empty in Hk. Qed.

Lemma run_reclaims s ops t p pre post :
  remote_inv s → (message_tag s + N.of_nat (length ops) < 2 ^ 64)%N →
  pending_requests s !! t = Some p → queue_of s = pre ++ t :: post →
  (∀ o, o ∈ ops → op_closed o p = true) → length pre < 15 * length ops →
  pending_requests (run_remote s ops) !! t = None.
Proof.
  revert s pre post. induction ops as [|o ops IH]; intros s pre post Hs Hn Ht Hq Hcl Hl.
  { simpl in Hl. lia. }
  simpl in Hn. assert (room s) as Hr by (unfold room; lia). pose proof (step_tag s o Hr) as Htag.
  change (run_remote s (o :: ops)) with (run_remote (remote_step s o).2 ops).
  destruct (step_progress s o t p pre post Hs Hr Ht (Hcl o ltac:(by left)) Hq)
    as [Hgone|(Ht' & Hge & pre' & post' & Hq' & Hl')].
  - apply run_gone; [lia| |done]. pose proof (ri_tags s Hs t) as Hle. rewrite Ht in Hle. specialize (Hle ltac:(done)). lia.
  - apply (IH _ pre' post'); [by apply step_inv|lia|done|done|intros o' Ho'; apply Hcl; by right|]. simpl in Hl. lia.
Qed.

Lemma run_keeps s ops t p :
  (message_tag s + N.of_nat (length ops) < 2 ^ 64)%N → (t ≤ message_tag s)%N → pending_requests s !! t = Some p →
  (∀ o d, o ∈ ops → op_closed o p = false ∧ op_message o ≠ SCallReply t d) →
  pending_requests (run_remote s ops) !! t = Some p.
Proof.
  revert s. induction ops as [|o ops IH]; intros s Hn Hle Ht Hops; [done|]. simpl in Hn.
  assert (room s) as Hr by (unfold room; lia). pose proof (step_tag s o Hr) as Htag.
  change (run_remote s (o :: ops)) with (run_remote (remote_step s o).2 ops).
  apply IH; [lia|lia| |intros o' d Ho'; apply Hops; by right].
  assert (pending_requests (cleanup_closed_pending_requests (op_closed o) s) !! t = Some p) as Ht1.
  { rewrite cleanup_lookup, Ht. destruct (Hops o [] ltac:(by left)) as [-> _]. by rewrite andb_false_r. }
  destruct (op_message o) as [v a md|v a r md|u d] eqn:Em.
  - unfold remote_step, handle_serialized. by rewrite Em.
  - rewrite (step_call s o v a r md Hr Em). cbn zeta.
    destruct (op_cast_ok o); cbn; [by rewrite lookup_insert_ne by lia|].
    by rewrite lookup_delete_ne, lookup_insert_ne by lia.
  - unfold remote_step, handle_serialized. rewrite Em. cbn. rewrite lookup_delete_ne; [done|]. intros ->.
    by destruct (Hops o d ltac:(by left)) as [_ []].
Qed.

(** C32: every call gets its own answer.  A call that the session took is forwarded with a number no other
    call ever has; whatever happens in between, as long as its caller still waits and no answer with that
    number has come, the first answer with that number is handed to the caller's port, and to nobody else;
    afterwards the number is forgotten, so a repeated answer reaches no one. *)
Theorem remote_call_answered (before mid after : list remote_op) (call reply : remote_op)
    (variant : string) (args : list byte) (p : nat) (metadata : option (list byte)) (d : list byte) :
  (N.of_nat (length (before ++ call :: mid ++ reply :: after)) < 2 ^ 64)%N →
  op_message call = SCall variant args p metadata → op_cast_ok call = true →
  let s := run_remote remote_new before in let tag := (message_tag s + 1)%N in
  op_message reply = SCallReply tag d →
  (∀ o x, o ∈ mid → op_closed o p = false ∧ op_message o ≠ SCallReply tag x) → op_closed reply p = false →
  let s1 := run_remote (remote_step s call).2 mid in
  (remote_step s call).1 =
    [SendMessage (NodeCall to args tag ((λ t, as_u64 (t / 1000000)) <$> get_timeout p) variant metadata)] ∧
  (remote_step s1 reply).1 = [PortSend p d] ∧
  pending_requests (run_remote (remote_step s1 reply).2 after) !! tag = None.
Proof.
  intros Hn Hcall Hok s tag Hreply Hmid Hcl s1. rewrite !length_app in Hn. simpl in Hn. rewrite length_app in Hn. simpl in Hn.
  destruct (run_remote_inv remote_new before) as [Hs Htag]; [cbn; lia|apply remote_new_inv|]. fold s in Hs, Htag. cbn in Htag.
  assert (room s) as Hr by (unfold room; lia). pose proof (step_tag s call Hr) as Htag1.
  assert (message_tag (remote_step s call).2 = tag ∧ pending_requests (remote_step s call).2 !! tag = Some p) as [Et Hp].
  { rewrite (step_call s call _ _ _ _ Hr Hcall), Hok. cbn. by rewrite lookup_insert_eq. }
  destruct (run_remote_inv (remote_step s call).2 mid) as [Hs1 Htag2]; [lia|by apply step_inv|]. fold s1 in Hs1, Htag2.
  assert (pending_requests s1 !! tag = Some p) as Hp1 by (apply run_keeps; [lia|lia|done|done]).
  assert (room s1) as Hr1 by (unfold room; lia). pose proof (step_tag s1 reply Hr1) as Htag3.
  assert (tag ≤ message_tag s1)%N as Hle by (apply (ri_tags s1 Hs1); by rewrite Hp1).
  split_and!.
  - unfold remote_step, handle_serialized. rewrite Hcall, Hok. cbn. by rewrite cleanup_tag, N.mod_small by done.
  - unfold remote_step, handle_serialized. rewrite Hreply. cbn. by rewrite cleanup_lookup, Hp1, Hcl, andb_false_r.
  - apply run_gone; [lia|lia|]. unfold remote_step, handle_serialized. rewrite Hreply. cbn. by rewrite lookup_delete_eq.
Qed.

(** Calls whose caller has gone are reclaimed.  From any reachable state, once the port of a pending
    call is closed it is out of the table after at most one message per fifteen pending calls, whatever
    the messages are - new calls included, each of which adds an entry. *)
Theorem remote_calls_reclaimed (before ops : list remote_op) (t : N) (p : nat) :
  (N.of_nat (length before + length ops) < 2 ^ 64)%N →
  let s := run_remote remote_new before in
  pending_requests s !! t = Some p → (∀ o, o ∈ ops → op_closed o p = true) →
  size (pending_requests s) ≤ 15 * length ops →
  pending_requests (run_remote s ops) !! t = None.
Proof.
  intros Hn s Ht Hcl Hsz. destruct (run_remote_inv remote_new before) as [Hs Htag]; [cbn; lia|apply remote_new_inv|].
  fold s in Hs, Htag. cbn in Htag.
  assert (t ∈ queue_of s) as (pre & post & Hq)%list_elem_of_split by (apply elem_of_queue; by rewrite Ht).
  apply (run_reclaims s ops t p pre post); [done|lia|done|done|done|].
  pose proof (length_queue s) as Hl. rewrite Hq, length_app in Hl. simpl in Hl. lia.
Qed.
End remote.

(** A call that is answered, and one that is given up *)
Definition sample_call (p : nat) : remote_op := mkOp (λ _, false) true (SCall "Get" [x01] p None).
Definition sample_cast (closed : nat → bool) : remote_op := mkOp closed true (SCast "Tick" [] None).
Definition sample_reply (t : N) : remote_op := mkOp (λ _, false) true (SCallReply t [x07]).

Lemma remote_call_answered_witness :
  (remote_step 5 (λ _, None) (run_remote 5 (λ _, None) remote_new [sample_call 1; sample_call 2; sample_cast (λ _, false)])
     (sample_reply 2)).1 = [PortSend 2 [x07]].
Proof.
  refine (proj1 (proj2 (remote_call_answered 5 (λ _, None) [sample_call 1] [sample_cast (λ _, false)] []
    (sample_call 2) (sample_reply 2) "Get" [x01] 2 None [x07] _ _ _ _ _ _))).
  - done.
  - reflexivity.
  - reflexivity.
  - reflexivity.
  - intros o x ->%list_elem_of_singleton. done.
  - reflexivity.
Defined.

Lemma remote_calls_reclaimed_witness :
  pending_requests (run_remote 5 (λ _, None) (run_remote 5 (λ _, None) remote_new [sample_call 1; sample_call 2])
    [sample_cast (λ p, bool_decide (p = 1))]) !! 1%N = None.
Proof.
  apply (remote_calls_reclaimed 5 (λ _, None) [sample_call 1; sample_call 2] _ 1 1).
  - done.
  - reflexivity.
  - by intros o ->%list_elem_of_singleton.
  - by vm_compute; lia.
Defined.
