(* ===== verification/Auth.v ===== *)
(** The authentication handshake of two nodes: the challenge digest (src/ractor_cluster/src/hash.rs) and the
    two state machines (src/ractor_cluster/src/node/auth.rs).

    SHA-256 is a parameter, and so is the random number a transition may draw. *)

From S2P Require Import Prelude ActorTypes NodeServer Bytes Serialization.

Definition DIGEST_BYTES : nat := 32.
Abbreviation Digest := (list byte) (only parsing).

(** [auth.proto]: [Challenge] and the alternatives of [AuthenticationMessage] *)
Record Challenge := mkChallenge {
  challenge_name : string;
  challenge_flags : option N;
  challenge_value : N;
  challenge_connection_string : string
}.

Inductive AuthMsg :=
| MName (n : NameMessage)
| MServerStatus (s : ServerStatus)
| MClientStatus (status : bool)
| MServerChallenge (c : Challenge)
| MClientChallenge (challenge : N) (digest : list byte)
| MServerAck (digest : list byte).

Inductive ServerAuthenticationProcess :=
| WaitingOnPeerName
| HavePeerName (n : NameMessage)
| WaitingOnClientStatus
| WaitingOnClientChallengeReply (challenge : N) (digest : Digest)
| ServerOk (digest : Digest)
| ServerClose.

Inductive ClientAuthenticationProcess :=
| WaitingForServerStatus
| WaitingForServerChallenge (s : ServerStatus)
| WaitingForServerChallengeAck (c : Challenge) (reply : Digest) (challenge : N) (expected : Digest)
| ClientOk
| ClientClose.

Section auth.
Variable sha256 : list byte → list byte.

Definition challenge_digest (secret : string) (challenge : N) : Digest :=
  let secret_bytes := string_bytes secret in
  let data := replicate (length secret_bytes + 4) x00 in
  sha256 (copy_at 4 secret_bytes (copy_at 0 (to_be_bytes 4 challenge) data)).

(** The data that is hashed: the challenge and then the secret *)
Lemma challenge_digest_data secret challenge :
  challenge_digest secret challenge = sha256 (to_be_bytes 4 challenge ++ string_bytes secret).
Proof.
  unfold challenge_digest. rewrite Nat.add_comm, (copy_two _ _ 4 (length (string_bytes secret))); [done| |done].
  apply length_to_be_bytes.
Qed.

Definition server_init : ServerAuthenticationProcess := WaitingOnPeerName.
Definition client_init : ClientAuthenticationProcess := WaitingForServerStatus.

(** [r]: the number drawn by [rand::rng().next_u32()] *)
Definition start_challenge (r : N) (p : ServerAuthenticationProcess) (cookie : string) : ServerAuthenticationProcess :=
  match p with
  | WaitingOnClientStatus | HavePeerName _ => WaitingOnClientChallengeReply r (challenge_digest cookie r)
  | _ => ServerClose
  end.

(** [AuthenticationMessage.msg] is optional *)
Definition server_next (r : N) (p : ServerAuthenticationProcess) (msg : option AuthMsg) (cookie : string) :
  ServerAuthenticationProcess :=
  match msg, p with
  | Some (MName name), WaitingOnPeerName => HavePeerName name
  | Some (MClientStatus status), WaitingOnClientStatus => if negb status then ServerClose else start_challenge r p cookie
  | Some (MClientChallenge challenge reply), WaitingOnClientChallengeReply _ digest =>
      if bool_decide (digest = reply) then ServerOk (challenge_digest cookie challenge) else ServerClose
  | _, _ => ServerClose
  end.

Definition client_next (r : N) (p : ClientAuthenticationProcess) (msg : option AuthMsg) (cookie : string) :
  ClientAuthenticationProcess :=
  match msg, p with
  | Some (MServerStatus status), WaitingForServerStatus => WaitingForServerChallenge status
  | Some (MServerChallenge c), WaitingForServerChallenge _ =>
      WaitingForServerChallengeAck c (challenge_digest cookie (challenge_value c)) r (challenge_digest cookie r)
  | Some (MServerAck digest), WaitingForServerChallengeAck _ _ _ expected =>
      if bool_decide (expected = digest) then ClientOk else ClientClose
  | _, _ => ClientClose
  end.
End auth.
