(* ===== verification/NodeSession.v ===== *)
(** A session between two nodes: the handshake, the messages for actors and the control messages
    (src/ractor_cluster/src/node/node_session.rs).

    The handlers are written in the state and error monad.  What a session reads from its environment are
    streams of the world: random numbers, answers of the node server, the local registries, outcomes of
    spawning and stopping actors, and the clock.  What it does to its environment is the log, in order. *)

From S2P Require Import Prelude Discard Job ActorTypes NodeServer Bytes Serialization RemoteActor Auth.

Local Open Scope Z_scope.

Definition MIN_PROTOBUF_TIMESTAMP_SECONDS : Z := -62135596800.
Definition MAX_PROTOBUF_TIMESTAMP_SECONDS : Z := 253402300799.
Definition NANOSECONDS_PER_SECOND : Z := 1000000000.

Inductive AuthenticationState :=
| AsClient (p : ClientAuthenticationProcess)
| AsServer (p : ServerAuthenticationProcess).

Definition auth_is_ok (a : AuthenticationState) : bool :=
  match a with AsClient ClientOk => true | AsServer (ServerOk _) => true | _ => false end.
Definition auth_is_close (a : AuthenticationState) : bool :=
  match a with AsClient ClientClose => true | AsServer ServerClose => true | _ => false end.

Inductive ReadyState := ReadyOpen | SyncSent | SyncReceived | Ready.
Definition ready_is_ok (r : ReadyState) : bool := match r with Ready => true | _ => false end.

(** [control.proto]; an actor is a pid and a name, a timestamp its seconds and nanoseconds *)
Record NetActor := mkNetActor { na_pid : N; na_name : option string }.
Record Timestamp := mkTimestamp { seconds : Z; nanos : Z }.

Inductive ControlMessage :=
| CSpawn (actors : list NetActor)
| CTerminate (ids : list N)
| CPing (timestamp : option Timestamp)
| CPong (timestamp : option Timestamp)
| CPgJoin (scope group : string) (actors : list NetActor)
| CPgLeave (scope group : string) (actors : list NetActor)
| CEnumerateNodeSessions (whos_asking : NameMessage)
| CNodeSessions (sessions : list NameMessage)
| CReady.

(** [meta.proto]: the alternatives of [NetworkMessage], whose contents may be absent *)
Inductive NetworkMessage :=
| NAuth (m : option AuthMsg)
| NNode (m : option NodeMessage)
| NControl (m : option ControlMessage).

(** [struct NodeSession] and the id of its actor *)
Record NodeSession := mkNodeSession {
  myself : ActorId;
  ns_node_id : N;
  ns_is_server : bool;
  ns_cookie : string;
  ns_this_node_name : NameMessage;
  ns_connection_mode : NodeConnectionMode;
  ns_max_inbound_frame_size : N;
  ns_connection_id : N
}.

(** [NodeSession::new]; [nonce] is the non-zero number drawn for an outgoing connection *)
Definition NodeSession_new (me : ActorId) (id : N) (server : bool) (cookie : string) (name : NameMessage)
    (mode : NodeConnectionMode) (nonce : N) : NodeSession :=
  mkNodeSession me id server cookie name mode DEFAULT_MAX_INBOUND_FRAME_SIZE (if server then 0%N else nonce).

(** [NodeSessionState]; the ping task is known to run or not *)
Record NodeSessionState := mkState {
  tcp : option ActorId;
  ping_task : bool;
  pong_invalid : bool;
  pong_slow : bool;
  name : option NameMessage;
  connection_id : N;
  auth : AuthenticationState;
  ready : ReadyState;
  remote_actors : gmap N ActorCell;
  advertised_local_pids : gset N
}.

(** What the session does *)
Inductive SessionEffect :=
| TcpSend (m : NetworkMessage)
| StopSelf (reason : string)
| StopTcp (reason : string)
| ServerCast (m : NodeServerMessage)
| LocalSend (to : N) (a : ActorCell) (m : SerializedMessage)
| AwaitReply (tag to : N) (timeout_ms : option N)
| RemoteReply (a : ActorCell) (tag : N) (data : list byte)
| SpawnedRemote (pid : N) (a : ActorCell)
| StopRemote (a : ActorCell) (reason : string)
| KillRemote (a : ActorCell)
| PgJoined (scope group : string) (cells : list ActorCell)
| PgLeft (scope group : string) (cells : list ActorCell)
| Connect (connection_string : string)
| MonitorPids
| MonitorScopes
| MonitorGroups
| DemonitorAll
| ReplyBool (b : bool).

(** The environment.  [sw_check]: answers to [CheckSession]; [sw_cast]: whether a cast to the node server
    was accepted; [sw_sessions]: the values of the map [GetSessions] returns; [sw_groups]: the groups with
    their local members; [sw_elapsed]: time since the session started. *)
Record SessionWorld := mkSW {
  sw_rand : nat → N;
  sw_check : nat → option SessionCheckReply;
  sw_cast : nat → bool;
  sw_sessions : nat → option (list NodeServerSessionInformation);
  sw_pids : nat → list ActorCell;
  sw_groups : nat → list (string * string * list ActorCell);
  sw_where : nat → N → option ActorCell;
  sw_spawn : nat → option ActorCell;
  sw_stop : nat → bool;
  sw_elapsed : nat → Z;
  sw_reads : nat;
  sw_log : list SessionEffect
}.

Section session.
Variable sha256 : list byte → list byte.
(** [ActorCell::supports_remoting] and [SystemTime::try_from(Timestamp)] with [duration_since(UNIX_EPOCH)] *)
Variable supports_remoting : ActorCell → bool.
Variable to_system_time : Timestamp → option Z.
Variable self : NodeSession.

Abbreviation SM := (M (NodeSessionState * SessionWorld)).

Definition reads {A} (f : NodeSessionState → A) : SM A := gets (λ s, f s.1).
Definition upd (f : NodeSessionState → NodeSessionState) : SM unit := modify (λ s, (f s.1, s.2)).

(** The next value of a stream, chosen by how many values were read so far *)
Definition world_read {A} (f : SessionWorld → nat → A) : SM A := λ s,
  let w := s.2 in
  (Ok (f w (sw_reads w)),
   (s.1, mkSW (sw_rand w) (sw_check w) (sw_cast w) (sw_sessions w) (sw_pids w) (sw_groups w) (sw_where w)
           (sw_spawn w) (sw_stop w) (sw_elapsed w) (S (sw_reads w)) (sw_log w))).

Definition effect (e : SessionEffect) : SM unit := modify (λ s,
  let w := s.2 in
  (s.1, mkSW (sw_rand w) (sw_check w) (sw_cast w) (sw_sessions w) (sw_pids w) (sw_groups w) (sw_where w)
          (sw_spawn w) (sw_stop w) (sw_elapsed w) (sw_reads w) (sw_log w ++ [e]))).

Definition set_auth (a : AuthenticationState) (s : NodeSessionState) : NodeSessionState :=
  mkState (tcp s) (ping_task s) (pong_invalid s) (pong_slow s) (name s) (connection_id s) a (ready s)
    (remote_actors s) (advertised_local_pids s).
Definition set_name (n : NameMessage) (s : NodeSessionState) : NodeSessionState :=
  mkState (tcp s) (ping_task s) (pong_invalid s) (pong_slow s) (Some n) (connection_id s) (auth s) (ready s)
    (remote_actors s) (advertised_local_pids s).
Definition set_connection (id : N) (s : NodeSessionState) : NodeSessionState :=
  mkState (tcp s) (ping_task s) (pong_invalid s) (pong_slow s) (name s) id (auth s) (ready s)
    (remote_actors s) (advertised_local_pids s).
Definition set_ready (r : ReadyState) (s : NodeSessionState) : NodeSessionState :=
  mkState (tcp s) (ping_task s) (pong_invalid s) (pong_slow s) (name s) (connection_id s) (auth s) r
    (remote_actors s) (advertised_local_pids s).
Definition set_remote f (s : NodeSessionState) : NodeSessionState :=
  mkState (tcp s) (ping_task s) (pong_invalid s) (pong_slow s) (name s) (connection_id s) (auth s) (ready s)
    (f (remote_actors s)) (advertised_local_pids s).
Definition set_advertised f (s : NodeSessionState) : NodeSessionState :=
  mkState (tcp s) (ping_task s) (pong_invalid s) (pong_slow s) (name s) (connection_id s) (auth s) (ready s)
    (remote_actors s) (f (advertised_local_pids s)).
Definition set_ping (b : bool) (s : NodeSessionState) : NodeSessionState :=
  mkState (tcp s) b (pong_invalid s) (pong_slow s) (name s) (connection_id s) (auth s) (ready s)
    (remote_actors s) (advertised_local_pids s).
Definition set_pong (invalid slow : bool) (s : NodeSessionState) : NodeSessionState :=
  mkState (tcp s) (ping_task s) invalid slow (name s) (connection_id s) (auth s) (ready s)
    (remote_actors s) (advertised_local_pids s).

(** [tcp_send_auth], [tcp_send_node] and [tcp_send_control] *)
Definition tcp_send (m : NetworkMessage) : SM unit :=
  t ← reads tcp;
  match t with Some _ => effect (TcpSend m) | None => mret tt end.
Definition tcp_send_auth (m : AuthMsg) : SM unit := tcp_send (NAuth (Some m)).
Definition tcp_send_node (m : option NodeMessage) : SM unit := tcp_send (NNode m).
Definition tcp_send_control (m : ControlMessage) : SM unit := tcp_send (NControl (Some m)).

(** [let _ = self.node_server.cast(..)] and [self.node_server.cast(..)?] *)
Definition server_cast (m : NodeServerMessage) : SM bool :=
  ok ← world_read sw_cast;
  when ok (effect (ServerCast m)) ;;
  mret ok.
Definition server_cast_or_err (m : NodeServerMessage) : SM unit :=
  ok ← server_cast m;
  if ok : bool then mret tt else throw "MessagingErr"%string.

(** ** The handshake *)

Definition client_auth (p : ClientAuthenticationProcess) (message : option AuthMsg) : SM unit :=
  r ← world_read sw_rand;
  let next := client_next sha256 r p message (ns_cookie self) in
  next ← match next with
    | WaitingForServerChallenge status =>
        match status with
        | StatusOk | OkSimultaneous => mret next
        | NotOk | NotAllowed => mret ClientClose
        | Alive => tcp_send_auth (MClientStatus true) ;; mret next
        end
    | WaitingForServerChallengeAck c reply_to_server our_challenge _ =>
        let name_message :=
          mkName (challenge_name c) (challenge_flags c) (challenge_connection_string c) 0 in
        upd (set_name name_message) ;;
        server_cast (UpdateSession (myself self) (set_connection_id (ns_connection_id self) name_message)) ;;
        tcp_send_auth (MClientChallenge our_challenge reply_to_server) ;;
        mret next
    | _ => mret next
    end;
  when (match next with ClientClose => true | _ => false end) (effect (StopSelf "auth_fail")) ;;
  upd (set_auth (AsClient next)).

(** The answer of the node server to a peer that has sent its name *)
Definition server_status (next : ServerAuthenticationProcess) (reply : SessionCheckReply) :
  SM ServerAuthenticationProcess :=
  let status := status_of_reply reply in
  tcp_send_auth (MServerStatus status) ;;
  match status with
  | StatusOk | OkSimultaneous =>
      r ← world_read sw_rand;
      let next := start_challenge sha256 r next (ns_cookie self) in
      match next with
      | WaitingOnClientChallengeReply challenge _ =>
          let this := ns_this_node_name self in
          tcp_send_auth (MServerChallenge (mkChallenge (node_name this) (flags this) challenge (connection_string this)))
      | _ => mret tt
      end ;;
      mret next
  | NotOk | NotAllowed => mret ServerClose
  | Alive => mret WaitingOnClientStatus
  end.

Definition server_auth (p : ServerAuthenticationProcess) (message : option AuthMsg) : SM unit :=
  r ← world_read sw_rand;
  let next := server_next sha256 r p message (ns_cookie self) in
  next ← match next with
    | HavePeerName peer =>
        upd (set_name (set_connection_id 0 peer)) ;;
        upd (set_connection (name_connection_id peer)) ;;
        server_cast (UpdateSession (myself self) peer) ;;
        reply ← world_read sw_check;
        match reply with
        | None => mret ServerClose
        | Some reply => server_status next reply
        end
    | ServerOk digest => tcp_send_auth (MServerAck digest) ;; mret next
    | _ => mret next
    end;
  when (match next with ServerClose => true | _ => false end) (effect (StopSelf "auth_fail")) ;;
  upd (set_auth (AsServer next)).

Definition handle_auth (message : option AuthMsg) : SM unit :=
  a ← reads auth;
  if auth_is_ok a then mret tt
  else
    when (auth_is_close a)
      (effect (StopSelf "auth_fail") ;;
       t ← reads tcp;
       match t with Some _ => effect (StopTcp "auth_fail") | None => mret tt end) ;;
    match a with
    | AsClient p => client_auth p message
    | AsServer p => server_auth p message
    end.

(** ** Messages between actors *)

Definition authorized_local_actor (pid : N) : SM (option ActorCell) :=
  adv ← reads (λ s, bool_decide (pid ∈ advertised_local_pids s));
  if negb adv then mret None
  else
    where_is ← world_read sw_where;
    let actor := where_is pid in
    if match actor with Some a => supports_remoting a | None => false end then mret actor
    else upd (set_advertised (λ X, X ∖ {[pid]})) ;; mret None.

(** A reply port that is created for a call *)
Definition fresh_port : SM nat := world_read (λ _ n, n).

Definition handle_node (message : option NodeMessage) : SM unit :=
  a ← reads auth;
  if negb (auth_is_ok a) then mret tt
  else
    match message with
    | None => mret tt
    | Some (NodeCast to what variant metadata) =>
        actor ← authorized_local_actor to;
        match actor with
        | Some actor => effect (LocalSend to actor (SCast variant what metadata))
        | None => mret tt
        end
    | Some (NodeCall to what tag timeout_ms variant metadata) =>
        actor ← authorized_local_actor to;
        match actor with
        | Some actor =>
            reply ← fresh_port;
            effect (LocalSend to actor (SCall variant what reply metadata)) ;;
            effect (AwaitReply tag to timeout_ms)
        | None => mret tt
        end
    | Some (NodeReply to tag what) =>
        actor ← reads (λ s, remote_actors s !! to);
        match actor with
        | Some actor => effect (RemoteReply actor tag what)
        | None => mret tt
        end
    end.

(** ** Remote actors *)

Definition get_or_spawn_remote_actor (actor_name : option string) (actor_pid : N) : SM ActorCell :=
  o ← reads (λ s, remote_actors s !! actor_pid);
  match o with
  | Some actor => mret actor
  | None =>
      spawned ← world_read sw_spawn;
      match spawned with
      | Some remote_actor =>
          effect (SpawnedRemote actor_pid remote_actor) ;;
          upd (set_remote (insert actor_pid remote_actor)) ;;
          mret remote_actor
      | None => throw "SpawnErr"%string
      end
  end.

(** [if let Err(spawn_err) = m.await { .. }]: an error is logged and goes no further *)
Definition try_get {A} (m : SM A) : SM (option A) := λ s,
  match m s with
  | (Ok a, s') => (Ok (Some a), s')
  | (Err _, s') => (Ok None, s')
  | (Panic, s') => (Panic, s')
  end.

(** [actor.stop_and_wait(reason, None).await?] *)
Definition stop_and_wait (a : ActorCell) (reason : string) : SM unit :=
  effect (StopRemote a reason) ;;
  ok ← world_read sw_stop;
  if ok : bool then mret tt else throw "MessagingErr"%string.

(** [for .. in actors { cells.push(..) }] *)
Fixpoint spawn_all (actors : list NetActor) (cells : list ActorCell) : SM (list ActorCell) :=
  match actors with
  | [] => mret cells
  | a :: actors =>
      c ← try_get (get_or_spawn_remote_actor (na_name a) (na_pid a));
      spawn_all actors (cells ++ match c with Some c => [c] | None => [] end)
  end.

(** ** Health of the connection *)

Definition pong_latency (elapsed : Z) (timestamp : option Timestamp) : string + Z :=
  match timestamp with
  | None => inl "timestamp is missing"%string
  | Some t =>
      if negb ((MIN_PROTOBUF_TIMESTAMP_SECONDS <=? seconds t) && (seconds t <=? MAX_PROTOBUF_TIMESTAMP_SECONDS))
         || negb ((0 <=? nanos t) && (nanos t <? NANOSECONDS_PER_SECOND))
      then inl "timestamp is outside the protobuf Timestamp range"%string
      else
        match to_system_time t with
        | None => inl "timestamp is out of range"%string
        | Some sent_at =>
            if sent_at <? 0 then inl "timestamp predates the Unix epoch"%string
            else if elapsed <? sent_at then inl "timestamp is ahead of this session's clock"%string
            else inr (elapsed - sent_at)
        end
  end.

Definition handle_pong (timestamp : option Timestamp) : SM unit :=
  elapsed ← world_read sw_elapsed;
  match pong_latency elapsed timestamp with
  | inr delta => upd (λ s, set_pong (pong_invalid s) (pong_slow s || (50 <? delta / 1000000)) s)
  | inl _ => upd (λ s, set_pong true (pong_slow s) s)
  end.

Definition start_ping_loop : SM unit :=
  upd (λ s, if ping_task s then s else match tcp s with Some _ => set_ping true s | None => s end).

(** ** Control messages *)

Definition net_actors (cells : list ActorCell) : list NetActor :=
  (λ a, mkNetActor (pid (get_id a)) (get_name a)) <$> filter (λ a, supports_remoting a = true) cells.

Definition handle_ready : SM unit :=
  r ← reads ready;
  match r with
  | ReadyOpen => upd (set_ready SyncReceived)
  | SyncSent => upd (set_ready Ready) ;; server_cast_or_err (ConnectionReady (myself self))
  | SyncReceived | Ready => mret tt
  end.

(** The peers of this node, without the one who is asking *)
Definition enumerate_sessions (whos_asking : NameMessage) : SM unit :=
  sessions ← world_read sw_sessions;
  match sessions with
  | None => mret tt
  | Some sessions =>
      let names := filter (λ n, node_name whos_asking ≠ node_name n ∧
                                connection_string whos_asking ≠ connection_string n)
                     (omap peer_name sessions) in
      tcp_send_control (CNodeSessions names)
  end.

Definition connect_transitively (peers : list NameMessage) : SM unit :=
  match ns_connection_mode self with
  | Isolated => mret tt
  | Transitive =>
      sessions ← world_read sw_sessions;
      let existing : list string :=
        match sessions with
        | Some sessions => concat ((λ p, [node_name p; connection_string p]) <$> omap peer_name sessions)
        | None => []
        end in
      let this := ns_this_node_name self in
      for_each peers (λ p,
        when (negb (bool_decide (node_name p ∈ existing) || bool_decide (connection_string p ∈ existing)
                    || bool_decide (node_name p = node_name this)
                    || bool_decide (connection_string p = connection_string this)))
          (effect (Connect (connection_string p))))
  end.

Definition handle_control (message : option ControlMessage) : SM unit :=
  a ← reads auth;
  if negb (auth_is_ok a) then mret tt
  else
    match message with
    | None => mret tt
    | Some CReady => handle_ready
    | Some (CSpawn actors) => spawn_all actors [] ;; mret tt
    | Some (CTerminate ids) =>
        for_each ids (λ pid,
          o ← reads (λ s, remote_actors s !! pid);
          match o with
          | Some actor => upd (set_remote (delete pid)) ;; stop_and_wait actor "remote"
          | None => mret tt
          end)
    | Some (CPing timestamp) => tcp_send_control (CPong timestamp)
    | Some (CPong timestamp) => handle_pong timestamp
    | Some (CPgJoin scope group actors) =>
        cells ← spawn_all actors [];
        when (negb (bool_decide (cells = []))) (effect (PgJoined scope group cells))
    | Some (CPgLeave scope group actors) =>
        remote ← reads remote_actors;
        let cells := omap (λ a, remote !! na_pid a) actors in
        when (negb (bool_decide (cells = []))) (effect (PgLeft scope group cells))
    | Some (CEnumerateNodeSessions whos_asking) => enumerate_sessions whos_asking
    | Some (CNodeSessions sessions) => connect_transitively sessions
    end.

(** ** After authentication *)

(** Every group is announced with the members that live here. *)
Definition announce_groups : SM unit :=
  groups ← world_read sw_groups;
  for_each groups (λ '(scope, group, members),
    let actors := net_actors members in
    when (negb (bool_decide (actors = []))) (tcp_send_control (CPgJoin scope group actors))).

Definition announce_pids : SM unit :=
  all ← world_read sw_pids;
  let pids := net_actors all in
  upd (set_advertised (λ X, list_to_set (na_pid <$> pids) ∪ X)) ;;
  when (negb (bool_decide (pids = []))) (tcp_send_control (CSpawn pids)).

Definition sync_sent : SM unit :=
  r ← reads ready;
  match r with
  | ReadyOpen => upd (set_ready SyncSent)
  | SyncReceived => upd (set_ready Ready)
  | SyncSent | Ready => panic
  end.

Definition after_authenticated : SM unit :=
  start_ping_loop ;;
  match ns_connection_mode self with
  | Transitive => tcp_send_control (CEnumerateNodeSessions (ns_this_node_name self))
  | Isolated => mret tt
  end ;;
  effect MonitorPids ;;
  announce_pids ;;
  effect MonitorScopes ;;
  effect MonitorGroups ;;
  announce_groups ;;
  tcp_send_control CReady ;;
  sync_sent.

(** The session has just been authenticated. *)
Definition newly_authenticated : SM unit :=
  server_cast_or_err (ConnectionAuthenticated (myself self)) ;;
  peer ← reads name;
  elected ← match peer with
    | Some _ =>
        reply ← world_read sw_check;
        mret match reply with Some NoOtherConnection | Some ThisConnectionContinues => true | _ => false end
    | None => mret false
    end;
  if elected : bool then
    after_authenticated ;;
    ok ← reads (λ s, ready_is_ok (ready s));
    when ok (server_cast_or_err (ConnectionReady (myself self)))
  else effect (StopSelf "session_election_lost").

(** ** The actor *)

Inductive NodeSessionMessage :=
| MessageReceived (m : option NetworkMessage)
| SendMessage (m : option NodeMessage)
| GetAuthenticationState
| GetReadyState.

Definition is_self (peer : NameMessage) : bool :=
  bool_decide (connection_string (ns_this_node_name self) = connection_string peer)
  || bool_decide (node_name (ns_this_node_name self) = node_name peer).

Definition handle_network (m : NetworkMessage) : SM unit :=
  match m with
  | NAuth message =>
      p_state ← reads (λ s, auth_is_ok (auth s));
      handle_auth message ;;
      now ← reads (λ s, auth_is_ok (auth s));
      when (negb p_state && now) newly_authenticated
  | NNode message => handle_node message
  | NControl message => handle_control message
  end.

Definition session_handle (message : NodeSessionMessage) : SM unit :=
  peer ← reads name;
  if match peer with Some peer => is_self peer | None => false end then effect (StopSelf "self_connection")
  else
    has_tcp ← reads (λ s, match tcp s with Some _ => true | None => false end);
    match message with
    | MessageReceived m =>
        if has_tcp : bool then match m with Some m => handle_network m | None => mret tt end else mret tt
    | SendMessage m => when has_tcp (tcp_send_node m)
    | GetAuthenticationState => b ← reads (λ s, auth_is_ok (auth s)); effect (ReplyBool b)
    | GetReadyState => b ← reads (λ s, ready_is_ok (ready s)); effect (ReplyBool b)
    end.

(** The supervision events a session receives *)
Inductive SessionEvent :=
| SeStarted (a : ActorCell)
| SeFailed (a : ActorCell)
| SeTerminated (a : ActorCell)
| SeGroupJoin (scope group : string) (actors : list ActorCell)
| SeGroupLeave (scope group : string) (actors : list ActorCell)
| SePidSpawn (who : ActorCell)
| SePidTerminate (who : ActorCell).

Definition is_tcp_actor (a : ActorId) (s : NodeSessionState) : bool :=
  match tcp s with Some t => bool_decide (t = a) | None => false end.

(** [state.remote_actors.remove(&pid)] *)
Definition take_remote (pid : N) : SM (option ActorCell) :=
  o ← reads (λ s, remote_actors s !! pid);
  upd (set_remote (delete pid)) ;;
  mret o.

Definition session_supervisor_evt (e : SessionEvent) : SM unit :=
  match e with
  | SeStarted _ => mret tt
  | SeFailed a =>
      is_tcp ← reads (is_tcp_actor (get_id a));
      if is_tcp : bool then effect (StopSelf "tcp_session_err")
      else
        o ← take_remote (pid (get_id a));
        match o with
        | Some actor =>
            effect (KillRemote actor) ;;
            get_or_spawn_remote_actor (get_name actor) (pid (get_id actor)) ;;
            mret tt
        | None => mret tt
        end
  | SeTerminated a =>
      is_tcp ← reads (is_tcp_actor (get_id a));
      if is_tcp : bool then effect (StopSelf "tcp_session_closed")
      else
        o ← take_remote (pid (get_id a));
        match o with
        | Some actor => stop_and_wait actor "remote_exit"
        | None => mret tt
        end
  | SeGroupJoin scope group actors =>
      let filtered := net_actors actors in
      when (negb (bool_decide (filtered = []))) (tcp_send_control (CPgJoin scope group filtered))
  | SeGroupLeave scope group actors =>
      let filtered := net_actors actors in
      when (negb (bool_decide (filtered = []))) (tcp_send_control (CPgLeave scope group filtered))
  | SePidSpawn who =>
      when (supports_remoting who)
        (upd (set_advertised (union {[pid (get_id who)]})) ;;
         tcp_send_control (CSpawn [mkNetActor (pid (get_id who)) (get_name who)]))
  | SePidTerminate who =>
      when (supports_remoting who)
        (upd (set_advertised (λ X, X ∖ {[pid (get_id who)]})) ;;
         tcp_send_control (CTerminate [pid (get_id who)]))
  end.

(** [pre_start]; [t] is the actor that owns the socket *)
Definition session_pre_start (t : ActorId) (w : SessionWorld) : NodeSessionState * SessionWorld :=
  let state := mkState (Some t) false false false None (ns_connection_id self)
    (if ns_is_server self then AsServer server_init else AsClient client_init) ReadyOpen ∅ ∅ in
  (when (negb (ns_is_server self))
    (tcp_send_auth (MName (set_connection_id (ns_connection_id self) (ns_this_node_name self)))) (state, w)).2.

Definition session_post_stop : SM unit :=
  upd (set_ping false) ;;
  effect DemonitorAll.

(** Equations of the primitives *)
Lemma bind_reads {A B} (f : NodeSessionState → A) (k : A → SM B) s : (reads f ≫= k) s = k (f s.1) s.
Proof. done. Qed.

Lemma bind_upd {B} f (k : unit → SM B) s : (upd f ≫= k) s = k tt (f s.1, s.2).
Proof. done. Qed.

Lemma bind_effect {B} e (k : unit → SM B) s : (effect e ≫= k) s = k tt (effect e s).2.
Proof. done. Qed.

Lemma bind_world {A B} (f : SessionWorld → nat → A) (k : A → SM B) s :
  (world_read f ≫= k) s = k (f s.2 (sw_reads s.2)) (world_read f s).2.
Proof. done. Qed.

(** ** Histories *)

Inductive session_in := InMessage (m : NodeSessionMessage) | InEvent (e : SessionEvent).

Definition session_step (i : session_in) : SM unit :=
  match i with
  | InMessage m => session_handle m
  | InEvent e => session_supervisor_evt e
  end.

(** An error or panic of a handler ends the session. *)
Fixpoint run_session (ins : list session_in) (s : NodeSessionState * SessionWorld) : res unit * (NodeSessionState * SessionWorld) :=
  match ins with
  | [] => (Ok tt, s)
  | i :: ins =>
      match session_step i s with
      | (Ok _, s') => run_session ins s'
      | r => r
      end
  end.

(** ** What a session may do *)

(** Effects on this node that the peer can cause: they are for authenticated peers only. *)
Definition trusted (e : SessionEffect) : bool :=
  match e with
  | LocalSend _ _ _ | AwaitReply _ _ _ | RemoteReply _ _ _ | SpawnedRemote _ _ | StopRemote _ _ | KillRemote _
  | PgJoined _ _ _ | PgLeft _ _ _ | Connect _ => true
  | _ => false
  end.

(** The peer was told about an actor. *)
Definition announced (p : N) (log : list SessionEffect) : Prop :=
  ∃ actors, TcpSend (NControl (Some (CSpawn actors))) ∈ log ∧ p ∈ na_pid <$> actors.

Definition cast_of (e : SessionEffect) : option NodeServerMessage :=
  match e with ServerCast m => Some m | _ => None end.
Definition casts (log : list SessionEffect) : list NodeServerMessage := omap cast_of log.

Definition local_ok (log : list SessionEffect) : Prop :=
  ∀ to a m, LocalSend to a m ∈ log → supports_remoting a = true ∧ announced to log.

Lemma announced_app p l l' : announced p l → announced p (l ++ l').
Proof. intros (actors & Ha & Hp). exists actors. split; [|done]. apply elem_of_app. by left. Qed.

Lemma casts_app l l' : casts (l ++ l') = casts l ++ casts l'.
Proof. apply omap_app. Qed.

(** The part of the state that only the handshake and the synchronization change, and the bookkeeping of
    announced actors *)
Record kept (a : AuthenticationState) (n : option NameMessage) (r : ReadyState) (cs : list NodeServerMessage)
    (rand : nat → N) (s : NodeSessionState * SessionWorld) : Prop := {
  k_tcp : is_Some (tcp s.1);
  k_auth : auth s.1 = a;
  k_name : name s.1 = n;
  k_ready : ready s.1 = r;
  k_casts : casts (sw_log s.2) = cs;
  k_rand : sw_rand s.2 = rand;
  k_advertised p : p ∈ advertised_local_pids s.1 → announced p (sw_log s.2);
  k_local : local_ok (sw_log s.2);
  k_trust : auth_is_ok a = true ∨ remote_actors s.1 = ∅ ∧ ∀ e, e ∈ sw_log s.2 → trusted e = false
}.

Section kept.
Context {a : AuthenticationState} {n : option NameMessage} {r : ReadyState} {cs : list NodeServerMessage} {rand : nat → N}.
Abbreviation K := (kept a n r cs rand).

Lemma kept_effect e s :
  K s → cast_of e = None → auth_is_ok a = true ∨ trusted e = false →
  (∀ to c m, e = LocalSend to c m → supports_remoting c = true ∧ announced to (sw_log s.2)) →
  K ((effect e) s).2.
Proof.
  intros [H1 H2 H3 H4 H5 H6 H7 H8 H9] He Ht Hl. split; cbn; try done.
  - rewrite casts_app, H5. cbn. by rewrite He, app_nil_r.
  - intros p Hp. by apply announced_app, H7.
  - intros to c m [Hin|Hin%list_elem_of_singleton]%elem_of_app.
    + destruct (H8 _ _ _ Hin). split; [done|]. by apply announced_app.
    + destruct (Hl to c m) as [? Ha]; [done|]. split; [done|]. by apply announced_app.
  - destruct H9 as [?|[Hr Hn]]; [by left|]. destruct Ht as [?|Ht]; [by left|]. right. split; [done|].
    intros e' [Hin| ->%list_elem_of_singleton]%elem_of_app; auto.
Qed.

Lemma P_effect e :
  cast_of e = None → trusted e = false → preserves K (effect e).
Proof. intros He Ht s Hs. apply kept_effect; [done|done|by right|]. intros to c m ->. done. Qed.

Lemma P_effect_trusted e :
  auth_is_ok a = true → cast_of e = None → (∀ to c m, e ≠ LocalSend to c m) → preserves K (effect e).
Proof. intros Hok He Hl s Hs. apply kept_effect; [done|done|by left|]. intros to c m E. by destruct (Hl to c m). Qed.

Lemma P_world_read {A} (f : SessionWorld → nat → A) : preserves K (world_read f).
Proof. intros s [H1 H2 H3 H4 H5 H6 H7 H8 H9]. by split. Qed.

Lemma P_reads {A} (f : NodeSessionState → A) : preserves K (reads f).
Proof. apply preserves_gets. Qed.

Lemma P_tcp_send m : preserves K (tcp_send m).
Proof. unfold tcp_send. apply preserves_bind; [apply P_reads|]. intros [t|]; [by apply P_effect|apply preserves_ret]. Qed.

(** An update of fields that carry no claim *)
Lemma P_upd f :
  (∀ s, tcp (f s) = tcp s ∧ auth (f s) = auth s ∧ name (f s) = name s ∧ ready (f s) = ready s) →
  (∀ s p, p ∈ advertised_local_pids (f s) → p ∈ advertised_local_pids s) →
  auth_is_ok a = true ∨ (∀ s, remote_actors s = ∅ → remote_actors (f s) = ∅) →
  preserves K (upd f).
Proof.
  intros Hf Ha Hr s [H1 H2 H3 H4 H5 H6 H7 H8 H9]. destruct (Hf s.1) as (E1 & E2 & E3 & E4). split; cbn.
  - by rewrite E1.
  - by rewrite E2.
  - by rewrite E3.
  - by rewrite E4.
  - done.
  - done.
  - intros p Hp%Ha. auto.
  - done.
  - destruct H9 as [?|[? ?]]; [by left|]. destruct Hr as [?|Hr]; [by left|]. right. auto.
Qed.

Lemma P_try_get {A} (m : SM A) : preserves K m → preserves K (try_get m).
Proof. intros Hm s Hs. specialize (Hm s Hs). unfold try_get. by destruct (m s) as [[]]. Qed.
End kept.

#[local] Hint Resolve P_world_read P_reads P_tcp_send P_try_get : ractor.
#[local] Hint Extern 2 (preserves (kept _ _ _ _ _) (effect _)) => by apply P_effect : ractor.
#[local] Hint Extern 3 (preserves (kept _ _ _ _ _) (effect _)) => by apply P_effect_trusted : ractor.
#[local] Hint Extern 2 (preserves (kept _ _ _ _ _) (upd _)) =>
  apply P_upd; [by intros ?|by intros ? ?|by (left + right)] : ractor.
#[local] Hint Extern 1 (preserves (kept _ _ _ _ _) (tcp_send_control _)) => apply P_tcp_send : ractor.
#[local] Hint Extern 1 (preserves (kept _ _ _ _ _) (tcp_send_node _)) => apply P_tcp_send : ractor.

Section handlers.
Context {a : AuthenticationState} {n : option NameMessage} {r : ReadyState} {cs : list NodeServerMessage} {rand : nat → N}.
Abbreviation K := (kept a n r cs rand).
Hypothesis Hok : auth_is_ok a = true.

Lemma P_get_or_spawn nm p : preserves K (get_or_spawn_remote_actor nm p).
Proof. unfold get_or_spawn_remote_actor. solve_preserves. Qed.

Lemma P_stop_and_wait c reason : preserves K (stop_and_wait c reason).
Proof. unfold stop_and_wait. solve_preserves. Qed.

Lemma P_spawn_all actors cells : preserves K (spawn_all actors cells).
Proof.
  revert cells. induction actors as [|x actors IH]; intros cells; cbn [spawn_all]; [apply preserves_ret|].
  apply preserves_bind; [apply P_try_get, P_get_or_spawn|]. intros c. apply IH.
Qed.

Lemma authorized_spec p s :
  K s → ∃ o, (authorized_local_actor p s).1 = Ok o ∧ K (authorized_local_actor p s).2 ∧
    ∀ c, o = Some c → supports_remoting c = true ∧ announced p (sw_log (authorized_local_actor p s).2.2).
Proof.
  intros Hs. unfold authorized_local_actor. rewrite bind_reads.
  case_bool_decide as Hp; cbn [negb].
  - rewrite bind_world. cbv zeta.
    assert (K (world_read sw_where s).2) as Hs1 by (by apply P_world_read).
    destruct (sw_where s.2 (sw_reads s.2) p) as [c|]; [destruct (supports_remoting c) eqn:Ec|].
    + eexists. split_and!; [done|done|]. intros c' [= <-]. split; [done|]. cbn. by apply (k_advertised _ _ _ _ _ _ Hs).
    + eexists. split_and!; [done| |done]. apply (P_upd (set_advertised (λ X, X ∖ {[p]}))); [done|set_solver|by left|done].
    + eexists. split_and!; [done| |done]. apply (P_upd (set_advertised (λ X, X ∖ {[p]}))); [done|set_solver|by left|done].
  - eexists. split_and!; [done|done|done].
Qed.

Lemma P_local_send p (k : ActorCell → SM unit) :
  (∀ c s, K s → supports_remoting c = true → announced p (sw_log s.2) → K ((k c) s).2) →
  preserves K (o ← authorized_local_actor p; match o with Some c => k c | None => mret tt end).
Proof.
  intros Hk s Hs. destruct (authorized_spec p s Hs) as (o & Ho & Hs1 & Hc).
  destruct (authorized_local_actor p s) as [x s1] eqn:E. cbn in *. subst x.
  rewrite (bind_ok _ _ _ _ _ E). destruct o as [c|]; [|done]. destruct (Hc c eq_refl). by apply Hk.
Qed.

Lemma P_handle_node m : preserves K (handle_node m).
Proof.
  unfold handle_node. apply preserves_bind; [apply P_reads|]. intros a'. destruct (auth_is_ok a'); [|apply preserves_ret].
  cbn [negb]. destruct m as [[to what v md|to what tag tm v md|to tag what]|]; [..|apply preserves_ret].
  - apply P_local_send. intros c s Hs Hc Hp. apply kept_effect; [done|done|by left|]. by intros ? ? ? [= <- <- <-].
  - apply P_local_send. intros c s Hs Hc Hp.
    unfold fresh_port. rewrite bind_world, bind_effect. apply P_effect_trusted; [done|done|done|].
    apply kept_effect; [by apply P_world_read|done|by left|]. by intros ? ? ? [= <- <- <-].
  - apply preserves_bind; [apply P_reads|]. intros [c|]; [by apply P_effect_trusted|apply preserves_ret].
Qed.

Lemma P_handle_pong ts : preserves K (handle_pong ts).
Proof. unfold handle_pong. solve_preserves. Qed.

Lemma P_connect peers : preserves K (connect_transitively peers).
Proof. unfold connect_transitively. solve_preserves. Qed.

Lemma P_enumerate who : preserves K (enumerate_sessions who).
Proof. unfold enumerate_sessions. solve_preserves. Qed.

Lemma P_handle_control m : m ≠ Some CReady → preserves K (handle_control m).
Proof.
  intros Hm. unfold handle_control. apply preserves_bind; [apply P_reads|]. intros a'.
  destruct (auth_is_ok a'); [|apply preserves_ret]. cbn [negb]. destruct m as [[]|]; try done.
  - apply preserves_bind; [apply P_spawn_all|]. intros _. apply preserves_ret.
  - apply preserves_for_each. intros p _. apply preserves_bind; [apply P_reads|]. intros [c|]; [|apply preserves_ret].
    apply preserves_bind; [|intros _; apply P_stop_and_wait]. apply P_upd; [done|done|by left].
  - apply P_tcp_send.
  - apply P_handle_pong.
  - apply preserves_bind; [apply P_spawn_all|]. intros cells. apply preserves_when. by apply P_effect_trusted.
  - apply preserves_bind; [apply P_reads|]. intros remote. apply preserves_when. by apply P_effect_trusted.
  - apply P_enumerate.
  - apply P_connect.
  - apply preserves_ret.
Qed.
End handlers.

(** The announcement of the local actors makes them addressable for the peer. *)
Lemma announce_kept {a n r cs rand} (pids : list NetActor) (f : gset N → gset N) s :
  (∀ X p, p ∈ f X → p ∈ na_pid <$> pids ∨ p ∈ X) →
  kept a n r cs rand s →
  kept a n r cs rand ((upd (set_advertised f) ;;
    when (negb (bool_decide (pids = []))) (tcp_send_control (CSpawn pids))) s).2.
Proof.
  intros Hf [H1 H2 H3 H4 H5 H6 H7 H8 H9]. rewrite bind_upd. case_bool_decide as Hp; cbn [negb when].
  - subst pids. split; try done. cbn. intros p Hp. apply H7. destruct (Hf _ _ Hp) as [Hn|]; [by apply not_elem_of_nil in Hn|done].
  - destruct H1 as [t Ht]. unfold tcp_send_control, tcp_send. rewrite bind_reads. cbn [tcp set_advertised fst]. rewrite Ht.
    split; cbn; try done.
    + rewrite casts_app, H5. cbn. by rewrite app_nil_r.
    + intros p [Hp'|Hp']%Hf; [|by apply announced_app, H7].
      exists pids. split; [apply elem_of_app; right; by left|done].
    + intros to c m [Hin|Hin%list_elem_of_singleton]%elem_of_app; [|done].
      destruct (H8 _ _ _ Hin). split; [done|]. by apply announced_app.
    + destruct H9 as [?|[? Hn]]; [by left|]. right. split; [done|].
      intros e [Hin| ->%list_elem_of_singleton]%elem_of_app; [by apply Hn|done].
Qed.

Lemma P_announce_pids {a n r cs rand} : preserves (kept a n r cs rand) announce_pids.
Proof.
  unfold announce_pids. apply preserves_bind; [apply P_world_read|]. intros all s Hs. apply announce_kept; [|done].
  intros X p [Hp%elem_of_list_to_set|]%elem_of_union; auto.
Qed.

Lemma P_announce_groups {a n r cs rand} : preserves (kept a n r cs rand) announce_groups.
Proof. unfold announce_groups. solve_preserves. Qed.

(** ** Supervision events *)

(** There are remote actors only on an authenticated session. *)
Lemma P_take_remote {a n r cs rand} p (k : ActorCell → SM unit) :
  (∀ c, auth_is_ok a = true → preserves (kept a n r cs rand) (k c)) →
  preserves (kept a n r cs rand) (o ← take_remote p; match o with Some c => k c | None => mret tt end).
Proof.
  intros Hk s Hs. assert (kept a n r cs rand (upd (set_remote (delete p)) s).2) as Hs1.
  { apply P_upd; [done|done| |done]. right. intros s' E. cbn. by rewrite E, delete_empty. }
  rewrite (bind_ok (take_remote p) _ s (remote_actors s.1 !! p) (upd (set_remote (delete p)) s).2) by done.
  destruct (remote_actors s.1 !! p) as [c|] eqn:E; [|done]. apply Hk; [|done].
  destruct (k_trust _ _ _ _ _ _ Hs) as [?|[Hr _]]; [done|]. by rewrite Hr, lookup_empty in E.
Qed.

Lemma P_supervisor_evt {a n r cs rand} e : preserves (kept a n r cs rand) (session_supervisor_evt e).
Proof.
  destruct e as [c|c|c|sc g actors|sc g actors|who|who]; cbn [session_supervisor_evt]; [solve_preserves| | |solve_preserves|solve_preserves| |].
  - apply preserves_bind; [apply P_reads|]. intros []; [by apply P_effect|]. apply P_take_remote. intros x Hok.
    apply preserves_bind; [by apply P_effect_trusted|]. intros _.
    apply preserves_bind; [by apply P_get_or_spawn|]. intros _. apply preserves_ret.
  - apply preserves_bind; [apply P_reads|]. intros []; [by apply P_effect|]. apply P_take_remote. intros x Hok.
    by apply P_stop_and_wait.
  - apply preserves_when. intros s Hs.
    apply (announce_kept [mkNetActor (pid (get_id who)) (get_name who)] (union {[pid (get_id who)]})); [|done].
    intros X p [->%elem_of_singleton|]%elem_of_union; [left; by left|by right].
  - apply preserves_when. apply preserves_bind; [|intros _; apply P_tcp_send].
    apply P_upd; [done|set_solver|by right].
Qed.

(** ** Synchronization *)

Lemma kept_set_ready {a n r cs rand} r' s : kept a n r cs rand s → kept a n r' cs rand (set_ready r' s.1, s.2).
Proof. intros [H1 H2 H3 H4 H5 H6 H7 H8 H9]. by split. Qed.

Lemma kept_cast {a n r cs rand} m s : kept a n r cs rand s → kept a n r (cs ++ [m]) rand (effect (ServerCast m) s).2.
Proof.
  intros [H1 H2 H3 H4 H5 H6 H7 H8 H9]. split; cbn; try done.
  - by rewrite casts_app, H5.
  - intros p Hp. by apply announced_app, H7.
  - intros to c x [Hin|Hin%list_elem_of_singleton]%elem_of_app; [|done].
    destruct (H8 _ _ _ Hin). split; [done|]. by apply announced_app.
  - destruct H9 as [?|[? Hn]]; [by left|]. right. split; [done|].
    intros e [Hin| ->%list_elem_of_singleton]%elem_of_app; [by apply Hn|done].
Qed.

(** A cast to the node server is accepted, or not *)
Lemma server_cast_spec {a n r cs rand} m s :
  kept a n r cs rand s →
  ∃ s', server_cast m s = (Ok true, s') ∧ kept a n r (cs ++ [m]) rand s' ∨
        server_cast m s = (Ok false, s') ∧ kept a n r cs rand s'.
Proof.
  intros Hs. unfold server_cast. rewrite bind_world. pose proof (P_world_read sw_cast s Hs) as Hs1.
  destruct (sw_cast s.2 (sw_reads s.2)).
  - eexists. left. split; [done|]. by apply kept_cast.
  - eexists. right. by split.
Qed.

Lemma server_cast_or_err_spec {a n r cs rand} m s :
  kept a n r cs rand s →
  ∃ s', server_cast_or_err m s = (Ok tt, s') ∧ kept a n r (cs ++ [m]) rand s' ∨
        (∃ e, server_cast_or_err m s = (Err e, s')) ∧ kept a n r cs rand s'.
Proof.
  intros Hs. unfold server_cast_or_err. destruct (server_cast_spec m s Hs) as (s' & [[E Hs']|[E Hs']]);
    exists s'; rewrite (bind_ok _ _ _ _ _ E); [by left|right; split; [by eexists|done]].
Qed.

Lemma handle_ready_spec {a n r cs rand} s :
  kept a n r cs rand s →
  ∃ s', match r with
        | ReadyOpen => handle_ready s = (Ok tt, s') ∧ kept a n SyncReceived cs rand s'
        | SyncSent => handle_ready s = (Ok tt, s') ∧ kept a n Ready (cs ++ [ConnectionReady (myself self)]) rand s' ∨
                      (∃ e, handle_ready s = (Err e, s')) ∧ kept a n Ready cs rand s'
        | _ => handle_ready s = (Ok tt, s') ∧ kept a n r cs rand s'
        end.
Proof.
  intros Hs. unfold handle_ready. rewrite bind_reads, (k_ready _ _ _ _ _ _ Hs). destruct r.
  - eexists. split; [done|]. apply (kept_set_ready SyncReceived s Hs).
  - rewrite bind_upd. apply server_cast_or_err_spec. apply (kept_set_ready Ready s Hs).
  - by exists s.
  - by exists s.
Qed.

(** Computations that cannot fail *)
Definition succeeds {A} (m : SM A) : Prop := ∀ s, ∃ x, (m s).1 = Ok x.

Lemma succeeds_bind {A B} (m : SM A) (k : A → SM B) : succeeds m → (∀ x, succeeds (k x)) → succeeds (m ≫= k).
Proof.
  intros Hm Hk s. destruct (Hm s) as [x Hx]. destruct (m s) as [y s'] eqn:E. cbn in Hx. subst y.
  rewrite (bind_ok _ _ _ _ _ E). apply Hk.
Qed.

Lemma succeeds_when b (m : SM unit) : succeeds m → succeeds (when b m).
Proof. destruct b; [done|]. intros _ s. by exists tt. Qed.

Lemma succeeds_for_each {A} (l : list A) (f : A → SM unit) : (∀ x, succeeds (f x)) → succeeds (for_each l f).
Proof. intros Hf. induction l as [|x l IH]; [by exists tt|]. by apply succeeds_bind. Qed.

Lemma succeeds_effect e : succeeds (effect e).
Proof. by exists tt. Qed.

Lemma succeeds_tcp_send m : succeeds (tcp_send m).
Proof. apply succeeds_bind; [by eexists|]. intros []; by eexists. Qed.

Lemma run_kept {A} (I : NodeSessionState * SessionWorld → Prop) (m : SM A) s :
  succeeds m → preserves I m → I s → ∃ x s', m s = (Ok x, s') ∧ I s'.
Proof.
  intros Hm Hp Hs. specialize (Hp s Hs). destruct (Hm s) as [x Hx]. destruct (m s) as [y s'].
  cbn in *. subst y. eauto.
Qed.

Lemma succeeds_announce_pids : succeeds announce_pids.
Proof.
  apply succeeds_bind; [by eexists|]. intros all. apply succeeds_bind; [by eexists|]. intros _.
  apply succeeds_when, succeeds_tcp_send.
Qed.

Lemma succeeds_announce_groups : succeeds announce_groups.
Proof.
  apply succeeds_bind; [by eexists|]. intros gs. apply succeeds_for_each. intros [[sc g] ms].
  apply succeeds_when, succeeds_tcp_send.
Qed.

(** Runs the first computation of a sequence, keeping the invariant [Hs]. *)
Ltac run_first Hs tac_succeeds tac_preserves :=
  let E := fresh "E" in let Hs' := fresh "Hs" in
  match type of Hs with
  | ?I ?s =>
      match goal with
      | |- context [(?m ≫= _) s] =>
          destruct (run_kept I m s) as (? & ? & E & Hs'); [tac_succeeds|tac_preserves|exact Hs|];
          rewrite (bind_ok _ _ _ _ _ E); clear E Hs; rename Hs' into Hs
      end
  end.

Lemma after_authenticated_spec {a n cs rand} s :
  kept a n ReadyOpen cs rand s → auth_is_ok a = true →
  ∃ s', after_authenticated s = (Ok tt, s') ∧ kept a n SyncSent cs rand s'.
Proof.
  intros Hs Hok. unfold after_authenticated. unfold start_ping_loop. rewrite bind_upd.
  assert (kept a n ReadyOpen cs rand (if ping_task s.1 then s.1 else match tcp s.1 with Some _ => set_ping true s.1 | None => s.1 end, s.2)) as Hs1.
  { destruct (ping_task s.1); [by destruct s|]. destruct (tcp s.1); [|by destruct s].
    destruct Hs as [H1 H2 H3 H4 H5 H6 H7 H8 H9]. by split. }
  clear Hs. rename Hs1 into Hs.
  run_first Hs ltac:(destruct (ns_connection_mode self); [apply succeeds_tcp_send|by eexists]) solve_preserves.
  run_first Hs ltac:(apply succeeds_effect) solve_preserves.
  run_first Hs ltac:(apply succeeds_announce_pids) ltac:(apply P_announce_pids).
  run_first Hs ltac:(apply succeeds_effect) solve_preserves.
  run_first Hs ltac:(apply succeeds_effect) solve_preserves.
  run_first Hs ltac:(apply succeeds_announce_groups) ltac:(apply P_announce_groups).
  run_first Hs ltac:(apply succeeds_tcp_send) solve_preserves.
  unfold sync_sent. rewrite bind_reads, (k_ready _ _ _ _ _ _ Hs). eexists. split; [done|].
  apply (kept_set_ready SyncSent _ Hs).
Qed.

Lemma newly_authenticated_spec {a n cs rand} s :
  kept a n ReadyOpen cs rand s → auth_is_ok a = true →
  ∃ s', newly_authenticated s = (Ok tt, s') ∧
          (∃ r, r ≠ Ready ∧ kept a n r (cs ++ [ConnectionAuthenticated (myself self)]) rand s') ∨
        (∃ e, newly_authenticated s = (Err e, s')) ∧ kept a n ReadyOpen cs rand s'.
Proof.
  intros Hs Hok. unfold newly_authenticated.
  destruct (server_cast_or_err_spec (ConnectionAuthenticated (myself self)) s Hs) as (s1 & [[E Hs1]|[[e E] Hs1]]);
    [rewrite (bind_ok _ _ _ _ _ E); clear E Hs|exists s1; right; split; [|done]; exists e; unfold mbind, M_bind; by rewrite E].
  rewrite bind_reads.
  assert (∃ el s2, match name s1.1 with
    | Some _ => reply ← world_read sw_check;
        mret match reply with Some NoOtherConnection | Some ThisConnectionContinues => true | _ => false end
    | None => mret false end s1 = (Ok el, s2) ∧
    kept a n ReadyOpen (cs ++ [ConnectionAuthenticated (myself self)]) rand s2) as (el & s2 & E & Hs2).
  { destruct (name s1.1); [|by exists false, s1]. rewrite bind_world. eexists _, _. split; [done|]. by apply P_world_read. }
  rewrite (bind_ok _ _ _ _ _ E). clear E. destruct el.
  - destruct (after_authenticated_spec s2 Hs2 Hok) as (s3 & E & Hs3). rewrite (bind_ok _ _ _ _ _ E), bind_reads.
    rewrite (k_ready _ _ _ _ _ _ Hs3). exists s3. left. split; [done|]. by exists SyncSent.
  - eexists. left. split; [done|]. exists ReadyOpen. split; [done|]. by apply P_effect.
Qed.

(** ** The handshake, step by step *)

Lemma kept_set_auth {a n r cs rand} a' s :
  kept a n r cs rand s → auth_is_ok a = false → kept a' n r cs rand (set_auth a' s.1, s.2).
Proof.
  intros [H1 H2 H3 H4 H5 H6 H7 H8 H9] Ha. split; try done. rewrite Ha in H9. destruct H9 as [|[? ?]]; [done|]. by right.
Qed.

Lemma kept_set_name {a n r cs rand} x s : kept a n r cs rand s → kept a (Some x) r cs rand (set_name x s.1, s.2).
Proof. intros [H1 H2 H3 H4 H5 H6 H7 H8 H9]. by split. Qed.

Lemma kept_set_connection {a n r cs rand} x s : kept a n r cs rand s → kept a n r cs rand (set_connection x s.1, s.2).
Proof. intros [H1 H2 H3 H4 H5 H6 H7 H8 H9]. by split. Qed.

(** The peer's name is not known yet. *)
Definition early (a : AuthenticationState) : bool :=
  match a with
  | AsClient WaitingForServerStatus | AsClient (WaitingForServerChallenge _) | AsServer WaitingOnPeerName => true
  | _ => false
  end.

(** The last challenge is out. *)
Definition awaiting (a : AuthenticationState) (c : N) (d : Digest) : Prop :=
  match a with
  | AsClient (WaitingForServerChallengeAck _ _ c' d') => c' = c ∧ d' = d
  | AsServer (WaitingOnClientChallengeReply c' d') => c' = c ∧ d' = d
  | _ => False
  end.

Definition role (a : AuthenticationState) : bool := match a with AsServer _ => true | AsClient _ => false end.

(** The peer's name is known. *)
Definition named (a : AuthenticationState) : bool :=
  match a with
  | AsClient (WaitingForServerChallengeAck _ _ _ _) | AsClient ClientOk
  | AsServer WaitingOnClientStatus | AsServer (WaitingOnClientChallengeReply _ _) | AsServer (ServerOk _) => true
  | _ => false
  end.

(** The message that proves knowledge of the cookie *)
Definition proves (server : bool) (d : Digest) (m : option AuthMsg) : Prop :=
  if server then ∃ c, m = Some (MClientChallenge c d) else m = Some (MServerAck d).

(** What one authentication message can do to a session that is not authenticated *)
Record moved (a : AuthenticationState) (n : option NameMessage) (m : option AuthMsg) (rand : nat → N)
    (a' : AuthenticationState) (n' : option NameMessage) (us : list NodeServerMessage) : Prop := {
  mv_role : role a' = role a;
  mv_ok : auth_is_ok a' = true → ∃ c d, awaiting a c d ∧ proves (role a) d m ∧ n' = n ∧ us = [];
  mv_awaiting c d : awaiting a' c d → d = challenge_digest sha256 (ns_cookie self) c ∧ ∃ k, c = rand k;
  mv_named : named a' = true → is_Some n' ∨ named a = true ∧ n' = n;
  mv_early : early a' = true → early a = true ∧ us = [];
  mv_late : early a = false → n' = n ∧ us = [];
  mv_update : us = [] ∧ n' = n ∨
    ∃ u x, (us = [] ∨ us = [UpdateSession (myself self) u]) ∧ n' = Some x ∧ node_name u = node_name x
}.

Lemma when_effect b e s : (when b (effect e)) s = (Ok tt, if b then (effect e s).2 else s).
Proof. by destruct b. Qed.

Lemma kept_when {a n r cs rand} (b : bool) e s :
  kept a n r cs rand s → cast_of e = None → trusted e = false →
  kept a n r cs rand (if b then (effect e s).2 else s).
Proof. intros Hs He Ht. destruct b; [by apply P_effect|done]. Qed.

(** The end of both handlers: stop on failure and store the state *)
Definition finish (closed : bool) (a' : AuthenticationState) : SM unit :=
  when closed (effect (StopSelf "auth_fail")) ;; upd (set_auth a').

Lemma finish_kept {a n r cs rand} closed a' s :
  kept a n r cs rand s → auth_is_ok a = false →
  ∃ s', finish closed a' s = (Ok tt, s') ∧ kept a' n r cs rand s'.
Proof.
  intros Hs Ha. unfold finish. rewrite (bind_ok _ _ _ _ _ (when_effect closed _ s)). eexists. split; [done|].
  apply (kept_set_auth (a := a) a' _); [|done]. by apply kept_when.
Qed.

Lemma tcp_send_kept {a n r cs rand} m s :
  kept a n r cs rand s → ∃ s', tcp_send m s = (Ok tt, s') ∧ kept a n r cs rand s'.
Proof.
  intros Hs. destruct (run_kept _ (tcp_send m) s (succeeds_tcp_send m) (P_tcp_send m) Hs) as ([] & s' & E & Hs'). eauto.
Qed.

(** From what the match on the next state did to the whole handler *)
Lemma auth_conclude {T} {a n r cs rand m} (inner : SM T) (close : T → bool) (as_state : T → AuthenticationState)
    s1 next s2 n' us :
  inner s1 = (Ok next, s2) → kept a n' r (cs ++ us) rand s2 → auth_is_ok a = false →
  moved a n m rand (as_state next) n' us →
  ∃ s' a' n' us,
    (next ← inner; when (close next) (effect (StopSelf "auth_fail")) ;; upd (set_auth (as_state next))) s1 = (Ok tt, s') ∧
    kept a' n' r (cs ++ us) rand s' ∧ moved a n m rand a' n' us.
Proof.
  intros E Hs2 Hok Hm. destruct (finish_kept (close next) (as_state next) s2 Hs2 Hok) as (s' & E' & Hs').
  exists s', (as_state next), n', us. split_and!; [|done|done]. rewrite (bind_ok _ _ _ _ _ E). exact E'.
Qed.

Lemma moved_close a n m rand a' :
  named a' = false → role a' = role a → early a' = false → moved a n m rand a' n [].
Proof.
  intros H1 H2 H3. split; [done| | |congruence|congruence|done|by left].
  - by destruct a' as [[]|[]].
  - by destruct a' as [[]|[]].
Qed.

Lemma client_auth_spec {n r cs rand} p m s :
  kept (AsClient p) n r cs rand s → auth_is_ok (AsClient p) = false →
  ∃ s' a' n' us, client_auth p m s = (Ok tt, s') ∧ kept a' n' r (cs ++ us) rand s' ∧
    moved (AsClient p) n m rand a' n' us.
Proof.
  intros Hs Hok. unfold client_auth. rewrite bind_world.
  pose proof (P_world_read sw_rand s Hs) as Hs1. rewrite (k_rand _ _ _ _ _ _ Hs).
  set (s1 := (world_read sw_rand s).2) in *. clearbody s1. set (q := rand (sw_reads s.2)).
  rewrite <-(app_nil_r cs) in Hs1.
  assert (Hclose : moved (AsClient p) n m rand (AsClient ClientClose) n [])
    by (by apply moved_close).
  destruct m as [[nm|st|b|c|c d|d]|]; destruct p as [|st'|c0 rep c1 d1| |]; try done; cbn [client_next];
    try (by eapply (auth_conclude _ _ AsClient)).
  - destruct st; try (by eapply (auth_conclude _ _ AsClient)).
    + eapply (auth_conclude _ _ AsClient); [done|done|done|]. split; try done. by left.
    + eapply (auth_conclude _ _ AsClient); [done|done|done|]. split; try done. by left.
    + destruct (tcp_send_kept (NAuth (Some (MClientStatus true))) s1 Hs1) as (s2 & E2 & Hs2).
      eapply (auth_conclude _ _ AsClient); [unfold tcp_send_auth; by rewrite (bind_ok _ _ _ _ _ E2)|done|done|].
      split; try done. by left.
  - rewrite app_nil_r in Hs1. set (x := mkName (challenge_name c) (challenge_flags c) (challenge_connection_string c) 0).
    set (u := set_connection_id (ns_connection_id self) x).
    destruct (server_cast_spec (UpdateSession (myself self) u) _ (kept_set_name x s1 Hs1)) as (s2 & Hcast).
    assert (∃ us ok, (us = [] ∨ us = [UpdateSession (myself self) u]) ∧
      server_cast (UpdateSession (myself self) u) (set_name x s1.1, s1.2) = (Ok ok, s2) ∧
      kept (AsClient (WaitingForServerChallenge st')) (Some x) r (cs ++ us) rand s2) as (us & ok & Hus & E2 & Hs2).
    { destruct Hcast as [[E Hk]|[E Hk]]; [by exists [UpdateSession (myself self) u], true; auto|].
      exists [], false. rewrite app_nil_r. auto. }
    destruct (tcp_send_kept (NAuth (Some (MClientChallenge q (challenge_digest sha256 (ns_cookie self) (challenge_value c)))))
      s2 Hs2) as (s3 & E3 & Hs3).
    eapply (auth_conclude _ _ AsClient); [|exact Hs3|done|].
    + rewrite bind_upd. rewrite (bind_ok _ _ _ _ _ E2). unfold tcp_send_auth. by rewrite (bind_ok _ _ _ _ _ E3).
    + split; try done.
      * intros c' d' [<- <-]. split; [done|by eexists].
      * intros _. by left.
      * right. by exists u, x.
  - case_bool_decide as Hd; try (by eapply (auth_conclude _ _ AsClient)).
    eapply (auth_conclude _ _ AsClient); [done|done|done|]. split; try done.
    + intros _. exists c1, d1. subst d. by split_and!.
    + intros _. by right.
    + by left.
Qed.

Lemma server_status_spec {n r cs us rand} m u x s :
  kept (AsServer WaitingOnPeerName) (Some x) r (cs ++ us) rand s →
  us = [] ∨ us = [UpdateSession (myself self) u] → node_name u = node_name x →
  ∀ reply, ∃ next s', server_status (HavePeerName u) reply s = (Ok next, s') ∧
    kept (AsServer WaitingOnPeerName) (Some x) r (cs ++ us) rand s' ∧
    moved (AsServer WaitingOnPeerName) n m rand (AsServer next) (Some x) us.
Proof.
  intros Hs Hus Hu reply. unfold server_status. cbv zeta.
  destruct (tcp_send_kept (NAuth (Some (MServerStatus (status_of_reply reply)))) s Hs) as (s1 & E1 & Hs1).
  unfold tcp_send_auth. rewrite (bind_ok _ _ _ _ _ E1). clear E1.
  assert (Hupd : ∃ u' x', (us = [] ∨ us = [UpdateSession (myself self) u']) ∧ Some x = Some x' ∧ node_name u' = node_name x')
    by (by exists u, x).
  assert (Hgo : ∃ next s', (r0 ← world_read sw_rand;
      let next := start_challenge sha256 r0 (HavePeerName u) (ns_cookie self) in
      match next with
      | WaitingOnClientChallengeReply challenge _ =>
          let this := ns_this_node_name self in
          tcp_send (NAuth (Some (MServerChallenge (mkChallenge (node_name this) (flags this) challenge (connection_string this)))))
      | _ => mret tt
      end ;; mret next) s1 = (Ok next, s') ∧
    kept (AsServer WaitingOnPeerName) (Some x) r (cs ++ us) rand s' ∧
    moved (AsServer WaitingOnPeerName) n m rand (AsServer next) (Some x) us).
  { rewrite bind_world. pose proof (P_world_read sw_rand s1 Hs1) as Hs2. rewrite (k_rand _ _ _ _ _ _ Hs1).
    set (s2 := (world_read sw_rand s1).2) in *. set (q := rand (sw_reads s1.2)). cbn [start_challenge].
    match goal with |- context [tcp_send ?z] => destruct (tcp_send_kept z s2 Hs2) as (s3 & E3 & Hs3) end.
    eexists _, s3. split_and!; [by rewrite (bind_ok _ _ _ _ _ E3)|done|]. split; try done.
    - intros c d [<- <-]. split; [done|by eexists].
    - by left.
    - by right. }
  destruct reply; cbn [status_of_reply]; [exact Hgo| |exact Hgo|].
  - eexists _, s1. split_and!; [done|done|]. split; try done. by right.
  - eexists _, s1. split_and!; [done|done|]. split; try done; [by left|by right].
Qed.

Lemma server_auth_spec {n r cs rand} p m s :
  kept (AsServer p) n r cs rand s → auth_is_ok (AsServer p) = false →
  ∃ s' a' n' us, server_auth p m s = (Ok tt, s') ∧ kept a' n' r (cs ++ us) rand s' ∧
    moved (AsServer p) n m rand a' n' us.
Proof.
  intros Hs Hok. unfold server_auth. rewrite bind_world.
  pose proof (P_world_read sw_rand s Hs) as Hs1. rewrite (k_rand _ _ _ _ _ _ Hs).
  set (s1 := (world_read sw_rand s).2) in *. clearbody s1. set (q := rand (sw_reads s.2)).
  rewrite <-(app_nil_r cs) in Hs1.
  assert (Hclose : moved (AsServer p) n m rand (AsServer ServerClose) n []) by (by apply moved_close).
  destruct m as [[nm|st|b|c|c d|d]|]; destruct p as [|x'| |c1 d1| |]; try done; cbn [server_next];
    try (by eapply (auth_conclude _ _ AsServer)).
  - rewrite app_nil_r in Hs1. set (x := set_connection_id 0 nm).
    destruct (server_cast_spec (UpdateSession (myself self) nm) _
      (kept_set_connection (name_connection_id nm) _ (kept_set_name x s1 Hs1))) as (s2 & Hcast).
    assert (∃ us ok, (us = [] ∨ us = [UpdateSession (myself self) nm]) ∧
      server_cast (UpdateSession (myself self) nm) (set_connection (name_connection_id nm) (set_name x s1.1), s1.2) = (Ok ok, s2) ∧
      kept (AsServer WaitingOnPeerName) (Some x) r (cs ++ us) rand s2) as (us & ok & Hus & E2 & Hs2).
    { destruct Hcast as [[E Hk]|[E Hk]]; [by exists [UpdateSession (myself self) nm], true; auto|].
      exists [], false. rewrite app_nil_r. auto. }
    pose proof (P_world_read sw_check s2 Hs2) as Hs3. set (s3 := (world_read sw_check s2).2) in *.
    destruct (sw_check s2.2 (sw_reads s2.2)) as [reply|] eqn:Er.
    + destruct (server_status_spec (n := n) (Some (MName nm)) nm x s3 Hs3 Hus eq_refl reply) as (next & s4 & E4 & Hs4 & Hm).
      eapply (auth_conclude _ _ AsServer); [|exact Hs4|done|exact Hm].
      rewrite !bind_upd. rewrite (bind_ok _ _ _ _ _ E2), bind_world, Er. exact E4.
    + eapply (auth_conclude _ _ AsServer); [rewrite !bind_upd; rewrite (bind_ok _ _ _ _ _ E2), bind_world, Er; done|exact Hs3|done|].
      split; try done. right. by exists nm, x.
  - destruct b; cbn [negb start_challenge]; try (by eapply (auth_conclude _ _ AsServer)).
    eapply (auth_conclude _ _ AsServer); [done|done|done|]. split; try done.
    + intros c d [<- <-]. split; [done|by eexists].
    + by right.
    + by left.
  - case_bool_decide as Hd; try (by eapply (auth_conclude _ _ AsServer)).
    destruct (tcp_send_kept (NAuth (Some (MServerAck (challenge_digest sha256 (ns_cookie self) c)))) s1 Hs1) as (s2 & E2 & Hs2).
    eapply (auth_conclude _ _ AsServer); [unfold tcp_send_auth; by rewrite (bind_ok _ _ _ _ _ E2)|done|done|].
    split; try done.
    + intros _. exists c1, d1. subst d. split_and!; [done|by eexists|done|done].
    + intros _. by right.
    + by left.
Qed.

Lemma handle_auth_spec {a n r cs rand} m s :
  kept a n r cs rand s → auth_is_ok a = false →
  ∃ s' a' n' us, handle_auth m s = (Ok tt, s') ∧ kept a' n' r (cs ++ us) rand s' ∧ moved a n m rand a' n' us.
Proof.
  intros Hs Hok. unfold handle_auth. rewrite bind_reads, (k_auth _ _ _ _ _ _ Hs), Hok.
  assert (∃ s1, when (auth_is_close a) (effect (StopSelf "auth_fail") ;; t ← reads tcp;
     match t with Some _ => effect (StopTcp "auth_fail") | None => mret tt end) s = (Ok tt, s1) ∧ kept a n r cs rand s1)
    as (s1 & E & Hs1).
  { destruct (auth_is_close a); [|by exists s]. cbn [when]. rewrite bind_effect, bind_reads.
    assert (kept a n r cs rand (effect (StopSelf "auth_fail") s).2) as Hs1 by (by apply P_effect).
    destruct (tcp _); eexists; (split; [done|]); [by apply P_effect|done]. }
  rewrite (bind_ok _ _ _ _ _ E). destruct a as [p|p]; [by apply client_auth_spec|by apply server_auth_spec].
Qed.

(** ** No handler panics *)

Definition no_panic {A} (m : SM A) : Prop := ∀ s, (m s).1 ≠ Panic.

Lemma no_panic_bind {A B} (m : SM A) (k : A → SM B) : no_panic m → (∀ x, no_panic (k x)) → no_panic (m ≫= k).
Proof.
  intros Hm Hk s. specialize (Hm s). unfold mbind, M_bind. destruct (m s) as [[x|e|] s'] eqn:E; [apply Hk|done|done].
Qed.

Lemma no_panic_when b (m : SM unit) : no_panic m → no_panic (when b m).
Proof. by destruct b. Qed.

Lemma no_panic_for_each {A} (l : list A) (f : A → SM unit) : (∀ x, no_panic (f x)) → no_panic (for_each l f).
Proof. intros Hf. induction l as [|x l IH]; [done|]. by apply no_panic_bind. Qed.

Lemma no_panic_try_get {A} (m : SM A) : no_panic m → no_panic (try_get m).
Proof. intros Hm s. specialize (Hm s). unfold try_get. by destruct (m s) as [[]]. Qed.

Ltac solve_no_panic :=
  repeat (cbv beta zeta; match goal with
  | |- no_panic (mbind _ _) => apply no_panic_bind; [|intros ?]
  | |- no_panic (when _ _) => apply no_panic_when
  | |- no_panic (for_each _ _) => apply no_panic_for_each; intros ?
  | |- no_panic (try_get _) => apply no_panic_try_get
  | |- no_panic (match ?x with _ => _ end) => destruct x
  | |- no_panic (tcp_send_control _) => unfold tcp_send_control, tcp_send
  | |- no_panic _ => by intros ?
  | |- no_panic _ => solve [eauto with ractor]
  end).

Lemma no_panic_get_or_spawn nm p : no_panic (get_or_spawn_remote_actor nm p).
Proof. unfold get_or_spawn_remote_actor. solve_no_panic. Qed.

Lemma no_panic_stop_and_wait c reason : no_panic (stop_and_wait c reason).
Proof. unfold stop_and_wait. solve_no_panic. Qed.

Lemma no_panic_spawn_all actors cells : no_panic (spawn_all actors cells).
Proof.
  revert cells. induction actors as [|x actors IH]; intros cells; cbn [spawn_all]; [done|].
  apply no_panic_bind; [apply no_panic_try_get, no_panic_get_or_spawn|]. intros c. apply IH.
Qed.

Lemma no_panic_authorized p : no_panic (authorized_local_actor p).
Proof. unfold authorized_local_actor. solve_no_panic. Qed.

Lemma no_panic_server_cast m : no_panic (server_cast_or_err m).
Proof. unfold server_cast_or_err, server_cast. solve_no_panic. Qed.

#[local] Hint Resolve no_panic_get_or_spawn no_panic_stop_and_wait no_panic_spawn_all no_panic_authorized
  no_panic_server_cast : ractor.

Lemma no_panic_supervisor e : no_panic (session_supervisor_evt e).
Proof. unfold session_supervisor_evt, take_remote. solve_no_panic. Qed.

Lemma no_panic_handle_node m : no_panic (handle_node m).
Proof. unfold handle_node, fresh_port. solve_no_panic. Qed.

Lemma no_panic_handle_control m : no_panic (handle_control m).
Proof.
  unfold handle_control, handle_ready, handle_pong, enumerate_sessions, connect_transitively. solve_no_panic.
Qed.

(** ** The invariant of a session *)

Definition received (ins : list session_in) (m : option AuthMsg) : Prop :=
  InMessage (MessageReceived (Some (NAuth m))) ∈ ins.

(** The session's own challenges, and what was answered to the last one *)
Definition auth_fact (ins : list session_in) (rand : nat → N) (a : AuthenticationState) : Prop :=
  (∀ c d, awaiting a c d → d = challenge_digest sha256 (ns_cookie self) c ∧ ∃ k, c = rand k) ∧
  (auth_is_ok a = true → ∃ k m, received ins m ∧ proves (role a) (challenge_digest sha256 (ns_cookie self) (rand k)) m).

Definition updates (n : option NameMessage) (us : list NodeServerMessage) : Prop :=
  us = [] ∨ ∃ u x, us = [UpdateSession (myself self) u] ∧ n = Some x ∧ node_name u = node_name x.

Abbreviation Authenticated := (ConnectionAuthenticated (myself self)).
Abbreviation IsReady := (ConnectionReady (myself self)).

(** What the node server is told: first the peer's name, then that the session is authenticated - unless the
    peer is this node itself -, then that it is ready *)
Definition orderly (n : option NameMessage) (cs : list NodeServerMessage) : Prop :=
  ∃ us, updates n us ∧
    (cs = us ∨ (cs = us ++ [Authenticated] ∨ cs = us ++ [Authenticated; IsReady]) ∧
               ∃ x, n = Some x ∧ node_name x ≠ node_name (ns_this_node_name self)).

Definition session_weak (ins : list session_in) (rand : nat → N) (s : NodeSessionState * SessionWorld) : Prop :=
  ∃ a n r cs, kept a n r cs rand s ∧ auth_fact ins rand a ∧ role a = ns_is_server self ∧ orderly n cs.

Record session_inv (ins : list session_in) (rand : nat → N) (a : AuthenticationState) (n : option NameMessage)
    (r : ReadyState) (cs : list NodeServerMessage) : Prop := {
  sv_auth : auth_fact ins rand a;
  sv_role : role a = ns_is_server self;
  sv_named : named a = true → is_Some n;
  sv_early : early a = true → cs = [];
  sv_open : auth_is_ok a = false → updates n cs ∧ r = ReadyOpen;
  sv_ok : auth_is_ok a = true → ∃ us x, updates n us ∧ n = Some x ∧ node_name x ≠ node_name (ns_this_node_name self) ∧
    (cs = us ++ [Authenticated] ∧ r ≠ Ready ∨ cs = us ++ [Authenticated; IsReady] ∧ r = Ready)
}.

Lemma auth_fact_mono ins i rand a : auth_fact ins rand a → auth_fact (ins ++ [i]) rand a.
Proof.
  intros [H1 H2]. split; [done|]. intros Hok. destruct (H2 Hok) as (k & m & Hm & Hp). exists k, m. split; [|done].
  apply elem_of_app. by left.
Qed.

Lemma session_inv_mono ins i rand a n r cs : session_inv ins rand a n r cs → session_inv (ins ++ [i]) rand a n r cs.
Proof. intros [H1 H2 H3 H4 H5 H6]. split; try done. by apply auth_fact_mono. Qed.

Lemma inv_weak ins rand a n r cs s : kept a n r cs rand s → session_inv ins rand a n r cs → session_weak ins rand s.
Proof.
  intros Hs [H1 H2 H3 H4 H5 H6]. exists a, n, r, cs. split_and!; try done. destruct (auth_is_ok a).
  - destruct H6 as (us & x & Hu & Hn & Hx & Hcs); [done|]. exists us. split; [done|]. right.
    split; [by destruct Hcs as [[? _]|[? _]]; auto|eauto].
  - exists cs. split; [by apply H5|by left].
Qed.

(** One step keeps the invariant, unless it ends the session. *)
Definition step_ok (ins : list session_in) (rand : nat → N) (res : res unit * (NodeSessionState * SessionWorld)) : Prop :=
  res.1 ≠ Panic ∧ session_weak ins rand res.2 ∧
  (res.1 = Ok tt → ∃ a n r cs, kept a n r cs rand res.2 ∧ session_inv ins rand a n r cs).

Lemma step_ok_intro ins rand x s a n r cs :
  x ≠ Panic → kept a n r cs rand s → session_inv ins rand a n r cs → step_ok ins rand (x, s).
Proof. intros Hx Hs Hi. split_and!; [done|by eapply inv_weak|]. intros _. by exists a, n, r, cs. Qed.

Lemma step_ok_kept ins rand (m : SM unit) a n r cs s :
  no_panic m → preserves (kept a n r cs rand) m → kept a n r cs rand s → session_inv ins rand a n r cs →
  step_ok ins rand (m s).
Proof.
  intros Hm Hp Hs Hi. specialize (Hp s Hs). specialize (Hm s). destruct (m s) as [x s']. cbn in *.
  by eapply step_ok_intro.
Qed.

(** An authentication message that does not complete the handshake *)
Lemma moved_inv ins rand a n cs m a' n' us :
  session_inv ins rand a n ReadyOpen cs → auth_is_ok a = false → moved a n m rand a' n' us → auth_is_ok a' = false →
  session_inv (ins ++ [InMessage (MessageReceived (Some (NAuth m)))]) rand a' n' ReadyOpen (cs ++ us).
Proof.
  intros [[H0 H1] H2 H3 H4 H5 H6] Hok Hm Hok'. split.
  - split; [apply (mv_awaiting _ _ _ _ _ _ _ Hm)|congruence].
  - by rewrite (mv_role _ _ _ _ _ _ _ Hm).
  - intros Hn'. destruct (mv_named _ _ _ _ _ _ _ Hm Hn') as [?|[Hn ->]]; [done|by apply H3].
  - intros He. destruct (mv_early _ _ _ _ _ _ _ Hm He) as [He' ->]. by rewrite H4.
  - intros _. split; [|done]. destruct (H5 Hok) as [Hu _]. destruct (early a) eqn:Ee.
    + rewrite H4 by done. destruct (mv_update _ _ _ _ _ _ _ Hm) as [[-> ->]|(u & x & [->| ->] & -> & Hux)];
        [by left|by left|right; by exists u, x].
    + destruct (mv_late _ _ _ _ _ _ _ Hm Ee) as [-> ->]. by rewrite app_nil_r.
  - congruence.
Qed.

Lemma ok_not_awaiting a c d : auth_is_ok a = true → ¬ awaiting a c d.
Proof. intros Hok Hw. by destruct a as [[]|[]]. Qed.

Lemma awaiting_named a c d : awaiting a c d → named a = true.
Proof. intros Hw. by destruct a as [[]|[]]. Qed.

(** The message that completes the handshake *)
Lemma moved_ok ins rand a n cs m a' n' us :
  session_inv ins rand a n ReadyOpen cs → auth_is_ok a = false → moved a n m rand a' n' us → auth_is_ok a' = true →
  auth_fact (ins ++ [InMessage (MessageReceived (Some (NAuth m)))]) rand a' ∧ role a' = ns_is_server self ∧
  n' = n ∧ us = [] ∧ is_Some n ∧ updates n cs.
Proof.
  intros [[H0 H1] H2 H3 H4 H5 H6] Hok Hm Hok'.
  destruct (mv_ok _ _ _ _ _ _ _ Hm Hok') as (c & d & Hw & Hp & -> & ->). destruct (H0 c d Hw) as [-> [k ->]].
  split_and!; [|by rewrite (mv_role _ _ _ _ _ _ _ Hm)|done|done|by apply H3, (awaiting_named _ _ _ Hw)|by apply H5].
  split; [intros c' d' Hw'; by destruct (ok_not_awaiting a' c' d' Hok')|]. intros _. exists k, m.
  split; [apply elem_of_app; right; by left|]. by rewrite (mv_role _ _ _ _ _ _ _ Hm).
Qed.

Lemma handle_network_auth ins rand a n r cs m s :
  kept a n r cs rand s → session_inv ins rand a n r cs →
  (∀ x, n = Some x → node_name x ≠ node_name (ns_this_node_name self)) →
  step_ok (ins ++ [InMessage (MessageReceived (Some (NAuth m)))]) rand (handle_network (NAuth m) s).
Proof.
  intros Hs Hi Hself. cbn [handle_network]. rewrite bind_reads, (k_auth _ _ _ _ _ _ Hs).
  destruct (auth_is_ok a) eqn:Hok.
  - assert (handle_auth m s = (Ok tt, s)) as E.
    { unfold handle_auth. by rewrite bind_reads, (k_auth _ _ _ _ _ _ Hs), Hok. }
    rewrite (bind_ok _ _ _ _ _ E), bind_reads. cbn [negb andb when].
    eapply step_ok_intro; [done|done|by apply session_inv_mono].
  - destruct (sv_open _ _ _ _ _ _ Hi Hok) as [_ ->].
    destruct (handle_auth_spec m s Hs Hok) as (s1 & a' & n' & us & E & Hs1 & Hm).
    rewrite (bind_ok _ _ _ _ _ E), bind_reads, (k_auth _ _ _ _ _ _ Hs1). cbn [negb andb].
    destruct (auth_is_ok a') eqn:Hok'; cbn [when].
    + destruct (moved_ok _ _ _ _ _ _ _ _ _ Hi Hok Hm Hok') as (Hf & Hr & -> & -> & [x ->] & Hu).
      rewrite app_nil_r in Hs1. specialize (Hself x eq_refl).
      destruct (newly_authenticated_spec s1 Hs1 Hok') as (s2 & [(-> & r & Hr' & Hs2)|[[e ->] Hs2]]).
      * eapply step_ok_intro; [done|exact Hs2|].
        split; [done|done|by eexists|by destruct a' as [[]|[]]|congruence|].
        intros _. exists cs, x. split_and!; [done|done|done|]. by left.
      * split_and!; [done| |done]. exists a', (Some x), ReadyOpen, cs. split_and!; [done|done|done|].
        exists cs. split; [done|by left].
    + eapply step_ok_intro; [done|exact Hs1|by apply moved_inv with (a := a) (n := n)].
Qed.

Lemma handle_control_ready ins rand a n r cs i s :
  kept a n r cs rand s → session_inv ins rand a n r cs → step_ok (ins ++ [i]) rand (handle_control (Some CReady) s).
Proof.
  intros Hs Hi. unfold handle_control. rewrite bind_reads, (k_auth _ _ _ _ _ _ Hs).
  destruct (auth_is_ok a) eqn:Hok; cbn [negb]; [|eapply step_ok_intro; [done|done|by apply session_inv_mono]].
  destruct (sv_ok _ _ _ _ _ _ Hi Hok) as (us & x & Hu & Hn & Hx & Hcs).
  pose proof (session_inv_mono _ i _ _ _ _ _ Hi) as Hi'. destruct (handle_ready_spec s Hs) as (s1 & Hr).
  assert (Hnew : ∀ r' cs', (cs' = us ++ [Authenticated] ∧ r' ≠ Ready ∨ cs' = us ++ [Authenticated; IsReady] ∧ r' = Ready) →
    session_inv (ins ++ [i]) rand a n r' cs').
  { intros r' cs' Hc. destruct Hi' as [H1 H2 H3 H4 H5 H6]. split; try done; [by destruct a as [[]|[]]|congruence|].
    intros _. by exists us, x. }
  destruct r.
  - destruct Hr as [-> Hs1]. eapply step_ok_intro; [done|exact Hs1|]. apply Hnew.
    destruct Hcs as [[-> _]|[_ ?]]; [by left|done].
  - destruct Hcs as [[-> _]|[_ ?]]; [|done]. destruct Hr as [[-> Hs1]|[[e ->] Hs1]].
    + eapply step_ok_intro; [done|exact Hs1|]. apply Hnew. right. by rewrite <-app_assoc.
    + split_and!; [done| |done]. exists a, n, Ready, (us ++ [Authenticated]).
      split_and!; [done|by apply Hi'|by apply Hi'|]. exists us. split; [done|]. right. split; [by left|eauto].
  - destruct Hr as [-> Hs1]. by eapply step_ok_intro.
  - destruct Hr as [-> Hs1]. by eapply step_ok_intro.
Qed.

Lemma not_self_name x : is_self x = false → node_name x ≠ node_name (ns_this_node_name self).
Proof. unfold is_self. intros [_ H%bool_decide_eq_false]%orb_false_iff. congruence. Qed.

Lemma session_step_ok ins rand a n r cs i s :
  kept a n r cs rand s → session_inv ins rand a n r cs → step_ok (ins ++ [i]) rand (session_step i s).
Proof.
  intros Hs Hi. pose proof (session_inv_mono _ i _ _ _ _ _ Hi) as Hi'.
  destruct i as [m|e]; cbn [session_step];
    [|eapply step_ok_kept; [apply no_panic_supervisor|apply P_supervisor_evt|done|done]].
  unfold session_handle. rewrite bind_reads, (k_name _ _ _ _ _ _ Hs).
  destruct (match n with Some peer => is_self peer | None => false end) eqn:Eself.
  { eapply step_ok_intro; [done|by apply P_effect|done]. }
  assert (∀ x, n = Some x → node_name x ≠ node_name (ns_this_node_name self)) as Hself.
  { intros x ->. by apply not_self_name. }
  destruct (k_tcp _ _ _ _ _ _ Hs) as [t Ht]. rewrite bind_reads, Ht.
  destruct m as [[nm|]|m| |]; cbn beta iota.
  - destruct nm as [m|m|m]; [by eapply handle_network_auth|cbn [handle_network]..].
    + destruct (auth_is_ok a) eqn:Hok.
      * eapply step_ok_kept; [apply no_panic_handle_node|by apply P_handle_node|done|done].
      * assert (handle_node m s = (Ok tt, s)) as ->; [|by eapply step_ok_intro].
        unfold handle_node. by rewrite bind_reads, (k_auth _ _ _ _ _ _ Hs), Hok.
    + destruct (auth_is_ok a) eqn:Hok.
      * assert (m = Some CReady ∨ m ≠ Some CReady) as [->|Hm] by (destruct m as [[]|]; auto);
          [by eapply handle_control_ready|].
        eapply step_ok_kept; [apply no_panic_handle_control|by apply P_handle_control|done|done].
      * assert (handle_control m s = (Ok tt, s)) as ->; [|by eapply step_ok_intro].
        unfold handle_control. by rewrite bind_reads, (k_auth _ _ _ _ _ _ Hs), Hok.
  - by eapply step_ok_intro.
  - eapply step_ok_kept; [|apply (P_tcp_send (NNode m))|done|done]. intros s'. cbn [when].
    unfold tcp_send_node. destruct (succeeds_tcp_send (NNode m) s') as [x ->]. done.
  - eapply step_ok_intro; [done|by apply P_effect|done].
  - eapply step_ok_intro; [done|by apply P_effect|done].
Qed.

Lemma run_session_ok pre rand a n r cs ins s :
  kept a n r cs rand s → session_inv pre rand a n r cs →
  (run_session ins s).1 ≠ Panic ∧ session_weak (pre ++ ins) rand (run_session ins s).2.
Proof.
  revert pre a n r cs s. induction ins as [|i ins IH]; intros pre a n r cs s Hs Hi.
  { rewrite app_nil_r. split; [done|]. by eapply inv_weak. }
  cbn [run_session]. destruct (session_step_ok pre rand a n r cs i s Hs Hi) as (H1 & H2 & H3).
  destruct (session_step i s) as [[[]|e|] s']; cbn in *; [|split; [done|]|done].
  - destruct H3 as (a' & n' & r' & cs' & Hs' & Hi'); [done|].
    destruct (IH (pre ++ [i]) a' n' r' cs' s' Hs' Hi') as [H4 H5]. split; [done|]. by rewrite <-app_assoc in H5.
  - destruct H2 as (a' & n' & r' & cs' & Hs' & [Hf1 Hf2] & Hr & Ho). exists a', n', r', cs'. split_and!; try done.
    split; [done|]. intros Hok. destruct (Hf2 Hok) as (k & m & Hm & Hp). exists k, m. split; [|done].
    unfold received in *. revert Hm. rewrite !elem_of_app, !elem_of_cons.
    intros [?|[?|[]%not_elem_of_nil]]; auto.
Qed.

Lemma pre_start_kept t w :
  sw_log w = [] →
  kept (if ns_is_server self then AsServer server_init else AsClient client_init) None ReadyOpen [] (sw_rand w)
    (session_pre_start t w).
Proof.
  intros Hw. unfold session_pre_start.
  assert (kept (if ns_is_server self then AsServer server_init else AsClient client_init) None ReadyOpen [] (sw_rand w)
    (mkState (Some t) false false false None (ns_connection_id self)
      (if ns_is_server self then AsServer server_init else AsClient client_init) ReadyOpen ∅ ∅, w)) as Hs.
  { split; cbn; rewrite ?Hw; try done.
    - by intros ? ? ? ?%not_elem_of_nil.
    - right. split; [done|]. by intros e ?%not_elem_of_nil. }
  destruct (ns_is_server self); cbn [negb when]; [done|]. by apply P_tcp_send.
Qed.

Lemma session_runs t w ins :
  sw_log w = [] →
  (run_session ins (session_pre_start t w)).1 ≠ Panic ∧
  session_weak ins (sw_rand w) (run_session ins (session_pre_start t w)).2.
Proof.
  intros Hw. eapply (run_session_ok []); [by apply pre_start_kept|].
  destruct (ns_is_server self) eqn:E; split; try done; (split; [|done]); by left.
Qed.

(** C36: a session does nothing for a peer that has not proved that it knows the cookie.  Whatever the peer
    sends and whatever happens on the node: no local actor receives a message, no remote actor is spawned
    or stopped, no process group changes and no connection is opened unless the session is authenticated;
    it is authenticated only when the digest of the cookie with a challenge this session had drawn was
    received; and a message from the peer reaches a local actor only if the actor supports remoting and
    the peer had been told about it. *)
Theorem session_trust (t : ActorId) (w : SessionWorld) (ins : list session_in) :
  sw_log w = [] →
  let s := (run_session ins (session_pre_start t w)).2 in
  (∀ e, e ∈ sw_log s.2 → trusted e = true → auth_is_ok (auth s.1) = true) ∧
  (auth_is_ok (auth s.1) = true → ∃ k m, received ins m ∧
     proves (ns_is_server self) (challenge_digest sha256 (ns_cookie self) (sw_rand w k)) m) ∧
  (∀ to a m, LocalSend to a m ∈ sw_log s.2 → supports_remoting a = true ∧ announced to (sw_log s.2)).
Proof.
  intros Hw s. destruct (session_runs t w ins Hw) as [_ (a & n & r & cs & Hs & [_ Hf] & Hr & _)]. fold s in Hs.
  rewrite (k_auth _ _ _ _ _ _ Hs), <-Hr. split_and!; [|done|apply (k_local _ _ _ _ _ _ Hs)].
  intros e He Ht. destruct (k_trust _ _ _ _ _ _ Hs) as [?|[_ Hn]]; [done|]. by rewrite Hn in Ht.
Qed.

(** A session reports to the node server in the order the server relies on.  No handler panics - the
    point marked unreachable is -, and the server is told at most once each, in this order: the name of the
    peer, that the session is authenticated, that it is ready; a session is reported authenticated only
    when its peer is known by a name other than this node's own. *)
Theorem session_reports_in_order (t : ActorId) (w : SessionWorld) (ins : list session_in) :
  sw_log w = [] →
  let '(r, s) := run_session ins (session_pre_start t w) in
  r ≠ Panic ∧ orderly (name s.1) (casts (sw_log s.2)).
Proof.
  intros Hw. destruct (session_runs t w ins Hw) as [Hp (a & n & r & cs & Hs & _ & _ & Ho)].
  destruct (run_session ins (session_pre_start t w)) as [res s]. cbn in *. split; [done|].
  by rewrite (k_name _ _ _ _ _ _ Hs), (k_casts _ _ _ _ _ _ Hs).
Qed.
End session.

(** A peer is authenticated, told about the one local actor, synchronised, and sends that actor a message. *)
Definition sample_cell : ActorCell := mkCell (Local 7) (Some "job"%string) 0.
Definition sample_world : SessionWorld :=
  mkSW (λ k, N.of_nat (100 + k)) (λ _, Some NoOtherConnection) (λ _, true) (λ _, Some []) (λ _, [sample_cell])
    (λ _, [("scope"%string, "group"%string, [sample_cell])])
    (λ _ p, if bool_decide (p = 7%N) then Some sample_cell else None) (λ _, None) (λ _, true) (λ _, 0) 0 [].
Definition sample_session : NodeSession :=
  NodeSession_new (Local 1) 0 true "cookie" (mkName "here" None "here:1" 0) Transitive 0.
Definition sample_ins : list session_in :=
  (λ m, InMessage (MessageReceived (Some m))) <$>
    [NNode (Some (NodeCast 7 [] "early" None));
     NAuth (Some (MName (mkName "there" None "there:1" 9)));
     NAuth (Some (MClientChallenge 5 (challenge_digest id "cookie" 103)));
     NControl (Some CReady);
     NNode (Some (NodeCast 7 [] "v" None));
     NNode (Some (NodeCast 8 [] "v" None))].

Abbreviation sample_run :=
  (run_session id (λ _, true) (λ _, None) sample_session sample_ins (session_pre_start sample_session (Local 2) sample_world)).

Lemma session_trust_witness :
  sw_log sample_world = [] ∧ auth_is_ok (auth sample_run.2.1) = true ∧
  omap (λ e, match e with LocalSend to a m => Some (to, a, m) | _ => None end) (sw_log sample_run.2.2) =
    [(7%N, sample_cell, SCast "v" [] None)] ∧
  ∃ k m, received sample_ins m ∧
    proves (ns_is_server sample_session) (challenge_digest id (ns_cookie sample_session) (sw_rand sample_world k)) m.
Proof.
  assert (sw_log sample_world = []) as Hw by done.
  assert (auth_is_ok (auth sample_run.2.1) = true) as Ha by (vm_compute; reflexivity).
  split_and!; [done|done|by vm_compute|].
  pose proof (session_trust id (λ _, true) (λ _, None) sample_session (Local 2) sample_world sample_ins Hw) as H.
  cbv zeta in H. exact (proj1 (proj2 H) Ha).
Defined.

Lemma session_reports_in_order_witness :
  sw_log sample_world = [] ∧
  casts (sw_log sample_run.2.2) =
    [UpdateSession (Local 1) (mkName "there" None "there:1" 9); ConnectionAuthenticated (Local 1); ConnectionReady (Local 1)] ∧
  sample_run.1 ≠ Panic.
Proof.
  assert (sw_log sample_world = []) as Hw by done.
  split_and!; [done|by vm_compute|].
  pose proof (session_reports_in_order id (λ _, true) (λ _, None) sample_session (Local 2) sample_world sample_ins Hw) as H.
  destruct sample_run as [r s]. exact (proj1 H).
Defined.
