(* ===== verification/Handshake.v ===== *)
(** The handshake of two sessions, end to end: a client session and a server session exchange the
    authentication messages of src/ractor_cluster/src/node/node_session.rs over a connection that keeps
    their order.  Each message is handled by [NodeSession::handle], with its check for a connection to oneself and
    what follows an authentication; the control messages that are sent then are left to NodeSession.v. *)

From S2P Require Import Prelude ActorTypes NodeServer Bytes Serialization RemoteActor Auth NodeSession.

(** The authentication messages among the effects of a session *)
Definition auth_msg_of (e : SessionEffect) : option AuthMsg :=
  match e with TcpSend (NAuth (Some m)) => Some m | _ => None end.
Definition auth_msgs (l : list SessionEffect) : list AuthMsg := omap auth_msg_of l.

(** A session that asks to be stopped handles no other message: stop signals go before messages. *)
Definition stops (e : SessionEffect) : bool := match e with StopSelf _ => true | _ => false end.

Lemma auth_msgs_app l l' : auth_msgs (l ++ l') = auth_msgs l ++ auth_msgs l'.
Proof. apply omap_app. Qed.

(** ** After authentication *)

(** What a session does besides authenticating: it sends no authentication message, and is not stopped. *)
Record aside (base : list SessionEffect) (a : AuthenticationState) (s : NodeSessionState * SessionWorld) : Prop := {
  as_auth : auth s.1 = a;
  as_ready : ready s.1 = ReadyOpen;
  as_log : ∃ es, sw_log s.2 = base ++ es ∧ auth_msgs es = [] ∧ existsb stops es = false
}.

Section aside.
Context {base : list SessionEffect} {a : AuthenticationState}.
Abbreviation A := (aside base a).

Lemma aside_effect e : auth_msg_of e = None → stops e = false → preserves A (effect e).
Proof.
  intros He Hs s [H1 H2 (es & H3 & H4 & H5)]. split; [done|done|]. exists (es ++ [e]). cbn. rewrite H3, app_assoc. split; [done|].
  rewrite auth_msgs_app, H4, existsb_app, H5. cbn. by rewrite He, Hs.
Qed.

Lemma aside_world {X} (f : SessionWorld → nat → X) : preserves A (world_read f).
Proof. intros s [H1 H2 H3]. by split. Qed.

Lemma aside_reads {X} (f : NodeSessionState → X) : preserves A (NodeSession.reads f).
Proof. apply preserves_gets. Qed.

Lemma aside_upd f : (∀ s, auth (f s) = auth s ∧ ready (f s) = ready s) → preserves A (upd f).
Proof. intros Hf s [H1 H2 H3]. destruct (Hf s.1) as [E1 E2]. split; cbn; [by rewrite E1|by rewrite E2|done]. Qed.

Lemma aside_control m : preserves A (tcp_send_control m).
Proof. apply preserves_bind; [apply aside_reads|]. intros [t|]; [by apply aside_effect|apply preserves_ret]. Qed.
End aside.

#[local] Hint Resolve aside_world aside_reads aside_control : ractor.
#[local] Hint Extern 2 (preserves (aside _ _) (effect _)) => by apply aside_effect : ractor.
#[local] Hint Extern 2 (preserves (aside _ _) (upd _)) => by apply aside_upd : ractor.

Section authenticated.
Variable supports_remoting : ActorCell → bool.
Variable self : NodeSession.

Lemma aside_announce {base a} :
  preserves (aside base a) (announce_pids supports_remoting) ∧ preserves (aside base a) (announce_groups supports_remoting).
Proof.
  split; [unfold announce_pids; solve_preserves|]. unfold announce_groups. apply preserves_bind; [apply aside_world|].
  intros gs. apply preserves_for_each. intros [[sc g] ms] _. solve_preserves.
Qed.

Lemma aside_then {X} base a (m : M (NodeSessionState * SessionWorld) X) (k : X → M (NodeSessionState * SessionWorld) unit) s (P : _ → Prop) :
  succeeds m → preserves (aside base a) m → aside base a s → (∀ x s', aside base a s' → P (k x s')) → P ((m ≫= k) s).
Proof. intros Hm Hp Hs Hk. destruct (run_kept _ m s Hm Hp Hs) as (x & s' & E & Hs'). rewrite (bind_ok _ _ _ _ _ E). by apply Hk. Qed.

Lemma after_aside base a s :
  aside base a s →
  ∃ s' es, after_authenticated supports_remoting self s = (Ok tt, s') ∧ auth s'.1 = a ∧ ready s'.1 = SyncSent ∧
    sw_log s'.2 = base ++ es ∧ auth_msgs es = [] ∧ existsb stops es = false.
Proof.
  intros Hs. unfold after_authenticated.
  eapply (aside_then base a); [by eexists|apply aside_upd; intros x; by destruct (ping_task x), (tcp x)|exact Hs|]. intros _ s1 H1.
  eapply (aside_then base a); [destruct (ns_connection_mode self); [apply succeeds_tcp_send|by eexists]|
    destruct (ns_connection_mode self); [apply aside_control|apply preserves_ret]|exact H1|]. intros _ s2 H2.
  eapply (aside_then base a); [apply succeeds_effect|by apply aside_effect|exact H2|]. intros _ s3 H3.
  eapply (aside_then base a); [apply succeeds_announce_pids|apply aside_announce|exact H3|]. intros _ s4 H4.
  eapply (aside_then base a); [apply succeeds_effect|by apply aside_effect|exact H4|]. intros _ s5 H5.
  eapply (aside_then base a); [apply succeeds_effect|by apply aside_effect|exact H5|]. intros _ s6 H6.
  eapply (aside_then base a); [apply succeeds_announce_groups|apply aside_announce|exact H6|]. intros _ s7 H7.
  eapply (aside_then base a); [apply succeeds_tcp_send|apply aside_control|exact H7|]. intros _ s8 [E1 E2 (es & E3 & E4 & E5)].
  unfold sync_sent. rewrite bind_reads, E2. by exists (set_ready SyncSent s8.1, s8.2), es.
Qed.

(** The node server takes casts and keeps the connection. *)
Definition kept_by_server (w : SessionWorld) : Prop :=
  (∀ k, sw_cast w k = true) ∧ ∀ k, sw_check w k = Some NoOtherConnection ∨ sw_check w k = Some ThisConnectionContinues.

(** A session that was just authenticated stays so, and goes on if its node server keeps the connection. *)
Lemma newly_aside s :
  ready s.1 = ReadyOpen →
  ∃ r s' es, newly_authenticated supports_remoting self s = (r, s') ∧ auth s'.1 = auth s.1 ∧
    sw_log s'.2 = sw_log s.2 ++ es ∧ auth_msgs es = [] ∧
    (kept_by_server s.2 → is_Some (name s.1) → r = Ok tt ∧ existsb stops es = false).
Proof.
  intros Hr. unfold newly_authenticated. destruct (sw_cast s.2 (sw_reads s.2)) eqn:Ec.
  - set (s1 := ((effect (ServerCast (ConnectionAuthenticated (myself self)))) (world_read sw_cast s).2).2).
    assert (server_cast_or_err (ConnectionAuthenticated (myself self)) s = (Ok tt, s1)) as E1
      by (cbv -[sw_cast sw_reads snd myself]; by rewrite Ec).
    rewrite (bind_ok _ _ _ _ _ E1), bind_reads. change (name s1.1) with (name s.1). destruct (name s.1) as [peer|].
    + assert (∃ el, (reply ← world_read sw_check; mret match reply with Some NoOtherConnection | Some ThisConnectionContinues => true | _ => false end) s1
        = (Ok el, (world_read sw_check s1).2) ∧ (kept_by_server s.2 → el = true)) as (el & E2 & Hel).
      { eexists. split; [by rewrite bind_world|]. intros [_ Hk]. cbn. by destruct (Hk (S (sw_reads s.2))) as [-> | ->]. }
      rewrite (bind_ok _ _ _ _ _ E2). destruct el.
      * destruct (after_aside (sw_log s.2) (auth s.1) (world_read sw_check s1).2) as (s2 & es & E3 & Ha & Hs & Hl & Hm & Hst);
          [split; [done|done|by eexists]|].
        rewrite (bind_ok _ _ _ _ _ E3), bind_reads, Hs. exists (Ok tt), s2, es. by split_and!.
      * do 2 eexists. exists [ServerCast (ConnectionAuthenticated (myself self)); StopSelf "session_election_lost"]. split; [reflexivity|].
        split_and!; [done|cbn; by rewrite <-app_assoc|done|]. intros Hk _. by specialize (Hel Hk).
    + do 2 eexists. exists [ServerCast (ConnectionAuthenticated (myself self)); StopSelf "session_election_lost"]. split; [reflexivity|].
      split_and!; [done|cbn; by rewrite <-app_assoc|done|]. by intros _ [].
  - do 2 eexists. exists []. split; [cbv -[sw_cast sw_reads snd myself app]; rewrite Ec; reflexivity|].
    split_and!; [done|by rewrite app_nil_r|done|]. intros [Hk _] _. by rewrite Hk in Ec.
Qed.
End authenticated.

Section handshake.
Variable sha256 : list byte → list byte.
Variable supports_remoting : ActorCell → bool.
Variable to_system_time : Timestamp → option Z.
Variables (client server : NodeSession).

Abbreviation St := (NodeSessionState * SessionWorld)%type.

(** A session, and whether it still runs *)
Abbreviation Ses := (NodeSessionState * SessionWorld * bool)%type.

(** A session handles a message of its peer; the authentication messages that it sends in answer.  It ends when the
    handler fails or asks for it. *)
Definition deliver (self : NodeSession) (m : AuthMsg) (s : Ses) : Ses * list AuthMsg :=
  if s.2 then
    let '(r, s') := session_handle sha256 supports_remoting to_system_time self (MessageReceived (Some (NAuth (Some m)))) s.1 in
    let es := drop (length (sw_log s.1.2)) (sw_log s'.2) in
    (s', match r with Ok _ => negb (existsb stops es) | _ => false end, auth_msgs es)
  else (s, []).

(** The two sessions and what is under way between them *)
Record Link := mkLink { at_client : Ses; at_server : Ses; to_server : list AuthMsg; to_client : list AuthMsg }.

Definition link_step (k : Link) : Link :=
  match to_server k with
  | m :: rest =>
      let '(s, out) := deliver server m (at_server k) in mkLink (at_client k) s rest (to_client k ++ out)
  | [] =>
      match to_client k with
      | m :: rest =>
          let '(s, out) := deliver client m (at_client k) in mkLink s (at_server k) (to_server k ++ out) rest
      | [] => k
      end
  end.

Definition link_start (tc ts : ActorId) (wc ws : SessionWorld) : Link :=
  let c := session_pre_start client tc wc in
  mkLink (c, true) (session_pre_start server ts ws, true) (auth_msgs (sw_log c.2)) [].

Fixpoint exchange (n : nat) (k : Link) : Link :=
  match n with O => k | S n => exchange n (link_step k) end.

(** A handshake takes at most five messages: that nothing is under way after them is part of the theorem. *)
Definition handshake (tc ts : ActorId) (wc ws : SessionWorld) : Link := exchange 5 (link_start tc ts wc ws).
Definition quiet (k : Link) : Prop := to_server k = [] ∧ to_client k = [].

(** ** One message *)

(** The authentication of a session handles a message. *)
Record handles (self : NodeSession) (m : AuthMsg) (s s' : St) (out : list AuthMsg) (a : AuthenticationState)
    (nm : option NameMessage) (stopped : bool) : Prop := {
  h_run : ∃ es, handle_auth sha256 self (Some m) s = (Ok tt, s') ∧ sw_log s'.2 = sw_log s.2 ++ es ∧
            auth_msgs es = out ∧ existsb stops es = stopped;
  h_auth : auth s'.1 = a;
  h_name : name s'.1 = nm;
  h_tcp : tcp s'.1 = tcp s.1;
  h_ready : ready s'.1 = ready s.1;
  h_check : sw_check s'.2 = sw_check s.2;
  h_rand : sw_rand s'.2 = sw_rand s.2;
  h_cast : sw_cast s'.2 = sw_cast s.2
}.

(** The peer, as far as it is known, is not this node. *)
Definition other (self : NodeSession) (s : St) : Prop := match name s.1 with Some peer => is_self self peer = false | None => True end.

Lemma session_handles self m (s : St) t :
  other self s → tcp s.1 = Some t →
  session_handle sha256 supports_remoting to_system_time self (MessageReceived (Some (NAuth (Some m)))) s =
  handle_network sha256 supports_remoting to_system_time self (NAuth (Some m)) s.
Proof.
  intros Ho Ht. unfold session_handle, other in *. rewrite bind_reads. destruct (name s.1) as [peer|]; [rewrite Ho|];
    by rewrite bind_reads, Ht.
Qed.

(** A message that does not authenticate the peer *)
Lemma deliver_handles self m (s s' : St) t out a nm stopped :
  other self s → tcp s.1 = Some t → handles self m s s' out a nm stopped → auth_is_ok a = false →
  deliver self m (s, true) = ((s', negb stopped), out).
Proof.
  intros Ho Ht [(es & Hr & Hl & <- & <-) Ha _ _ _ _ _ _] Hok. unfold deliver. cbn [fst snd].
  rewrite (session_handles self m s t Ho Ht). unfold handle_network. rewrite bind_reads, (bind_ok _ _ _ _ _ Hr), bind_reads.
  rewrite Ha, Hok, andb_false_r. unfold when, mret, M_ret. cbn iota beta. by rewrite Hl, drop_app_length.
Qed.

(** The message that authenticates the peer *)
Lemma deliver_newly self m (s s' : St) t out a nm :
  other self s → tcp s.1 = Some t → handles self m s s' out a nm false → auth_is_ok (auth s.1) = false → auth_is_ok a = true →
  ready s.1 = ReadyOpen →
  ∃ s2 alive, deliver self m (s, true) = ((s2, alive), out) ∧ auth s2.1 = a ∧ (kept_by_server s.2 → is_Some nm → alive = true).
Proof.
  intros Ho Ht [(es & Hr & Hl & <- & Hst) Ha Hn _ Hrd Hck _ Hcs] Hno Hok Hopen. unfold deliver. cbn [fst snd].
  rewrite (session_handles self m s t Ho Ht). unfold handle_network. rewrite bind_reads, (bind_ok _ _ _ _ _ Hr), bind_reads.
  rewrite Ha, Hok, Hno. cbn [when negb andb].
  destruct (newly_aside supports_remoting self s') as (r & s2 & es' & -> & Ha2 & Hl2 & Hm2 & Hgo); [by rewrite Hrd|].
  do 2 eexists. rewrite Hl2, Hl, <-app_assoc, drop_app_length, auth_msgs_app, Hm2, app_nil_r. split; [done|]. split; [by rewrite Ha2|].
  intros [Hk1 Hk2] Hnm. destruct Hgo as [-> Hs2]; [unfold kept_by_server; by rewrite Hcs, Hck|by rewrite Hn|].
  by rewrite existsb_app, Hst, Hs2.
Qed.

(** The peer is this node: the session ends. *)
Lemma deliver_self self m (s : St) peer :
  name s.1 = Some peer → is_self self peer = true → ∃ s', deliver self m (s, true) = ((s', false), []) ∧ auth s'.1 = auth s.1.
Proof.
  intros Hn Hs. unfold deliver, session_handle. cbn [fst snd]. rewrite bind_reads, Hn, Hs. eexists. cbn. by rewrite drop_app_length.
Qed.

(** Runs a handler on a session whose authentication state and socket are known. *)
Ltac run_handler :=
  match goal with
  | s : (NodeSessionState * SessionWorld)%type |- _ =>
      destruct s as [[? ? ? ? ? ? ? ? ? ?] [? ? ? ? ? ? ? ? ? ? ? ?]]; cbn in *; subst
  end.
Ltac compute_handler := cbv -[challenge_digest bool_decide app decide_rel list_eq_dec byte_eq_dec'].
Ltac handled rewriting :=
  eexists; split;
    [eexists; split; [compute_handler; rewriting; reflexivity
      |split; [cbn; first [by rewrite app_nil_r|rewrite <-!app_assoc; reflexivity|reflexivity]|split; reflexivity]]
    |reflexivity..].
Tactic Notation "handle" := handled idtac.
Tactic Notation "handle" "by" hyp(H) := handled ltac:(rewrite H).
Tactic Notation "handle" "by" hyp(H) "," hyp(H') := handled ltac:(rewrite H, H').

Lemma client_accepts st t (s : St) :
  auth s.1 = AsClient WaitingForServerStatus → tcp s.1 = Some t → st = StatusOk ∨ st = OkSimultaneous →
  ∃ s', handles client (MServerStatus st) s s' [] (AsClient (WaitingForServerChallenge st)) (name s.1) false.
Proof. intros Ha Ht [->| ->]; run_handler; handle. Qed.

Lemma client_refused t (s : St) :
  auth s.1 = AsClient WaitingForServerStatus → tcp s.1 = Some t →
  ∃ s', handles client (MServerStatus NotOk) s s' [] (AsClient ClientClose) (name s.1) true.
Proof. intros Ha Ht. run_handler. handle. Qed.

Lemma client_alive t (s : St) :
  auth s.1 = AsClient WaitingForServerStatus → tcp s.1 = Some t →
  ∃ s', handles client (MServerStatus Alive) s s' [MClientStatus true] (AsClient (WaitingForServerChallenge Alive)) (name s.1) false.
Proof. intros Ha Ht. run_handler. handle. Qed.

Lemma client_answers st c t (s : St) :
  auth s.1 = AsClient (WaitingForServerChallenge st) → tcp s.1 = Some t →
  ∃ k s', handles client (MServerChallenge c) s s'
    [MClientChallenge (sw_rand s.2 k) (challenge_digest sha256 (ns_cookie client) (challenge_value c))]
    (AsClient (WaitingForServerChallengeAck c (challenge_digest sha256 (ns_cookie client) (challenge_value c))
                 (sw_rand s.2 k) (challenge_digest sha256 (ns_cookie client) (sw_rand s.2 k))))
    (Some (mkName (challenge_name c) (challenge_flags c) (challenge_connection_string c) 0)) false.
Proof.
  intros Ha Ht. exists (sw_reads s.2). run_handler. destruct (sw_cast (S sw_reads)) eqn:E; handle by E.
Qed.

Lemma client_checks_ack c d r e d' t (s : St) :
  auth s.1 = AsClient (WaitingForServerChallengeAck c d r e) → tcp s.1 = Some t →
  ∃ s', if bool_decide (e = d') then handles client (MServerAck d') s s' [] (AsClient ClientOk) (name s.1) false
        else handles client (MServerAck d') s s' [] (AsClient ClientClose) (name s.1) true.
Proof. intros Ha Ht. run_handler. destruct (bool_decide (e = d')) eqn:E; handle by E. Qed.

Definition server_challenge (challenge : N) : Challenge :=
  let this := ns_this_node_name server in mkChallenge (node_name this) (flags this) challenge (connection_string this).

Section server_side.
Variables (t : ActorId) (s : St).
Hypothesis Ht : tcp s.1 = Some t.

Lemma server_accepts nm r :
  auth s.1 = AsServer WaitingOnPeerName → (∀ k, sw_check s.2 k = Some r) →
  status_of_reply r = StatusOk ∨ status_of_reply r = OkSimultaneous →
  ∃ k s', handles server (MName nm) s s' [MServerStatus (status_of_reply r); MServerChallenge (server_challenge (sw_rand s.2 k))]
    (AsServer (WaitingOnClientChallengeReply (sw_rand s.2 k) (challenge_digest sha256 (ns_cookie server) (sw_rand s.2 k))))
    (Some (set_connection_id 0 nm)) false.
Proof using Ht.
  intros Ha Hr Hst. exists (S (S (S (sw_reads s.2)))). run_handler. specialize (Hr (S (S sw_reads))).
  destruct r; try (exfalso; by destruct Hst); destruct (sw_cast (S sw_reads)) eqn:E; handle by E, Hr.
Qed.

Lemma server_refuses nm :
  auth s.1 = AsServer WaitingOnPeerName → (∀ k, sw_check s.2 k = Some OtherConnectionContinues) →
  ∃ s', handles server (MName nm) s s' [MServerStatus NotOk] (AsServer ServerClose) (Some (set_connection_id 0 nm)) true.
Proof using Ht.
  intros Ha Hr. run_handler. specialize (Hr (S (S sw_reads))). destruct (sw_cast (S sw_reads)) eqn:E; handle by E, Hr.
Qed.

Lemma server_unanswered nm :
  auth s.1 = AsServer WaitingOnPeerName → (∀ k, sw_check s.2 k = None) →
  ∃ s', handles server (MName nm) s s' [] (AsServer ServerClose) (Some (set_connection_id 0 nm)) true.
Proof using Ht.
  intros Ha Hr. run_handler. specialize (Hr (S (S sw_reads))). destruct (sw_cast (S sw_reads)) eqn:E; handle by E, Hr.
Qed.

Lemma server_alive nm :
  auth s.1 = AsServer WaitingOnPeerName → (∀ k, sw_check s.2 k = Some DuplicateConnection) →
  ∃ s', handles server (MName nm) s s' [MServerStatus Alive] (AsServer WaitingOnClientStatus) (Some (set_connection_id 0 nm)) false.
Proof using Ht.
  intros Ha Hr. run_handler. specialize (Hr (S (S sw_reads))). destruct (sw_cast (S sw_reads)) eqn:E; handle by E, Hr.
Qed.

(** The challenge is drawn and recorded, and not sent. *)
Lemma server_client_status :
  auth s.1 = AsServer WaitingOnClientStatus →
  ∃ c d s', handles server (MClientStatus true) s s' [] (AsServer (WaitingOnClientChallengeReply c d)) (name s.1) false.
Proof using Ht. intros Ha. run_handler. do 2 eexists. handle. Qed.

Lemma server_checks c d c' d' :
  auth s.1 = AsServer (WaitingOnClientChallengeReply c d) →
  ∃ s', let e := challenge_digest sha256 (ns_cookie server) c' in
    if bool_decide (d = d') then handles server (MClientChallenge c' d') s s' [MServerAck e] (AsServer (ServerOk e)) (name s.1) false
    else handles server (MClientChallenge c' d') s s' [] (AsServer ServerClose) (name s.1) true.
Proof using Ht. intros Ha. run_handler. destruct (bool_decide (d = d')) eqn:E; handle by E. Qed.
End server_side.

(** ** The exchange *)

Lemma exchange_server n c s m q b s' out :
  deliver server m s = (s', out) → exchange (S n) (mkLink c s (m :: q) b) = exchange n (mkLink c s' q (b ++ out)).
Proof. intros Hd. cbn [exchange]. unfold link_step. cbn [to_server at_server]. by rewrite Hd. Qed.

Lemma exchange_client n c s m q c' out :
  deliver client m c = (c', out) → exchange (S n) (mkLink c s [] (m :: q)) = exchange n (mkLink c' s out q).
Proof. intros Hd. cbn [exchange]. unfold link_step. cbn [to_server to_client at_client]. by rewrite Hd. Qed.

Lemma exchange_quiet n k : quiet k → exchange n k = k.
Proof.
  intros [Hs Hc]. assert (link_step k = k) as Hk by (unfold link_step; by rewrite Hs, Hc).
  induction n as [|n IH]; cbn; [done|]. by rewrite Hk.
Qed.

(** Both sessions belong to the same node. *)
Definition same_node : bool := is_self client (ns_this_node_name server).

Section outcome.
Variables (tc ts : ActorId) (wc ws : SessionWorld).
Hypothesis Hroles : ns_is_server client = false ∧ ns_is_server server = true.
Hypothesis Hlog : sw_log wc = [].

(** A session that has just started *)
Record started (a : AuthenticationState) (t : ActorId) (w : SessionWorld) (s : St) : Prop := {
  st_auth : auth s.1 = a;
  st_tcp : tcp s.1 = Some t;
  st_name : name s.1 = None;
  st_ready : ready s.1 = ReadyOpen;
  st_check : sw_check s.2 = sw_check w;
  st_cast : sw_cast s.2 = sw_cast w
}.

Lemma started_other a t w s self : started a t w s → other self s.
Proof. intros H. unfold other. by rewrite (st_name _ _ _ _ H). Qed.

Lemma link_started :
  ∃ c s nm, link_start tc ts wc ws = mkLink (c, true) (s, true) [MName nm] [] ∧
    started (AsClient WaitingForServerStatus) tc wc c ∧ started (AsServer WaitingOnPeerName) ts ws s ∧
    is_self server (set_connection_id 0 nm) = same_node.
Proof using Hroles Hlog.
  destruct Hroles as [Hc Hs]. unfold link_start, session_pre_start. rewrite Hc, Hs.
  destruct wc; cbn in *; subst. do 3 eexists. split; [unfold auth_msgs; cbn; reflexivity|]. split_and!; [done..|].
  unfold same_node, is_self. cbn. f_equal; apply bool_decide_ext; split; congruence.
Qed.

Lemma handshake_unanswered :
  (∀ k, sw_check ws k = None) →
  let k := handshake tc ts wc ws in
  quiet k ∧ auth (at_client k).1.1 = AsClient WaitingForServerStatus ∧
  auth (at_server k).1.1 = AsServer ServerClose ∧ (at_server k).2 = false.
Proof using Hroles Hlog.
  intros Hr. destruct link_started as (c & s & nm & Hk & Hc & Hs & _).
  destruct (server_unanswered ts s (st_tcp _ _ _ _ Hs) nm (st_auth _ _ _ _ Hs)) as [s' H1]; [by rewrite (st_check _ _ _ _ Hs)|].
  unfold handshake. rewrite Hk. erewrite exchange_server by (eapply deliver_handles; [by eapply started_other|apply Hs|exact H1|done]).
  rewrite exchange_quiet by done. split; [done|]. split_and!; [apply Hc|apply H1|done].
Qed.

Lemma handshake_refused :
  (∀ k, sw_check ws k = Some OtherConnectionContinues) →
  let k := handshake tc ts wc ws in
  quiet k ∧ auth (at_client k).1.1 = AsClient ClientClose ∧ auth (at_server k).1.1 = AsServer ServerClose ∧
  (at_client k).2 = false ∧ (at_server k).2 = false.
Proof using Hroles Hlog.
  intros Hr. destruct link_started as (c & s & nm & Hk & Hc & Hs & _).
  destruct (server_refuses ts s (st_tcp _ _ _ _ Hs) nm (st_auth _ _ _ _ Hs)) as [s' H1]; [by rewrite (st_check _ _ _ _ Hs)|].
  destruct (client_refused tc c (st_auth _ _ _ _ Hc) (st_tcp _ _ _ _ Hc)) as [c' H2].
  unfold handshake. rewrite Hk. erewrite exchange_server by (eapply deliver_handles; [by eapply started_other|apply Hs|exact H1|done]).
  cbn [app]. erewrite exchange_client by (eapply deliver_handles; [by eapply started_other|apply Hc|exact H2|done]).
  rewrite exchange_quiet by done. split; [done|]. split_and!; [apply H2|apply H1|done|done].
Qed.

Lemma handshake_stuck :
  (∀ k, sw_check ws k = Some DuplicateConnection) →
  let k := handshake tc ts wc ws in
  quiet k ∧ auth (at_client k).1.1 = AsClient (WaitingForServerChallenge Alive) ∧ (at_client k).2 = true ∧
  (at_server k).2 = negb same_node ∧
  (auth (at_server k).1.1 = AsServer WaitingOnClientStatus ∨ ∃ c d, auth (at_server k).1.1 = AsServer (WaitingOnClientChallengeReply c d)).
Proof using Hroles Hlog.
  intros Hr. destruct link_started as (c & s & nm & Hk & Hc & Hs & Hnm).
  destruct (server_alive ts s (st_tcp _ _ _ _ Hs) nm (st_auth _ _ _ _ Hs)) as [s1 H1]; [by rewrite (st_check _ _ _ _ Hs)|].
  destruct (client_alive tc c (st_auth _ _ _ _ Hc) (st_tcp _ _ _ _ Hc)) as [c1 H2].
  unfold handshake. rewrite Hk. erewrite exchange_server by (eapply deliver_handles; [by eapply started_other|apply Hs|exact H1|done]).
  cbn [app negb]. erewrite exchange_client by (eapply deliver_handles; [by eapply started_other|apply Hc|exact H2|done]).
  destruct same_node.
  - destruct (deliver_self server (MClientStatus true) s1 _ (h_name _ _ _ _ _ _ _ _ H1) Hnm) as (s2 & H3 & Ha).
    cbn [negb]. rewrite (exchange_server _ _ _ _ _ _ _ _ H3), exchange_quiet by done. split; [done|]. split_and!; [apply H2|done|done|].
    left. cbn. rewrite Ha. apply H1.
  - destruct (server_client_status ts s1) as (x & d & s2 & H3); [by rewrite (h_tcp _ _ _ _ _ _ _ _ H1), (st_tcp _ _ _ _ Hs)|apply H1|].
    cbn [negb]. erewrite exchange_server by (eapply deliver_handles; [|by rewrite (h_tcp _ _ _ _ _ _ _ _ H1), (st_tcp _ _ _ _ Hs)|exact H3|done];
      unfold other; by rewrite (h_name _ _ _ _ _ _ _ _ H1)).
    rewrite exchange_quiet by done. split; [done|]. split_and!; [apply H2|done|done|]. right. exists x, d. apply H3.
Qed.

(** The digests of a challenge under the two cookies agree. *)
Definition agree (challenge : N) : Prop :=
  challenge_digest sha256 (ns_cookie server) challenge = challenge_digest sha256 (ns_cookie client) challenge.

(** The first three messages of a handshake that the node server lets continue *)
Lemma handshake_challenged r :
  (∀ k, sw_check ws k = Some r) → r = NoOtherConnection ∨ r = ThisConnectionContinues →
  ∃ c s x y e,
    handshake tc ts wc ws = exchange 2 (mkLink (c, true) (s, true) [MClientChallenge y (challenge_digest sha256 (ns_cookie client) x)] []) ∧
    auth c.1 = AsClient (WaitingForServerChallengeAck (server_challenge x) e y (challenge_digest sha256 (ns_cookie client) y)) ∧
    auth s.1 = AsServer (WaitingOnClientChallengeReply x (challenge_digest sha256 (ns_cookie server) x)) ∧
    tcp c.1 = Some tc ∧ tcp s.1 = Some ts ∧ ready c.1 = ReadyOpen ∧ ready s.1 = ReadyOpen ∧
    (kept_by_server wc → kept_by_server c.2) ∧ (kept_by_server ws → kept_by_server s.2) ∧
    (∃ peer, name c.1 = Some peer ∧ is_self client peer = same_node) ∧
    (∃ peer, name s.1 = Some peer ∧ is_self server peer = same_node).
Proof using Hroles Hlog.
  intros Hr Hok. destruct link_started as (c & s & nm & Hk & Hc & Hs & Hnm).
  assert (status_of_reply r = StatusOk ∨ status_of_reply r = OkSimultaneous) as Hst by (destruct Hok as [->| ->]; auto).
  destruct (server_accepts ts s (st_tcp _ _ _ _ Hs) nm r (st_auth _ _ _ _ Hs)) as (i & s1 & H1); [by rewrite (st_check _ _ _ _ Hs)|done|].
  set (x := sw_rand s.2 i) in *.
  destruct (client_accepts _ tc c (st_auth _ _ _ _ Hc) (st_tcp _ _ _ _ Hc) Hst) as [c1 H2].
  assert (tcp c1.1 = Some tc) as Ht1 by (rewrite (h_tcp _ _ _ _ _ _ _ _ H2); apply Hc).
  assert (other client c1) as Ho1 by (unfold other; by rewrite (h_name _ _ _ _ _ _ _ _ H2), (st_name _ _ _ _ Hc)).
  destruct (client_answers _ (server_challenge x) tc c1 (h_auth _ _ _ _ _ _ _ _ H2) Ht1) as (j & c2 & H3). set (y := sw_rand c1.2 j) in *.
  exists c2, s1, x, y. eexists. split_and!.
  - unfold handshake. rewrite Hk. erewrite exchange_server by (eapply deliver_handles; [by eapply started_other|apply Hs|exact H1|done]).
    cbn [app negb]. erewrite exchange_client by (eapply deliver_handles; [by eapply started_other|apply Hc|exact H2|done]).
    cbn [app negb]. rewrite (exchange_client _ _ _ _ _ _ _ (deliver_handles _ _ _ _ _ _ _ _ _ Ho1 Ht1 H3 eq_refl)). done.
  - apply H3.
  - apply H1.
  - by rewrite (h_tcp _ _ _ _ _ _ _ _ H3).
  - rewrite (h_tcp _ _ _ _ _ _ _ _ H1). apply Hs.
  - rewrite (h_ready _ _ _ _ _ _ _ _ H3), (h_ready _ _ _ _ _ _ _ _ H2). apply Hc.
  - rewrite (h_ready _ _ _ _ _ _ _ _ H1). apply Hs.
  - unfold kept_by_server. by rewrite (h_cast _ _ _ _ _ _ _ _ H3), (h_cast _ _ _ _ _ _ _ _ H2), (st_cast _ _ _ _ Hc),
      (h_check _ _ _ _ _ _ _ _ H3), (h_check _ _ _ _ _ _ _ _ H2), (st_check _ _ _ _ Hc).
  - unfold kept_by_server. by rewrite (h_cast _ _ _ _ _ _ _ _ H1), (st_cast _ _ _ _ Hs), (h_check _ _ _ _ _ _ _ _ H1), (st_check _ _ _ _ Hs).
  - eexists. split; [apply H3|done].
  - eexists. split; [apply H1|done].
Qed.

Lemma handshake_accepted r :
  (∀ k, sw_check ws k = Some r) → r = NoOtherConnection ∨ r = ThisConnectionContinues →
  let k := handshake tc ts wc ws in
  quiet k ∧ ∃ x y,
    (auth_is_ok (auth (at_server k).1.1) = true ↔ same_node = false ∧ agree x) ∧
    (auth_is_ok (auth (at_client k).1.1) = true ↔ same_node = false ∧ agree x ∧ agree y) ∧
    (same_node = true ∨ ¬ agree x → (at_server k).2 = false) ∧
    (same_node = false → agree x → kept_by_server ws → (at_server k).2 = true) ∧
    (same_node = false → agree x → agree y → kept_by_server wc → (at_client k).2 = true).
Proof using Hroles Hlog.
  intros Hr Hok. destruct (handshake_challenged r Hr Hok) as
    (c & s & x & y & e & Hk & Hac & Has & Htc & Hts & Hrc & Hrs & Hkc & Hks & (pc & Hpc & Hsc) & (ps & Hps & Hss)).
  rewrite Hk. destruct same_node eqn:Hsame.
  { destruct (deliver_self server (MClientChallenge y (challenge_digest sha256 (ns_cookie client) x)) s ps Hps Hss) as (s' & H1 & Ha).
    rewrite (exchange_server _ _ _ _ _ _ _ _ H1), exchange_quiet by done. split; [done|]. exists x, y. cbn. rewrite Ha, Hac, Has. naive_solver. }
  assert (other client c ∧ other server s) as [Hoc Hos] by (unfold other; by rewrite Hpc, Hps).
  destruct (server_checks ts s Hts _ _ y (challenge_digest sha256 (ns_cookie client) x) Has) as [s1 H1]. cbn zeta in H1.
  case_bool_decide as Hx.
  - destruct (deliver_newly _ _ _ _ _ _ _ _ Hos Hts H1) as (s2 & al & H2 & Ha2 & Hal2); [by rewrite Has|done|done|].
    destruct (client_checks_ack _ _ _ _ (challenge_digest sha256 (ns_cookie server) y) tc c Hac Htc) as [c1 H3].
    rewrite (exchange_server _ _ _ _ _ _ _ _ H2). cbn [app]. case_bool_decide as Hy.
    + destruct (deliver_newly _ _ _ _ _ _ _ _ Hoc Htc H3) as (c2 & al' & H4 & Ha4 & Hal4); [by rewrite Hac|done|done|].
      rewrite (exchange_client _ _ _ _ _ _ _ H4), exchange_quiet by done. split; [done|]. exists x, y. cbn. rewrite Ha2, Ha4. unfold agree.
      rewrite Hps in Hal2. rewrite Hpc in Hal4. naive_solver.
    + erewrite exchange_client by (by eapply deliver_handles). rewrite exchange_quiet by done. split; [done|]. exists x, y. cbn.
      rewrite Ha2, (h_auth _ _ _ _ _ _ _ _ H3). unfold agree. rewrite Hps in Hal2. naive_solver.
  - erewrite exchange_server by (by eapply deliver_handles). rewrite exchange_quiet by done. split; [done|]. exists x, y. cbn.
    rewrite (h_auth _ _ _ _ _ _ _ _ H1), Hac. unfold agree. naive_solver.
Qed.

(** The hash tells the two cookies apart. *)
Definition no_collision : Prop :=
  ∀ challenge, let data cookie := to_be_bytes 4 challenge ++ string_bytes cookie in
    sha256 (data (ns_cookie client)) = sha256 (data (ns_cookie server)) → data (ns_cookie client) = data (ns_cookie server).

Lemma agree_cookie challenge : no_collision → agree challenge → ns_cookie client = ns_cookie server.
Proof.
  unfold agree. rewrite !challenge_digest_data. intros Hn Ha. symmetry in Ha. apply Hn in Ha. cbn beta zeta in Ha.
  apply string_bytes_inj. by eapply app_inv_head.
Qed.
End outcome.

(** Settles the clauses of an outcome in which both authentication states are known. *)
Ltac settle Hq := split; [exact Hq|]; cbn [auth_is_ok auth_is_close negb]; split_and!; intros; destruct_or?; simplify_eq; by split_and!.

(** C37: how a handshake ends, whatever the names, the cookies, the random numbers and the behaviour of the
    two nodes, each message going through the whole handler of the session, over a link that delivers what
    was sent (a session that stops may in fact take its last message with it: HandshakeNet.v has the
    connection).  At most five messages are exchanged, after which nothing is under way.  If the two sessions belong to different nodes, the node
    server of the accepting side lets the connection continue and the cookies are equal, both sessions are
    authenticated, and each goes on as long as its own node server takes its casts and keeps the connection.
    If a node has connected to itself (the names or the connection strings are equal), neither session is
    authenticated and the accepting one stops.  With different cookies (which the hash tells apart) neither is
    authenticated, whatever the node server answers; if the other connection continues, both sides close and
    stop; if the node server does not answer, the accepting side closes and stops.  If the answer is that the
    connection is a duplicate, the handshake hangs with both sides running and waiting for the other (unless it
    is a connection to itself): the challenge that follows the client's status is never sent. *)
Theorem handshake_outcome (tc ts : ActorId) (wc ws : SessionWorld) (reply : option SessionCheckReply) :
  ns_is_server client = false → ns_is_server server = true → sw_log wc = [] → (∀ k, sw_check ws k = reply) →
  let k := handshake tc ts wc ws in
  let c := auth (at_client k).1.1 in let s := auth (at_server k).1.1 in
  quiet k ∧
  (same_node = false → ns_cookie client = ns_cookie server →
   reply = Some NoOtherConnection ∨ reply = Some ThisConnectionContinues →
     auth_is_ok c = true ∧ auth_is_ok s = true ∧
     (kept_by_server wc → (at_client k).2 = true) ∧ ((∀ i, sw_cast ws i = true) → (at_server k).2 = true)) ∧
  (same_node = true → auth_is_ok c = false ∧ auth_is_ok s = false ∧ (at_server k).2 = false) ∧
  (no_collision → ns_cookie client ≠ ns_cookie server →
     auth_is_ok c = false ∧ auth_is_ok s = false) ∧
  (reply = Some OtherConnectionContinues →
     auth_is_close c = true ∧ auth_is_close s = true ∧ (at_client k).2 = false ∧ (at_server k).2 = false) ∧
  (reply = None → auth_is_ok c = false ∧ auth_is_close s = true ∧ (at_server k).2 = false) ∧
  (reply = Some DuplicateConnection →
     auth_is_ok c = false ∧ auth_is_close c = false ∧ auth_is_ok s = false ∧ auth_is_close s = false ∧
     (at_client k).2 = true ∧ (at_server k).2 = negb same_node).
Proof.
  intros Hc Hs Hl Hr k c s. subst c s k.
  destruct reply as [[| | |]|].
  1, 3: destruct (handshake_accepted tc ts wc ws (conj Hc Hs) Hl _ Hr ltac:(auto)) as (Hq & x & y & Hsv & Hcl & Hst & Hgs & Hgc);
    split_and!; try done;
    [intros Hn He _; assert (∀ ch, agree ch) as Hall by (intros ch; unfold agree; by rewrite He);
       split_and!; [by apply Hcl|by apply Hsv|by intros ?; apply Hgc|intros Hw; apply Hgs; [done|done|split; [done|intros i; rewrite Hr; auto]]]
    |intros Hn; split_and!; [apply not_true_iff_false; intros (? & _)%Hcl; congruence|apply not_true_iff_false; intros (? & _)%Hsv; congruence|apply Hst; by left]
    |intros Hinj Hne; split; apply not_true_iff_false; [intros (_ & Hx & _)%Hcl|intros [_ Hx]%Hsv]; by apply Hne, (agree_cookie x)].
  - destruct (handshake_refused tc ts wc ws (conj Hc Hs) Hl Hr) as (Hq & -> & -> & -> & ->). settle Hq.
  - destruct (handshake_stuck tc ts wc ws (conj Hc Hs) Hl Hr) as (Hq & -> & -> & -> & [-> |(x & d & ->)]); destruct same_node; settle Hq.
  - destruct (handshake_unanswered tc ts wc ws (conj Hc Hs) Hl Hr) as (Hq & -> & -> & ->). settle Hq.
Qed.
End handshake.

Definition sample_client : NodeSession :=
  NodeSession_new (Local 1) 0 false "cookie" (mkName "there" None "there:1" 0) Transitive 9.

Definition sample_stranger : NodeSession :=
  NodeSession_new (Local 1) 0 false "guess" (mkName "there" None "there:1" 0) Transitive 9.

(** A node that has found its own address *)
Definition sample_narcissus : NodeSession :=
  NodeSession_new (Local 1) 0 false "cookie" (ns_this_node_name sample_session) Transitive 9.

Abbreviation sample_handshake self :=
  (handshake id (λ _, true) (λ _, None) self sample_session (Local 2) (Local 3) sample_world sample_world).

Lemma handshake_outcome_witness :
  let k := sample_handshake sample_client in let k' := sample_handshake sample_stranger in let k'' := sample_handshake sample_narcissus in
  quiet k ∧ (auth_is_ok (auth (at_client k).1.1) = true ∧ auth_is_ok (auth (at_server k).1.1) = true ∧ (at_client k).2 = true) ∧
  (auth_is_ok (auth (at_client k').1.1) = false ∧ auth_is_ok (auth (at_server k').1.1) = false) ∧
  (auth_is_ok (auth (at_client k'').1.1) = false ∧ auth_is_ok (auth (at_server k'').1.1) = false).
Proof.
  destruct (handshake_outcome id (λ _, true) (λ _, None) sample_client sample_session (Local 2) (Local 3) sample_world sample_world
    (Some NoOtherConnection) eq_refl eq_refl eq_refl (λ _, eq_refl)) as (Hq & Hok & _).
  destruct (handshake_outcome id (λ _, true) (λ _, None) sample_stranger sample_session (Local 2) (Local 3) sample_world sample_world
    (Some NoOtherConnection) eq_refl eq_refl eq_refl (λ _, eq_refl)) as (_ & _ & _ & Hno & _).
  destruct (handshake_outcome id (λ _, true) (λ _, None) sample_narcissus sample_session (Local 2) (Local 3) sample_world sample_world
    (Some NoOtherConnection) eq_refl eq_refl eq_refl (λ _, eq_refl)) as (_ & _ & Hself & _).
  split; [exact Hq|]. split; [|split].
  - destruct Hok as (H1 & H2 & H3 & _); [reflexivity|reflexivity|left; reflexivity|]. split; [exact H1|]. split; [exact H2|].
    apply H3. split; [reflexivity|]. intros i. left. reflexivity.
  - apply Hno; [intros challenge data Hd; exact Hd|discriminate].
  - destruct Hself as (H1 & H2 & _); [reflexivity|]. split; [exact H1|exact H2].
Defined.
