(* ===== verification/HandshakeNet.v ===== *)
(** The handshake of two sessions over a connection: the sessions of Handshake.v at the two ends of the connection of
    Connection.v, in every interleaving.

    First, the order in which messages are handled does not matter: the two sessions with the queues between them are
    confluent, so that every order ends where [handshake] does.  Then the queues are replaced by a connection, with its
    actors, tasks, partial writes and failures, and the pair of sessions is shown to be always on the way to the same
    end. *)

From S2P Require Import Prelude ActorTypes NodeServer Bytes Serialization RemoteActor Auth NodeSession Handshake.
From S2P Require Import Frames.
From S2P Require Import Connection.

Section handshake_net.
Variable sha256 : list byte → list byte.
Variable supports_remoting : ActorCell → bool.
Variable to_system_time : Timestamp → option Z.
Variables (client server : NodeSession).

Abbreviation Ses := (NodeSessionState * SessionWorld * bool)%type.
Abbreviation deliver := (Handshake.deliver sha256 supports_remoting to_system_time).
Abbreviation link_step := (link_step sha256 supports_remoting to_system_time client server).
Abbreviation exchange := (exchange sha256 supports_remoting to_system_time client server).

(** ** Any order *)

(** The client ([true]) or the server handles its next message. *)
Definition turn (x : bool) (k : Link) : option Link :=
  if x then
    match to_client k with
    | m :: rest => let '(s, out) := deliver client m (at_client k) in Some (mkLink s (at_server k) (to_server k ++ out) rest)
    | [] => None
    end
  else
    match to_server k with
    | m :: rest => let '(s, out) := deliver server m (at_server k) in Some (mkLink (at_client k) s rest (to_client k ++ out))
    | [] => None
    end.

Inductive turns : nat → Link → Link → Prop :=
| turns_0 k : turns 0 k k
| turns_S n x k k' k'' : turn x k = Some k' → turns n k' k'' → turns (S n) k k''.

Lemma turn_diamond x k k1 k2 :
  turn x k = Some k1 → turn (negb x) k = Some k2 → ∃ k3, turn (negb x) k1 = Some k3 ∧ turn x k2 = Some k3.
Proof.
  assert (∀ k1 k2, turn true k = Some k1 → turn false k = Some k2 → ∃ k3, turn false k1 = Some k3 ∧ turn true k2 = Some k3) as H.
  { clear. intros k1 k2. unfold turn. destruct k as [c s [|m ts] [|m' tc]]; cbn [to_client to_server at_client at_server]; try done.
    destruct (deliver client m' c) as [c' out'] eqn:Ec, (deliver server m s) as [s' out] eqn:Es. intros [= <-] [= <-].
    cbn [to_client to_server at_client at_server app]. rewrite Ec, Es. by eexists. }
  destruct x; cbn [negb]; [apply H|]. intros H1 H2. destruct (H k2 k1 H2 H1) as (k3 & ? & ?). by exists k3.
Qed.

Lemma turn_quiet x k : quiet k → turn x k = None.
Proof. intros [Hs Hc]. unfold turn. rewrite Hs, Hc. by destruct x. Qed.

Lemma turns_quiet n k k' : turns n k k' → quiet k → k = k'.
Proof. intros Ht Hq. destruct Ht as [|n x k k1 k2 H1]; [done|]. by rewrite turn_quiet in H1. Qed.

(** What one turn does can be done first *)
Lemma turns_strip n k nf x k' : turns n k nf → quiet nf → turn x k = Some k' → ∃ n', n = S n' ∧ turns n' k' nf.
Proof.
  intros Ht Hq. revert x k'. induction Ht as [k|n y k k1 nf H1 Ht IH]; intros x k' Hx; [by rewrite turn_quiet in Hx|].
  exists n. split; [done|]. destruct (decide (x = y)) as [->|Hne]; [by simplify_eq|]. assert (x = negb y) as -> by (by destruct x, y).
  destruct (turn_diamond y k k1 k' H1 Hx) as (k3 & H3 & H4). destruct (IH Hq _ _ H3) as (n' & -> & H5). by econstructor.
Qed.

Lemma turns_strip_all m n k k' nf : turns m k k' → turns n k nf → quiet nf → ∃ n', n = m + n' ∧ turns n' k' nf.
Proof.
  intros Hm. revert n. induction Hm as [k|m x k k1 k' H1 Hm IH]; intros n Hn Hq; [by exists n|].
  destruct (turns_strip n k nf x k1 Hn Hq H1) as (n' & -> & Hn'). destruct (IH n' Hn' Hq) as (n'' & -> & ?). by exists n''.
Qed.

Lemma link_step_turns k : ∃ m, m ≤ 1 ∧ turns m k (link_step k).
Proof.
  destruct k as [c s [|m ts] tc]; unfold Handshake.link_step; cbn [to_client to_server at_client at_server].
  - destruct tc as [|m' tc]; [exists 0; split; [lia|constructor]|]. destruct (deliver client m' c) as [c' out] eqn:E. exists 1. split; [lia|].
    eapply (turns_S _ true); [unfold turn; cbn [to_client to_server at_client at_server]; by rewrite E|constructor].
  - destruct (deliver server m s) as [s' out] eqn:E. exists 1. split; [lia|]. eapply (turns_S _ false); [unfold turn; cbn [to_client to_server at_client at_server]; by rewrite E|constructor].
Qed.

Lemma turns_trans m n k k1 k2 : turns m k k1 → turns n k1 k2 → turns (m + n) k k2.
Proof. intros Hm. revert n. induction Hm; intros n' Hn; cbn; [done|]. econstructor; eauto. Qed.

Lemma exchange_turns n k : ∃ m, m ≤ n ∧ turns m k (exchange n k).
Proof.
  revert k. induction n as [|n IH]; intros k; cbn [Handshake.exchange]; [exists 0; split; [lia|constructor]|].
  destruct (link_step_turns k) as (m1 & ? & H1), (IH (link_step k)) as (m2 & ? & H2). exists (m1 + m2). split; [lia|]. by eapply turns_trans.
Qed.

(** ** Over a connection *)

Variable encode : AuthMsg → list byte.
Variable decode : list byte → option AuthMsg.
Variable max_inbound_frame_size : N.

Abbreviation conn_step := (world_step encode decode max_inbound_frame_size).
Abbreviation conn_run := (Connection.run encode decode max_inbound_frame_size).

(** The connection, the sessions at its ends, how many of the messages that it was given a session has handled, and all
    that it has ever sent.  [true] is the client. *)
Record Net := mkNet {
  conn : World (NetworkMessage := AuthMsg);
  ses : bool → Ses;
  handled : bool → nat;
  outs : bool → list AuthMsg
}.

Definition update {A} (x : bool) (a : A) (f : bool → A) : bool → A := λ y, if Bool.eqb y x then a else f y.

Definition post_all (x : bool) (ms : list AuthMsg) (w : World) : World := conn_run ((λ m, (x, Post m)) <$> ms) w.

(** The connection does something by itself, or a session handles the next message. *)
Inductive NetEvent := Connects (x : bool) (ev : Event (NetworkMessage := AuthMsg)) | Handles (x : bool).

Definition is_post (ev : Event (NetworkMessage := AuthMsg)) : bool := match ev with Post _ => true | _ => false end.

Definition net_step (ev : NetEvent) (n : Net) : Net :=
  match ev with
  | Connects x ev => if is_post ev then n else mkNet (conn_step (x, ev) (conn n)) (ses n) (handled n) (outs n)
  | Handles x =>
      match delivered (conn n x) !! handled n x with
      | Some m =>
          let '(s, out) := deliver (if x then client else server) m (ses n x) in
          mkNet (post_all x out (conn n)) (update x s (ses n)) (update x (S (handled n x)) (handled n)) (update x (outs n x ++ out) (outs n))
      | None => n
      end
  end.

Definition net_run (evs : list NetEvent) (n : Net) : Net := foldl (λ n ev, net_step ev n) n evs.

Definition net_start (here there : NetworkStream) (tc ts : ActorId) (wc ws : SessionWorld) : Net :=
  let k := link_start client server tc ts wc ws in
  mkNet (post_all true (to_server k) (Connection.connect here there)) (λ x, if x then at_client k else at_server k) (λ _, 0)
    (λ x, if x then to_server k else []).

(** *** The sessions and what was sent, as a link *)

Definition link_of (n : Net) : Link :=
  mkLink (ses n true) (ses n false) (drop (handled n false) (outs n true)) (drop (handled n true) (outs n false)).

Record net_ok (here there : NetworkStream) (start : Link) (n : Net) : Prop := {
  no_conn : ∃ evs, conn n = conn_run evs (Connection.connect here there);
  no_handled x : handled n x ≤ length (delivered (conn n x));
  no_posted x : posted (conn n x) `prefix_of` outs n x;
  no_alive x : s_alive (session (conn n x)) = true → posted (conn n x) = outs n x;
  no_link : ∃ m, turns m start (link_of n)
}.

(** Steps of the connection that are not posts leave what was posted, and do not bring a session back to life. *)
Lemma step_posted ev (e : Endpoint (NetworkMessage := AuthMsg)) :
  is_post ev = false → let e' := (Connection.step encode decode max_inbound_frame_size ev e).1 in
  posted e' = posted e ∧ (s_alive (session e') = true → s_alive (session e) = true) ∧ length (delivered e) ≤ length (delivered e').
Proof.
  intros Hp. destruct e as [[al st su ms] [ph ch tx ab] [ra rk rs rm rst ef] ho po de]. destruct ev; try done; cbn [Connection.step fst].
  - unfold session_stop. by destruct al.
  - by destruct al.
  - unfold session_runs. destruct al, st, su as [|[] su], ms as [|[m|m] ms]; cbn; try done.
    + by destruct ph.
    + destruct ho; cbn; rewrite ?length_app; split_and!; try done; lia.
  - unfold writer_writes. by destruct ph.
  - unfold writer_fails, session_stop. by destruct ph, al.
  - by destruct ab.
  - unfold reader_runs, reader_ends, session_event. cbn. destruct ra, rk, rs, rm; cbn; try (by destruct al). destruct (blocked _ _ _); [done|].
    unfold reader_handle, session_cast. cbn. destruct (wait_for_object _ _ _) as [[reason|m] stream]; cbn; by destruct al.
Qed.

Lemma post_posted m (e : Endpoint (NetworkMessage := AuthMsg)) :
  delivered (post m e) = delivered e ∧ s_alive (session (post m e)) = s_alive (session e) ∧
  posted (post m e) = if s_alive (session e) then posted e ++ [m] else posted e.
Proof. unfold post, session_cast. destruct (s_alive (session e)) eqn:E; cbn; by rewrite ?E. Qed.

(** Posting at one end: all of it while the session lives, and none otherwise *)
Lemma post_all_spec x ms w y :
  let w' := post_all x ms w in
  delivered (w' y) = delivered (w y) ∧ s_alive (session (w' y)) = s_alive (session (w y)) ∧
  posted (w' y) = if Bool.eqb y x && s_alive (session (w y)) then posted (w y) ++ ms else posted (w y).
Proof.
  revert w. induction ms as [|m ms IH]; intros w; cbn zeta.
  { split_and!; [done|done|]. rewrite app_nil_r. by destruct (_ && _). }
  change (post_all x (m :: ms) w) with (post_all x ms (conn_step (x, Post m) w)). destruct (IH (conn_step (x, Post m) w)) as (-> & -> & ->).
  assert (∀ z, conn_step (x, Post m) w z = if Bool.eqb z x then post m (w x) else receive [] (w z)) as Hc by done. rewrite !Hc.
  destruct (Bool.eqb y x) eqn:Ey; cbn [andb].
  - apply Bool.eqb_prop in Ey. subst y. destruct (post_posted m (w x)) as (-> & -> & ->). destruct (s_alive (session (w x))); [by rewrite <-app_assoc|done].
  - destruct (receive_posted [] (w y)) as (-> & -> & ->). done.
Qed.

Section run.
Context (here there : NetworkStream) (tc ts : ActorId) (wc ws : SessionWorld).
Hypothesis fresh : pending (read_half here) = [] ∧ pending (read_half there) = [].

Abbreviation ok := (net_ok here there (link_start client server tc ts wc ws)).

(** The generated protobuf code decodes what the sessions sent. *)
Definition sent_ok (n : Net) : Prop := ∀ x m, m ∈ outs n x → sendable encode decode m.

Lemma net_flow n x : ok n → sent_ok n → ∃ got rest, flow encode (conn n x) (conn n (negb x)) got rest.
Proof using fresh.
  intros O Hs. destruct (no_conn _ _ _ _ O) as [evs E].
  assert (∀ m, m ∈ posted (conn n x) → sendable encode decode m) as Hp.
  { intros m Hm. apply (Hs x). eapply elem_of_prefix; [exact Hm|apply O]. }
  rewrite E in *. by apply (flows_run encode decode max_inbound_frame_size evs), Hp; apply flows_connect; apply fresh.
Qed.

Lemma net_in_order n x : ok n → sent_ok n → delivered (conn n (negb x)) `prefix_of` outs n x.
Proof using fresh.
  intros O Hs. destruct (net_flow n x O Hs) as (got & rest & F). etrans; [|apply O]. rewrite (fl_posted _ _ _ _ _ F). apply prefix_app_r, F.
Qed.

Lemma net_start_ok : ok (net_start here there tc ts wc ws).
Proof using.
  split; cbn -[post_all link_start].
  - by eexists.
  - intros x. lia.
  - intros x. destruct (post_all_spec true (to_server (link_start client server tc ts wc ws)) (Connection.connect here there) x) as (_ & _ & ->).
    by destruct x.
  - intros x _. destruct (post_all_spec true (to_server (link_start client server tc ts wc ws)) (Connection.connect here there) x) as (_ & _ & ->).
    by destruct x.
  - exists 0. unfold link_of. cbn -[link_start]. rewrite !drop_0. destruct (link_start client server tc ts wc ws) as [c s l l'] eqn:E.
    assert (l' = []) as -> by (unfold link_start in E; by injection E). constructor.
Qed.

Lemma net_connects_ok n x ev : ok n → ok (net_step (Connects x ev) n).
Proof using.
  intros [[evs O1] O2 O3 O4 O5]. cbn [net_step]. destruct (is_post ev) eqn:Ep; [by split; eauto|].
  assert (∀ y, let e' := conn_step (x, ev) (conn n) y in
    posted e' = posted (conn n y) ∧ (s_alive (session e') = true → s_alive (session (conn n y)) = true) ∧ length (delivered (conn n y)) ≤ length (delivered e')) as Hs.
  { intros y. pose proof (step_posted ev (conn n x) Ep) as H1. unfold world_step.
    destruct (Connection.step encode decode max_inbound_frame_size ev (conn n x)) as [e bytes]. cbn in H1. cbn.
    destruct (Bool.eqb y x) eqn:Ey; [apply Bool.eqb_prop in Ey; by subst y|]. destruct (receive_posted bytes (conn n y)) as (-> & -> & ->). by split_and!. }
  split; cbn -[world_step].
  - exists (evs ++ [(x, ev)]). unfold Connection.run. rewrite foldl_app. cbn -[world_step]. by rewrite O1.
  - intros y. etrans; [apply O2|apply Hs].
  - intros y. rewrite (proj1 (Hs y)). apply O3.
  - intros y Hy. rewrite (proj1 (Hs y)). apply O4. by apply Hs.
  - exact O5.
Qed.

Lemma update_eq {A} x (a : A) f : update x a f x = a.
Proof. unfold update. by rewrite Bool.eqb_reflx. Qed.
Lemma update_ne {A} x (a : A) f : update x a f (negb x) = f (negb x).
Proof. unfold update. by destruct x. Qed.

(** A session handles a message: the link takes the same turn *)
Lemma net_handles_turn n x m s out :
  ok n → sent_ok n → delivered (conn n x) !! handled n x = Some m → deliver (if x then client else server) m (ses n x) = (s, out) →
  turn x (link_of n) = Some (link_of (mkNet (post_all x out (conn n)) (update x s (ses n)) (update x (S (handled n x)) (handled n)) (update x (outs n x ++ out) (outs n)))).
Proof using fresh.
  intros O Hok Hm Hd. pose proof (net_in_order n (negb x) O Hok) as Hp. rewrite negb_involutive in Hp.
  assert (drop (handled n x) (outs n (negb x)) = m :: drop (S (handled n x)) (outs n (negb x))) as Hdrop.
  { apply drop_S. by eapply prefix_lookup_Some. }
  assert (handled n (negb x) ≤ length (outs n x)) as Hle.
  { etrans; [apply O|]. by apply prefix_length, net_in_order. }
  unfold turn, link_of. destruct x; cbn [to_client to_server at_client at_server negb ses handled outs] in *; rewrite Hdrop, Hd, !update_eq.
  - rewrite (update_ne true), (update_ne true), drop_app_le by done. done.
  - rewrite (update_ne false), (update_ne false), drop_app_le by done. done.
Qed.

Lemma net_handles_ok n x : ok n → sent_ok n → ok (net_step (Handles x) n).
Proof using fresh.
  intros O Hok. cbn [net_step]. destruct (delivered (conn n x) !! handled n x) as [m|] eqn:Em; [|done].
  destruct (deliver (if x then client else server) m (ses n x)) as [s out] eqn:Ed. pose proof (net_handles_turn n x m s out O Hok Em Ed) as Ht.
  pose proof O as [[evs O1] O2 O3 O4 [k O5]].
  assert (∀ y, y = x ∨ y = negb x) as Hxy by (intros [] ; destruct x; auto).
  split; cbn -[post_all link_of]; try (intros y; destruct (post_all_spec x out (conn n) y) as (Hdl & Hal & Hpo)).
  - exists (evs ++ ((λ m, (x, Post m)) <$> out)). unfold Connection.run. rewrite foldl_app. unfold post_all. by rewrite O1.
  - rewrite Hdl. destruct (Hxy y) as [->| ->]; [rewrite update_eq; by eapply lookup_lt_Some|rewrite update_ne; apply O2].
  - rewrite Hpo. destruct (Hxy y) as [->| ->]; [rewrite update_eq, Bool.eqb_reflx|rewrite update_ne; destruct x; apply O3]. cbn [andb].
    destruct (s_alive (session (conn n x))) eqn:Ea; [by rewrite O4|]. by apply prefix_app_r.
  - rewrite Hal, Hpo. intros Ha. rewrite Ha. destruct (Hxy y) as [->| ->]; [rewrite update_eq, Bool.eqb_reflx; cbn; by rewrite O4|].
    rewrite update_ne. destruct x; cbn in *; by apply O4.
  - exists (k + 1). eapply turns_trans; [exact O5|]. eapply turns_S; [exact Ht|constructor].
Qed.

(** What was sent stays sent *)
Lemma outs_step ev n x : outs n x `prefix_of` outs (net_step ev n) x.
Proof using.
  destruct ev as [y ev|y]; cbn [net_step]; [by destruct (is_post ev)|]. destruct (delivered (conn n y) !! handled n y) as [m|]; [|done].
  destruct (deliver _ m (ses n y)) as [s out]. cbn. unfold update. destruct (Bool.eqb x y) eqn:E; [|done].
  apply Bool.eqb_prop in E. subst y. by apply prefix_app_r.
Qed.

Lemma outs_run evs n x : outs n x `prefix_of` outs (net_run evs n) x.
Proof using. revert n. induction evs as [|ev evs IH]; intros n; [done|]. etrans; [apply (outs_step ev)|apply IH]. Qed.

Lemma net_run_ok evs n : ok n → sent_ok (net_run evs n) → ok (net_run evs n).
Proof using fresh.
  revert n. induction evs as [|ev evs IH]; intros n O Hok; [done|].
  assert (sent_ok n) as Hn by (intros x m Hm; apply (Hok x); eapply elem_of_prefix; [exact Hm|apply outs_run]).
  destruct ev as [x ev|x]; cbn [net_run foldl]; (apply IH; [|exact Hok]); [by apply net_connects_ok|by apply net_handles_ok].
Qed.

Abbreviation hs := (handshake sha256 supports_remoting to_system_time client server tc ts wc ws).

Lemma handshake_quiet reply :
  ns_is_server client = false → ns_is_server server = true → sw_log wc = [] → (∀ k, sw_check ws k = reply) → quiet hs.
Proof using.
  intros Hc Hs Hl Hr. destruct reply as [[| | |]|].
  - by eapply (handshake_accepted sha256 supports_remoting to_system_time client server tc ts wc ws (conj Hc Hs) Hl _ Hr); left.
  - by eapply (handshake_refused sha256 supports_remoting to_system_time client server tc ts wc ws (conj Hc Hs) Hl Hr).
  - by eapply (handshake_accepted sha256 supports_remoting to_system_time client server tc ts wc ws (conj Hc Hs) Hl _ Hr); right.
  - by eapply (handshake_stuck sha256 supports_remoting to_system_time client server tc ts wc ws (conj Hc Hs) Hl Hr).
  - by eapply (handshake_unanswered sha256 supports_remoting to_system_time client server tc ts wc ws (conj Hc Hs) Hl Hr).
Qed.

(** An authenticated session stays authenticated *)
Lemma deliver_ok self m (s : Ses) : auth_is_ok (auth s.1.1) = true → auth_is_ok (auth (deliver self m s).1.1.1) = true.
Proof using.
  intros H. unfold Handshake.deliver. destruct s as [s []]; [|done]. cbn [fst snd] in *. unfold session_handle. rewrite bind_reads.
  destruct (match name s.1 with Some peer => is_self self peer | None => false end); [done|]. rewrite bind_reads.
  destruct (tcp s.1); [|done]. unfold handle_network. rewrite bind_reads, H. cbn [negb andb].
  assert (handle_auth sha256 self (Some m) s = (Ok tt, s)) as E by (unfold handle_auth; by rewrite bind_reads, H).
  by rewrite (bind_ok _ _ _ _ _ E), bind_reads.
Qed.

Lemma turns_ok m k k' :
  turns m k k' → (auth_is_ok (auth (at_client k).1.1) = true → auth_is_ok (auth (at_client k').1.1) = true) ∧
  (auth_is_ok (auth (at_server k).1.1) = true → auth_is_ok (auth (at_server k').1.1) = true).
Proof using.
  induction 1 as [k|n x k k1 k2 H1 _ [IHc IHs]]; [done|]. revert H1. unfold turn. destruct x.
  - destruct (to_client k) as [|msg l]; [done|]. pose proof (deliver_ok client msg (at_client k)) as Hd. destruct (deliver client msg (at_client k)).
    intros [= <-]. cbn in *. auto.
  - destruct (to_server k) as [|msg l]; [done|]. pose proof (deliver_ok server msg (at_server k)) as Hd. destruct (deliver server msg (at_server k)).
    intros [= <-]. cbn in *. auto.
Qed.

(** Nothing is left to do at an end: the connection waits, and the session has handled all it was given. *)
Definition at_rest (n : Net) (x : bool) : Prop :=
  settled encode decode max_inbound_frame_size (conn n x) ∧ s_alive (session (conn n x)) = true ∧ handler_open (conn n x) = true ∧
  handled n x = length (delivered (conn n x)) ∧ ∀ m, m ∈ posted (conn n x) → fits encode max_inbound_frame_size m.

Lemma at_rest_delivered n x :
  ok n → sent_ok n → reliable (read_half here) → reliable (read_half there) → at_rest n x → at_rest n (negb x) → drop (handled n (negb x)) (outs n x) = [].
Proof using fresh.
  intros O Hok R1 R2 (A1 & A2 & A3 & A4 & A5) (B1 & B2 & B3 & B4 & B5). destruct (no_conn _ _ _ _ O) as [evs E].
  destruct (net_flow n x O Hok) as (got & rest & F).
  assert (∀ y, tidy (conn n y)) as Ht by (intros y; rewrite E; apply (w_tidy encode decode max_inbound_frame_size)).
  assert (dependable (conn n (negb x))) as Hd.
  { rewrite E. apply run_invariant; [apply dependable_step|apply dependable_receive|]. intros y s [= <-]. by destruct y. }
  assert (delivered (conn n (negb x)) = posted (conn n x)) as Hall.
  { eapply (idle_all_delivered encode decode max_inbound_frame_size); [exact F|by apply (settled_idle encode)..|done|done|].
    intros m Hm. split; [|by apply A5]. apply (Hok x). by rewrite <-(no_alive _ _ _ _ O x A2). }
  rewrite B4, Hall, (no_alive _ _ _ _ O x A2). apply drop_all.
Qed.

(** C38: The handshake over a real connection.  Whatever the two ends of the connection do, in whatever order the sessions handle
    what they receive, and wherever the stream is cut or an actor stops, the two sessions are on the way to the outcome of [handshake]
    (Handshake.v), at most five messages away: neither is ever authenticated unless it is in that outcome.  Over a reliable transport, when the
    connection is alive at both ends and nothing is left to do, they are at that outcome.  A session that has ended handles nothing more;
    that its end of the connection stops with it is one of the things that may happen. *)
Theorem handshake_over_connection evs reply :
  ns_is_server client = false → ns_is_server server = true → sw_log wc = [] → (∀ k, sw_check ws k = reply) →
  let n := net_run evs (net_start here there tc ts wc ws) in sent_ok n →
  (∃ m m', turns m (link_start client server tc ts wc ws) (link_of n) ∧ turns m' (link_of n) hs ∧ m + m' ≤ 5) ∧
  (auth_is_ok (auth (ses n true).1.1) = true → auth_is_ok (auth (at_client hs).1.1) = true) ∧
  (auth_is_ok (auth (ses n false).1.1) = true → auth_is_ok (auth (at_server hs).1.1) = true) ∧
  (reliable (read_half here) → reliable (read_half there) → at_rest n true → at_rest n false →
     ses n true = at_client hs ∧ ses n false = at_server hs).
Proof using fresh.
  intros Hc Hs Hl Hr n Hok. assert (ok n) as O by (apply net_run_ok; [apply net_start_ok|done]). pose proof (handshake_quiet reply Hc Hs Hl Hr) as Hq.
  destruct (no_link _ _ _ _ O) as [m Hm]. destruct (exchange_turns 5 (link_start client server tc ts wc ws)) as (m5 & H5 & Hx).
  destruct (turns_strip_all _ _ _ _ _ Hm Hx Hq) as (m' & -> & Hm'). destruct (turns_ok _ _ _ Hm') as [Hoc Hos].
  split_and!; [by exists m, m'|done|done|]. intros R1 R2 T F.
  assert (quiet (link_of n)) as Hql by (split; cbn; [apply (at_rest_delivered n true)|apply (at_rest_delivered n false)]; done).
  unfold handshake. rewrite <-(turns_quiet _ _ _ Hm' Hql). done.
Qed.
End run.
End handshake_net.

(** ** Example *)

(** A codec for the five messages of one handshake, and its schedule: each time, one end writes what it has to say and the
    other reads and handles it. *)
Definition sample_messages : list AuthMsg :=
  [MName (mkName "there" None "there:1" 9); MServerStatus StatusOk; MServerChallenge (mkChallenge "here" None 103 "here:1");
   MClientChallenge 101 (challenge_digest id "cookie" 103); MServerAck (challenge_digest id "cookie" 101)].

Definition encode_auth (m : AuthMsg) : list byte :=
  match m with
  | MName _ => [x00] | MServerStatus _ => [x01] | MServerChallenge _ => [x02] | MClientChallenge _ _ => [x03] | MServerAck _ => [x04]
  | MClientStatus _ => [x05]
  end.
Definition decode_auth (l : list byte) : option AuthMsg := match l with [b] => sample_messages !! N.to_nat (Byte.to_N b) | _ => None end.

Definition relay (x : bool) : list NetEvent :=
  let send := Connects x <$> [SessionRuns; WriterTakes; WriterWrites 100; WriterFlushes] in
  let take := (Connects (negb x) <$> [ReaderRuns; SessionRuns]) ++ [Handles (negb x)] in
  send ++ send ++ take ++ take.

Abbreviation sample_net evs :=
  (net_run id (λ _, true) (λ _, None) sample_client sample_session encode_auth decode_auth 100 evs
    (net_start sample_client sample_session encode_auth decode_auth 100 sample_transport sample_transport (Local 2) (Local 3) sample_world sample_world)).
Abbreviation sample_schedule := (relay true ++ relay false ++ relay true ++ relay false).

Lemma sample_rest x : at_rest encode_auth decode_auth 100 (sample_net sample_schedule) x.
Proof.
  destruct x; (split_and!; [split_and!; [vm_compute; reflexivity..|left; vm_compute; reflexivity|vm_compute; discriminate]|vm_compute; reflexivity..|]);
    intros [] _; split; vm_compute; discriminate.
Qed.

(** Both ends are authenticated over the connection. *)
Lemma handshake_over_connection_witness :
  let n := sample_net sample_schedule in auth_is_ok (auth (ses n true).1.1) = true ∧ auth_is_ok (auth (ses n false).1.1) = true.
Proof.
  destruct (handshake_over_connection id (λ _, true) (λ _, None) sample_client sample_session encode_auth decode_auth 100 sample_transport sample_transport (Local 2) (Local 3)
    sample_world sample_world (conj eq_refl eq_refl) sample_schedule (Some NoOtherConnection) eq_refl eq_refl eq_refl (λ _, eq_refl)) as (_ & _ & _ & Hrest).
  - intros x m Hm. apply list_elem_of_lookup in Hm as [i Hi]. split; [|by destruct m].
    destruct x; destruct i as [|[|[|i]]]; vm_compute in Hi; try discriminate; injection Hi as <-; vm_compute; reflexivity.
  - cbn zeta. destruct Hrest as [-> ->]; [by intros k..|apply sample_rest|apply sample_rest|]. split; vm_compute; reflexivity.
Defined.
