(* ===== verification/MacroSyntax.v ===== *)
(** Rust syntax as the attribute macro for actors sees it (src/ractor_macros/src): the trees of [syn], as far as
    expand.rs looks at them, the options of the macro (config.rs), and the attributes for conditional
    compilation that it copies to generated code (expand.rs).

    Arguments of attributes and macros are token streams.  They are given as what [syn] parses them to: a list
    of attributes, or a sequence of pieces (identifiers, punctuation, whole types, paths and patterns).  Spans
    are left out.  What attributes mean is a matter of the compiler: [expand_attrs] evaluates [cfg_attr] in a
    configuration, any assignment of truth values to conditions. *)

From S2P Require Import Prelude.

(** ** Types and paths *)

Inductive TokenTree :=
| TkIdent (s : string)
| TkGroup (stream : list TokenTree)
| TkOther (s : string).

(** [syn::Type] and what occurs in it.  [TyOther] are the kinds of types that the macro passes through: arrays,
    slices, pointers, functions, trait objects, [!] and [_]; [Syntax] is what may occur in them and in generic
    arguments. *)
Inductive Ty :=
| TyPath (qself : option Ty) (path : Path)
| TyReference (lifetime : option string) (mutability : bool) (elem : Ty)
| TyTuple (elems : list Ty)
| TyParen (elem : Ty)
| TyGroup (elem : Ty)
| TyImplTrait (bounds : list Syntax)
| TyMacro (path : Path) (tokens : list TokenTree)
| TyVerbatim (tokens : list TokenTree)
| TyOther (kind : string) (parts : list Syntax)
with Path :=
| mkPath (leading_colon : bool) (segments : list (string * PathArguments))
with PathArguments :=
| NoArguments
| AngleBracketed (colon2 : bool) (args : list Syntax)
| Parenthesized (inputs : list Ty) (output : option Ty)
with Syntax :=
| SType (ty : Ty)
| SPath (path : Path)
| SMacro (path : Path) (tokens : list TokenTree)
| SVerbatim (tokens : list TokenTree)
| SNode (kind : string) (parts : list Syntax).

Definition leading_colon (p : Path) : bool := let 'mkPath c _ := p in c.
Definition segments (p : Path) : list (string * PathArguments) := let 'mkPath _ l := p in l.
Definition idents (p : Path) : list string := (segments p).*1.

(** [Path::is_ident]: a single segment without arguments *)
Definition is_ident (p : Path) (name : string) : bool :=
  match p with mkPath false [(s, NoArguments)] => bool_decide (s = name) | _ => false end.

Definition ident_path (name : string) : Path := mkPath false [(name, NoArguments)].
Definition unit_type : Ty := TyTuple [].

(** [unparenthesized_type] *)
Fixpoint unparenthesized_type (ty : Ty) : Ty :=
  match ty with
  | TyGroup elem => unparenthesized_type elem
  | TyParen elem => unparenthesized_type elem
  | _ => ty
  end.

(** The nodes of a tree that a visitor stops at *)
Inductive Node := NTy (ty : Ty) | NPath (p : Path) | NMacro (tokens : list TokenTree) | NSyntax (s : Syntax).

(** Whether some node of a tree satisfies [p]: the traversal of [syn::visit] *)
Section any.
Context (p : Node → bool).

Fixpoint any_ty (t : Ty) : bool :=
  p (NTy t) ||
  match t with
  | TyPath qself path => match qself with Some q => any_ty q | None => false end || any_path path
  | TyReference _ _ elem => any_ty elem
  | TyTuple elems => existsb any_ty elems
  | TyParen elem => any_ty elem
  | TyGroup elem => any_ty elem
  | TyImplTrait bounds => existsb any_syntax bounds
  | TyMacro path tokens => any_path path || p (NMacro tokens)
  | TyVerbatim _ => false
  | TyOther _ parts => existsb any_syntax parts
  end
with any_path (t : Path) : bool :=
  p (NPath t) ||
  match t with mkPath _ segs => existsb (λ s : string * PathArguments, any_args s.2) segs end
with any_args (a : PathArguments) : bool :=
  match a with
  | NoArguments => false
  | AngleBracketed _ args => existsb any_syntax args
  | Parenthesized inputs output => existsb any_ty inputs || match output with Some t => any_ty t | None => false end
  end
with any_syntax (s : Syntax) : bool :=
  p (NSyntax s) ||
  match s with
  | SType t => any_ty t
  | SPath q => any_path q
  | SMacro q tokens => any_path q || p (NMacro tokens)
  | SVerbatim _ => false
  | SNode _ parts => existsb any_syntax parts
  end.
End any.

(** [impl_trait_span]: a visitor that looks for [impl Trait] anywhere *)
Definition has_impl_trait : Ty → bool :=
  any_ty (λ n, match n with NTy (TyImplTrait _) => true | _ => false end).

Definition is_unit_type (ty : Ty) : bool :=
  match unparenthesized_type ty with TyTuple [] => true | _ => false end.

(** ** Patterns *)

Inductive Member := Named (s : string) | Unnamed (index : nat).

Inductive Pat :=
| PIdent (attrs : list string) (by_ref mutability : bool) (ident : string) (subpat : option Pat)
| PWild (attrs : list string)
| PPath (attrs : list string) (qself : option Ty) (path : Path)
| PTupleStruct (attrs : list string) (qself : option Ty) (path : Path) (elems : list Pat)
| PStruct (attrs : list string) (qself : option Ty) (path : Path) (fields : list (Member * Pat)) (rest : bool)
| POther (description : string).

(** ** Token streams and attributes *)

Inductive Visibility := Inherited | Public (restriction : option string).

Inductive Piece :=
| KIdent (s : string)
| KComma
| KEq
| KEnum
| KVis (v : Visibility)
| KPath (p : Path)
| KType (t : Ty)
| KPat (p : Pat)
| KOther (s : string).

Inductive Meta :=
| MetaPath (path : Path)
| MetaList (path : Path) (tokens : Tokens)
| MetaNameValue (path : Path) (value : string)
with Tokens :=
| Metas (items : list Meta)
| Stream (pieces : list Piece).

Abbreviation Attribute := Meta.

Definition meta_path (m : Meta) : Path :=
  match m with MetaPath p | MetaList p _ | MetaNameValue p _ => p end.

(** Parsers of [syn] on pieces: a lone identifier is also a path, a type or a pattern. *)
Definition parse_ident (input : list Piece) : res (string * list Piece) :=
  match input with KIdent s :: input => Ok (s, input) | _ => Err "expected identifier" end.
Definition parse_path (input : list Piece) : res (Path * list Piece) :=
  match input with
  | KPath p :: input => Ok (p, input)
  | KIdent s :: input => Ok (ident_path s, input)
  | _ => Err "expected identifier"
  end.
Definition parse_type (input : list Piece) : res (Ty * list Piece) :=
  match input with
  | KType t :: input => Ok (t, input)
  | KPath p :: input => Ok (TyPath None p, input)
  | KIdent s :: input => Ok (TyPath None (ident_path s), input)
  | _ => Err "expected type"
  end.
Definition parse_single (input : list Piece) : res (Pat * list Piece) :=
  match input with
  | KPat p :: input => Ok (p, input)
  | KPath p :: input => Ok (PPath [] None p, input)
  | KIdent s :: input => Ok (PIdent [] false false s None, input)
  | _ => Err "expected pattern"
  end.
Definition parse_token (tok : Piece → bool) (input : list Piece) : res (list Piece) :=
  match input with t :: input => if tok t then Ok input else Err "expected token" | [] => Err "expected token" end.

Definition is_comma (k : Piece) : bool := match k with KComma => true | _ => false end.
Definition is_eq (k : Piece) : bool := match k with KEq => true | _ => false end.
Definition is_enum (k : Piece) : bool := match k with KEnum => true | _ => false end.

(** [Attribute::parse_args_with]: only list syntax has arguments. *)
Definition parse_args (m : Meta) : res (list Piece) :=
  match m with MetaList _ (Stream pieces) => Ok pieces | _ => Err "expected attribute arguments in parentheses" end.

(** [Punctuated::<Meta, Token![,]>::parse_terminated] *)
Definition parse_metas (tokens : Tokens) : res (list Meta) :=
  match tokens with Metas items => Ok items | Stream _ => Err "expected an attribute" end.

(** ** config.rs *)

Record GeneratedMessageConfig := mkGenerated { visibility : Visibility; message_ident : string }.

Inductive MessageConfig := Existing (ty : Ty) | Generated (config : GeneratedMessageConfig).

(** [MessageConfig::ty] *)
Definition message_ty (m : MessageConfig) : Ty :=
  match m with
  | Existing ty => ty
  | Generated config => TyPath None (ident_path (message_ident config))
  end.

Record ActorConfig := mkConfig {
  thread_local : bool;
  message : MessageConfig;
  state : Ty;
  arguments : Ty;
  crate_path : option Path
}.

Definition parse_message_config (input : list Piece) : res (MessageConfig * list Piece) :=
  match input with
  | KEnum :: input =>
      '(ident, input) ← parse_ident input;
      Ok (Generated (mkGenerated Inherited ident), input)
  | KVis visibility :: input =>
      input ← parse_token is_enum input;
      '(ident, input) ← parse_ident input;
      Ok (Generated (mkGenerated visibility ident), input)
  | _ =>
      '(ty, input) ← parse_type input;
      Ok (Existing ty, input)
  end.

Definition set_once {T} (slot : option T) (value : T) (name : string) : res (option T) :=
  match slot with
  | Some _ => Err ("duplicate `" +:+ name +:+ "` option")
  | None => Ok (Some value)
  end.

(** The options read so far: the local variables of [ActorConfig::parse] *)
Record Options := mkOptions {
  o_thread_local : bool;
  o_message : option MessageConfig;
  o_state : option Ty;
  o_arguments : option Ty;
  o_crate_path : option Path
}.
Definition no_options : Options := mkOptions false None None None None.

(** One turn of the loop, up to the separating comma *)
Definition parse_option (o : Options) (input : list Piece) : res (Options * list Piece) :=
  '(key_name, input) ← parse_ident input;
  if bool_decide (key_name = "thread_local"%string) then
    if o_thread_local o then Err "duplicate `thread_local` flag"
    else Ok (mkOptions true (o_message o) (o_state o) (o_arguments o) (o_crate_path o), input)
  else
    input ← parse_token is_eq input;
    if bool_decide (key_name = "message"%string) then
      '(value, input) ← parse_message_config input;
      slot ← set_once (o_message o) value "message";
      Ok (mkOptions (o_thread_local o) slot (o_state o) (o_arguments o) (o_crate_path o), input)
    else if bool_decide (key_name = "state"%string) then
      '(value, input) ← parse_type input;
      slot ← set_once (o_state o) value "state";
      Ok (mkOptions (o_thread_local o) (o_message o) slot (o_arguments o) (o_crate_path o), input)
    else if bool_decide (key_name = "arguments"%string) then
      '(value, input) ← parse_type input;
      slot ← set_once (o_arguments o) value "arguments";
      Ok (mkOptions (o_thread_local o) (o_message o) (o_state o) slot (o_crate_path o), input)
    else if bool_decide (key_name = "crate_path"%string) then
      '(value, input) ← parse_path input;
      slot ← set_once (o_crate_path o) value "crate_path";
      Ok (mkOptions (o_thread_local o) (o_message o) (o_state o) (o_arguments o) slot, input)
    else Err "unknown actor option; expected `thread_local`, `message`, `state`, `arguments`, or `crate_path`".

(** [while !input.is_empty()]; every turn consumes a piece, so that the length of the input is enough fuel. *)
Fixpoint parse_options (fuel : nat) (o : Options) (input : list Piece) : res Options :=
  match fuel, input with
  | _, [] => Ok o
  | 0, _ => Panic
  | S fuel, _ =>
      '(o, input) ← parse_option o input;
      match input with
      | [] => Ok o
      | _ => input ← parse_token is_comma input; parse_options fuel o input
      end
  end.

(** [ActorConfig::parse] *)
Definition parse_config (input : list Piece) : res ActorConfig :=
  o ← parse_options (length input) no_options input;
  match o_message o with
  | None => Err "missing required actor option `message = ...`"
  | Some message =>
      Ok (mkConfig (o_thread_local o) message (default unit_type (o_state o)) (default unit_type (o_arguments o))
            (o_crate_path o))
  end.

(** ** Attributes for conditional compilation (expand.rs) *)

(** [for nested in items] of [filter_cfg_attr_meta], and the loop of [filtered_attributes] *)
Definition filter_metas {A} (filter : A → res (option A)) : list A → res (list A) :=
  fix go l :=
    match l with
    | [] => Ok []
    | m :: l =>
        o ← filter m;
        rest ← go l;
        Ok (match o with Some m => m :: rest | None => rest end)
    end.

(** [filter_cfg_attr_meta], given the filter for nested attributes *)
Definition filter_cfg_attr_meta (filter : Meta → res (option Meta)) (meta : Meta) : res (option Meta) :=
  match meta with
  | MetaList p (Metas (condition :: items)) =>
      match items with
      | [] => Err "`cfg_attr` requires a condition and at least one attribute"
      | _ =>
          filtered ← filter_metas filter items;
          match filtered with
          | [] => Ok None
          | _ => Ok (Some (MetaList p (Metas (condition :: filtered))))
          end
      end
  | MetaList _ (Metas []) => Err "`cfg_attr` requires a condition and at least one attribute"
  | MetaList _ (Stream _) => Err "expected an attribute"
  | _ => Err "`cfg_attr` must use list syntax"
  end.

Fixpoint filter_cfg_meta (meta : Meta) : res (option Meta) :=
  if is_ident (meta_path meta) "cfg" then Ok (Some meta)
  else if negb (is_ident (meta_path meta) "cfg_attr") then Ok None
  else filter_cfg_attr_meta filter_cfg_meta meta.

Fixpoint filter_generated_variant_meta (meta : Meta) : res (option Meta) :=
  if is_ident (meta_path meta) "cfg"
     || (is_ident (meta_path meta) "doc" && match meta with MetaNameValue _ _ => true | _ => false end) then Ok (Some meta)
  else if negb (is_ident (meta_path meta) "cfg_attr") then Ok None
  else filter_cfg_attr_meta filter_generated_variant_meta meta.

Definition filtered_attributes (filter : Meta → res (option Meta)) (attributes : list Attribute) : res (list Attribute) :=
  filter_metas filter attributes.

Definition match_arm_cfg_attributes : list Attribute → res (list Attribute) := filtered_attributes filter_cfg_meta.
Definition generated_variant_attributes : list Attribute → res (list Attribute) :=
  filtered_attributes filter_generated_variant_meta.

(** ** What attributes mean to the compiler *)

Section configuration.
Context (holds : Meta → bool).

(** The attributes that remain when [cfg_attr] is evaluated *)
Fixpoint expand_meta (m : Meta) : list Meta :=
  if is_ident (meta_path m) "cfg_attr" then
    match m with
    | MetaList _ (Metas (condition :: items)) => if holds condition then flat_map expand_meta items else []
    | _ => []
    end
  else [m].
Definition expand_attrs (l : list Attribute) : list Meta := flat_map expand_meta l.

(** An item is compiled when every [cfg] on it holds. *)
Definition cfg_holds (m : Meta) : bool :=
  match m with
  | MetaList p (Metas [condition]) => if is_ident p "cfg" then holds condition else true
  | _ => true
  end.
Definition compiled (l : list Attribute) : bool := forallb cfg_holds (expand_attrs l).
End configuration.

(** What the two filters are meant to keep *)
Definition is_cfg (m : Meta) : bool := is_ident (meta_path m) "cfg".
Definition is_cfg_or_doc (m : Meta) : bool :=
  is_cfg m || (is_ident (meta_path m) "doc" && match m with MetaNameValue _ _ => true | _ => false end).

Fixpoint meta_size (m : Meta) : nat :=
  match m with
  | MetaList _ (Metas items) => S (foldr (λ m n, meta_size m + n) 0 items)
  | _ => 1
  end.

Lemma meta_size_elem m (items : list Meta) : m ∈ items → meta_size m ≤ foldr (λ m n, meta_size m + n) 0 items.
Proof. induction 1; simpl; lia. Qed.

(** Every [cfg_attr] has a condition and at least one attribute. *)
Fixpoint well_formed_meta (m : Meta) : bool :=
  if is_ident (meta_path m) "cfg_attr" then
    match m with
    | MetaList _ (Metas (_ :: (_ :: _) as items)) => forallb well_formed_meta items
    | _ => false
    end
  else true.

(** A filter that keeps the attributes [keep] and descends into [cfg_attr] *)
Definition filters (keep : Meta → bool) (f : Meta → res (option Meta)) : Prop :=
  ∀ m, f m = if keep m then Ok (Some m)
             else if negb (is_ident (meta_path m) "cfg_attr") then Ok None
             else filter_cfg_attr_meta f m.

Lemma is_ident_inj p a b : is_ident p a = true → is_ident p b = true → a = b.
Proof.
  destruct p as [[] [|[s []] [|]]]; simpl; try done. intros Ha%bool_decide_eq_true Hb%bool_decide_eq_true. congruence.
Qed.

Section filters.
Context (keep : Meta → bool) (f : Meta → res (option Meta)) (Hf : filters keep f).
Context (Hkeep : ∀ m, keep m = true → is_ident (meta_path m) "cfg_attr" = false).
Context (holds : Meta → bool).

Lemma expand_kept m : keep m = true → expand_meta holds m = [m].
Proof. intros Hm. apply Hkeep in Hm. by destruct m; simpl in *; rewrite Hm. Qed.

Lemma filter_metas_expand (l l' : list Meta) :
  (∀ m o, m ∈ l → f m = Ok o →
     expand_attrs holds (option_list o) = filter (λ x, keep x = true) (expand_meta holds m)) →
  filter_metas f l = Ok l' →
  expand_attrs holds l' = filter (λ x, keep x = true) (expand_attrs holds l).
Proof.
  revert l'. induction l as [|m l IH]; intros l' Hm; [by intros [= <-]|]. cbn [filter_metas]. fold (filter_metas f).
  intros (o & Ho & (rest & Hr & [= <-])%res_bind_ok)%res_bind_ok.
  unfold expand_attrs in *. cbn [flat_map]. rewrite filter_app, <-(Hm m o) by (done || by left).
  rewrite <-(IH rest); [|intros m' o' Hin; apply Hm; by right|done].
  destruct o; simpl; [by rewrite app_nil_r|done].
Qed.

Lemma filter_meta_expand m o :
  f m = Ok o → expand_attrs holds (option_list o) = filter (λ x, keep x = true) (expand_meta holds m).
Proof.
  remember (meta_size m) as n eqn:Hn. assert (meta_size m ≤ n) as Hle by lia. clear Hn. revert m o Hle.
  induction n as [|n IH]; intros m o Hle; [by destruct m as [|? []|]; simpl in Hle; lia|]. rewrite Hf.
  destruct (keep m) eqn:Ek.
  { intros [= <-]. unfold expand_attrs. simpl. by rewrite expand_kept, filter_cons, decide_True by done. }
  destruct (is_ident (meta_path m) "cfg_attr") eqn:Ec; simpl.
  2: { intros [= <-]. destruct m; simpl in *; rewrite Ec, filter_cons, decide_False by (by rewrite Ek); done. }
  destruct m as [|p [[|c items]|]|]; simpl in *; try done. destruct items as [|i items']; [done|].
  intros (l' & Hl & Ho)%res_bind_ok. apply filter_metas_expand in Hl.
  2: { intros m o' Hm. apply IH. pose proof (meta_size_elem m _ Hm). simpl in *. lia. }
  rewrite Ec. change (flat_map (expand_meta holds) ?l) with (expand_attrs holds l).
  destruct l' as [|m' l'']; injection Ho as <-; [by destruct (holds c); rewrite <-?Hl|].
  unfold expand_attrs at 1. simpl. rewrite Ec, app_nil_r. by destruct (holds c).
Qed.

Lemma filtered_attributes_expand l l' :
  filtered_attributes f l = Ok l' → expand_attrs holds l' = filter (λ x, keep x = true) (expand_attrs holds l).
Proof. apply filter_metas_expand. intros m o _. apply filter_meta_expand. Qed.

Lemma filter_metas_ok (l : list Meta) :
  (∀ m, m ∈ l → well_formed_meta m = true → ∃ o, f m = Ok o) →
  forallb well_formed_meta l = true → ∃ l', filter_metas f l = Ok l'.
Proof.
  induction l as [|m l IH]; intros Hm Hw; [by eexists|]. simpl in Hw. apply andb_true_iff in Hw as [Hw1 Hw2].
  destruct (Hm m) as [o Ho]; [by left|done|]. destruct IH as [l' Hl]; [intros; apply Hm; [by right|done]|done|].
  eexists. cbn [filter_metas]. fold (filter_metas f). rewrite Ho. simpl. by rewrite Hl.
Qed.

Lemma filter_meta_ok m : well_formed_meta m = true → ∃ o, f m = Ok o.
Proof.
  remember (meta_size m) as n eqn:Hn. assert (meta_size m ≤ n) as Hle by lia. clear Hn. revert m Hle.
  induction n as [|n IH]; intros m Hle; [by destruct m as [|? []|]; simpl in Hle; lia|]. rewrite Hf. intros Hw.
  destruct (keep m); [by eexists|]. destruct (is_ident (meta_path m) "cfg_attr") eqn:Ec; simpl; [|by eexists].
  destruct m as [|p [[|c items]|]|]; simpl in *; rewrite Ec in Hw; try done. destruct items as [|i items]; [done|].
  destruct (filter_metas_ok (i :: items)) as [l' Hl]; [|done|].
  - intros m' Hm'. apply IH. pose proof (meta_size_elem m' _ Hm'). simpl in *. lia.
  - rewrite Hl. simpl. destruct l'; by eexists.
Qed.

Lemma filtered_attributes_ok l : forallb well_formed_meta l = true → ∃ l', filtered_attributes f l = Ok l'.
Proof. apply filter_metas_ok. intros m _. apply filter_meta_ok. Qed.

(** What is kept decides whether an item is compiled. *)
Lemma compiled_filtered l l' :
  (∀ m, is_cfg m = true → keep m = true) →
  filtered_attributes f l = Ok l' → compiled holds l' = compiled holds l.
Proof.
  intros Hc Hl. unfold compiled. rewrite (filtered_attributes_expand l l') by done.
  induction (expand_attrs holds l) as [|m es IH]; [done|]. rewrite filter_cons. simpl. case_decide; simpl; rewrite IH; [done|].
  assert (cfg_holds holds m = true) as ->; [|done].
  destruct m as [|p [[|c []]|]|]; simpl; try done. destruct (is_ident p "cfg") eqn:E; [|done].
  exfalso. apply H, Hc. done.
Qed.
End filters.

Lemma filter_cfg_filters : filters is_cfg filter_cfg_meta.
Proof. by intros []. Qed.
Lemma filter_variant_filters : filters is_cfg_or_doc filter_generated_variant_meta.
Proof. by intros []. Qed.

Lemma is_cfg_or_doc_not m : is_cfg_or_doc m = true → is_ident (meta_path m) "cfg_attr" = false.
Proof.
  unfold is_cfg_or_doc, is_cfg. intros H. destruct (is_ident (meta_path m) "cfg_attr") eqn:E; [|done].
  apply orb_true_iff in H as [H|[H _]%andb_true_iff]; by specialize (is_ident_inj _ _ _ E H).
Qed.
Lemma is_cfg_not m : is_cfg m = true → is_ident (meta_path m) "cfg_attr" = false.
Proof. intros H. apply is_cfg_or_doc_not. unfold is_cfg_or_doc. by rewrite H. Qed.
Lemma is_cfg_is_cfg_or_doc m : is_cfg m = true → is_cfg_or_doc m = true.
Proof. unfold is_cfg_or_doc. by intros ->. Qed.

(** Conditional compilation of generated code.  For attributes in which every [cfg_attr] has a condition
    and an attribute, the attributes copied to the match arm and to the enum variant of a handler are, in every
    configuration, exactly the [cfg]s, and exactly the [cfg]s and the lines of documentation, that the handler
    itself has after [cfg_attr] is evaluated, in their order; so handler, arm and variant are compiled in the
    same configurations. *)
Theorem cfg_filter_exact (attributes : list Attribute) :
  forallb well_formed_meta attributes = true →
  ∃ cfgs copied, match_arm_cfg_attributes attributes = Ok cfgs ∧ generated_variant_attributes attributes = Ok copied ∧
    ∀ holds,
      expand_attrs holds cfgs = filter (λ m, is_cfg m = true) (expand_attrs holds attributes) ∧
      expand_attrs holds copied = filter (λ m, is_cfg_or_doc m = true) (expand_attrs holds attributes) ∧
      compiled holds cfgs = compiled holds attributes ∧ compiled holds copied = compiled holds attributes.
Proof.
  intros Hw.
  destruct (filtered_attributes_ok _ _ filter_cfg_filters _ Hw) as [cfgs Hc].
  destruct (filtered_attributes_ok _ _ filter_variant_filters _ Hw) as [copied Hv].
  exists cfgs, copied. split_and!; [done|done|]. intros holds. split_and!.
  - by eapply filtered_attributes_expand; [apply filter_cfg_filters|apply is_cfg_not|].
  - by eapply filtered_attributes_expand; [apply filter_variant_filters|apply is_cfg_or_doc_not|].
  - by eapply compiled_filtered; [apply filter_cfg_filters|apply is_cfg_not| |].
  - by eapply compiled_filtered; [apply filter_variant_filters|apply is_cfg_or_doc_not|apply is_cfg_is_cfg_or_doc|].
Qed.

(** The attributes of a handler: documentation, [#[cfg(test)]] and
    [#[cfg_attr(test, cfg(unix), doc = ..., doc(hidden))]] *)
Definition sample_attributes : list Attribute :=
  let flag s := MetaPath (ident_path s) in
  [MetaNameValue (ident_path "doc") "Clear the statistics.";
   MetaList (ident_path "cfg") (Metas [flag "test"]);
   MetaList (ident_path "cfg_attr")
     (Metas [flag "test"; MetaList (ident_path "cfg") (Metas [flag "unix"]);
             MetaNameValue (ident_path "doc") "Only available to Unix tests.";
             MetaList (ident_path "doc") (Metas [flag "hidden"])]);
   flag "deprecated"].

Lemma cfg_filter_exact_witness :
  ∃ cfgs copied, match_arm_cfg_attributes sample_attributes = Ok cfgs ∧
    generated_variant_attributes sample_attributes = Ok copied ∧
    ∀ holds,
      expand_attrs holds cfgs = filter (λ m, is_cfg m = true) (expand_attrs holds sample_attributes) ∧
      expand_attrs holds copied = filter (λ m, is_cfg_or_doc m = true) (expand_attrs holds sample_attributes) ∧
      compiled holds cfgs = compiled holds sample_attributes ∧ compiled holds copied = compiled holds sample_attributes.
Proof. exact (cfg_filter_exact sample_attributes eq_refl). Defined.

(** ** The options of the macro *)

(** An option as it is written *)
Inductive Opt :=
| OThreadLocal
| OMessage (m : MessageConfig)
| OState (ty : Ty)
| OArguments (ty : Ty)
| OCratePath (p : Path).

Definition opt_key (o : Opt) : string :=
  match o with
  | OThreadLocal => "thread_local" | OMessage _ => "message" | OState _ => "state" | OArguments _ => "arguments"
  | OCratePath _ => "crate_path"
  end.
Definition opt_pieces (o : Opt) : list Piece :=
  KIdent (opt_key o) ::
  match o with
  | OThreadLocal => []
  | OMessage (Existing ty) => [KEq; KType ty]
  | OMessage (Generated (mkGenerated Inherited ident)) => [KEq; KEnum; KIdent ident]
  | OMessage (Generated (mkGenerated v ident)) => [KEq; KVis v; KEnum; KIdent ident]
  | OState ty | OArguments ty => [KEq; KType ty]
  | OCratePath p => [KEq; KPath p]
  end.

(** Options separated by commas, with or without one at the end *)
Fixpoint print_options (trailing : bool) (l : list Opt) : list Piece :=
  match l with
  | [] => []
  | [o] => opt_pieces o ++ if trailing then [KComma] else []
  | o :: l => opt_pieces o ++ KComma :: print_options trailing l
  end.

(** The local variables when the options [l] have been read *)
Record options_read (l : list Opt) (o : Options) : Prop := {
  or_thread_local : o_thread_local o = true ↔ OThreadLocal ∈ l;
  or_message m : o_message o = Some m ↔ OMessage m ∈ l;
  or_state t : o_state o = Some t ↔ OState t ∈ l;
  or_arguments t : o_arguments o = Some t ↔ OArguments t ∈ l;
  or_crate_path p : o_crate_path o = Some p ↔ OCratePath p ∈ l
}.

Lemma opt_key_elem (l : list Opt) opt : opt_key opt ∈ opt_key <$> l ↔ ∃ x, x ∈ l ∧ opt_key x = opt_key opt.
Proof. rewrite list_elem_of_fmap. naive_solver. Qed.

Ltac read_option :=
  split; cbn [o_thread_local o_message o_state o_arguments o_crate_path]; intros; rewrite elem_of_cons; naive_solver.
Ltac fresh_key :=
  rewrite bool_decide_false by (rewrite opt_key_elem; intros ([] & ? & ?); simplify_eq/=; naive_solver).
Ltac used_key :=
  rewrite bool_decide_true by (rewrite opt_key_elem; naive_solver).

(** One option: read if its key is new, and refused otherwise *)
Lemma parse_option_read l o opt rest :
  options_read l o →
  if bool_decide (opt_key opt ∈ opt_key <$> l) then ∃ e, parse_option o (opt_pieces opt ++ rest) = Err e
  else ∃ o', parse_option o (opt_pieces opt ++ rest) = Ok (o', rest) ∧ options_read (opt :: l) o'.
Proof.
  intros [H1 H2 H3 H4 H5]. destruct opt as [|m|ty|ty|p].
  - destruct (o_thread_local o) eqn:E; [used_key; eexists; unfold parse_option; simpl; by rewrite E|].
    fresh_key. eexists. unfold parse_option. simpl. rewrite E. split; [done|]. read_option.
  - assert (parse_option o (opt_pieces (OMessage m) ++ rest) =
      slot ← set_once (o_message o) m "message"; Ok (mkOptions (o_thread_local o) slot (o_state o) (o_arguments o) (o_crate_path o), rest)) as ->.
    { by destruct m as [|[[]]]. }
    destruct (o_message o) as [m'|] eqn:E; [used_key; by eexists|]. fresh_key. eexists. split; [done|]. read_option.
  - destruct (o_state o) as [m'|] eqn:E; [used_key; eexists; unfold parse_option; simpl; by rewrite E|].
    fresh_key. eexists. unfold parse_option. simpl. rewrite E. split; [done|]. read_option.
  - destruct (o_arguments o) as [m'|] eqn:E; [used_key; eexists; unfold parse_option; simpl; by rewrite E|].
    fresh_key. eexists. unfold parse_option. simpl. rewrite E. split; [done|]. read_option.
  - destruct (o_crate_path o) as [m'|] eqn:E; [used_key; eexists; unfold parse_option; simpl; by rewrite E|].
    fresh_key. eexists. unfold parse_option. simpl. rewrite E. split; [done|]. read_option.
Qed.

Lemma parse_options_read trailing l : ∀ fuel done o,
  options_read done o → length (print_options trailing l) ≤ fuel → NoDup (opt_key <$> done) →
  if bool_decide (NoDup (opt_key <$> reverse l ++ done)) then
    ∃ o', parse_options fuel o (print_options trailing l) = Ok o' ∧ options_read (reverse l ++ done) o'
  else ∃ e, parse_options fuel o (print_options trailing l) = Err e.
Proof.
  induction l as [|opt l IH]; intros fuel done o Ho Hf Hn.
  { rewrite bool_decide_true by done. exists o. by destruct fuel. }
  rewrite reverse_cons, <-app_assoc. simpl ([opt] ++ done).
  assert (∃ rest, print_options trailing (opt :: l) = opt_pieces opt ++ rest ∧
    (rest = KComma :: print_options trailing l ∨ rest = [] ∧ l = [])) as (rest & E & Hrest).
  { destruct l; [destruct trailing; eexists; split; [done|by left|done|by right]|eexists; split; [done|by left]]. }
  rewrite E in *. destruct fuel as [|fuel]; [simpl in Hf; lia|].
  pose proof (parse_option_read done o opt rest Ho) as Hp. change (parse_options (S fuel) o (opt_pieces opt ++ rest))
    with ('(o, input) ← parse_option o (opt_pieces opt ++ rest);
          match input with [] => Ok o | _ => input ← parse_token is_comma input; parse_options fuel o input end).
  case_bool_decide as Hk.
  - destruct Hp as [e ->]. rewrite bool_decide_false; [by exists e|]. rewrite fmap_app, fmap_cons. intros Hall%NoDup_app.
    by destruct Hall as (_ & _ & [? _]%NoDup_cons).
  - destruct Hp as (o' & -> & Ho'). simpl.
    destruct Hrest as [->|[-> ->]].
    + simpl. apply IH; [done|rewrite length_app in Hf; simpl in Hf; lia|]. rewrite fmap_cons. by constructor.
    + rewrite bool_decide_true by (rewrite reverse_nil; simpl; rewrite ?fmap_cons; by constructor). by exists o'.
Qed.

(** Options can be given in any order, with or without a comma at the end, each at most once; every one of them
    takes effect, and the state and the arguments are [()] where they are not given.  The message is required. *)
Theorem options_parsed (l : list Opt) (trailing : bool) :
  if bool_decide (NoDup (opt_key <$> l)) && existsb (λ o, bool_decide (opt_key o = "message"%string)) l then
    ∃ c, parse_config (print_options trailing l) = Ok c ∧
      (thread_local c = true ↔ OThreadLocal ∈ l) ∧ OMessage (message c) ∈ l ∧
      (OState (state c) ∈ l ∨ state c = unit_type ∧ ∀ t, OState t ∉ l) ∧
      (OArguments (arguments c) ∈ l ∨ arguments c = unit_type ∧ ∀ t, OArguments t ∉ l) ∧
      ∀ p, crate_path c = Some p ↔ OCratePath p ∈ l
  else ∃ e, parse_config (print_options trailing l) = Err e.
Proof.
  assert (options_read [] no_options) as H0 by (by split; intros; rewrite elem_of_nil; naive_solver).
  pose proof (parse_options_read trailing l (length (print_options trailing l)) [] no_options H0 ltac:(lia) ltac:(constructor)) as H.
  rewrite app_nil_r in H. unfold parse_config.
  assert (bool_decide (NoDup (opt_key <$> reverse l)) = bool_decide (NoDup (opt_key <$> l))) as Hr.
  { apply bool_decide_ext. by rewrite fmap_reverse, reverse_Permutation. }
  rewrite Hr in H. destruct (bool_decide (NoDup (opt_key <$> l))); simpl.
  2: { destruct H as [e ->]. by exists e. }
  destruct H as (o & -> & [H1 H2 H3 H4 H5]).
  setoid_rewrite elem_of_reverse in H1. setoid_rewrite elem_of_reverse in H2. setoid_rewrite elem_of_reverse in H3.
  setoid_rewrite elem_of_reverse in H4. setoid_rewrite elem_of_reverse in H5. simpl.
  destruct (o_message o) as [m|] eqn:Em.
  - replace (existsb _ l) with true.
    2: { symmetry. apply existsb_exists. exists (OMessage m). split; [by apply list_elem_of_In, H2|done]. }
    eexists. split; [done|]. simpl. split_and!; [done|by apply H2| | |done].
    + destruct (o_state o) as [t|] eqn:E; [left; by apply H3|right]. split; [done|]. by intros t ?%H3.
    + destruct (o_arguments o) as [t|] eqn:E; [left; by apply H4|right]. split; [done|]. by intros t ?%H4.
  - destruct (existsb _ l) eqn:Ex; [|by eexists].
    apply existsb_exists in Ex as (x & Hx%list_elem_of_In & Hk%bool_decide_eq_true). destruct x; simplify_eq. by apply H2 in Hx.
Qed.
