(* ===== verification/SelfRewrite.v ===== *)
(** How the attribute macro for actors moves types out of the implementation block (expand.rs,
    [rewrite_impl_self_type]): in the fields of a generated message enum, [Self] no longer means the actor, so
    that it is replaced by the type of the actor.

    The visitor of the source is a computation that keeps the last error as its state; a recursion that never
    ends overflows the stack of the compiler ([panic]).  It is compared with a substitution defined by recursion
    on the syntax. *)

From S2P Require Import Prelude MacroSyntax.

(** [self_token_span]: whether [Self] occurs among tokens, in groups as well *)
Fixpoint self_token (t : TokenTree) : bool :=
  match t with
  | TkIdent s => bool_decide (s = "Self"%string)
  | TkGroup stream => existsb self_token stream
  | TkOther _ => false
  end.
Definition self_tokens : list TokenTree → bool := existsb self_token.

(** The path begins with [Self]. *)
Definition self_path (p : Path) : bool :=
  match p with
  | mkPath false ((s, _) :: _) => bool_decide (s = "Self"%string)
  | _ => false
  end.

(** The type is [Self] itself. *)
Definition is_self_type (ty : Ty) : bool :=
  match ty with
  | TyPath None (mkPath false [(s, _)]) => bool_decide (s = "Self"%string)
  | _ => false
  end.

(** [arguments.colon2_token.get_or_insert_default()] *)
Definition turbofish (s : string * PathArguments) : string * PathArguments :=
  (s.1, match s.2 with AngleBracketed _ args => AngleBracketed true args | args => args end).

(** A path that begins with [Self], with [concrete] in its place *)
Definition concrete_path (concrete path : Path) : Path :=
  mkPath (leading_colon concrete) ((turbofish <$> segments concrete) ++ tail (segments path)).

Section rewriter.
Context (self_ty : Ty).

(** [self.error = Some(...)] *)
Definition set_error (e : string) : M (option string) unit := modify (λ _, Some e).

Definition visit_tokens (tokens : list TokenTree) (e : string) : M (option string) unit :=
  when (self_tokens tokens) (set_error e).

Definition visit_option {A B} (f : A → M (option string) B) (o : option A) : M (option string) (option B) :=
  match o with Some a => b ← f a; mret (Some b) | None => mret None end.

(** The methods of [Rewriter], and the traversal of [syn::visit_mut] that they call *)
Fixpoint visit_type_mut (fuel : nat) (ty : Ty) : M (option string) Ty :=
  match fuel with
  | 0 => panic
  | S fuel =>
      if is_self_type ty then mret self_ty
      else match ty with
      | TyVerbatim tokens =>
          visit_tokens tokens "cannot rewrite `Self` inside opaque type syntax for a generated message" ;; mret ty
      | TyPath qself path =>
          qself ← visit_option (visit_type_mut fuel) qself;
          path ← visit_path_mut fuel path;
          mret (TyPath qself path)
      | TyReference lifetime mutability elem => elem ← visit_type_mut fuel elem; mret (TyReference lifetime mutability elem)
      | TyTuple elems => elems ← mapM (visit_type_mut fuel) elems; mret (TyTuple elems)
      | TyParen elem => elem ← visit_type_mut fuel elem; mret (TyParen elem)
      | TyGroup elem => elem ← visit_type_mut fuel elem; mret (TyGroup elem)
      | TyImplTrait bounds => bounds ← mapM (visit_syntax_mut fuel) bounds; mret (TyImplTrait bounds)
      | TyMacro path tokens =>
          path ← visit_macro_mut fuel path tokens; mret (TyMacro path tokens)
      | TyOther kind parts => parts ← mapM (visit_syntax_mut fuel) parts; mret (TyOther kind parts)
      end
  end
with visit_path_mut (fuel : nat) (path : Path) : M (option string) Path :=
  match fuel with
  | 0 => panic
  | S fuel =>
      let visit_segments (p : Path) :=
        segs ← mapM (λ '(ident, args), args ← visit_arguments_mut fuel args; mret (ident, args)) (segments p);
        mret (mkPath (leading_colon p) segs) in
      if self_path path then
        match unparenthesized_type self_ty with
        | TyPath None concrete => visit_segments (concrete_path concrete path)
        | TyPath (Some _) _ =>
            set_error "cannot rewrite `Self::...`: the actor self type is qualified" ;; mret path
        | _ => set_error "cannot rewrite `Self::...`: the actor self type is not a path" ;; mret path
        end
      else visit_segments path
  end
with visit_macro_mut (fuel : nat) (path : Path) (tokens : list TokenTree) : M (option string) Path :=
  match fuel with
  | 0 => panic
  | S fuel =>
      path ← visit_path_mut fuel path;
      visit_tokens tokens "cannot rewrite `Self` inside a type macro for a generated message" ;;
      mret path
  end
with visit_arguments_mut (fuel : nat) (args : PathArguments) : M (option string) PathArguments :=
  match fuel with
  | 0 => panic
  | S fuel =>
      match args with
      | NoArguments => mret NoArguments
      | AngleBracketed colon2 args => args ← mapM (visit_syntax_mut fuel) args; mret (AngleBracketed colon2 args)
      | Parenthesized inputs output =>
          inputs ← mapM (visit_type_mut fuel) inputs;
          output ← visit_option (visit_type_mut fuel) output;
          mret (Parenthesized inputs output)
      end
  end
with visit_syntax_mut (fuel : nat) (s : Syntax) : M (option string) Syntax :=
  match fuel with
  | 0 => panic
  | S fuel =>
      match s with
      | SType ty => ty ← visit_type_mut fuel ty; mret (SType ty)
      | SPath path => path ← visit_path_mut fuel path; mret (SPath path)
      | SMacro path tokens => path ← visit_macro_mut fuel path tokens; mret (SMacro path tokens)
      | SVerbatim tokens => mret (SVerbatim tokens)
      | SNode kind parts => parts ← mapM (visit_syntax_mut fuel) parts; mret (SNode kind parts)
      end
  end.

Definition rewrite_impl_self_type (fuel : nat) (ty : Ty) : res Ty :=
  match visit_type_mut fuel ty None with
  | (Ok ty, None) => Ok ty
  | (Ok _, Some e) => Err e
  | (Err e, _) => Err e
  | (Panic, _) => Panic
  end.
End rewriter.

(** ** The reference: substitution of a type for [Self] *)

Section reference.
Context (self_ty : Ty).

Fixpoint subst_ty (t : Ty) : Ty :=
  if is_self_type t then self_ty
  else match t with
  | TyPath qself path => TyPath match qself with Some q => Some (subst_ty q) | None => None end (subst_path path)
  | TyReference lifetime mutability elem => TyReference lifetime mutability (subst_ty elem)
  | TyTuple elems => TyTuple (map subst_ty elems)
  | TyParen elem => TyParen (subst_ty elem)
  | TyGroup elem => TyGroup (subst_ty elem)
  | TyImplTrait bounds => TyImplTrait (map subst_syntax bounds)
  | TyMacro path tokens => TyMacro (subst_path path) tokens
  | TyVerbatim tokens => TyVerbatim tokens
  | TyOther kind parts => TyOther kind (map subst_syntax parts)
  end
with subst_path (p : Path) : Path :=
  match p with
  | mkPath c segs =>
      let p' := mkPath c (map (λ s : string * PathArguments, (s.1, subst_args s.2)) segs) in
      if self_path p then
        match unparenthesized_type self_ty with
        | TyPath None (mkPath c' segs') =>
            mkPath c' (map (λ s, (s.1, match s.2 with AngleBracketed _ args => AngleBracketed true args | args => args end)) segs'
                       ++ tail (map (λ s : string * PathArguments, (s.1, subst_args s.2)) segs))
        | _ => p'
        end
      else p'
  end
with subst_args (a : PathArguments) : PathArguments :=
  match a with
  | NoArguments => NoArguments
  | AngleBracketed colon2 args => AngleBracketed colon2 (map subst_syntax args)
  | Parenthesized inputs output =>
      Parenthesized (map subst_ty inputs) match output with Some t => Some (subst_ty t) | None => None end
  end
with subst_syntax (s : Syntax) : Syntax :=
  match s with
  | SType t => SType (subst_ty t)
  | SPath p => SPath (subst_path p)
  | SMacro p tokens => SMacro (subst_path p) tokens
  | SVerbatim tokens => SVerbatim tokens
  | SNode kind parts => SNode kind (map subst_syntax parts)
  end.

(** Where [Self] cannot be replaced: among the tokens of a macro or of opaque syntax, and at the head of a longer
    path if the actor is not named by a path *)
Fixpoint stuck_ty (t : Ty) : bool :=
  if is_self_type t then false
  else match t with
  | TyPath qself path => match qself with Some q => stuck_ty q | None => false end || stuck_path path
  | TyReference _ _ elem => stuck_ty elem
  | TyTuple elems => existsb stuck_ty elems
  | TyParen elem => stuck_ty elem
  | TyGroup elem => stuck_ty elem
  | TyImplTrait bounds => existsb stuck_syntax bounds
  | TyMacro path tokens => stuck_path path || self_tokens tokens
  | TyVerbatim tokens => self_tokens tokens
  | TyOther _ parts => existsb stuck_syntax parts
  end
with stuck_path (p : Path) : bool :=
  match p with
  | mkPath c segs =>
      let l := map (λ s : string * PathArguments, stuck_args s.2) segs in
      if self_path p then
        match unparenthesized_type self_ty with TyPath None _ => existsb id (tail l) | _ => true end
      else existsb id l
  end
with stuck_args (a : PathArguments) : bool :=
  match a with
  | NoArguments => false
  | AngleBracketed _ args => existsb stuck_syntax args
  | Parenthesized inputs output => existsb stuck_ty inputs || match output with Some t => stuck_ty t | None => false end
  end
with stuck_syntax (s : Syntax) : bool :=
  match s with
  | SType t => stuck_ty t
  | SPath p => stuck_path p
  | SMacro p tokens => stuck_path p || self_tokens tokens
  | SVerbatim _ => false
  | SNode _ parts => existsb stuck_syntax parts
  end.
End reference.

(** [Self] occurs; it is hidden where the visitor has no method for the opaque syntax it occurs in *)
Definition hides_self (n : Node) : bool :=
  match n with NSyntax (SVerbatim tokens) => self_tokens tokens | _ => false end.
Definition mentions_self (n : Node) : bool :=
  match n with
  | NTy (TyVerbatim tokens) => self_tokens tokens
  | NPath p => self_path p
  | NMacro tokens => self_tokens tokens
  | n => hides_self n
  end.
Definition no_self (t : Ty) : Prop := any_ty mentions_self t = false.

(** The depth of a tree, in calls of the visitor *)
Fixpoint depth_ty (t : Ty) : nat :=
  S match t with
    | TyPath qself path => Nat.max match qself with Some q => depth_ty q | None => 0 end (depth_path path)
    | TyReference _ _ elem => depth_ty elem
    | TyTuple elems => foldr (λ x n, Nat.max (depth_ty x) n) 0 elems
    | TyParen elem => depth_ty elem
    | TyGroup elem => depth_ty elem
    | TyImplTrait bounds => foldr (λ x n, Nat.max (depth_syntax x) n) 0 bounds
    | TyMacro path _ => S (depth_path path)
    | TyVerbatim _ => 0
    | TyOther _ parts => foldr (λ x n, Nat.max (depth_syntax x) n) 0 parts
    end
with depth_path (p : Path) : nat :=
  match p with mkPath _ segs => S (foldr (λ (s : string * PathArguments) n, Nat.max (depth_args s.2) n) 0 segs) end
with depth_args (a : PathArguments) : nat :=
  S match a with
    | NoArguments => 0
    | AngleBracketed _ args => foldr (λ x n, Nat.max (depth_syntax x) n) 0 args
    | Parenthesized inputs output =>
        Nat.max (foldr (λ x n, Nat.max (depth_ty x) n) 0 inputs) match output with Some t => depth_ty t | None => 0 end
    end
with depth_syntax (s : Syntax) : nat :=
  S match s with
    | SType t => depth_ty t
    | SPath p => depth_path p
    | SMacro p _ => S (depth_path p)
    | SVerbatim _ => 0
    | SNode _ parts => foldr (λ x n, Nat.max (depth_syntax x) n) 0 parts
    end.

Lemma depth_elem {A} (f : A → nat) (x : A) (l : list A) : x ∈ l → f x ≤ foldr (λ x n, Nat.max (f x) n) 0 l.
Proof. induction 1; simpl; lia. Qed.

(** ** Runs of the visitor

    [visits m a stuck]: [m] returns; if nothing was stuck it returns [a] and sets no error, otherwise an error
    is set.  Errors are never taken back. *)
Definition visits {A} (m : M (option string) A) (a : A) (stuck : bool) : Prop :=
  ∀ e, ∃ a' e', m e = (Ok a', e') ∧ (is_Some e → is_Some e') ∧
    if stuck then is_Some e' else e' = e ∧ a' = a.

Lemma visits_ret {A} (a : A) : visits (mret a) a false.
Proof. intros e. by exists a, e. Qed.

Lemma visits_bind {A B} (m : M (option string) A) (k : A → M (option string) B) (g : A → B) a b1 b2 :
  visits m a b1 → (∀ a', visits (k a') (g a') b2) → visits (m ≫= k) (g a) (b1 || b2).
Proof.
  intros Hm Hk e. destruct (Hm e) as (a1 & e1 & E1 & H1 & Hb1). destruct (Hk a1 e1) as (c & e2 & E2 & H2 & Hb2).
  exists c, e2. rewrite (bind_ok _ _ _ _ _ E1). split_and!; [done|by auto|].
  destruct b1, b2; simpl; try by auto. destruct Hb1 as [-> ->], Hb2 as [-> ->]. done.
Qed.

Lemma visits_map {A B} (m : M (option string) A) (g : A → B) a b :
  visits m a b → visits (x ← m; mret (g x)) (g a) b.
Proof.
  intros Hm. rewrite <-(orb_false_r b). apply (visits_bind m (λ x, mret (g x)) g); [done|]. intros a'. apply visits_ret.
Qed.

Lemma visits_mapM {A B} (f : A → M (option string) B) (g : A → B) (b : A → bool) (l : list A) :
  (∀ x, x ∈ l → visits (f x) (g x) (b x)) → visits (mapM f l) (map g l) (existsb b l).
Proof.
  induction l as [|x l IH]; intros Hl; [apply visits_ret|]. cbn [mapM existsb map].
  apply (visits_bind (f x) _ (λ y, y :: map g l)); [apply Hl; by left|]. intros y.
  apply visits_map with (g := λ ys, y :: ys). apply IH. intros z Hz. apply Hl. by right.
Qed.

Lemma visits_tokens tokens e : visits (visit_tokens tokens e) tt (self_tokens tokens).
Proof. intros e0. unfold visit_tokens, when, set_error. destruct (self_tokens tokens); by eexists _, _. Qed.

Lemma visits_option {A B} (f : A → M (option string) B) (g : A → B) (b : A → bool) (o : option A) :
  (∀ x, o = Some x → visits (f x) (g x) (b x)) →
  visits (visit_option f o) match o with Some x => Some (g x) | None => None end
    match o with Some x => b x | None => false end.
Proof. destruct o as [x|]; intros Ho; [|apply visits_ret]. apply visits_map with (g := Some). by apply Ho. Qed.

(** ** Trees without [Self] *)

Lemma existsb_false {A} (p : A → bool) (l : list A) x : existsb p l = false → x ∈ l → p x = false.
Proof.
  intros Hl Hx. destruct (p x) eqn:E; [|done]. rewrite <-Hl. symmetry. apply existsb_exists.
  exists x. split; [by apply list_elem_of_In|done].
Qed.

Lemma map_id_on {A} (f : A → A) (l : list A) : (∀ x, x ∈ l → f x = x) → map f l = l.
Proof. induction l as [|x l IH]; intros H; simpl; [done|]. rewrite H, IH; [done|set_solver|by left]. Qed.

Lemma existsb_none {A} (p : A → bool) (l : list A) : (∀ x, x ∈ l → p x = false) → existsb p l = false.
Proof. induction l as [|x l IH]; intros H; simpl; [done|]. rewrite H, IH; [done|set_solver|by left]. Qed.

(** Goals about the elements of a list in a tree of bounded depth *)
Ltac elements :=
  match goal with
  | |- map _ _ = _ => apply map_id_on; intros ? ?
  | |- existsb _ _ = false => apply existsb_none; intros ? ?
  end.
Ltac bools :=
  repeat match goal with
  | H : _ || _ = false |- _ => apply orb_false_iff in H as [? ?]
  end.

(** Rewrites with the induction hypotheses for the children of a tree. *)
Ltac leave_children :=
  repeat match goal with
  | IH : ∀ t, depth_ty t ≤ _ → _ |- context [subst_ty _ ?t] => destruct (IH t) as [-> ->]; [lia|done|]
  | IH : ∀ p, depth_path p ≤ _ → _ |- context [subst_path _ ?p] => destruct (IH p) as [-> ->]; [lia|done|]
  | IH : ∀ l : list ?A, _ → _ → map ?f l = l ∧ _ |- context [map ?f ?l] => destruct (IH l) as [-> ->]; [lia|done|]
  end.

Section self_free.
Context (self_ty : Ty).

Lemma is_self_type_path t : is_self_type t = true → ∃ p, t = TyPath None p ∧ self_path p = true.
Proof. destruct t as [[] [[] [|[s a] []]]| | | | | | | |]; simpl; try done. by eexists. Qed.

Lemma no_self_not_self_type t : no_self t → is_self_type t = false.
Proof.
  intros Ht. destruct (is_self_type t) eqn:E; [|done]. apply is_self_type_path in E as (p & -> & Hp).
  unfold no_self in Ht. cbn [any_ty mentions_self hides_self] in Ht. destruct p. cbn [any_path mentions_self] in Ht.
  by rewrite Hp in Ht.
Qed.

(** A tree without [Self] is left alone. *)
Lemma subst_no_self n :
  (∀ t, depth_ty t ≤ n → no_self t → subst_ty self_ty t = t ∧ stuck_ty self_ty t = false) ∧
  (∀ p, depth_path p ≤ n → any_path mentions_self p = false → subst_path self_ty p = p ∧ stuck_path self_ty p = false) ∧
  (∀ a, depth_args a ≤ n → any_args mentions_self a = false → subst_args self_ty a = a ∧ stuck_args self_ty a = false) ∧
  (∀ s, depth_syntax s ≤ n → any_syntax mentions_self s = false → subst_syntax self_ty s = s ∧ stuck_syntax self_ty s = false).
Proof.
  induction n as [|n (IHt & IHp & IHa & IHs)].
  { split_and!; intros [] H; simpl in H; lia. }
  assert (∀ l, foldr (λ x n, Nat.max (depth_ty x) n) 0 l ≤ n → existsb (any_ty mentions_self) l = false →
               map (subst_ty self_ty) l = l ∧ existsb (stuck_ty self_ty) l = false) as Hts.
  { intros l Hd Hl. split; elements; eapply IHt;
      (done || (etrans; [by apply (depth_elem depth_ty)|done]) || by eapply existsb_false in Hl). }
  assert (∀ l, foldr (λ x n, Nat.max (depth_syntax x) n) 0 l ≤ n → existsb (any_syntax mentions_self) l = false →
               map (subst_syntax self_ty) l = l ∧ existsb (stuck_syntax self_ty) l = false) as Hss.
  { intros l Hd Hl. split; elements; eapply IHs;
      (done || (etrans; [by apply (depth_elem depth_syntax)|done]) || by eapply existsb_false in Hl). }
  split_and!.
  - intros t Hd Hn. pose proof (no_self_not_self_type t Hn) as Hs. unfold no_self in Hn.
    destruct t as [[q|] p|lf m t|ts|t|t|bs|p tk|tk|k ps]; cbn [subst_ty stuck_ty any_ty depth_ty mentions_self hides_self orb] in *;
      rewrite ?Hs; bools; leave_children; done.
  - intros [c segs] Hd Hn. cbn [subst_path stuck_path any_path depth_path mentions_self] in *. bools. rewrite H.
    assert (∀ s, s ∈ segs → subst_args self_ty s.2 = s.2 ∧ stuck_args self_ty s.2 = false) as Hsegs.
    { intros s Hin. apply IHa; [|by eapply existsb_false in H0]. pose proof (depth_elem (λ s, depth_args s.2) s segs Hin). lia. }
    split; [f_equal; elements; destruct (Hsegs x) as [-> _]; [done|by destruct x]|elements].
    apply list_elem_of_In, in_map_iff in H1 as (s & <- & Hin%list_elem_of_In). by apply Hsegs.
  - intros a Hd Hn. destruct a as [|c l|ins [o|]]; cbn [subst_args stuck_args any_args depth_args] in *; bools;
      leave_children; done.
  - intros s Hd Hn. destruct s as [t|p|p tk|tk|k l]; cbn [subst_syntax stuck_syntax any_syntax depth_syntax mentions_self hides_self orb] in *;
      bools; leave_children; done.
Qed.
End self_free.

(** ** The visitor is the substitution *)

Section visitor.
Context (self_ty : Ty) (Hself : no_self self_ty).
Abbreviation D := (depth_ty self_ty).

Lemma unparenthesized_no_self t : no_self t → no_self (unparenthesized_type t) ∧ depth_ty (unparenthesized_type t) ≤ depth_ty t.
Proof.
  remember (depth_ty t) as n eqn:Hn. assert (depth_ty t ≤ n) as Hd by lia. rewrite Hn. clear Hn. revert t Hd.
  induction n as [|n IH]; intros t Hd Ht; [by destruct t; simpl in Hd; lia|].
  destruct t as [| | |t|t| | | |]; simpl; try (split; [done|lia]); unfold no_self in Ht; cbn [any_ty mentions_self hides_self orb] in Ht;
    simpl in Hd; destruct (IH t) as [? ?]; [lia|done| |lia|done|]; split; (done || lia).
Qed.

(** The segments of the path of the actor contain no [Self]. *)
Lemma concrete_segments concrete s :
  unparenthesized_type self_ty = TyPath None concrete → s ∈ turbofish <$> segments concrete →
  depth_args s.2 < D ∧ any_args mentions_self s.2 = false.
Proof.
  intros Hu (s0 & -> & Hin)%list_elem_of_fmap.
  destruct (unparenthesized_no_self self_ty Hself) as [Hn Hd]. rewrite Hu in Hn, Hd. destruct concrete as [c segs].
  unfold no_self in Hn. cbn [any_ty any_path mentions_self hides_self orb depth_ty depth_path segments] in *. bools.
  pose proof (depth_elem (λ s, depth_args s.2) s0 segs Hin) as Hle. cbn beta in Hle.
  pose proof (existsb_false _ _ s0 H0 Hin) as Ha. cbn beta in Ha.
  destruct s0 as [i [| |]]; cbn [turbofish fst snd depth_args any_args] in *; split; (done || lia).
Qed.
(** The five methods behave as the substitution with fuel for the tree, and for the actor's type where [Self]
    occurs. *)
Definition fits (d : nat) (mentions : bool) : Prop := mentions = true → D ≤ d.

Definition visits_type fuel d := ∀ t, fits d (any_ty mentions_self t) → depth_ty t + d ≤ fuel →
  visits (visit_type_mut self_ty fuel t) (subst_ty self_ty t) (stuck_ty self_ty t).
Definition visits_path fuel d := ∀ p, fits d (any_path mentions_self p) → depth_path p + d ≤ fuel →
  visits (visit_path_mut self_ty fuel p) (subst_path self_ty p) (stuck_path self_ty p).
Definition visits_macro fuel d := ∀ p tk, fits d (any_path mentions_self p) → S (depth_path p) + d ≤ fuel →
  visits (visit_macro_mut self_ty fuel p tk) (subst_path self_ty p) (stuck_path self_ty p || self_tokens tk).
Definition visits_args fuel d := ∀ a, fits d (any_args mentions_self a) → depth_args a + d ≤ fuel →
  visits (visit_arguments_mut self_ty fuel a) (subst_args self_ty a) (stuck_args self_ty a).
Definition visits_syntax fuel d := ∀ s, fits d (any_syntax mentions_self s) → depth_syntax s + d ≤ fuel →
  visits (visit_syntax_mut self_ty fuel s) (subst_syntax self_ty s) (stuck_syntax self_ty s).

Lemma fits_or_l d a b : fits d (a || b) → fits d a.
Proof. unfold fits. destruct a; naive_solver. Qed.
Lemma fits_or_r d a b : fits d (a || b) → fits d b.
Proof. unfold fits. destruct b; rewrite ?orb_true_r; naive_solver. Qed.
Lemma fits_elem {A} d (p : A → bool) l x : fits d (existsb p l) → x ∈ l → fits d (p x).
Proof.
  intros Hf Hx Hp. apply Hf, existsb_exists. exists x. split; [by apply list_elem_of_In|done].
Qed.
#[local] Hint Resolve fits_or_l fits_or_r fits_elem : core.

Section step.
Context (fuel d : nat).
Context (IHt : visits_type fuel d) (IHp : visits_path fuel d) (IHm : visits_macro fuel d)
        (IHa : ∀ d, visits_args fuel d) (IHs : visits_syntax fuel d).

Lemma visits_types l : fits d (existsb (any_ty mentions_self) l) → foldr (λ x n, Nat.max (depth_ty x) n) 0 l + d ≤ fuel →
  visits (mapM (visit_type_mut self_ty fuel) l) (map (subst_ty self_ty) l) (existsb (stuck_ty self_ty) l).
Proof.
  intros Hf Hd. apply visits_mapM. intros x Hx. apply IHt; [by eauto|]. pose proof (depth_elem depth_ty x l Hx). lia.
Qed.

Lemma visits_syntaxes l :
  fits d (existsb (any_syntax mentions_self) l) → foldr (λ x n, Nat.max (depth_syntax x) n) 0 l + d ≤ fuel →
  visits (mapM (visit_syntax_mut self_ty fuel) l) (map (subst_syntax self_ty) l) (existsb (stuck_syntax self_ty) l).
Proof.
  intros Hf Hd. apply visits_mapM. intros x Hx. apply IHs; [by eauto|]. pose proof (depth_elem depth_syntax x l Hx). lia.
Qed.

Lemma visits_type_step : visits_type (S fuel) d.
Proof.
  intros t Hf Hd. cbn [visit_type_mut]. destruct (is_self_type t) eqn:Es.
  { assert (subst_ty self_ty t = self_ty ∧ stuck_ty self_ty t = false) as [-> ->] by (destruct t; simpl in *; by rewrite Es).
    apply visits_ret. }
  destruct t as [q p|lf m t|ts|t|t|bs|p tk|tk|k ps]; cbn [subst_ty stuck_ty any_ty depth_ty mentions_self hides_self orb] in *; rewrite ?Es.
  - apply visits_bind with (g := λ q, TyPath q (subst_path self_ty p)).
    + apply visits_option. intros x ->. apply IHt; [by eauto|lia].
    + intros q'. apply visits_map with (g := λ p, TyPath q' p). apply IHp; [by eauto|lia].
  - apply visits_map with (g := TyReference lf m). apply IHt; [done|lia].
  - apply visits_map with (g := TyTuple). apply visits_types; [done|lia].
  - apply visits_map with (g := TyParen). apply IHt; [done|lia].
  - apply visits_map with (g := TyGroup). apply IHt; [done|lia].
  - apply visits_map with (g := TyImplTrait). apply visits_syntaxes; [done|lia].
  - apply visits_map with (g := λ p, TyMacro p tk). apply IHm; [by eauto|lia].
  - apply visits_map with (g := λ _, TyVerbatim tk) (a := tt). apply visits_tokens.
  - apply visits_map with (g := TyOther k). apply visits_syntaxes; [done|lia].
Qed.

(** The segments of a path, [concrete] ones before those of the tree *)
Lemma visits_segments c before segs :
  (∀ s, s ∈ before → depth_args s.2 ≤ d ∧ any_args mentions_self s.2 = false) →
  fits d (existsb (λ s : string * PathArguments, any_args mentions_self s.2) segs) →
  foldr (λ (s : string * PathArguments) n, Nat.max (depth_args s.2) n) 0 segs + d ≤ fuel →
  visits (segs ← mapM (λ '(ident, args), args ← visit_arguments_mut self_ty fuel args; mret (ident, args))
                   (before ++ segs);
          mret (mkPath c segs))
    (mkPath c (before ++ map (λ s : string * PathArguments, (s.1, subst_args self_ty s.2)) segs))
    (existsb id (map (λ s : string * PathArguments, stuck_args self_ty s.2) segs)).
Proof.
  intros Hb Hf Hd.
  assert (∀ s, s ∈ before → subst_args self_ty s.2 = s.2 ∧ stuck_args self_ty s.2 = false) as Hid.
  { intros s Hs. destruct (Hb s Hs) as [? ?]. by apply (proj1 (proj2 (proj2 (subst_no_self self_ty (depth_args s.2))))). }
  rewrite <-(map_id_on (λ s, (s.1, subst_args self_ty s.2)) before) at 2.
  2: { intros [i a] Hs. destruct (Hid _ Hs) as [-> _]. done. }
  rewrite <-map_app. apply visits_map with (g := mkPath c).
  replace (existsb id _) with (existsb (λ s : string * PathArguments, stuck_args self_ty s.2) (before ++ segs)).
  2: { rewrite existsb_app, (existsb_none _ before); [|intros s Hs; by apply Hid]. simpl. clear. induction segs; simpl; congruence. }
  apply visits_mapM. intros [i a] [Hs|Hs]%elem_of_app; apply visits_map with (g := λ a, (i, a)).
  - destruct (Hb _ Hs) as [Hda Ha]. apply (IHa 0); [by intros ?; congruence|simpl in *; lia].
  - apply (IHa d); [by apply (fits_elem d (λ s : string * PathArguments, any_args mentions_self s.2) segs (i, a))|].
    pose proof (depth_elem (λ s : string * PathArguments, depth_args s.2) _ segs Hs). simpl in *. lia.
Qed.

Lemma visits_path_step : visits_path (S fuel) d.
Proof.
  intros [c segs] Hf Hd. cbn [visit_path_mut subst_path stuck_path any_path depth_path mentions_self leading_colon] in *.
  destruct (self_path (mkPath c segs)) eqn:Es; [|by apply (visits_segments c [] segs); [intros ? ?%not_elem_of_nil|eauto|lia]].
  assert (D ≤ d) as HD by (by apply Hf).
  destruct (unparenthesized_type self_ty) as [[q|] [c' segs']| | | | | | | |] eqn:Eu; try by (intros e; eexists _, _).
  unfold concrete_path. cbn [leading_colon segments]. destruct segs as [|s segs]; [by destruct c|].
  cbn [tail map foldr existsb] in *.
  apply (visits_segments c' (turbofish <$> segs') segs); [|by eauto|lia].
  intros s' Hs'. destruct (concrete_segments _ s' Eu Hs'). split; [lia|done].
Qed.

Lemma visits_macro_step : visits_macro (S fuel) d.
Proof.
  intros p tk Hf Hd. cbn [visit_macro_mut]. apply visits_bind with (g := λ p, p); [apply IHp; [done|lia]|].
  intros p'. apply visits_map with (g := λ _, p') (a := tt). apply visits_tokens.
Qed.

Lemma visits_args_step : visits_args (S fuel) d.
Proof.
  intros a Hf Hd. destruct a as [|c l|ins o]; cbn [visit_arguments_mut subst_args stuck_args any_args depth_args] in *.
  - apply visits_ret.
  - apply visits_map with (g := AngleBracketed c). apply visits_syntaxes; [done|lia].
  - apply visits_bind with (g := λ ins, Parenthesized ins _); [apply visits_types; [by eauto|lia]|].
    intros ins'. apply visits_map with (g := Parenthesized ins'). apply visits_option. intros x ->. apply IHt; [by eauto|lia].
Qed.

Lemma visits_syntax_step : visits_syntax (S fuel) d.
Proof.
  intros s Hf Hd.
  destruct s as [t|p|p tk|tk|k l]; cbn [visit_syntax_mut subst_syntax stuck_syntax any_syntax depth_syntax mentions_self hides_self orb] in *.
  - apply visits_map with (g := SType). apply IHt; [done|lia].
  - apply visits_map with (g := SPath). apply IHp; [done|lia].
  - apply visits_map with (g := λ p, SMacro p tk). apply IHm; [by eauto|lia].
  - apply visits_ret.
  - apply visits_map with (g := SNode k). apply visits_syntaxes; [done|lia].
Qed.
End step.

Lemma visits_all fuel :
  ∀ d, visits_type fuel d ∧ visits_path fuel d ∧ visits_macro fuel d ∧ visits_args fuel d ∧ visits_syntax fuel d.
Proof.
  induction fuel as [|fuel IH]; intros d.
  { split_and!; intros []; intros; simpl in *; lia. }
  destruct (IH d) as (Ht & Hp & Hm & _ & Hs). assert (∀ d, visits_args fuel d) as Ha by (intros d'; apply (IH d')).
  split_and!; [by apply visits_type_step|by apply visits_path_step|by apply visits_macro_step|by apply visits_args_step|
    by apply visits_syntax_step].
Qed.
End visitor.

(** ** What is rewritten mentions [Self] no more *)

(** The type of an actor, as the compiler accepts it in [impl]: it does not mention [Self], and its path is not
    empty. *)
Definition actor_type (self_ty : Ty) : Prop :=
  no_self self_ty ∧ ∀ p, unparenthesized_type self_ty = TyPath None p → segments p ≠ [].

Section rewritten.
Context (self_ty : Ty) (Hself : actor_type self_ty).

Lemma existsb_map {A B} (p : B → bool) (f : A → B) l : existsb p (map f l) = existsb (λ x, p (f x)) l.
Proof. induction l; simpl; congruence. Qed.

(** The head of a substituted path is not [Self]. *)
Lemma subst_path_head p : stuck_path self_ty p = false → self_path (subst_path self_ty p) = false.
Proof.
  destruct p as [c segs]. cbn [stuck_path subst_path]. destruct Hself as [Hn Hne].
  destruct (self_path (mkPath c segs)) eqn:Es; [|by destruct c, segs as [|[]]].
  destruct (unparenthesized_type self_ty) as [[q|] p| | | | | | | |] eqn:Eu; try done. intros _.
  destruct (unparenthesized_no_self self_ty Hn) as [Hu _]. rewrite Eu in Hu. unfold no_self in Hu.
  cbn [any_ty mentions_self hides_self orb] in Hu. destruct p as [c' segs']. cbn [any_path mentions_self] in Hu. bools.
  specialize (Hne _ eq_refl). unfold concrete_path. destruct c', segs' as [|[i []] segs']; done.
Qed.

Lemma subst_segment_free before segs :
  (∀ s : string * PathArguments, s ∈ before → any_args mentions_self s.2 = false) →
  (∀ s, s ∈ segs → any_args mentions_self (subst_args self_ty s.2) = false) →
  existsb (λ s : string * PathArguments, any_args mentions_self s.2)
    (before ++ map (λ s : string * PathArguments, (s.1, subst_args self_ty s.2)) segs) = false.
Proof.
  intros Hb Hs. rewrite existsb_app, existsb_none by done. simpl. rewrite existsb_map. apply existsb_none. apply Hs.
Qed.

Lemma subst_free n :
  (∀ t, depth_ty t ≤ n → stuck_ty self_ty t = false → any_ty hides_self t = false → no_self (subst_ty self_ty t)) ∧
  (∀ p, depth_path p ≤ n → stuck_path self_ty p = false → any_path hides_self p = false →
        any_path mentions_self (subst_path self_ty p) = false) ∧
  (∀ a, depth_args a ≤ n → stuck_args self_ty a = false → any_args hides_self a = false →
        any_args mentions_self (subst_args self_ty a) = false) ∧
  (∀ s, depth_syntax s ≤ n → stuck_syntax self_ty s = false → any_syntax hides_self s = false →
        any_syntax mentions_self (subst_syntax self_ty s) = false).
Proof.
  induction n as [|n (IHt & IHp & IHa & IHs)].
  { split_and!; intros [] H; simpl in H; lia. }
  unfold no_self in IHt.
  assert (∀ l, foldr (λ x n, Nat.max (depth_ty x) n) 0 l ≤ n → existsb (stuck_ty self_ty) l = false →
    existsb (any_ty hides_self) l = false → existsb (any_ty mentions_self) (map (subst_ty self_ty) l) = false) as Hts.
  { intros l Hd H1 H2. rewrite existsb_map. elements.
    apply IHt; [|by eapply existsb_false in H1|by eapply existsb_false in H2].
    etrans; [by apply (depth_elem depth_ty)|done]. }
  assert (∀ l, foldr (λ x n, Nat.max (depth_syntax x) n) 0 l ≤ n → existsb (stuck_syntax self_ty) l = false →
    existsb (any_syntax hides_self) l = false → existsb (any_syntax mentions_self) (map (subst_syntax self_ty) l) = false) as Hss.
  { intros l Hd H1 H2. rewrite existsb_map. elements.
    apply IHs; [|by eapply existsb_false in H1|by eapply existsb_false in H2].
    etrans; [by apply (depth_elem depth_syntax)|done]. }
  split_and!.
  - intros t Hd Hs Hh. destruct (is_self_type t) eqn:Es.
    { replace (subst_ty self_ty t) with self_ty by (destruct t; simpl in *; [by rewrite Es|done..]). apply Hself. }
    unfold no_self. destruct t as [[q|] p|lf m t|ts|t|t|bs|p tk|tk|k ps];
      cbn [subst_ty stuck_ty any_ty depth_ty mentions_self hides_self orb] in *; rewrite ?Es in Hs |- *; bools;
      cbn [any_ty mentions_self hides_self orb]; rewrite ?IHt, ?IHp, ?Hts, ?Hss, ?orb_false_r by (done || lia); done.
  - intros p Hd Hs Hh. pose proof (subst_path_head p Hs) as Hhead. destruct p as [c segs].
    assert (∀ s, s ∈ segs → stuck_args self_ty s.2 = false → any_args mentions_self (subst_args self_ty s.2) = false) as Hsegs.
    { intros s Hin Hs'. cbn [any_path hides_self depth_path] in *. bools.
      apply IHa; [|done|by eapply existsb_false in H0]. pose proof (depth_elem (λ s, depth_args s.2) s segs Hin). lia. }
    destruct (subst_path self_ty (mkPath c segs)) as [c' segs'] eqn:E. cbn [any_path mentions_self]. rewrite Hhead.
    cbn [subst_path stuck_path orb] in *. destruct (self_path (mkPath c segs)) eqn:Es.
    + destruct (unparenthesized_type self_ty) as [[q|] [c1 segs1]| | | | | | | |] eqn:Eu; try done.
      destruct segs as [|s segs]; [by destruct c|]. injection E as <- <-.
      apply (subst_segment_free (turbofish <$> segs1)); [intros s' Hs'; by eapply concrete_segments; [apply Hself| |]|].
      intros s' Hin. apply Hsegs; [by right|]. cbn [map tail] in Hs. rewrite existsb_map in Hs. by eapply existsb_false in Hs.
    + injection E as <- <-. apply (subst_segment_free []); [by intros s ?%not_elem_of_nil|].
      intros s Hin. apply Hsegs; [done|]. rewrite existsb_map in Hs. by eapply existsb_false in Hs.
  - intros a Hd Hs Hh. destruct a as [|c l|ins [o|]]; cbn [subst_args stuck_args any_args depth_args] in *; bools;
      rewrite ?IHt, ?Hts, ?Hss by (done || lia); done.
  - intros s Hd Hs Hh.
    destruct s as [t|p|p tk|tk|k l]; cbn [subst_syntax stuck_syntax any_syntax depth_syntax mentions_self hides_self orb] in *; bools;
      cbn [any_syntax mentions_self hides_self orb]; rewrite ?IHt, ?IHp, ?Hss, ?orb_false_r by (done || lia); done.
Qed.
End rewritten.

Lemma rewrite_spec self_ty ty fuel :
  actor_type self_ty → depth_ty ty + depth_ty self_ty ≤ fuel →
  if stuck_ty self_ty ty then ∃ e, rewrite_impl_self_type self_ty fuel ty = Err e
  else rewrite_impl_self_type self_ty fuel ty = Ok (subst_ty self_ty ty).
Proof.
  intros Ha Hd.
  destruct (proj1 (visits_all self_ty (proj1 Ha) fuel (depth_ty self_ty)) ty ltac:(by intros _) Hd None)
    as (ty' & e & E & _ & Hv).
  unfold rewrite_impl_self_type. rewrite E. destruct (stuck_ty self_ty ty).
  - destruct Hv as [e' ->]. by eexists.
  - by destruct Hv as [-> ->].
Qed.

(** C28: the types of a generated message do not depend on where they are written.  For an actor whose type does
    not mention [Self], rewriting a type ends, within the depth of the two types.  It reports an error exactly
    when [Self] occurs where it cannot be replaced: among the tokens of a macro or of opaque types, or before
    [::] if the actor is not named by a path.  Otherwise the result is the type with the actor in place of
    [Self], in which [Self] occurs no more (but in opaque expressions); types without [Self] are not changed. *)
Theorem self_rewritten (self_ty ty : Ty) (fuel : nat) :
  actor_type self_ty → depth_ty ty + depth_ty self_ty ≤ fuel →
  (if stuck_ty self_ty ty then ∃ e, rewrite_impl_self_type self_ty fuel ty = Err e
   else rewrite_impl_self_type self_ty fuel ty = Ok (subst_ty self_ty ty) ∧
        (any_ty hides_self ty = false → no_self (subst_ty self_ty ty))) ∧
  (no_self ty → rewrite_impl_self_type self_ty fuel ty = Ok ty).
Proof.
  intros Ha Hd. pose proof (rewrite_spec self_ty ty fuel Ha Hd) as Hr.
  assert (no_self ty → subst_ty self_ty ty = ty ∧ stuck_ty self_ty ty = false) as Hid.
  { by apply (proj1 (subst_no_self self_ty (depth_ty ty))). }
  destruct (stuck_ty self_ty ty) eqn:Es; [split; [done|by intros [_ ?]%Hid]|].
  split; [split; [done|]|by intros [E _]%Hid; rewrite E in Hr].
  intros Hh. by apply (proj1 (subst_free self_ty Ha (depth_ty ty))).
Qed.

(** [impl Counter<u64>], and [Result<(Self, <Self as Trait>::Value), Self::Error>] *)
Definition sample_actor : Ty :=
  TyPath None (mkPath false [("Counter"%string, AngleBracketed false [SType (TyPath None (ident_path "u64"))])]).
Definition sample_self_type : Ty :=
  let self := TyPath None (ident_path "Self") in
  TyPath None (mkPath false [("Result"%string, AngleBracketed false
    [SType (TyTuple [self; TyPath (Some self) (mkPath false [("Trait"%string, NoArguments); ("Value"%string, NoArguments)])]);
     SType (TyPath None (mkPath false [("Self"%string, NoArguments); ("Error"%string, NoArguments)]))])]).

Lemma self_rewritten_witness :
  rewrite_impl_self_type sample_actor 20 sample_self_type = Ok (subst_ty sample_actor sample_self_type) ∧
  no_self (subst_ty sample_actor sample_self_type).
Proof.
  destruct (self_rewritten sample_actor sample_self_type 20) as [[H1 H2] _].
  - split; [done|]. by intros p [= <-].
  - vm_compute. lia.
  - split; [exact H1|]. by apply H2.
Defined.

(** An actor whose own type mentions [Self::], which the compiler would refuse, makes the macro recurse without
    end. *)
Lemma self_in_actor_type_diverges (fuel : nat) :
  let self_a := TyPath None (mkPath false [("Self"%string, NoArguments); ("A"%string, NoArguments)]) in
  rewrite_impl_self_type (TyPath None (mkPath false [("Actor"%string, AngleBracketed false [SType self_a])])) fuel self_a = Panic.
Proof.
  intros self_a. set (actor := TyPath None _).
  assert (∀ n e, (visit_type_mut actor n self_a e).1 = Panic) as Hn.
  { intros n. induction n as [n IH] using lt_wf_ind. intros e.
    destruct n as [|[|[|[|n]]]]; try done.
    specialize (IH n ltac:(lia) e). cbn. unfold mbind, M_bind, mret, M_ret. rewrite bool_decide_true by done. fold self_a.
    destruct (visit_type_mut actor n self_a e) as [r e'] eqn:E. simpl in IH. by subst r. }
  specialize (Hn fuel None). unfold rewrite_impl_self_type.
  destruct (visit_type_mut actor fuel self_a None) as [r e]. simpl in Hn. by subst r.
Qed.
