(* ===== verification/ActorMacro.v ===== *)
(** The attribute macro for actors (src/ractor_macros/src/expand.rs): from the methods of an implementation block
    to the implementation of the trait [Actor], with a generated message enum where that is asked for, and the
    behaviour of the code it generates.

    Code is quoted as records ([Arm], [VariantItem], [TraitImpl]).  [render] is how tokens of a path print, and
    [find_crate] the crate name that proc_macro_crate finds.  Generated matches are run on messages whose field
    values are of any type [V], in any configuration of the compiler; calls of handlers are given by what the
    handlers return. *)

From S2P Require Import Prelude MacroSyntax SelfRewrite.
From Stdlib Require Import Ascii.

(** ** Implementation blocks *)

(** A receiver: [self], [&'a mut self] or [self: T] *)
Inductive ReceiverKind := RValue | RReference (lifetime : option string) (mutability : bool) | RTyped (ty : Ty).

Inductive FnArg :=
| FnReceiver (mutability : bool) (kind : ReceiverKind)
| FnTyped (pat : Pat) (ty : Ty).

Inductive ReturnType := RDefault | RType (ty : Ty).

Record Signature := mkSig {
  constness : bool;
  default_safety : bool;
  abi : bool;
  variadic : bool;
  sig_generics : list string;
  sig_where : bool;
  asyncness : bool;
  ident : string;
  inputs : list FnArg;
  output : ReturnType
}.

Record ImplItemFn := mkFn { attrs : list Attribute; vis : Visibility; sig : Signature; body : nat }.

Inductive ImplItem := IFn (method : ImplItemFn) | IOther (description : string).

Record ItemImpl := mkImpl {
  impl_attrs : list Attribute;
  unsafety : bool;
  generics : list string;
  trait_ : option Path;
  self_ty : Ty;
  items : list ImplItem
}.

(** ** Handlers *)

Definition LIFECYCLE_METHODS : list string :=
  ["pre_start"; "post_start"; "post_stop"; "handle"; "handle_serialized"; "handle_supervisor_evt"]%string.

Inductive StateAccess := Shared | Mutable.
Inductive HandlerKind := Message | Rpc | Supervision.

Definition method_description (k : HandlerKind) : string :=
  match k with
  | Message => "message handler methods" | Rpc => "RPC handler methods" | Supervision => "supervision handler methods"
  end.
Definition parameter_label (k : HandlerKind) : string :=
  match k with Message => "handler" | Rpc => "RPC handler" | Supervision => "supervision handler" end.
Definition pattern_label (k : HandlerKind) : string :=
  match k with Message => "message pattern" | Rpc => "RPC pattern" | Supervision => "supervision pattern" end.
Definition event_label (k : HandlerKind) : string :=
  match k with Message | Rpc => "message" | Supervision => "supervision event" end.
Definition pattern_description (k : HandlerKind) : string :=
  match k with Message => "message patterns" | Rpc => "RPC patterns" | Supervision => "supervision patterns" end.

Record RpcHandler := mkRpc { reply_binding : string; reply_type : Ty; propagates_processing_error : bool }.

Record Handler := mkHandler {
  method_name : string;
  pattern : Pat;
  pattern_key : string;
  binding_names : list string;
  binding_types : list Ty;
  wants_actor_ref : bool;
  state_access : option StateAccess;
  is_async : bool;
  is_fallible : bool;
  rpc : option RpcHandler;
  cfg_attributes : list Attribute;
  variant_attributes : list Attribute
}.

(** [RpcHandlerAttribute::parse] *)
Definition parse_rpc_attribute (input : list Piece) : res (Pat * option Ty) :=
  '(pattern, input) ← parse_single input;
  '(reply_type, input) ←
    match input with
    | KComma :: [] => Ok (None, [])
    | KComma :: input =>
        '(option, input) ← parse_ident input;
        if negb (bool_decide (option = "reply"%string)) then Err "unknown RPC option; expected `reply = Type`"
        else
          input ← parse_token is_eq input;
          '(ty, input) ← parse_type input;
          Ok (Some ty, match input with KComma :: input => input | _ => input end)
    | _ => Ok (None, input)
    end;
  match input with
  | [] => Ok (pattern, reply_type)
  | _ => Err "unexpected tokens after RPC handler options"
  end.

(** [parse_args_with(Pat::parse_single)]: nothing may follow the pattern. *)
Definition parse_pattern_args (attribute : Attribute) : res Pat :=
  input ← parse_args attribute;
  '(pattern, input) ← parse_single input;
  match input with [] => Ok pattern | _ => Err "unexpected token" end.

(** *** Attributes *)

Definition path_ends_with_async_trait (p : Path) : bool :=
  match last (idents p) with Some s => bool_decide (s = "async_trait"%string) | None => false end.

Definition applies_async_trait (attribute : Attribute) : bool :=
  path_ends_with_async_trait (meta_path attribute)
  || is_ident (meta_path attribute) "cfg_attr"
     && match attribute with
        | MetaList _ (Metas metas) => existsb (λ m, path_ends_with_async_trait (meta_path m)) (drop 1 metas)
        | _ => false
        end.

Definition validate_impl (i : ItemImpl) : res unit :=
  if bool_decide (is_Some (trait_ i)) then Err "`#[ractor::actor]` must be applied to an inherent implementation block"
  else if unsafety i then Err "unsafe actor implementation blocks are not supported"
  else if existsb applies_async_trait (impl_attrs i) then
    Err "remove `async_trait` from this implementation; `#[ractor::actor]` applies it when needed"
  else Ok tt.

Inductive FoundCrate := Itself | Name (s : string).

(** [str::replace('-', "_")] *)
Fixpoint underscores (s : string) : string :=
  match s with
  | EmptyString => EmptyString
  | String a s => String (if bool_decide (a = "-"%char) then "_"%char else a) (underscores s)
  end.

Definition resolve_ractor_path_with (explicit_path : option Path) (find_crate : res FoundCrate) : Path :=
  match explicit_path with
  | Some path => path
  | None =>
      match find_crate with
      | Ok Itself => ident_path "crate"
      | Ok (Name name) => mkPath true [(underscores name, NoArguments)]
      | _ => mkPath true [("ractor"%string, NoArguments)]
      end
  end.

Definition is_handler_attribute (attribute : Attribute) (ractor : Path) (handler_attribute : string) (allow_bare : bool) : bool :=
  let path := meta_path attribute in
  if allow_bare && is_ident path handler_attribute then true
  else if negb (length (segments path) =? length (segments ractor) + 1) then false
  else
    forallb (λ '(actual, expected), bool_decide (actual = expected)) (zip (idents path) (idents ractor))
    && match last (idents path) with Some s => bool_decide (s = handler_attribute) | None => false end.

(** The attributes taken, and those retained *)
Definition take_handler_attributes (attributes : list Attribute) (ractor : Path) (handler_attribute : string) (allow_bare : bool)
    : list Attribute * list Attribute :=
  let is_handler a := is_handler_attribute a ractor handler_attribute allow_bare in
  (filter (λ a, is_handler a = true) attributes, filter (λ a, is_handler a = false) attributes).

(** *** Methods *)

Definition is_lifecycle_method (name : string) : bool := existsb (λ m, bool_decide (name = m)) LIFECYCLE_METHODS.

Definition validate_method_shape (s : Signature) (description : string) : res unit :=
  if constness s || negb (default_safety s) || abi s || variadic s
     || match sig_generics s with [] => false | _ => true end || sig_where s then
    Err (description +:+ " cannot be const, unsafe, extern, variadic, or generic")
  else
    match inputs s with
    | FnReceiver mutability kind :: _ =>
        match kind with
        | RReference _ false =>
            if mutability then Err (description +:+ " must use an immutable `&self` receiver") else Ok tt
        | _ => Err (description +:+ " must use an immutable `&self` receiver")
        end
    | _ => Err (description +:+ " must begin with `&self`")
    end.

Definition validate_lifecycle_method (m : ImplItemFn) : res unit :=
  match vis m with
  | Inherited =>
      validate_method_shape (sig m) "actor lifecycle methods" ;;
      if asyncness (sig m) then Ok tt else Err "actor lifecycle methods must be `async fn`"
  | _ => Err "actor lifecycle methods must be private"
  end.

Record Param := mkParam { p_ident : string; p_ty : Ty }.

Definition typed_parameter (handler_label : string) (argument : FnArg) : res Param :=
  match argument with
  | FnTyped (PIdent _ false _ ident None) ty => Ok (mkParam ident ty)
  | FnTyped _ _ => Err (handler_label +:+ " parameters must be simple identifier bindings")
  | FnReceiver _ _ => Err (handler_label +:+ " methods may only have one receiver")
  end.
Definition typed_parameters (s : Signature) (handler_label : string) : res (list Param) :=
  mapM (typed_parameter handler_label) (drop 1 (inputs s)).

(** *** Parameters *)

Definition state_reference_access (ty : Ty) : option StateAccess :=
  match unparenthesized_type ty with
  | TyReference _ mutability _ => Some (if mutability then Mutable else Shared)
  | _ => None
  end.

Definition is_actor_ref (ty : Ty) : bool :=
  match unparenthesized_type ty with
  | TyPath _ path => match last (idents path) with Some s => bool_decide (s = "ActorRef"%string) | None => false end
  | _ => false
  end.

Definition match_handler_parameters (parameters : list Param) (bindings : list string) (access : option StateAccess)
    : option (bool * option StateAccess) :=
  '(wants, payload) ←
    (if length parameters =? length bindings then Some (false, parameters)
     else if (length parameters =? length bindings + 1)
             && match parameters with p :: _ => is_actor_ref (p_ty p) | [] => false end
     then Some (true, drop 1 parameters)
     else None);
  if forallb (λ '(p, binding), bool_decide (p_ident p = binding)) (zip payload bindings) then Some (wants, access)
  else None.

Definition classify_handler_parameters (parameters : list Param) (bindings : list string) (handler_label pattern_label : string)
    : res (bool * option StateAccess) :=
  let without_state := match_handler_parameters parameters bindings None in
  let with_state :=
    p ← last parameters;
    access ← state_reference_access (p_ty p);
    match_handler_parameters (take (length parameters - 1) parameters) bindings (Some access) in
  match without_state, with_state with
  | Some result, None | None, Some result => Ok result
  | Some _, Some _ => Err (handler_label +:+ " parameters are ambiguous")
  | None, None => Err (handler_label +:+ " parameters must match the " +:+ pattern_label +:+ " bindings")
  end.

(** *** Patterns *)

Definition variant_path (message_ident variant : string) : Path :=
  mkPath false [(message_ident, NoArguments); (variant, NoArguments)].

Definition qualify_path (path : Path) (message_ident : string) : res Path :=
  match segments path with
  | [(variant, _)] => Ok (variant_path message_ident variant)
  | [(first, _); _] =>
      if bool_decide (first = message_ident) then Ok path
      else Err "generated message patterns must use `Variant` or `Message::Variant`"
  | _ => Err "generated message patterns must use `Variant` or `Message::Variant`"
  end.

Definition qualify_generated_message_pattern (pattern : Pat) (message_ident : string) : res Pat :=
  match pattern with
  | PIdent [] false false variant None => Ok (PPath [] None (variant_path message_ident variant))
  | PPath attrs None path => path ← qualify_path path message_ident; Ok (PPath attrs None path)
  | PTupleStruct attrs None path elems =>
      path ← qualify_path path message_ident; Ok (PTupleStruct attrs None path elems)
  | PStruct attrs None path fields rest =>
      path ← qualify_path path message_ident; Ok (PStruct attrs None path fields rest)
  | _ => Err "generated message patterns must name a unit, tuple, or struct enum variant"
  end.

Definition inject_unit_rpc_reply (pattern : Pat) : res Pat :=
  match pattern with
  | PPath [] None path => Ok (PTupleStruct [] None path [PIdent [] false false "__ractor_reply_port" None])
  | _ => Ok pattern
  end.

(** [for field in fields] of [parse_handler_pattern] *)
Fixpoint pattern_bindings (kind : HandlerKind) (fields : list Pat) : res (list string) :=
  match fields with
  | [] => Ok []
  | PIdent [] false false ident None :: fields => bindings ← pattern_bindings kind fields; Ok (ident :: bindings)
  | PWild [] :: fields => pattern_bindings kind fields
  | _ => Err (pattern_description kind +:+ " fields must be plain identifier bindings or `_`")
  end.

Section expand.
Context (render : Path → string).

Definition parse_handler_pattern (pattern : Pat) (kind : HandlerKind) : res (string * list string) :=
  '(path, fields) ←
    match pattern with
    | PPath [] None path => Ok (path, [])
    | PTupleStruct [] None path elems => Ok (path, elems)
    | PStruct [] None path fields false => Ok (path, fields.*2)
    | PStruct _ _ _ _ true => Err (pattern_description kind +:+ " must list every struct variant field; `..` is not supported")
    | _ => Err (pattern_description kind +:+ " must be a unit, tuple, or struct enum variant with identifier or `_` fields")
    end;
  bindings ← pattern_bindings kind fields;
  Ok (render path, bindings).

Definition returns_unit (o : ReturnType) : bool := match o with RDefault => true | RType ty => is_unit_type ty end.
Definition return_type (o : ReturnType) : Ty := match o with RDefault => unit_type | RType ty => ty end.

(** [parameters[payload_start..payload_end]] *)
Definition payload_types (parameters : list Param) (wants : bool) (access : option StateAccess) : list Ty :=
  let payload_start := if wants then 1 else 0 in
  let payload_end := length parameters - match access with Some _ => 1 | None => 0 end in
  p_ty <$> drop payload_start (take payload_end parameters).

Definition parse_handler (m : ImplItemFn) (pattern : Pat) (kind : HandlerKind) : res Handler :=
  validate_method_shape (sig m) (method_description kind) ;;
  '(key, names) ← parse_handler_pattern pattern kind;
  parameters ← typed_parameters (sig m) (parameter_label kind);
  '(wants, access) ← classify_handler_parameters parameters names (parameter_label kind) (pattern_label kind);
  cfgs ← match_arm_cfg_attributes (attrs m);
  copied ← generated_variant_attributes (attrs m);
  Ok (mkHandler (ident (sig m)) pattern key names (payload_types parameters wants access) wants access
        (asyncness (sig m)) (negb (returns_unit (output (sig m)))) None cfgs copied).

(** [RpcReplyPort] of the resolved crate *)
Definition reply_port_type (ractor : Path) (reply : Ty) : Ty :=
  TyPath None (mkPath (leading_colon ractor) (segments ractor ++ [("RpcReplyPort"%string, AngleBracketed false [SType reply])])).

(** The types of the bindings, with the reply port where the index says; [expect] is a panic. *)
Fixpoint fill_types (port : Ty) (reply_index : nat) (indices : list nat) (types : list Ty) : res (list Ty) :=
  match indices with
  | [] => Ok []
  | index :: indices =>
      if index =? reply_index then rest ← fill_types port reply_index indices types; Ok (port :: rest)
      else
        match types with
        | ty :: types => rest ← fill_types port reply_index indices types; Ok (ty :: rest)
        | [] => Panic
        end
  end.

Definition rpc_candidates (parameters : list Param) (bindings : list string)
    : list (nat * list string * bool * option StateAccess) :=
  omap (λ reply_index,
    let payload_bindings := delete reply_index bindings in
    match classify_handler_parameters parameters payload_bindings (parameter_label Rpc) (pattern_label Rpc) with
    | Ok (wants, access) => Some (reply_index, payload_bindings, wants, access)
    | _ => None
    end) (seq 0 (length bindings)).

Definition parse_rpc_handler (m : ImplItemFn) (pattern : Pat) (explicit_reply_type : option Ty) (ractor : Path) : res Handler :=
  validate_method_shape (sig m) (method_description Rpc) ;;
  '(key, bindings) ← parse_handler_pattern pattern Rpc;
  parameters ← typed_parameters (sig m) (parameter_label Rpc);
  reply ←
    match explicit_reply_type with
    | Some reply =>
        if returns_unit (output (sig m)) then Err "an RPC handler using `reply = Type` must return a fallible value"
        else Ok reply
    | None => Ok (return_type (output (sig m)))
    end;
  if has_impl_trait reply then Err "RPC reply types must be concrete"
  else match rpc_candidates parameters bindings with
  | [(reply_index, names, wants, access)] =>
      types ← fill_types (reply_port_type ractor reply) reply_index (seq 0 (length bindings)) (payload_types parameters wants access);
      cfgs ← match_arm_cfg_attributes (attrs m);
      copied ← generated_variant_attributes (attrs m);
      match bindings !! reply_index with
      | None => Panic
      | Some reply_binding =>
          Ok (mkHandler (ident (sig m)) pattern key names types wants access (asyncness (sig m)) false
                (Some (mkRpc reply_binding reply (bool_decide (is_Some explicit_reply_type)))) cfgs copied)
      end
  | [] => Err "RPC handler parameters must match every RPC pattern binding except exactly one reply-port binding"
  | _ => Err "RPC reply port is ambiguous; exactly one RPC pattern binding must be absent from the method parameters"
  end.

(** [rewrite_impl_self_types] *)
Definition rewrite_type (actor : Ty) (ty : Ty) : res Ty :=
  rewrite_impl_self_type actor (depth_ty ty + depth_ty actor) ty.

Definition rewrite_handler (actor : Ty) (h : Handler) : res Handler :=
  types ← mapM (rewrite_type actor) (binding_types h);
  rpc' ←
    match rpc h with
    | Some r => ty ← rewrite_type actor (reply_type r); Ok (Some (mkRpc (reply_binding r) ty (propagates_processing_error r)))
    | None => Ok None
    end;
  Ok (mkHandler (method_name h) (pattern h) (pattern_key h) (binding_names h) types (wants_actor_ref h) (state_access h)
        (is_async h) (is_fallible h) rpc' (cfg_attributes h) (variant_attributes h)).
Definition rewrite_impl_self_types (handlers : list Handler) (actor : Ty) : res (list Handler) :=
  mapM (rewrite_handler actor) handlers.

(** [validate_unique_patterns]: [seen] is the set of patterns *)
Fixpoint validate_unique (seen : list string) (handlers : list Handler) (kind : HandlerKind) : res unit :=
  match handlers with
  | [] => Ok tt
  | h :: handlers =>
      if bool_decide (pattern_key h ∈ seen) then Err ("this " +:+ event_label kind +:+ " variant already has a handler")
      else validate_unique (pattern_key h :: seen) handlers kind
  end.
Definition validate_unique_patterns : list Handler → HandlerKind → res unit := validate_unique [].

(** *** The message enum *)

Inductive VariantFields := VUnit | VTuple (types : list Ty) | VStruct (fields : list (string * Ty)).
Record VariantItem := mkVariant { v_attrs : list Attribute; v_ident : string; v_fields : VariantFields }.
Record EnumItem := mkEnum { e_attrs : list Attribute; e_vis : Visibility; e_ident : string; e_variants : list VariantItem }.

Definition is_wild (p : Pat) : bool := match p with PWild _ => true | _ => false end.

Definition generated_named_field (field : Member * Pat) (ty : Ty) : res (string * Ty) :=
  if is_wild field.2 then Err "generated message patterns cannot discard fields with `_`"
  else match field.1 with
  | Named field_ident => Ok (field_ident, ty)
  | Unnamed _ => Err "generated struct message fields must be named"
  end.

Definition generate_message_variant (h : Handler) : res VariantItem :=
  variant ←
    match
      match pattern h with
      | PPath _ _ path | PTupleStruct _ _ path _ | PStruct _ _ path _ _ => last (idents path)
      | _ => None
      end
    with Some v => Ok v | None => Err "generated message pattern is missing a variant name" end;
  match pattern h with
  | PPath _ _ _ => Ok (mkVariant (variant_attributes h) variant VUnit)
  | PTupleStruct _ _ _ elems =>
      if existsb is_wild elems then Err "generated message patterns cannot discard fields with `_`"
      else Ok (mkVariant (variant_attributes h) variant (VTuple (binding_types h)))
  | PStruct _ _ _ fields _ =>
      if existsb (λ f : Member * Pat, is_wild f.2) fields then Err "generated message patterns cannot discard fields with `_`"
      else
        fields ← mapM (λ '(field, ty), generated_named_field field ty) (zip fields (binding_types h));
        Ok (mkVariant (variant_attributes h) variant (VStruct fields))
  | _ => Panic
  end.

Definition generate_message_enum (config : GeneratedMessageConfig) (handlers : list Handler) (cfgs : list Attribute) : res EnumItem :=
  variants ← mapM generate_message_variant handlers;
  Ok (mkEnum cfgs (visibility config) (message_ident config) variants).

(** *** The trait implementation *)

Inductive ArgExpr := AMyself | ABinding (name : string) | AState (access : StateAccess).

(** [#(#attrs)* #pattern => { self.#method(#args) .await ? ; Ok(()) }]; with a reply, the value of the call is sent
    to the reply binding. *)
Record Arm := mkArm {
  arm_attrs : list Attribute;
  arm_pattern : Pat;
  arm_method : string;
  arm_arguments : list ArgExpr;
  arm_await : bool;
  arm_try : bool;
  arm_reply : option (string * Ty)
}.

Definition generated_handler_arm (h : Handler) : Arm :=
  let arguments :=
    (if wants_actor_ref h then [AMyself] else [])
    ++ (ABinding <$> binding_names h)
    ++ match state_access h with Some access => [AState access] | None => [] end in
  match rpc h with
  | Some r =>
      mkArm (cfg_attributes h) (pattern h) (method_name h) arguments (is_async h) (propagates_processing_error r)
        (Some (reply_binding r, reply_type r))
  | None => mkArm (cfg_attributes h) (pattern h) (method_name h) arguments (is_async h) (is_fallible h) None
  end.
Definition generated_handler_arms (handlers : list Handler) : list Arm := generated_handler_arm <$> handlers.

(** Methods of the trait implementation: as the user wrote them, [default_pre_start], [generated_handle] and
    [generated_supervision_handler] *)
Inductive TraitMethod :=
| UserMethod (m : ImplItemFn)
| DefaultPreStart
| GeneratedHandle (arms : list Arm)
| GeneratedSupervision (arms : list Arm).

Record TraitImpl := mkTraitImpl {
  t_attrs : list Attribute;
  t_async_trait : bool;
  t_generics : list string;
  t_path : Path;
  t_self_ty : Ty;
  t_msg : Ty;
  t_state : Ty;
  t_arguments : Ty;
  t_methods : list TraitMethod
}.
Record Expansion := mkExpansion {
  generated_message : option EnumItem;
  inherent_impl : option ItemImpl;
  trait_impl : TraitImpl
}.

(** *** The expansion *)

(** What the loop over the items collects *)
Record Collected := mkCollected {
  inherent_items : list ImplItem;
  trait_methods : list ImplItemFn;
  dispatch_handlers : list Handler;
  supervision_handlers : list Handler;
  raw_handle : bool;
  raw_supervision : bool
}.
Definition add_inherent (i : ImplItem) (c : Collected) : Collected :=
  mkCollected (inherent_items c ++ [i]) (trait_methods c) (dispatch_handlers c) (supervision_handlers c) (raw_handle c) (raw_supervision c).
Definition add_dispatch (h : Handler) (c : Collected) : Collected :=
  mkCollected (inherent_items c) (trait_methods c) (dispatch_handlers c ++ [h]) (supervision_handlers c) (raw_handle c) (raw_supervision c).
Definition add_supervision (h : Handler) (c : Collected) : Collected :=
  mkCollected (inherent_items c) (trait_methods c) (dispatch_handlers c) (supervision_handlers c ++ [h]) (raw_handle c) (raw_supervision c).
Definition add_lifecycle (m : ImplItemFn) (c : Collected) : Collected :=
  mkCollected (inherent_items c) (trait_methods c ++ [m]) (dispatch_handlers c) (supervision_handlers c)
    (raw_handle c || bool_decide (ident (sig m) = "handle"%string))
    (raw_supervision c || bool_decide (ident (sig m) = "handle_supervisor_evt"%string)).

(** [if let MessageConfig::Generated(config) = ...] *)
Definition qualify (config : ActorConfig) (pattern : Pat) : res Pat :=
  match message config with
  | Generated g => qualify_generated_message_pattern pattern (message_ident g)
  | Existing _ => Ok pattern
  end.

(** The attributes of a method: those for message, RPC and supervision handlers, and the method without them *)
Definition sort_attributes (ractor : Path) (m : ImplItemFn) : list Attribute * list Attribute * list Attribute * ImplItemFn :=
  let '(message_attributes, rest) := take_handler_attributes (attrs m) ractor "message" true in
  let '(rpc_attributes, rest) := take_handler_attributes rest ractor "rpc" false in
  let '(supervision_attributes, rest) := take_handler_attributes rest ractor "supervision" true in
  (message_attributes, rpc_attributes, supervision_attributes, mkFn rest (vis m) (sig m) (body m)).

(** One turn of the loop over the items *)
Definition expand_item (config : ActorConfig) (ractor : Path) (c : Collected) (item : ImplItem) : res Collected :=
  match item with
  | IOther _ => Ok (add_inherent item c)
  | IFn m =>
      let '(message_attributes, rpc_attributes, supervision_attributes, m) := sort_attributes ractor m in
      if 1 <? length message_attributes then Err "message handler methods may only have one `#[ractor::message(...)]` attribute"
      else if 1 <? length supervision_attributes then
        Err "supervision handler methods may only have one `#[ractor::supervision(...)]` attribute"
      else if 1 <? length rpc_attributes then Err "RPC handler methods may only have one `#[ractor::rpc(...)]` attribute"
      else match message_attributes, rpc_attributes, supervision_attributes with
      | [attribute], [], [] =>
          pattern ← parse_pattern_args attribute;
          pattern ← qualify config pattern;
          h ← parse_handler m pattern Message;
          Ok (add_inherent (IFn m) (add_dispatch h c))
      | [], [attribute], [] =>
          input ← parse_args attribute;
          '(pattern, reply_type) ← parse_rpc_attribute input;
          pattern ← qualify config pattern;
          pattern ← inject_unit_rpc_reply pattern;
          h ← parse_rpc_handler m pattern reply_type ractor;
          Ok (add_inherent (IFn m) (add_dispatch h c))
      | [], [], [attribute] =>
          pattern ← parse_pattern_args attribute;
          h ← parse_handler m pattern Supervision;
          Ok (add_inherent (IFn m) (add_supervision h c))
      | [], [], [] =>
          if is_lifecycle_method (ident (sig m)) then
            validate_lifecycle_method m ;;
            Ok (add_lifecycle m c)
          else Ok (add_inherent (IFn m) c)
      | _, _, _ => Err "a method can only be one of a message, RPC, or supervision handler"
      end
  end.

Fixpoint expand_items (config : ActorConfig) (ractor : Path) (l : list ImplItem) (c : Collected) : res Collected :=
  match l with
  | [] => Ok c
  | item :: l => c ← expand_item config ractor c item; expand_items config ractor l c
  end.

Definition is_nil {A} (l : list A) : bool := match l with [] => true | _ => false end.

(** [expand_actor]; [async_trait] is the feature of the crate. *)
Definition expand_actor (async_trait : bool) (find_crate : res FoundCrate) (config : ActorConfig) (i : ItemImpl) : res Expansion :=
  validate_impl i ;;
  if match message config with Generated _ => negb (is_nil (generics i)) | Existing _ => false end then
    Err "generated message enums do not yet support generic actor implementations; use `message = ExistingType`"
  else
    enum_cfgs ← match_arm_cfg_attributes (impl_attrs i);
    let ractor := resolve_ractor_path_with (crate_path config) find_crate in
    c ← expand_items config ractor (items i) (mkCollected [] [] [] [] false false);
    if raw_handle c && negb (is_nil (dispatch_handlers c)) then
      Err "define either a raw `handle` method or focused handlers, not both"
    else if raw_supervision c && negb (is_nil (supervision_handlers c)) then
      Err "define either a raw `handle_supervisor_evt` method or `#[ractor::supervision(...)]` handlers, not both"
    else
      validate_unique_patterns (dispatch_handlers c) Message ;;
      validate_unique_patterns (supervision_handlers c) Supervision ;;
      dispatch ←
        match message config with
        | Generated _ => rewrite_impl_self_types (dispatch_handlers c) (self_ty i)
        | Existing _ => Ok (dispatch_handlers c)
        end;
      let has_pre_start := existsb (λ m, bool_decide (ident (sig m) = "pre_start"%string)) (trait_methods c) in
      if negb has_pre_start && (negb (is_unit_type (state config)) || negb (is_unit_type (arguments config))) then
        Err "`pre_start` is required unless both `state` and `arguments` are `()`"
      else
        let methods :=
          (UserMethod <$> trait_methods c)
          ++ (if has_pre_start then [] else [DefaultPreStart])
          ++ (if negb (raw_handle c) && negb (is_nil dispatch) then [GeneratedHandle (generated_handler_arms dispatch)] else [])
          ++ (if negb (raw_supervision c) && negb (is_nil (supervision_handlers c))
              then [GeneratedSupervision (generated_handler_arms (supervision_handlers c))] else []) in
        generated ←
          match message config with
          | Existing _ => Ok None
          | Generated g => e ← generate_message_enum g dispatch enum_cfgs; Ok (Some e)
          end;
        let trait_path :=
          mkPath (leading_colon ractor) (segments ractor ++
            if thread_local config then [("thread_local"%string, NoArguments); ("ThreadLocalActor"%string, NoArguments)]
            else [("Actor"%string, NoArguments)]) in
        Ok (mkExpansion generated
              (if is_nil (inherent_items c) then None
               else Some (mkImpl (impl_attrs i) (unsafety i) (generics i) (trait_ i) (self_ty i) (inherent_items c)))
              (mkTraitImpl (impl_attrs i) (negb (thread_local config) && async_trait) (generics i) trait_path (self_ty i)
                 (message_ty (message config)) (state config) (arguments config) methods)).
End expand.

(** ** What the generated code does *)

Section behaviour.
Context {V : Type}.

(** A message: its variant, and the values of its fields *)
Inductive FieldValues := XUnit | XTuple (values : list V) | XStruct (fields : list (string * V)).
Record Value := mkValue { x_variant : string; x_fields : FieldValues }.

Abbreviation Env := (list (string * V)).

Fixpoint env_lookup (x : string) (env : Env) : option V :=
  match env with
  | [] => None
  | (y, v) :: env => if bool_decide (x = y) then Some v else env_lookup x env
  end.

(** Patterns whose fields are identifiers or wildcards *)
Definition match_field (p : Pat) (v : V) : option Env :=
  match p with
  | PIdent _ _ _ x None => Some [(x, v)]
  | PWild _ => Some []
  | _ => None
  end.
Fixpoint match_fields (ps : list Pat) (vs : list V) : option Env :=
  match ps, vs with
  | [], [] => Some []
  | p :: ps, v :: vs => e1 ← match_field p v; e2 ← match_fields ps vs; Some (e1 ++ e2)
  | _, _ => None
  end.
Definition names_variant (path : Path) (x : Value) : bool := bool_decide (last (idents path) = Some (x_variant x)).
Definition match_pattern (p : Pat) (x : Value) : option Env :=
  match p, x_fields x with
  | PPath _ _ path, XUnit => if names_variant path x then Some [] else None
  | PTupleStruct _ _ path elems, XTuple vs => if names_variant path x then match_fields elems vs else None
  | PStruct _ _ path fields _, XStruct fs =>
      if names_variant path x then
        vs ← mapM (λ f : Member * Pat, match f.1 with Named n => env_lookup n fs | Unnamed _ => None end) fields;
        match_fields fields.*2 vs
      else None
  | _, _ => None
  end.

(** What a handler returns, and the arguments it is called with *)
Inductive Returned := Plain (v : V) | RetOk (v : V) | RetErr (e : string).
Inductive Arg := Myself | AVal (v : V) | StateRef (access : StateAccess).

(** What is observable of a run, and how it ends; [?] applies to results only. *)
Inductive Effect := Call (method : string) (args : list Arg) | Reply (port : V) (value : Returned) | StopMyself.
Inductive Outcome := Done | Failed (e : string) | IllTyped.

Definition eval_arg (env : Env) (a : ArgExpr) : option Arg :=
  match a with
  | AMyself => Some Myself
  | ABinding x => AVal <$> env_lookup x env
  | AState access => Some (StateRef access)
  end.

Context (ret : string → list Arg → Returned).

Definition run_arm (env : Env) (arm : Arm) : list Effect * Outcome :=
  match mapM (eval_arg env) (arm_arguments arm) with
  | None => ([], IllTyped)
  | Some args =>
      let call := Call (arm_method arm) args in
      let value := ret (arm_method arm) args in
      let continue (value : Returned) :=
        match arm_reply arm with
        | None => ([call], Done)
        | Some (reply, _) =>
            match env_lookup reply env with
            | Some port => ([call; Reply port value], Done)
            | None => ([], IllTyped)
            end
        end in
      if arm_try arm then
        match value with
        | RetOk v => continue (Plain v)
        | RetErr e => ([call], Failed e)
        | Plain _ => ([call], IllTyped)
        end
      else continue value
  end.

(** The arm taken in a configuration *)
Fixpoint select_arm (holds : Meta → bool) (arms : list Arm) (x : Value) : option (Env * Arm) :=
  match arms with
  | [] => None
  | arm :: arms =>
      if compiled holds (arm_attrs arm) then
        match match_pattern (arm_pattern arm) x with
        | Some env => Some (env, arm)
        | None => select_arm holds arms x
        end
      else select_arm holds arms x
  end.

(** The body of [generated_handle]; a match that is not exhaustive does not compile. *)
Definition run_handle (holds : Meta → bool) (arms : list Arm) (x : Value) : list Effect * Outcome :=
  match select_arm holds arms x with
  | Some (env, arm) => run_arm env arm
  | None => ([], IllTyped)
  end.

(** [Actor::handle_supervisor_evt], the default of the trait *)
Definition default_supervision (x : Value) : list Effect * Outcome :=
  if bool_decide (x_variant x = "ActorTerminated"%string) || bool_decide (x_variant x = "ActorFailed"%string)
  then ([StopMyself], Done) else ([], Done).

(** The body of [generated_supervision_handler]: the last arm takes every event. *)
Definition run_supervision (holds : Meta → bool) (arms : list Arm) (x : Value) : list Effect * Outcome :=
  match select_arm holds arms x with
  | Some (env, arm) => run_arm env arm
  | None =>
      if bool_decide (x_variant x = "ActorTerminated"%string) || bool_decide (x_variant x = "ActorFailed"%string)
      then ([StopMyself], Done) else ([], Done)
  end.
End behaviour.
Arguments FieldValues : clear implicits.
Arguments Value : clear implicits.
Arguments Returned : clear implicits.
Arguments Arg : clear implicits.
Arguments Effect : clear implicits.
