(* ===== verification/ActorMacroFacts.v ===== *)
(** Correctness of the attribute macro for actors: every message of a generated enum reaches the method it was
    generated from, in every configuration of the compiler, with its fields in the parameters of the same name
    and type; supervision events that have no handler keep the default of the trait; no item is lost. *)

From S2P Require Import Prelude MacroSyntax SelfRewrite ActorMacro.

(** ** Parameters *)

(** The parameters of a handler: an actor reference if wanted, the [payload] with the names of the bindings, and a
    reference to the state if there is one. *)
Record layout (ps : list Param) (bindings : list string) (wants : bool) (access : option StateAccess) (payload : list Param) : Prop := {
  lay_payload : p_ident <$> payload = bindings;
  lay_split : ∃ front back, ps = front ++ payload ++ back ∧
    (if wants then ∃ p, front = [p] ∧ is_actor_ref (p_ty p) = true else front = []) ∧
    match access with
    | Some a => ∃ p, back = [p] ∧ state_reference_access (p_ty p) = Some a
    | None => back = []
    end
}.

Lemma forallb_names payload bindings :
  length payload = length bindings →
  forallb (λ '(p, binding), bool_decide (p_ident p = binding)) (zip payload bindings) = true → p_ident <$> payload = bindings.
Proof.
  revert bindings. induction payload as [|p payload IH]; intros [|b bindings] Hl Hf; simpl in *; try done.
  apply andb_true_iff in Hf as [Hp%bool_decide_eq_true Hf]. f_equal; [done|]. apply IH; [lia|done].
Qed.

Lemma match_handler_parameters_spec ps bindings access w a :
  match_handler_parameters ps bindings access = Some (w, a) →
  a = access ∧ ∃ front payload, ps = front ++ payload ∧ p_ident <$> payload = bindings ∧
    if w then ∃ p, front = [p] ∧ is_actor_ref (p_ty p) = true else front = [].
Proof.
  unfold match_handler_parameters. destruct (length ps =? length bindings) eqn:E1; simpl.
  - apply Nat.eqb_eq in E1. destruct (forallb _ _) eqn:Ef; [|done]. intros [= <- <-]. split; [done|].
    exists [], ps. split_and!; [done|by apply forallb_names|done].
  - destruct (_ && _) eqn:E2; simpl; [|done]. apply andb_true_iff in E2 as [E2%Nat.eqb_eq Hr].
    destruct ps as [|p ps]; [done|]. cbn [drop]. rewrite drop_0. destruct (forallb _ _) eqn:Ef; [|done].
    intros [= <- <-]. split; [done|].
    exists [p], ps. split_and!; [done|apply forallb_names; [simpl in E2; lia|done]|by eexists].
Qed.

Lemma classify_spec ps bindings l1 l2 w a :
  classify_handler_parameters ps bindings l1 l2 = Ok (w, a) → ∃ payload, layout ps bindings w a payload.
Proof.
  unfold classify_handler_parameters.
  destruct (match_handler_parameters ps bindings None) as [[w1 a1]|] eqn:E1.
  - destruct (last ps ≫= _) as [[w2 a2]|]; [done|]. intros [= <- <-].
    apply match_handler_parameters_spec in E1 as (-> & front & payload & -> & Hn & Hf).
    exists payload. split; [done|]. exists front, []. by rewrite app_nil_r.
  - destruct (last ps ≫= _) as [[w2 a2]|] eqn:E2; [|done]. intros [= <- <-].
    destruct (last ps) as [p|] eqn:El; simpl in E2; [|done].
    destruct (state_reference_access (p_ty p)) as [acc|] eqn:Ea; simpl in E2; [|done].
    apply match_handler_parameters_spec in E2 as (-> & front & payload & Ht & Hn & Hf).
    exists payload. split; [done|]. exists front, [p]. split_and!; [|done|by eexists].
    apply last_Some in El as [ps' ->]. rewrite length_app, Nat.add_sub, take_app_length in Ht. by rewrite Ht, <-app_assoc.
Qed.

Lemma layout_types ps bindings w a payload : layout ps bindings w a payload → payload_types ps w a = p_ty <$> payload.
Proof.
  intros [_ (front & back & -> & Hf & Hb)]. unfold payload_types. f_equal.
  assert (length front = if w then 1 else 0) as <- by (destruct w; [by destruct Hf as (? & -> & _)|by subst]).
  assert (length back = match a with Some _ => 1 | None => 0 end) as <- by (destruct a; [by destruct Hb as (? & -> & _)|by subst]).
  rewrite app_assoc, length_app, Nat.add_sub, take_app_length. by rewrite drop_app_length.
Qed.

(** ** Patterns *)

Lemma pattern_bindings_match {V} kind fields bindings (vs : list V) :
  pattern_bindings kind fields = Ok bindings → length vs = length fields →
  ∃ env, match_fields fields vs = Some env ∧ env.*1 = bindings.
Proof.
  revert bindings vs. induction fields as [|p fields IH]; intros bindings [|v vs] Hb Hl; simpl in *; try done.
  { injection Hb as <-. by exists []. }
  destruct p as [[] [] [] x []|[]| | | |]; try done.
  - apply res_bind_ok in Hb as (bs & Hb & [= <-]). destruct (IH bs vs Hb ltac:(lia)) as (env & E & <-).
    simpl. rewrite E. by eexists.
  - destruct (IH bindings vs Hb ltac:(lia)) as (env & E & <-). simpl. rewrite E. by eexists.
Qed.


(** ** Lists *)

Lemma mapM_res_Forall2 {A B} (f : A → res B) (l : list A) (k : list B) :
  mapM f l = Ok k → Forall2 (λ x y, f x = Ok y) l k.
Proof.
  revert k. induction l as [|x l IH]; intros k; cbn [mapM].
  - intros [= <-]. constructor.
  - intros (y & Hy & (ys & Hys & [= <-])%res_bind_ok)%res_bind_ok. constructor; [done|by apply IH].
Qed.

Lemma env_lookup_zip {V} (names : list string) (vs : list V) k x v :
  NoDup names → names !! k = Some x → vs !! k = Some v → env_lookup x (zip names vs) = Some v.
Proof.
  revert vs k. induction names as [|y names IH]; intros [|w vs] [|k] Hn Hx Hv; simpl in *; try done; apply NoDup_cons in Hn as [Hy Hn].
  - simplify_eq. by rewrite bool_decide_true.
  - rewrite bool_decide_false; [by eapply IH|]. intros ->. apply Hy. by eapply list_elem_of_lookup_2.
Qed.

(** ** Items *)

(** What becomes of an item of the block *)
Definition is_dispatch (ractor : Path) (item : ImplItem) : bool :=
  match item with
  | IFn m => let '(ma, ra, _, _) := sort_attributes ractor m in negb (is_nil ma) || negb (is_nil ra)
  | IOther _ => false
  end.
Definition is_supervision (ractor : Path) (item : ImplItem) : bool :=
  match item with
  | IFn m => let '(_, _, sa, _) := sort_attributes ractor m in negb (is_nil sa)
  | IOther _ => false
  end.
Definition strip (ractor : Path) (m : ImplItemFn) : ImplItemFn := (sort_attributes ractor m).2.
Definition is_lifecycle (ractor : Path) (item : ImplItem) : bool :=
  match item with
  | IFn m => negb (is_dispatch ractor item) && negb (is_supervision ractor item) && is_lifecycle_method (ident (sig m))
  | IOther _ => false
  end.

(** Lifecycle methods go to the trait implementation, everything else to the inherent one. *)
Definition inherent_part (ractor : Path) (item : ImplItem) : list ImplItem :=
  if is_lifecycle ractor item then [] else [match item with IFn m => IFn (strip ractor m) | IOther _ => item end].
Definition trait_part (ractor : Path) (item : ImplItem) : list ImplItemFn :=
  match item with IFn m => if is_lifecycle ractor item then [strip ractor m] else [] | IOther _ => [] end.

Section expansion.
Context (render : Path → string).

(** The handler that an item declares *)
Definition dispatches (config : ActorConfig) (ractor : Path) (item : ImplItem) (h : Handler) : Prop :=
  ∃ m, item = IFn m ∧
    ((∃ a pat0 pat, (sort_attributes ractor m).1 = ([a], [], []) ∧ parse_pattern_args a = Ok pat0 ∧
        qualify config pat0 = Ok pat ∧ parse_handler render (strip ractor m) pat Message = Ok h) ∨
     (∃ a input pat0 pat1 pat reply, (sort_attributes ractor m).1 = ([], [a], []) ∧ parse_args a = Ok input ∧
        parse_rpc_attribute input = Ok (pat0, reply) ∧ qualify config pat0 = Ok pat1 ∧
        inject_unit_rpc_reply pat1 = Ok pat ∧ parse_rpc_handler render (strip ractor m) pat reply ractor = Ok h)).
Definition supervises (ractor : Path) (item : ImplItem) (h : Handler) : Prop :=
  ∃ m a pat, item = IFn m ∧ (sort_attributes ractor m).1 = ([], [], [a]) ∧ parse_pattern_args a = Ok pat ∧
    parse_handler render (strip ractor m) pat Supervision = Ok h.

(** What the loop has collected for the items [l] *)
Record collects (config : ActorConfig) (ractor : Path) (l : list ImplItem) (c c' : Collected) : Prop := {
  col_inherent : inherent_items c' = inherent_items c ++ flat_map (inherent_part ractor) l;
  col_trait : trait_methods c' = trait_methods c ++ flat_map (trait_part ractor) l;
  col_dispatch : ∃ hs, dispatch_handlers c' = dispatch_handlers c ++ hs ∧
    Forall2 (dispatches config ractor) (filter (λ i, is_dispatch ractor i = true) l) hs;
  col_supervision : ∃ hs, supervision_handlers c' = supervision_handlers c ++ hs ∧
    Forall2 (supervises ractor) (filter (λ i, is_supervision ractor i = true) l) hs
}.

Lemma collects_nil config ractor c : collects config ractor [] c c.
Proof. split; rewrite ?app_nil_r; try done; exists []; by rewrite app_nil_r. Qed.

Lemma collects_cons config ractor i l c1 c2 c3 :
  collects config ractor [i] c1 c2 → collects config ractor l c2 c3 → collects config ractor (i :: l) c1 c3.
Proof.
  intros [A1 A2 (h1 & A3 & A4) (h2 & A5 & A6)] [B1 B2 (k1 & B3 & B4) (k2 & B5 & B6)].
  change (i :: l) with ([i] ++ l). split.
  - by rewrite B1, A1, flat_map_app, app_assoc.
  - by rewrite B2, A2, flat_map_app, app_assoc.
  - exists (h1 ++ k1). rewrite B3, A3, filter_app, app_assoc. split; [done|by apply Forall2_app].
  - exists (h2 ++ k2). rewrite B5, A5, filter_app, app_assoc. split; [done|by apply Forall2_app].
Qed.

(** The four ways in which a method is collected *)
Lemma collects_method config ractor c c' m ma ra sa :
  sort_attributes ractor m = (ma, ra, sa, strip ractor m) →
  inherent_items c' = inherent_items c ++ inherent_part ractor (IFn m) →
  trait_methods c' = trait_methods c ++ trait_part ractor (IFn m) →
  (∃ hs, dispatch_handlers c' = dispatch_handlers c ++ hs ∧
     Forall2 (dispatches config ractor) (if is_dispatch ractor (IFn m) then [IFn m] else []) hs) →
  (∃ hs, supervision_handlers c' = supervision_handlers c ++ hs ∧
     Forall2 (supervises ractor) (if is_supervision ractor (IFn m) then [IFn m] else []) hs) →
  collects config ractor [IFn m] c c'.
Proof.
  intros Es Hi Ht Hd Hs. split; cbn [flat_map]; rewrite ?app_nil_r; [done|done| |]; rewrite filter_cons, filter_nil.
  - destruct Hd as (hs & ? & H). exists hs. split; [done|]. by destruct (is_dispatch ractor (IFn m)).
  - destruct Hs as (hs & ? & H). exists hs. split; [done|]. by destruct (is_supervision ractor (IFn m)).
Qed.

Lemma expand_item_collects config ractor c i c' :
  expand_item render config ractor c i = Ok c' → collects config ractor [i] c c'.
Proof.
  destruct i as [m|d]; cbn [expand_item].
  2: { intros [= <-]. split; try done; try (by rewrite app_nil_r); exists []; split; simpl; try done; by rewrite app_nil_r. }
  destruct (sort_attributes ractor m) as [[[ma ra] sa] m'] eqn:Es.
  assert (strip ractor m = m') as Hm by (unfold strip; by rewrite Es). subst m'.
  destruct (1 <? length ma); [done|]. destruct (1 <? length sa); [done|]. destruct (1 <? length ra); [done|].
  assert (is_dispatch ractor (IFn m) = negb (is_nil ma) || negb (is_nil ra)) as Ed by (unfold is_dispatch; by rewrite Es).
  assert (is_supervision ractor (IFn m) = negb (is_nil sa)) as Ev by (unfold is_supervision; by rewrite Es).
  assert (sig (strip ractor m) = sig m) as Hsig by (unfold strip, sort_attributes; by repeat destruct (take_handler_attributes _ _ _ _)).
  assert (is_lifecycle ractor (IFn m) = is_nil ma && is_nil ra && is_nil sa && is_lifecycle_method (ident (sig m))) as El.
  { cbn [is_lifecycle]. rewrite Ed, Ev. by destruct ma, ra, sa. }
  destruct ma as [|a [|]], ra as [|b [|]], sa as [|s [|]]; cbn [is_nil negb andb orb] in El, Ed, Ev; try done.
  - rewrite Hsig. destruct (is_lifecycle_method _) eqn:Em; [intros (? & _ & [= <-])%res_bind_ok|intros [= <-]];
      (eapply collects_method; [done|..]); rewrite ?Ed, ?Ev; cbn [trait_part]; unfold inherent_part; rewrite ?El, ?Em;
      simpl; rewrite ?app_nil_r; try done; exists []; by rewrite app_nil_r.
  - intros (pat & Hp & (h & Hh & [= <-])%res_bind_ok)%res_bind_ok.
    (eapply collects_method; [done|..]); rewrite ?Ed, ?Ev; cbn [trait_part]; unfold inherent_part; rewrite ?El; simpl; rewrite ?app_nil_r; try done.
    { exists []. by rewrite app_nil_r. }
    exists [h]. split; [done|]. constructor; [|constructor]. exists m, s, pat. by rewrite Es.
  - intros (input & Hi & ([pat0 reply] & Hp & (pat1 & Hq & (pat & Hj & (h & Hh & [= <-])%res_bind_ok)%res_bind_ok)%res_bind_ok)%res_bind_ok)%res_bind_ok.
    (eapply collects_method; [done|..]); rewrite ?Ed, ?Ev; cbn [trait_part]; unfold inherent_part; rewrite ?El; simpl; rewrite ?app_nil_r; try done.
    2: { exists []. by rewrite app_nil_r. }
    exists [h]. split; [done|]. constructor; [|constructor]. exists m. split; [done|]. right.
    exists b, input, pat0, pat1, pat, reply. by rewrite Es.
  - intros (pat0 & Hp & (pat & Hq & (h & Hh & [= <-])%res_bind_ok)%res_bind_ok)%res_bind_ok.
    (eapply collects_method; [done|..]); rewrite ?Ed, ?Ev; cbn [trait_part]; unfold inherent_part; rewrite ?El; simpl; rewrite ?app_nil_r; try done.
    2: { exists []. by rewrite app_nil_r. }
    exists [h]. split; [done|]. constructor; [|constructor]. exists m. split; [done|]. left. exists a, pat0, pat. by rewrite Es.
Qed.

Lemma expand_items_collects config ractor l c c' :
  expand_items render config ractor l c = Ok c' → collects config ractor l c c'.
Proof.
  revert c. induction l as [|i l IH]; intros c; cbn [expand_items].
  - intros [= <-]. apply collects_nil.
  - intros (c1 & H1 & H2)%res_bind_ok. eapply collects_cons; [by eapply expand_item_collects|by apply IH].
Qed.

(** ** Handlers *)

(** What is known of the handler [h] of a method [m], whose pattern binds [bs] *)
Record handles (m : ImplItemFn) (h : Handler) (bs : list string) : Prop := {
  hd_name : method_name h = ident (sig m);
  hd_bindings : ∃ kind, parse_handler_pattern render (pattern h) kind = Ok (pattern_key h, bs);
  hd_params : ∃ label ps payload, typed_parameters (sig m) label = Ok ps ∧
    layout ps (binding_names h) (wants_actor_ref h) (state_access h) payload ∧
    Forall (λ p, ∃ k, bs !! k = Some (p_ident p) ∧ binding_types h !! k = Some (p_ty p)) payload;
  hd_length : length (binding_types h) = length bs;
  hd_cfg holds : compiled holds (cfg_attributes h) = compiled holds (attrs m) ∧
                 compiled holds (variant_attributes h) = compiled holds (attrs m);
  hd_rpc : match rpc h with
           | None => is_fallible h = negb (returns_unit (output (sig m)))
           | Some r => ∃ k, bs !! k = Some (reply_binding r) ∧ is_Some (binding_types h !! k)
           end
}.

Lemma handler_cfg m cfgs copied holds :
  match_arm_cfg_attributes (attrs m) = Ok cfgs → generated_variant_attributes (attrs m) = Ok copied →
  compiled holds cfgs = compiled holds (attrs m) ∧ compiled holds copied = compiled holds (attrs m).
Proof.
  intros Hc Hv. split.
  - by eapply compiled_filtered; [apply filter_cfg_filters|apply is_cfg_not| |].
  - by eapply compiled_filtered; [apply filter_variant_filters|apply is_cfg_or_doc_not|apply is_cfg_is_cfg_or_doc|].
Qed.

Lemma parse_handler_handles m pat kind h :
  parse_handler render m pat kind = Ok h → handles m h (binding_names h) ∧ pattern h = pat ∧ rpc h = None.
Proof.
  unfold parse_handler. intros (? & _ & ([key names] & Hp & (ps & Hps & ([w a] & Hc & (cfgs & Hcfg & (copied & Hcop & [= <-])%res_bind_ok)%res_bind_ok)%res_bind_ok)%res_bind_ok)%res_bind_ok)%res_bind_ok.
  apply classify_spec in Hc as [payload Hl]. pose proof (layout_types _ _ _ _ _ Hl) as Ht. pose proof (lay_payload _ _ _ _ _ Hl) as Hn.
  split_and!; try done. split; cbn [method_name pattern pattern_key binding_names binding_types wants_actor_ref state_access is_fallible rpc
    cfg_attributes variant_attributes]; try done.
  - by exists kind.
  - exists (parameter_label kind), ps, payload. split_and!; [done|done|].
    apply Forall_forall. intros p (k & Hk)%list_elem_of_lookup. exists k. rewrite Ht, <-Hn, !list_lookup_fmap, Hk. done.
  - by rewrite Ht, <-Hn, !length_fmap.
  - intros holds. by apply handler_cfg.
Qed.




End expansion.

(** ** Generated variants *)

(** The names that a pattern binds *)
Definition field_names (fields : list Pat) : list string := omap (λ p, match p with PIdent _ _ _ x _ => Some x | _ => None end) fields.
Definition bound_names (p : Pat) : list string :=
  match p with
  | PTupleStruct _ _ _ elems => field_names elems
  | PStruct _ _ _ fields _ => field_names fields.*2
  | _ => []
  end.

Lemma pattern_bindings_names kind fields bs : pattern_bindings kind fields = Ok bs → field_names fields = bs.
Proof.
  revert bs. induction fields as [|p fields IH]; intros bs; cbn [pattern_bindings]; [by intros [= <-]|].
  destruct p as [[] [] [] x []|[]| | | |]; try done.
  - intros (bs' & Hb & [= <-])%res_bind_ok. unfold field_names. simpl. f_equal. by apply IH.
  - apply IH.
Qed.

Lemma parse_pattern_names render pat kind key bs :
  parse_handler_pattern render pat kind = Ok (key, bs) → bound_names pat = bs.
Proof.
  unfold parse_handler_pattern. intros ([path fields] & Hp & (bs' & Hb & [= _ ->])%res_bind_ok)%res_bind_ok.
  apply pattern_bindings_names in Hb.
  destruct pat as [| |[] [] ?|[] [] ? ?|[] [] ? ? []|]; simplify_eq; done.
Qed.

Section typing.
Context {V : Type} (typed : V → Ty → Prop).





(** What a parameter receives: an actor reference, the binding of its own name with a value of its own type, or a
    reference to the state *)
Definition receives (actor : Ty) (env : list (string * V)) (p : Param) (a : Arg V) : Prop :=
  match a with
  | Myself => is_actor_ref (p_ty p) = true
  | AVal v => env_lookup (p_ident p) env = Some v ∧ typed v (subst_ty actor (p_ty p))
  | StateRef access => state_reference_access (p_ty p) = Some access
  end.

Lemma eval_arguments actor env ps names w a payload :
  layout ps names w a payload →
  Forall (λ p, ∃ v, env_lookup (p_ident p) env = Some v ∧ typed v (subst_ty actor (p_ty p))) payload →
  ∃ args, mapM (eval_arg env) ((if w then [AMyself] else []) ++ (ABinding <$> names)
                               ++ match a with Some access => [AState access] | None => [] end) = Some args ∧
    Forall2 (receives actor env) ps args.
Proof.
  intros [<- (front & back & -> & Hf & Hb)] Hp.
  assert (∃ args, mapM (eval_arg env) (ABinding <$> (p_ident <$> payload)) = Some args ∧
                  Forall2 (receives actor env) payload args) as (mid & Em & Fm).
  { clear Hf Hb. induction Hp as [|p payload (v & Hv & Ht) _ (args & E & F)]; [by exists []|].
    exists (AVal v :: args). rewrite !fmap_cons. cbn [mapM eval_arg]. rewrite Hv. simpl. rewrite E. split; [done|by constructor]. }
  assert (∀ l1 l2 k1 k2, mapM (eval_arg env) l1 = Some k1 → mapM (eval_arg env) l2 = Some k2 →
    mapM (eval_arg env) (l1 ++ l2) = Some (k1 ++ k2)) as Happ.
  { clear. intros l1 l2 k1 k2 H1 H2. apply mapM_Some in H1, H2. apply mapM_Some. by apply Forall2_app. }
  exists ((if w then [Myself] else []) ++ mid ++ match a with Some access => [StateRef access] | None => [] end). split.
  - apply Happ; [by destruct w|]. apply Happ; [done|by destruct a].
  - apply Forall2_app; [|apply Forall2_app; [done|]].
    + destruct w; [destruct Hf as (p & -> & H)|subst]; repeat constructor. done.
    + destruct a; [destruct Hb as (p & -> & H)|subst]; repeat constructor. done.
Qed.
End typing.

(** ** Dispatch *)

Lemma arm_attrs_eq h : arm_attrs (generated_handler_arm h) = cfg_attributes h.
Proof. unfold generated_handler_arm. by destruct (rpc h). Qed.
Lemma arm_pattern_eq h : arm_pattern (generated_handler_arm h) = pattern h.
Proof. unfold generated_handler_arm. by destruct (rpc h). Qed.


(** What an expansion contains *)
Definition handle_arms (out : Expansion) : list Arm :=
  flat_map (λ m, match m with GeneratedHandle arms => arms | _ => [] end) (t_methods (trait_impl out)).
Definition supervision_arms (out : Expansion) : list Arm :=
  flat_map (λ m, match m with GeneratedSupervision arms => arms | _ => [] end) (t_methods (trait_impl out)).
Definition inherent_methods (out : Expansion) : list ImplItem :=
  match inherent_impl out with Some i => items i | None => [] end.
Definition user_methods (out : Expansion) : list ImplItemFn :=
  omap (λ m, match m with UserMethod m => Some m | _ => None end) (t_methods (trait_impl out)).

Section expanded.
Context (render : Path → string) (async_trait : bool) (find_crate : res FoundCrate).
Context (config : ActorConfig) (i : ItemImpl).
Abbreviation ractor := (resolve_ractor_path_with (crate_path config) find_crate).

(** The stages of an expansion *)
Record stages (out : Expansion) (c : Collected) (hs : list Handler) : Prop := {
  st_items : collects render config ractor (items i) (mkCollected [] [] [] [] false false) c;
  st_unique : validate_unique_patterns (dispatch_handlers c) Message = Ok tt;
  st_rewritten : match message config with
                 | Generated _ => rewrite_impl_self_types (dispatch_handlers c) (self_ty i) = Ok hs
                 | Existing _ => hs = dispatch_handlers c
                 end;
  st_enum : match message config with
            | Generated g => ∃ e, generated_message out = Some e ∧ e_ident e = message_ident g ∧
                mapM generate_message_variant hs = Ok (e_variants e)
            | Existing _ => generated_message out = None
            end;
  st_arms : handle_arms out = generated_handler_arms hs;
  st_supervision : supervision_arms out = generated_handler_arms (supervision_handlers c);
  st_inherent : inherent_methods out = inherent_items c;
  st_user : user_methods out = trait_methods c
}.

Lemma rewrite_nil hs hs' actor : rewrite_impl_self_types hs actor = Ok hs' → is_nil hs' = is_nil hs.
Proof. intros H%mapM_res_Forall2. by destruct H. Qed.

Lemma expand_actor_stages out :
  expand_actor render async_trait find_crate config i = Ok out → ∃ c hs, stages out c hs.
Proof.
  unfold expand_actor. intros (u & _ & H)%res_bind_ok. destruct (match message config with Existing _ => _ | _ => _ end); [done|].
  apply res_bind_ok in H as (cfgs & _ & (c & Hc & H)%res_bind_ok). apply expand_items_collects in Hc.
  destruct (raw_handle c && negb (is_nil (dispatch_handlers c))) eqn:E1; [done|].
  destruct (raw_supervision c && negb (is_nil (supervision_handlers c))) eqn:E2; [done|].
  apply res_bind_ok in H as ([] & Hu & ([] & _ & (hs & Hr & H)%res_bind_ok)%res_bind_ok).
  destruct (negb (existsb _ _) && _); [done|]. apply res_bind_ok in H as (gen & Hg & [= <-]). exists c, hs.
  assert (is_nil hs = is_nil (dispatch_handlers c)) as Hnil.
  { destruct (message config); [by injection Hr as <-|by eapply rewrite_nil]. }
  assert (∀ l, flat_map (λ m, match m with GeneratedHandle arms => arms | _ => [] end) (UserMethod <$> l) = []) as Hu1.
  { clear. intros l. induction l as [|m l IH]; [done|exact IH]. }
  assert (∀ l, flat_map (λ m, match m with GeneratedSupervision arms => arms | _ => [] end) (UserMethod <$> l) = []) as Hu2.
  { clear. intros l. induction l as [|m l IH]; [done|exact IH]. }
  split; try done.
  - destruct (message config); [by injection Hr as <-|done].
  - destruct (message config) as [|g]; [by injection Hg as <-|].
    apply res_bind_ok in Hg as (e & He & [= <-]). apply res_bind_ok in He as (vs & Hvs & [= <-]). by eexists.
  - unfold handle_arms. cbn [t_methods trait_impl]. rewrite !flat_map_app, Hu1. rewrite <-Hnil in E1.
    destruct (existsb _ _), (raw_handle c), hs, (negb (raw_supervision c) && negb (is_nil (supervision_handlers c)));
      simpl in *; rewrite ?app_nil_r; done.
  - unfold supervision_arms. cbn [t_methods trait_impl]. rewrite !flat_map_app, Hu2.
    destruct (existsb _ _), (raw_supervision c), (supervision_handlers c), (negb (raw_handle c) && negb (is_nil hs));
      simpl in *; rewrite ?app_nil_r; done.
  - unfold inherent_methods. cbn [inherent_impl]. by destruct (inherent_items c).
  - unfold user_methods. cbn [t_methods trait_impl]. rewrite !omap_app.
    replace (omap _ (UserMethod <$> trait_methods c)) with (trait_methods c) by (clear; induction (trait_methods c) as [|m l IH]; [done|rewrite fmap_cons; cbn [omap list_omap]; by rewrite <-IH]).
    destruct (existsb _ _), (negb (raw_handle c) && negb (is_nil hs)), (negb (raw_supervision c) && negb (is_nil (supervision_handlers c)));
      simpl; by rewrite ?app_nil_r.
Qed.
End expanded.

(** ** Rewritten handlers *)

Definition rewritten (actor : Ty) (h : Handler) : Handler :=
  mkHandler (method_name h) (pattern h) (pattern_key h) (binding_names h) (subst_ty actor <$> binding_types h)
    (wants_actor_ref h) (state_access h) (is_async h) (is_fallible h)
    ((λ r, mkRpc (reply_binding r) (subst_ty actor (reply_type r)) (propagates_processing_error r)) <$> rpc h)
    (cfg_attributes h) (variant_attributes h).




(** ** Calls *)

(** The result of [?] *)
Definition try_result {V} (r : Returned V) : Outcome :=
  match r with RetOk _ => Done | RetErr e => Failed e | Plain _ => IllTyped end.

(** What a call of an RPC handler leads to: with [reply = Type] an error ends the run without an answer, and
    without it the answer is whatever the handler returned. *)
Definition rpc_result {V} (call : Effect V) (port : V) (explicit : bool) (r : Returned V) : list (Effect V) * Outcome :=
  if explicit then
    match r with
    | RetOk v => ([call; Reply port (Plain v)], Done)
    | RetErr e => ([call], Failed e)
    | Plain _ => ([call], IllTyped)
    end
  else ([call; Reply port r], Done).

Section calls.
Context {V : Type} (typed : V → Ty → Prop) (ret : string → list (Arg V) → Returned V).

Lemma run_handler render actor m h bs (vs : list V) :
  handles render m h bs → NoDup bs → Forall2 typed vs (subst_ty actor <$> binding_types h) →
  let env := zip bs vs in
  ∃ label ps args, typed_parameters (sig m) label = Ok ps ∧ Forall2 (receives typed actor env) ps args ∧
    let call := Call (ident (sig m)) args in
    let r := ret (ident (sig m)) args in
    match rpc h with
    | None => run_arm ret env (generated_handler_arm (rewritten actor h)) =
              ([call], if returns_unit (output (sig m)) then Done else try_result r)
    | Some rp => ∀ k ty, bs !! k = Some (reply_binding rp) → binding_types h !! k = Some ty →
        ∃ port, typed port (subst_ty actor ty) ∧
          run_arm ret env (generated_handler_arm (rewritten actor h)) = rpc_result call port (propagates_processing_error rp) r
    end.
Proof.
  intros [Hname _ (label & ps & payload & Hps & Hl & Hp) Hlen _ Hr] Hn Ht env.
  assert (∀ k x ty, bs !! k = Some x → binding_types h !! k = Some ty →
    ∃ v, env_lookup x env = Some v ∧ typed v (subst_ty actor ty)) as Hlook.
  { intros k x ty Hx Hty. assert ((subst_ty actor <$> binding_types h) !! k = Some (subst_ty actor ty)) as Hs
      by (by rewrite list_lookup_fmap, Hty).
    destruct (Forall2_lookup_r _ _ _ _ _ Ht Hs) as (v & Hv & Htv). exists v. split; [by eapply env_lookup_zip|done]. }
  destruct (eval_arguments typed actor env ps _ _ _ payload Hl) as (args & Ea & Fa).
  { eapply Forall_impl; [exact Hp|]. intros p (k & Hk & Hty). by eapply Hlook. }
  exists label, ps, args. split_and!; [done|done|]. cbv zeta.
  destruct (rpc h) as [rp|] eqn:Er.
  - intros k ty Hk Hty. destruct (Hlook _ _ _ Hk Hty) as (port & Hport & Htp). exists port. split; [done|].
    unfold run_arm, generated_handler_arm, rpc_result. cbn [rewritten rpc]. rewrite Er. simpl. rewrite Ea, Hname, Hport.
    destruct (propagates_processing_error rp); [|done]. by destruct (ret _ _).
  - unfold run_arm, generated_handler_arm. cbn [rewritten rpc]. rewrite Er. simpl. rewrite Ea, Hname, Hr.
    destruct (returns_unit _); [done|]. simpl. by destruct (ret _ _).
Qed.
End calls.

(** ** Theorems *)






(** *** Distinct variants *)






(** *** The declared variant *)








(** *** Delivery *)



(** *** Supervision *)

Lemma match_pattern_names {V} render pat kind key bs (x : Value V) env :
  parse_handler_pattern render pat kind = Ok (key, bs) → match_pattern pat x = Some env → env.*1 = bs.
Proof.
  unfold parse_handler_pattern. intros ([path fields] & Hp & (bs' & Hb & [= _ ->])%res_bind_ok)%res_bind_ok Hm.
  assert (∀ (vs : list V) env, match_fields fields vs = Some env → env.*1 = bs) as Hfields.
  { intros vs env' He. destruct (pattern_bindings_match kind fields bs vs Hb) as (env'' & E & <-); [|congruence].
    clear -He. revert vs env' He. induction fields as [|p fields IH]; intros [|v vs] env He; try done. simpl in *.
    apply bind_Some in He as (e1 & _ & (e2 & He & _)%bind_Some). f_equal. by eapply IH. }
  destruct pat as [| |[] [] path0|[] [] path0 es|[] [] path0 fs []|]; simplify_eq; simpl in Hm;
    destruct (x_fields x) as [|vs|xs]; try done; destruct (names_variant path x); try done.
  - injection Hm as <-. by injection Hb as <-.
  - by eapply Hfields.
  - apply bind_Some in Hm as (vs & _ & Hm). by eapply Hfields.
Qed.

Lemma select_arm_elem {V} holds arms (x : Value V) env arm :
  select_arm holds arms x = Some (env, arm) →
  arm ∈ arms ∧ compiled holds (arm_attrs arm) = true ∧ match_pattern (arm_pattern arm) x = Some env.
Proof.
  induction arms as [|a arms IH]; cbn [select_arm]; [done|]. destruct (compiled holds (arm_attrs a)) eqn:Ec.
  - destruct (match_pattern (arm_pattern a) x) eqn:Em; [intros [= <- <-]; split_and!; [by left|done|done]|].
    intros (? & ? & ?)%IH. split_and!; [by right|done|done].
  - intros (? & ? & ?)%IH. split_and!; [by right|done|done].
Qed.

Lemma arm_rewritten actor h : rpc h = None → generated_handler_arm (rewritten actor h) = generated_handler_arm h.
Proof. intros Hr. unfold generated_handler_arm. cbn [rewritten rpc]. by rewrite Hr. Qed.

Lemma supervision_inherent ractor m (l : list ImplItem) :
  IFn m ∈ l → (∃ a, (sort_attributes ractor m).1 = ([], [], [a])) → IFn (strip ractor m) ∈ flat_map (inherent_part ractor) l.
Proof.
  intros Hin [a Ha]. apply list_elem_of_In, in_flat_map. exists (IFn m). split; [by apply list_elem_of_In|].
  unfold inherent_part, is_lifecycle, is_dispatch, is_supervision. destruct (sort_attributes ractor m) as [p m'] eqn:Es.
  simpl in Ha. subst p. simpl. unfold strip. rewrite Es. by left.
Qed.

(** Supervision events.  When the macro accepts an actor, in every configuration an event that no supervision
    handler of the actor takes has exactly the effect of the default of the trait, to stop the actor when a child
    terminated or failed.  Any other event is taken by one handler, a method of the actor that is compiled in this
    configuration; its parameters receive the actor reference, the bindings of their names, and a reference to the
    state, and its error, if it returns a result, is propagated. *)
Theorem supervision_dispatched {V} (ret : string → list (Arg V) → Returned V)
    (render : Path → string) (async_trait : bool) (find_crate : res FoundCrate)
    (config : ActorConfig) (i : ItemImpl) (out : Expansion) (holds : Meta → bool) (x : Value V) :
  expand_actor render async_trait find_crate config i = Ok out →
  (∀ arm, arm ∈ supervision_arms out → NoDup (bound_names (arm_pattern arm))) →
  let ractor := resolve_ractor_path_with (crate_path config) find_crate in
  let run := run_supervision ret holds (supervision_arms out) x in
  match select_arm holds (supervision_arms out) x with
  | None => run = default_supervision x
  | Some (env, arm) =>
      ∃ m label ps args, IFn m ∈ items i ∧ IFn (strip ractor m) ∈ inherent_methods out ∧
        compiled holds (attrs (strip ractor m)) = true ∧ typed_parameters (sig (strip ractor m)) label = Ok ps ∧
        Forall2 (receives (λ _ _, True) unit_type env) ps args ∧
        run = ([Call (ident (sig (strip ractor m))) args],
               if returns_unit (output (sig (strip ractor m))) then Done else try_result (ret (ident (sig (strip ractor m))) args))
  end.
Proof.
  intros Hexp Hnd ractor run. unfold run, run_supervision.
  destruct (expand_actor_stages _ _ _ _ _ _ Hexp) as (c & hs & [[Hinh _ _ (ss & Hs & Hss)] _ _ _ _ Harms Hi _]). simpl in Hs, Hinh.
  destruct (select_arm holds (supervision_arms out) x) as [[env arm]|] eqn:Esel; [|done].
  apply select_arm_elem in Esel as (Hin & Hc & Hm). pose proof (Hnd arm Hin) as Hn. rewrite Harms, Hs in Hin.
  apply list_elem_of_fmap in Hin as (h & -> & (k & Hk)%list_elem_of_lookup).
  destruct (Forall2_lookup_r _ _ _ _ _ Hss Hk) as (item & Hitem & (m & a & pat & -> & Ha & _ & Hh)).
  apply list_elem_of_lookup_2, list_elem_of_filter in Hitem as [_ Hitem].
  apply parse_handler_handles in Hh as (Hh & _ & Hr). fold ractor in Ha, Hh.
  destruct (hd_bindings _ _ _ _ Hh) as [kind Hkind]. rewrite arm_pattern_eq in Hn, Hm.
  rewrite (parse_pattern_names _ _ _ _ _ Hkind) in Hn. pose proof (match_pattern_names _ _ _ _ _ x env Hkind Hm) as Henv.
  destruct (run_handler (λ (_ : V) _, True) ret render unit_type _ h _ env.*2 Hh Hn) as (label & ps & args & Hps & Hrec & Hrun).
  { apply Forall2_same_length_lookup_2; [|done]. by rewrite !length_fmap, (hd_length _ _ _ _ Hh), <-Henv, length_fmap. }
  rewrite <-Henv, zip_fst_snd in Hrec, Hrun. rewrite Hr, arm_rewritten in Hrun by done.
  exists m, label, ps, args. split_and!; [done| | |done|done|done].
  - rewrite Hi, Hinh. apply supervision_inherent; [done|by exists a].
  - rewrite arm_attrs_eq in Hc. by rewrite <-(proj1 (hd_cfg _ _ _ _ Hh holds)).
Qed.

(** Every item of the block is in the expansion once: lifecycle methods in the implementation of the trait, all others
    in the inherent implementation, in their order and unchanged but for the attributes of handlers. *)
Theorem block_conserved (render : Path → string) (async_trait : bool) (find_crate : res FoundCrate)
    (config : ActorConfig) (i : ItemImpl) (out : Expansion) :
  expand_actor render async_trait find_crate config i = Ok out →
  let ractor := resolve_ractor_path_with (crate_path config) find_crate in
  inherent_methods out = flat_map (inherent_part ractor) (items i) ∧
  user_methods out = flat_map (trait_part ractor) (items i) ∧
  length (inherent_methods out) + length (user_methods out) = length (items i).
Proof.
  intros Hexp ractor. destruct (expand_actor_stages _ _ _ _ _ _ Hexp) as (c & hs & [[Hinh Ht _ _] _ _ _ _ _ Hi Hu]).
  rewrite Hi, Hu, Hinh, Ht. split_and!; [done|done|]. simpl. fold ractor. clear.
  induction (items i) as [|item l IH]; [done|]. cbn [flat_map]. rewrite !length_app. cbn [length].
  unfold inherent_part at 1, trait_part at 1. destruct item as [m|d]; [destruct (is_lifecycle _ _)|]; simpl; lia.
Qed.

(** *** An actor *)

(** [#[ractor::actor(message = enum CounterMessage, state = u64)] impl Counter] with the handlers
    [#[message(Add { amount })] fn add(&self, amount: u64, state: &mut u64)],
    [#[ractor::rpc(Get(key, reply))] async fn get(&self, myself: ActorRef<CounterMessage>, key: Self::Key) -> u64],
    [#[cfg(test)] #[message(Clear)] fn clear(&self)],
    [#[supervision(SupervisionEvent::ActorStarted(child))] fn started(&self, child: ActorCell)],
    and a method [pre_start] *)
Definition ty_ident (s : string) : Ty := TyPath None (ident_path s).
Definition sample_sig (asyncness : bool) (name : string) (params : list (string * Ty)) (out : ReturnType) : Signature :=
  mkSig false true false false [] false asyncness name
    (FnReceiver false (RReference None false) :: ((λ p, FnTyped (PIdent [] false false p.1 None) p.2) <$> params)) out.
Definition handler_attr (path : list string) (pat : Pat) : Attribute :=
  MetaList (mkPath false ((λ s, (s, NoArguments)) <$> path)) (Stream [KPat pat]).
Definition binding (s : string) : Pat := PIdent [] false false s None.

Definition sample_ractor : Path := mkPath true [("ractor"%string, NoArguments)].
Definition sample_config : ActorConfig :=
  mkConfig false (Generated (mkGenerated Inherited "CounterMessage")) (ty_ident "u64") unit_type None.
Definition sample_impl : ItemImpl :=
  mkImpl [] false [] None (ty_ident "Counter")
    [IFn (mkFn [] Inherited (sample_sig true "pre_start" [("myself"%string, ty_ident "ActorRef"); ("args"%string, unit_type)] (RType (ty_ident "Result"))) 0);
     IFn (mkFn [handler_attr ["message"%string] (PStruct [] None (ident_path "Add") [(Named "amount", binding "amount")] false)] Inherited
            (sample_sig false "add" [("amount"%string, ty_ident "u64"); ("state"%string, TyReference None true (ty_ident "u64"))] RDefault) 1);
     IOther "const LIMIT: u64 = 10;";
     IFn (mkFn [handler_attr ["ractor"; "rpc"]%string (PTupleStruct [] None (ident_path "Get") [binding "key"; binding "reply"])] Inherited
            (sample_sig true "get" [("myself"%string, ty_ident "ActorRef"); ("key"%string, TyPath None (mkPath false [("Self"%string, NoArguments); ("Key"%string, NoArguments)]))]
               (RType (ty_ident "u64"))) 2);
     IFn (mkFn [MetaList (ident_path "cfg") (Metas [MetaPath (ident_path "test")]);
                handler_attr ["message"%string] (binding "Clear")] Inherited (sample_sig false "clear" [] RDefault) 3);
     IFn (mkFn [handler_attr ["supervision"%string]
                  (PTupleStruct [] None (mkPath false [("SupervisionEvent"%string, NoArguments); ("ActorStarted"%string, NoArguments)]) [binding "child"])]
            Inherited (sample_sig false "started" [("child"%string, ty_ident "ActorCell")] RDefault) 4)].
Definition sample_render (p : Path) : string := foldr (λ s r, s +:+ "::" +:+ r) ""%string (idents p).
Definition sample_expansion : res Expansion := Eval vm_compute in expand_actor sample_render false (Err "") sample_config sample_impl.
Definition sample_out : Expansion := Eval vm_compute in
  match sample_expansion with Ok out => out | _ => mkExpansion None None (mkTraitImpl [] false [] (ident_path "") unit_type unit_type unit_type unit_type []) end.



Lemma supervision_dispatched_witness :
  let ret (_ : string) (_ : list (Arg nat)) := Plain 0 in
  run_supervision ret (λ _, true) (supervision_arms sample_out) (mkValue "ActorFailed" (XTuple [1; 2])) =
    default_supervision (mkValue "ActorFailed" (XTuple [1; 2])) ∧
  ∃ m label ps args, IFn m ∈ items sample_impl ∧ IFn (strip sample_ractor m) ∈ inherent_methods sample_out ∧
    compiled (λ _, true) (attrs (strip sample_ractor m)) = true ∧ typed_parameters (sig (strip sample_ractor m)) label = Ok ps ∧
    Forall2 (receives (λ _ _, True) unit_type [("child"%string, 7)]) ps args ∧
    run_supervision ret (λ _, true) (supervision_arms sample_out) (mkValue "ActorStarted" (XTuple [7])) =
      ([Call (ident (sig (strip sample_ractor m))) args],
       if returns_unit (output (sig (strip sample_ractor m))) then Done else try_result (ret (ident (sig (strip sample_ractor m))) args)).
Proof.
  intros ret.
  assert (∀ arm, arm ∈ supervision_arms sample_out → NoDup (bound_names (arm_pattern arm))) as Hn.
  { intros arm Harm. vm_compute in Harm. apply elem_of_cons in Harm as [->|Harm]; [|by apply not_elem_of_nil in Harm].
    vm_compute. repeat constructor; set_solver. }
  split.
  - exact (supervision_dispatched ret sample_render false (Err "") sample_config sample_impl sample_out (λ _, true)
      (mkValue "ActorFailed" (XTuple [1; 2])) ltac:(by vm_compute) Hn).
  - exact (supervision_dispatched ret sample_render false (Err "") sample_config sample_impl sample_out (λ _, true)
      (mkValue "ActorStarted" (XTuple [7])) ltac:(by vm_compute) Hn).
Defined.
