(* ===== verification/Philosophers.v ===== *)
(** The dining philosophers (src/ractor/examples/philosophers.rs): forks and philosophers as actors that only
    exchange messages, after Chandy and Misra.

    Handlers are translated as they are, with their 16-bit counters.  The table runs them in any interleaving: a
    mailbox is a queue, the messages that a handler casts leave one by one, and other actors may run in between;
    timers fire at any time after they are due; actors may be stopped, and stop when their handler panics.  Time
    is in the unit of the timers, and a handler reads the clock once. *)

From S2P Require Import Prelude.

(** ** Forks *)

Inductive ForkMessage :=
| RequestFork (who : nat)
| UsingFork (who : nat)
| PutForkDown (who : nat).

Inductive PhilosopherMessage :=
| StopEating (state_id : Z)
| BecomeHungry (state_id : Z)
| GiveUpFork (fork : nat)
| ReceiveFork (fork : nat)
| SendMetrics (reply : nat).

#[global] Instance ForkMessage_eq_dec : EqDecision ForkMessage.
Proof. solve_decision. Defined.
#[global] Instance PhilosopherMessage_eq_dec : EqDecision PhilosopherMessage.
Proof. solve_decision. Defined.

Record PhilosopherMetrics := mkMetrics {
  state_change_count : Z;
  failed_to_eat : Z;
  time_thinking : N;
  time_hungry : N;
  time_eating : N
}.
#[global] Instance PhilosopherMetrics_eq_dec : EqDecision PhilosopherMetrics.
Proof. solve_decision. Defined.

(** What a handler does to the rest of the table *)
Inductive Out :=
| ToFork (f : nat) (m : ForkMessage)
| ToPhilosopher (p : nat) (m : PhilosopherMessage)
| SendAfter (period : N) (m : PhilosopherMessage)
| ReplyMetrics (reply : nat) (metrics : PhilosopherMetrics).
#[global] Instance Out_eq_dec : EqDecision Out.
Proof. solve_decision. Defined.

Record ForkState := mkFork { clean : bool; owned_by : option nat; backlog : list ForkMessage }.

(** [Fork::handle_internal]: the message if it was not handled, the state and what was sent.  Messages about a fork
    from a philosopher who does not own it are only logged. *)
Definition handle_internal (myself : nat) (message : ForkMessage) (s : ForkState) : option ForkMessage * ForkState * list Out :=
  match message with
  | RequestFork who =>
      match owned_by s with
      | Some owner => (Some message, s, if clean s then [] else [ToPhilosopher owner (GiveUpFork myself)])
      | None => (None, mkFork (clean s) (Some who) (backlog s), [ToPhilosopher who (ReceiveFork myself)])
      end
  | UsingFork who =>
      if bool_decide (owned_by s = Some who) then (None, mkFork false (owned_by s) (backlog s), []) else (None, s, [])
  | PutForkDown who =>
      if bool_decide (owned_by s = Some who) then (None, mkFork true None (backlog s), []) else (None, s, [])
  end.

Definition set_backlog (l : list ForkMessage) (s : ForkState) : ForkState := mkFork (clean s) (owned_by s) l.

(** [while !state.backlog.is_empty() && maybe_unhandled.is_none()], on the messages of the backlog; the first one
    that is not handled goes back to the front. *)
Fixpoint drain_backlog (myself : nat) (l : list ForkMessage) (s : ForkState) : ForkState * list Out :=
  match l with
  | [] => (set_backlog [] s, [])
  | head :: l =>
      match handle_internal myself head s with
      | (None, s, out) => let '(s, out') := drain_backlog myself l s in (s, out ++ out')
      | (Some msg, s, out) => (set_backlog (msg :: l) s, out)
      end
  end.

(** [<Fork as Actor>::handle] *)
Definition fork_handle (myself : nat) (message : ForkMessage) (s : ForkState) : ForkState * list Out :=
  match handle_internal myself message s with
  | (Some message, s, out) => (set_backlog (backlog s ++ [message]) s, out)
  | (None, s, out) => let '(s, out') := drain_backlog myself (backlog s) s in (s, out ++ out')
  end.

Definition fork_start : ForkState := mkFork false None [].

(** ** Philosophers *)

Inductive PhilosopherMode := Thinking | Hungry | Eating.
#[global] Instance PhilosopherMode_eq_dec : EqDecision PhilosopherMode.
Proof. solve_decision. Defined.

Record PhilosophersFork := mkPF { fork : nat; has : bool; requested : bool }.

Record PhilosopherState := mkPhil {
  mode : PhilosopherMode;
  left : PhilosophersFork;
  right : PhilosophersFork;
  last_state_change : N;
  metrics : PhilosopherMetrics;
  time_slice : N
}.

(** [PhilosopherState::new] *)
Definition philosopher_new (left right : nat) (slice now : N) : PhilosopherState :=
  mkPhil Thinking (mkPF left false false) (mkPF right false false) now (mkMetrics 0 0 0 0 0) slice.

Section philosopher.
(** Whether [+] on integers is checked, which it is unless the program is built for release *)
Context (overflow_checks : bool).

Abbreviation PM := (M (PhilosopherState * list Out)).

Definition tell (o : Out) : PM unit := modify (λ '(s, out), (s, out ++ [o])).
Definition upd (f : PhilosopherState → PhilosopherState) : PM unit := modify (λ '(s, out), (f s, out)).
Definition ask {A} (f : PhilosopherState → A) : PM A := gets (λ s, f s.1).

(** [+= 1] on a [u16] *)
Definition incr16 (x : Z) : PM Z :=
  if bool_decide (x = 65535%Z) then if overflow_checks then panic else mret 0%Z else mret (x + 1)%Z.

Definition set_mode (m : PhilosopherMode) (s : PhilosopherState) : PhilosopherState :=
  mkPhil m (left s) (right s) (last_state_change s) (metrics s) (time_slice s).
Definition set_left (l : PhilosophersFork) (s : PhilosopherState) : PhilosopherState :=
  mkPhil (mode s) l (right s) (last_state_change s) (metrics s) (time_slice s).
Definition set_right (r : PhilosophersFork) (s : PhilosopherState) : PhilosopherState :=
  mkPhil (mode s) (left s) r (last_state_change s) (metrics s) (time_slice s).
Definition set_metrics (m : PhilosopherMetrics) (s : PhilosopherState) : PhilosopherState :=
  mkPhil (mode s) (left s) (right s) (last_state_change s) m (time_slice s).
Definition set_last (t : N) (s : PhilosopherState) : PhilosopherState :=
  mkPhil (mode s) (left s) (right s) t (metrics s) (time_slice s).

(** [Instant::elapsed], which saturates at zero *)
Definition elapsed (now : N) (s : PhilosopherState) : N := (now - last_state_change s)%N.

Definition count_change : PM unit :=
  m ← ask metrics;
  c ← incr16 (state_change_count m);
  upd (set_metrics (mkMetrics c (failed_to_eat m) (time_thinking m) (time_hungry m) (time_eating m))).
Definition count_failure : PM unit :=
  m ← ask metrics;
  c ← incr16 (failed_to_eat m);
  upd (set_metrics (mkMetrics (state_change_count m) c (time_thinking m) (time_hungry m) (time_eating m))).
Definition add_thinking (now : N) (s : PhilosopherState) : PhilosopherState :=
  let m := metrics s in
  set_metrics (mkMetrics (state_change_count m) (failed_to_eat m) (time_thinking m + elapsed now s) (time_hungry m) (time_eating m)) s.
Definition add_hungry (now : N) (s : PhilosopherState) : PhilosopherState :=
  let m := metrics s in
  set_metrics (mkMetrics (state_change_count m) (failed_to_eat m) (time_thinking m) (time_hungry m + elapsed now s) (time_eating m)) s.
Definition add_eating (now : N) (s : PhilosopherState) : PhilosopherState :=
  let m := metrics s in
  set_metrics (mkMetrics (state_change_count m) (failed_to_eat m) (time_thinking m) (time_hungry m) (time_eating m + elapsed now s)) s.

Definition begin_thinking (now : N) : PM unit :=
  upd (set_mode Thinking) ;;
  count_change ;;
  upd (add_eating now) ;;
  upd (set_last now) ;;
  s ← ask id;
  tell (SendAfter (time_slice s) (BecomeHungry (state_change_count (metrics s)))).

Definition begin_eating (myself : nat) (now : N) : PM unit :=
  upd (add_hungry now) ;;
  upd (set_last now) ;;
  upd (set_mode Eating) ;;
  count_change ;;
  s ← ask id;
  tell (ToFork (fork (left s)) (UsingFork myself)) ;;
  tell (ToFork (fork (right s)) (UsingFork myself)) ;;
  tell (SendAfter (time_slice s) (StopEating (state_change_count (metrics s)))).

Definition request_missing_forks (myself : nat) : PM unit :=
  l ← ask left;
  when (negb (has l) && negb (requested l))
    (upd (set_left (mkPF (fork l) (has l) true)) ;;
     tell (ToFork (fork l) (RequestFork myself))) ;;
  r ← ask right;
  when (negb (has r) && negb (requested r))
    (upd (set_right (mkPF (fork r) (has r) true)) ;;
     tell (ToFork (fork r) (RequestFork myself))).

(** The arms of [<Philosopher as Actor>::handle] *)
Definition become_hungry (myself : nat) (now : N) (state_id : Z) : PM unit :=
  s ← ask id;
  when (bool_decide (state_change_count (metrics s) = state_id))
    (if has (left s) && has (right s) then begin_eating myself now
     else
       match mode s with
       | Thinking =>
           upd (add_thinking now) ;;
           upd (set_last now) ;;
           upd (set_mode Hungry) ;;
           count_change ;;
           request_missing_forks myself
       | Hungry | Eating => mret tt
       end).

Definition give_up_fork (myself : nat) (now : N) (f : nat) : PM unit :=
  s ← ask id;
  (if bool_decide (fork (left s) = f) then
     when (has (left s))
       (upd (set_left (mkPF (fork (left s)) false (requested (left s)))) ;;
        tell (ToFork (fork (left s)) (PutForkDown myself)))
   else if bool_decide (fork (right s) = f) then
     when (has (right s))
       (upd (set_right (mkPF (fork (right s)) false (requested (right s)))) ;;
        tell (ToFork (fork (right s)) (PutForkDown myself)))
   else mret tt) ;;
  match mode s with
  | Hungry => count_failure ;; begin_thinking now
  | Eating => begin_thinking now
  | Thinking => mret tt
  end.

Definition receive_fork (myself : nat) (now : N) (f : nat) : PM unit :=
  s ← ask id;
  (if bool_decide (fork (left s) = f) then upd (set_left (mkPF (fork (left s)) true false))
   else if bool_decide (fork (right s) = f) then upd (set_right (mkPF (fork (right s)) true false))
   else mret tt) ;;
  s ← ask id;
  when (has (left s) && has (right s)) (begin_eating myself now).

(** [<Philosopher as Actor>::handle] *)
Definition philosopher_handle (myself : nat) (now : N) (message : PhilosopherMessage) : PM unit :=
  match message with
  | SendMetrics reply => m ← ask metrics; tell (ReplyMetrics reply m)
  | StopEating state_id =>
      s ← ask id;
      when (bool_decide (state_change_count (metrics s) = state_id) && bool_decide (mode s = Eating)) (begin_thinking now)
  | BecomeHungry state_id => become_hungry myself now state_id
  | GiveUpFork f => give_up_fork myself now f
  | ReceiveFork f => receive_fork myself now f
  end.
End philosopher.

(** ** The table *)

Section table.
Context (overflow_checks : bool).

(** Forks and philosophers are numbered apart.  [f_out] and [p_out] are the casts of a handler that have not left
    yet; an actor takes its next message when there are none. *)
Record World := mkWorld {
  forks : nat → ForkState;
  phils : nat → PhilosopherState;
  f_alive : nat → bool;
  p_alive : nat → bool;
  fq : nat → list ForkMessage;
  pq : nat → list PhilosopherMessage;
  f_out : nat → list Out;
  p_out : nat → list Out;
  timers : list (N * nat * PhilosopherMessage);
  clock : N
}.

Definition set {A} (k : nat) (a : A) (f : nat → A) : nat → A := λ x, if x =? k then a else f x.

(** [main]: the fork to the right of a philosopher is that of the philosopher before *)
Definition right_of (n p : nat) : nat := if p =? 0 then n - 1 else p - 1.

(** The table when [main] has spawned everyone: every philosopher has sent [BecomeHungry] to itself. *)
Definition table (n : nat) (slice : N) : World :=
  mkWorld (λ _, fork_start) (λ p, philosopher_new p (right_of n p) slice 0) (λ f, f <? n) (λ p, p <? n)
    (λ _, []) (λ p, if p <? n then [BecomeHungry 0] else []) (λ _, []) (λ _, []) [] 0.

(** Casts to actors that have stopped fail, which the senders ignore. *)
Definition send_fork (f : nat) (m : ForkMessage) (w : World) : World :=
  if f_alive w f then
    mkWorld (forks w) (phils w) (f_alive w) (p_alive w) (set f (fq w f ++ [m]) (fq w)) (pq w) (f_out w) (p_out w) (timers w) (clock w)
  else w.
Definition send_philosopher (p : nat) (m : PhilosopherMessage) (w : World) : World :=
  if p_alive w p then
    mkWorld (forks w) (phils w) (f_alive w) (p_alive w) (fq w) (set p (pq w p ++ [m]) (pq w)) (f_out w) (p_out w) (timers w) (clock w)
  else w.
Definition set_timers (l : list (N * nat * PhilosopherMessage)) (w : World) : World :=
  mkWorld (forks w) (phils w) (f_alive w) (p_alive w) (fq w) (pq w) (f_out w) (p_out w) l (clock w).

(** A cast leaves; [who] is the philosopher for whom a timer is started. *)
Definition emit (who : nat) (o : Out) (w : World) : World :=
  match o with
  | ToFork f m => send_fork f m w
  | ToPhilosopher p m => send_philosopher p m w
  | SendAfter period m => set_timers (timers w ++ [((clock w + period)%N, who, m)]) w
  | ReplyMetrics _ _ => w
  end.

Definition set_fork (f : nat) (s : ForkState) (q : list ForkMessage) (out : list Out) (w : World) : World :=
  mkWorld (set f s (forks w)) (phils w) (f_alive w) (p_alive w) (set f q (fq w)) (pq w) (set f out (f_out w)) (p_out w) (timers w) (clock w).
Definition set_philosopher (p : nat) (s : PhilosopherState) (alive : bool) (q : list PhilosopherMessage) (out : list Out) (w : World) : World :=
  mkWorld (forks w) (set p s (phils w)) (f_alive w) (set p alive (p_alive w)) (fq w) (set p q (pq w)) (f_out w) (set p out (p_out w)) (timers w) (clock w).

Inductive Event :=
| HandleFork (f : nat)
| HandlePhilosopher (p : nat)
| EmitFork (f : nat)
| EmitPhilosopher (p : nat)
| Fire (k : nat)
| Tick (d : N)
| AskMetrics (p reply : nat)
| StopFork (f : nat)
| StopPhilosopher (p : nat).

Definition step (e : Event) (w : World) : World :=
  match e with
  | HandleFork f =>
      match f_alive w f, f_out w f, fq w f with
      | true, [], m :: q => let '(s, out) := fork_handle f m (forks w f) in set_fork f s q out w
      | _, _, _ => w
      end
  | HandlePhilosopher p =>
      match p_alive w p, p_out w p, pq w p with
      | true, [], m :: q =>
          match philosopher_handle overflow_checks p (clock w) m (phils w p, []) with
          | (Ok _, (s, out)) => set_philosopher p s true q out w
          | (_, (s, out)) => set_philosopher p s false [] out w
          end
      | _, _, _ => w
      end
  | EmitFork f =>
      match f_out w f with
      | o :: out =>
          emit f o (mkWorld (forks w) (phils w) (f_alive w) (p_alive w) (fq w) (pq w) (set f out (f_out w)) (p_out w) (timers w) (clock w))
      | [] => w
      end
  | EmitPhilosopher p =>
      match p_out w p with
      | o :: out =>
          emit p o (mkWorld (forks w) (phils w) (f_alive w) (p_alive w) (fq w) (pq w) (f_out w) (set p out (p_out w)) (timers w) (clock w))
      | [] => w
      end
  | Fire k =>
      match timers w !! k with
      | Some (due, p, m) => if (due <=? clock w)%N then send_philosopher p m (set_timers (delete k (timers w)) w) else w
      | None => w
      end
  | Tick d => mkWorld (forks w) (phils w) (f_alive w) (p_alive w) (fq w) (pq w) (f_out w) (p_out w) (timers w) (clock w + d)%N
  | AskMetrics p reply => send_philosopher p (SendMetrics reply) w
  | StopFork f =>
      match f_out w f with
      | [] => mkWorld (forks w) (phils w) (set f false (f_alive w)) (p_alive w) (set f [] (fq w)) (pq w) (f_out w) (p_out w) (timers w) (clock w)
      | _ => w
      end
  | StopPhilosopher p =>
      match p_out w p with
      | [] => set_philosopher p (phils w p) false [] [] w
      | _ => w
      end
  end.

Fixpoint run (l : list Event) (w : World) : World :=
  match l with [] => w | e :: l => run l (step e w) end.

(** ** Ownership *)

Definition b2n (b : bool) : nat := if b then 1 else 0.

(** Whether a philosopher has the fork [f] *)
Definition holds (f : nat) (s : PhilosopherState) : nat :=
  b2n (bool_decide (fork (left s) = f) && has (left s)) + b2n (bool_decide (fork (right s) = f) && has (right s)).

Abbreviation count m := (countb (λ x, bool_decide (x = m))).

(** Where the right of [p] to use the fork [f] is: on its way to [p], with [p], or on its way back *)
Definition token (f p : nat) (w : World) : nat :=
  count (ToPhilosopher p (ReceiveFork f)) (f_out w f) + count (ReceiveFork f) (pq w p)
  + holds f (phils w p)
  + count (ToFork f (PutForkDown p)) (p_out w p) + count (PutForkDown p) (fq w f).

(** What a fork and a philosopher send *)
Definition fork_sends (f : nat) (o : Out) : Prop :=
  match o with ToPhilosopher _ (ReceiveFork g | GiveUpFork g) => g = f | _ => False end.
Definition philosopher_sends (p : nat) (o : Out) : Prop :=
  match o with
  | ToFork _ (RequestFork q | UsingFork q | PutForkDown q) => q = p
  | ToPhilosopher _ _ => False
  | SendAfter _ (StopEating _ | BecomeHungry _) => True
  | SendAfter _ _ => False
  | ReplyMetrics _ _ => True
  end.

Record inv (n : nat) (w : World) : Prop := {
  inv_seats p : fork (left (phils w p)) = p ∧ fork (right (phils w p)) = right_of n p;
  inv_token f p : token f p w ≤ b2n (bool_decide (owned_by (forks w f) = Some p));
  inv_eating p : p_alive w p = true → mode (phils w p) = Eating → has (left (phils w p)) = true ∧ has (right (phils w p)) = true;
  inv_f_out f : Forall (fork_sends f) (f_out w f);
  inv_p_out p : Forall (philosopher_sends p) (p_out w p);
  inv_backlog f : Forall (λ m, ∃ p, m = RequestFork p) (backlog (forks w f));
  inv_timers : Forall (λ t, ∃ c, t.2 = StopEating c ∨ t.2 = BecomeHungry c) (timers w)
}.
(** *** Handlers of forks *)

Definition owns (p : nat) (s : ForkState) : nat := b2n (bool_decide (owned_by s = Some p)).

(** Tokens [t] elsewhere and those that a handler sends, against the ownership of the fork *)
Definition fork_accounts (f : nat) (s : ForkState) (m : option ForkMessage) (s' : ForkState) (out : list Out) : Prop :=
  (∀ t : nat → nat, (∀ p, t p + b2n (bool_decide (m = Some (PutForkDown p))) ≤ owns p s) →
     ∀ p, t p + count (ToPhilosopher p (ReceiveFork f)) out ≤ owns p s') ∧
  Forall (fork_sends f) out.

Lemma handle_internal_accounts f m s r s' out :
  handle_internal f m s = (r, s', out) →
  fork_accounts f s (Some m) s' out ∧ backlog s' = backlog s ∧ (∀ m', r = Some m' → m' = m ∧ ∃ p, m = RequestFork p).
Proof.
  unfold handle_internal, fork_accounts, owns. destruct m as [who|who|who].
  - destruct (owned_by s) as [owner|] eqn:E; intros [= <- <- <-]; simpl.
    + split_and!; [|by destruct (clean s); repeat constructor|done|intros m' [= <-]; by eauto].
      intros t Ht p. specialize (Ht p). rewrite E. destruct (clean s); simpl; repeat case_bool_decide; simplify_eq; simpl in *; lia.
    + split_and!; [|by repeat constructor|done|done]. intros t Ht p. specialize (Ht p). repeat case_bool_decide; simplify_eq; simpl in *; lia.
  - case_bool_decide as E; intros [= <- <- <-]; simpl; (split_and!; [|by repeat constructor|done|done]);
      intros t Ht p; specialize (Ht p); repeat case_bool_decide; simplify_eq; simpl in *; lia.
  - case_bool_decide as E; intros [= <- <- <-]; simpl; (split_and!; [|by repeat constructor|done|done]);
      intros t Ht p; specialize (Ht p); repeat case_bool_decide; simplify_eq; simpl in *; try lia; congruence.
Qed.

Lemma fork_accounts_trans f s1 m s2 s3 out1 out2 :
  fork_accounts f s1 m s2 out1 → fork_accounts f s2 None s3 out2 → fork_accounts f s1 m s3 (out1 ++ out2).
Proof.
  intros [A1 B1] [A2 B2]. split; [|by apply Forall_app]. intros t Ht p. rewrite countb_app.
  specialize (A2 (λ p, t p + count (ToPhilosopher p (ReceiveFork f)) out1)). cbn beta in A2. rewrite Nat.add_assoc. apply A2.
  intros q. rewrite bool_decide_false by done. simpl. rewrite Nat.add_0_r. by apply A1.
Qed.

Lemma drain_backlog_accounts f l s s' out :
  Forall (λ m, ∃ p, m = RequestFork p) l → drain_backlog f l s = (s', out) →
  fork_accounts f s None s' out ∧ Forall (λ m, ∃ p, m = RequestFork p) (backlog s').
Proof.
  revert s out. induction l as [|m l IH]; intros s out Hl; cbn [drain_backlog].
  { intros [= <- <-]. split; [|constructor]. split; [|constructor]. intros t Ht p. specialize (Ht p). simpl in *. unfold owns in *. simpl. lia. }
  apply Forall_cons in Hl as [[q ->] Hl]. destruct (handle_internal f (RequestFork q) s) as [[r s1] out1] eqn:E.
  apply handle_internal_accounts in E as ([A B] & Hb & Hr). destruct r as [m'|].
  - destruct (Hr m' eq_refl) as [-> _]. intros [= <- <-]. split; [|constructor; [by eauto|done]]. split; [|done].
    intros t Ht p. apply (A t). intros p'. specialize (Ht p'). rewrite bool_decide_false in * by done. done.
  - destruct (drain_backlog f l s1) as [s2 out2] eqn:E2. intros [= <- <-]. destruct (IH _ _ Hl E2) as [C D]. split; [|done].
    eapply fork_accounts_trans; [|exact C]. split; [|done]. intros t Ht p. apply (A t).
    intros p'. specialize (Ht p'). rewrite bool_decide_false in * by done. done.
Qed.

Lemma fork_handle_accounts f m s s' out :
  Forall (λ m, ∃ p, m = RequestFork p) (backlog s) → fork_handle f m s = (s', out) →
  fork_accounts f s (Some m) s' out ∧ Forall (λ m, ∃ p, m = RequestFork p) (backlog s').
Proof.
  intros Hl. unfold fork_handle. destruct (handle_internal f m s) as [[r s1] out1] eqn:E.
  apply handle_internal_accounts in E as (A & Hb & Hr). destruct r as [m'|].
  - destruct (Hr m' eq_refl) as [-> [q ->]]. intros [= <- <-]. split; [done|]. simpl. rewrite Hb. apply Forall_app. split; [done|].
    constructor; [by eauto|done].
  - rewrite <-Hb in Hl. destruct (drain_backlog f (backlog s1) s1) as [s2 out2] eqn:E2. intros [= <- <-].
    destruct (drain_backlog_accounts _ _ _ _ _ Hl E2) as [C D]. split; [|done]. by eapply fork_accounts_trans.
Qed.

(** *** Handlers of philosophers *)

(** A part of a handler that neither takes nor puts down a fork *)
Record quiet (p : nat) (s s' : PhilosopherState) (out out' : list Out) : Prop := {
  q_left : fork (left s') = fork (left s) ∧ has (left s') = has (left s);
  q_right : fork (right s') = fork (right s) ∧ has (right s') = has (right s);
  q_out : ∃ l, out' = out ++ l ∧ Forall (philosopher_sends p) l ∧ ∀ f, count (ToFork f (PutForkDown p)) l = 0
}.

Lemma quiet_refl p s out : quiet p s s out out.
Proof. split; [done|done|]. exists []. by rewrite app_nil_r. Qed.

Lemma incr16_cases x st : (∃ c, incr16 overflow_checks x st = (Ok c, st)) ∨ incr16 overflow_checks x st = (Panic, st).
Proof. unfold incr16. destruct (bool_decide _), overflow_checks; by eauto. Qed.

(** Runs a handler symbolically, with both outcomes of the counters. *)
Ltac run_handler :=
  unfold mbind, M_bind, mret, M_ret, ask, upd, tell, gets, modify, when; cbn -[incr16 countb];
  repeat match goal with
  | |- context [incr16 overflow_checks ?x ?st] => destruct (incr16_cases x st) as [[? ->]| ->]; cbn -[incr16 countb]
  end.

Lemma begin_thinking_quiet p now s out :
  let '(r, (s', out')) := begin_thinking overflow_checks now (s, out) in quiet p s s' out out' ∧ mode s' = Thinking.
Proof.
  unfold begin_thinking, count_change. run_handler; (split; [split; [done|done|]|done]).
  - eexists. split; [done|]. split; [by repeat constructor|done].
  - exists []. by rewrite app_nil_r.
Qed.

Lemma begin_eating_quiet p now s out :
  let '(r, (s', out')) := begin_eating overflow_checks p now (s, out) in quiet p s s' out out' ∧ mode s' = Eating.
Proof.
  unfold begin_eating, count_change. run_handler; (split; [split; [done|done|]|done]).
  - eexists. rewrite <-!app_assoc. split; [done|]. split; [by repeat constructor|]. intros f. simpl. by repeat rewrite bool_decide_false by done.
  - exists []. by rewrite app_nil_r.
Qed.

Lemma request_missing_quiet p s out :
  let '(r, (s', out')) := request_missing_forks p (s, out) in quiet p s s' out out' ∧ mode s' = mode s.
Proof.
  unfold request_missing_forks. destruct s as [md [lf lh lr] [rf rh rr] lst mt sl].
  destruct lh, lr, rh, rr; run_handler; (split; [split; [done|done|]|done]); rewrite <-?app_assoc;
    first [exists []; by rewrite app_nil_r|eexists; split; [done|split; [by repeat constructor|]]];
    intros f; simpl; by repeat rewrite bool_decide_false by done.
Qed.

Lemma table_quiet_trans p s1 s2 s3 o1 o2 o3 : quiet p s1 s2 o1 o2 → quiet p s2 s3 o2 o3 → quiet p s1 s3 o1 o3.
Proof.
  intros [[A1 A2] [A3 A4] (l & -> & Hl & Cl)] [[B1 B2] [B3 B4] (k & -> & Hk & Ck)].
  split; [split; congruence..|]. exists (l ++ k). rewrite app_assoc. split; [done|]. split; [by apply Forall_app|].
  intros f. by rewrite countb_app, Cl, Ck.
Qed.

(** What the message [m] does to the forks of a philosopher *)
Record handles (p : nat) (m : PhilosopherMessage) (s s' : PhilosopherState) (out : list Out) : Prop := {
  hd_left : fork (left s') = fork (left s);
  hd_right : fork (right s') = fork (right s);
  hd_out : Forall (philosopher_sends p) out;
  hd_token f : holds f s' + count (ToFork f (PutForkDown p)) out ≤ holds f s + b2n (bool_decide (m = ReceiveFork f));
  hd_eating : (mode s = Eating → has (left s) = true ∧ has (right s) = true) →
              mode s' = Eating → has (left s') = true ∧ has (right s') = true
}.

(** A handler that first changes [has], and then is quiet; it eats in the end only with both forks *)
Lemma handles_quiet p m s s1 s' out1 out :
  quiet p s1 s' out1 out → fork (left s1) = fork (left s) → fork (right s1) = fork (right s) → Forall (philosopher_sends p) out1 →
  (∀ f, holds f s1 + count (ToFork f (PutForkDown p)) out1 ≤ holds f s + b2n (bool_decide (m = ReceiveFork f))) →
  (mode s' = Eating → (mode s = Eating → has (left s) = true ∧ has (right s) = true) → has (left s1) = true ∧ has (right s1) = true) →
  handles p m s s' out.
Proof.
  intros [[A1 A2] [A3 A4] (l & -> & Hl & Cl)] Hf1 Hf2 Ho Ht He. split; [congruence|congruence|by apply Forall_app| |].
  - intros f. rewrite countb_app, Cl, Nat.add_0_r. specialize (Ht f). unfold holds in *. rewrite A1, A2, A3, A4. done.
  - intros Hs Hs'. rewrite A2, A4. by apply He.
Qed.

Lemma handles_only_quiet p m s s' out :
  quiet p s s' [] out → (mode s' = Eating → mode s = Eating ∨ has (left s) = true ∧ has (right s) = true) → handles p m s s' out.
Proof. intros Hq He. eapply handles_quiet; [exact Hq|done|done|constructor|intros f; simpl; lia|]. intros H1 H2. destruct (He H1); auto. Qed.

Lemma hungry_handles p now c s r s' out :
  become_hungry overflow_checks p now c (s, []) = (r, (s', out)) → handles p (BecomeHungry c) s s' out.
Proof.
  unfold become_hungry, ask at 1. rewrite bind_gets. cbn [fst id]. unfold when. case_bool_decide as Ec.
  2: { intros [= <- <- <-]. apply handles_only_quiet; [apply quiet_refl|by left]. }
  destruct (has (left s) && has (right s)) eqn:Eh.
  { intros E. pose proof (begin_eating_quiet p now s []) as H. rewrite E in H. destruct H as [Hq _].
    apply handles_only_quiet; [done|]. intros _. right. by apply andb_true_iff in Eh. }
  destruct (mode s) eqn:Em; [|intros [= <- <- <-]; apply handles_only_quiet; [apply quiet_refl|by left]..].
  pose proof (request_missing_quiet p) as Hr. revert Hr. unfold count_change. run_handler.
  - intros Hr E. match type of E with request_missing_forks _ (?s1, _) = _ => specialize (Hr s1 []) end.
    rewrite E in Hr. destruct Hr as [Hq Hm]. apply handles_only_quiet; [|by rewrite Hm].
    eapply table_quiet_trans; [|exact Hq]. split; [done|done|]. by exists [].
  - intros _ [= <- <- <-]. apply handles_only_quiet; [|done]. split; [done|done|]. by exists [].
Qed.

(** The state and the casts of [give_up_fork] once the fork is down, before the change of mode *)
Definition put_down (p f : nat) (s : PhilosopherState) : PhilosopherState * list Out :=
  if bool_decide (fork (left s) = f) then
    if has (left s) then (set_left (mkPF (fork (left s)) false (requested (left s))) s, [ToFork (fork (left s)) (PutForkDown p)]) else (s, [])
  else if bool_decide (fork (right s) = f) then
    if has (right s) then (set_right (mkPF (fork (right s)) false (requested (right s))) s, [ToFork (fork (right s)) (PutForkDown p)]) else (s, [])
  else (s, []).

Lemma give_up_split p now f s :
  give_up_fork overflow_checks p now f (s, []) =
    match mode s with
    | Hungry => (count_failure overflow_checks ;; begin_thinking overflow_checks now) (put_down p f s)
    | Eating => begin_thinking overflow_checks now (put_down p f s)
    | Thinking => (Ok tt, put_down p f s)
    end.
Proof.
  unfold give_up_fork, put_down, mbind, M_bind, mret, M_ret, ask, upd, tell, gets, modify, when. cbn -[count_failure begin_thinking].
  destruct (bool_decide (fork (left s) = f)), (bool_decide (fork (right s) = f)), (has (left s)), (has (right s)), (mode s); reflexivity.
Qed.

Lemma put_down_spec p f s s1 out1 :
  put_down p f s = (s1, out1) →
  fork (left s1) = fork (left s) ∧ fork (right s1) = fork (right s) ∧ mode s1 = mode s ∧ Forall (philosopher_sends p) out1 ∧
  ∀ g, holds g s1 + count (ToFork g (PutForkDown p)) out1 = holds g s.
Proof.
  unfold put_down, holds. destruct s as [md [lf lh lr] [rf rh rr] lst mt sl]. cbn [left right fork has requested].
  repeat case_bool_decide; destruct lh, rh; intros [= <- <-]; cbn; (split_and!; [done|done|done|by repeat constructor|]);
    intros g; simpl; repeat case_bool_decide; simplify_eq; simpl; lia.
Qed.

Lemma failure_quiet p now s out :
  let '(r, (s', out')) := (count_failure overflow_checks ;; begin_thinking overflow_checks now) (s, out) in
  quiet p s s' out out' ∧ mode s' ≠ Eating ∨ quiet p s s' out out' ∧ mode s' = mode s.
Proof.
  pose proof (begin_thinking_quiet p now) as H. unfold count_failure. run_handler.
  - match goal with |- context [begin_thinking _ _ ?st] => specialize (H st.1 st.2); cbn [fst snd] in H end.
    destruct (begin_thinking _ _ _) as [r [s' out']]. destruct H as [Hq Hm]. left. split; [|congruence].
    eapply table_quiet_trans; [|exact Hq]. split; [done|done|]. exists []. by rewrite app_nil_r.
  - right. split; [apply quiet_refl|done].
Qed.

Lemma give_up_handles p now f s r s' out :
  give_up_fork overflow_checks p now f (s, []) = (r, (s', out)) → handles p (GiveUpFork f) s s' out.
Proof.
  rewrite give_up_split. destruct (put_down p f s) as [s1 out1] eqn:E1. intros E.
  apply put_down_spec in E1 as (H1 & H2 & H3 & H4 & H5).
  assert (quiet p s1 s' out1 out ∧ mode s' ≠ Eating) as [Hq Hm].
  { pose proof (begin_thinking_quiet p now s1 out1) as A. pose proof (failure_quiet p now s1 out1) as B. destruct (mode s).
    - injection E as <- <- <-. split; [apply quiet_refl|congruence].
    - rewrite E in B. destruct B as [B|[Bq Bm]]; [done|split; [done|congruence]].
    - rewrite E in A. destruct A. split; [done|congruence]. }
  eapply handles_quiet; [exact Hq|done..| |done]. intros g. rewrite H5. lia.
Qed.

Lemma receive_handles p now f s r s' out :
  receive_fork overflow_checks p now f (s, []) = (r, (s', out)) → handles p (ReceiveFork f) s s' out.
Proof.
  set (s1 := if bool_decide (fork (left s) = f) then set_left (mkPF (fork (left s)) true false) s
             else if bool_decide (fork (right s) = f) then set_right (mkPF (fork (right s)) true false) s else s).
  assert (receive_fork overflow_checks p now f (s, []) =
    when (has (left s1) && has (right s1)) (begin_eating overflow_checks p now) (s1, [])) as ->.
  { unfold receive_fork, s1, mbind, M_bind, mret, M_ret, ask, upd, tell, gets, modify. cbn -[begin_eating].
    destruct (bool_decide (fork (left s) = f)), (bool_decide (fork (right s) = f)); reflexivity. }
  intros E. assert (quiet p s1 s' [] out ∧ (mode s' = Eating → mode s1 = Eating ∨ has (left s1) = true ∧ has (right s1) = true)) as [Hq Hm].
  { unfold when in E. destruct (has (left s1) && has (right s1)) eqn:Eh.
    - pose proof (begin_eating_quiet p now s1 []) as H. rewrite E in H. destruct H. split; [done|]. right. by apply andb_true_iff.
    - injection E as <- <- <-. split; [apply quiet_refl|by left]. }
  clear E. eapply handles_quiet; [exact Hq| | |constructor| |]; clear Hq.
  - unfold s1. by repeat case_bool_decide.
  - unfold s1. by repeat case_bool_decide.
  - intros g. unfold s1, holds. repeat case_bool_decide; simplify_eq; cbn in *; simplify_eq; destruct (has (left s)), (has (right s)); simpl; try lia.
  - intros He Hs. destruct (Hm He) as [Hm'|]; [|done]. revert Hm'. unfold s1. repeat case_bool_decide; cbn; naive_solver.
Qed.

Lemma philosopher_handle_handles p now m s r s' out :
  philosopher_handle overflow_checks p now m (s, []) = (r, (s', out)) → handles p m s s' out.
Proof.
  destruct m as [c|c|f|f|reply]; cbn [philosopher_handle].
  - unfold ask. rewrite bind_gets. cbn [fst id]. unfold when. destruct (_ && _).
    + intros E. pose proof (begin_thinking_quiet p now s []) as H. rewrite E in H. destruct H as [Hq Hm].
      apply handles_only_quiet; [done|congruence].
    + intros [= <- <- <-]. apply handles_only_quiet; [apply quiet_refl|by left].
  - apply hungry_handles.
  - apply give_up_handles.
  - apply receive_handles.
  - intros [= <- <- <-]. apply handles_only_quiet; [|by left]. split; [done|done|]. eexists. split; [done|]. split; [by repeat constructor|done].
Qed.

(** *** The invariant *)

Lemma set_eq {A} k (a : A) f : set k a f k = a.
Proof. unfold set. by rewrite Nat.eqb_refl. Qed.
Lemma set_ne {A} k (a : A) f x : x ≠ k → set k a f x = f x.
Proof. unfold set. by intros ->%Nat.eqb_neq. Qed.
Lemma set_forall {A} (P : nat → A → Prop) k a f : (∀ x, P x (f x)) → P k a → ∀ x, P x (set k a f x).
Proof. intros Hf Ha x. destruct (decide (x = k)) as [->|]; [by rewrite set_eq|by rewrite set_ne]. Qed.

(** Actors are left as they are, except that some stop, and no token appears. *)
Lemma inv_weaken n w w' :
  inv n w → (∀ f, forks w' f = forks w f) → (∀ p, phils w' p = phils w p) → (∀ p, p_alive w' p = true → p_alive w p = true) →
  (∀ f p, token f p w' ≤ token f p w) →
  (∀ f, Forall (fork_sends f) (f_out w' f)) → (∀ p, Forall (philosopher_sends p) (p_out w' p)) →
  Forall (λ t, ∃ c, t.2 = StopEating c ∨ t.2 = BecomeHungry c) (timers w') → inv n w'.
Proof.
  intros [I1 I2 I3 I4 I5 I6 I7] Ef Ep Ha Ht Hf Hp Hm. split; intros; rewrite ?Ef, ?Ep in *; auto.
  etrans; [apply Ht|apply I2].
Qed.

Lemma table_inv_init n slice : inv n (table n slice).
Proof.
  split; try done.
  intros f p. unfold token, holds. simpl. repeat case_bool_decide; simpl; destruct (p <? n); simpl; repeat case_bool_decide; done.
Qed.

Lemma inv_handle_fork n f w : inv n w → inv n (step (HandleFork f) w).
Proof.
  intros I. pose proof I as [I1 I2 I3 I4 I5 I6 I7]. cbn [step].
  destruct (f_alive w f), (f_out w f) eqn:Eo, (fq w f) as [|m q] eqn:Eq; try done.
  destruct (fork_handle f m (forks w f)) as [s out] eqn:E. apply fork_handle_accounts in E as [[A B] C]; [|done].
  split; try done; cbn [set_fork forks phils p_alive f_out p_out timers].
  - intros g p. unfold token. cbn [set_fork forks phils p_alive f_out p_out fq pq].
    destruct (decide (g = f)) as [->|]; [|rewrite !set_ne by done; apply I2]. rewrite !set_eq.
    specialize (A (λ p, count (ReceiveFork f) (pq w p) + holds f (phils w p) + count (ToFork f (PutForkDown p)) (p_out w p) + count (PutForkDown p) q)).
    cbn beta in A. etrans; [|apply A]; [lia|]. intros p'. specialize (I2 f p'). unfold token in I2. rewrite Eo, Eq in I2. unfold owns. simpl in I2.
    etrans; [|exact I2]. repeat case_bool_decide; simplify_eq; simpl; lia.
  - by apply (set_forall (λ f l, Forall (fork_sends f) l)).
  - by apply (set_forall (λ f s, Forall (λ m, ∃ p, m = RequestFork p) (backlog s))).
Qed.

Lemma inv_set_philosopher n p m q s alive q' out w :
  inv n w → p_alive w p = true → p_out w p = [] → pq w p = m :: q → handles p m (phils w p) s out → q' = q ∨ q' = [] →
  inv n (set_philosopher p s alive q' out w).
Proof.
  intros [I1 I2 I3 I4 I5 I6 I7] Ea Eo Eq [H1 H2 H3 H4 H5] Hq.
  split; try done; cbn [set_philosopher forks phils p_alive f_out p_out timers].
  - apply (set_forall (λ p s, fork (left s) = p ∧ fork (right s) = right_of n p)); [done|]. rewrite H1, H2. apply I1.
  - intros f x. unfold token. cbn [set_philosopher forks phils p_alive f_out p_out fq pq].
    destruct (decide (x = p)) as [->|]; [|rewrite !set_ne by done; apply I2]. rewrite !set_eq.
    specialize (I2 f p). unfold token in I2. rewrite Eo, Eq in I2. specialize (H4 f). cbn in I2.
    assert (count (ReceiveFork f) q' ≤ count (ReceiveFork f) q) by (destruct Hq as [->| ->]; simpl; lia).
    etrans; [|exact I2]. revert H4. repeat case_bool_decide; simplify_eq; simpl; lia.
  - intros x. destruct (decide (x = p)) as [->|]; [|rewrite !set_ne by done; apply I3]. rewrite !set_eq. intros _. apply H5. by apply I3.
  - by apply (set_forall (λ p l, Forall (philosopher_sends p) l)).
Qed.

Lemma inv_handle_philosopher n p w : inv n w → inv n (step (HandlePhilosopher p) w).
Proof.
  intros I. cbn [step]. destruct (p_alive w p) eqn:Ea, (p_out w p) eqn:Eo, (pq w p) as [|m q] eqn:Eq; try done.
  destruct (philosopher_handle _ _ _ _ _) as [r [s out]] eqn:E. apply philosopher_handle_handles in E.
  destruct r; eapply inv_set_philosopher; eauto.
Qed.

Lemma inv_emit_fork n f w : inv n w → inv n (step (EmitFork f) w).
Proof.
  intros I. cbn [step]. destruct (f_out w f) as [|o out] eqn:Eo; [done|]. pose proof (inv_f_out _ _ I f) as Hf. rewrite Eo in Hf.
  apply Forall_cons in Hf as [Hs Hf]. destruct o as [| p m | |]; try done. cbn [emit]. unfold send_philosopher. cbn [p_alive].
  apply (inv_weaken n w); [done|by destruct (p_alive w p)..| | | |]; [|destruct (p_alive w p); cbn [f_out p_out timers]..].
  - intros g x. unfold token. destruct (p_alive w p); cbn [forks phils p_alive f_out p_out fq pq].
    + destruct (decide (g = f)) as [->|], (decide (x = p)) as [->|]; rewrite ?set_eq, ?set_ne by done; rewrite ?Eo, ?countb_app; simpl;
        repeat case_bool_decide; simplify_eq; simpl in *; try lia; done.
    + destruct (decide (g = f)) as [->|]; rewrite ?set_eq, ?set_ne by done; rewrite ?Eo; simpl; lia.
  - apply (set_forall (λ f l, Forall (fork_sends f) l)); [apply I|done].
  - apply (set_forall (λ f l, Forall (fork_sends f) l)); [apply I|done].
  - apply I.
  - apply I.
  - apply I.
  - apply I.
Qed.

Lemma inv_emit_philosopher n p w : inv n w → inv n (step (EmitPhilosopher p) w).
Proof.
  intros I. cbn [step]. destruct (p_out w p) as [|o out] eqn:Eo; [done|]. pose proof (inv_p_out _ _ I p) as Hp. rewrite Eo in Hp.
  apply Forall_cons in Hp as [Hs Hp].
  assert (∀ x, Forall (philosopher_sends x) (set p out (p_out w) x)) as Hp'
    by (apply (set_forall (λ p l, Forall (philosopher_sends p) l)); [apply I|done]).
  assert (∀ f x, count (ToFork f (PutForkDown x)) (set p out (p_out w) x) + b2n (bool_decide (x = p ∧ o = ToFork f (PutForkDown p)))
                 = count (ToFork f (PutForkDown x)) (p_out w x)) as Hc.
  { intros f x. destruct (decide (x = p)) as [->|]; [rewrite set_eq, Eo|rewrite set_ne by done]; simpl; repeat case_bool_decide; simpl; naive_solver lia. }
  destruct o as [f m|x m|d m|r m]; cbn [emit]; unfold send_fork, set_timers; cbn [f_alive]; [destruct (f_alive w f)|..]; try done.
  - apply (inv_weaken n w); try done; try apply I. intros g x. specialize (Hc g x). unfold token. cbn [forks phils p_alive f_out p_out fq pq].
    destruct (decide (g = f)) as [->|]; [rewrite (set_eq f), countb_app|rewrite (set_ne f) by done; lia]. simpl.
    revert Hc. repeat case_bool_decide; simpl; try lia. subst m. simpl in Hs. naive_solver.
  - apply (inv_weaken n w); try done; try apply I. intros g x. specialize (Hc g x). unfold token. cbn. lia.
  - apply (inv_weaken n w); try done; try apply I.
    + intros g x. specialize (Hc g x). unfold token. cbn. lia.
    + cbn. apply Forall_app. split; [apply I|]. constructor; [|done]. destruct m; try done; simpl; eauto.
  - apply (inv_weaken n w); try done; try apply I. intros g x. specialize (Hc g x). unfold token. cbn. lia.
Qed.

Lemma inv_send_philosopher n p m w : inv n w → (∀ f, m ≠ ReceiveFork f) → inv n (send_philosopher p m w).
Proof.
  intros I Hm. unfold send_philosopher. destruct (p_alive w p); [|done]. apply (inv_weaken n w); try done; try apply I.
  intros f x. unfold token. cbn. destruct (decide (x = p)) as [->|]; [rewrite set_eq, countb_app|by rewrite set_ne]. simpl.
  rewrite bool_decide_false by done. simpl. lia.
Qed.

Lemma table_inv_step n e w : inv n w → inv n (step e w).
Proof.
  intros I. destruct e as [f|p|f|p|k|d|p r|f|p].
  - by apply inv_handle_fork.
  - by apply inv_handle_philosopher.
  - by apply inv_emit_fork.
  - by apply inv_emit_philosopher.
  - cbn [step]. destruct (timers w !! k) as [[[due p] m]|] eqn:Ek; [|done]. destruct (due <=? clock w)%N; [|done].
    pose proof (inv_timers _ _ I) as Ht. pose proof (Forall_lookup_1 _ _ _ _ Ht Ek) as [c Hc]. cbn in Hc.
    apply inv_send_philosopher; [|by destruct Hc as [->| ->]]. apply (inv_weaken n w); try done; try apply I. by apply Forall_delete.
  - apply (inv_weaken n w); try done; apply I.
  - by apply inv_send_philosopher.
  - cbn [step]. destruct (f_out w f); [|done]. apply (inv_weaken n w); try done; try apply I.
    intros g x. unfold token. cbn. destruct (decide (g = f)) as [->|]; [rewrite set_eq; simpl; lia|by rewrite set_ne].
  - cbn [step]. destruct (p_out w p) eqn:Eo; [|done]. apply (inv_weaken n w); cbn [set_philosopher forks phils p_alive f_out p_out timers]; try done.
    + by apply (set_forall (λ x s, s = phils w x)).
    + by apply (set_forall (λ x b, b = true → p_alive w x = true)).
    + intros f x. unfold token. cbn [set_philosopher forks phils p_alive f_out p_out fq pq].
      destruct (decide (x = p)) as [->|]; [rewrite !set_eq, Eo; simpl; lia|by rewrite !set_ne].
    + apply I.
    + by apply (set_forall (λ p l, Forall (philosopher_sends p) l)); [apply I|].
    + apply I.
Qed.

Lemma table_inv_run n l w : inv n w → inv n (run l w).
Proof. revert w. induction l as [|e l IH]; intros w I; cbn [run]; [done|]. by apply IH, table_inv_step. Qed.

(** A fork has one owner, who alone may have it. *)
Lemma holds_owner n w f p : inv n w → holds f (phils w p) ≠ 0 → owned_by (forks w f) = Some p.
Proof.
  intros I H. pose proof (inv_token _ _ I f p) as Ht. unfold token in Ht. case_bool_decide; [done|]. simpl in Ht. lia.
Qed.

Lemma eating_holds n w p :
  inv n w → p_alive w p = true → mode (phils w p) = Eating → holds p (phils w p) ≠ 0 ∧ holds (right_of n p) (phils w p) ≠ 0.
Proof.
  intros I Ha He. destruct (inv_seats _ _ I p) as [El Er], (inv_eating _ _ I p Ha He) as [Hl Hr]. unfold holds.
  rewrite El, Er, Hl, Hr. split; repeat case_bool_decide; simpl; lia || done.
Qed.

(** C39: Whatever the interleaving of the actors, the casts and the timers, and whichever actors stop or panic, a philosopher
    who eats is the recorded owner of both its forks, so that the philosophers next to it do not eat. *)
Theorem neighbours_never_eat_together n slice l p :
  let w := run l (table n slice) in
  p_alive w p = true → mode (phils w p) = Eating →
  owned_by (forks w p) = Some p ∧ owned_by (forks w (right_of n p)) = Some p ∧
  ∀ q, q ≠ p → right_of n p = q ∨ right_of n q = p → p_alive w q = true → mode (phils w q) ≠ Eating.
Proof.
  intros w Ha He. assert (inv n w) as I by apply table_inv_run, table_inv_init. destruct (eating_holds n w p I Ha He) as [Hl Hr].
  split_and!; [by eapply holds_owner..|]. intros q Hne Hn Hq Hqe. destruct (eating_holds n w q I Hq Hqe) as [Ql Qr].
  apply (holds_owner n w _ _ I) in Hl, Hr, Ql, Qr. destruct Hn; congruence.
Qed.
End table.

(** ** The table of the example *)

Definition seats : list nat := seq 0 11.

(** Everyone asks for the left fork before anyone asks for the right one, gives the left one up, gets the right one
    and, hungry again, waits for the left one. *)
Definition deadlock_schedule : list Event :=
  let all (f : nat → Event) := f <$> seats in
  all HandlePhilosopher ++ all EmitPhilosopher ++ all EmitPhilosopher ++
  all HandleFork ++ all HandleFork ++ all EmitFork ++ all HandleFork ++ all EmitFork ++
  all HandlePhilosopher ++ all HandlePhilosopher ++ all EmitPhilosopher ++ all EmitPhilosopher ++
  all HandleFork ++ all EmitFork ++ all HandlePhilosopher ++
  [Tick 10] ++ all (λ _, Fire 0) ++ all HandlePhilosopher ++ all EmitPhilosopher ++ all HandleFork.

(** Nothing is on its way but questions about the metrics and the answers, and everyone is hungry. *)
Record stuck (w : World) : Prop := {
  stuck_hungry p : p < 11 → mode (phils w p) = Hungry;
  stuck_pq p : Forall (λ m, ∃ r, m = SendMetrics r) (pq w p);
  stuck_p_out p : Forall (λ o, ∃ r m, o = ReplyMetrics r m) (p_out w p);
  stuck_fq f : fq w f = [];
  stuck_f_out f : f_out w f = [];
  stuck_timers : timers w = []
}.

Lemma stuck_send p r w : stuck w → stuck (send_philosopher p (SendMetrics r) w).
Proof.
  intros I. unfold send_philosopher. destruct (p_alive w p); [|done]. split; try apply I. cbn.
  apply (set_forall (λ _ l, Forall (λ m, ∃ r, m = SendMetrics r) l)); [apply I|]. apply Forall_app. split; [apply I|]. constructor; [by eauto|done].
Qed.

Lemma stuck_step oc e w : stuck w → stuck (step oc e w).
Proof.
  intros I. pose proof I as [I1 I2 I3 I4 I5 I6]. destruct e as [f|p|f|p|k|d|p r|f|p]; cbn [step].
  - rewrite I4. by destruct (f_alive w f), (f_out w f).
  - destruct (p_alive w p), (p_out w p), (pq w p) as [|m q] eqn:Eq; try done. pose proof (I2 p) as H. rewrite Eq in H.
    apply Forall_cons in H as [[r ->] H]. cbn. split; cbn; try apply I.
    + apply (set_forall (λ p s, p < 11 → mode s = Hungry)); auto.
    + by apply (set_forall (λ _ l, Forall (λ m, ∃ r, m = SendMetrics r) l)).
    + apply (set_forall (λ _ l, Forall (λ o, ∃ r m, o = ReplyMetrics r m) l)); [done|]. constructor; [by eauto|done].
  - by rewrite I5.
  - destruct (p_out w p) as [|o out] eqn:Eo; [done|]. pose proof (I3 p) as H. rewrite Eo in H. apply Forall_cons in H as [(r & m & ->) H].
    split; cbn; try apply I. by apply (set_forall (λ _ l, Forall (λ o, ∃ r m, o = ReplyMetrics r m) l)).
  - by rewrite I6.
  - by split.
  - by apply stuck_send.
  - rewrite I5. split; cbn; try apply I. by apply (set_forall (λ _ l, l = [])).
  - destruct (p_out w p); [|done]. split; cbn; try apply I.
    + apply (set_forall (λ p s, p < 11 → mode s = Hungry)); auto.
    + by apply (set_forall (λ _ l, Forall (λ m, ∃ r, m = SendMetrics r) l)).
    + by apply (set_forall (λ _ l, Forall (λ o, ∃ r m, o = ReplyMetrics r m) l)).
Qed.

Lemma stuck_run oc l w : stuck w → stuck (run oc l w).
Proof. revert w. induction l as [|e l IH]; intros w I; cbn [run]; [done|]. by apply IH, stuck_step. Qed.

Lemma run_app oc l k w : run oc (l ++ k) w = run oc k (run oc l w).
Proof. revert w. induction l as [|e l IH]; intros w; [done|]. apply IH. Qed.

(** Properties of the seats of the table and of the numbers beyond it, one by one *)
Lemma seat_cases (P : nat → Prop) : Forall P seats → (∀ k, P (11 + k)) → ∀ p, P p.
Proof.
  intros Hs Hk p. destruct (decide (p < 11)).
  - rewrite Forall_forall in Hs. apply Hs. apply elem_of_seq. lia.
  - replace p with (11 + (p - 11)) by lia. apply Hk.
Qed.

Lemma deadlock_stuck oc : stuck (run oc deadlock_schedule (table 11 10)).
Proof.
  split.
  - apply (seat_cases (λ p, p < 11 → mode (phils _ p) = Hungry)); [|lia]. destruct oc; vm_compute; by repeat constructor.
  - apply (seat_cases (λ p, Forall _ (pq _ p))); [|intros k]; destruct oc; vm_compute; by repeat constructor.
  - apply (seat_cases (λ p, Forall _ (p_out _ p))); [|intros k]; destruct oc; vm_compute; by repeat constructor.
  - apply (seat_cases (λ f, fq _ f = [])); [|intros k]; destruct oc; vm_compute; by repeat constructor.
  - apply (seat_cases (λ f, f_out _ f = [])); [|intros k]; destruct oc; vm_compute; by repeat constructor.
  - by destruct oc; vm_compute.
Qed.

(** C40: The eleven philosophers of the example, with their slices of ten milliseconds, can starve: when everyone's request for the left fork
    is handled before the neighbour's request for that fork, everyone ends up with the right fork, clean, waiting for the left one.
    All actors are alive and, whatever happens next, nobody ever leaves that state. *)
Theorem philosophers_deadlock oc :
  (∀ p, p < 11 → let w := run oc deadlock_schedule (table 11 10) in
     p_alive w p = true ∧ f_alive w p = true ∧ has (right (phils w p)) = true ∧ owned_by (forks w (right_of 11 p)) = Some p) ∧
  (∀ l p, p < 11 → mode (phils (run oc (deadlock_schedule ++ l) (table 11 10)) p) = Hungry).
Proof.
  split.
  - apply (seat_cases (λ p, p < 11 → _)); [|lia]. destruct oc; vm_compute; by repeat constructor.
  - intros l p Hp. rewrite run_app. apply stuck_run; [apply deadlock_stuck|done].
Qed.

(** Time spent hungry is counted as time spent eating when the philosopher is told to give up a fork. *)
Lemma hungry_time_counted_as_eating p now f s r s' out :
  mode s = Hungry → give_up_fork false p now f (s, []) = (r, (s', out)) →
  time_eating (metrics s') = (time_eating (metrics s) + (now - last_state_change s))%N ∧ time_hungry (metrics s') = time_hungry (metrics s).
Proof.
  intros Em. rewrite give_up_split, Em.
  assert (metrics (put_down p f s).1 = metrics s ∧ last_state_change (put_down p f s).1 = last_state_change s) as [H1 H2]
    by (unfold put_down; by repeat case_bool_decide; destruct (has (left s)), (has (right s))).
  destruct (put_down p f s) as [s1 out1]. cbn in H1, H2. rewrite <-H1, <-H2.
  unfold count_failure, begin_thinking, count_change, mbind, M_bind, mret, M_ret, ask, upd, tell, gets, modify, incr16. cbn.
  repeat case_bool_decide; cbn; repeat case_bool_decide; by intros [= <- <- <-].
Qed.

(** Of four philosophers, two that face each other eat. *)
Definition facing : list Event :=
  let eat p f g := [HandlePhilosopher p; EmitPhilosopher p; EmitPhilosopher p; HandleFork f; HandleFork g; EmitFork f; EmitFork g;
                    HandlePhilosopher p; HandlePhilosopher p] in
  eat 0 0 3 ++ eat 2 2 1.

Lemma neighbours_never_eat_together_witness :
  let w := run true facing (table 4 10) in
  mode (phils w 2) = Eating ∧ owned_by (forks w 0) = Some 0 ∧ owned_by (forks w 3) = Some 0 ∧ mode (phils w 1) ≠ Eating.
Proof.
  assert (let w := run true facing (table 4 10) in p_alive w 0 = true ∧ mode (phils w 0) = Eating ∧ mode (phils w 2) = Eating ∧ p_alive w 1 = true)
    as (Ha & He & H2 & H1) by (split_and!; vm_compute; reflexivity).
  destruct (neighbours_never_eat_together true 4 10 facing 0 Ha He) as (A & B & C).
  split_and!; [exact H2|exact A|exact B|]. apply C; [discriminate|right; reflexivity|exact H1].
Defined.
